(* ===== verification/_CoqProject ===== *)
-Q . S2P
Prelude.v
Float64.v
Errors.v
CdcTypes.v
Config.v
Retention.v
Visibility.v
Relation.v
Catalog.v
Decoder.v
DecoderProps.v
Events.v
SnapshotRead.v
Hub.v
HubRegistry.v
HubAccept.v
HubWindow.v
HubProps.v
HubWatch.v
HubSystem.v
HubProtocol.v
HubDelivery.v
HubProgress.v
HubMemo.v
Reader.v
ReaderProps.v
Wal.v
Bootstrap.v
Connection.v
Source.v
Wire.v
Server.v
Store.v
Client.v
ClientProps.v
Limits.v
Mirror.v
Table.v
Sessions.v
Monitor.v
Telemetry.v
Ops.v
Durations.v
Daemon.v
Metrics.v
Instruments.v
Counters.v
Harness.v
Pipeline.v
