(* ===== verification/Prelude.v ===== *)
(** * watchd: a verification development

    watchd streams PostgreSQL's logical replication to clients that each watch
    one scope of a projection table. This library models the Go program and
    proves what makes it correct. This file is its root: the overview below,
    and the notations, tactics and lemmas the other files share.

    ** The program

    - [internal/cdc] reads one replication slot. [Reader.Run] opens a stream,
      the [Decoder] folds pgoutput messages into transactions, the sink accepts
      each one and only then is its position acknowledged. [Reader.Snapshot]
      reads a scope inside one MVCC snapshot, [Bootstrap] creates the slot
      together with its first snapshot, [Source] decides which of the two a
      snapshot call is and runs the one [Run] loop. Table shapes are checked in
      the catalog and again in the stream; the retention monitor bounds the WAL
      the slot retains.
    - [internal/watch] is the sink. [Hub.Accept] puts a transaction into the
      replay window and into the queue of every watcher it concerns;
      [Hub.Watch] resumes a watcher from the window, or takes a snapshot through
      the source, and then streams [Batch] and [Progress] events, or tells the
      client to [Resync].
    - [internal/server] turns a watch's events into protobuf messages on a gRPC
      stream, sharing the encoding of a batch between its watchers; [sdk/go]
      turns them back and keeps a [Store] in step.
    - [internal/daemon] and [cmd/watchd] load the configuration, assemble one
      process and take it down in order; [internal/ops] and
      [internal/telemetry] show its state.

    ** Files

    The data and the reader:
    - Float64.v: Go's [float64], executable, with its order and its literals.
    - Errors.v: errors.go; error values, wrapping, [errors.Is], retry rules,
      PostgreSQL's codes, and the error classes of metrics.go.
    - CdcTypes.v: types.go; values, changes, transactions, cursors.
    - Config.v: config.go and the static part of validation.go.
    - Retention.v, Monitor.v: retention_policy.go, retention.go; the policy on
      one sample, and the monitor's loop over many.
    - Visibility.v: visibility.go and [Snapshot.Covers], and the test
      constructors of testing.go.
    - Relation.v, Catalog.v: relation.go, validation.go, slot.go; shapes and
      baselines, and what is read from the catalogs.
    - Decoder.v, DecoderProps.v: decoder.go.
    - SnapshotRead.v: snapshot.go, with the SQL of every page of a scope's read,
      and what a small part of SQL means on a table.
    - Reader.v, ReaderProps.v: stream.go and reader.go; one connection, many
      connections, [Run], [Stats].
    - Wal.v: the log as a list of transactions with their rows, what a stream
      carries of it, and what a [Run] makes of that.
    - Bootstrap.v: bootstrap.go. Source.v: source.go, its calls and its two
      goroutines as program counters around one mutex. Connection.v: cdc.go and
      connections.go, from a URL to a connection, and how failing to connect
      reaches [Run].

    The hub, internal/watch/hub.go and event.go:
    - Events.v: the events and the shared [Memo].
    - Hub.v: the hub's state and every section that runs under its lock.
    - HubRegistry.v, HubAccept.v, HubWindow.v: the invariants of the routes, of
      delivery and of the replay window; HubProps.v: the theorems on one locked
      step.
    - HubWatch.v: every [Watch] call as a goroutine, one step between two
      points where another can interleave, and the step of the whole system.
    - HubSystem.v: its reachable states and their invariant; HubProtocol.v,
      HubDelivery.v, HubProgress.v, HubMemo.v: what every interleaving keeps.

    The API and its client:
    - Wire.v: the messages of watch.proto; encoding and streams are the classes
      [Proto] and what the server needs of a stream.
    - Server.v: server.go. Store.v, Client.v, ClientProps.v: store.go,
      client.go, types.go. Mirror.v: the composition of hub, server and client.
    - Limits.v: the bytes a decoder's transaction can be on the wire, against the
      message limit of [Dial].
    - Table.v: the table a scope shows, row by row, after a history; rows that
      see some transactions of it and not others. Sessions.v: a client's turns
      of [Sync], one session after the other, against one history.

    The process:
    - Daemon.v: config.go, daemon.go and main.go. Durations.v: the durations in
      the configuration. Ops.v: ops.go.
    - Telemetry.v: telemetry.go, runtime.go, attrs.go. Instruments.v: the
      instruments and attribute sets each package creates. Metrics.v: what the
      gauges show and single events count. Counters.v: the reader again, with
      what it counts and times as it streams. Harness.v: telemetrytest.go, the
      collection the tests assert on.
    - Pipeline.v: the reader, the source and the hub that one configuration
      builds, as one of the systems of HubSystem.v.

    ** How the code is modelled

    A struct is a record and a method a function on it, with the source's name
    where Rocq allows it. Fallible functions return [result]. Go's integers are
    [Z]; where one can overflow, the conversion or the wrap-around is written
    out ([wrap_u64] and its like). Strings are byte strings. Maps are [gmap]s.
    A pointer that is shared is a name in a store: the hub's watchers and
    routes, and the memos, are heaps of objects, so aliasing is visible.

    What PostgreSQL, the network, a timer or a [select] answers is an input of
    the function or of the step, so a theorem over all inputs covers every
    answer, failures included. Concurrency is a step relation: labels for the
    calls and for each goroutine's steps, and theorems by induction over every
    run of labels. A section under a mutex is one step where nothing in it can
    block; [Source] calls PostgreSQL while it holds its own, so there the mutex
    is explicit, and who waits for it.

    Third-party code is a class: the text of an LSN (pglogrepl), pgoutput's
    parsers, pgx's quoting of identifiers, protobuf's encoding, the JSON and
    YAML decoders, a client's store.
    A law of one is a class of its own ([LsnTextLaws], [ProtoLaws],
    [StoreLaws]), states what its documentation says, and has an instance, so
    no theorem is vacuous: [MemoryStore] is the store, and the other instances
    are small concrete codecs.

    ** What is proved

    - From the log to the hub (Wal.v, Pipeline.v): across reconnects and repeats
      the sink is handed the log's transactions after the slot, in order, none
      missing, their rows decoded, less the rows of relations that did not fit
      the baselines when they came; snapshots may record baselines between any
      two messages. So the history the hub's theorems speak of is the log's, and
      what else they assume the program's own reader and source provide. What a
      table that stops fitting reports is not compared.
    - From the hub to the client (Mirror.v, Sessions.v): the SDK's own [stream],
      on what its server sent, holds the snapshot's rows with its transactions
      applied; and over any number of turns of [Sync], refused, cut off,
      resynced or resumed at any hub, its rows become the table. A resume needs
      a stored cursor that does not overstate ([trusted]): one that came with a
      batch, or from a Progress that is neither a dropped watch's nor an early
      fallback, the two findings below. A session that starts from a snapshot
      needs nothing of what came before. What these need of PostgreSQL is named:
      [wal_ok], [served] and [stream_of] for its streams, [from_snapshot] and
      [history_ok] for its snapshots and its commit order.
    - The hub: each watch gets the transactions it is owed, each once and in
      commit order; a Progress of a watch that was not dropped is true, but for
      the fallback of one that the hub has nothing for yet; the order of a
      stream's events; no wake-up is lost; the replay window is a suffix of
      history and a resume replays it or asks for a resync.
    - The reader: across reconnects nothing is acknowledged that was not
      accepted; [Run] gives up after its retries; the monitor stops the stream
      exactly at the budget, and the policy moves as its thresholds say;
      decoding is exact and bounded; a snapshot delivers its scope once and in
      order, if PostgreSQL gives the SQL it is sent its meaning ([executes]);
      Bootstrap owns exactly the slot it created; a source has one stream and
      one bootstrap at a time, and gets to its end once its context is cancelled
      or its [Run] returns.
    - The server and the client: conversions lose nothing, messages stay within
      their size, the client refines an abstract replica, and reports as fresh
      only what a Progress confirmed.
    - The process: a configuration that loads can be started; startup and
      shutdown are in order at every moment of every path; a URL that cannot be
      used ends [Run] at once.
    - Telemetry: the gauges and the counters show what [Stats] shows, and
      measuring changes nothing; creating the instruments never panics, fails
      exactly when the meter does ([reader_metrics_complete] and its like), and
      leaves no option missing that recording looks up; what the components
      record passes the tests' assertion on attributes
      ([components_pass_assertion]).
    - Limits: what the decoder lets through fits the message limit of a default
      client, for changes with at most 32 columns that have almost nothing in
      them.
    - Where the code does not do what it means to, a theorem shows the run that
      goes wrong: [dropped_watch_overstates_progress],
      [snapshot_fallback_overstates_progress],
      [eviction_forgets_schema_change], [record_forgets_renamed_table],
      [wide_batch_exceeds].
      Theorems about the intended behaviour carry the condition that excludes
      these runs.

    ** Fuel

    Loops are structural in the list of inputs they consume, with these
    exceptions. [scanScopedRows] takes fuel, and [Snapshot_reads_scope] proves
    that one turn more than the table has rows is enough. [evict_loop] drops a
    transaction a turn, so the ring's length is enough ([Accept_window] has the
    bound it leaves). [format_digits] writes the 20 digits a 64-bit number can
    have. [fall] steps down at most the three states there are. [TrimSpace]
    removes at least a byte a turn, so the length is enough. [powersOf4]
    multiplies until its limit, and [powersOf4_ascends] proves 514 turns enough
    for any limit. [ParseDuration] takes a byte at least from its text a turn.
    The loops of a connection, of [Run], of a stream and of [Sync] are as long
    as the inputs given; that they end is a theorem where the code promises it
    ([Run_bounded], [source_stops], [Sync_returns_only]). [Source]'s steps are
    bounded by [work], a sum over its goroutines and calls.

    ** Not modelled

    The generated API code and the third-party libraries; of protobuf's encoding
    only the sizes of a batch's message, in Limits.v. Log lines, and the texts of
    errors and of instruments' descriptions. The durations the hub, the server
    and the client record in histograms; the reader's are in Counters.v. The
    jitter of the client's waits; the random source of the reader's is an
    argument. Deadlines: that a timeout fires is an input, that it fires in time
    is not stated. The process's telemetry resource, which is the SDK's. The
    example client, which only dials, syncs and prints. *)

From stdpp Require Export base tactics list gmap sets strings relations sorting.
From Stdlib Require Export ZArith Lia.
From Stdlib Require Import Ascii.

Local Open Scope Z_scope.

#[global] Arguments String.append !_ _ / : simpl nomatch.

(** ** Results of fallible Go functions *)

Inductive result (E A : Type) : Type :=
| Ok (a : A)
| Err (e : E).
Arguments Ok {E A} a.
Arguments Err {E A} e.

#[export] Instance result_eq_dec {E A} `{EqDecision E, EqDecision A} : EqDecision (result E A).
Proof. solve_decision. Defined.

Definition result_bind {E A B} (r : result E A) (k : A → result E B) : result E B :=
  match r with Ok a => k a | Err e => Err e end.

Declare Scope go_scope.
Delimit Scope go_scope with go.
Notation "'let!' x := r 'in' k" := (result_bind r (λ x, k))
  (at level 10, x pattern, r at level 100, k at level 200) : go_scope.
Open Scope go_scope.

(** ** Machine integers

    Go integers are kept as [Z]; these are the conversions that wrap. *)

Definition wrap_u32 (z : Z) : Z := z mod 2 ^ 32.
Definition wrap_u64 (z : Z) : Z := z mod 2 ^ 64.
Definition wrap_i32 (z : Z) : Z := (z + 2 ^ 31) mod 2 ^ 32 - 2 ^ 31.
Definition wrap_i64 (z : Z) : Z := (z + 2 ^ 63) mod 2 ^ 64 - 2 ^ 63.

Definition is_u32 (z : Z) : Prop := 0 ≤ z < 2 ^ 32.
Definition is_u64 (z : Z) : Prop := 0 ≤ z < 2 ^ 64.
Definition is_i64 (z : Z) : Prop := - 2 ^ 63 ≤ z < 2 ^ 63.

#[export] Instance is_u32_dec z : Decision (is_u32 z) := _.
#[export] Instance is_u64_dec z : Decision (is_u64 z) := _.
#[export] Instance is_i64_dec z : Decision (is_i64 z) := _.

(** ** Go strings: byte sequences

    The pieces of package [strings] and [strconv] the sources call, at the
    one-byte separators they are called with. *)

(** [len(s)]. *)
Definition slen (s : string) : Z := Z.of_nat (String.length s).

(** [len(l)] of a slice. *)
Definition zlen {A} (l : list A) : Z := Z.of_nat (length l).

(** [strings.Contains(s, c)]. *)
Fixpoint contains_char (c : ascii) (s : string) : bool :=
  match s with
  | EmptyString => false
  | String a s' => bool_decide (a = c) || contains_char c s'
  end.

(** [strings.Cut(s, c)]: the text before and after the first [c]. *)
Fixpoint cut_char (c : ascii) (s : string) : option (string * string) :=
  match s with
  | EmptyString => None
  | String a s' =>
      if decide (a = c) then Some (EmptyString, s')
      else '(before, after) ← cut_char c s'; Some (String a before, after)
  end.

(** [strings.Split(s, c)]. *)
Fixpoint split_char (c : ascii) (s : string) : list string :=
  match s with
  | EmptyString => [EmptyString]
  | String a s' =>
      if decide (a = c) then EmptyString :: split_char c s'
      else match split_char c s' with
           | [] => [String a EmptyString]
           | part :: parts => String a part :: parts
           end
  end.

(** [strings.Join(parts, c)]. *)
Fixpoint join_char (c : ascii) (parts : list string) : string :=
  match parts with
  | [] => EmptyString
  | [part] => part
  | part :: parts' => String.append part (String c (join_char c parts'))
  end.

(** [strings.HasPrefix] and [strings.Contains] for a longer needle. *)
Fixpoint has_prefix (needle s : string) : bool :=
  match needle, s with
  | EmptyString, _ => true
  | String a needle', String b s' => bool_decide (a = b) && has_prefix needle' s'
  | String _ _, EmptyString => false
  end.

Fixpoint contains_string (needle s : string) : bool :=
  has_prefix needle s ||
  match s with
  | EmptyString => false
  | String _ s' => contains_string needle s'
  end.

(** [strings.ToLower] on ASCII letters. The needles it is used with are ASCII
    and no non-ASCII letter lowers to one of theirs. *)
Definition lower_ascii (a : ascii) : ascii :=
  let n := Ascii.nat_of_ascii a in
  if decide (65 ≤ n ≤ 90)%nat then Ascii.ascii_of_nat (n + 32) else a.

Fixpoint to_lower (s : string) : string :=
  match s with
  | EmptyString => EmptyString
  | String a s' => String (lower_ascii a) (to_lower s')
  end.

(** A decimal digit and the value of one. *)
Definition digit_value (a : ascii) : option Z :=
  let n := Z.of_nat (Ascii.nat_of_ascii a) in
  if decide (48 ≤ n ≤ 57) then Some (n - 48) else None.

Fixpoint parse_digits (acc : Z) (s : string) : option Z :=
  match s with
  | EmptyString => Some acc
  | String a s' => d ← digit_value a; parse_digits (10 * acc + d) s'
  end.

(** [strconv.ParseUint(s, 10, 64)]: a non-empty run of decimal digits whose
    value fits 64 bits; a sign, a space or an underscore is an error. *)
Definition parse_uint64 (s : string) : option Z :=
  match s with
  | EmptyString => None
  | _ => n ← parse_digits 0 s; if decide (n < 2 ^ 64) then Some n else None
  end.

(** [strconv.ParseInt(s, 10, 64)]: the same after an optional sign, in range
    of the signed type. *)
Definition parse_int64 (s : string) : option Z :=
  match s with
  | EmptyString => None
  | String a s' =>
      let '(sign, digits) :=
        if decide (a = "+"%char) then (1, s')
        else if decide (a = "-"%char) then (-1, s') else (1, s) in
      n ← parse_uint64 digits;
      if decide (is_i64 (sign * n)) then Some (sign * n) else None
  end.

(** Decimal text of a non-negative integer below [10 ^ fuel]. *)
Definition digit_char (d : Z) : ascii := Ascii.ascii_of_nat (Z.to_nat (48 + d)).

Fixpoint format_digits (fuel : nat) (n : Z) (acc : string) : string :=
  match fuel with
  | O => acc
  | S fuel' =>
      let acc' := String (digit_char (n mod 10)) acc in
      if decide (n / 10 = 0) then acc' else format_digits fuel' (n / 10) acc'
  end.

Definition format_uint (n : Z) : string := format_digits 20 n EmptyString.

(** ** Tactics and hints of the development *)

Create HintDb watchd discriminated.

(** Case analysis on every [match] and [if] of the goal or of a hypothesis,
    with the trivial branches closed. *)
Ltac go_step :=
  match goal with
  | _ => progress simplify_eq/=
  | |- context [decide ?P] => destruct (decide P)
  | H : context [decide ?P] |- _ => destruct (decide P)
  | |- context [bool_decide ?P] => destruct (bool_decide_reflect P)
  | H : context [bool_decide ?P] |- _ => destruct (bool_decide_reflect P)
  | |- context [match ?x with _ => _ end] => destruct x eqn:?
  | H : context [match ?x with _ => _ end] |- _ => destruct x eqn:?
  end.
Ltac go_cases := repeat go_step; try done.

(** ** Lemmas on integers *)

Lemma wrap_i32_id z : - 2 ^ 31 ≤ z < 2 ^ 31 → wrap_i32 z = z.
Proof. intros ?. unfold wrap_i32. rewrite Z.mod_small; lia. Qed.

Lemma wrap_i64_id z : is_i64 z → wrap_i64 z = z.
Proof. unfold is_i64, wrap_i64. intros ?. rewrite Z.mod_small; lia. Qed.

Lemma wrap_u64_id z : is_u64 z → wrap_u64 z = z.
Proof. unfold is_u64, wrap_u64. intros ?. rewrite Z.mod_small; lia. Qed.

Lemma wrap_u32_range z : is_u32 (wrap_u32 z).
Proof. unfold is_u32, wrap_u32. apply Z.mod_pos_bound. lia. Qed.

(** ** Lemmas on lists *)

(** An update that does not change what is projected. *)
Lemma list_fmap_alter_same {A B} (f : A → B) (g : A → A) i (l : list A) :
  (∀ x, f (g x) = f x) → f <$> alter g i l = f <$> l.
Proof.
  intros Hg. apply list_eq. intros j. rewrite !list_lookup_fmap, list_lookup_alter.
  destruct (decide _) as [->|]; [|done]. destruct (l !! j); simpl; [|done]. by rewrite Hg.
Qed.

(** Filters that keep everything, nothing, or the same elements. *)
Lemma list_filter_all {A} (P : A → Prop) `{∀ x, Decision (P x)} (l : list A) :
  Forall P l → base.filter P l = l.
Proof.
  induction 1 as [|x l Hx _ IH]; [done|]. by rewrite filter_cons_True, IH.
Qed.

Lemma list_filter_none {A} (P : A → Prop) `{∀ x, Decision (P x)} (l : list A) :
  Forall (λ x, ¬ P x) l → base.filter P l = [].
Proof.
  induction 1 as [|x l Hx _ IH]; [done|]. by rewrite filter_cons_False.
Qed.

Lemma list_filter_ext {A} (P Q : A → Prop) `{∀ x, Decision (P x)} `{∀ x, Decision (Q x)} (l : list A) :
  (∀ x, x ∈ l → P x ↔ Q x) → base.filter P l = base.filter Q l.
Proof.
  induction l as [|x l IH]; intros Hext; [done|].
  assert (P x ↔ Q x) as Hx by (apply Hext; by left).
  rewrite !filter_cons, IH by (intros y Hy; apply Hext; by right).
  by repeat destruct (decide _); naive_solver.
Qed.

(** The shorter of two prefixes of one list is a prefix of the other. *)
Lemma prefix_split {A} (l1 l2 k1 k2 : list A) :
  l1 ++ l2 = k1 ++ k2 → (length l1 ≤ length k1)%nat → ∃ x, k1 = l1 ++ x ∧ l2 = x ++ k2.
Proof.
  intros Heq Hlen. apply app_eq_inv in Heq as [(x & -> & ->)|(x & -> & ->)]; [|by exists x].
  rewrite length_app in Hlen. destruct x; [|simpl in Hlen; lia]. exists []. by rewrite !app_nil_r.
Qed.

(** ** Sorted lists *)

Section Sorting.
Context {A : Type} (R : A → A → Prop) (P : A → Prop) `{∀ x, Decision (P x)}.

Lemma StronglySorted_filter l : StronglySorted R l → StronglySorted R (base.filter P l).
Proof.
  induction 1 as [|x l Hl IH Hx]; [constructor|]. rewrite filter_cons.
  destruct (decide (P x)); [|done]. constructor; [done|].
  apply Forall_forall. intros y [_ Hy]%list_elem_of_filter. by eapply Forall_forall in Hx.
Qed.

(** A property that, once true along the list, stays true holds of a suffix. *)
Lemma filter_suffix l :
  StronglySorted R l → (∀ x y, R x y → P x → P y) →
  ∃ l1, l = l1 ++ base.filter P l ∧ ∀ x, x ∈ l1 → ¬ P x.
Proof.
  intros Hs HP. induction Hs as [|x l Hl (l1 & IH & Hno) Hx]; [exists []; split; [done|set_solver]|].
  rewrite filter_cons.
  destruct (decide (P x)) as [Hp|Hp].
  - exists []. split; [|set_solver]. simpl. f_equal. symmetry. apply list_filter_all, Forall_forall.
    intros y Hy. eapply Forall_forall in Hx; [|done]. by eapply HP.
  - exists (x :: l1). split; [simpl; by f_equal|set_solver].
Qed.

End Sorting.

(** ** Lemmas on strings *)

Lemma string_app_nil_r (s : string) : String.append s EmptyString = s.
Proof. induction s; simpl; congruence. Qed.

Lemma string_app_assoc (a b c : string) :
  String.append (String.append a b) c = String.append a (String.append b c).
Proof. induction a; simpl; congruence. Qed.

Lemma string_length_app (a b : string) :
  String.length (String.append a b) = (String.length a + String.length b)%nat.
Proof. induction a; simpl; congruence. Qed.

(** Cutting at the separator of a joined pair gives the pair back. *)
Lemma cut_char_app c before after :
  contains_char c before = false →
  cut_char c (String.append before (String c after)) = Some (before, after).
Proof.
  induction before as [|a before IH]; simpl; intros H; [by rewrite decide_True|].
  apply orb_false_iff in H as [Ha Hb]. apply bool_decide_eq_false in Ha.
  rewrite decide_False by done. by rewrite IH.
Qed.

Lemma cut_char_Some c s before after :
  cut_char c s = Some (before, after) →
  s = String.append before (String c after) ∧ contains_char c before = false.
Proof.
  revert before. induction s as [|a s IH]; intros before; simpl; [done|].
  destruct (decide (a = c)) as [->|Hne]; [by intros [= <- <-]|].
  destruct (cut_char c s) as [[b' a']|]; simpl; [|done]. intros [= <- <-].
  destruct (IH b') as [-> Hb]; [done|]. simpl.
  by rewrite Hb, bool_decide_eq_false_2.
Qed.

Lemma split_char_not_nil c s : split_char c s ≠ [].
Proof. destruct s; simpl; go_cases. Qed.

Lemma split_char_free c part :
  contains_char c part = false → split_char c part = [part].
Proof.
  induction part as [|a part IH]; simpl; [done|].
  intros [Ha Hp]%orb_false_iff. apply bool_decide_eq_false in Ha.
  by rewrite decide_False, IH by done.
Qed.

Lemma split_char_app c part rest :
  contains_char c part = false →
  split_char c (String.append part (String c rest)) = part :: split_char c rest.
Proof.
  induction part as [|a part IH]; simpl; intros H; [by rewrite decide_True|].
  apply orb_false_iff in H as [Ha Hp]. apply bool_decide_eq_false in Ha.
  by rewrite decide_False, IH by done.
Qed.

(** [Split] undoes [Join] on parts that do not contain the separator. *)
Lemma split_join_char c parts :
  parts ≠ [] →
  Forall (λ p, contains_char c p = false) parts →
  split_char c (join_char c parts) = parts.
Proof.
  intros Hne Hall. induction Hall as [|p ps Hp Hps IH]; [done|].
  destruct ps as [|q ps]; [by apply split_char_free|].
  change (join_char c (p :: q :: ps)) with (String.append p (String c (join_char c (q :: ps)))).
  by rewrite split_char_app, IH.
Qed.

Lemma join_char_inj c parts1 parts2 :
  length parts1 = length parts2 →
  Forall (λ p, contains_char c p = false) parts1 →
  Forall (λ p, contains_char c p = false) parts2 →
  join_char c parts1 = join_char c parts2 → parts1 = parts2.
Proof.
  intros Hlen H1 H2 Hj.
  destruct parts1 as [|p ps], parts2 as [|q qs]; try done.
  rewrite <-(split_join_char c (p :: ps)), <-(split_join_char c (q :: qs)) by done.
  by rewrite Hj.
Qed.

(** ** Decimal text *)

Lemma digit_value_char d : 0 ≤ d < 10 → digit_value (digit_char d) = Some d.
Proof.
  intros Hd.
  assert (d = 0 ∨ d = 1 ∨ d = 2 ∨ d = 3 ∨ d = 4 ∨ d = 5 ∨ d = 6 ∨ d = 7 ∨ d = 8 ∨ d = 9) by lia.
  destruct_or!; subst; reflexivity.
Qed.

Lemma parse_format_digits fuel n acc a0 :
  0 ≤ n < 10 ^ Z.of_nat fuel →
  ∃ k, 0 ≤ k ∧ parse_digits a0 (format_digits fuel n acc) = parse_digits (a0 * 10 ^ k + n) acc.
Proof.
  revert n acc. induction fuel as [|fuel IH]; intros n acc Hn.
  { exists 0. change (10 ^ Z.of_nat 0) with 1 in Hn. assert (n = 0) as -> by lia.
    split; [lia|]. simpl. f_equal. lia. }
  assert (0 ≤ n / 10 < 10 ^ Z.of_nat fuel) as Hq.
  { rewrite Nat2Z.inj_succ, Z.pow_succ_r in Hn by lia.
    split; [apply Z.div_pos; lia|apply Z.div_lt_upper_bound; lia]. }
  assert (0 ≤ n mod 10 < 10) by (apply Z.mod_pos_bound; lia).
  pose proof (Z.div_mod n 10 ltac:(lia)) as Hdm.
  cbn [format_digits]. destruct (decide (n / 10 = 0)) as [H0|H0].
  - exists 1. split; [lia|]. cbn [parse_digits]. rewrite digit_value_char by done.
    simpl. f_equal. rewrite Z.pow_1_r. lia.
  - destruct (IH (n / 10) (String (digit_char (n mod 10)) acc) Hq) as (k & Hk & ->).
    exists (k + 1). split; [lia|]. cbn [parse_digits]. rewrite digit_value_char by done.
    simpl. f_equal. rewrite Z.pow_add_r by lia. lia.
Qed.

Lemma format_digits_not_empty fuel n acc : format_digits (S fuel) n acc ≠ EmptyString.
Proof.
  revert n acc. induction fuel as [|fuel IH]; intros n acc.
  - cbn [format_digits]. by destruct (decide (n / 10 = 0)).
  - change (format_digits (S (S fuel)) n acc) with
      (if decide (n / 10 = 0) then String (digit_char (n mod 10)) acc
       else format_digits (S fuel) (n / 10) (String (digit_char (n mod 10)) acc)).
    destruct (decide (n / 10 = 0)); [done|apply IH].
Qed.

(** [ParseUint] reads back the decimal text of every 64-bit value. *)
Lemma parse_format_uint n : is_u64 n → parse_uint64 (format_uint n) = Some n.
Proof.
  unfold is_u64, parse_uint64, format_uint. intros Hn.
  destruct (parse_format_digits 20 n EmptyString 0) as (k & Hk & Hp).
  { split; [lia|]. transitivity (2 ^ 64); [lia|]. done. }
  destruct (format_digits 20 n EmptyString) eqn:E.
  { by apply format_digits_not_empty in E. }
  rewrite Hp. simpl. by rewrite decide_True by lia.
Qed.

(** The decimal text of a number contains only digits. *)
Lemma digit_char_ne d c : 0 ≤ d < 10 → digit_value c = None → digit_char d ≠ c.
Proof. intros Hd Hc <-. by rewrite digit_value_char in Hc. Qed.

Lemma format_digits_free fuel n acc c :
  digit_value c = None → contains_char c acc = false →
  contains_char c (format_digits fuel n acc) = false.
Proof.
  intros Hc. revert n acc. induction fuel as [|fuel IH]; intros n acc Hacc; [done|].
  assert (contains_char c (String (digit_char (n mod 10)) acc) = false) as Hd.
  { simpl. rewrite Hacc, orb_false_r. apply bool_decide_eq_false_2.
    apply digit_char_ne; [apply Z.mod_pos_bound; lia|done]. }
  cbn [format_digits]. destruct (decide _); [done|by apply IH].
Qed.

#[export] Hint Resolve wrap_u32_range split_char_not_nil : watchd.
#[export] Hint Resolve digit_value_char format_digits_free parse_format_uint : watchd.
