(* ===== verification/Float64.v ===== *)
(** * Go's float64

    IEEE 754 binary64 as the Standard Library's executable [SpecFloat], with
    the conversion, operations and comparisons the source uses. *)

From Stdlib Require Export SpecFloat.
From Stdlib Require Import ZArith Lia Number Decimal DecimalZ.
Local Open Scope Z_scope.

Definition float64 : Type := spec_float.

Definition f64_prec : Z := 53.
Definition f64_emax : Z := 1024.

(** [float64(n)] of an integer: to nearest, ties to even. *)
Definition f64_of_int (n : Z) : float64 := binary_normalize f64_prec f64_emax n 0 false.

Definition f64_div (x y : float64) : float64 := SFdiv f64_prec f64_emax x y.
Definition f64_mul (x y : float64) : float64 := SFmul f64_prec f64_emax x y.
Definition f64_add (x y : float64) : float64 := SFadd f64_prec f64_emax x y.
Definition f64_sub (x y : float64) : float64 := SFsub f64_prec f64_emax x y.

(** [math.Min]: NaN if either is, and -0 below +0. *)
Definition f64_min (x y : float64) : float64 :=
  match x, y with
  | S754_nan, _ => S754_nan
  | _, S754_nan => S754_nan
  | S754_zero s, S754_zero s' => S754_zero (s || s')%bool
  | _, _ => if SFltb x y then x else y
  end.

(** [int64(x)], truncated; None out of its range. *)
Definition f64_to_int64 (x : float64) : option Z :=
  match x with
  | S754_zero _ => Some 0
  | S754_finite s m e =>
      let n := if 0 <=? e then Z.pos m * 2 ^ e else Z.pos m / 2 ^ (- e) in
      let n := if s then - n else n in
      if ((- 2 ^ 63 <=? n) && (n <? 2 ^ 63))%bool then Some n else None
  | _ => None
  end.

(** Comparisons are false on NaN. *)
Definition f64_lt (x y : float64) : bool := SFltb x y.
Definition f64_le (x y : float64) : bool := SFleb x y.
Definition f64_eq (x y : float64) : bool := SFeqb x y.

Definition f64_zero : float64 := S754_zero false.
Definition f64_one : float64 := f64_of_int 1.

(** The constants 0.05, 0.2, 0.5 and 0.8, as the compiler rounds them. *)
Definition f64_0_05 : float64 := S754_finite false 7205759403792794 (-57).
Definition f64_0_2 : float64 := S754_finite false 7205759403792794 (-55).
Definition f64_0_5 : float64 := S754_finite false 4503599627370496 (-53).
Definition f64_0_8 : float64 := S754_finite false 7205759403792794 (-53).

(** Each is the correctly rounded quotient. *)
Lemma f64_constants :
  f64_div (f64_of_int 1) (f64_of_int 20) = f64_0_05 /\ f64_div (f64_of_int 1) (f64_of_int 5) = f64_0_2 /\
  f64_div (f64_of_int 1) (f64_of_int 2) = f64_0_5 /\ f64_div (f64_of_int 4) (f64_of_int 5) = f64_0_8.
Proof. vm_compute. auto. Qed.

(** ** Literals *)

(** A decimal literal: the correctly rounded quotient (or product) of its digits
    and a power of ten, which are both exact for at most 15 digits and a power
    up to 22, as all of the source's are. *)
Definition f64_of_decimal (digits exponent : Z) : float64 :=
  if exponent <? 0 then f64_div (f64_of_int digits) (f64_of_int (10 ^ (- exponent)))
  else f64_mul (f64_of_int digits) (f64_of_int (10 ^ exponent)).

Definition f64_of_number (n : Number.number) : option spec_float :=
  match n with
  | Number.Decimal (Decimal.Decimal i f) =>
      Some (f64_of_decimal (Z.of_int (Decimal.app_int i f)) (- Z.of_nat (Decimal.nb_digits f)))
  | Number.Decimal (Decimal.DecimalExp i f e) =>
      Some (f64_of_decimal (Z.of_int (Decimal.app_int i f)) (Z.of_int e - Z.of_nat (Decimal.nb_digits f)))
  | Number.Hexadecimal _ => None
  end.

(** Values are not printed back as literals. *)
Definition f64_to_number (x : spec_float) : option Number.number := None.

Declare Scope f64_scope.
Delimit Scope f64_scope with f64.
Number Notation spec_float f64_of_number f64_to_number : f64_scope.

Example f64_literals :
  0.05%f64 = f64_0_05 /\ 0.2%f64 = f64_0_2 /\ 0.5%f64 = f64_0_5 /\ 0.8%f64 = f64_0_8 /\
  1e-6%f64 = f64_div f64_one (f64_of_int 1000000) /\ 300%f64 = f64_of_int 300.
Proof. vm_compute. auto 10. Qed.

(** [time.Duration.Seconds], of nanoseconds. *)
Definition f64_seconds (d : Z) : float64 :=
  f64_add (f64_of_int (Z.quot d 1000000000)) (f64_div (f64_of_int (Z.rem d 1000000000)) (f64_of_int 1000000000)).

(** ** The order *)

(** The order is lexicographic on a key: the sign's class, then exponent and
    mantissa. NaN has none. *)
Definition f64_key (x : float64) : option (Z * Z * Z) :=
  match x with
  | S754_nan => None
  | S754_infinity true => Some (0, 0, 0)
  | S754_finite true m e => Some (1, - e, - Z.pos m)
  | S754_zero _ => Some (2, 0, 0)
  | S754_finite false m e => Some (3, e, Z.pos m)
  | S754_infinity false => Some (4, 0, 0)
  end.

Definition key_lt (a b : Z * Z * Z) : Prop :=
  let '(a1, a2, a3) := a in let '(b1, b2, b3) := b in
  a1 < b1 \/ (a1 = b1 /\ (a2 < b2 \/ (a2 = b2 /\ a3 < b3))).

Lemma f64_lt_key x y :
  f64_lt x y = true <->
  exists a b, f64_key x = Some a /\ f64_key y = Some b /\ key_lt a b.
Proof.
  unfold f64_lt, SFltb. split.
  - destruct x as [s|[]| |[] m e], y as [s'|[]| |[] m' e']; simpl; try discriminate; intros H;
      eexists; eexists; (split; [reflexivity|split; [reflexivity|]]); simpl; try lia.
    + destruct (Z.compare_spec e e') as [->| |]; try discriminate; [|lia].
      change (Pos.compare_cont Eq m m') with (Pos.compare m m') in H.
      destruct (Pos.compare_spec m m'); try discriminate H. lia.
    + destruct (Z.compare_spec e e') as [->| |]; try discriminate; [|lia].
      change (Pos.compare_cont Eq m m') with (Pos.compare m m') in H.
      destruct (Pos.compare_spec m m'); try discriminate H. lia.
  - intros (a & b & Ha & Hb & Hlt).
    destruct x as [s|[]| |[] m e], y as [s'|[]| |[] m' e']; simpl in *; try discriminate;
      injection Ha as <-; injection Hb as <-; simpl in Hlt; try reflexivity; try lia.
    + destruct (Z.compare_spec e e') as [->| |]; try reflexivity; [|lia].
      change (Pos.compare_cont Eq m m') with (Pos.compare m m').
      destruct (Pos.compare_spec m m'); try reflexivity; lia.
    + destruct (Z.compare_spec e e') as [->| |]; try reflexivity; [|lia].
      change (Pos.compare_cont Eq m m') with (Pos.compare m m').
      destruct (Pos.compare_spec m m'); try reflexivity; lia.
Qed.

Lemma f64_le_lt x y : f64_le x y = true -> f64_lt y x = false.
Proof.
  unfold f64_le, f64_lt, SFleb, SFltb.
  destruct x as [s|[]| |[] m e], y as [s'|[]| |[] m' e']; simpl; try reflexivity; try discriminate.
  - rewrite (Z.compare_antisym e e'). destruct (e ?= e') eqn:E; simpl; try discriminate; try reflexivity.
    change (Pos.compare_cont Eq m' m) with (Pos.compare m' m). change (Pos.compare_cont Eq m m') with (Pos.compare m m').
    rewrite (Pos.compare_antisym m m'). destruct (Pos.compare m m'); simpl; try reflexivity; discriminate.
  - rewrite (Z.compare_antisym e e'). destruct (e ?= e') eqn:E; simpl; try discriminate; try reflexivity.
    change (Pos.compare_cont Eq m' m) with (Pos.compare m' m). change (Pos.compare_cont Eq m m') with (Pos.compare m m').
    rewrite (Pos.compare_antisym m m'). destruct (Pos.compare m m'); simpl; try reflexivity; discriminate.
Qed.

Lemma f64_le_key x y : f64_le x y = true -> exists a b, f64_key x = Some a /\ f64_key y = Some b /\ ~ key_lt b a.
Proof.
  intros Hle. pose proof (f64_le_lt _ _ Hle) as Hlt.
  destruct (f64_key x) as [a|] eqn:Ha; [destruct (f64_key y) as [b|] eqn:Hb|].
  - exists a, b. split; [reflexivity|split; [reflexivity|]]. intros Hk. apply Bool.not_true_iff_false in Hlt.
    apply Hlt, f64_lt_key. eauto.
  - destruct y as [|[]| |[]]; try discriminate Hb. destruct x as [|[]| |[]]; discriminate Hle.
  - destruct x as [|[]| |[]]; try discriminate Ha. discriminate Hle.
Qed.

Lemma f64_lt_le_trans x y z : f64_lt x y = true -> f64_le y z = true -> f64_lt x z = true.
Proof.
  intros (a & b & Ha & Hb & Hab)%f64_lt_key (b' & c & Hb' & Hc & Hbc)%f64_le_key.
  rewrite Hb in Hb'. injection Hb' as <-. apply f64_lt_key. exists a, c. split; [exact Ha|split; [exact Hc|]].
  destruct a as [[a1 a2] a3], b as [[b1 b2] b3], c as [[c1 c2] c3]. simpl in *. lia.
Qed.
