(* ===== verification/Errors.v ===== *)
(** * Errors: internal/cdc/errors.go

    Go error values as an inductive type: the sentinels of the [cdc] package,
    [classifiedError], PostgreSQL's [PgError], and the wrappings [fmt.Errorf]
    builds with [%w]. [errors_is] and [as_classified] are [errors.Is] and
    [errors.AsType] on those trees; on top of them, the retry and
    classification rules of the reader. *)

From S2P Require Import Prelude.
Local Open Scope string_scope.
Local Open Scope list_scope.
Local Open Scope Z_scope.

(** The sentinel errors of internal/cdc and the two of package [context]. *)
Inductive sentinel : Type :=
| ErrInvalidReaderConfig | ErrMalformedReplicationData | ErrUnexpectedReplicationMessage
| ErrReplicationEnded | ErrSlotInvalidated | ErrSlotInUse | ErrSinkRejected
| ErrRetryExhausted | ErrPostgresServer | ErrSourceUnavailable | ErrInsufficientPrivileges
| ErrBootstrapSlotExists | ErrSlotNotFound | ErrSnapshotWindowClosed | ErrSnapshotSinkRequired
| ErrDatabaseURLRequired | ErrInvalidDatabaseURL
| ErrTransactionInProgress | ErrNoTransaction | ErrUnknownRelation
| ErrUnsupportedPGOutputMessage | ErrTransactionTooLarge | ErrTransactionTooManyChanges
| ErrPrimaryKeyChangeUnsupported | ErrUnsupportedColumnEncoding | ErrValueTooLarge
| ErrNoCursors | ErrInvalidCursor
| ErrSourceNotStarted | ErrSourceAlreadyStarted | ErrSourceStopped
| ErrRetainedWALBudgetExceeded | ErrIncompatibleRelation
| ErrContextCanceled | ErrContextDeadlineExceeded.

#[export] Instance sentinel_eq_dec : EqDecision sentinel.
Proof. solve_decision. Defined.

(** An error value. [EClassified] is [*classifiedError], whose [Unwrap] is its
    kind; [EPg] is [*pgconn.PgError]; [EWrap] and [EWrap2] are [fmt.Errorf]
    with one and with two [%w] verbs; [EOther] is an error that wraps nothing. *)
Inductive error : Type :=
| ESentinel (s : sentinel)
| EClassified (kind : sentinel) (retryable : bool) (sqlState : string)
| EPg (sqlState message : string)
| EWrap (inner : error)
| EWrap2 (e1 e2 : error)
| EOther (text : string).

#[export] Instance error_eq_dec : EqDecision error.
Proof. solve_decision. Defined.

(** [errors.Is(err, target)]. *)
Fixpoint errors_is (err : error) (target : sentinel) : bool :=
  match err with
  | ESentinel s => bool_decide (s = target)
  | EClassified kind _ _ => bool_decide (kind = target)
  | EPg _ _ | EOther _ => false
  | EWrap inner => errors_is inner target
  | EWrap2 e1 e2 => errors_is e1 target || errors_is e2 target
  end.

(** [errors.AsType[*classifiedError](err)]: the first one, depth first. *)
Fixpoint as_classified (err : error) : option (sentinel * bool * string) :=
  match err with
  | EClassified kind retryable sqlState => Some (kind, retryable, sqlState)
  | EWrap inner => as_classified inner
  | EWrap2 e1 e2 =>
      match as_classified e1 with
      | Some c => Some c
      | None => as_classified e2
      end
  | _ => None
  end.

(** [errors.AsType[*pgconn.PgError](err)]. *)
Fixpoint as_pg_error (err : error) : option (string * string) :=
  match err with
  | EPg sqlState message => Some (sqlState, message)
  | EWrap inner => as_pg_error inner
  | EWrap2 e1 e2 =>
      match as_pg_error e1 with
      | Some c => Some c
      | None => as_pg_error e2
      end
  | _ => None
  end.

(** The sentinels [isRetryable] refuses to retry. *)
Definition terminal_sentinels : list sentinel :=
  [ErrInvalidReaderConfig; ErrInvalidDatabaseURL; ErrMalformedReplicationData;
   ErrUnexpectedReplicationMessage; ErrSlotInvalidated; ErrPostgresServer;
   ErrTransactionTooLarge; ErrTransactionTooManyChanges; ErrUnsupportedPGOutputMessage;
   ErrUnsupportedColumnEncoding; ErrValueTooLarge; ErrSinkRejected].

Definition isRetryable (err : error) : bool :=
  match as_classified err with
  | Some (_, retryable, _) => retryable
  | None => forallb (λ s, negb (errors_is err s)) terminal_sentinels
  end.

Definition retryableError (kind : sentinel) (sqlState : string) : error :=
  EClassified kind true sqlState.

Definition terminalError (kind : sentinel) (sqlState : string) : error :=
  EClassified kind false sqlState.

Definition classifySQLState (sqlState message : string) : error :=
  if contains_string "requested wal segment" (to_lower message) &&
     contains_string "removed" (to_lower message)
  then terminalError ErrSlotInvalidated sqlState
  else if decide (sqlState = "42501") then terminalError ErrInsufficientPrivileges sqlState
  else if decide (sqlState = "42704") then terminalError ErrSlotInvalidated sqlState
  else if decide (sqlState = "55006") then retryableError ErrSlotInUse sqlState
  else if decide (sqlState = "57P01" ∨ sqlState = "57P02" ∨ sqlState = "57P03")
  then retryableError ErrReplicationEnded sqlState
  else terminalError ErrPostgresServer sqlState.

(** [classifyErrorResponse] applies the same rule to a wire message. *)
Definition classifyErrorResponse (code message : string) : error :=
  classifySQLState code message.

Definition classifyPostgresError (err : error) : error :=
  match as_pg_error err with
  | Some (sqlState, message) => classifySQLState sqlState message
  | None => err
  end.

Definition classifyConnectionError (err : error) : error :=
  if errors_is err ErrInvalidDatabaseURL || errors_is err ErrDatabaseURLRequired then err
  else
    let classified := classifyPostgresError err in
    if errors_is classified ErrInsufficientPrivileges then classified
    else EWrap (ESentinel ErrSourceUnavailable).

Definition isDuplicateObject (err : error) : bool :=
  match as_pg_error err with
  | Some (sqlState, _) => bool_decide (sqlState = "42710")
  | None => false
  end.

(** ** internal/cdc/metrics.go: the error_class attribute *)

Definition errorClasses : list (sentinel * string) :=
  [(ErrRetainedWALBudgetExceeded, "retention_budget_exceeded");
   (ErrSlotInvalidated, "slot_invalidated");
   (ErrSlotInUse, "slot_in_use");
   (ErrSlotNotFound, "slot_not_found");
   (ErrSnapshotWindowClosed, "snapshot_window_closed");
   (ErrInsufficientPrivileges, "insufficient_privileges");
   (ErrSourceUnavailable, "source_unavailable");
   (ErrReplicationEnded, "replication_ended");
   (ErrSinkRejected, "sink_rejected");
   (ErrTransactionTooLarge, "transaction_too_large");
   (ErrTransactionTooManyChanges, "transaction_too_large");
   (ErrValueTooLarge, "transaction_too_large");
   (ErrMalformedReplicationData, "malformed_data");
   (ErrUnexpectedReplicationMessage, "malformed_data");
   (ErrUnsupportedPGOutputMessage, "unsupported_change");
   (ErrUnsupportedColumnEncoding, "unsupported_change");
   (ErrPrimaryKeyChangeUnsupported, "unsupported_change");
   (ErrInvalidReaderConfig, "invalid_config");
   (ErrPostgresServer, "postgres_server");
   (ErrContextDeadlineExceeded, "timeout")].

Fixpoint first_class (err : error) (classes : list (sentinel * string)) : string :=
  match classes with
  | [] => "other"
  | (s, class) :: rest => if errors_is err s then class else first_class err rest
  end.

Definition errorClass (err : error) : string := first_class err errorClasses.

(** [errorClassNames]: "other", then each class the first time it appears. *)
Fixpoint class_names (seen : list string) (classes : list (sentinel * string)) : list string :=
  match classes with
  | [] => []
  | (_, class) :: rest =>
      if decide (class ∈ seen) then class_names seen rest
      else class :: class_names (class :: seen) rest
  end.

Definition errorClassNames : list string := "other" :: class_names ["other"] errorClasses.

(** ** Lemmas *)

Lemma classifySQLState_classified sqlState message :
  ∃ kind retryable, classifySQLState sqlState message = EClassified kind retryable sqlState.
Proof. unfold classifySQLState, terminalError, retryableError. go_cases; eauto. Qed.

Lemma first_class_elem err classes :
  first_class err classes = "other" ∨ first_class err classes ∈ classes.*2.
Proof.
  induction classes as [|[s c] classes IH]; simpl; [by left|].
  destruct (errors_is err s); [right; by left|].
  destruct IH; [by left|right; by right].
Qed.

Lemma class_names_elem seen classes class :
  class ∈ classes.*2 → class ∈ seen ∨ class ∈ class_names seen classes.
Proof.
  revert seen. induction classes as [|[s c] classes IH]; intros seen; [by intros ?%elem_of_nil|].
  simpl. intros [->|Hin]%elem_of_cons; destruct (decide (c ∈ seen)); [by left|right; by left|auto|].
  destruct (IH (c :: seen) Hin) as [[->|]%elem_of_cons|]; [right; by left|by left|right; by right].
Qed.

(** Every error's class is one of the closed set of names the
    instruments were created with, so a stream error always finds the
    attribute set built for it and never adds a new series. *)
Lemma errorClass_closed err : errorClass err ∈ errorClassNames.
Proof.
  unfold errorClass, errorClassNames.
  destruct (first_class_elem err errorClasses) as [->|Hin]; [by left|].
  destruct (class_names_elem ["other"] errorClasses _ Hin) as [?|?]; [|by right].
  apply list_elem_of_singleton in H as ->. by left.
Qed.
