(* ===== verification/CdcTypes.v ===== *)
(** * The data model of the change stream: internal/cdc/types.go

    Values, changes, transactions and cursors, with the comparisons the rest of
    the program orders them by. [pglogrepl.LSN]'s text form is third-party
    code: it is the class [LsnText], with its documented round trip as the
    class [LsnTextLaws]. *)

From S2P Require Import Prelude Errors.
From Stdlib Require HexString.
Local Open Scope string_scope.
Local Open Scope list_scope.
Local Open Scope Z_scope.

(** ** Values and changes *)

(** [ValueKind] is a [uint8] with three named constants; [ValueKindOther] is
    any other number. *)
Inductive ValueKind : Type :=
| ValueNull
| ValueText
| ValueUnchangedToast
| ValueKindOther (n : Z).

#[export] Instance ValueKind_eq_dec : EqDecision ValueKind.
Proof. solve_decision. Defined.

(** [ValueKind.String]. *)
Definition ValueKind_String (k : ValueKind) : string :=
  match k with
  | ValueNull => "null"
  | ValueText => "text"
  | ValueUnchangedToast => "unchanged-toast"
  | ValueKindOther n => "ValueKind(" +:+ format_uint n +:+ ")"
  end.

Record Value : Type := mkValue { v_kind : ValueKind; v_text : string }.

#[export] Instance Value_eq_dec : EqDecision Value.
Proof. solve_decision. Defined.

Definition TextValue (text : string) : Value := mkValue ValueText text.

(** The zero [Value] is NULL. *)
Definition zero_Value : Value := mkValue ValueNull "".

Definition Value_String (v : Value) : string :=
  match v_kind v with
  | ValueText => v_text v
  | k => ValueKind_String k
  end.

Definition OperationInsert : string := "insert".
Definition OperationUpdate : string := "update".
Definition OperationDelete : string := "delete".

Record Change : Type := mkChange {
  ch_operation : string;
  ch_table : string;
  ch_key : gmap string string;
  ch_columns : list string;
  ch_values : list Value
}.

#[export] Instance Change_eq_dec : EqDecision Change.
Proof. solve_decision. Defined.

(** [Change.Value]: a scan of [Columns]. A column without a value is Go's
    index panic, the outer [None]. *)
Fixpoint value_scan (name : string) (columns : list string) (values : list Value)
    : option (Value * bool) :=
  match columns, values with
  | [], _ => Some (zero_Value, false)
  | c :: columns', v :: values' =>
      if decide (c = name) then Some (v, true) else value_scan name columns' values'
  | c :: columns', [] => if decide (c = name) then None else value_scan name columns' []
  end.

Definition Change_Value (c : Change) (name : string) : option (Value * bool) :=
  value_scan name (ch_columns c) (ch_values c).

(** A Go [map[string]string] read: the zero value when the key is absent. *)
Definition key_at (key : gmap string string) (column : string) : string :=
  default "" (key !! column).

(** ** Cursors *)

Record Cursor : Type := mkCursor { sourceID : string; lsn : Z }.

#[export] Instance Cursor_eq_dec : EqDecision Cursor.
Proof. solve_decision. Defined.

(** The zero [Cursor]. *)
Definition zero_Cursor : Cursor := mkCursor "" 0.

Definition errDifferentSources : error := EOther "cdc: cannot compare cursors from different sources".

(** [Cursor.Compare]. *)
Definition Compare (c other : Cursor) : result error Z :=
  if decide (sourceID c ≠ sourceID other) then Err errDifferentSources
  else if decide (lsn c < lsn other) then Ok (-1)
  else if decide (lsn c > lsn other) then Ok 1
  else Ok 0.

(** [Cursor.BytesAfter]: the [uint64] difference as an [int64]. *)
Definition BytesAfter (c other : Cursor) : Z :=
  if decide (sourceID c ≠ sourceID other ∨ lsn c ≤ lsn other) then 0
  else wrap_i64 (wrap_u64 (lsn c - lsn other)).

Definition IsZero (c : Cursor) : bool := bool_decide (c = zero_Cursor).

(** [pglogrepl.LSN.String] and [pglogrepl.ParseLSN]. *)
Class LsnText : Type := {
  lsn_string : Z → string;
  parse_lsn : string → option Z
}.

(** Their documented behaviour: the text form of a 64-bit LSN parses back to
    it, and what parses is a 64-bit LSN. *)
Class LsnTextLaws `{LsnText} : Prop := {
  parse_lsn_string l : is_u64 l → parse_lsn (lsn_string l) = Some l;
  parse_lsn_range s l : parse_lsn s = Some l → is_u64 l
}.

Definition Cursor_String `{LsnText} (c : Cursor) : string := lsn_string (lsn c).

Definition ParseCursor `{LsnText} (source text : string) : result error Cursor :=
  if decide (source = "") then Err (EWrap (ESentinel ErrInvalidCursor))
  else match parse_lsn text with
       | None => Err (EWrap (ESentinel ErrInvalidCursor))
       | Some l => Ok (mkCursor source l)
       end.

(** [MinCursor]: the loop over [cursors[1:]] with [min] as its state. *)
Fixpoint min_loop (min : Cursor) (cursors : list Cursor) : result error Cursor :=
  match cursors with
  | [] => Ok min
  | cursor :: rest =>
      let! cmp := Compare min cursor in
      min_loop (if decide (cmp > 0) then cursor else min) rest
  end.

Definition MinCursor (cursors : list Cursor) : result error Cursor :=
  match cursors with
  | [] => Err (ESentinel ErrNoCursors)
  | c :: rest => min_loop c rest
  end.

(** ** Transactions *)

(** What [relationShape.diff] and [Decoder.check] can say, each [fmt.Sprintf]
    format as a constructor with its arguments. *)
Inductive shapeDifference : Type :=
| DiffRecreated (oid now : Z)
| DiffIdentity (from to : Z)
| DiffKey (from to : list string)
| DiffDropped (column : string)
| DiffAdded (column : string)
| DiffDroppedOrRenamed (column : string)
| DiffAddedOrMoved (column : string)
| DiffType (column : string) (oid now : Z)
| DiffRenamed (to : string).

#[export] Instance shapeDifference_eq_dec : EqDecision shapeDifference.
Proof. solve_decision. Defined.

(** [*IncompatibleRelationError]. *)
Record IncompatibleRelationError : Type := mkIncompatible {
  inc_table : string;
  inc_difference : shapeDifference
}.

#[export] Instance IncompatibleRelationError_eq_dec : EqDecision IncompatibleRelationError.
Proof. solve_decision. Defined.

(** [CommitTime] is nanoseconds since Go's zero [time.Time]; [0] is the zero
    time. *)
Record Transaction : Type := mkTransaction {
  tx_cursor : Cursor;
  tx_changes : list Change;
  tx_commitTime : Z;
  tx_incompatible : list IncompatibleRelationError;
  tx_commitLSN : Z;
  tx_xid : Z
}.

#[export] Instance Transaction_eq_dec : EqDecision Transaction.
Proof. solve_decision. Defined.

(** [Transaction.After]. *)
Definition After (t : Transaction) (c : Cursor) : result error bool :=
  if decide (sourceID (tx_cursor t) ≠ sourceID c)
  then Err (EOther "cdc: cannot compare a transaction and a cursor from different sources")
  else Ok (bool_decide (lsn c ≤ tx_commitLSN t)).

Record ProjectionSpec : Type := mkSpec {
  sp_sourceID : string;
  sp_schema : string;
  sp_table : string;
  sp_scopeColumn : string;
  sp_primaryKey : list string
}.

#[export] Instance ProjectionSpec_eq_dec : EqDecision ProjectionSpec.
Proof. solve_decision. Defined.

Definition qualifiedTable (namespace relation : string) : string :=
  if decide (namespace = "") then relation else namespace +:+ "." +:+ relation.

(** ** The order cursors of one source have *)

(** Specification of the order: the same source and the smaller position. *)
Definition cursor_le (a b : Cursor) : Prop := sourceID a = sourceID b ∧ lsn a ≤ lsn b.

#[export] Instance cursor_le_dec a b : Decision (cursor_le a b) := _.

#[export] Instance cursor_le_preorder : PreOrder cursor_le.
Proof.
  split; [by intros a; split; [|lia]|].
  intros a b c [Hab ?] [Hbc ?]. split; [congruence|lia].
Qed.

(** A computable instance of the LSN text, for closed examples: the digits of
    the number in base 16. *)
Definition hex_lsn_text : LsnText := {|
  lsn_string l := HexString.of_Z l;
  parse_lsn s := let l := HexString.to_Z s in
                 if decide (is_u64 l) then Some l else None
|}.

#[export] Instance hex_lsn_text_laws : @LsnTextLaws hex_lsn_text.
Proof.
  split; simpl.
  - intros l Hl. by rewrite HexString.to_Z_of_Z, decide_True.
  - intros s l. by destruct (decide _) as [?|?]; [intros [= <-]|].
Qed.

(** ** Lemmas *)

Lemma Compare_spec c other :
  match Compare c other with
  | Ok cmp =>
      sourceID c = sourceID other ∧
      (cmp = -1 ∧ lsn c < lsn other ∨ cmp = 0 ∧ lsn c = lsn other ∨ cmp = 1 ∧ lsn c > lsn other)
  | Err _ => sourceID c ≠ sourceID other
  end.
Proof.
  unfold Compare. destruct (decide (sourceID c ≠ sourceID other)) as [?|H]; [done|].
  apply dec_stable in H. repeat destruct (decide _); split; auto; lia.
Qed.

Lemma After_spec t c after :
  After t c = Ok after →
  sourceID (tx_cursor t) = sourceID c ∧ (after = true ↔ lsn c ≤ tx_commitLSN t).
Proof.
  unfold After. destruct (decide _) as [?|Hs]; [done|]. intros [= <-].
  apply dec_stable in Hs. by rewrite bool_decide_eq_true.
Qed.

Lemma min_loop_spec min cursors :
  match min_loop min cursors with
  | Ok m => m ∈ min :: cursors ∧ ∀ c, c ∈ min :: cursors → cursor_le m c
  | Err _ => ∃ c, c ∈ cursors ∧ sourceID c ≠ sourceID min
  end.
Proof.
  revert min. induction cursors as [|cursor rest IH]; intros min; simpl.
  { split; [by left|]. by intros c ->%list_elem_of_singleton. }
  pose proof (Compare_spec min cursor) as HC.
  destruct (Compare min cursor) as [cmp|e]; simpl; [|exists cursor; split; [by left|congruence]].
  destruct HC as [Hs Hcmp].
  specialize (IH (if decide (cmp > 0) then cursor else min)).
  destruct (min_loop _ rest) as [m|e].
  - destruct IH as [Hin Hle]. split.
    { destruct (decide (cmp > 0)); apply elem_of_cons in Hin as [->|Hin];
        rewrite !elem_of_cons; auto. }
    assert (cursor_le m (if decide (cmp > 0) then cursor else min)) as Hm by (apply Hle; by left).
    intros c [->|[->|Hc]%elem_of_cons]%elem_of_cons;
      [etrans; [exact Hm|]|etrans; [exact Hm|]|apply Hle; by right];
      destruct (decide (cmp > 0)); split; auto; lia.
  - destruct IH as (c & Hc & Hne). exists c. split; [by right|].
    destruct (decide (cmp > 0)); congruence.
Qed.

Lemma ParseCursor_String `{LsnTextLaws} c :
  sourceID c ≠ "" → is_u64 (lsn c) → ParseCursor (sourceID c) (Cursor_String c) = Ok c.
Proof.
  intros Hs Hl. unfold ParseCursor, Cursor_String.
  rewrite decide_False, parse_lsn_string by done. by destruct c.
Qed.

#[export] Hint Resolve ParseCursor_String : watchd.

(** ** Properties *)

(** C37 (equivalence): [MinCursor] is the greatest lower bound the consistent
    cut needs. When it returns a cursor, that cursor is one of the given ones
    and precedes or equals every one of them; it fails exactly when there are
    no cursors or they span more than one source. *)
Theorem MinCursor_consistent_cut cursors :
  match MinCursor cursors with
  | Ok m => m ∈ cursors ∧ ∀ c, c ∈ cursors → cursor_le m c
  | Err _ => cursors = [] ∨ ∃ c c', c ∈ cursors ∧ c' ∈ cursors ∧ sourceID c ≠ sourceID c'
  end.
Proof.
  destruct cursors as [|min rest]; simpl; [by left|].
  pose proof (min_loop_spec min rest) as H. destruct (min_loop min rest); [done|].
  destruct H as (c & Hc & Hne). right. exists c, min. rewrite !elem_of_cons. auto.
Qed.

(** The text of a cursor, persisted by a client and sent
    back, parses to the same cursor of the same source. *)
Theorem ParseCursor_roundtrip `{LsnTextLaws} c :
  sourceID c ≠ "" → is_u64 (lsn c) →
  ParseCursor (sourceID c) (Cursor_String c) = Ok c.
Proof. apply ParseCursor_String. Qed.

Lemma ParseCursor_roundtrip_witness :
  @ParseCursor hex_lsn_text "orders" (@Cursor_String hex_lsn_text (mkCursor "orders" 22020096))
  = Ok (mkCursor "orders" 22020096).
Proof.
  apply (@ParseCursor_roundtrip hex_lsn_text hex_lsn_text_laws (mkCursor "orders" 22020096));
    [done|vm_compute; split; congruence].
Defined.
