(* ===== verification/Config.v ===== *)
(** * Reader configuration: internal/cdc/config.go, and the static checks of
    a projection spec in internal/cdc/validation.go *)

From S2P Require Import Prelude Float64 Errors CdcTypes.
From Stdlib Require Import Ascii.
Local Open Scope string_scope.
Local Open Scope list_scope.
Local Open Scope Z_scope.

(** ** Data. Durations are [time.Duration]'s nanoseconds. *)

Record RetryPolicy : Type := mkRetry {
  rp_initialBackoff : Z;
  rp_maxBackoff : Z;
  rp_maxAttempts : Z;
  rp_jitter : float64
}.

(** [ReaderConfig], without the optional meter and logger. *)
Record ReaderConfig : Type := mkReaderConfig {
  rd_databaseURL : string;
  rd_sourceID : string;
  rd_slotName : string;
  rd_publicationName : string;
  rd_maxTransactionBytes : Z;
  rd_maxTransactionChanges : Z;
  rd_maxValueBytes : Z;
  rd_snapshotBatchRows : Z;
  rd_connectionTimeout : Z;
  rd_statusInterval : Z;
  rd_shutdownTimeout : Z;
  rd_retryPolicy : RetryPolicy;
  rd_maxRetainedWALBytes : Z;
  rd_retentionCheckInterval : Z;
  rd_retentionSampleInterval : Z;
  rd_retentionWarnFraction : float64;
  rd_retentionDegradeFraction : float64
}.

Definition milliseconds (n : Z) : Z := n * 1000000.
Definition seconds (n : Z) : Z := milliseconds (n * 1000).

Definition defaultMaxTransactionBytes : Z := Z.shiftl 16 20.
Definition defaultMaxTransactionChanges : Z := 100000.
Definition defaultMaxValueBytes : Z := Z.shiftl 1 20.
Definition defaultSnapshotBatchRows : Z := 1000.
Definition defaultConnectionTimeout : Z := seconds 10.
Definition defaultStatusInterval : Z := seconds 10.
Definition defaultShutdownTimeout : Z := seconds 5.
Definition defaultInitialBackoff : Z := milliseconds 250.
Definition defaultMaxBackoff : Z := seconds 10.
Definition defaultMaxAttempts : Z := 8.
Definition defaultJitter : float64 := f64_0_2.
Definition defaultMaxRetainedWALBytes : Z := Z.shiftl 1 30.
Definition defaultRetentionCheckInterval : Z := seconds 300.
Definition defaultRetentionSampleInterval : Z := seconds 30.
Definition defaultRetentionWarnFraction : float64 := f64_0_5.
Definition defaultRetentionDegradeFraction : float64 := f64_0_8.

(** [if field == 0 { field = default }]. *)
Definition or_default (field default : Z) : Z := if decide (field = 0) then default else field.
Definition or_default_f64 (field default : float64) : float64 := if f64_eq field f64_zero then default else field.

Definition normalizeReaderConfig (c : ReaderConfig) : ReaderConfig :=
  mkReaderConfig (rd_databaseURL c) (rd_sourceID c) (rd_slotName c) (rd_publicationName c)
    (or_default (rd_maxTransactionBytes c) defaultMaxTransactionBytes)
    (or_default (rd_maxTransactionChanges c) defaultMaxTransactionChanges)
    (or_default (rd_maxValueBytes c) defaultMaxValueBytes)
    (or_default (rd_snapshotBatchRows c) defaultSnapshotBatchRows)
    (or_default (rd_connectionTimeout c) defaultConnectionTimeout)
    (or_default (rd_statusInterval c) defaultStatusInterval)
    (or_default (rd_shutdownTimeout c) defaultShutdownTimeout)
    (mkRetry (or_default (rp_initialBackoff (rd_retryPolicy c)) defaultInitialBackoff)
       (or_default (rp_maxBackoff (rd_retryPolicy c)) defaultMaxBackoff)
       (or_default (rp_maxAttempts (rd_retryPolicy c)) defaultMaxAttempts)
       (or_default_f64 (rp_jitter (rd_retryPolicy c)) defaultJitter))
    (or_default (rd_maxRetainedWALBytes c) defaultMaxRetainedWALBytes)
    (or_default (rd_retentionCheckInterval c) defaultRetentionCheckInterval)
    (or_default (rd_retentionSampleInterval c) defaultRetentionSampleInterval)
    (or_default_f64 (rd_retentionWarnFraction c) defaultRetentionWarnFraction)
    (or_default_f64 (rd_retentionDegradeFraction c) defaultRetentionDegradeFraction).

(** ** Identifiers: [^[a-z_][a-z0-9_$]{0,62}$] *)

Definition ident_first (a : ascii) : bool :=
  let n := nat_of_ascii a in (97 <=? n)%nat && (n <=? 122)%nat || (n =? 95)%nat.

Definition ident_rest (a : ascii) : bool :=
  let n := nat_of_ascii a in
  ident_first a || (48 <=? n)%nat && (n <=? 57)%nat || (n =? 36)%nat.

Fixpoint all_chars (p : ascii → bool) (s : string) : bool :=
  match s with
  | EmptyString => true
  | String a rest => p a && all_chars p rest
  end.

Definition postgresIdentifier (s : string) : bool :=
  match s with
  | EmptyString => false
  | String a rest => ident_first a && all_chars ident_rest rest && (String.length rest <=? 62)%nat
  end.

(** ** Validation *)

(** [sink] says whether one was given. *)
Definition validateReaderConfig (c : ReaderConfig) (sink : bool) : result error unit :=
  let retry := rd_retryPolicy c in
  if decide (rd_databaseURL c = "" ∨ rd_sourceID c = "" ∨ rd_slotName c = "" ∨
             rd_publicationName c = "" ∨ sink = false)
  then Err (ESentinel ErrInvalidReaderConfig)
  else if negb (postgresIdentifier (rd_slotName c)) || negb (postgresIdentifier (rd_publicationName c))
  then Err (EWrap (ESentinel ErrInvalidReaderConfig))
  else if decide (rd_maxTransactionBytes c ≤ 0 ∨ rd_maxTransactionChanges c ≤ 0 ∨ rd_maxValueBytes c ≤ 0 ∨
                  rd_snapshotBatchRows c ≤ 0 ∨ rd_connectionTimeout c ≤ 0 ∨ rd_statusInterval c ≤ 0 ∨
                  rd_shutdownTimeout c ≤ 0)
  then Err (ESentinel ErrInvalidReaderConfig)
  else if decide (rd_maxRetainedWALBytes c ≤ 0 ∨ rd_retentionCheckInterval c ≤ 0 ∨
                  rd_retentionSampleInterval c ≤ 0)
  then Err (ESentinel ErrInvalidReaderConfig)
  else if negb (f64_lt f64_zero (rd_retentionWarnFraction c) &&
                f64_lt (rd_retentionWarnFraction c) (rd_retentionDegradeFraction c) &&
                f64_lt (rd_retentionDegradeFraction c) f64_one)
  then Err (EWrap (ESentinel ErrInvalidReaderConfig))
  else if decide (rd_maxValueBytes c > rd_maxTransactionBytes c)
  then Err (EWrap (ESentinel ErrInvalidReaderConfig))
  else if bool_decide (rp_initialBackoff retry ≤ 0 ∨ rp_maxBackoff retry < rp_initialBackoff retry ∨
                       rp_maxAttempts retry < 0) ||
          f64_lt (rp_jitter retry) f64_zero || f64_lt f64_one (rp_jitter retry)
  then Err (ESentinel ErrInvalidReaderConfig)
  else Ok tt.

(** The loop over the primary key in [validateProjectionSpecConfig]. *)
Fixpoint primary_key_loop (columns : list string) (seen : gset string) : result error (gset string) :=
  match columns with
  | [] => Ok seen
  | column :: rest =>
      if negb (postgresIdentifier column) || bool_decide (column = "")
      then Err (EWrap (ESentinel ErrInvalidReaderConfig))
      else if decide (column ∈ seen) then Err (EWrap (ESentinel ErrInvalidReaderConfig))
      else primary_key_loop rest ({[column]} ∪ seen)
  end.

Definition validateProjectionSpecConfig (spec : ProjectionSpec) : result error unit :=
  if decide (sp_sourceID spec = "" ∨ sp_schema spec = "" ∨ sp_table spec = "" ∨
             sp_scopeColumn spec = "" ∨ length (sp_primaryKey spec) = 0%nat)
  then Err (ESentinel ErrInvalidReaderConfig)
  else if negb (postgresIdentifier (sp_schema spec)) || negb (postgresIdentifier (sp_table spec)) ||
          negb (postgresIdentifier (sp_scopeColumn spec))
  then Err (EWrap (ESentinel ErrInvalidReaderConfig))
  else
    let! seen := primary_key_loop (sp_primaryKey spec) ∅ in
    if decide (sp_scopeColumn spec ∈ seen) then Ok tt
    else Err (EWrap (ESentinel ErrInvalidReaderConfig)).

Definition ValidateProjectionSpec (spec : ProjectionSpec) : result error unit :=
  validateProjectionSpecConfig spec.

Definition validateSourceProjectionSpec (c : ReaderConfig) (spec : ProjectionSpec) : result error unit :=
  let! _ := validateProjectionSpecConfig spec in
  if decide (sp_sourceID spec ≠ rd_sourceID c) then Err (EWrap (ESentinel ErrInvalidReaderConfig))
  else Ok tt.

(** [sameStrings]: the loop over the indexes. *)
Fixpoint same_from (left right : list string) : bool :=
  match left, right with
  | l :: left', r :: right' => if decide (l ≠ r) then false else same_from left' right'
  | _, _ => true
  end.

Definition sameStrings (left right : list string) : bool :=
  if decide (length left ≠ length right) then false else same_from left right.

(** ** Lemmas *)

Lemma or_default_idem x d : or_default (or_default x d) d = or_default x d.
Proof. unfold or_default. repeat destruct (decide _); congruence. Qed.

Lemma or_default_f64_idem x d : or_default_f64 (or_default_f64 x d) d = or_default_f64 x d.
Proof.
  unfold or_default_f64. destruct (f64_eq x f64_zero) eqn:E; [by destruct (f64_eq d _)|by rewrite E].
Qed.

Lemma primary_key_loop_spec columns seen :
  match primary_key_loop columns seen with
  | Ok all => Forall (λ c, postgresIdentifier c = true) columns ∧ NoDup columns ∧
              (∀ c, c ∈ columns → c ∉ seen) ∧ (∀ c, c ∈ all ↔ c ∈ columns ∨ c ∈ seen)
  | Err _ => ¬ (Forall (λ c, postgresIdentifier c = true) columns ∧ NoDup columns ∧
                ∀ c, c ∈ columns → c ∉ seen)
  end.
Proof.
  revert seen. induction columns as [|c columns IH]; intros seen; simpl.
  { repeat split; [constructor|constructor|by intros c ?%elem_of_nil|naive_solver|].
    by intros [?%elem_of_nil|]. }
  destruct (postgresIdentifier c) eqn:Hp; simpl.
  2:{ intros ([? _]%Forall_cons & _). congruence. }
  case_bool_decide as Hc; [by subst c|].
  destruct (decide (c ∈ seen)) as [Hin|Hin].
  { intros (_ & _ & Hno). by apply (Hno c); [left|]. }
  specialize (IH ({[c]} ∪ seen)). destruct (primary_key_loop _ _) as [all|e].
  - destruct IH as (H1 & H2 & H3 & H4). split; [by constructor|]. split; [|split].
    + constructor; [|done]. intros Hcc. apply (H3 c Hcc). set_solver.
    + intros x [->|Hx]%elem_of_cons; [done|]. specialize (H3 x Hx). set_solver.
    + intros x. rewrite H4, elem_of_cons. set_solver.
  - intros ([_ H1]%Forall_cons & [H2 H3]%NoDup_cons & H4). apply IH. split; [done|]. split; [done|].
    intros x Hx. specialize (H4 x). set_solver.
Qed.

Lemma same_from_spec left right : length left = length right → same_from left right = true ↔ left = right.
Proof.
  revert right. induction left as [|l left IH]; intros [|r right] Hl; simpl in *; try done.
  destruct (decide (l ≠ r)) as [?|<-%dec_stable]; [split; congruence|]. rewrite IH by lia. split; congruence.
Qed.

Lemma sameStrings_spec left right : sameStrings left right = true ↔ left = right.
Proof.
  unfold sameStrings. destruct (decide _) as [Hl|Hl%dec_stable]; [|by apply same_from_spec].
  split; [done|]. by intros ->.
Qed.

(** ** Properties *)

(** C34 (type): a projection spec passes the static checks exactly when its source is
    named, its schema, table, scope column and key columns are unquoted
    PostgreSQL identifiers, its key columns are distinct, and its scope column
    is one of them, which is what lets a delete, known only by its key, be
    routed. *)
Theorem validateProjectionSpecConfig_exact spec :
  validateProjectionSpecConfig spec = Ok tt ↔
  sp_sourceID spec ≠ "" ∧ postgresIdentifier (sp_schema spec) = true ∧
  postgresIdentifier (sp_table spec) = true ∧ postgresIdentifier (sp_scopeColumn spec) = true ∧
  Forall (λ c, postgresIdentifier c = true) (sp_primaryKey spec) ∧ NoDup (sp_primaryKey spec) ∧
  sp_scopeColumn spec ∈ sp_primaryKey spec.
Proof.
  unfold validateProjectionSpecConfig.
  destruct (decide _) as [Hempty|Hne].
  { split; [done|]. intros (H1 & H2 & H3 & H4 & _ & _ & H7).
    destruct Hempty as [?|[E|[E|[E|E]]]]; [done|by rewrite E in H2|by rewrite E in H3|by rewrite E in H4|].
    destruct (sp_primaryKey spec); [by apply elem_of_nil in H7|done]. }
  destruct (postgresIdentifier (sp_schema spec)); simpl; [|naive_solver].
  destruct (postgresIdentifier (sp_table spec)); simpl; [|naive_solver].
  destruct (postgresIdentifier (sp_scopeColumn spec)); simpl; [|naive_solver].
  pose proof (primary_key_loop_spec (sp_primaryKey spec) ∅) as Hloop.
  destruct (primary_key_loop _ _) as [all|e]; simpl.
  - destruct Hloop as (H1 & H2 & _ & H4). destruct (decide _) as [Hin|Hin]; rewrite H4 in Hin.
    + split; [|done]. intros _. assert (sp_scopeColumn spec ∈ sp_primaryKey spec) by set_solver.
      repeat split; try done. intros E. by apply Hne; left.
    + split; [done|]. intros (_ & _ & _ & _ & _ & _ & E). by destruct Hin; left.
  - split; [done|]. intros (_ & _ & _ & _ & H5 & H6 & _). destruct Hloop. split; [done|]. split; [done|].
    set_solver.
Qed.

(** A configuration the reader accepts bounds everything: positive limits with
    a value no larger than a transaction, positive intervals, a backoff that
    does not shrink, and thresholds 0 < warn < degrade < 1; and normalising
    it again changes nothing. *)
Lemma validated_config_bounds c :
  validateReaderConfig (normalizeReaderConfig c) true = Ok tt →
  let n := normalizeReaderConfig c in
  0 < rd_maxValueBytes n ≤ rd_maxTransactionBytes n ∧ 0 < rd_maxTransactionChanges n ∧
  0 < rd_snapshotBatchRows n ∧ 0 < rd_statusInterval n ∧ 0 < rd_maxRetainedWALBytes n ∧
  0 < rp_initialBackoff (rd_retryPolicy n) ≤ rp_maxBackoff (rd_retryPolicy n) ∧
  0 < rp_maxAttempts (rd_retryPolicy n) ∧
  f64_lt f64_zero (rd_retentionWarnFraction n) = true ∧
  f64_lt (rd_retentionWarnFraction n) (rd_retentionDegradeFraction n) = true ∧
  f64_lt (rd_retentionDegradeFraction n) f64_one = true ∧
  normalizeReaderConfig n = n.
Proof.
  intros Hv. cbv zeta. set (n := normalizeReaderConfig c) in *. unfold validateReaderConfig in Hv.
  destruct (decide _) as [?|_]; [done|]. destruct (_ || _); [done|].
  destruct (decide _) as [?|H1]; [done|]. destruct (decide _) as [?|H2]; [done|].
  destruct (f64_lt f64_zero _) eqn:F1; [|done]. destruct (f64_lt (rd_retentionWarnFraction n) _) eqn:F2; [|done].
  destruct (f64_lt (rd_retentionDegradeFraction n) _) eqn:F3; [|done]. cbn [negb andb] in Hv.
  destruct (decide _) as [?|H3]; [done|].
  destruct (bool_decide _) eqn:H4; [done|]. apply bool_decide_eq_false in H4.
  assert (rp_maxAttempts (rd_retryPolicy n) ≠ 0) as Hm.
  { unfold n, normalizeReaderConfig, or_default. simpl. by destruct (decide (rp_maxAttempts (rd_retryPolicy c) = 0)). }
  assert (normalizeReaderConfig n = n) as Hidem.
  { unfold n, normalizeReaderConfig. simpl. by rewrite !or_default_idem, !or_default_f64_idem. }
  clearbody n. clear Hv. rewrite Hidem. repeat split; try done; lia.
Qed.

Lemma validated_config_bounds_witness :
  let c := mkReaderConfig "postgres://db" "db" "watchd" "watchd_pub" 0 0 0 0 0 0 0
             (mkRetry 0 0 0 f64_zero) 0 0 0 f64_zero f64_zero in
  normalizeReaderConfig (normalizeReaderConfig c) = normalizeReaderConfig c.
Proof.
  apply (validated_config_bounds (mkReaderConfig "postgres://db" "db" "watchd" "watchd_pub" 0 0 0 0 0 0 0
    (mkRetry 0 0 0 f64_zero) 0 0 0 f64_zero f64_zero)). vm_compute. reflexivity.
Defined.
