(* ===== verification/Retention.v ===== *)
(** * The retention policy: internal/cdc/retention_policy.go and retention.go

    How much WAL the slot retains, against the stricter of the configured and
    the server's budget, moves the policy between four states; the last one
    stops the stream and drops the slot. The queries' rows are arguments;
    logging and the metrics nothing reads back are left out. *)

From S2P Require Import Prelude Float64 Errors CdcTypes Config.
Local Open Scope string_scope.
Local Open Scope list_scope.
Local Open Scope Z_scope.

(** ** The policy *)

Inductive retentionState : Type :=
| retentionOK
| retentionWarn
| retentionDegrade
| retentionTerminal.

#[export] Instance retentionState_eq_dec : EqDecision retentionState.
Proof. solve_decision. Defined.

(** The constants' values. *)
Definition rank (s : retentionState) : nat :=
  match s with retentionOK => 0 | retentionWarn => 1 | retentionDegrade => 2 | retentionTerminal => 3 end.

Definition retentionState_String (s : retentionState) : string :=
  match s with
  | retentionOK => "ok"
  | retentionWarn => "warn"
  | retentionDegrade => "degrade"
  | retentionTerminal => "terminal"
  end.

(** [current--]. *)
Definition lower (s : retentionState) : retentionState :=
  match s with
  | retentionTerminal => retentionDegrade
  | retentionDegrade => retentionWarn
  | retentionWarn | retentionOK => retentionOK
  end.

Definition retentionHysteresis : float64 := f64_0_05.

(** The threshold a state is left below. *)
Definition leave_threshold (s : retentionState) (warn degrade : float64) : float64 :=
  match s with retentionDegrade => degrade | _ => warn end.

(** [for current > target]; three turns reach any target. *)
Fixpoint fall (fuel : nat) (current target : retentionState) (ratio warn degrade : float64) : retentionState :=
  match fuel with
  | O => current
  | S fuel' =>
      if decide (rank target < rank current)%nat then
        if f64_le (f64_sub (leave_threshold current warn degrade) retentionHysteresis) ratio then current
        else fall fuel' (lower current) target ratio warn degrade
      else current
  end.

Definition max_state (a b : retentionState) : retentionState :=
  if decide (rank a < rank b)%nat then b else a.

(** The [switch] on the ratio, below the budget. *)
Definition target_state (ratio warn degrade : float64) : retentionState :=
  if f64_le degrade ratio then retentionDegrade
  else if f64_le warn ratio then retentionWarn else retentionOK.

Definition retention_ratio (retained budget : Z) : float64 :=
  f64_div (f64_of_int retained) (f64_of_int budget).

Definition nextRetentionState (current : retentionState) (retained budget : Z) (warn degrade : float64)
    : retentionState :=
  if decide (budget ≤ 0 ∨ retained < 0 ∨ current = retentionTerminal) then current
  else
    let ratio := retention_ratio retained budget in
    if f64_le f64_one ratio then retentionTerminal
    else
      let target := target_state ratio warn degrade in
      max_state (fall 3 current target ratio warn degrade) target.

(** ** Applying it *)

(** What the monitor keeps: the policy's state, the transitions counted, the
    state [Stats] shows, the cause [stopStream] was called with, and the slot's
    gauges, whose WAL status starts as unknown. *)
Record monitor : Type := mkMonitor {
  mo_state : retentionState;
  mo_transitions : list retentionState;
  mo_shown : string;
  mo_stops : list sentinel;
  mo_retainedWAL : Z;
  mo_safeWALSize : Z;
  mo_walStatus : Z;
  mo_effectiveBudget : Z;
  mo_retentionKnown : bool
}.

Definition new_monitor : monitor := mkMonitor retentionOK [] "ok" [] 0 0 (-1) 0 false.

Definition applyRetentionPolicy (m : monitor) (retained budget : Z) (warn degrade : float64) : monitor :=
  let next := nextRetentionState (mo_state m) retained budget warn degrade in
  if decide (next = mo_state m) then m
  else mkMonitor next (mo_transitions m ++ [next]) (retentionState_String next)
         (match next with
          | retentionTerminal => mo_stops m ++ [ErrRetainedWALBudgetExceeded]
          | _ => mo_stops m
          end)
         (mo_retainedWAL m) (mo_safeWALSize m) (mo_walStatus m) (mo_effectiveBudget m) (mo_retentionKnown m).

(** ** Budgets *)

Definition walKeepSizeUnitMultipliers (unit : string) : option Z :=
  if decide (unit = "B") then Some 1
  else if decide (unit = "kB") then Some 1024
  else if decide (unit = "MB") then Some (1024 * 1024)
  else if decide (unit = "GB") then Some (1024 * 1024 * 1024)
  else if decide (unit = "TB") then Some (1024 * 1024 * 1024 * 1024)
  else None.

(** [readMaxSlotWALKeepSize], from the row of pg_settings. *)
Definition readMaxSlotWALKeepSize (row : result error (string * string)) : result error (Z * bool) :=
  match row with
  | Err e => Err (classifyPostgresError e)
  | Ok (setting, unit) =>
      match parse_int64 setting with
      | None => Err (EWrap (ESentinel ErrPostgresServer))
      | Some value =>
          if decide (value < 0) then Ok (0, true)
          else match walKeepSizeUnitMultipliers unit with
               | None => Err (EWrap (ESentinel ErrPostgresServer))
               | Some multiplier => Ok (wrap_i64 (value * multiplier), false)
               end
      end
  end.

Definition effectiveRetentionBudget (configuredBytes serverBytes : Z) (serverUnbounded : bool) : Z :=
  if serverUnbounded || bool_decide (configuredBytes ≤ serverBytes) then configuredBytes else serverBytes.

(** [checkRetentionBudget]: what it warns about, if anything. *)
Inductive budget_warning : Type :=
| WarnUnbounded
| WarnClamped (serverBytes : Z).

Definition checkRetentionBudget (configured : Z) (row : result error (string * string))
    : result error (option budget_warning) :=
  let! r := readMaxSlotWALKeepSize row in
  let '(serverBytes, unbounded) := r in
  if (unbounded : bool) then Ok (Some WarnUnbounded)
  else if decide (effectiveRetentionBudget configured serverBytes unbounded < configured)
  then Ok (Some (WarnClamped serverBytes)) else Ok None.

(** ** Sampling *)

Definition valueOr (value : option Z) (fallback : Z) : Z := default fallback value.

Definition walStatuses : list string := ["reserved"; "extended"; "unreserved"; "lost"].

(** The index of a known status, or -1. *)
Fixpoint wal_status_index (i : Z) (known : list string) (status : string) (found : Z) : Z :=
  match known with
  | [] => found
  | s :: rest => wal_status_index (i + 1) rest status (if decide (status = s) then i else found)
  end.

(** [sampleRetention], from the slot's row ([None] is no row) and the
    setting's. *)
Definition sampleRetention (cfg : ReaderConfig) (m : monitor)
    (slot : result error (option (option Z * string * option Z))) (setting : result error (string * string))
    : monitor * result error unit :=
  match slot with
  | Err e => (m, Err (classifyPostgresError e))
  | Ok None => (m, Err (ESentinel ErrSlotNotFound))
  | Ok (Some (retained, status, safe)) =>
      match readMaxSlotWALKeepSize setting with
      | Err e => (m, Err e)
      | Ok (serverBytes, unbounded) =>
          let budget := effectiveRetentionBudget (rd_maxRetainedWALBytes cfg) serverBytes unbounded in
          let m := mkMonitor (mo_state m) (mo_transitions m) (mo_shown m) (mo_stops m)
                     (valueOr retained (-1)) (valueOr safe (-1))
                     (wal_status_index 0 walStatuses status (-1)) budget true in
          (match retained with
           | Some bytes => applyRetentionPolicy m bytes budget (rd_retentionWarnFraction cfg)
                             (rd_retentionDegradeFraction cfg)
           | None => m
           end, Ok tt)
      end
  end.

(** [dropSlotForBudget]'s loop: each turn's pg_drop_replication_slot result,
    and what [wait] returned if the slot was still active; [None] is still
    retrying. *)
Fixpoint dropSlotForBudget (turns : list (result error unit * result error unit)) : option (result error unit) :=
  match turns with
  | [] => None
  | (Ok _, _) :: _ => Some (Ok tt)
  | (Err err, waited) :: rest =>
      match as_pg_error err with
      | Some (sqlState, _) =>
          if decide (sqlState = "42704") then Some (Ok tt)
          else if decide (sqlState = "55006") then
            match waited with
            | Err e => Some (Err (EWrap e))
            | Ok _ => dropSlotForBudget rest
            end
          else Some (Err (classifyPostgresError err))
      | None => Some (Err (classifyPostgresError err))
      end
  end.

(** ** Lemmas *)

Lemma max_state_rank a b : rank (max_state a b) = Nat.max (rank a) (rank b).
Proof. unfold max_state. destruct (decide _); lia. Qed.

Lemma target_not_terminal ratio warn degrade : target_state ratio warn degrade ≠ retentionTerminal.
Proof. unfold target_state. by destruct (f64_le _ _); [|destruct (f64_le _ _)]. Qed.

(** Falling stays between the target and where it started. *)
Lemma fall_rank fuel current target ratio warn degrade :
  (rank (fall fuel current target ratio warn degrade) ≤ rank current)%nat ∧
  ((rank target ≤ rank current)%nat → (rank target ≤ rank (fall fuel current target ratio warn degrade))%nat).
Proof.
  revert current. induction fuel as [|fuel IH]; intros current; simpl; [lia|].
  destruct (decide _) as [Hlt|]; [|lia]. destruct (f64_le _ _); [lia|].
  destruct (IH (lower current)). destruct current; simpl in *; lia.
Qed.

(** A state it settles in above the target is one whose threshold holds it. *)
Lemma fall_settles fuel current target ratio warn degrade :
  (rank current - rank target < fuel)%nat →
  let s := fall fuel current target ratio warn degrade in
  (rank s ≤ rank target)%nat ∨
  f64_le (f64_sub (leave_threshold s warn degrade) retentionHysteresis) ratio = true.
Proof.
  cbv zeta. revert current. induction fuel as [|fuel IH]; intros current Hf; [lia|]. simpl.
  destruct (decide _) as [Hlt|]; [|left; lia].
  destruct (f64_le _ _) eqn:Hh; [by right|]. apply IH. destruct current; simpl in *; lia.
Qed.

(** Every state passed on the way down was below its threshold by the
    hysteresis. *)
Lemma fall_passed fuel current target ratio warn degrade s :
  (rank (fall fuel current target ratio warn degrade) < rank s ≤ rank current)%nat →
  f64_le (f64_sub (leave_threshold s warn degrade) retentionHysteresis) ratio = false.
Proof.
  revert current. induction fuel as [|fuel IH]; intros current; simpl; [lia|].
  destruct (decide _) as [Hlt|]; [|lia].
  destruct (f64_le (f64_sub (leave_threshold current warn degrade) _) _) eqn:Hh; [lia|].
  intros Hs. destruct (decide (rank s ≤ rank (lower current))%nat) as [Hle|Hgt]; [by apply (IH (lower current)); lia|].
  assert (s = current) as ->; [|done]. destruct s, current; simpl in *; (done || lia).
Qed.

Lemma fall_target fuel target ratio warn degrade : fall fuel target target ratio warn degrade = target.
Proof. destruct fuel; simpl; [done|]. by rewrite decide_False by lia. Qed.

Lemma rank_lt_terminal s : s ≠ retentionTerminal → (rank s < 3)%nat.
Proof. destruct s; simpl; (done || lia). Qed.

Lemma rank_inj a b : rank a = rank b → a = b.
Proof. by destruct a, b. Qed.

(** ** Properties *)

(** C38 (functional): one sample moves the policy as its thresholds say. Without a budget or a
    sample it stays; at the budget it is terminal and never leaves; below, it
    rises at once to the state the ratio reached, and falls past a state only
    when the ratio is under that state's threshold by the hysteresis. *)
Theorem nextRetentionState_exact current retained budget warn degrade :
  let next := nextRetentionState current retained budget warn degrade in
  let ratio := retention_ratio retained budget in
  if decide (budget ≤ 0 ∨ retained < 0 ∨ current = retentionTerminal) then next = current
  else
    (next = retentionTerminal ↔ f64_le f64_one ratio = true) ∧
    (f64_le f64_one ratio = false →
       (rank (target_state ratio warn degrade) ≤ rank next)%nat ∧
       (rank next ≤ Nat.max (rank current) (rank (target_state ratio warn degrade)))%nat ∧
       ∀ s, (rank next < rank s ≤ rank current)%nat →
         f64_le (f64_sub (leave_threshold s warn degrade) retentionHysteresis) ratio = false).
Proof.
  cbv zeta. unfold nextRetentionState. destruct (decide _) as [|Hn]; [done|].
  set (ratio := retention_ratio retained budget). set (target := target_state ratio warn degrade).
  destruct (f64_le f64_one ratio); [by split|].
  destruct (fall_rank 3 current target ratio warn degrade) as [Hle Hge].
  assert (rank target ≠ 3%nat) as Ht.
  { pose proof (target_not_terminal ratio warn degrade) as Ht. fold target in Ht. by destruct target. }
  split.
  - split; [|done]. intros E. apply (f_equal rank) in E. rewrite max_state_rank in E. change (rank retentionTerminal) with 3%nat in E.
    enough (rank current < 3)%nat by lia. apply rank_lt_terminal. naive_solver.
  - intros _. rewrite max_state_rank. split; [lia|]. split; [lia|].
    intros s Hs. apply (fall_passed 3 current target). lia.
Qed.

(** The policy does not flap: applying the same sample again changes
    nothing, so every transition has a new sample behind it. *)
Lemma nextRetentionState_stable current retained budget warn degrade :
  let next := nextRetentionState current retained budget warn degrade in
  nextRetentionState next retained budget warn degrade = next.
Proof.
  cbv zeta. unfold nextRetentionState at 2 3. destruct (decide _) as [Hc|Hn].
  { unfold nextRetentionState. by rewrite decide_True. }
  cbv zeta. set (ratio := retention_ratio retained budget). set (target := target_state ratio warn degrade).
  destruct (f64_le f64_one ratio) eqn:H1.
  { unfold nextRetentionState. by rewrite decide_True by auto. }
  set (next := max_state _ _). unfold nextRetentionState. destruct (decide _) as [|Hn']; [done|].
  fold ratio target. rewrite H1.
  destruct (fall_rank 3 current target ratio warn degrade) as [Hle _].
  pose proof (fall_settles 3 current target ratio warn degrade) as Hs. cbv zeta in Hs.
  unfold next, max_state at 2 3. destruct (decide _) as [Hlt|Hge].
  { rewrite fall_target. unfold max_state. by rewrite decide_False by lia. }
  set (s := fall 3 current target ratio warn degrade) in *.
  destruct (decide (rank target < rank s)%nat) as [Hlt|Hnlt].
  - destruct Hs as [Hs|Hs]; [|lia|].
    { enough (rank current < 3)%nat by lia. apply rank_lt_terminal. naive_solver. }
    assert (fall 3 s target ratio warn degrade = s) as ->.
    { simpl. rewrite decide_True by done. by rewrite Hs. }
    unfold max_state. by rewrite decide_False.
  - assert (s = target) as -> by (apply rank_inj; lia). rewrite fall_target.
    unfold max_state. by rewrite decide_False by lia.
Qed.

(** The policy over a series of samples of retained bytes and budget. *)
Definition apply_samples (warn degrade : float64) (m : monitor) (samples : list (Z * Z)) : monitor :=
  foldl (λ m '(retained, budget), applyRetentionPolicy m retained budget warn degrade) m samples.

(** The terminal action is taken at most once, whatever is sampled: the stream
    is stopped exactly when the policy reaches its terminal state, and nothing
    changes after that. *)
Lemma policy_stops_once warn degrade samples later :
  let m := apply_samples warn degrade new_monitor samples in
  mo_stops m = (if decide (mo_state m = retentionTerminal) then [ErrRetainedWALBudgetExceeded] else []) ∧
  mo_shown m = retentionState_String (mo_state m) ∧
  last (mo_transitions m) = (if decide (mo_transitions m = []) then None else Some (mo_state m)) ∧
  (mo_state m = retentionTerminal → apply_samples warn degrade m later = m).
Proof.
  cbv zeta. split; [|split; [|split]].
  - induction samples as [|[r b] samples IH] using rev_ind; [done|]. unfold apply_samples in *.
    rewrite foldl_app. cbn [foldl]. set (m := foldl _ _ samples) in *. unfold applyRetentionPolicy.
    destruct (decide (nextRetentionState _ _ _ _ _ = _)) as [|Hne]; [done|]. simpl.
    assert (mo_state m ≠ retentionTerminal) as Hnt.
    { intros E. apply Hne. unfold nextRetentionState. by rewrite decide_True by auto. }
    rewrite decide_False in IH by done. rewrite IH.
    by destruct (nextRetentionState _ _ _ _ _).
  - induction samples as [|[r b] samples IH] using rev_ind; [done|]. unfold apply_samples in *.
    rewrite foldl_app. cbn [foldl]. set (m := foldl _ _ samples) in *. unfold applyRetentionPolicy.
    by destruct (decide (nextRetentionState _ _ _ _ _ = _)).
  - induction samples as [|[r b] samples IH] using rev_ind; [done|]. unfold apply_samples in *.
    rewrite foldl_app. cbn [foldl]. set (m := foldl _ _ samples) in *. unfold applyRetentionPolicy.
    destruct (decide (nextRetentionState _ _ _ _ _ = _)); [done|]. simpl. rewrite last_snoc.
    by rewrite decide_False by (by destruct (mo_transitions m)).
  - set (m := apply_samples _ _ _ samples). intros Ht. clearbody m. unfold apply_samples.
    induction later as [|[r b] later IH]; [done|]. cbn [foldl]. unfold applyRetentionPolicy at 2.
    rewrite decide_True; [done|]. unfold nextRetentionState. by rewrite decide_True by auto.
Qed.
