(* ===== verification/Visibility.v ===== *)
(** * MVCC snapshots: internal/cdc/visibility.go and [Snapshot.Covers]

    [parseVisibility] reads PostgreSQL's [pg_snapshot] text, [includes] decides
    whether a streamed transaction is already in a snapshot's rows, widening
    pgoutput's 32-bit transaction ID against the snapshot's 64-bit one. All
    conversions keep Go's widths. *)

From S2P Require Import Prelude Errors CdcTypes.
From Stdlib Require Import Ascii.
Local Open Scope string_scope.
Local Open Scope list_scope.
Local Open Scope Z_scope.

Record visibility : Type := mkVisibility {
  vis_xmin : Z;
  vis_xmax : Z;
  vis_inProgress : gset Z
}.

Definition errInvalidSnapshot : error := EWrap (ESentinel ErrPostgresServer).

(** The loop over the comma-separated in-progress list. *)
Fixpoint parse_xip (xmin xmax : Z) (fields : list string) (inProgress : gset Z)
    : result error (gset Z) :=
  match fields with
  | [] => Ok inProgress
  | field :: rest =>
      match parse_uint64 field with
      | None => Err errInvalidSnapshot
      | Some xid =>
          if decide (xid < xmin ∨ xmax ≤ xid) then Err errInvalidSnapshot
          else parse_xip xmin xmax rest ({[xid]} ∪ inProgress)
      end
  end.

Definition parseVisibility (text : string) : result error visibility :=
  match split_char ":"%char text with
  | [part0; part1; part2] =>
      match parse_uint64 part0 with
      | None => Err errInvalidSnapshot
      | Some xmin =>
          match parse_uint64 part1 with
          | None => Err errInvalidSnapshot
          | Some xmax =>
              if decide (xmax < xmin) then Err errInvalidSnapshot
              else
                let! inProgress :=
                  (if decide (part2 = "") then Ok ∅
                   else parse_xip xmin xmax (split_char ","%char part2) ∅) in
                Ok (mkVisibility xmin xmax inProgress)
          end
      end
  | _ => Err errInvalidSnapshot
  end.

(** [int64(int32(xid - uint32(v.xmax)))], then [int64(v.xmax) + distance],
    clamped at zero. *)
Definition widen (v : visibility) (xid : Z) : Z :=
  let distance := wrap_i32 (wrap_u32 (xid - wrap_u32 (vis_xmax v))) in
  let full := wrap_i64 (wrap_i64 (vis_xmax v) + distance) in
  if decide (full < 0) then 0 else wrap_u64 full.

Definition includes (v : visibility) (xid : Z) : bool :=
  let full := widen v xid in
  if decide (vis_xmax v ≤ full) then false
  else if decide (full < vis_xmin v) then true
  else bool_decide (full ∉ vis_inProgress v).

(** ** Snapshots: internal/cdc/types.go *)

Record Snapshot : Type := mkSnapshot {
  sn_sourceID : string;
  sn_cursor : Cursor;
  sn_visibility : option visibility
}.

Definition Covers (s : Snapshot) (t : Transaction) : result error bool :=
  if decide (sourceID (tx_cursor t) ≠ sourceID (sn_cursor s))
  then Err (EOther "cdc: cannot check a transaction against a snapshot of another source")
  else match sn_visibility s with
       | None => Ok false
       | Some v => Ok (includes v (tx_xid t))
       end.

(** [newSnapshot] of internal/cdc/snapshot.go. *)
Definition newSnapshot (source : string) (cursor : Z) (v : visibility) : Snapshot :=
  mkSnapshot source (mkCursor source cursor) (Some v).

(** ** Specification *)

(** What PostgreSQL's [pg_snapshot] means for a full 64-bit transaction ID:
    it had finished when the snapshot was taken. *)
Definition visible (v : visibility) (full : Z) : Prop :=
  full < vis_xmax v ∧ (full < vis_xmin v ∨ full ∉ vis_inProgress v).

#[export] Instance visible_dec v full : Decision (visible v full) := _.

(** A snapshot the server can report: 64-bit bounds in order, and the running
    transactions between them. *)
Definition wf_visibility (v : visibility) : Prop :=
  is_u64 (vis_xmin v) ∧ is_u64 (vis_xmax v) ∧ vis_xmin v ≤ vis_xmax v ∧
  ∀ xid, xid ∈ vis_inProgress v → vis_xmin v ≤ xid < vis_xmax v.

(** PostgreSQL's text form of a snapshot with the given running list. *)
Definition pg_snapshot_text (xmin xmax : Z) (xip : list Z) : string :=
  join_char ":"%char [format_uint xmin; format_uint xmax; join_char ","%char (format_uint <$> xip)].

(** ** Lemmas *)

Lemma widen_exact v full :
  is_u64 (vis_xmax v) → vis_xmax v < 2 ^ 63 - 2 ^ 31 →
  0 ≤ full → - 2 ^ 31 ≤ full - vis_xmax v < 2 ^ 31 →
  widen v (wrap_u32 full) = full.
Proof.
  intros Hu Hmax Hfull Hd. unfold widen.
  assert (wrap_i32 (wrap_u32 (wrap_u32 full - wrap_u32 (vis_xmax v))) = full - vis_xmax v) as ->.
  { unfold wrap_u32 at 1. rewrite <-Zminus_mod_idemp_l, <-Zminus_mod_idemp_r.
    unfold wrap_u32. rewrite !Z.mod_mod by lia. rewrite Zminus_mod_idemp_l, Zminus_mod_idemp_r.
    unfold wrap_i32. rewrite Zplus_mod_idemp_l, Z.mod_small; lia. }
  unfold is_u64 in Hu. rewrite (wrap_i64_id (vis_xmax v)) by (unfold is_i64; lia).
  rewrite wrap_i64_id by (unfold is_i64; lia).
  rewrite decide_False by lia. rewrite wrap_u64_id by (unfold is_u64; lia). lia.
Qed.

Lemma parse_xip_spec xmin xmax fields acc :
  (∀ xid, xid ∈ acc → xmin ≤ xid < xmax) →
  match parse_xip xmin xmax fields acc with
  | Ok s => ∀ xid, xid ∈ s → xmin ≤ xid < xmax
  | Err e => e = errInvalidSnapshot
  end.
Proof.
  revert acc. induction fields as [|field rest IH]; intros acc Hacc; simpl; [done|].
  destruct (parse_uint64 field) as [xid|]; [|done].
  destruct (decide _) as [?|Hr]; [done|]. apply IH.
  intros x [->%elem_of_singleton|?]%elem_of_union; [lia|auto].
Qed.

Lemma parse_uint64_range s n : parse_uint64 s = Some n → n < 2 ^ 64.
Proof.
  unfold parse_uint64. destruct s as [|a s]; [done|].
  destruct (parse_digits 0 _) as [m|]; simpl; [|done]. by destruct (decide _); [intros [= <-]|].
Qed.

Lemma parse_digits_nonneg acc s n : 0 ≤ acc → parse_digits acc s = Some n → 0 ≤ n.
Proof.
  revert acc. induction s as [|a s IH]; intros acc Ha; simpl; [by intros [= <-]|].
  unfold digit_value. destruct (decide _); simpl; [|done]. apply IH. lia.
Qed.

Lemma parse_uint64_u64 s n : parse_uint64 s = Some n → is_u64 n.
Proof.
  intros H. split; [|by eapply parse_uint64_range].
  unfold parse_uint64 in H. destruct s as [|a s]; [done|].
  destruct (parse_digits 0 _) as [m|] eqn:E; simpl in H; [|done].
  destruct (decide _); [|done]. injection H as [= <-].
  eapply parse_digits_nonneg; [|exact E]. lia.
Qed.

Lemma parse_xip_format xmin xmax xip acc :
  is_u64 xmin → is_u64 xmax → Forall (λ x, xmin ≤ x < xmax) xip →
  parse_xip xmin xmax (format_uint <$> xip) acc = Ok (list_to_set xip ∪ acc).
Proof.
  intros Hmin Hmax Hall. revert acc.
  induction Hall as [|x xip Hx _ IH]; intros acc; simpl; [f_equal; set_solver|].
  rewrite parse_format_uint by (unfold is_u64 in *; lia).
  rewrite decide_False by lia. rewrite IH. f_equal. set_solver.
Qed.

Lemma format_uint_free c n : digit_value c = None → contains_char c (format_uint n) = false.
Proof. intros. by apply format_digits_free. Qed.

Lemma format_uint_not_empty n : format_uint n ≠ "".
Proof. apply format_digits_not_empty. Qed.

Lemma join_free c d parts :
  c ≠ d → Forall (λ p, contains_char c p = false) parts →
  contains_char c (join_char d parts) = false.
Proof.
  intros Hne Hall. induction Hall as [|p ps Hp Hps IH]; [done|].
  destruct ps as [|q ps]; [done|].
  change (join_char d (p :: q :: ps)) with (String.append p (String d (join_char d (q :: ps)))).
  revert IH Hp. generalize (join_char d (q :: ps)) as r. intros r Hr.
  induction p as [|a p IHp]; simpl.
  - intros _. by rewrite Hr, bool_decide_eq_false_2 by done.
  - intros [Ha Hp]%orb_false_iff. by rewrite Ha, IHp.
Qed.

Lemma join_not_empty c p parts : p ≠ "" → join_char c (p :: parts) ≠ "".
Proof. destruct p; [done|]. by destruct parts. Qed.

#[export] Hint Resolve format_uint_free : watchd.

(** ** Properties *)

(** C32 (functional): a streamed transaction whose 64-bit ID is within 2^31 of the
    snapshot's xmax is judged by its exact visibility, although pgoutput
    reports only the low 32 bits of the ID: [includes] answers whether it had
    finished when the snapshot was taken. *)
Theorem includes_exact v full :
  wf_visibility v → vis_xmax v < 2 ^ 63 - 2 ^ 31 →
  0 ≤ full → - 2 ^ 31 ≤ full - vis_xmax v < 2 ^ 31 →
  includes v (wrap_u32 full) = bool_decide (visible v full).
Proof.
  intros (_ & Hu & _ & Hip) Hmax Hfull Hd. unfold includes, visible.
  rewrite widen_exact by done.
  repeat destruct (decide _); symmetry.
  - apply bool_decide_eq_false_2. lia.
  - apply bool_decide_eq_true_2. split; [lia|by left].
  - apply bool_decide_ext. intuition lia.
Qed.

Lemma includes_exact_witness :
  includes (mkVisibility 4294967300 4294967310 {[4294967305]}) (wrap_u32 4294967305) = false.
Proof.
  rewrite includes_exact; [reflexivity| |simpl; lia|lia|simpl; lia].
  unfold wf_visibility, is_u64; simpl.
  split; [lia|split; [lia|split; [lia|]]]. intros xid ->%elem_of_singleton. lia.
Defined.

(** C33 (round trip): every text PostgreSQL prints for a snapshot parses back to that
    snapshot: its bounds, and exactly its running transactions. *)
Theorem parseVisibility_roundtrip xmin xmax xip :
  is_u64 xmin → is_u64 xmax → xmin ≤ xmax → Forall (λ x, xmin ≤ x < xmax) xip →
  parseVisibility (pg_snapshot_text xmin xmax xip) = Ok (mkVisibility xmin xmax (list_to_set xip)).
Proof.
  intros Hmin Hmax Hle Hxip. unfold parseVisibility, pg_snapshot_text.
  rewrite split_join_char; [|done|].
  - rewrite !parse_format_uint by done. rewrite decide_False by lia.
    destruct xip as [|x xip]; [done|].
    rewrite decide_False by (apply join_not_empty, format_uint_not_empty).
    rewrite split_join_char; [|done|].
    + rewrite parse_xip_format by done. simpl. do 2 f_equal. set_solver.
    + apply Forall_fmap, Forall_true. intros. by apply format_uint_free.
  - repeat constructor; try by apply format_uint_free.
    apply join_free; [done|]. apply Forall_fmap, Forall_true. intros. by apply format_uint_free.
Qed.

Lemma parseVisibility_roundtrip_witness :
  parseVisibility (pg_snapshot_text 10 20 [12; 15]) = Ok (mkVisibility 10 20 {[12; 15]}) ∧
  pg_snapshot_text 10 20 [12; 15] = "10:20:12,15".
Proof.
  split; [|reflexivity].
  rewrite (parseVisibility_roundtrip 10 20 [12; 15]);
    [reflexivity|vm_compute; split; congruence|vm_compute; split; congruence|lia|].
  repeat constructor; lia.
Defined.

(** Whatever text is parsed, an accepted snapshot is well formed: 64-bit
    bounds in order and every running transaction between them; anything
    else is the PostgreSQL-server error. *)
Lemma parseVisibility_wf text :
  match parseVisibility text with
  | Ok v => wf_visibility v
  | Err e => errors_is e ErrPostgresServer = true
  end.
Proof.
  unfold parseVisibility. destruct (split_char ":"%char text) as [|p0 [|p1 [|p2 [|]]]]; try done.
  destruct (parse_uint64 p0) as [xmin|] eqn:E0; [|done].
  destruct (parse_uint64 p1) as [xmax|] eqn:E1; [|done].
  destruct (decide _) as [?|Hle]; [done|].
  apply parse_uint64_u64 in E0, E1.
  destruct (decide (p2 = "")); simpl.
  - split; [done|split; [done|split; [simpl; lia|set_solver]]].
  - pose proof (parse_xip_spec xmin xmax (split_char ","%char p2) ∅ ltac:(set_solver)) as Hx.
    destruct (parse_xip xmin xmax _ _); simpl; [|by rewrite Hx].
    split; [done|split; [done|split; [simpl; lia|done]]].
Qed.

(** ** Test constructors: internal/cdc/testing.go *)

Definition NewTransactionForTest (source : string) (commitLSN endLSN xid : Z) (changes : list Change) : Transaction :=
  mkTransaction (mkCursor source endLSN) changes 0 [] commitLSN xid.

Definition NewSnapshotForTest (source : string) (cursor xmin xmax : Z) (inProgress : list Z) : Snapshot :=
  newSnapshot source cursor (mkVisibility xmin xmax (list_to_set inProgress)).

Definition NewCursorForTest (source : string) (lsn : Z) : Cursor := mkCursor source lsn.

(** The receiver is a copy, and its slice is capped before it is appended to, so
    the original transaction does not change. *)
Definition WithIncompatibleForTest (t : Transaction) (table : string) (difference : shapeDifference) : Transaction :=
  mkTransaction (tx_cursor t) (tx_changes t) (tx_commitTime t)
    (tx_incompatible t ++ [mkIncompatible table difference]) (tx_commitLSN t) (tx_xid t).

(** The snapshot covers what its comment says: every transaction below [xmax]
    that is not listed as in progress. *)
Lemma NewSnapshotForTest_covers source cursor xmin xmax inProgress commitLSN endLSN xid changes :
  0 ≤ xmin ≤ xmax → xmax < 2 ^ 31 → Forall (λ x, xmin ≤ x < xmax) inProgress → 0 ≤ xid < 2 ^ 31 →
  Covers (NewSnapshotForTest source cursor xmin xmax inProgress)
    (NewTransactionForTest source commitLSN endLSN xid changes) =
  Ok (bool_decide (xid < xmax ∧ xid ∉ inProgress)).
Proof.
  intros Hx Hmax Hip Hxid. unfold Covers, NewTransactionForTest, NewSnapshotForTest, newSnapshot. simpl.
  rewrite decide_False by tauto. f_equal.
  replace xid with (wrap_u32 xid) at 1 by (unfold wrap_u32; apply Z.mod_small; lia).
  rewrite includes_exact; simpl; [|split; [unfold is_u64; simpl; lia|]|lia..].
  - apply bool_decide_ext. unfold visible. simpl. rewrite elem_of_list_to_set. rewrite Forall_forall in Hip.
    split; [|tauto]. intros [Hlt [Hlow|Hn]]; [|done]. split; [done|]. intros Hin. specialize (Hip _ Hin). lia.
  - split; [unfold is_u64; simpl; lia|]. split; [simpl; lia|]. intros x Hin. simpl in *.
    rewrite Forall_forall in Hip. apply Hip. by apply elem_of_list_to_set in Hin.
Qed.
