(* ===== verification/Relation.v ===== *)
(** * Table shapes: internal/cdc/relation.go

    The shape of a table as the stream presents it, its comparison with the
    baseline a projection was validated against, and the registry of
    baselines. Reading a shape from the catalog is in Catalog.v. *)

From S2P Require Import Prelude Errors CdcTypes.
From stdpp Require Import sorting.
Local Open Scope string_scope.
Local Open Scope list_scope.
Local Open Scope Z_scope.

(** ** Data *)

Record shapeColumn : Type := mkShapeColumn { sc_name : string; sc_typeOID : Z }.

#[export] Instance shapeColumn_eq_dec : EqDecision shapeColumn.
Proof. solve_decision. Defined.

Record relationShape : Type := mkShape {
  sh_table : string;
  sh_oid : Z;
  sh_replicaIdentity : Z;
  sh_columns : list shapeColumn;
  sh_key : list string
}.

#[export] Instance relationShape_eq_dec : EqDecision relationShape.
Proof. solve_decision. Defined.

(** [pglogrepl.RelationMessage] and its columns, the fields the code reads. *)
Record RelationMessageColumn : Type := mkRelColumn {
  rc_flags : Z;
  rc_name : string;
  rc_dataType : Z
}.

Record RelationMessage : Type := mkRelMessage {
  rm_relationID : Z;
  rm_namespace : string;
  rm_relationName : string;
  rm_replicaIdentity : Z;
  rm_columns : list RelationMessageColumn
}.

(** [slices.Sort] on strings: by bytes. *)
Definition sort_strings (l : list string) : list string := merge_sort String.le l.

Definition shapeOfRelation (message : RelationMessage) : relationShape :=
  mkShape (qualifiedTable (rm_namespace message) (rm_relationName message))
    (rm_relationID message) (rm_replicaIdentity message)
    ((λ column, mkShapeColumn (rc_name column) (rc_dataType column)) <$> rm_columns message)
    (sort_strings (rc_name <$> base.filter (λ column, rc_flags column = 1) (rm_columns message))).

(** ** Comparison *)

(** The loop of [diff] over the column indexes; [actual] are all of the actual
    shape's columns. *)
Fixpoint diff_columns (actual : list shapeColumn) (s a : list shapeColumn) : option shapeDifference :=
  match s, a with
  | [], [] => None
  | sc :: _, [] => Some (DiffDropped (sc_name sc))
  | [], ac :: _ => Some (DiffAdded (sc_name ac))
  | sc :: s', ac :: a' =>
      if decide (sc_name sc ≠ sc_name ac) then
        if existsb (λ c, bool_decide (sc_name c = sc_name sc)) actual
        then Some (DiffAddedOrMoved (sc_name ac))
        else Some (DiffDroppedOrRenamed (sc_name sc))
      else if decide (sc_typeOID sc ≠ sc_typeOID ac)
      then Some (DiffType (sc_name sc) (sc_typeOID sc) (sc_typeOID ac))
      else diff_columns actual s' a'
  end.

(** [relationShape.diff]; [None] is the empty string. *)
Definition diff (s actual : relationShape) : option shapeDifference :=
  if decide (sh_oid s ≠ sh_oid actual) then Some (DiffRecreated (sh_oid s) (sh_oid actual))
  else if decide (sh_replicaIdentity s ≠ sh_replicaIdentity actual)
  then Some (DiffIdentity (sh_replicaIdentity s) (sh_replicaIdentity actual))
  else if decide (sh_key s ≠ sh_key actual) then Some (DiffKey (sh_key s) (sh_key actual))
  else diff_columns (sh_columns actual) (sh_columns s) (sh_columns actual).

(** ** The registry of baselines *)

(** What a [Decoder] reads of a [shapeRegistry]. *)
Record shapeRegistry : Type := mkRegistry {
  sr_generation : Z;
  sr_byTable : string → option relationShape;
  sr_byOID : Z → option relationShape
}.

Record shapes : Type := mkShapes {
  ss_gen : Z;
  ss_byTable : gmap string relationShape;
  ss_byOID : gmap Z relationShape
}.

Definition new_shapes : shapes := mkShapes 0 ∅ ∅.

Definition baselineByTable (s : shapes) (table : string) : option relationShape := ss_byTable s !! table.

Definition baselineByOID (s : shapes) (oid : Z) : option relationShape := ss_byOID s !! oid.

Definition registry_of (s : shapes) : shapeRegistry :=
  mkRegistry (ss_gen s) (baselineByTable s) (baselineByOID s).

(** [shapes.record]. *)
Definition record (s : shapes) (shape : relationShape) : shapes :=
  let store (byOID : gmap Z relationShape) :=
    mkShapes (wrap_u64 (ss_gen s + 1)) (<[sh_table shape := shape]> (ss_byTable s))
      (<[sh_oid shape := shape]> byOID) in
  match ss_byTable s !! sh_table shape with
  | None => store (ss_byOID s)
  | Some previous =>
      match diff previous shape with
      | None => s
      | Some _ => store (delete (sh_oid previous) (ss_byOID s))
      end
  end.

(** ** Specification *)

(** Two shapes rows decode the same way under. *)
Definition same_shape (s a : relationShape) : Prop :=
  sh_oid s = sh_oid a ∧ sh_replicaIdentity s = sh_replicaIdentity a ∧
  sh_key s = sh_key a ∧ sh_columns s = sh_columns a.

(** Every baseline is found by its table and by its relation ID. *)
Definition indexed (s : shapes) : Prop :=
  ∀ table shape, ss_byTable s !! table = Some shape →
    sh_table shape = table ∧ ss_byOID s !! sh_oid shape = Some shape.

(** ** Lemmas *)

Lemma diff_columns_None actual s a : diff_columns actual s a = None ↔ s = a.
Proof.
  revert a. induction s as [|[n t] s IH]; intros [|[n' t'] a]; simpl; try done.
  destruct (decide (n ≠ n')) as [?|<-%dec_stable]; [destruct (existsb _ _); split; congruence|].
  destruct (decide (t ≠ t')) as [?|<-%dec_stable]; [split; congruence|].
  rewrite IH. split; congruence.
Qed.

Lemma diff_None s a : diff s a = None ↔ same_shape s a.
Proof.
  unfold diff, same_shape.
  destruct (decide (sh_oid s ≠ sh_oid a)) as [?|<-%dec_stable]; [naive_solver|].
  destruct (decide (sh_replicaIdentity s ≠ sh_replicaIdentity a)) as [?|<-%dec_stable]; [naive_solver|].
  destruct (decide (sh_key s ≠ sh_key a)) as [?|<-%dec_stable]; [naive_solver|].
  rewrite diff_columns_None. naive_solver.
Qed.

Lemma diff_refl s : diff s s = None.
Proof. by apply diff_None. Qed.

Lemma record_byTable s shape table :
  ss_byTable (record s shape) !! table =
  if decide (table = sh_table shape)
  then match ss_byTable s !! table with
       | Some previous => if diff previous shape is None then Some previous else Some shape
       | None => Some shape
       end
  else ss_byTable s !! table.
Proof.
  unfold record. destruct (decide (table = sh_table shape)) as [->|Hne].
  - destruct (ss_byTable s !! sh_table shape) as [p|] eqn:E; simpl; [|by rewrite lookup_insert_eq].
    destruct (diff p shape); simpl; [by rewrite lookup_insert_eq|done].
  - destruct (ss_byTable s !! sh_table shape) as [p|]; simpl; [|by rewrite lookup_insert_ne].
    destruct (diff p shape); simpl; [by rewrite lookup_insert_ne|done].
Qed.

(** A recorded shape changes nothing or moves the generation by one. *)
Lemma record_moves s shape :
  record s shape = s ∨ ss_gen (record s shape) = wrap_u64 (ss_gen s + 1).
Proof. unfold record. destruct (ss_byTable s !! _); [destruct (diff _ _)|]; auto. Qed.

(** While the 64 bits of the generation last, recordings that leave it where it
    was have changed nothing. *)
Lemma recordings_move l s :
  0 ≤ ss_gen s → ss_gen s + zlen l < 2 ^ 64 →
  ss_gen s ≤ ss_gen (foldl record s l) ≤ ss_gen s + zlen l ∧
  (ss_gen (foldl record s l) = ss_gen s → foldl record s l = s).
Proof.
  revert s. induction l as [|shape l IH]; intros s Hge Hlt; [unfold zlen; simpl; split; [lia|done]|].
  unfold zlen in *. cbn [length foldl] in *. destruct (record_moves s shape) as [->|Hg].
  - destruct (IH s) as [? ?]; [lia..|]. split; [lia|done].
  - rewrite wrap_u64_id in Hg by (unfold is_u64; lia). destruct (IH (record s shape)) as [? ?]; [lia..|].
    split; [lia|]. intros Heq. lia.
Qed.

(** ** Properties *)

(** [diff] finds no difference exactly when the two shapes agree on everything
    row decoding depends on: relation ID, replica identity, key, and the
    columns with their names, types and order. *)
Lemma diff_exact s a : diff s a = None ↔ same_shape s a.
Proof. apply diff_None. Qed.

(** Recording a validated shape makes it its table's baseline, leaves every
    other table's baseline alone, moves the generation exactly when a baseline
    moved, and keeps every baseline reachable by its relation ID, provided no
    other table's baseline claims the same relation. *)
Lemma record_baseline s shape :
  indexed s →
  (∀ table other, ss_byTable s !! table = Some other → table ≠ sh_table shape →
     sh_oid other ≠ sh_oid shape) →
  (∃ b, baselineByTable (record s shape) (sh_table shape) = Some b ∧ same_shape b shape) ∧
  (∀ table, table ≠ sh_table shape → baselineByTable (record s shape) table = baselineByTable s table) ∧
  ((record s shape = s ∧ ∃ b, baselineByTable s (sh_table shape) = Some b ∧ same_shape b shape) ∨
   (ss_gen (record s shape) = wrap_u64 (ss_gen s + 1) ∧
    ¬ ∃ b, baselineByTable s (sh_table shape) = Some b ∧ same_shape b shape)) ∧
  indexed (record s shape).
Proof.
  intros Hidx Hother. unfold baselineByTable.
  assert (∀ byOID, (∀ table other, ss_byTable s !! table = Some other → table ≠ sh_table shape →
      byOID !! sh_oid other = Some other) →
    indexed (mkShapes (wrap_u64 (ss_gen s + 1)) (<[sh_table shape := shape]> (ss_byTable s))
      (<[sh_oid shape := shape]> byOID))) as Hstore.
  { intros byOID Hby table b Hb. simpl in *. destruct (decide (table = sh_table shape)) as [->|Hne].
    - rewrite lookup_insert_eq in Hb. injection Hb as <-. by rewrite lookup_insert_eq.
    - rewrite lookup_insert_ne in Hb by done. split; [by apply Hidx|].
      rewrite lookup_insert_ne by (intros Heq; by apply (Hother table b)). by apply (Hby table). }
  split; [|split; [|split]].
  - rewrite record_byTable, decide_True by done. destruct (ss_byTable s !! _) as [p|]; [|by exists shape].
    destruct (diff p shape) eqn:E; [by exists shape|]. exists p. by rewrite <-diff_None.
  - intros table Hne. by rewrite record_byTable, decide_False.
  - unfold record. destruct (ss_byTable s !! sh_table shape) as [p|] eqn:Ep.
    + destruct (diff p shape) eqn:Ed; simpl.
      * right. split; [done|]. intros (b & [= <-] & Hb%diff_None). congruence.
      * left. split; [done|]. exists p. by rewrite <-diff_None.
    + right. split; [done|]. by intros (b & ? & _).
  - unfold record. destruct (ss_byTable s !! sh_table shape) as [p|] eqn:Ep.
    + destruct (diff p shape); [|done]. apply Hstore. intros table other Ho Hne.
      destruct (Hidx table other Ho) as [Ht1 Ho2]. rewrite lookup_delete_ne; [done|]. intros Heq.
      destruct (Hidx _ _ Ep) as [Ht2 Hp2]. rewrite Heq in Hp2. congruence.
    + apply Hstore. intros table other Ho _. by destruct (Hidx table other Ho).
Qed.

Definition demo_shape (table : string) (oid : Z) : relationShape :=
  mkShape table oid 100 [mkShapeColumn "id" 20] ["id"].

Lemma record_baseline_witness :
  indexed (record (record new_shapes (demo_shape "public.a" 1)) (demo_shape "public.b" 2)).
Proof.
  refine (proj2 (proj2 (proj2 (record_baseline (record new_shapes (demo_shape "public.a" 1))
    (demo_shape "public.b" 2) _ _)))).
  - intros table b Hb. rewrite record_byTable in Hb.
    destruct (decide (table = _)) as [->|]; [|simpl in Hb; by rewrite lookup_empty in Hb].
    vm_compute in Hb. injection Hb as <-. vm_compute. done.
  - intros table b Hb _. rewrite record_byTable in Hb.
    destruct (decide (table = _)) as [->|]; [|simpl in Hb; by rewrite lookup_empty in Hb].
    vm_compute in Hb. injection Hb as <-. vm_compute. done.
Defined.

(** After a table is renamed and its old name reused, recording the new table
    drops the renamed table's baseline from the relation-ID index, so a later
    rename of that table would be missed. *)
Theorem record_forgets_renamed_table :
  let s := record (record (record new_shapes (demo_shape "public.a" 1)) (demo_shape "public.b" 1))
             (demo_shape "public.a" 2) in
  baselineByTable s "public.b" = Some (demo_shape "public.b" 1) ∧ baselineByOID s 1 = None.
Proof. vm_compute. done. Qed.
