(* ===== verification/Catalog.v ===== *)
(** * The catalog: internal/cdc/validation.go, slot.go, relation.go

    What the reader reads of PostgreSQL's catalogs before it trusts a slot, a
    publication or a table: [lookupSlot], [requireSlot], [validatePublication],
    [validateProjectionSpec] and [projectionShape]. The answers of the SQL
    queries are arguments; what the code makes of them is modelled. *)

From S2P Require Import Prelude Errors CdcTypes Config Relation.
From Stdlib Require Import Ascii.
Local Open Scope string_scope.
Local Open Scope list_scope.
Local Open Scope Z_scope.

(** ** Answers of the management connection *)

(** [QueryRow(...).Scan(...)]: a row, [pgx.ErrNoRows], or another error. *)
Inductive row_answer (A : Type) : Type :=
| RowOk (a : A)
| RowNone
| RowErr (e : error).
Arguments RowOk {A} a.
Arguments RowNone {A}.
Arguments RowErr {A} e.

(** [QueryRow] where the code does not tell [pgx.ErrNoRows] apart. *)
Definition errNoRows : error := EOther "no rows in result set".

Definition scan_row {A} (q : row_answer A) : result error A :=
  match q with
  | RowOk a => Ok a
  | RowNone => Err (classifyPostgresError errNoRows)
  | RowErr e => Err (classifyPostgresError e)
  end.

(** [Query] and its rows: its error, or the scans of its rows and [rows.Err]. *)
Record rows_answer (A : Type) : Type := mkRows {
  ra_query : option error;
  ra_scans : list (result error A);
  ra_err : option error
}.
Arguments mkRows {A} ra_query ra_scans ra_err.
Arguments ra_query {A} r.
Arguments ra_scans {A} r.
Arguments ra_err {A} r.

(** The loop [for rows.Next()]. *)
Fixpoint scan_rows {A} (scans : list (result error A)) : result error (list A) :=
  match scans with
  | [] => Ok []
  | Err e :: _ => Err (classifyPostgresError e)
  | Ok a :: rest => let! l := scan_rows rest in Ok (a :: l)
  end.

Definition read_rows {A} (q : rows_answer A) : result error (list A) :=
  match ra_query q with
  | Some e => Err (classifyPostgresError e)
  | None =>
      let! l := scan_rows (ra_scans q) in
      match ra_err q with
      | Some e => Err (classifyPostgresError e)
      | None => Ok l
      end
  end.

(** [connectManagementWithTimeout]: the connection attempt's error, and
    whether the caller's own context had ended. *)
Definition connectManagementWithTimeout (connect : option error) (ctxErr : option error)
    : result error unit :=
  match connect, ctxErr with
  | None, _ => Ok tt
  | Some _, Some c => Err c
  | Some e, None => Err (classifyConnectionError e)
  end.

(** ** Slots: slot.go *)

Record slotState : Type := mkSlot {
  sl_slotType : string;
  sl_plugin : string;
  sl_active : bool;
  sl_resumeLSN : string;
  sl_restartLSN : string
}.

Definition lookupSlot (q : row_answer slotState) : result error (option slotState) :=
  match q with
  | RowNone => Ok None
  | RowErr e => Err (classifyPostgresError e)
  | RowOk slot => Ok (Some slot)
  end.

Definition validateSlot (slot : slotState) : result error unit :=
  if decide (sl_slotType slot ≠ "logical" ∨ sl_plugin slot ≠ "pgoutput" ∨ sl_resumeLSN slot = "")
  then Err (ESentinel ErrSlotInvalidated)
  else if sl_active slot then Err (retryableError ErrSlotInUse "") else Ok tt.

Definition parseLSN `{LsnText} (value : string) : result error Z :=
  match parse_lsn value with
  | None => Err (ESentinel ErrSlotInvalidated)
  | Some l => Ok l
  end.

(** ** Publications and projections: validation.go *)

(** The row of pg_publication: insert, update, delete, truncate. *)
Definition validatePublication (q : row_answer (bool * bool * bool * bool)) : result error unit :=
  match q with
  | RowNone => Err (EWrap (ESentinel ErrInvalidReaderConfig))
  | RowErr e => Err (classifyPostgresError e)
  | RowOk (insert, update, delete, truncate) =>
      if (truncate : bool) then Err (EWrap (ESentinel ErrInvalidReaderConfig))
      else if negb insert || negb update || negb delete
      then Err (EWrap (ESentinel ErrInvalidReaderConfig))
      else Ok tt
  end.

Definition projectionPrimaryKey (q : rows_answer string) : result error (list string) :=
  let! primaryKey := read_rows q in
  if decide (primaryKey = []) then Err (EWrap (ESentinel ErrInvalidReaderConfig)) else Ok primaryKey.

(** What [projectionShape] reads: the oid, replica identity and published
    columns of the table, its columns, and its identity index's columns. *)
Record shape_answers : Type := mkShapeAnswers {
  sa_class : row_answer (Z * string * list string);
  sa_columns : list string → rows_answer (string * Z);
  sa_identity : rows_answer string
}.

Definition shape_column (c : string * Z) : shapeColumn := mkShapeColumn (fst c) (wrap_u32 (snd c)).

Definition projectionShape (spec : ProjectionSpec) (q : shape_answers) : result error relationShape :=
  let! (oid, identity, published) := scan_row (sa_class q) in
  match identity with
  | String replica EmptyString =>
      let replicaIdentity := Z.of_nat (Ascii.nat_of_ascii replica) in
      let! rows := read_rows (sa_columns q published) in
      let columns := shape_column <$> rows in
      let! key :=
        if decide (replica = "d"%char) then Ok (sp_primaryKey spec)
        else if decide (replica = "f"%char) then Ok (sc_name <$> columns)
        else if decide (replica = "i"%char) then read_rows (sa_identity q)
        else Ok [] in
      Ok (mkShape (sp_schema spec +:+ "." +:+ sp_table spec) (wrap_u32 oid) replicaIdentity
            columns (sort_strings key))
  | _ => Err (EWrap (ESentinel ErrInvalidReaderConfig))
  end.

(** What [validateProjectionSpec] reads. *)
Record spec_answers : Type := mkSpecAnswers {
  va_table : row_answer (bool * bool);
  va_primaryKey : rows_answer string;
  va_published : row_answer bool;
  va_shape : shape_answers
}.

(** [validateProjectionSpec]: on success the table's shape is recorded. *)
Definition validateProjectionSpec (s : shapes) (spec : ProjectionSpec) (q : spec_answers)
    : result error shapes :=
  let! (tableExists, scopeColumnExists) := scan_row (va_table q) in
  if negb tableExists then Err (EWrap (ESentinel ErrInvalidReaderConfig))
  else if negb scopeColumnExists then Err (EWrap (ESentinel ErrInvalidReaderConfig))
  else
    let! primaryKey := projectionPrimaryKey (va_primaryKey q) in
    if negb (sameStrings primaryKey (sp_primaryKey spec)) then Err (EWrap (ESentinel ErrInvalidReaderConfig))
    else
      let! published := scan_row (va_published q) in
      if negb published then Err (EWrap (ESentinel ErrInvalidReaderConfig))
      else
        let! shape := projectionShape spec (va_shape q) in
        Ok (record s shape).

(** ** Resuming a slot *)

(** What [requireSlot] and [slotExists] read. *)
Record slot_answers : Type := mkSlotAnswers {
  so_connect : option error;
  so_ctxErr : option error;
  so_publication : row_answer (bool * bool * bool * bool);
  so_slot : row_answer slotState
}.

Definition requireSlot `{LsnText} (q : slot_answers) : result error Z :=
  let! _ := connectManagementWithTimeout (so_connect q) (so_ctxErr q) in
  let! _ := validatePublication (so_publication q) in
  let! found := lookupSlot (so_slot q) in
  match found with
  | Some slot => let! _ := validateSlot slot in parseLSN (sl_resumeLSN slot)
  | None => Err (ESentinel ErrSlotInvalidated)
  end.

(** [slotExists] of internal/cdc/source.go. *)
Definition slotExists (q : slot_answers) : result error bool :=
  let! _ := connectManagementWithTimeout (so_connect q) (so_ctxErr q) in
  let! _ := validatePublication (so_publication q) in
  let! found := lookupSlot (so_slot q) in
  match found with
  | None => Ok false
  | Some slot =>
      if decide (sl_slotType slot ≠ "logical" ∨ sl_plugin slot ≠ "pgoutput")
      then Err (ESentinel ErrSlotInvalidated) else Ok true
  end.

(** ** Specification *)

(** The catalog answers describe the table the stream will present as
    [message]: the same oid, replica identity and columns, and key columns
    that are the flagged ones of the message, whatever their order. *)
Record catalog_of (message : RelationMessage) (spec : ProjectionSpec) (q : shape_answers) : Prop := {
  co_schema : rm_namespace message = sp_schema spec;
  co_named : sp_schema spec ≠ "";
  co_table : rm_relationName message = sp_table spec;
  co_class : ∃ replica published,
    sa_class q = RowOk (rm_relationID message, String replica EmptyString, published) ∧
    rm_replicaIdentity message = Z.of_nat (Ascii.nat_of_ascii replica) ∧
    sa_columns q published = mkRows None
      ((λ c, Ok (rc_name c, rc_dataType c)) <$> rm_columns message) None ∧
    (replica = "d"%char → sp_primaryKey spec ≡ₚ
       (rc_name <$> base.filter (λ c, rc_flags c = 1) (rm_columns message))) ∧
    (replica = "i"%char → ∃ names, sa_identity q = mkRows None (Ok <$> names) None ∧
       names ≡ₚ (rc_name <$> base.filter (λ c, rc_flags c = 1) (rm_columns message))) ∧
    (replica = "f"%char → Forall (λ c, rc_flags c = 1) (rm_columns message)) ∧
    (replica ∉ ["d"; "i"; "f"]%char → Forall (λ c, rc_flags c ≠ 1) (rm_columns message));
  co_oid : is_u32 (rm_relationID message);
  co_types : Forall (λ c, is_u32 (rc_dataType c)) (rm_columns message)
}.

(** ** Lemmas *)

Lemma sort_strings_Permutation l1 l2 : l1 ≡ₚ l2 → sort_strings l1 = sort_strings l2.
Proof.
  intros Hp. apply (Sorted_unique String.le); [apply Sorted_merge_sort; apply _..|].
  unfold sort_strings. by rewrite !merge_sort_Permutation.
Qed.

Lemma scan_rows_ok {A B} (f : B → A) l : scan_rows ((λ x, Ok (f x)) <$> l) = Ok (f <$> l).
Proof. induction l as [|x l IH]; [done|]. rewrite !fmap_cons. cbn [scan_rows]. by rewrite IH. Qed.

Lemma wrap_u32_id z : is_u32 z → wrap_u32 z = z.
Proof. unfold is_u32, wrap_u32. intros ?. rewrite Z.mod_small; lia. Qed.

(** C28 (functional): the shape read from the catalog is the shape the stream presents for
    the same table, under every replica identity: a table that did not change
    is never reported as incompatible. *)
Theorem projectionShape_agrees message spec q (Hq : catalog_of message spec q) :
  projectionShape spec q = Ok (shapeOfRelation message).
Proof.
  destruct Hq as [Hs Hne Ht (replica & published & Hc & Hr & Hcols & Hd & Hi & Hf & Hn) Ho Hty].
  unfold projectionShape. rewrite Hc. simpl. rewrite Hcols. unfold read_rows. simpl.
  rewrite scan_rows_ok. simpl. unfold shapeOfRelation, qualifiedTable. rewrite Hs, Ht, Hr, (wrap_u32_id (rm_relationID message)) by done.
  rewrite (decide_False (P := sp_schema spec = "")) by done.
  assert (shape_column <$> ((λ c, (rc_name c, rc_dataType c)) <$> rm_columns message) =
          (λ column, mkShapeColumn (rc_name column) (rc_dataType column)) <$> rm_columns message) as ->.
  { rewrite <-list_fmap_compose. apply list_fmap_ext. intros i c Hl. unfold shape_column. simpl.
    rewrite wrap_u32_id; [done|]. by eapply Forall_lookup_1 in Hty. }
  destruct (decide (replica = "d"%char)) as [Hx|]; [simpl; by rewrite (sort_strings_Permutation _ _ (Hd Hx))|].
  destruct (decide (replica = "f"%char)) as [Hx|].
  { simpl. rewrite list_filter_all by auto. by rewrite <-list_fmap_compose. }
  destruct (decide (replica = "i"%char)) as [Hx|].
  { destruct (Hi Hx) as (names & -> & Hp). unfold read_rows. simpl.
    change (Ok <$> names) with ((λ x, @Ok error _ (id x)) <$> names). rewrite scan_rows_ok, list_fmap_id. simpl.
    by rewrite (sort_strings_Permutation _ _ Hp). }
  simpl. by rewrite list_filter_none by (apply Hn; set_solver).
Qed.

(** A projection spec passes against the source only when the table exists with
    its scope column, is published, and has exactly the configured primary
    key; and then the baseline of its table is the shape just read. *)
Lemma validateProjectionSpec_records s spec q s' (Hv : validateProjectionSpec s spec q = Ok s') :
  va_table q = RowOk (true, true) ∧ read_rows (va_primaryKey q) = Ok (sp_primaryKey spec) ∧
  va_published q = RowOk true ∧
  ∃ shape, projectionShape spec (va_shape q) = Ok shape ∧ s' = record s shape ∧
    sh_table shape = sp_schema spec +:+ "." +:+ sp_table spec ∧
    ∃ baseline, baselineByTable s' (sh_table shape) = Some baseline ∧ diff baseline shape = None.
Proof.
  unfold validateProjectionSpec, scan_row in Hv.
  destruct (va_table q) as [[e sc]| |]; simpl in Hv; [|done|done].
  destruct e, sc; simpl in Hv; try done.
  unfold projectionPrimaryKey in Hv. destruct (read_rows (va_primaryKey q)) as [pk|] eqn:Hpk; [|done].
  simpl in Hv. destruct (decide (pk = [])); [done|]. simpl in Hv.
  destruct (sameStrings pk (sp_primaryKey spec)) eqn:Hsame; [|done].
  apply sameStrings_spec in Hsame as ->. simpl in Hv.
  destruct (va_published q) as [[]| |]; simpl in Hv; try done.
  destruct (projectionShape spec (va_shape q)) as [shape|] eqn:Hshape; [|done]. simpl in Hv.
  injection Hv as <-. split_and!; [done..|]. exists shape. split_and!; [done|done|..].
  - unfold projectionShape, result_bind in Hshape. by go_cases.
  - unfold baselineByTable. rewrite record_byTable, decide_True by done.
    destruct (ss_byTable s !! sh_table shape) as [previous|]; [|by exists shape; rewrite diff_refl].
    destruct (diff previous shape) eqn:Hd; [exists shape; by rewrite diff_refl|by exists previous].
Qed.

(** ** A concrete catalog *)

Definition demo_spec : ProjectionSpec := mkSpec "db" "public" "orders" "shop" ["shop"; "id"].

Definition demo_message : RelationMessage :=
  mkRelMessage 16384 "public" "orders" 100
    [mkRelColumn 1 "id" 20; mkRelColumn 0 "note" 25; mkRelColumn 1 "shop" 25].

Definition demo_shape_answers : shape_answers :=
  mkShapeAnswers (RowOk (16384, "d", ["id"; "note"; "shop"]))
    (λ published, mkRows None
       (if decide (published = ["id"; "note"; "shop"]) then [Ok ("id", 20); Ok ("note", 25); Ok ("shop", 25)]
        else []) None)
    (mkRows None [] None).

Definition demo_spec_answers : spec_answers :=
  mkSpecAnswers (RowOk (true, true)) (mkRows None [Ok "shop"; Ok "id"] None) (RowOk true) demo_shape_answers.

Lemma projectionShape_agrees_witness :
  projectionShape demo_spec demo_shape_answers = Ok (shapeOfRelation demo_message).
Proof.
  apply projectionShape_agrees. constructor; [done..| | |by repeat constructor].
  - exists "d"%char, ["id"; "note"; "shop"]. split_and!; try done.
    + intros _. apply perm_swap.
    + intros Hn. destruct Hn. by left.
  - by vm_compute.
Defined.

Lemma validateProjectionSpec_records_witness :
  va_published demo_spec_answers = RowOk true.
Proof.
  apply (validateProjectionSpec_records new_shapes demo_spec demo_spec_answers
    (record new_shapes (shapeOfRelation demo_message))). vm_compute. reflexivity.
Defined.
