(* ===== verification/Decoder.v ===== *)
(** * The pgoutput decoder: internal/cdc/decoder.go

    [Consume] folds pgoutput messages into committed transactions. The
    decoder's state is a record; a relation's info is the map's value, since
    only the decoder holds the pointer. The shape registry is read, not
    owned: every operation takes what its reads answer. Go [int]s are lengths
    and sums of lengths here and are kept as plain integers. *)

From S2P Require Import Prelude Errors CdcTypes Config Relation.
Local Open Scope string_scope.
Local Open Scope list_scope.
Local Open Scope Z_scope.

(** ** Messages: the fields of pglogrepl's types the code reads *)

Record TupleDataColumn : Type := mkColumn { tc_dataType : Z; tc_data : string }.

Abbreviation TupleData := (list TupleDataColumn).

(** pglogrepl's discriminators: 'n', 'u', 't'. *)
Definition TupleDataTypeNull : Z := 110.
Definition TupleDataTypeToast : Z := 117.
Definition TupleDataTypeText : Z := 116.

Inductive Message : Type :=
| MsgRelation (m : RelationMessage)
| MsgBegin (xid commitTime : Z)
| MsgInsert (relationID : Z) (tuple : option TupleData)
| MsgUpdate (relationID : Z) (oldTuple newTuple : option TupleData)
| MsgDelete (relationID : Z) (oldTuple : option TupleData)
| MsgCommit (commitLSN transactionEndLSN : Z)
| MsgType
| MsgOrigin
| MsgOther (type : string).

(** ** State *)

Record relationInfo : Type := mkInfo {
  ri_table : string;
  ri_columns : list string;
  ri_keyIndexes : list nat;
  ri_shape : relationShape;
  ri_oid : Z;
  ri_checked : Z;
  ri_incompatible : option IncompatibleRelationError
}.

Record Decoder : Type := mkDecoder {
  dc_relations : gmap Z relationInfo;
  dc_pending : option (list Change);
  dc_pendingXid : Z;
  dc_pendingCommitTime : Z;
  dc_pendingBytes : Z;
  dc_pendingCapacityHint : Z;
  dc_maxTransactionBytes : Z;
  dc_maxTransactionChanges : Z;
  dc_maxValueBytes : Z;
  dc_events : list IncompatibleRelationError
}.

Definition set_relation (d : Decoder) (id : Z) (info : relationInfo) : Decoder :=
  mkDecoder (<[id := info]> (dc_relations d)) (dc_pending d) (dc_pendingXid d)
    (dc_pendingCommitTime d) (dc_pendingBytes d) (dc_pendingCapacityHint d)
    (dc_maxTransactionBytes d) (dc_maxTransactionChanges d) (dc_maxValueBytes d) (dc_events d).

Definition set_events (d : Decoder) (events : list IncompatibleRelationError) : Decoder :=
  mkDecoder (dc_relations d) (dc_pending d) (dc_pendingXid d)
    (dc_pendingCommitTime d) (dc_pendingBytes d) (dc_pendingCapacityHint d)
    (dc_maxTransactionBytes d) (dc_maxTransactionChanges d) (dc_maxValueBytes d) events.

Definition set_pending (d : Decoder) (pending : option (list Change)) (bytes : Z) : Decoder :=
  mkDecoder (dc_relations d) pending (dc_pendingXid d)
    (dc_pendingCommitTime d) bytes (dc_pendingCapacityHint d)
    (dc_maxTransactionBytes d) (dc_maxTransactionChanges d) (dc_maxValueBytes d) (dc_events d).

Definition maxPendingCapacityHint : Z := 1024.

Definition NewDecoderWithLimits (maxTransactionBytes maxTransactionChanges maxValueBytes : Z) : Decoder :=
  mkDecoder ∅ None 0 0 0 0
    (if decide (maxTransactionBytes ≤ 0) then defaultMaxTransactionBytes else maxTransactionBytes)
    (if decide (maxTransactionChanges ≤ 0) then defaultMaxTransactionChanges else maxTransactionChanges)
    (if decide (maxValueBytes ≤ 0) then defaultMaxValueBytes else maxValueBytes) [].

Definition NewDecoder : Decoder :=
  NewDecoderWithLimits defaultMaxTransactionBytes defaultMaxTransactionChanges defaultMaxValueBytes.

(** The positions of the columns whose flag is 1. *)
Fixpoint key_indexes (index : nat) (columns : list RelationMessageColumn) : list nat :=
  match columns with
  | [] => []
  | column :: rest =>
      if decide (rc_flags column = 1) then index :: key_indexes (S index) rest
      else key_indexes (S index) rest
  end.

Definition newRelationInfo (relation : RelationMessage) : relationInfo :=
  mkInfo (qualifiedTable (rm_namespace relation) (rm_relationName relation))
    (rc_name <$> rm_columns relation) (key_indexes 0 (rm_columns relation))
    (shapeOfRelation relation) (rm_relationID relation) 0 None.

(** ** Columns and rows *)

Definition checkColumn (column : TupleDataColumn) (maxValueBytes : Z) : result error unit :=
  if decide (tc_dataType column = TupleDataTypeNull ∨ tc_dataType column = TupleDataTypeToast)
  then Ok tt
  else if decide (tc_dataType column = TupleDataTypeText) then
    if decide (slen (tc_data column) > maxValueBytes) then Err (EWrap (ESentinel ErrValueTooLarge))
    else Ok tt
  else Err (EWrap (ESentinel ErrUnsupportedColumnEncoding)).

Definition checkKeyColumn (column : TupleDataColumn) (maxValueBytes : Z) : result error unit :=
  if decide (tc_dataType column ≠ TupleDataTypeText)
  then Err (EWrap (ESentinel ErrUnsupportedColumnEncoding))
  else if decide (slen (tc_data column) = 0) then Err (EOther "key is empty")
  else if decide (slen (tc_data column) > maxValueBytes) then Err (EWrap (ESentinel ErrValueTooLarge))
  else Ok tt.

(** The loop of [checkRow]. *)
Fixpoint check_columns (columns : TupleData) (maxValueBytes textBytes : Z) : result error Z :=
  match columns with
  | [] => Ok textBytes
  | column :: rest =>
      match checkColumn column maxValueBytes with
      | Err e => Err (EWrap e)
      | Ok _ => check_columns rest maxValueBytes (textBytes + slen (tc_data column))
      end
  end.

Definition checkRow (info : relationInfo) (tuple : TupleData) (maxValueBytes : Z) : result error Z :=
  if decide (length tuple ≠ length (ri_columns info))
  then Err (EOther "cdc: relation and row tuple column counts differ")
  else check_columns tuple maxValueBytes 0.

(** The text of the row in one string, as [strings.Builder] collects it. *)
Fixpoint row_text (columns : TupleData) : string :=
  match columns with
  | [] => ""
  | column :: rest =>
      if decide (tc_dataType column = TupleDataTypeText)
      then tc_data column +:+ row_text rest else row_text rest
  end.

(** The loop that slices [text[offset:end]] for each text column. *)
Fixpoint slice_values (text : string) (offset : nat) (columns : TupleData) : list Value :=
  match columns with
  | [] => []
  | column :: rest =>
      if decide (tc_dataType column = TupleDataTypeText) then
        let width := String.length (tc_data column) in
        mkValue ValueText (String.substring offset width text) ::
        slice_values text (offset + width) rest
      else if decide (tc_dataType column = TupleDataTypeToast)
      then mkValue ValueUnchangedToast "" :: slice_values text offset rest
      else zero_Value :: slice_values text offset rest
  end.

Definition decodeRow (info : relationInfo) (tuple : option TupleData) (maxValueBytes : Z)
    : result error (list Value) :=
  match tuple with
  | None => Err (EOther "cdc: row mutation is missing a tuple")
  | Some columns =>
      let! _ := checkRow info columns maxValueBytes in
      Ok (slice_values (row_text columns) 0 columns)
  end.

(** ** Keys *)

(** The loop of [keyFromValues]. A position past the row or the column names
    would panic; both lists have the row's length. *)
Fixpoint key_loop (info : relationInfo) (values : list Value) (indexes : list nat)
    (key : gmap string string) : result error (gmap string string) :=
  match indexes with
  | [] => Ok key
  | index :: rest =>
      let value := default zero_Value (values !! index) in
      if decide (v_kind value ≠ ValueText ∨ v_text value = "")
      then Err (EOther "cdc: key is not a non-empty text value")
      else key_loop info values rest (<[default "" (ri_columns info !! index) := v_text value]> key)
  end.

Definition keyFromValues (info : relationInfo) (values : list Value) : result error (gmap string string) :=
  if decide (length (ri_keyIndexes info) = 0%nat)
  then Err (EOther "cdc: relation has no replica-identity key columns")
  else key_loop info values (ri_keyIndexes info) ∅.

Definition empty_column : TupleDataColumn := mkColumn 0 "".

(** The key columns of a complete old row. *)
Fixpoint check_key_indexes (columns : TupleData) (indexes : list nat) : result error unit :=
  match indexes with
  | [] => Ok tt
  | index :: rest =>
      let column := default empty_column (columns !! index) in
      if decide (tc_dataType column ≠ TupleDataTypeText ∨ slen (tc_data column) = 0)
      then Err (EOther "cdc: key is not a non-empty text value")
      else check_key_indexes columns rest
  end.

(** The columns of an old key. *)
Fixpoint check_key_columns (columns : TupleData) (maxValueBytes : Z) : result error unit :=
  match columns with
  | [] => Ok tt
  | column :: rest =>
      match checkKeyColumn column maxValueBytes with
      | Err e => Err (EWrap e)
      | Ok _ => check_key_columns rest maxValueBytes
      end
  end.

Definition checkKeyTuple (info : relationInfo) (tuple : option TupleData) (maxValueBytes : Z)
    : result error unit :=
  match tuple with
  | None => Err (EOther "cdc: delete mutation is missing its replica-identity tuple")
  | Some columns =>
      if decide (length (ri_keyIndexes info) = 0%nat)
      then Err (EOther "cdc: relation has no replica-identity key columns")
      else if decide (length columns = length (ri_columns info)) then
        let! _ := checkRow info columns maxValueBytes in
        check_key_indexes columns (ri_keyIndexes info)
      else if decide (length columns = length (ri_keyIndexes info))
      then check_key_columns columns maxValueBytes
      else Err (EOther "cdc: relation key tuple has an unexpected number of columns")
  end.

Definition keyColumn (info : relationInfo) (columns : TupleData) (k : nat) : TupleDataColumn :=
  if decide (length columns = length (ri_columns info))
  then default empty_column (columns !! default 0%nat (ri_keyIndexes info !! k))
  else default empty_column (columns !! k).

(** The key columns in key order. *)
Definition key_columns (info : relationInfo) (columns : TupleData) : TupleData :=
  keyColumn info columns <$> seq 0 (length (ri_keyIndexes info)).

Fixpoint concat_data (columns : TupleData) : string :=
  match columns with
  | [] => ""
  | column :: rest => tc_data column +:+ concat_data rest
  end.

Fixpoint slice_key (text : string) (offset : nat) (names : list string) (columns : TupleData)
    (key : gmap string string) : gmap string string :=
  match names, columns with
  | name :: names', column :: columns' =>
      let width := String.length (tc_data column) in
      slice_key text (offset + width) names' columns'
        (<[name := String.substring offset width text]> key)
  | _, _ => key
  end.

Definition key_names (info : relationInfo) : list string :=
  (λ index, default "" (ri_columns info !! index)) <$> ri_keyIndexes info.

Definition keyFromTuple (info : relationInfo) (columns : TupleData) : gmap string string :=
  slice_key (concat_data (key_columns info columns)) 0 (key_names info) (key_columns info columns) ∅.

(** ** Row changes *)

Definition relation (d : Decoder) (id : Z) : result error relationInfo :=
  match dc_relations d !! id with
  | Some info => Ok info
  | None => Err (EWrap (ESentinel ErrUnknownRelation))
  end.

Definition insert_row (d : Decoder) (id : Z) (tuple : option TupleData) : result error Change :=
  let! info := relation d id in
  let! values := decodeRow info tuple (dc_maxValueBytes d) in
  let! key := keyFromValues info values in
  Ok (mkChange OperationInsert (ri_table info) key (ri_columns info) values).

(** The loop that compares the old key with the new row. *)
Fixpoint same_key (info : relationInfo) (old : TupleData) (values : list Value) (k : nat)
    (indexes : list nat) : bool :=
  match indexes with
  | [] => true
  | index :: rest =>
      if decide (tc_data (keyColumn info old k) ≠ v_text (default zero_Value (values !! index)))
      then false else same_key info old values (S k) rest
  end.

Definition update_row (d : Decoder) (id : Z) (oldTuple newTuple : option TupleData) : result error Change :=
  let! info := relation d id in
  let! values := decodeRow info newTuple (dc_maxValueBytes d) in
  let! key := keyFromValues info values in
  let! _ :=
    match oldTuple with
    | None => Ok tt
    | Some old =>
        let! _ := checkKeyTuple info (Some old) (dc_maxValueBytes d) in
        if same_key info old values 0 (ri_keyIndexes info) then Ok tt
        else Err (ESentinel ErrPrimaryKeyChangeUnsupported)
    end in
  Ok (mkChange OperationUpdate (ri_table info) key (ri_columns info) values).

Definition delete_row (d : Decoder) (id : Z) (oldTuple : option TupleData) : result error Change :=
  let! info := relation d id in
  let! _ := checkKeyTuple info oldTuple (dc_maxValueBytes d) in
  Ok (mkChange OperationDelete (ri_table info) (keyFromTuple info (default [] oldTuple)) [] []).

(** ** The in-flight transaction *)

Definition estimatedValueBytes (value : Value) : Z :=
  match v_kind value with ValueText => slen (v_text value) | _ => 1 end.

Definition changeOverhead : Z := 256.

Definition key_bytes (key : gmap string string) : Z :=
  map_fold (λ name value bytes, bytes + (slen name + slen value)) 0 key.

(** The loop over [change.Values], naming each by [change.Columns[index]]; both
    have the row's length. *)
Fixpoint value_bytes (columns : list string) (values : list Value) : Z :=
  match values with
  | [] => 0
  | value :: rest =>
      slen (default "" (head columns)) + estimatedValueBytes value + value_bytes (tail columns) rest
  end.

Definition estimatedChangeBytes (change : Change) : Z :=
  changeOverhead + slen (ch_operation change) + slen (ch_table change) +
  key_bytes (ch_key change) + value_bytes (ch_columns change) (ch_values change).

(** [Decoder.append]. *)
Definition append_pending (d : Decoder) (change : Change) : Decoder * result error unit :=
  match dc_pending d with
  | None => (d, Err (ESentinel ErrNoTransaction))
  | Some pending =>
      if decide (dc_maxTransactionChanges d ≤ zlen pending)
      then (d, Err (ESentinel ErrTransactionTooManyChanges))
      else
        let changeBytes := estimatedChangeBytes change in
        if decide (changeBytes > dc_maxTransactionBytes d - dc_pendingBytes d)
        then (d, Err (ESentinel ErrTransactionTooLarge))
        else (set_pending d (Some (pending ++ [change])) (dc_pendingBytes d + changeBytes), Ok tt)
  end.

Definition InTransaction (d : Decoder) : bool :=
  match dc_pending d with Some _ => true | None => false end.

Definition Pending (d : Decoder) : Z * Z := (zlen (default [] (dc_pending d)), dc_pendingBytes d).

(** ** Schema checks *)

Definition report (d : Decoder) (event : IncompatibleRelationError) : Decoder :=
  if existsb (λ existing, bool_decide (inc_table existing = inc_table event)) (dc_events d)
  then d else set_events d (dc_events d ++ [event]).

(** [Decoder.check] on the relation the map holds under [id]. *)
Definition check (d : Decoder) (shapes : option shapeRegistry) (id : Z) (info : relationInfo) : Decoder :=
  match shapes with
  | None => d
  | Some reg =>
      let checked incompatible :=
        mkInfo (ri_table info) (ri_columns info) (ri_keyIndexes info) (ri_shape info) (ri_oid info)
          (sr_generation reg) incompatible in
      let d := match sr_byOID reg (ri_oid info) with
               | Some renamed =>
                   if decide (sh_table renamed ≠ ri_table info)
                   then report d (mkIncompatible (sh_table renamed) (DiffRenamed (ri_table info)))
                   else d
               | None => d
               end in
      match sr_byTable reg (ri_table info) with
      | None => set_relation d id (checked None)
      | Some baseline =>
          match diff baseline (ri_shape info) with
          | None => set_relation d id (checked None)
          | Some difference =>
              let event := mkIncompatible (ri_table info) difference in
              report (set_relation d id (checked (Some event))) event
          end
      end
  end.

Definition skip (d : Decoder) (shapes : option shapeRegistry) (id : Z) : Decoder * result error bool :=
  match relation d id with
  | Err e => (d, Err e)
  | Ok info =>
      let d := match shapes with
               | Some reg => if decide (ri_checked info ≠ sr_generation reg)
                             then check d shapes id info else d
               | None => d
               end in
      match relation d id with
      | Err e => (d, Err e)
      | Ok info => (d, Ok (bool_decide (is_Some (ri_incompatible info))))
      end
  end.

(** ** Consume *)

(** A row message: skipped, or decoded and appended. *)
Definition consume_row (d : Decoder) (shapes : option shapeRegistry) (id : Z)
    (decode : Decoder → result error Change) : Decoder * result error (option Transaction) :=
  let '(d, skipped) := skip d shapes id in
  match skipped with
  | Err e => (d, Err e)
  | Ok true => (d, Ok None)
  | Ok false =>
      match decode d with
      | Err e => (d, Err e)
      | Ok change =>
          let '(d, r) := append_pending d change in
          (d, let! _ := r in Ok None)
      end
  end.

(** [shapes] is the registry as it is during the call: [check] and [skip] read
    the generation and the baselines one after the other, and a snapshot that
    records a baseline between those reads is taken to come before or after. *)
Definition Consume (d : Decoder) (shapes : option shapeRegistry) (message : Message)
    : Decoder * result error (option Transaction) :=
  match message with
  | MsgRelation m =>
      let info := newRelationInfo m in
      (check (set_relation d (rm_relationID m) info) shapes (rm_relationID m) info, Ok None)
  | MsgBegin xid commitTime =>
      match dc_pending d with
      | Some _ => (d, Err (ESentinel ErrTransactionInProgress))
      | None =>
          (mkDecoder (dc_relations d) (Some []) xid commitTime 0 (dc_pendingCapacityHint d)
             (dc_maxTransactionBytes d) (dc_maxTransactionChanges d) (dc_maxValueBytes d) (dc_events d),
           Ok None)
      end
  | MsgInsert id tuple => consume_row d shapes id (λ d, insert_row d id tuple)
  | MsgUpdate id old new => consume_row d shapes id (λ d, update_row d id old new)
  | MsgDelete id old => consume_row d shapes id (λ d, delete_row d id old)
  | MsgCommit commitLSN endLSN =>
      match dc_pending d with
      | None => (d, Err (ESentinel ErrNoTransaction))
      | Some changes =>
          (mkDecoder (dc_relations d) None (dc_pendingXid d) (dc_pendingCommitTime d) 0
             (Z.min (zlen changes) maxPendingCapacityHint)
             (dc_maxTransactionBytes d) (dc_maxTransactionChanges d) (dc_maxValueBytes d) [],
           Ok (Some (mkTransaction (mkCursor "" endLSN) changes (dc_pendingCommitTime d)
                       (dc_events d) commitLSN (dc_pendingXid d))))
      end
  | MsgType | MsgOrigin => (d, Ok None)
  | MsgOther _ => (d, Err (EWrap (ESentinel ErrUnsupportedPGOutputMessage)))
  end.
