(* ===== verification/DecoderProps.v ===== *)
(** * What the decoder guarantees

    Rows and keys sliced out of one string are the columns' own values, the
    in-flight transaction stays within its bounds, BEGIN to COMMIT yields one
    transaction with the rows in order, and rows of a table whose shape no
    longer matches are dropped and reported. *)

From S2P Require Import Prelude Errors CdcTypes Config Relation Decoder.
Local Open Scope string_scope.
Local Open Scope list_scope.
Local Open Scope Z_scope.

(** ** Specification *)

(** One column on its own, without the shared row text. *)
Definition column_value (c : TupleDataColumn) : Value :=
  if decide (tc_dataType c = TupleDataTypeText) then TextValue (tc_data c)
  else if decide (tc_dataType c = TupleDataTypeToast) then mkValue ValueUnchangedToast ""
  else zero_Value.

Definition column_ok (maxValueBytes : Z) (c : TupleDataColumn) : Prop :=
  tc_dataType c = TupleDataTypeNull ∨ tc_dataType c = TupleDataTypeToast ∨
  (tc_dataType c = TupleDataTypeText ∧ slen (tc_data c) ≤ maxValueBytes).

(** A map built by assigning the names in order. *)
Definition assign_all (names texts : list string) (m : gmap string string) : gmap string string :=
  foldl (λ m '(name, text), <[name := text]> m) m (zip names texts).

(** The key texts of a tuple, in key order. *)
Definition key_texts (info : relationInfo) (columns : TupleData) : list string :=
  tc_data <$> key_columns info columns.

(** The in-flight transaction's footprint, and its bounds. *)
Definition footprint (changes : list Change) : Z := foldr Z.add 0 (estimatedChangeBytes <$> changes).

Definition bounded (d : Decoder) : Prop :=
  match dc_pending d with
  | None => True
  | Some pending =>
      zlen pending ≤ dc_maxTransactionChanges d ∧
      dc_pendingBytes d = footprint pending ∧ dc_pendingBytes d ≤ dc_maxTransactionBytes d
  end.

(** ** Slicing *)

Lemma substring_zero s : String.substring 0 (String.length s) s = s.
Proof. induction s as [|a s IH]; simpl; [done|]. by rewrite IH. Qed.

Lemma substring_prefix d r : String.substring 0 (String.length d) (d +:+ r) = d.
Proof. induction d as [|a d IH]; simpl; [by destruct r|]. by rewrite IH. Qed.

Lemma substring_middle p d r :
  String.substring (String.length p) (String.length d) (p +:+ d +:+ r) = d.
Proof. induction p as [|a p IH]; simpl; [apply substring_prefix|apply IH]. Qed.

Lemma slice_values_spec p cols :
  slice_values (p +:+ row_text cols) (String.length p) cols = column_value <$> cols.
Proof.
  revert p. induction cols as [|c cols IH]; intros p; simpl; [done|]. unfold column_value at 1.
  destruct (decide (tc_dataType c = TupleDataTypeText)).
  - rewrite substring_middle. f_equal. by rewrite <-string_app_assoc, <-string_length_app, IH.
  - by destruct (decide _); rewrite IH.
Qed.

Lemma slice_key_spec p names cols m :
  length names = length cols →
  slice_key (p +:+ concat_data cols) (String.length p) names cols m = assign_all names (tc_data <$> cols) m.
Proof.
  revert p names m. induction cols as [|c cols IH]; intros p [|n names] m Hl; try done.
  injection Hl as Hl. simpl. rewrite substring_middle, <-string_app_assoc, <-string_length_app, IH by done.
  done.
Qed.

Lemma check_columns_spec cols maxBytes n :
  match check_columns cols maxBytes n with
  | Ok _ => Forall (column_ok maxBytes) cols
  | Err _ => ¬ Forall (column_ok maxBytes) cols
  end.
Proof.
  revert n. induction cols as [|c cols IH]; intros n; simpl; [constructor|].
  assert (match checkColumn c maxBytes with Ok _ => column_ok maxBytes c | Err _ => ¬ column_ok maxBytes c end) as Hc.
  { unfold checkColumn, column_ok. destruct (decide _); [naive_solver|].
    destruct (decide (tc_dataType c = TupleDataTypeText)); [|naive_solver].
    destruct (decide _); [|right; right; split; [done|lia]]. intros [?|[?|[_ ?]]]; [tauto|tauto|lia]. }
  destruct (checkColumn c maxBytes).
  - specialize (IH (n + slen (tc_data c))). destruct (check_columns _ _ _).
    + by constructor.
    + by intros [_ ?]%Forall_cons.
  - by intros [? _]%Forall_cons.
Qed.

Lemma key_names_length info cols : length (key_names info) = length (key_columns info cols).
Proof. unfold key_names, key_columns. by rewrite !length_fmap, length_seq. Qed.

Lemma keyFromTuple_spec info cols :
  keyFromTuple info cols = assign_all (key_names info) (key_texts info cols) ∅.
Proof.
  unfold keyFromTuple. apply (slice_key_spec ""). apply key_names_length.
Qed.

(** ** Keys *)

Lemma key_loop_spec info values indexes m key :
  key_loop info values indexes m = Ok key →
  key = assign_all ((λ i, default "" (ri_columns info !! i)) <$> indexes)
          ((λ i, v_text (default zero_Value (values !! i))) <$> indexes) m ∧
  Forall (λ i, ∃ v, values !! i = Some v ∧ v_kind v = ValueText ∧ v_text v ≠ "") indexes.
Proof.
  revert m. induction indexes as [|i indexes IH]; intros m; simpl.
  { intros [= <-]. split; [done|constructor]. }
  destruct (decide _) as [|Hn]; [done|]. intros [-> Hall]%IH. split; [done|]. constructor; [|done].
  destruct (values !! i) as [v|]; simpl in *; [|naive_solver]. exists v. split; [done|].
  destruct (decide (v_kind v = ValueText)); [naive_solver|]. by destruct Hn; left.
Qed.

Lemma same_key_spec info old values k indexes :
  same_key info old values k indexes = true →
  (tc_data <$> (keyColumn info old <$> seq k (length indexes))) =
  (λ i, v_text (default zero_Value (values !! i))) <$> indexes.
Proof.
  revert k. induction indexes as [|i indexes IH]; intros k; cbn [same_key length seq]; [done|].
  destruct (decide _) as [|Hk%dec_stable]; [done|]. intros Hs. rewrite !fmap_cons, Hk. f_equal.
  exact (IH (S k) Hs).
Qed.

(** ** Properties *)

(** A row decodes exactly when it has one value per column and each is NULL,
    an unchanged TOAST value, or text within the size bound; and then each
    value, although sliced from one string shared by the row, is that
    column's own. *)
Lemma decodeRow_exact info cols maxBytes values :
  decodeRow info (Some cols) maxBytes = Ok values ↔
  length cols = length (ri_columns info) ∧ Forall (column_ok maxBytes) cols ∧
  values = column_value <$> cols.
Proof.
  unfold decodeRow, checkRow. destruct (decide _) as [Hl|Hl%dec_stable]; simpl; [naive_solver|].
  pose proof (check_columns_spec cols maxBytes 0) as Hc.
  pose proof (slice_values_spec "" cols) as Hs. simpl in Hs. rewrite Hs.
  destruct (check_columns cols maxBytes 0); simpl; [|naive_solver]. naive_solver.
Qed.

(** An update keeps its row's key. When the stream sends the old row or the
    old key, the update is accepted only with that very key: the key of the
    change is the one the old tuple carries, as a delete of the old row would
    report it. *)
Lemma update_row_keeps_key d id info old new change :
  dc_relations d !! id = Some info →
  update_row d id (Some old) (Some new) = Ok change →
  ch_key change = keyFromTuple info old ∧
  delete_row d id (Some old) = Ok (mkChange OperationDelete (ri_table info) (ch_key change) [] []).
Proof.
  intros Hi. unfold update_row, delete_row, relation. rewrite Hi. cbn [result_bind].
  destruct (decodeRow _ _ _) as [values|e]; cbn [result_bind]; [|done].
  unfold keyFromValues. destruct (decide _); cbn [result_bind]; [done|].
  destruct (key_loop _ _ _ _) as [key|e] eqn:Hkey; cbn [result_bind]; [|done].
  destruct (checkKeyTuple _ _ _) as [u|e] eqn:Hck; cbn [result_bind]; [|done].
  destruct (same_key _ _ _ _ _) eqn:Hsame; cbn [result_bind]; [|done].
  intros [= <-]. apply key_loop_spec in Hkey as [Hkey _]. apply same_key_spec in Hsame.
  assert (key = keyFromTuple info old) as ->.
  { rewrite keyFromTuple_spec. unfold key_texts, key_columns. by rewrite Hsame. }
  done.
Qed.

(** ** Bounds *)

Lemma footprint_app a b : footprint (a ++ b) = footprint a + footprint b.
Proof.
  unfold footprint. rewrite fmap_app. induction (estimatedChangeBytes <$> a) as [|x l IH]; simpl; [done|].
  rewrite IH. lia.
Qed.

(** The limits, and the in-flight transaction. *)
Definition limits (d : Decoder) := (dc_maxTransactionBytes d, dc_maxTransactionChanges d, dc_maxValueBytes d).
Definition in_flight (d : Decoder) :=
  (dc_pending d, dc_pendingBytes d, dc_pendingXid d, dc_pendingCommitTime d, limits d).

Lemma report_in_flight d e : in_flight (report d e) = in_flight d ∧ dc_relations (report d e) = dc_relations d.
Proof. unfold report. by destruct (existsb _ _). Qed.

Lemma check_in_flight d shapes id info : in_flight (check d shapes id info) = in_flight d.
Proof.
  unfold check. destruct shapes as [reg|]; [|done]. cbv zeta.
  set (d1 := match sr_byOID reg (ri_oid info) with Some _ => _ | None => d end).
  assert (in_flight d1 = in_flight d) as Hd1.
  { subst d1. destruct (sr_byOID _ _); [|done]. destruct (decide _); [apply report_in_flight|done]. }
  destruct (sr_byTable _ _); [|done]. destruct (diff _ _); [|done].
  by rewrite (proj1 (report_in_flight _ _)).
Qed.

Lemma skip_in_flight d shapes id : in_flight (skip d shapes id).1 = in_flight d.
Proof.
  unfold skip. destruct (relation d id) as [info|]; [|done].
  set (d1 := match shapes with Some _ => _ | None => d end).
  assert (in_flight d1 = in_flight d) as Hd1.
  { subst d1. destruct shapes; [|done]. destruct (decide _); [apply check_in_flight|done]. }
  by destruct (relation d1 id).
Qed.

Lemma bounded_in_flight d d' : in_flight d' = in_flight d → bounded d → bounded d'.
Proof. unfold in_flight, limits, bounded. intros [= -> -> _ _ -> -> _]. done. Qed.

Lemma append_pending_bounded d change :
  bounded d → bounded (append_pending d change).1 ∧ limits (append_pending d change).1 = limits d.
Proof.
  unfold append_pending. intros Hb. destruct (dc_pending d) as [p|] eqn:Hp; [|done].
  destruct (decide _); [done|]. destruct (decide _); [done|]. split; [|done].
  unfold bounded in *. rewrite Hp in Hb. simpl. destruct Hb as (H1 & H2 & H3).
  rewrite footprint_app. change (footprint [change]) with (estimatedChangeBytes change + 0).
  unfold zlen in *. rewrite length_app. simpl. lia.
Qed.

Lemma consume_row_bounded d shapes id decode :
  bounded d → bounded (consume_row d shapes id decode).1 ∧
  limits (consume_row d shapes id decode).1 = limits d.
Proof.
  intros Hb. unfold consume_row. pose proof (skip_in_flight d shapes id) as Hs.
  destruct (skip d shapes id) as [d1 r]. simpl in Hs.
  assert (bounded d1 ∧ limits d1 = limits d) as [Hb1 Hl1].
  { split; [by eapply bounded_in_flight|]. unfold in_flight in Hs. congruence. }
  destruct r as [[]|]; [done| |done]. destruct (decode d1) as [change|]; [|done].
  pose proof (append_pending_bounded d1 change Hb1) as [Ha1 Ha2].
  destruct (append_pending d1 change) as [d2 r2]. simpl in *. split; [done|congruence].
Qed.

Lemma Consume_bounded_step d shapes m :
  0 ≤ dc_maxTransactionBytes d → 0 ≤ dc_maxTransactionChanges d → bounded d →
  bounded (Consume d shapes m).1 ∧ limits (Consume d shapes m).1 = limits d.
Proof.
  intros H1 H2 Hb. destruct m; simpl.
  - pose proof (check_in_flight (set_relation d (rm_relationID m) (newRelationInfo m)) shapes
      (rm_relationID m) (newRelationInfo m)) as Hc. split.
    + eapply bounded_in_flight; [exact Hc|]. exact Hb.
    + unfold in_flight in Hc. change (limits d) with
        (limits (set_relation d (rm_relationID m) (newRelationInfo m))). congruence.
  - destruct (dc_pending d); [done|]. split; [|done]. unfold bounded, footprint, zlen. simpl. lia.
  - by apply consume_row_bounded.
  - by apply consume_row_bounded.
  - by apply consume_row_bounded.
  - by destruct (dc_pending d).
  - done.
  - done.
  - done.
Qed.

(** Messages in sequence, whatever each returns. *)
Definition consume_states (d : Decoder) (ms : list (option shapeRegistry * Message)) : Decoder :=
  foldl (λ d '(shapes, m), (Consume d shapes m).1) d ms.

Lemma consume_states_bounded d ms :
  0 ≤ dc_maxTransactionBytes d → 0 ≤ dc_maxTransactionChanges d → bounded d →
  bounded (consume_states d ms) ∧ limits (consume_states d ms) = limits d.
Proof.
  revert d. induction ms as [|[shapes m] ms IH]; intros d H1 H2 Hb; [done|].
  destruct (Consume_bounded_step d shapes m H1 H2 Hb) as [Hb' Hl].
  unfold consume_states in *. cbn [foldl]. unfold limits in Hl. injection Hl as L1 L2 L3.
  destruct (IH (Consume d shapes m).1) as [I1 I2]; [lia|lia|done|]. split; [done|].
  rewrite I2. unfold limits. congruence.
Qed.

(** C30 (bounds): whatever messages arrive, in whatever order and against whatever
    baselines, the decoder never holds more changes or more estimated bytes
    than its limits, and the bytes it accounts for are exactly those of the
    changes it holds. *)
Theorem decoder_stays_bounded maxBytes maxChanges maxValue ms :
  bounded (consume_states (NewDecoderWithLimits maxBytes maxChanges maxValue) ms).
Proof.
  apply consume_states_bounded; simpl.
  - destruct (decide _); [done|lia].
  - destruct (decide _); [done|lia].
  - done.
Qed.

(** ** One transaction per BEGIN and COMMIT *)

(** Consuming until the first error, with the transactions emitted. *)
Fixpoint consume_all (d : Decoder) (ms : list (option shapeRegistry * Message))
    : Decoder * list Transaction * option error :=
  match ms with
  | [] => (d, [], None)
  | (shapes, m) :: rest =>
      match Consume d shapes m with
      | (d1, Err e) => (d1, [], Some e)
      | (d1, Ok t) =>
          let '(d2, ts, e) := consume_all d1 rest in (d2, option_list t ++ ts, e)
      end
  end.

(** The change a row message stands for, unless its table is skipped. *)
Definition message_change (d : Decoder) (shapes : option shapeRegistry) (m : Message) : option Change :=
  let row id (decode : Decoder → result error Change) :=
    match skip d shapes id with
    | (d1, Ok false) => match decode d1 with Ok c => Some c | Err _ => None end
    | _ => None
    end in
  match m with
  | MsgInsert id t => row id (λ d, insert_row d id t)
  | MsgUpdate id old new => row id (λ d, update_row d id old new)
  | MsgDelete id old => row id (λ d, delete_row d id old)
  | _ => None
  end.

Fixpoint body_changes (d : Decoder) (ms : list (option shapeRegistry * Message)) : list Change :=
  match ms with
  | [] => []
  | (shapes, m) :: rest => option_list (message_change d shapes m) ++ body_changes (Consume d shapes m).1 rest
  end.

(** What may stand between BEGIN and COMMIT. *)
Definition body_message (m : Message) : Prop :=
  match m with MsgBegin _ _ | MsgCommit _ _ => False | _ => True end.

Lemma consume_row_body d shapes id decode p d1 r :
  dc_pending d = Some p → consume_row d shapes id decode = (d1, Ok r) →
  r = None ∧
  dc_pending d1 = Some (p ++ option_list
    match skip d shapes id with
    | (d1, Ok false) => match decode d1 with Ok c => Some c | Err _ => None end
    | _ => None
    end) ∧
  dc_pendingXid d1 = dc_pendingXid d ∧ dc_pendingCommitTime d1 = dc_pendingCommitTime d.
Proof.
  intros Hp. unfold consume_row. pose proof (skip_in_flight d shapes id) as Hs.
  destruct (skip d shapes id) as [d' [[]|e]]; simpl in Hs; unfold in_flight in Hs;
    injection Hs as S1 S2 S3 S4 S5; try done.
  - intros [= <- <-]. rewrite S1, Hp, app_nil_r. done.
  - destruct (decode d') as [c|e]; [|done]. unfold append_pending. rewrite S1, Hp.
    destruct (decide _); [done|]. destruct (decide _); [done|]. intros [= <- <-]. done.
Qed.

Lemma consume_body d shapes m p d1 r :
  dc_pending d = Some p → body_message m → Consume d shapes m = (d1, Ok r) →
  r = None ∧ dc_pending d1 = Some (p ++ option_list (message_change d shapes m)) ∧
  dc_pendingXid d1 = dc_pendingXid d ∧ dc_pendingCommitTime d1 = dc_pendingCommitTime d.
Proof.
  intros Hp Hb. destruct m; simpl in *; try done.
  - intros [= <- <-]. pose proof (check_in_flight (set_relation d (rm_relationID m) (newRelationInfo m))
      shapes (rm_relationID m) (newRelationInfo m)) as Hc. unfold in_flight in Hc.
    injection Hc as C1 C2 C3 C4 C5. rewrite C1, app_nil_r. done.
  - by apply consume_row_body.
  - by apply consume_row_body.
  - by apply consume_row_body.
  - intros [= <- <-]. by rewrite app_nil_r.
  - intros [= <- <-]. by rewrite app_nil_r.
Qed.

Lemma consume_all_app d ms ms' :
  consume_all d (ms ++ ms') =
  match consume_all d ms with
  | (d1, ts, None) => let '(d2, ts', e) := consume_all d1 ms' in (d2, ts ++ ts', e)
  | r => r
  end.
Proof.
  revert d. induction ms as [|[shapes m] ms IH]; intros d; simpl.
  { by destruct (consume_all d ms') as [[??]?]. }
  destruct (Consume d shapes m) as [d1 [t|e]]; [|done]. rewrite IH.
  destruct (consume_all d1 ms) as [[d2 ts] [e|]]; [done|].
  destruct (consume_all d2 ms') as [[d3 ts'] e]. by rewrite app_assoc.
Qed.

Lemma consume_all_body d ms p d1 ts :
  dc_pending d = Some p → Forall (λ sm, body_message sm.2) ms → consume_all d ms = (d1, ts, None) →
  ts = [] ∧ dc_pending d1 = Some (p ++ body_changes d ms) ∧
  dc_pendingXid d1 = dc_pendingXid d ∧ dc_pendingCommitTime d1 = dc_pendingCommitTime d.
Proof.
  revert d p ts. induction ms as [|[shapes m] ms IH]; intros d p ts Hp Hb; simpl.
  { intros [= <- <-]. by rewrite app_nil_r. }
  apply Forall_cons in Hb as [Hm Hb]. destruct (Consume d shapes m) as [d' [t|e]] eqn:Hc; [|done].
  destruct (consume_body d shapes m p d' t Hp Hm Hc) as (-> & Hp' & Hx & Ht).
  destruct (consume_all d' ms) as [[d2 ts'] e'] eqn:Hrest. intros [= <- <- ->].
  destruct (IH d' _ ts' Hp' Hb Hrest) as (-> & Hp2 & Hx2 & Ht2).
  split; [done|]. simpl. rewrite Hp2, app_assoc. split; [done|]. split; congruence.
Qed.

(** From BEGIN to COMMIT the decoder emits one transaction and nothing
    before it: the changes of the row messages in order, less those of skipped
    tables, with BEGIN's transaction ID and commit time and COMMIT's
    positions, and it is then ready for the next BEGIN. *)
Lemma consume_transaction d xid commitTime body commitLSN endLSN r0 r1 d' ts :
  dc_pending d = None → Forall (λ sm, body_message sm.2) body →
  consume_all d ((r0, MsgBegin xid commitTime) :: body ++ [(r1, MsgCommit commitLSN endLSN)]) =
    (d', ts, None) →
  (∃ events, ts = [mkTransaction (mkCursor "" endLSN)
                     (body_changes (Consume d r0 (MsgBegin xid commitTime)).1 body)
                     commitTime events commitLSN xid]) ∧
  dc_pending d' = None ∧ dc_events d' = [] ∧ dc_pendingBytes d' = 0.
Proof.
  intros Hp Hb. cbn [consume_all Consume]. rewrite Hp. rewrite consume_all_app.
  set (d0 := mkDecoder _ _ _ _ _ _ _ _ _ _).
  destruct (consume_all d0 body) as [[d1 ts1] [e|]] eqn:Hbody; [done|].
  destruct (consume_all_body d0 body [] d1 ts1 eq_refl Hb Hbody) as (-> & Hp1 & Hx & Ht).
  cbn [consume_all Consume]. rewrite Hp1. intros [= <- <-]. simpl. split; [|done].
  exists (dc_events d1). rewrite Hx, Ht. done.
Qed.

(** ** Changed tables *)

Lemma relation_set d id info : relation (set_relation d id info) id = Ok info.
Proof. unfold relation. simpl. by rewrite lookup_insert_eq. Qed.

(** C31 (safety): a table whose shape differs from its validated baseline is cut off: from
    the relation message that shows it, its rows decode to nothing, whatever
    they hold, and the difference is among the events the next COMMIT
    carries. *)
Theorem incompatible_rows_dropped d reg m baseline difference :
  sr_byTable reg (qualifiedTable (rm_namespace m) (rm_relationName m)) = Some baseline →
  diff baseline (shapeOfRelation m) = Some difference →
  let d1 := (Consume d (Some reg) (MsgRelation m)).1 in
  qualifiedTable (rm_namespace m) (rm_relationName m) ∈ inc_table <$> dc_events d1 ∧
  ∀ decode, consume_row d1 (Some reg) (rm_relationID m) decode = (d1, Ok None).
Proof.
  intros Hbase Hdiff. cbn [Consume fst]. unfold check. simpl ri_table. simpl ri_shape. simpl ri_oid.
  rewrite Hbase, Hdiff. set (d0 := match sr_byOID reg _ with Some _ => _ | None => _ end).
  set (info := mkInfo _ _ _ _ _ _ _). set (event := mkIncompatible _ _). split.
  - unfold report. destruct (existsb _ _) eqn:He.
    + apply existsb_exists in He as (x & Hx & Hb). apply bool_decide_eq_true in Hb.
      apply list_elem_of_fmap. exists x. split; [done|]. by apply list_elem_of_In.
    + simpl. rewrite fmap_app. apply elem_of_app. right. by left.
  - intros decode. unfold consume_row, skip.
    assert (relation (report (set_relation d0 (rm_relationID m) info) event) (rm_relationID m) = Ok info) as Hrel.
    { unfold relation. rewrite (proj2 (report_in_flight _ _)). simpl. by rewrite lookup_insert_eq. }
    rewrite Hrel, decide_False by (simpl; by intros H; apply H). rewrite Hrel. done.
Qed.

(** ** Concrete messages, for closed examples *)

Definition demo_relation : RelationMessage :=
  mkRelMessage 7 "public" "orders" 100
    [mkRelColumn 1 "shop" 25; mkRelColumn 1 "id" 20; mkRelColumn 0 "note" 25].

Definition demo_text (s : string) : TupleDataColumn := mkColumn TupleDataTypeText s.

Definition demo_decoder : Decoder := (Consume NewDecoder None (MsgRelation demo_relation)).1.

Definition demo_row (note : TupleDataColumn) : TupleData := [demo_text "a"; demo_text "1"; note].

Lemma update_row_keeps_key_witness :
  ch_key (mkChange OperationUpdate "public.orders"
    (<["id" := "1"]> {["shop" := "a"]}) ["shop"; "id"; "note"]
    [TextValue "a"; TextValue "1"; mkValue ValueUnchangedToast ""])
  = keyFromTuple (newRelationInfo demo_relation) [demo_text "a"; demo_text "1"].
Proof.
  refine (proj1 (update_row_keeps_key demo_decoder 7 (newRelationInfo demo_relation)
    [demo_text "a"; demo_text "1"] (demo_row (mkColumn TupleDataTypeToast "")) _ _ _));
    vm_compute; reflexivity.
Defined.

Definition demo_body : list (option shapeRegistry * Message) :=
  [(None, MsgInsert 7 (Some (demo_row (demo_text "x")))); (None, MsgDelete 7 (Some [demo_text "a"; demo_text "1"]))].

Lemma consume_transaction_witness :
  dc_pending (consume_all demo_decoder
    ((None, MsgBegin 9 100) :: demo_body ++ [(None, MsgCommit 40 50)])).1.1 = None.
Proof.
  refine (proj1 (proj2 (consume_transaction demo_decoder 9 100 demo_body 40 50 None None _
    (consume_all demo_decoder ((None, MsgBegin 9 100) :: demo_body ++ [(None, MsgCommit 40 50)])).1.2 _ _ _))).
  - reflexivity.
  - repeat constructor.
  - vm_compute. reflexivity.
Defined.

(** A registry with one baseline, of a table that had another key. *)
Definition demo_registry : shapeRegistry :=
  registry_of (record new_shapes
    (mkShape "public.orders" 7 100 [mkShapeColumn "shop" 25; mkShapeColumn "id" 20] ["id"])).

Lemma incompatible_rows_dropped_witness :
  "public.orders" ∈ inc_table <$> dc_events (Consume NewDecoder (Some demo_registry) (MsgRelation demo_relation)).1.
Proof.
  refine (proj1 (incompatible_rows_dropped NewDecoder demo_registry demo_relation
    (mkShape "public.orders" 7 100 [mkShapeColumn "shop" 25; mkShapeColumn "id" 20] ["id"])
    (DiffKey ["id"] ["id"; "shop"]) _ _)); vm_compute; reflexivity.
Defined.
