(* ===== verification/Events.v ===== *)
(** * Watch stream events: internal/watch/event.go

    The messages a watch sends, the resync reasons, and [Memo], the value the
    watchers of one delivery share. *)

From S2P Require Import Prelude Errors CdcTypes.
Local Open Scope string_scope.
Local Open Scope list_scope.
Local Open Scope Z_scope.

(** [ResyncReason] is an [int] whose named constants start at 1; the zero value
    of a field of this type is [ResyncReasonOther 0]. *)
Inductive ResyncReason : Type :=
| ResyncCursorUnavailable
| ResyncSlowWatcher
| ResyncSnapshotWindowClosed
| ResyncSourceStopped
| ResyncSchemaChanged
| ResyncReasonOther (n : Z).

#[export] Instance ResyncReason_eq_dec : EqDecision ResyncReason.
Proof. solve_decision. Defined.

(** [ResyncReason.String]. *)
Definition ResyncReason_String (r : ResyncReason) : string :=
  match r with
  | ResyncCursorUnavailable => "cursor-unavailable"
  | ResyncSlowWatcher => "slow-watcher"
  | ResyncSnapshotWindowClosed => "snapshot-window-closed"
  | ResyncSourceStopped => "source-stopped"
  | ResyncSchemaChanged => "schema-changed"
  | ResyncReasonOther n => "ResyncReason(" +:+ (if decide (n < 0) then "-" +:+ format_uint (- n) else format_uint n) +:+ ")"
  end.

(** A row of a snapshot, [map[string]any]: PostgreSQL text, Go [nil] for SQL
    NULL, or a value of any other dynamic type. *)
Inductive anyValue : Type :=
| AnyString (text : string)
| AnyNil
| AnyOther.

#[export] Instance anyValue_eq_dec : EqDecision anyValue.
Proof. solve_decision. Defined.

Abbreviation anyRow := (gmap string anyValue).

(** [*Memo] pointers are named by the order they were allocated in. *)
Abbreviation memoRef := (option nat).

Record Batch : Type := mkBatch {
  b_cursor : Cursor;
  b_commitTime : Z;
  b_changes : list Change;
  b_memo : memoRef
}.

#[export] Instance Batch_eq_dec : EqDecision Batch.
Proof. solve_decision. Defined.

Inductive Event : Type :=
| SnapshotBegin
| SnapshotRows (rows : list anyRow)
| SnapshotEnd
| EvBatch (batch : Batch)
| Progress (cursor : Cursor)
| Resync (reason : ResyncReason).

(** ** Memo

    [sync.Once] with the value and error its one call stored. [Load] also
    reports whether it called [compute]. *)

Record Memo (A : Type) : Type := mkMemo { m_once : bool; m_value : option (result error A) }.
Arguments mkMemo {A} m_once m_value.
Arguments m_once {A} m.
Arguments m_value {A} m.

Definition new_Memo {A} : Memo A := mkMemo false None.

(** [Memo.Load] on a pointer: [None] is the nil memo. The zero value a failed
    read would give cannot be seen: [m_value] is set whenever [m_once] is. *)
Definition Load {A} (m : option (Memo A)) (compute : unit → result error A)
    : option (Memo A) * result error A * bool :=
  match m with
  | None => (None, compute tt, true)
  | Some memo =>
      match m_once memo, m_value memo with
      | true, Some v => (Some memo, v, false)
      | _, _ => let v := compute tt in (Some (mkMemo true (Some v)), v, true)
      end
  end.

(** A sequence of callers of one memo, each with its own compute function. *)
Fixpoint load_all {A} (m : option (Memo A)) (computes : list (unit → result error A))
    : list (result error A) * nat :=
  match computes with
  | [] => ([], 0%nat)
  | f :: rest =>
      let '(m', v, called) := Load m f in
      let '(vs, n) := load_all m' rest in
      (v :: vs, if (called : bool) then S n else n)
  end.

Lemma load_all_done {A} (v : result error A) computes :
  load_all (Some (mkMemo true (Some v))) computes = (replicate (length computes) v, 0%nat).
Proof. induction computes as [|f rest IH]; simpl; [done|]. by rewrite IH. Qed.

(** However many watchers load one batch's shared memo, exactly the
    first one computes, and every one of them gets the value that call
    produced, an error included. *)
Lemma Memo_Load_once {A} (f : unit → result error A) rest :
  load_all (Some new_Memo) (f :: rest) = (replicate (S (length rest)) (f tt), 1%nat).
Proof. simpl. by rewrite load_all_done. Qed.
