(* ===== verification/SnapshotRead.v ===== *)
(** * Reading a snapshot: internal/cdc/snapshot.go

    [scanScopedRows] pages through a scope's rows in primary-key order inside
    one repeatable-read transaction, [readSnapshot] is that transaction, and
    [Snapshot] the call around it. The answers of PostgreSQL are arguments; the
    answer to a page is a function of its query and arguments, because every
    page of one call is read in the same MVCC snapshot. What PostgreSQL promises
    of it is stated on a small part of SQL, printed and given its meaning on a
    table. The quoting of identifiers (pgx) and the row sink are interfaces. *)

From S2P Require Import Prelude Float64 Errors CdcTypes Visibility Events Config Relation Catalog.
From Stdlib Require Import Ascii.
Local Open Scope string_scope.
Local Open Scope list_scope.
Local Open Scope Z_scope.

(** ** Interfaces *)

(** [SnapshotRowSink]. *)
Class RowSink (K : Type) : Type := put_rows : K → list anyRow → result error K.

(** [pgx.Identifier.Sanitize]. *)
Class PgIdentifier : Type := Sanitize : list string → string.

(** The arguments bound to a query's placeholders. *)
Inductive query_arg : Type := ArgText (text : string) | ArgInt (n : Z).

(** A row as [rows.RawValues] with the field descriptions: SQL NULL is [None]. *)
Abbreviation rawRow := (list (string * option string)).

(** The answer to one page's query: its error, or its rows and [rows.Err]. *)
Inductive page_answer : Type :=
| PageQueryErr (e : error)
| PageRows (rows : list rawRow) (err : option error).

(** The answers of PostgreSQL to [readSnapshot]. *)
Record read_answers : Type := mkRead {
  rq_begin : option error;
  rq_import : option error;
  rq_snapshot : row_answer string;
  rq_query : string → list query_arg → page_answer;
  rq_commit : option error
}.

(** ** Paging *)

(** The loop over the fields of a row. *)
Definition row_of (raw : rawRow) : anyRow :=
  foldl (λ m '(name, value),
    <[name := match value with None => AnyNil | Some text => AnyString text end]> m) ∅ raw.

(** ["$%d"]. *)
Definition placeholder (n : nat) : string := "$" +:+ format_uint (Z.of_nat n).

(** The query [fetchBatch] builds and its arguments, with the names
    [scanScopedRows] quotes for it. *)
Definition pageQuery `{PgIdentifier} (spec : ProjectionSpec) (scope : string) (batchRows : Z)
    (lastKey : option (list string)) : string * list query_arg :=
  let tableName := Sanitize [sp_schema spec; sp_table spec] in
  let scopeColumn := Sanitize [sp_scopeColumn spec] in
  let pkColumns := (λ column, Sanitize [column]) <$> sp_primaryKey spec in
  let orderBy := String.concat ", " pkColumns in
  let pkTuple := "(" +:+ orderBy +:+ ")" in
  let query := "SELECT * FROM " +:+ tableName +:+ " WHERE " +:+ scopeColumn +:+ " = $1" in
  let '(query, queryArgs) :=
    match lastKey with
    | None => (query, [ArgText scope])
    | Some key =>
        let placeholders := imap (λ index _, placeholder (index + 2)) key in
        (query +:+ (" AND " +:+ pkTuple +:+ " > (" +:+ String.concat ", " placeholders +:+ ")"),
         ArgText scope :: (ArgText <$> key))
    end in
  let queryArgs := queryArgs ++ [ArgInt batchRows] in
  (query +:+ (" ORDER BY " +:+ orderBy +:+ " LIMIT " +:+ placeholder (length queryArgs)), queryArgs).

Definition fetchBatch `{PgIdentifier} (query : string → list query_arg → page_answer) (spec : ProjectionSpec)
    (scope : string) (batchRows : Z) (lastKey : option (list string)) : result error (list anyRow) :=
  let '(text, args) := pageQuery spec scope batchRows lastKey in
  match query text args with
  | PageQueryErr e => Err (classifyPostgresError e)
  | PageRows rows (Some e) => Err (classifyPostgresError e)
  | PageRows rows None => Ok (row_of <$> rows)
  end.

(** The loop that takes the next page's key from the last row. *)
Fixpoint next_key (columns : list string) (lastRow : anyRow) : result error (list string) :=
  match columns with
  | [] => Ok []
  | column :: rest =>
      match lastRow !! column with
      | Some (AnyString value) => let! key := next_key rest lastRow in Ok (value :: key)
      | _ => Err (EWrap (ESentinel ErrPostgresServer))
      end
  end.

Section Read.
Context {K : Type} `{RowSink K} `{PgIdentifier}.

(** The loop of [scanScopedRows]; [None] is out of fuel. *)
Fixpoint scanScopedRows (fuel : nat) (query : string → list query_arg → page_answer)
    (spec : ProjectionSpec) (scope : string) (batchRows : Z) (k : K) (lastKey : option (list string))
    : K * option (result error unit) :=
  match fuel with
  | O => (k, None)
  | S fuel' =>
      match fetchBatch query spec scope batchRows lastKey with
      | Err e => (k, Some (Err e))
      | Ok batch =>
          match last batch with
          | None => (k, Some (Ok tt))
          | Some lastRow =>
              match put_rows k batch with
              | Err e => (k, Some (Err e))
              | Ok k' =>
                  match next_key (sp_primaryKey spec) lastRow with
                  | Err e => (k', Some (Err e))
                  | Ok key =>
                      if decide (zlen batch < batchRows) then (k', Some (Ok tt))
                      else scanScopedRows fuel' query spec scope batchRows k' (Some key)
                  end
              end
          end
      end
  end.

(** [exportedSnapshotName.MatchString]: two or more groups of upper-case
    hexadecimal digits, separated by dashes. *)
Definition upper_hex (a : ascii) : bool :=
  let n := nat_of_ascii a in
  bool_decide (48 ≤ n ≤ 57)%nat || bool_decide (65 ≤ n ≤ 70)%nat.

Definition exportedSnapshotName (name : string) : bool :=
  let groups := split_char "-"%char name in
  bool_decide (2 ≤ length groups)%nat &&
  forallb (λ g, bool_decide (g ≠ "") && all_chars upper_hex g) groups.

(** [classifyPostgresError] of a statement's error. *)
Definition exec (err : option error) : result error unit :=
  match err with None => Ok tt | Some e => Err (classifyPostgresError e) end.

Definition readSnapshot (fuel : nat) (batchRows : Z) (importSnapshot : string) (spec : ProjectionSpec)
    (scope : string) (q : read_answers) (k : K) : K * option (result error visibility) :=
  let fixed :=
    let! _ := exec (rq_begin q) in
    let! _ :=
      if decide (importSnapshot = "") then Ok tt
      else if negb (exportedSnapshotName importSnapshot) then Err (EWrap (ESentinel ErrPostgresServer))
      else exec (rq_import q) in
    let! snapshotText := scan_row (rq_snapshot q) in
    parseVisibility snapshotText in
  match fixed with
  | Err e => (k, Some (Err e))
  | Ok v =>
      match scanScopedRows fuel (rq_query q) spec scope batchRows k None with
      | (k, None) => (k, None)
      | (k, Some (Err e)) => (k, Some (Err e))
      | (k, Some (Ok _)) => (k, Some (let! _ := exec (rq_commit q) in Ok v))
      end
  end.

(** [checkReplayWindow]. *)
Definition checkReplayWindow `{LsnText} (q : row_answer slotState) (cursor : Z) : result error unit :=
  let! found := lookupSlot q in
  match found with
  | None => Err (ESentinel ErrSlotNotFound)
  | Some slot =>
      let! restartLSN := parseLSN (sl_restartLSN slot) in
      if decide (cursor < restartLSN) then Err (ESentinel ErrSnapshotWindowClosed) else Ok tt
  end.

(** The answers of PostgreSQL to [Snapshot]. *)
Record snapshot_answers : Type := mkSnapshotAnswers {
  sq_connect : option error;
  sq_ctxErr : option error;
  sq_publication : row_answer (bool * bool * bool * bool);
  sq_spec : spec_answers;
  sq_slot : row_answer slotState;
  sq_insertLSN : row_answer string;
  sq_read : read_answers;
  sq_slotAfter : row_answer slotState
}.

(** [Reader.Snapshot] up to the read: the checks and the cursor. The shapes
    recorded by a spec that validated stay recorded whatever happens next. *)
Definition snapshot_checks `{LsnText} (q : snapshot_answers) : result error Z :=
  let! found := lookupSlot (sq_slot q) in
  match found with
  | None => Err (ESentinel ErrSlotNotFound)
  | Some slot =>
      if decide (sl_slotType slot ≠ "logical" ∨ sl_plugin slot ≠ "pgoutput")
      then Err (ESentinel ErrSlotInvalidated)
      else
        let! cursorText := scan_row (sq_insertLSN q) in
        match parse_lsn cursorText with
        | None => Err (EWrap (ESentinel ErrPostgresServer))
        | Some cursor => Ok cursor
        end
  end.

Definition takeSnapshot `{LsnText} (fuel : nat) (cfg : ReaderConfig) (s : shapes) (spec : ProjectionSpec)
    (scope : string) (sink : option K) (q : snapshot_answers) : shapes * option K * option (result error Snapshot) :=
  match sink with
  | None => (s, None, Some (Err (ESentinel ErrSnapshotSinkRequired)))
  | Some k =>
      let valid :=
        let! _ := validateSourceProjectionSpec cfg spec in
        let! _ := connectManagementWithTimeout (sq_connect q) (sq_ctxErr q) in
        let! _ := validatePublication (sq_publication q) in
        validateProjectionSpec s spec (sq_spec q) in
      match valid with
      | Err e => (s, Some k, Some (Err e))
      | Ok s =>
          match snapshot_checks q with
          | Err e => (s, Some k, Some (Err e))
          | Ok cursor =>
              let '(k, read) := readSnapshot fuel (rd_snapshotBatchRows cfg) "" spec scope (sq_read q) k in
              (s, Some k,
               match read with
               | None => None
               | Some v => Some (
                   let! v := v in
                   let! _ := checkReplayWindow (sq_slotAfter q) cursor in
                   Ok (newSnapshot (sp_sourceID spec) cursor v))
               end)
          end
      end
  end.

(** Delivering batches one after the other. *)
Fixpoint put_batches (k : K) (batches : list (list anyRow)) : K * result error unit :=
  match batches with
  | [] => (k, Ok tt)
  | batch :: rest =>
      match put_rows k batch with
      | Err e => (k, Err e)
      | Ok k' => put_batches k' rest
      end
  end.

End Read.

(** ** The part of SQL a snapshot uses

    Queries on the table of one spec, by its scope column and its primary key:
    what they look like and what they mean. *)

Inductive key_comparison : Type := KeyLt | KeyLe | KeyEq | KeyGe | KeyGt.

(** [scope column = $n], and [(key columns) > ($n, ...)]. *)
Inductive condition : Type :=
| ScopeIs (n : nat)
| KeyIs (c : key_comparison) (ns : list nat).

Record select : Type := mkSelect {
  qy_where : list condition;
  qy_ordered : bool;
  qy_limit : nat
}.

Definition show_comparison (c : key_comparison) : string :=
  match c with KeyLt => " < " | KeyLe => " <= " | KeyEq => " = " | KeyGe => " >= " | KeyGt => " > " end.

Section Show.
Context `{PgIdentifier} (spec : ProjectionSpec).

Definition show_key : string := String.concat ", " ((λ column, Sanitize [column]) <$> sp_primaryKey spec).

Definition show_condition (c : condition) : string :=
  match c with
  | ScopeIs n => Sanitize [sp_scopeColumn spec] +:+ " = " +:+ placeholder n
  | KeyIs c ns => "(" +:+ show_key +:+ ")" +:+ show_comparison c +:+ "(" +:+ String.concat ", " (placeholder <$> ns) +:+ ")"
  end.

Definition show_select (q : select) : string :=
  "SELECT * FROM " +:+ Sanitize [sp_schema spec; sp_table spec] +:+
  match qy_where q with [] => "" | cs => " WHERE " +:+ String.concat " AND " (show_condition <$> cs) end +:+
  (if qy_ordered q then " ORDER BY " +:+ show_key else "") +:+ " LIMIT " +:+ placeholder (qy_limit q).

(** The queries with one scope, one key or both, the key's values after the
    scope's, the limit last. *)
Definition dialect : list select :=
  let ns := seq 2 (length (sp_primaryKey spec)) in
  conditions ← [] :: [ScopeIs 1] :: (c ← [KeyLt; KeyLe; KeyEq; KeyGe; KeyGt]; [[KeyIs c ns]; [ScopeIs 1; KeyIs c ns]]);
  ordered ← [true; false];
  limit ← [2; S (S (length (sp_primaryKey spec)))]%nat;
  [mkSelect conditions ordered limit].
End Show.

(** ** The table a snapshot reads

    [heap] are the table's rows visible in the snapshot, in any order;
    [scope_is] says whether a row's scope column equals a text, by its type;
    [key_lt] is the database's order on keys, by their text. [rows] are the
    rows of one scope, in the order of their keys. *)

Section Table.
Context (spec : ProjectionSpec) (scope : string) (key_lt : list string → list string → Prop).
Context `{!StrictOrder key_lt, ∀ x y, Decision (key_lt x y)}.
Context (scope_is : string → rawRow → Prop) `{∀ t r, Decision (scope_is t r)}.
Context (key : rawRow → list string) (heap rows : list rawRow).

Definition arg_text (args : list query_arg) (n : nat) : option string :=
  match args !! pred n with Some (ArgText text) => Some text | _ => None end.

Definition compares (c : key_comparison) (a b : list string) : Prop :=
  match c with
  | KeyLt => key_lt a b
  | KeyLe => ¬ key_lt b a
  | KeyEq => a = b
  | KeyGe => ¬ key_lt a b
  | KeyGt => key_lt b a
  end.

#[export] Instance compares_dec c a b : Decision (compares c a b).
Proof. destruct c; simpl; apply _. Defined.

Definition satisfies (args : list query_arg) (r : rawRow) (c : condition) : Prop :=
  match c with
  | ScopeIs n => match arg_text args n with Some text => scope_is text r | None => False end
  | KeyIs c ns => match mapM (arg_text args) ns with Some k => compares c (key r) k | None => False end
  end.

#[export] Instance satisfies_dec args r c : Decision (satisfies args r c).
Proof. destruct c; simpl; case_match; apply _. Defined.

(** An answer: the rows that satisfy the conditions, in the order asked for,
    if any was, up to the limit. *)
Definition selects (q : select) (args : list query_arg) (answer : list rawRow) : Prop :=
  ∃ l n, l ≡ₚ base.filter (λ r, Forall (satisfies args r) (qy_where q)) heap ∧
    (qy_ordered q = true → StronglySorted (λ r1 r2, ¬ key_lt (key r2) (key r1)) l) ∧
    args !! pred (qy_limit q) = Some (ArgInt n) ∧ answer = take (Z.to_nat n) l.

(** PostgreSQL answers the text of every query of the dialect by its meaning. *)
Definition executes `{PgIdentifier} (query : string → list query_arg → page_answer) : Prop :=
  ∀ q args, q ∈ dialect spec → (∃ n, args !! pred (qy_limit q) = Some (ArgInt n)) →
    ∃ answer, query (show_select spec q) args = PageRows answer None ∧ selects q args answer.

(** The rows after a key; a first page has none. *)
Definition beyond (lastKey : option (list string)) (r : rawRow) : Prop :=
  match lastKey with None => True | Some k => key_lt k (key r) end.

#[export] Instance beyond_dec lastKey r : Decision (beyond lastKey r).
Proof. destruct lastKey; simpl; apply _. Defined.

(** A page: the first rows of the scope after a key. *)
Definition table_page (lastKey : option (list string)) (n : Z) : list rawRow :=
  take (Z.to_nat n) (base.filter (beyond lastKey) rows).

(** [rows] are the scope's, in key order; the key columns hold the key's text;
    no two rows of the scope share a key. *)
Definition table_ok : Prop :=
  rows ≡ₚ base.filter (scope_is scope) heap ∧
  Forall (λ r, next_key (sp_primaryKey spec) (row_of r) = Ok (key r)) rows ∧
  StronglySorted (λ r1 r2, key_lt (key r1) (key r2)) rows.

(** What a page of a scan that has read [done] holds. *)
Definition last_key (done : list rawRow) : option (list string) := key <$> last done.

(** Two lists of the same rows in key order are one. *)
Lemma sorted_unique (l1 l2 : list rawRow) :
  StronglySorted (λ r1 r2, key_lt (key r1) (key r2)) l1 → StronglySorted (λ r1 r2, ¬ key_lt (key r2) (key r1)) l2 →
  l2 ≡ₚ l1 → l2 = l1.
Proof.
  intros H1. revert l2. induction H1 as [|x l1 Hs IH Hx]; intros l2 H2 Hp.
  { by apply Permutation_nil_r in Hp. }
  destruct l2 as [|y l2]; [by apply Permutation_nil_l in Hp|]. apply StronglySorted_inv in H2 as [H2 Hy].
  assert (y = x) as ->; [|f_equal; apply IH; [done|by eapply Permutation_cons_inv]].
  assert (y ∈ x :: l1) as [->|Hin]%elem_of_cons by (rewrite <-Hp; left); [done|].
  assert (x ∈ y :: l2) as [->|Hin']%elem_of_cons by (rewrite Hp; left); [done|].
  rewrite Forall_forall in Hx, Hy. destruct (Hy x Hin'). by apply Hx.
Qed.

Lemma next_key_length columns row k : next_key columns row = Ok k → length k = length columns.
Proof.
  revert k. induction columns as [|c columns IH]; intros k; simpl; [by intros [= <-]|].
  destruct (row !! c) as [[]|]; try done. destruct (next_key columns row) as [k'|]; simpl; [|done].
  intros [= <-]. simpl. by rewrite (IH k').
Qed.

Lemma sorted_app_elem (R : rawRow → rawRow → Prop) l1 l2 x y :
  StronglySorted R (l1 ++ l2) → x ∈ l1 → y ∈ l2 → R x y.
Proof.
  induction l1 as [|z l1 IH]; simpl; [by intros _ ?%elem_of_nil|].
  intros [Hs Hz]%StronglySorted_inv [->|Hx]%elem_of_cons Hy; [|by apply IH].
  rewrite Forall_forall in Hz. apply Hz. set_solver.
Qed.

Lemma page_rest done todo n :
  rows = done ++ todo → table_ok → table_page (last_key done) n = take (Z.to_nat n) todo.
Proof.
  intros E (_ & _ & Hs). unfold table_page. f_equal. rewrite E in Hs |- *. rewrite filter_app.
  destruct (last done) as [r|] eqn:Hl.
  2:{ apply last_None in Hl as ->. by apply list_filter_all, Forall_true. }
  unfold last_key. rewrite Hl. simpl. apply last_Some in Hl as [init ->].
  rewrite list_filter_none, list_filter_all; [done|..]; apply Forall_forall; simpl.
  - intros x Hx. apply (sorted_app_elem (λ r1 r2, key_lt (key r1) (key r2)) (init ++ [r]) todo); set_solver.
  - intros x [Hx| ->%list_elem_of_singleton]%elem_of_app; [|apply irreflexivity; apply _].
    rewrite <-app_assoc in Hs. apply (sorted_app_elem _ init _ x r Hs) in Hx; [|set_solver].
    intros Hr. by apply (irreflexivity key_lt (key r)); transitivity (key x).
Qed.

Context `{PgIdentifier}.

(** The query [fetchBatch] builds, as one of the dialect. *)
Definition page_select (lastKey : option (list string)) : select :=
  mkSelect (ScopeIs 1 :: match lastKey with None => [] | Some k => [KeyIs KeyGt (seq 2 (length k))] end) true
    (S (S (length (default [] lastKey)))).

Definition page_args (n : Z) (lastKey : option (list string)) : list query_arg :=
  ArgText scope :: (ArgText <$> default [] lastKey) ++ [ArgInt n].

Lemma pageQuery_shown n lastKey :
  pageQuery spec scope n lastKey = (show_select spec (page_select lastKey), page_args n lastKey).
Proof.
  unfold pageQuery, page_args. destruct lastKey as [k|]; cbv zeta; f_equal.
  - assert (imap (λ index (_ : string), placeholder (index + 2)) k = placeholder <$> seq 2 (length k)) as ->.
    { apply list_eq. intros i. rewrite list_lookup_imap, list_lookup_fmap. destruct (k !! i) eqn:E; simpl.
      - rewrite lookup_seq_lt by (by eapply lookup_lt_Some). simpl. f_equal. f_equal. lia.
      - apply lookup_ge_None in E. by rewrite lookup_seq_ge. }
    unfold show_select. simpl. rewrite length_app, length_fmap. simpl. rewrite Nat.add_1_r.
    change (placeholder 1) with "$1". unfold show_key.
    repeat first [rewrite string_app_assoc | progress cbn [String.append]]. reflexivity.
  - unfold show_select. simpl. change (placeholder 1) with "$1". unfold show_key.
    repeat first [rewrite string_app_assoc | progress cbn [String.append]]. reflexivity.
Qed.

Lemma page_select_dialect lastKey :
  (∀ k, lastKey = Some k → length k = length (sp_primaryKey spec)) → page_select lastKey ∈ dialect spec.
Proof.
  intros Hk. unfold dialect, page_select. destruct lastKey as [k|]; simpl.
  - rewrite (Hk k) by done. set_solver.
  - set_solver.
Qed.

Lemma mapM_args_key n k : mapM (arg_text (page_args n (Some k))) (seq 2 (length k)) = Some k.
Proof.
  apply mapM_Some. apply Forall2_lookup. intros i. unfold arg_text, page_args. simpl.
  destruct (k !! i) as [t|] eqn:E.
  - pose proof (lookup_lt_Some _ _ _ E). rewrite lookup_seq_lt by done. constructor.
    simpl. rewrite lookup_app_l by (rewrite length_fmap; done). by rewrite list_lookup_fmap, E.
  - apply lookup_ge_None in E. rewrite lookup_seq_ge by done. constructor.
Qed.

(** The answer to a page's query is the page. *)
Lemma page_answered query n lastKey :
  executes query → table_ok → (∀ k, lastKey = Some k → length k = length (sp_primaryKey spec)) →
  fetchBatch query spec scope n lastKey = Ok (row_of <$> table_page lastKey n).
Proof.
  intros Hex (Hperm & _ & Hsorted) Hlen. unfold fetchBatch. rewrite pageQuery_shown.
  assert (page_args n lastKey !! pred (qy_limit (page_select lastKey)) = Some (ArgInt n)) as Hlimit.
  { unfold page_args, page_select. simpl. rewrite lookup_app_r by (by rewrite length_fmap).
    by rewrite length_fmap, Nat.sub_diag. }
  destruct (Hex (page_select lastKey) (page_args n lastKey)) as (answer & -> & l & m & Hl & Hord & Hm & ->);
    [by apply page_select_dialect|by exists n|].
  rewrite Hlimit in Hm. injection Hm as <-. do 3 f_equal. unfold table_page. f_equal.
  apply sorted_unique; [by apply StronglySorted_filter|by apply Hord|].
  rewrite Hl, Hperm, list_filter_filter. apply reflexive_eq, list_filter_iff. intros r. unfold page_select. simpl.
  rewrite Forall_cons. unfold satisfies at 1. simpl. destruct lastKey as [k|]; simpl.
  - rewrite Forall_singleton. simpl. rewrite mapM_args_key. simpl. tauto.
  - rewrite Forall_nil. tauto.
Qed.

Context {K : Type} `{!RowSink K}.

(** The scan from any point reads the rest of the table, in batches. *)
Lemma scan_from fuel query done todo batchRows (k : K) :
  rows = done ++ todo → executes query → table_ok → 0 < batchRows → (length todo < fuel)%nat →
  ∃ batches, concat batches = row_of <$> todo ∧ Forall (λ b, 0 < zlen b ≤ batchRows) batches ∧
    scanScopedRows fuel query spec scope batchRows k (last_key done) =
    let '(k', r) := put_batches k batches in (k', Some r).
Proof.
  intros E Hex Hok Hn. revert done todo k E. induction fuel as [|fuel IH]; intros done todo k E Hf; [lia|].
  assert (∀ r, r ∈ rows → next_key (sp_primaryKey spec) (row_of r) = Ok (key r)) as Hkeys.
  { destruct Hok as (_ & Hk & _). by rewrite Forall_forall in Hk. }
  cbn [scanScopedRows]. rewrite (page_answered query batchRows (last_key done)), (page_rest done todo); [|done..|].
  2:{ intros kk Hkk. unfold last_key in Hkk. apply fmap_Some in Hkk as (r & Hr & ->).
      apply (next_key_length _ (row_of r)). apply Hkeys. apply last_Some in Hr as [? ->]. rewrite E. set_solver. }
  destruct (decide (todo = [])) as [->|Hne].
  { rewrite take_nil. exists []. by split_and!. }
  set (batch := take (Z.to_nat batchRows) todo). set (rest := drop (Z.to_nat batchRows) todo).
  assert (todo = batch ++ rest) as Ht by (symmetry; apply take_drop).
  assert (length batch = Z.to_nat batchRows `min` length todo)%nat as Hlen by apply length_take.
  assert (0 < length todo)%nat by (destruct todo; simpl; (done || lia)).
  destruct (last batch) as [lastRow|] eqn:Hlast; [|apply last_None in Hlast; rewrite Hlast in Hlen; simpl in Hlen; lia].
  rewrite fmap_last, Hlast. simpl.
  assert (next_key (sp_primaryKey spec) (row_of lastRow) = Ok (key lastRow)) as Hkey.
  { apply Hkeys. apply last_Some in Hlast as [? Hb]. rewrite E, Ht, Hb. set_solver. }
  rewrite Hkey. unfold zlen. rewrite length_fmap.
  assert (0 < zlen (row_of <$> batch) ≤ batchRows) as Hz by (unfold zlen; rewrite length_fmap; lia).
  destruct (decide (Z.of_nat (length batch) < batchRows)) as [Hlt|Hge].
  - exists [row_of <$> batch]. assert (rest = []) as Hr by (apply nil_length_inv; unfold rest; rewrite length_drop; lia).
    split_and!; [|by apply Forall_singleton|simpl; by destruct (put_rows k _)].
    simpl. rewrite app_nil_r. by rewrite Ht, Hr, app_nil_r.
  - assert (∀ k0, ∃ bs, concat bs = row_of <$> rest ∧ Forall (λ b, 0 < zlen b ≤ batchRows) bs ∧
      scanScopedRows fuel query spec scope batchRows k0 (Some (key lastRow)) =
      let '(k', r) := put_batches k0 bs in (k', Some r)) as Hnext.
    { intros k0. destruct (IH (done ++ batch) rest k0) as (bs & Hc & Hb & Hs);
        [by rewrite <-app_assoc, <-Ht|rewrite Ht, length_app in Hf; lia|].
      exists bs. split_and!; [done..|]. rewrite <-Hs. f_equal. unfold last_key. by rewrite last_app, Hlast. }
    destruct (put_rows k (row_of <$> batch)) as [k'|e] eqn:Hput.
    + destruct (Hnext k') as (bs & Hc & Hb & Hs). exists ((row_of <$> batch) :: bs). split_and!; [|by constructor|].
      * simpl. by rewrite Hc, <-fmap_app, <-Ht.
      * simpl. by rewrite Hput.
    + destruct (Hnext k) as (bs & Hc & Hb & _). exists ((row_of <$> batch) :: bs). split_and!; [|by constructor|].
      * simpl. by rewrite Hc, <-fmap_app, <-Ht.
      * simpl. by rewrite Hput.
Qed.

(** A read that succeeds delivered the whole scope and has the snapshot's
    visibility; it never runs out of fuel on this table. *)
Lemma readSnapshot_table fuel batchRows import q (k : K) :
  table_ok → executes (rq_query q) → 0 < batchRows → (length rows < fuel)%nat →
  ∃ k' res, readSnapshot fuel batchRows import spec scope q k = (k', Some res) ∧
    ∀ v, res = Ok v →
      (∃ text, rq_snapshot q = RowOk text ∧ parseVisibility text = Ok v) ∧
      ∃ batches, concat batches = row_of <$> rows ∧ Forall (λ b, 0 < zlen b ≤ batchRows) batches ∧
        put_batches k batches = (k', Ok tt).
Proof.
  intros Hok Hq Hn Hf. unfold readSnapshot.
  destruct (scan_from fuel (rq_query q) [] rows batchRows k) as (batches & Hc & Hb & Hs); [done..|].
  unfold last_key in Hs. simpl in Hs. rewrite Hs.
  destruct (exec (rq_begin q)); simpl; [|naive_solver].
  destruct (if decide (import = "") then _ else _); simpl; [|naive_solver].
  destruct (rq_snapshot q) as [text| |]; simpl; [|naive_solver..].
  destruct (parseVisibility text) as [v|] eqn:Hv; simpl; [|naive_solver].
  destruct (put_batches k batches) as [k' [[]|e]] eqn:Hput; [|naive_solver].
  destruct (exec (rq_commit q)); simpl; [|naive_solver].
  eexists _, _. split; [done|]. intros ? [= <-]. split; [eauto|]. by exists batches.
Qed.

Lemma checkReplayWindow_ok `{LsnText} q cursor :
  checkReplayWindow q cursor = Ok tt →
  ∃ slot restart, q = RowOk slot ∧ parse_lsn (sl_restartLSN slot) = Some restart ∧ restart ≤ cursor.
Proof.
  unfold checkReplayWindow, parseLSN. destruct q as [slot| |]; simpl; [|done..].
  destruct (parse_lsn _) as [restart|] eqn:Hr; simpl; [|done].
  destruct (decide _); [done|]. intros _. exists slot, restart. split_and!; [done..|lia].
Qed.

Lemma snapshot_checks_ok `{LsnText} q cursor :
  snapshot_checks q = Ok cursor → ∃ text, sq_insertLSN q = RowOk text ∧ parse_lsn text = Some cursor.
Proof.
  unfold snapshot_checks. destruct (sq_slot q) as [slot| |]; simpl; [|done..].
  destruct (decide _); [done|]. destruct (sq_insertLSN q) as [text| |]; simpl; [|done..].
  destruct (parse_lsn text) eqn:Hp; [|done]. intros [= ->]. eauto.
Qed.

(** C20 (functional): a snapshot of a table always ends, and one that is returned delivered
    exactly the scope's rows, once each, in key order and in non-empty batches
    of the configured size, when PostgreSQL gives the SQL that is sent to it its
    meaning on the table; its visibility is the MVCC snapshot the rows were read
    in, and its cursor was read before it, belongs to the reader's source, and
    is still retained by the slot after the read. *)
Theorem Snapshot_reads_scope `{LsnText} fuel cfg s (k : K) q
    (Htable : table_ok) (Hsql : executes (rq_query (sq_read q)))
    (Hbatch : 0 < rd_snapshotBatchRows cfg) (Hfuel : (length rows < fuel)%nat) :
  ∃ s' k' res, takeSnapshot fuel cfg s spec scope (Some k) q = (s', Some k', Some res) ∧
    ∀ snapshot, res = Ok snapshot →
      sourceID (sn_cursor snapshot) = rd_sourceID cfg ∧
      (∃ text, sq_insertLSN q = RowOk text ∧ parse_lsn text = Some (lsn (sn_cursor snapshot))) ∧
      (∃ text v, rq_snapshot (sq_read q) = RowOk text ∧ parseVisibility text = Ok v ∧
         sn_visibility snapshot = Some v) ∧
      (∃ slot restart, sq_slotAfter q = RowOk slot ∧ parse_lsn (sl_restartLSN slot) = Some restart ∧
         restart ≤ lsn (sn_cursor snapshot)) ∧
      ∃ batches, concat batches = row_of <$> rows ∧
        Forall (λ b, 0 < zlen b ≤ rd_snapshotBatchRows cfg) batches ∧
        put_batches k batches = (k', Ok tt).
Proof.
  unfold takeSnapshot.
  destruct (validateSourceProjectionSpec cfg spec) as [[]|] eqn:Hsrc; simpl; [|by eexists _, _, _; split; [reflexivity|]].
  destruct (connectManagementWithTimeout _ _); simpl; [|by eexists _, _, _; split; [reflexivity|]].
  destruct (validatePublication _); simpl; [|by eexists _, _, _; split; [reflexivity|]].
  destruct (validateProjectionSpec s spec _) as [s1|]; [|by eexists _, _, _; split; [reflexivity|]].
  destruct (snapshot_checks q) as [cursor|] eqn:Hchecks; [|by eexists _, _, _; split; [reflexivity|]].
  destruct (readSnapshot_table fuel (rd_snapshotBatchRows cfg) "" (sq_read q) k)
    as (k' & res & -> & Hres); [done..|].
  eexists s1, k', _. split; [done|]. intros snapshot Hs.
  destruct res as [v|]; simpl in Hs; [|done].
  destruct (checkReplayWindow _ cursor) as [[]|] eqn:Hw; simpl in Hs; [|done]. injection Hs as <-.
  destruct (Hres v eq_refl) as [(text & Ht & Hv) Hb].
  apply checkReplayWindow_ok in Hw as (slot & restart & Hw).
  simpl. split_and!; [|by apply snapshot_checks_ok|by exists text, v|by exists slot, restart|done].
  unfold validateSourceProjectionSpec in Hsrc. destruct (validateProjectionSpecConfig spec); [|done].
  simpl in Hsrc. by destruct (decide (sp_sourceID spec ≠ rd_sourceID cfg)) as [|?%dec_stable].
Qed.

(** A server for the dialect, of a heap already in key order. *)
Definition serve_sql (text : string) (args : list query_arg) : page_answer :=
  match list_find (λ q, show_select spec q = text) (dialect spec) with
  | Some (_, q) =>
      match args !! pred (qy_limit q) with
      | Some (ArgInt n) => PageRows (take (Z.to_nat n) (base.filter (λ r, Forall (satisfies args r) (qy_where q)) heap)) None
      | _ => PageQueryErr (EOther "no limit")
      end
  | None => PageQueryErr (EOther "syntax error")
  end.

Lemma serve_sql_executes :
  NoDup (show_select spec <$> dialect spec) → StronglySorted (λ r1 r2, ¬ key_lt (key r2) (key r1)) heap →
  executes serve_sql.
Proof.
  intros Hnd Hs q args Hq [n Hn]. unfold serve_sql. apply list_elem_of_lookup_1 in Hq as [i Hi].
  destruct (list_find _ (dialect spec)) as [[j q']|] eqn:Hfind.
  - apply list_find_Some in Hfind as (Hj & Heq & _). assert (i = j) as <-.
    { eapply (NoDup_lookup _ _ _ (show_select spec q)); [exact Hnd|..]; rewrite list_lookup_fmap;
        [by rewrite Hi|by rewrite Hj; simpl; rewrite Heq]. }
    assert (q' = q) as -> by congruence. rewrite Hn. eexists. split; [done|].
    exists (base.filter (λ r, Forall (satisfies args r) (qy_where q)) heap), n. split_and!; [done| |done..].
    intros _. by apply StronglySorted_filter.
  - apply list_find_None in Hfind. eapply Forall_lookup_1 in Hfind; [|exact Hi]. done.
Qed.

End Table.

(** ** A concrete snapshot *)

(** Identifiers in double quotes, with those inside them doubled. *)
Definition quote : ascii := ascii_of_nat 34.

Fixpoint escape (s : string) : string :=
  match s with
  | EmptyString => EmptyString
  | String a s => if decide (a = quote) then String quote (String quote (escape s)) else String a (escape s)
  end.

#[local] Instance demo_identifier : PgIdentifier :=
  λ parts, String.concat "." ((λ part, String quote (escape part +:+ String quote EmptyString)) <$> parts).

Definition demo_lt (a b : list string) : Prop :=
  strict String.le (join_char ","%char a) (join_char ","%char b).

#[local] Instance demo_lt_order : StrictOrder demo_lt.
Proof.
  split; [by intros a [Hab Hba]|]. intros a b c [Hab Hba] [Hbc Hcb]. split; [by etrans|].
  intros Hca. apply Hba. by etrans.
Qed.

#[local] Instance demo_lt_dec a b : Decision (demo_lt a b).
Proof. unfold demo_lt, strict. apply _. Defined.

#[local] Instance demo_row_sink : RowSink (list (list anyRow)) := λ k batch, Ok (k ++ [batch]).

Definition demo_raw (id note : string) : rawRow :=
  [("shop", Some "a"); ("id", Some id); ("note", if decide (note = "") then None else Some note)].

Definition demo_rows : list rawRow := [demo_raw "1" "x"; demo_raw "2" ""; demo_raw "3" "y"].

(** The table's rows, another scope's among them. *)
Definition demo_heap : list rawRow :=
  demo_rows ++ [[("shop", Some "b"); ("id", Some "1"); ("note", None)]].

Definition demo_scope_is (text : string) (raw : rawRow) : Prop := row_of raw !! "shop" = Some (AnyString text).

#[local] Instance demo_scope_is_dec text raw : Decision (demo_scope_is text raw).
Proof. unfold demo_scope_is. apply _. Defined.

Definition demo_key (raw : rawRow) : list string :=
  match next_key (sp_primaryKey demo_spec) (row_of raw) with Ok key => key | Err _ => [] end.

(** A text with its single quotes doubled ones. *)
Fixpoint demo_text (s : string) : string :=
  match s with
  | EmptyString => EmptyString
  | String a s => String (if decide (a = "'"%char) then quote else a) (demo_text s)
  end.

Definition demo_sql : string → list query_arg → page_answer :=
  serve_sql demo_spec demo_lt demo_scope_is demo_key demo_heap.

(** The texts of a scope's first page and of the next. *)
Lemma demo_queries :
  pageQuery demo_spec "a" 2 None =
    (demo_text "SELECT * FROM 'public'.'orders' WHERE 'shop' = $1 ORDER BY 'shop', 'id' LIMIT $2", [ArgText "a"; ArgInt 2]) ∧
  pageQuery demo_spec "a" 2 (Some ["a"; "2"]) =
    (demo_text "SELECT * FROM 'public'.'orders' WHERE 'shop' = $1 AND ('shop', 'id') > ($2, $3) ORDER BY 'shop', 'id' LIMIT $4",
     [ArgText "a"; ArgText "a"; ArgText "2"; ArgInt 2]).
Proof. split; vm_compute; reflexivity. Qed.

Lemma demo_sql_executes : executes demo_spec demo_lt demo_scope_is demo_key demo_heap demo_sql.
Proof.
  apply serve_sql_executes.
  - apply (bool_decide_unpack _). vm_compute. exact I.
  - repeat first [apply SSorted_nil|apply SSorted_cons|apply Forall_nil_2|apply Forall_cons_2];
      apply (bool_decide_unpack _); vm_compute; exact I.
Qed.

Lemma demo_table_ok : table_ok demo_spec "a" demo_lt demo_scope_is demo_key demo_heap demo_rows.
Proof.
  split; [vm_compute; reflexivity|]. split.
  - repeat (apply Forall_cons_2; [vm_compute; reflexivity|]). apply Forall_nil_2.
  - repeat first [apply SSorted_nil|apply SSorted_cons|apply Forall_nil_2|apply Forall_cons_2];
      apply (bool_decide_unpack _); vm_compute; exact I.
Qed.

Definition demo_reader : ReaderConfig :=
  normalizeReaderConfig (mkReaderConfig "url" "db" "slot" "pub" 0 0 0 2 0 0 0
    (mkRetry 0 0 0 f64_zero) 0 0 0 f64_zero f64_zero).

Definition demo_slot : slotState := mkSlot "logical" "pgoutput" true "0x10" "0x10".

Definition demo_answers : snapshot_answers :=
  mkSnapshotAnswers None None (RowOk (true, true, true, false)) demo_spec_answers (RowOk demo_slot)
    (RowOk "0x20") (mkRead None None (RowOk "5:9:6") demo_sql None)
    (RowOk demo_slot).

Definition demo_taken : shapes * option (list (list anyRow)) * option (result error Snapshot) :=
  @takeSnapshot _ demo_row_sink demo_identifier hex_lsn_text 4 demo_reader new_shapes demo_spec "a" (Some []) demo_answers.

Lemma Snapshot_reads_scope_witness :
  demo_taken.2 = Some (Ok (newSnapshot "db" 32 (mkVisibility 5 9 {[6]}))) ∧
  ∃ batches, demo_taken.1.2 = Some batches ∧ concat batches = row_of <$> demo_rows.
Proof.
  assert (demo_taken.2 = Some (Ok (newSnapshot "db" 32 (mkVisibility 5 9 {[6]})))) as E by (vm_compute; reflexivity).
  split; [done|].
  destruct (@Snapshot_reads_scope demo_spec "a" demo_lt _ _ demo_scope_is _ demo_key demo_heap demo_rows demo_identifier
    _ demo_row_sink hex_lsn_text 4 demo_reader new_shapes [] demo_answers demo_table_ok demo_sql_executes)
    as (s' & k' & res & Ht & Hres).
  - vm_compute. reflexivity.
  - simpl. lia.
  - change (demo_taken = (s', Some k', Some res)) in Ht. rewrite Ht in E |- *. simpl in E. injection E as ->.
    destruct (Hres _ eq_refl) as (_ & _ & _ & _ & batches & Hc & _ & Hp). exists k'. split; [done|].
    assert (∀ bs k, put_batches k bs = (k ++ bs, Ok tt)) as Hall.
    { induction bs as [|b bs IH]; intros k; simpl; [by rewrite app_nil_r|]. by rewrite IH, <-app_assoc. }
    rewrite Hall in Hp. injection Hp as <-. done.
Defined.
