(* ===== verification/Hub.v ===== *)
(** * The hub: internal/watch/hub.go, the sections that run under its lock

    A [Hub] is one record of the struct's fields. Watchers are pointers: a
    [nat] names one, [h_heap] is the store of watcher objects the hub and the
    watch goroutines share, and [h_watchers] is the registered set. A route is
    allocated once per table and scope column and never freed, so that pair
    names its pointer. Channels: a watcher's [queue] is the list of queued
    items with the hub's [queueSize] as capacity, its [overflow] channel the
    boolean [w_overflow]; tick channels are numbered, and [Accept] returns the
    one its deferred function closes after unlocking. Metrics are left out. *)

From S2P Require Import Prelude Errors CdcTypes Visibility Events.
Local Open Scope string_scope.
Local Open Scope list_scope.
Local Open Scope Z_scope.

(** ** Data *)

Record projection : Type := mkProjection { p_spec : ProjectionSpec; p_table : string }.

#[export] Instance projection_eq_dec : EqDecision projection.
Proof. solve_decision. Defined.

Record queued : Type := mkQueued {
  q_transaction : Transaction;
  q_changes : list Change;
  q_memo : memoRef
}.

#[export] Instance queued_eq_dec : EqDecision queued.
Proof. solve_decision. Defined.

Record watcher : Type := mkWatcher {
  w_projection : projection;
  w_scope : string;
  w_queue : list queued;
  w_overflow : bool;
  w_reason : ResyncReason
}.

Abbreviation wid := nat.

Record route : Type := mkRoute {
  r_scopeColumn : string;
  r_scopes : gmap string (list wid)
}.

Record delivery : Type := mkDelivery {
  d_watchers : list wid;
  d_changes : list Change
}.

(** A route pointer, by the table and scope column it was allocated for. *)
Record deliveryKey : Type := mkKey { k_table : string; k_column : string; k_scope : string }.

#[export] Instance deliveryKey_eq_dec : EqDecision deliveryKey.
Proof. solve_decision. Defined.

#[export] Instance deliveryKey_countable : Countable deliveryKey.
Proof.
  refine (inj_countable' (λ k, (k_table k, k_column k, k_scope k))
    (λ '(t, c, s), mkKey t c s) _). by intros [].
Defined.

(** [Accept]'s scratch space: [deliveries], [deliveryKeys], [deliveryIndex]. *)
Record scratch : Type := mkScratch {
  s_deliveries : list delivery;
  s_deliveryKeys : list deliveryKey;
  s_deliveryIndex : gmap deliveryKey nat
}.

Definition empty_scratch : scratch := mkScratch [] [] ∅.

Record Hub : Type := mkHub {
  h_sourceID : string;
  h_projections : gmap string projection;
  h_maxReplay : Z;
  h_queueSize : Z;
  h_ring : list Transaction;
  h_received : Cursor;
  h_hasReceived : bool;
  h_floor : Cursor;
  h_hasFloor : bool;
  h_lastEvicted : Cursor;
  h_hasEvicted : bool;
  h_watchers : gset wid;
  h_stale : gset string;
  h_routes : gmap string (list route);
  h_tick : nat;
  h_tickTaken : bool;
  h_scratch : scratch;
  h_stopped : bool;
  h_heap : gmap wid watcher;
  h_memos : nat
}.

(** ** Field assignments *)

Definition set_received (h : Hub) (c : Cursor) : Hub :=
  mkHub (h_sourceID h) (h_projections h) (h_maxReplay h) (h_queueSize h) (h_ring h)
    c true (h_floor h) (h_hasFloor h) (h_lastEvicted h) (h_hasEvicted h) (h_watchers h)
    (h_stale h) (h_routes h) (h_tick h) (h_tickTaken h) (h_scratch h) (h_stopped h)
    (h_heap h) (h_memos h).

Definition set_ring (h : Hub) (ring : list Transaction) : Hub :=
  mkHub (h_sourceID h) (h_projections h) (h_maxReplay h) (h_queueSize h) ring
    (h_received h) (h_hasReceived h) (h_floor h) (h_hasFloor h) (h_lastEvicted h)
    (h_hasEvicted h) (h_watchers h) (h_stale h) (h_routes h) (h_tick h) (h_tickTaken h)
    (h_scratch h) (h_stopped h) (h_heap h) (h_memos h).

Definition set_floor (h : Hub) (floor : Cursor) (hasFloor : bool) : Hub :=
  mkHub (h_sourceID h) (h_projections h) (h_maxReplay h) (h_queueSize h) (h_ring h)
    (h_received h) (h_hasReceived h) floor hasFloor (h_lastEvicted h)
    (h_hasEvicted h) (h_watchers h) (h_stale h) (h_routes h) (h_tick h) (h_tickTaken h)
    (h_scratch h) (h_stopped h) (h_heap h) (h_memos h).

Definition set_lastEvicted (h : Hub) (c : Cursor) : Hub :=
  mkHub (h_sourceID h) (h_projections h) (h_maxReplay h) (h_queueSize h) (h_ring h)
    (h_received h) (h_hasReceived h) (h_floor h) (h_hasFloor h) c true
    (h_watchers h) (h_stale h) (h_routes h) (h_tick h) (h_tickTaken h)
    (h_scratch h) (h_stopped h) (h_heap h) (h_memos h).

Definition set_stale (h : Hub) (stale : gset string) : Hub :=
  mkHub (h_sourceID h) (h_projections h) (h_maxReplay h) (h_queueSize h) (h_ring h)
    (h_received h) (h_hasReceived h) (h_floor h) (h_hasFloor h) (h_lastEvicted h)
    (h_hasEvicted h) (h_watchers h) stale (h_routes h) (h_tick h) (h_tickTaken h)
    (h_scratch h) (h_stopped h) (h_heap h) (h_memos h).

Definition set_registry (h : Hub) (watchers : gset wid) (routes : gmap string (list route)) : Hub :=
  mkHub (h_sourceID h) (h_projections h) (h_maxReplay h) (h_queueSize h) (h_ring h)
    (h_received h) (h_hasReceived h) (h_floor h) (h_hasFloor h) (h_lastEvicted h)
    (h_hasEvicted h) watchers (h_stale h) routes (h_tick h) (h_tickTaken h)
    (h_scratch h) (h_stopped h) (h_heap h) (h_memos h).

Definition set_tick (h : Hub) (tick : nat) (taken : bool) : Hub :=
  mkHub (h_sourceID h) (h_projections h) (h_maxReplay h) (h_queueSize h) (h_ring h)
    (h_received h) (h_hasReceived h) (h_floor h) (h_hasFloor h) (h_lastEvicted h)
    (h_hasEvicted h) (h_watchers h) (h_stale h) (h_routes h) tick taken
    (h_scratch h) (h_stopped h) (h_heap h) (h_memos h).

Definition set_scratch (h : Hub) (s : scratch) : Hub :=
  mkHub (h_sourceID h) (h_projections h) (h_maxReplay h) (h_queueSize h) (h_ring h)
    (h_received h) (h_hasReceived h) (h_floor h) (h_hasFloor h) (h_lastEvicted h)
    (h_hasEvicted h) (h_watchers h) (h_stale h) (h_routes h) (h_tick h) (h_tickTaken h)
    s (h_stopped h) (h_heap h) (h_memos h).

Definition set_stopped (h : Hub) : Hub :=
  mkHub (h_sourceID h) (h_projections h) (h_maxReplay h) (h_queueSize h) (h_ring h)
    (h_received h) (h_hasReceived h) (h_floor h) (h_hasFloor h) (h_lastEvicted h)
    (h_hasEvicted h) (h_watchers h) (h_stale h) (h_routes h) (h_tick h) (h_tickTaken h)
    (h_scratch h) true (h_heap h) (h_memos h).

Definition set_heap (h : Hub) (heap : gmap wid watcher) : Hub :=
  mkHub (h_sourceID h) (h_projections h) (h_maxReplay h) (h_queueSize h) (h_ring h)
    (h_received h) (h_hasReceived h) (h_floor h) (h_hasFloor h) (h_lastEvicted h)
    (h_hasEvicted h) (h_watchers h) (h_stale h) (h_routes h) (h_tick h) (h_tickTaken h)
    (h_scratch h) (h_stopped h) heap (h_memos h).

Definition set_memos (h : Hub) (memos : nat) : Hub :=
  mkHub (h_sourceID h) (h_projections h) (h_maxReplay h) (h_queueSize h) (h_ring h)
    (h_received h) (h_hasReceived h) (h_floor h) (h_hasFloor h) (h_lastEvicted h)
    (h_hasEvicted h) (h_watchers h) (h_stale h) (h_routes h) (h_tick h) (h_tickTaken h)
    (h_scratch h) (h_stopped h) (h_heap h) memos.

Definition push_queue (w : watcher) (item : queued) : watcher :=
  mkWatcher (w_projection w) (w_scope w) (w_queue w ++ [item]) (w_overflow w) (w_reason w).

Definition set_queue (w : watcher) (queue : list queued) : watcher :=
  mkWatcher (w_projection w) (w_scope w) queue (w_overflow w) (w_reason w).

Definition close_overflow (w : watcher) (reason : ResyncReason) : watcher :=
  mkWatcher (w_projection w) (w_scope w) (w_queue w) true reason.

(** ** Construction *)

Record Config : Type := mkConfig {
  cfg_sourceID : string;
  cfg_projections : gmap string ProjectionSpec;
  cfg_maxReplayTransactions : Z;
  cfg_watcherQueue : Z
}.

(** The hub package's own sentinels. *)
Inductive hubError : Type :=
| ErrInvalidConfig
| ErrUnknownProjection
| ErrCdc (e : error).

Definition defaultMaxReplayTransactions : Z := 10000.
Definition defaultWatcherQueue : Z := 1024.

Definition projection_of (spec : ProjectionSpec) : projection :=
  mkProjection spec (sp_schema spec +:+ "." +:+ sp_table spec).

(** [New]. [snapshotter] says whether one was given; creating the metrics
    instruments, which may fail, is left out. *)
Definition New (cfg : Config) (snapshotter : bool) : result hubError Hub :=
  if decide (cfg_sourceID cfg = "" ∨ size (cfg_projections cfg) = 0%nat ∨ snapshotter = false)
  then Err ErrInvalidConfig
  else
    let maxReplay := if decide (cfg_maxReplayTransactions cfg = 0)
                     then defaultMaxReplayTransactions else cfg_maxReplayTransactions cfg in
    let watcherQueue := if decide (cfg_watcherQueue cfg = 0)
                        then defaultWatcherQueue else cfg_watcherQueue cfg in
    if decide (maxReplay < 0 ∨ watcherQueue < 0) then Err ErrInvalidConfig
    else if decide (map_Forall (λ name spec, name ≠ "" ∧ sp_sourceID spec = cfg_sourceID cfg)
                               (cfg_projections cfg))
    then Ok (mkHub (cfg_sourceID cfg) (projection_of <$> cfg_projections cfg)
               maxReplay watcherQueue [] zero_Cursor false zero_Cursor false zero_Cursor false
               ∅ ∅ ∅ 0 false empty_scratch false ∅ 0)
    else Err ErrInvalidConfig.

(** ** Cursors and the replay window *)

(** [later]: whether [a] is after [b]. *)
Definition later (a b : Cursor) : bool :=
  match Compare a b with
  | Ok order => bool_decide (order > 0)
  | Err _ => false
  end.

Definition replayableLocked (h : Hub) (cursor : Cursor) : bool :=
  if h_hasFloor h then
    match Compare cursor (h_floor h) with
    | Ok order => bool_decide (0 ≤ order)
    | Err _ => false
    end
  else false.

Definition recordSnapshotLocked (h : Hub) (cursor : Cursor) : Hub :=
  if h_hasFloor h then h
  else
    let floor := if h_hasEvicted h && later (h_lastEvicted h) cursor
                 then h_lastEvicted h else cursor in
    set_floor h floor true.

(** [evictLocked]. It is only called on a non-empty ring. *)
Definition evictLocked (h : Hub) : Hub :=
  match h_ring h with
  | [] => h
  | oldest :: ring =>
      let evicted := tx_cursor oldest in
      let h := set_lastEvicted (set_ring h ring) evicted in
      if h_hasFloor h && later evicted (h_floor h) then set_floor h evicted true else h
  end.

(** [for len(h.ring) > h.maxReplay { h.evictLocked() }]; the ring's length is
    enough fuel, since every turn shortens it. *)
Fixpoint evict_loop (fuel : nat) (h : Hub) : Hub :=
  match fuel with
  | O => h
  | S fuel' =>
      if decide (zlen (h_ring h) > h_maxReplay h) then evict_loop fuel' (evictLocked h) else h
  end.

(** ** Registration *)

(** The scan of [h.routes[p.table]] for the route of a scope column. *)
Fixpoint find_route (column : string) (routes : list route) : option nat :=
  match routes with
  | [] => None
  | r :: rest =>
      if decide (r_scopeColumn r = column) then Some 0%nat else S <$> find_route column rest
  end.

(** [routeLocked]: the index of the route in its table's slice, appending an
    empty route when there is none. *)
Definition routeLocked (h : Hub) (p : projection) : Hub * nat :=
  let routes := default [] (h_routes h !! p_table p) in
  match find_route (sp_scopeColumn (p_spec p)) routes with
  | Some i => (h, i)
  | None =>
      (set_registry h (h_watchers h)
         (<[p_table p := routes ++ [mkRoute (sp_scopeColumn (p_spec p)) ∅]]> (h_routes h)),
       length routes)
  end.

(** The assignment [r.scopes[scope] = ws], or [delete(r.scopes, scope)] for
    [None], through the route pointer [(table, i)]. *)
Definition assign_scope (h : Hub) (table : string) (i : nat) (scope : string)
    (ws : option (list wid)) : Hub :=
  set_registry h (h_watchers h)
    (alter (λ routes, alter (λ r, mkRoute (r_scopeColumn r)
       (match ws with Some l => <[scope := l]> (r_scopes r) | None => delete scope (r_scopes r) end))
       i routes) table (h_routes h)).

(** [r.scopes[scope]] through the route pointer. *)
Definition scope_watchers (h : Hub) (table : string) (i : nat) (scope : string) : list wid :=
  match default [] (h_routes h !! table) !! i with
  | Some r => default [] (r_scopes r !! scope)
  | None => []
  end.

Definition registerLocked (h : Hub) (w : wid) : Hub :=
  match h_heap h !! w with
  | None => h
  | Some obj =>
      let h := set_registry h ({[w]} ∪ h_watchers h) (h_routes h) in
      let '(h, i) := routeLocked h (w_projection obj) in
      let table := p_table (w_projection obj) in
      assign_scope h table i (w_scope obj)
        (Some (scope_watchers h table i (w_scope obj) ++ [w]))
  end.

Definition removeLocked (h : Hub) (w : wid) : Hub * bool :=
  if decide (w ∈ h_watchers h) then
    match h_heap h !! w with
    | None => (h, false)
    | Some obj =>
        let h := set_registry h (h_watchers h ∖ {[w]}) (h_routes h) in
        let '(h, i) := routeLocked h (w_projection obj) in
        let table := p_table (w_projection obj) in
        let remaining := base.filter (λ other, other ≠ w) (scope_watchers h table i (w_scope obj)) in
        (assign_scope h table i (w_scope obj)
           (if decide (length remaining = 0%nat) then None else Some remaining), true)
    end
  else (h, false).

(** [endLocked]: [w.reason = reason; close(w.overflow)]. *)
Definition endLocked (h : Hub) (w : wid) (reason : ResyncReason) : Hub :=
  let '(h', removed) := removeLocked h w in
  if removed then set_heap h' (alter (λ obj, close_overflow obj reason) w (h_heap h')) else h'.

Definition dropLocked (h : Hub) (w : wid) : Hub := endLocked h w ResyncSlowWatcher.

Definition unregister (h : Hub) (w : wid) : Hub := fst (removeLocked h w).

(** ** Schema changes *)

(** The body of [invalidateLocked]'s range over the watchers. *)
Definition invalidate_one (table : string) (h : Hub) (w : wid) : Hub :=
  match h_heap h !! w with
  | Some obj => if decide (p_table (w_projection obj) = table)
                then endLocked h w ResyncSchemaChanged else h
  | None => h
  end.

(** [invalidateLocked]. The order the watcher map is ranged over in does not
    matter: each watcher of the table is ended once. *)
Definition invalidateLocked (h : Hub) (table : string) (cursor : Cursor) : Hub :=
  let h := set_stale h ({[table]} ∪ h_stale h) in
  let h := foldl (invalidate_one table) h (elements (h_watchers h)) in
  let h := if h_hasFloor h && later cursor (h_floor h) then set_floor h cursor true else h in
  if negb (h_hasEvicted h) || later cursor (h_lastEvicted h) then set_lastEvicted h cursor else h.

(** ** Deliveries *)

Definition indexedDeliveries : nat := 8.

(** [for i := len(keys) - 1; i >= 0; i--]. *)
Fixpoint scan_newest (keys : list deliveryKey) (key : deliveryKey) (i : nat) : option nat :=
  match i with
  | O => None
  | S i' => if decide (keys !! i' = Some key) then Some i' else scan_newest keys key i'
  end.

(** [for i, key := range h.deliveryKeys { h.deliveryIndex[key] = i }]. *)
Fixpoint index_keys (keys : list deliveryKey) (i : nat) (index : gmap deliveryKey nat)
    : gmap deliveryKey nat :=
  match keys with
  | [] => index
  | key :: rest => index_keys rest (S i) (<[key := i]> index)
  end.

(** [deliveryLocked]: the position of the key's delivery. *)
Definition deliveryLocked (s : scratch) (key : deliveryKey) (watchers : list wid)
    : scratch * nat :=
  let found :=
    if decide (length (s_deliveryKeys s) ≤ indexedDeliveries)%nat
    then scan_newest (s_deliveryKeys s) key (length (s_deliveryKeys s))
    else s_deliveryIndex s !! key in
  match found with
  | Some i => (s, i)
  | None =>
      let deliveries := s_deliveries s ++ [mkDelivery watchers []] in
      let keys := s_deliveryKeys s ++ [key] in
      let n := length keys in
      let index :=
        if decide (n = indexedDeliveries + 1)%nat then index_keys keys 0 (s_deliveryIndex s)
        else if decide (indexedDeliveries + 1 < n)%nat
        then <[key := (n - 1)%nat]> (s_deliveryIndex s)
        else s_deliveryIndex s in
      (mkScratch deliveries keys index, (length deliveries - 1)%nat)
  end.

Definition append_change (s : scratch) (i : nat) (change : Change) : scratch :=
  mkScratch (alter (λ d, mkDelivery (d_watchers d) (d_changes d ++ [change])) i (s_deliveries s))
    (s_deliveryKeys s) (s_deliveryIndex s).

(** The inner loop of [Accept], over the routes of the change's table. *)
Fixpoint visit_routes (s : scratch) (change : Change) (routes : list route) : scratch :=
  match routes with
  | [] => s
  | r :: rest =>
      let scope := key_at (ch_key change) (r_scopeColumn r) in
      let watchers := default [] (r_scopes r !! scope) in
      if decide (length watchers = 0%nat) then visit_routes s change rest
      else
        let '(s, i) := deliveryLocked s (mkKey (ch_table change) (r_scopeColumn r) scope) watchers in
        visit_routes (append_change s i change) change rest
  end.

Fixpoint visit_changes (routes : gmap string (list route)) (s : scratch) (changes : list Change)
    : scratch :=
  match changes with
  | [] => s
  | change :: rest =>
      visit_changes routes
        (visit_routes s change (default [] (routes !! ch_table change))) rest
  end.

(** The non-blocking send [w.queue <- item], dropping the watcher when the
    queue is full. *)
Definition offer (h : Hub) (w : wid) (item : queued) : Hub :=
  match h_heap h !! w with
  | None => h
  | Some obj =>
      if decide (zlen (w_queue obj) < h_queueSize h)
      then set_heap h (<[w := push_queue obj item]> (h_heap h))
      else dropLocked h w
  end.

Fixpoint offer_all (h : Hub) (item : queued) (ws : list wid) : Hub :=
  match ws with
  | [] => h
  | w :: rest => offer_all (offer h w item) item rest
  end.

(** One delivery: a memo when it has more than one watcher, then the sends. *)
Definition deliver (h : Hub) (t : Transaction) (d : delivery) : Hub :=
  if decide (1 < length (d_watchers d))%nat
  then offer_all (set_memos h (S (h_memos h))) (mkQueued t (d_changes d) (Some (h_memos h))) (d_watchers d)
  else offer_all h (mkQueued t (d_changes d) None) (d_watchers d).

Definition deliver_all (h : Hub) (t : Transaction) (ds : list delivery) : Hub :=
  foldl (λ h d, deliver h t d) h ds.

(** ** Accept *)

(** [Accept] past the duplicate check, with the tick to close on return. *)
Definition accept_new (h : Hub) (t : Transaction) : Hub * option nat :=
  let h := set_received h (tx_cursor t) in
  let '(h, tick) :=
    if h_tickTaken h then (set_tick h (S (h_tick h)) false, Some (h_tick h)) else (h, None) in
  let h := set_ring h (h_ring h ++ [t]) in
  let h := evict_loop (length (h_ring h)) h in
  let h := foldl (λ h inc, invalidateLocked h (inc_table inc) (tx_cursor t)) h (tx_incompatible t) in
  let h := set_scratch h (visit_changes (h_routes h) (h_scratch h) (tx_changes t)) in
  let h := deliver_all h t (s_deliveries (h_scratch h)) in
  (set_scratch h empty_scratch, tick).

Definition Accept (h : Hub) (t : Transaction) : result error (Hub * option nat) :=
  if h_hasReceived h then
    let! order := Compare (tx_cursor t) (h_received h) in
    if decide (order ≤ 0) then Ok (h, None) else Ok (accept_new h t)
  else Ok (accept_new h t).

Definition Stop (h : Hub) : Hub := set_stopped h.

(** ** What a watcher takes from the hub under its lock *)

(** [projection.changes]. *)
Definition proj_changes (p : projection) (scope : string) (t : Transaction) : list Change :=
  base.filter (λ c, ch_table c = p_table p ∧ key_at (ch_key c) (sp_scopeColumn (p_spec p)) = scope)
    (tx_changes t).

(** [watcher.appendBatch]. *)
Definition appendBatch (w : watcher) (batches : list Batch) (t : Transaction) : list Batch :=
  let changes := proj_changes (w_projection w) (w_scope w) t in
  if decide (0 < length changes)%nat
  then batches ++ [mkBatch (tx_cursor t) (tx_commitTime t) changes None]
  else batches.

(** The backlog loop of [resume] over the ring. *)
Fixpoint backlog_loop (w : watcher) (cursor : Cursor) (ring : list Transaction)
    (backlog : list Batch) : result error (list Batch) :=
  match ring with
  | [] => Ok backlog
  | t :: rest =>
      let! after := After t cursor in
      backlog_loop w cursor rest (if (after : bool) then appendBatch w backlog t else backlog)
  end.

(** The locked section of [resume]: refused with a reason, failed with an
    error, or registered with a backlog to send. *)
Inductive resumed : Type :=
| ResumeRefused (reason : ResyncReason)
| ResumeFailed (e : error)
| Resumed (h : Hub) (backlog : list Batch).

Definition resume_locked (h : Hub) (w : wid) (obj : watcher) (cursor : Cursor) : resumed :=
  if decide (p_table (w_projection obj) ∈ h_stale h) then ResumeRefused ResyncSchemaChanged
  else if negb (replayableLocked h cursor) then ResumeRefused ResyncCursorUnavailable
  else match backlog_loop obj cursor (h_ring h) [] with
       | Err e => ResumeFailed e
       | Ok backlog => Resumed (registerLocked h w) backlog
       end.

(** The first locked section of [snapshot]: the ring's transactions of the
    scope, and the registration. *)
Definition snapshot_locked (h : Hub) (w : wid) (obj : watcher) : Hub * list Transaction :=
  (registerLocked h w,
   base.filter (λ t, (0 < length (proj_changes (w_projection obj) (w_scope obj) t))%nat) (h_ring h)).

(** [position], under the lock. *)
Definition position (h : Hub) : Hub * Cursor * bool * nat :=
  (set_tick h (h_tick h) true, h_received h, h_hasReceived h, h_tick h).
