(* ===== verification/HubRegistry.v ===== *)
(** * The hub's watcher registry: lemmas on internal/watch/hub.go's routes

    The routes index the registered watchers by table, scope column and scope.
    [registry_ok] says the index and the registered set agree; every operation
    that touches either preserves it. *)

From S2P Require Import Prelude Errors CdcTypes Visibility Events Hub.
Local Open Scope string_scope.
Local Open Scope list_scope.
Local Open Scope Z_scope.

(** ** Specification of the index *)

(** The watchers a route table lists for a table, scope column and scope. *)
Definition routes_at (routes : gmap string (list route)) (table column scope : string) : list wid :=
  let rs := default [] (routes !! table) in
  match find_route column rs with
  | Some i => match rs !! i with Some r => default [] (r_scopes r !! scope) | None => [] end
  | None => []
  end.

(** The table, scope column and scope a watcher object watches. *)
Definition watches (obj : watcher) (table column scope : string) : Prop :=
  p_table (w_projection obj) = table ∧
  sp_scopeColumn (p_spec (w_projection obj)) = column ∧ w_scope obj = scope.

#[export] Instance watches_dec obj t c s : Decision (watches obj t c s) := _.

Definition columns_ok (routes : gmap string (list route)) : Prop :=
  ∀ table rs, routes !! table = Some rs → NoDup (r_scopeColumn <$> rs).

(** The index lists exactly the registered watchers, each once. *)
Record registry_ok (h : Hub) : Prop := {
  reg_heap w : w ∈ h_watchers h → is_Some (h_heap h !! w);
  reg_columns : columns_ok (h_routes h);
  reg_iff table column scope w :
    w ∈ routes_at (h_routes h) table column scope ↔
    w ∈ h_watchers h ∧ ∃ obj, h_heap h !! w = Some obj ∧ watches obj table column scope;
  reg_nodup table column scope : NoDup (routes_at (h_routes h) table column scope)
}.

(** ** Route tables *)

Lemma find_route_Some column rs i :
  find_route column rs = Some i → ∃ r, rs !! i = Some r ∧ r_scopeColumn r = column.
Proof.
  revert i. induction rs as [|r rs IH]; intros i; simpl; [done|].
  destruct (decide _); [intros [= <-]; eauto|].
  destruct (find_route column rs) as [j|]; simpl; [|done].
  intros [= <-]. simpl. by apply IH.
Qed.

Lemma find_route_None column rs :
  find_route column rs = None ↔ column ∉ r_scopeColumn <$> rs.
Proof.
  induction rs as [|r rs IH]; simpl; [set_solver|].
  rewrite not_elem_of_cons. destruct (decide _) as [->|Hne]; [naive_solver|].
  destruct (find_route column rs); simpl; naive_solver.
Qed.

Lemma find_route_app column rs rs' :
  find_route column (rs ++ rs') =
  match find_route column rs with
  | Some i => Some i
  | None => Nat.add (length rs) <$> find_route column rs'
  end.
Proof.
  induction rs as [|r rs IH]; simpl; [by destruct (find_route column rs')|].
  destruct (decide _); [done|]. rewrite IH.
  destruct (find_route column rs); [done|]. by destruct (find_route column rs').
Qed.

Lemma find_route_alter column rs j (f : route → route) :
  (∀ r, r_scopeColumn (f r) = r_scopeColumn r) →
  find_route column (alter f j rs) = find_route column rs.
Proof.
  intros Hf. revert j. induction rs as [|r rs IH]; intros [|j]; simpl; try done.
  - by rewrite Hf.
  - by rewrite <-(IH j).
Qed.

Lemma routeLocked_spec h p h' i :
  columns_ok (h_routes h) →
  routeLocked h p = (h', i) →
  h' = set_registry h (h_watchers h) (h_routes h') ∧
  columns_ok (h_routes h') ∧
  find_route (sp_scopeColumn (p_spec p)) (default [] (h_routes h' !! p_table p)) = Some i ∧
  ∀ t c s, routes_at (h_routes h') t c s = routes_at (h_routes h) t c s.
Proof.
  intros Hok. unfold routeLocked.
  destruct (find_route _ _) as [j|] eqn:Hf; intros [= <- <-].
  { split; [by destruct h|]. done. }
  simpl. split; [done|].
  assert (sp_scopeColumn (p_spec p) ∉ r_scopeColumn <$> default [] (h_routes h !! p_table p))
    as Hfresh by by apply find_route_None.
  split; [|split].
  - intros t rs [[<- <-]|[Hne Ht]]%lookup_insert_Some; [|by eapply Hok].
    rewrite fmap_app. apply NoDup_app. split; [|split].
    + destruct (h_routes h !! p_table p) as [rs|] eqn:E; simpl; [by eapply Hok|constructor].
    + simpl. set_solver.
    + apply NoDup_singleton.
  - rewrite lookup_insert_eq. simpl. rewrite find_route_app, Hf. simpl.
    rewrite decide_True by done. simpl. f_equal. lia.
  - intros t c s. unfold routes_at.
    destruct (decide (p_table p = t)) as [<-|Hne]; [|by rewrite lookup_insert_ne].
    rewrite lookup_insert_eq. simpl. rewrite find_route_app.
    destruct (find_route c (default [] (h_routes h !! p_table p))) as [j|] eqn:Hc.
    + destruct (find_route_Some _ _ _ Hc) as (r & Hr & _).
      by rewrite lookup_app_l by (by eapply lookup_lt_Some).
    + simpl. destruct (decide _); simpl; [|done].
      rewrite Nat.add_0_r, lookup_app_r by lia. by rewrite Nat.sub_diag.
Qed.

Lemma assign_scope_routes_at h table i scope ws column t c s :
  columns_ok (h_routes h) →
  find_route column (default [] (h_routes h !! table)) = Some i →
  routes_at (h_routes (assign_scope h table i scope ws)) t c s =
  if decide (t = table ∧ c = column ∧ s = scope) then default [] ws
  else routes_at (h_routes h) t c s.
Proof.
  intros Hok Hf. unfold routes_at. simpl.
  destruct (decide (t = table)) as [->|Hne].
  2:{ rewrite lookup_alter_ne by done. rewrite decide_False by naive_solver. done. }
  rewrite lookup_alter_eq. destruct (h_routes h !! table) as [rs|] eqn:Hrs; simpl in *.
  2:{ done. }
  rewrite find_route_alter by done.
  destruct (find_route_Some _ _ _ Hf) as (r & Hr & Hcol).
  destruct (decide (c = column)) as [->|Hc].
  - rewrite Hf, list_lookup_alter_eq, Hr. simpl.
    destruct (decide (s = scope)) as [->|Hs].
    + rewrite decide_True by done. destruct ws; by simplify_map_eq.
    + rewrite decide_False by naive_solver. destruct ws; by simplify_map_eq.
  - rewrite decide_False by naive_solver.
    destruct (find_route c rs) as [j|] eqn:Hj; [|done].
    destruct (find_route_Some _ _ _ Hj) as (r' & Hr' & Hcol').
    rewrite list_lookup_alter_ne; [done|]. intros ->. congruence.
Qed.

Lemma assign_scope_columns h table i scope ws :
  columns_ok (h_routes h) → columns_ok (h_routes (assign_scope h table i scope ws)).
Proof.
  intros Hok t rs. simpl. destruct (decide (table = t)) as [->|Hne].
  - rewrite lookup_alter_eq. destruct (h_routes h !! t) as [rs'|] eqn:E; simpl; [|done].
    intros [= <-]. rewrite list_fmap_alter_same by done. by eapply Hok.
  - rewrite lookup_alter_ne by done. apply Hok.
Qed.

(** ** Registration and removal *)

Lemma scope_watchers_routes_at h table column i scope :
  find_route column (default [] (h_routes h !! table)) = Some i →
  scope_watchers h table i scope = routes_at (h_routes h) table column scope.
Proof. unfold scope_watchers, routes_at. by intros ->. Qed.

Lemma registerLocked_spec h w obj :
  registry_ok h → h_heap h !! w = Some obj →
  registerLocked h w = set_registry h ({[w]} ∪ h_watchers h) (h_routes (registerLocked h w)) ∧
  columns_ok (h_routes (registerLocked h w)) ∧
  ∀ t c s, routes_at (h_routes (registerLocked h w)) t c s =
    routes_at (h_routes h) t c s ++ (if decide (watches obj t c s) then [w] else []).
Proof.
  intros [Hheap Hcol Hiff Hnd] Hw. unfold registerLocked. rewrite Hw.
  destruct (routeLocked _ _) as [h1 i] eqn:E. cbv zeta.
  destruct (routeLocked_spec (set_registry h ({[w]} ∪ h_watchers h) (h_routes h))
              (w_projection obj) h1 i Hcol E) as (Hh1 & Hcol1 & Hfind & Hat).
  split; [unfold assign_scope; rewrite Hh1; done|].
  split; [by apply assign_scope_columns|].
  intros t c s. erewrite assign_scope_routes_at by done.
  erewrite scope_watchers_routes_at, !Hat by done. simpl. unfold watches.
  destruct (decide (t = _ ∧ c = _ ∧ s = _)) as [(-> & -> & ->)|Hne].
  - by rewrite decide_True.
  - by rewrite decide_False, app_nil_r by naive_solver.
Qed.

Lemma removeLocked_spec h w obj :
  registry_ok h → h_heap h !! w = Some obj → w ∈ h_watchers h →
  (removeLocked h w).2 = true ∧
  (removeLocked h w).1 = set_registry h (h_watchers h ∖ {[w]}) (h_routes (removeLocked h w).1) ∧
  columns_ok (h_routes (removeLocked h w).1) ∧
  ∀ t c s, routes_at (h_routes (removeLocked h w).1) t c s =
    base.filter (λ other, other ≠ w) (routes_at (h_routes h) t c s).
Proof.
  intros [Hheap Hcol Hiff Hnd] Hw Hin. unfold removeLocked. rewrite Hw, decide_True by done.
  destruct (routeLocked _ _) as [h1 i] eqn:E. cbv zeta.
  destruct (routeLocked_spec (set_registry h (h_watchers h ∖ {[w]}) (h_routes h))
              (w_projection obj) h1 i Hcol E) as (Hh1 & Hcol1 & Hfind & Hat).
  split; [done|]. split; [unfold assign_scope; simpl; rewrite Hh1; done|].
  split; [by apply assign_scope_columns|].
  intros t c s. cbn [fst]. erewrite assign_scope_routes_at by done.
  erewrite scope_watchers_routes_at, !Hat by done. simpl.
  destruct (decide (t = _ ∧ c = _ ∧ s = _)) as [(-> & -> & ->)|Hne].
  - destruct (decide (length _ = _)) as [Hl|Hl]; simpl; [|done].
    by apply nil_length_inv in Hl as ->.
  - symmetry. apply list_filter_all. apply Forall_forall. intros x Hx ->.
    apply Hiff in Hx as (_ & obj' & Hobj' & (<- & <- & <-)).
    apply Hne. by rewrite Hw in Hobj'; simplify_eq.
Qed.

Lemma removeLocked_absent h w : w ∉ h_watchers h → removeLocked h w = (h, false).
Proof. intros. unfold removeLocked. by rewrite decide_False. Qed.

(** Changing a watcher object in place keeps the registry as long as what it
    watches stays the same. *)
Lemma registry_ok_heap h heap' :
  registry_ok h →
  (∀ w obj, h_heap h !! w = Some obj →
     ∃ obj', heap' !! w = Some obj' ∧ w_projection obj' = w_projection obj ∧ w_scope obj' = w_scope obj) →
  (∀ w, h_heap h !! w = None → w ∉ h_watchers h) →
  registry_ok (set_heap h heap').
Proof.
  intros [Hheap Hcol Hiff Hnd] Hsame _. split; simpl; try done.
  - intros w Hw. destruct (Hheap w Hw) as [obj Hobj].
    destruct (Hsame w obj Hobj) as (obj' & -> & _). eauto.
  - intros t c s w. rewrite Hiff. split; intros (Hw & obj & Hobj & Hm); (split; [done|]).
    + destruct (Hsame w obj Hobj) as (obj' & Hobj' & Hp & Hs).
      exists obj'. split; [done|]. unfold watches. by rewrite Hp, Hs.
    + destruct (Hheap w Hw) as [obj0 Hobj0].
      destruct (Hsame w obj0 Hobj0) as (obj' & Hobj' & Hp & Hs).
      simplify_eq. exists obj0. split; [done|]. unfold watches. by rewrite <-Hp, <-Hs.
Qed.

Lemma registerLocked_ok h w obj :
  registry_ok h → h_heap h !! w = Some obj → w ∉ h_watchers h → registry_ok (registerLocked h w).
Proof.
  intros Hok Hw Hnew. destruct (registerLocked_spec h w obj Hok Hw) as (Heq & Hcol & Hat).
  destruct Hok as [Hheap _ Hiff Hnd]. rewrite Heq. split; simpl; try done.
  - intros x [->%elem_of_singleton|?]%elem_of_union; eauto.
  - intros t c s x. rewrite Hat, elem_of_app, Hiff.
    split.
    + intros [(? & ?)|Hx]; [set_solver|].
      destruct (decide (watches obj t c s)); [|by apply elem_of_nil in Hx].
      apply list_elem_of_singleton in Hx as ->. split; [set_solver|eauto].
    + intros [[->%elem_of_singleton|Hx]%elem_of_union (obj' & Hobj' & Hm)]; [|left; eauto].
      right. simplify_eq. rewrite decide_True by done. by left.
  - intros t c s. rewrite Hat. apply NoDup_app. split; [done|].
    destruct (decide _); [|split; [set_solver|constructor]].
    split; [|apply NoDup_singleton]. intros x Hx ->%list_elem_of_singleton.
    apply Hiff in Hx as [? _]. done.
Qed.

Lemma removeLocked_ok h w : registry_ok h → registry_ok (removeLocked h w).1.
Proof.
  intros Hok. destruct (decide (w ∈ h_watchers h)) as [Hin|]; [|by rewrite removeLocked_absent].
  destruct (reg_heap h Hok w Hin) as [obj Hw].
  destruct (removeLocked_spec h w obj Hok Hw Hin) as (_ & Heq & Hcol & Hat).
  destruct Hok as [Hheap _ Hiff Hnd]. rewrite Heq. split; simpl; try done.
  - set_solver.
  - intros t c s x. rewrite Hat, list_elem_of_filter, Hiff. set_solver.
  - intros t c s. rewrite Hat. by apply NoDup_filter.
Qed.
