(* ===== verification/HubAccept.v ===== *)
(** * Accept: delivery through the route index

    [Accept] finds the watchers a transaction concerns through the routes and
    its delivery scratch space. This file proves that equivalent to offering
    every registered watcher its own part of the transaction. *)

From S2P Require Import Prelude Errors CdcTypes Visibility Events Hub HubRegistry.
Local Open Scope string_scope.
Local Open Scope list_scope.
Local Open Scope Z_scope.

(** ** Specification *)

(** Everything but the registry, the watcher objects and the memo counter is
    the same. *)
Definition with_reg (h : Hub) ws routes heap memos : Hub :=
  set_memos (set_heap (set_registry h ws routes) heap) memos.

Definition frame (h h' : Hub) : Prop :=
  h' = with_reg h (h_watchers h') (h_routes h') (h_heap h') (h_memos h').

(** The scratch space of a delivery in progress: keys and deliveries in step,
    each key once, and past [indexedDeliveries] keys the index is their
    inverse. *)
Record scratch_ok (s : scratch) : Prop := {
  sok_length : length (s_deliveries s) = length (s_deliveryKeys s);
  sok_nodup : NoDup (s_deliveryKeys s);
  sok_index :
    if decide (length (s_deliveryKeys s) ≤ indexedDeliveries)%nat
    then s_deliveryIndex s = ∅
    else ∀ k i, s_deliveryIndex s !! k = Some i ↔ s_deliveryKeys s !! i = Some k
}.

(** A change belongs to a delivery key. *)
Definition hits (k : deliveryKey) (c : Change) : Prop :=
  ch_table c = k_table k ∧ key_at (ch_key c) (k_column k) = k_scope k.

#[export] Instance hits_dec k c : Decision (hits k c) := _.

Definition routes_key (routes : gmap string (list route)) (k : deliveryKey) : list wid :=
  routes_at routes (k_table k) (k_column k) (k_scope k).

(** The scratch space holds, for every key some watcher has, the changes [F]
    says, and nothing else. *)
Definition gathered (routes : gmap string (list route)) (F : deliveryKey → list Change)
    (s : scratch) : Prop :=
  scratch_ok s ∧
  (∀ i k d, s_deliveryKeys s !! i = Some k → s_deliveries s !! i = Some d →
     d_watchers d = routes_key routes k ∧ d_watchers d ≠ [] ∧ d_changes d = F k ∧ F k ≠ []) ∧
  (∀ k, routes_key routes k ≠ [] → F k ≠ [] → k ∈ s_deliveryKeys s).

(** What offering an item does to one watcher: queued, or dropped when its
    queue is full. *)
Definition offered (h : Hub) (w : wid) (obj : watcher) (item : queued) (h' : Hub) : Prop :=
  if decide (zlen (w_queue obj) < h_queueSize h)
  then w ∈ h_watchers h' ∧ h_heap h' !! w = Some (push_queue obj item)
  else w ∉ h_watchers h' ∧ h_heap h' !! w = Some (close_overflow obj ResyncSlowWatcher).

(** A watcher the operation does not touch. *)
Definition untouched (h : Hub) (w : wid) (h' : Hub) : Prop :=
  (w ∈ h_watchers h' ↔ w ∈ h_watchers h) ∧ h_heap h' !! w = h_heap h !! w.

(** ** Frames *)

#[export] Instance frame_preorder : PreOrder frame.
Proof.
  split; [by intros []|]. unfold frame.
  intros h1 h2 h3 H12 H23. rewrite H23 at 1. rewrite H12 at 1. done.
Qed.

Lemma untouched_trans h1 h2 h3 w : untouched h1 w h2 → untouched h2 w h3 → untouched h1 w h3.
Proof. intros [Hw12 Hh12] [Hw23 Hh23]. split; [by rewrite Hw23|congruence]. Qed.

(** ** Ending and offering *)

Lemma registry_in_heap h w : registry_ok h → w ∈ h_watchers h → ∃ obj, h_heap h !! w = Some obj.
Proof. intros Hok Hw. by destruct (reg_heap h Hok w Hw) as [obj ?]; eauto. Qed.

Lemma registry_ok_insert h w obj obj' :
  registry_ok h → h_heap h !! w = Some obj →
  w_projection obj' = w_projection obj → w_scope obj' = w_scope obj →
  registry_ok (set_heap h (<[w := obj']> (h_heap h))).
Proof.
  intros Hok Hw Hp Hs. apply registry_ok_heap; [done| |].
  - intros x o Hx. destruct (decide (w = x)) as [->|Hne].
    + exists obj'. rewrite lookup_insert_eq. by simplify_eq.
    + exists o. by rewrite lookup_insert_ne.
  - intros x Hx Hin. destruct (reg_heap h Hok x Hin). congruence.
Qed.

Lemma endLocked_absent h w reason : w ∉ h_watchers h → endLocked h w reason = h.
Proof. intros. unfold endLocked. by rewrite removeLocked_absent. Qed.

Lemma endLocked_spec h w obj reason :
  registry_ok h → h_heap h !! w = Some obj → w ∈ h_watchers h →
  frame h (endLocked h w reason) ∧ registry_ok (endLocked h w reason) ∧
  h_watchers (endLocked h w reason) = h_watchers h ∖ {[w]} ∧
  h_heap (endLocked h w reason) = <[w := close_overflow obj reason]> (h_heap h).
Proof.
  intros Hok Hw Hin. pose proof (removeLocked_ok h w Hok) as Hok'.
  destruct (removeLocked_spec h w obj Hok Hw Hin) as (Hrem & Heq & _).
  unfold endLocked. destruct (removeLocked h w) as [h' removed]. cbn [fst snd] in *. subst removed.
  assert (h_heap h' !! w = Some obj) as Hw' by (rewrite Heq; done).
  assert (alter (λ o, close_overflow o reason) w (h_heap h')
          = <[w := close_overflow obj reason]> (h_heap h')) as ->.
  { apply map_eq. intros x. destruct (decide (w = x)) as [->|Hne].
    - by rewrite lookup_alter_eq, lookup_insert_eq, Hw'.
    - by rewrite lookup_alter_ne, lookup_insert_ne. }
  split; [unfold frame; rewrite Heq; done|]. split; [by eapply registry_ok_insert|].
  rewrite Heq. done.
Qed.

Lemma offer_spec h w obj item :
  registry_ok h → h_heap h !! w = Some obj → w ∈ h_watchers h →
  frame h (offer h w item) ∧ registry_ok (offer h w item) ∧
  offered h w obj item (offer h w item) ∧
  ∀ x, x ≠ w → untouched h x (offer h w item).
Proof.
  intros Hok Hw Hin. unfold offer, offered. rewrite Hw. destruct (decide _).
  - split; [done|]. split; [by eapply registry_ok_insert|].
    simpl. rewrite lookup_insert_eq. split; [done|].
    intros x Hx. split; [done|]. simpl. by rewrite lookup_insert_ne.
  - destruct (endLocked_spec h w obj ResyncSlowWatcher Hok Hw Hin) as (Hf & Hok' & Hws & Hhp).
    unfold dropLocked. split; [done|]. split; [done|]. rewrite Hws, Hhp, lookup_insert_eq.
    split; [set_solver|]. intros x Hx. split; [rewrite Hws; set_solver|].
    by rewrite Hhp, lookup_insert_ne.
Qed.

Lemma offer_all_spec h item ws :
  registry_ok h → NoDup ws → (∀ w, w ∈ ws → w ∈ h_watchers h) →
  frame h (offer_all h item ws) ∧ registry_ok (offer_all h item ws) ∧
  (∀ w obj, w ∈ ws → h_heap h !! w = Some obj → offered h w obj item (offer_all h item ws)) ∧
  ∀ x, x ∉ ws → untouched h x (offer_all h item ws).
Proof.
  intros Hok Hnd. revert h Hok. induction Hnd as [|w ws Hw Hnd IH]; intros h Hok Hin; simpl.
  { split; [done|split; [done|split]]; [by intros ?? ?%elem_of_nil|done]. }
  assert (w ∈ h_watchers h) as Hwin by (apply Hin; by left).
  destruct (registry_in_heap h w Hok Hwin) as [obj Hobj].
  destruct (offer_spec h w obj item Hok Hobj Hwin) as (Hf1 & Hok1 & Hoff & Hun).
  destruct (IH (offer h w item) Hok1) as (Hf2 & Hok2 & Hall & Hun2).
  { intros x Hx. apply Hun; [by intros ->|]. apply Hin. by right. }
  assert (h_queueSize (offer h w item) = h_queueSize h) as Hq.
  { by apply (f_equal h_queueSize) in Hf1. }
  split; [by etrans|]. split; [done|]. split.
  - intros x o [->|Hx]%elem_of_cons Ho.
    + simplify_eq. destruct (Hun2 w Hw) as [Hw1 Hw2]. unfold offered in *.
      destruct (decide _); rewrite Hw1, Hw2; done.
    + specialize (Hall x o Hx). unfold offered in *. rewrite Hq in Hall. apply Hall.
      rewrite <-Ho. apply Hun. by intros ->.
  - intros x [Hne Hx]%not_elem_of_cons. eapply untouched_trans; [by apply Hun|by apply Hun2].
Qed.

Lemma registry_ok_memos h n : registry_ok h → registry_ok (set_memos h n).
Proof. intros [? ? ? ?]. by split. Qed.

Lemma deliver_spec h t d :
  registry_ok h → NoDup (d_watchers d) → (∀ w, w ∈ d_watchers d → w ∈ h_watchers h) →
  frame h (deliver h t d) ∧ registry_ok (deliver h t d) ∧
  (∃ memo, ∀ w obj, w ∈ d_watchers d → h_heap h !! w = Some obj →
     offered h w obj (mkQueued t (d_changes d) memo) (deliver h t d)) ∧
  ∀ x, x ∉ d_watchers d → untouched h x (deliver h t d).
Proof.
  intros Hok Hnd Hin. unfold deliver. destruct (decide _).
  - destruct (offer_all_spec (set_memos h (S (h_memos h)))
      (mkQueued t (d_changes d) (Some (h_memos h))) (d_watchers d)
      (registry_ok_memos _ _ Hok) Hnd Hin) as (Hf & Hok' & Hall & Hun).
    split; [etrans; [|exact Hf]; done|]. eauto.
  - destruct (offer_all_spec h (mkQueued t (d_changes d) None) (d_watchers d) Hok Hnd Hin)
      as (Hf & Hok' & Hall & Hun). eauto.
Qed.

Lemma deliver_all_spec h t ds :
  registry_ok h → NoDup (mjoin (d_watchers <$> ds)) →
  (∀ w, w ∈ mjoin (d_watchers <$> ds) → w ∈ h_watchers h) →
  frame h (deliver_all h t ds) ∧ registry_ok (deliver_all h t ds) ∧
  (∀ d, d ∈ ds → ∃ memo, ∀ w obj, w ∈ d_watchers d → h_heap h !! w = Some obj →
     offered h w obj (mkQueued t (d_changes d) memo) (deliver_all h t ds)) ∧
  ∀ x, x ∉ mjoin (d_watchers <$> ds) → untouched h x (deliver_all h t ds).
Proof.
  revert h. induction ds as [|d ds IH]; intros h Hok Hnd Hin; simpl.
  { split; [done|split; [done|split]]; [by intros ? ?%elem_of_nil|done]. }
  simpl in Hnd, Hin. apply NoDup_app in Hnd as (Hnd1 & Hdisj & Hnd2).
  destruct (deliver_spec h t d Hok Hnd1) as (Hf1 & Hok1 & (memo & Hoff) & Hun1).
  { intros w Hw. apply Hin, elem_of_app. by left. }
  destruct (IH (deliver h t d) Hok1 Hnd2) as (Hf2 & Hok2 & Hall & Hun2).
  { intros w Hw. apply Hun1; [by intros ?; eapply Hdisj|]. apply Hin, elem_of_app. by right. }
  change (foldl _ _ ds) with (deliver_all (deliver h t d) t ds).
  assert (h_queueSize (deliver h t d) = h_queueSize h) as Hq by by apply (f_equal h_queueSize) in Hf1.
  split; [by etrans|]. split; [done|]. split.
  - intros d' [->|Hd']%elem_of_cons.
    + exists memo. intros w obj Hw Hobj. specialize (Hoff w obj Hw Hobj).
      destruct (Hun2 w (Hdisj w Hw)) as [Hw1 Hw2]. unfold offered in *.
      destruct (decide _); rewrite Hw1, Hw2; done.
    + destruct (Hall d' Hd') as [memo' Hm]. exists memo'. intros w obj Hw Hobj.
      assert (w ∈ mjoin (d_watchers <$> ds)) as Hwj.
      { apply list_elem_of_join. exists (d_watchers d'). split; [done|].
        by apply list_elem_of_fmap_2. }
      specialize (Hm w obj Hw). unfold offered in *. rewrite Hq in Hm. apply Hm.
      rewrite <-Hobj. apply Hun1. intros ?. by eapply Hdisj.
  - intros x Hx. rewrite elem_of_app in Hx. eapply untouched_trans; [apply Hun1; tauto|apply Hun2; tauto].
Qed.

(** ** The delivery scratch space *)

Lemma scan_newest_Some keys key i j :
  scan_newest keys key i = Some j → keys !! j = Some key.
Proof.
  induction i as [|i IH]; simpl; [done|]. destruct (decide _) as [Hk|]; [by intros [= <-]|done].
Qed.

Lemma scan_newest_None keys key i :
  scan_newest keys key i = None → ∀ j, (j < i)%nat → keys !! j ≠ Some key.
Proof.
  induction i as [|i IH]; simpl; [lia|]. destruct (decide _) as [|Hk]; [done|].
  intros Hn j Hj. destruct (decide (j = i)) as [->|]; [done|]. apply IH; [done|lia].
Qed.

Lemma index_keys_lookup keys j index k i :
  NoDup keys →
  index_keys keys j index !! k = Some i ↔
  (∃ i', keys !! i' = Some k ∧ i = (j + i')%nat) ∨ (k ∉ keys ∧ index !! k = Some i).
Proof.
  revert j index. induction keys as [|key keys IH]; intros j index Hnd; simpl.
  { split; [intros; right; split; [apply not_elem_of_nil|done]|].
    intros [(i' & H & _)|[_ ?]]; [by rewrite lookup_nil in H|done]. }
  apply NoDup_cons in Hnd as [Hk Hnd]. rewrite IH by done. split.
  - intros [(i' & Hi' & ->)|[Hnin Hidx]].
    + left. exists (S i'). split; [done|lia].
    + rewrite lookup_insert in Hidx. destruct (decide (key = k)) as [->|Hne].
      * left. exists 0%nat. simplify_eq. split; [done|lia].
      * right. split; [by apply not_elem_of_cons|done].
  - intros [([|i'] & Hi' & ->)|[[Hne Hnin]%not_elem_of_cons Hidx]].
    + simpl in Hi'. simplify_eq. right. split; [done|]. rewrite lookup_insert_eq. f_equal. lia.
    + left. exists i'. split; [done|lia].
    + right. split; [done|]. by rewrite lookup_insert_ne.
Qed.

Lemma empty_scratch_ok : scratch_ok empty_scratch.
Proof. split; simpl; [done|constructor|done]. Qed.

(** The scan and the index find the same delivery. *)
Lemma deliveryLocked_spec s key ws s' i :
  scratch_ok s → deliveryLocked s key ws = (s', i) →
  scratch_ok s' ∧ s_deliveryKeys s' !! i = Some key ∧
  ((key ∈ s_deliveryKeys s ∧ s' = s) ∨
   (key ∉ s_deliveryKeys s ∧ s_deliveries s' = s_deliveries s ++ [mkDelivery ws []] ∧
    s_deliveryKeys s' = s_deliveryKeys s ++ [key])).
Proof.
  intros Hok. pose proof Hok as [Hlen Hnd Hidx]. unfold deliveryLocked.
  set (found := if decide _ then _ else _).
  assert (match found with
          | Some j => s_deliveryKeys s !! j = Some key
          | None => key ∉ s_deliveryKeys s end) as Hfound.
  { subst found. destruct (decide _).
    - destruct (scan_newest _ _ _) as [j|] eqn:E; [by eapply scan_newest_Some|].
      intros [j Hj]%list_elem_of_lookup. eapply scan_newest_None; [exact E| |exact Hj].
      by eapply lookup_lt_Some.
    - destruct (s_deliveryIndex s !! key) as [j|] eqn:E; [by apply Hidx|].
      intros [j Hj]%list_elem_of_lookup. apply Hidx in Hj. congruence. }
  destruct found as [j|]; intros [= <- <-].
  { split; [done|]. split; [done|]. left. split; [|done]. by eapply list_elem_of_lookup_2. }
  assert (NoDup (s_deliveryKeys s ++ [key])) as Hnd'.
  { apply NoDup_app. split; [done|split; [|apply NoDup_singleton]]. set_solver. }
  simpl. rewrite length_app. simpl. split.
  - split; simpl; [rewrite !length_app; simpl; lia|done|].
    rewrite length_app in *. simpl in *. unfold indexedDeliveries in *.
    destruct (decide (length (s_deliveryKeys s) + 1 ≤ 8)%nat).
    { rewrite !decide_False by lia. by rewrite decide_True in Hidx by lia. }
    intros k i. destruct (decide (length (s_deliveryKeys s) + 1 = 9)%nat) as [E|E].
    + rewrite decide_True in Hidx by lia. rewrite Hidx. rewrite index_keys_lookup by done. simpl.
      split; [intros [(i' & ? & ->)|[_ H]]|]; [done|by rewrite lookup_empty in H|eauto].
    + rewrite decide_False in Hidx by lia. rewrite decide_True by lia.
      rewrite lookup_insert. destruct (decide (key = k)) as [->|Hne].
      * replace (length (s_deliveryKeys s) + 1 - 1)%nat with (length (s_deliveryKeys s)) by lia.
        split; [intros [= <-]; by apply list_lookup_middle|].
        intros Hi. f_equal. eapply NoDup_lookup; [exact Hnd'| |exact Hi]. by apply list_lookup_middle.
      * rewrite Hidx, lookup_app. destruct (s_deliveryKeys s !! i) as [k'|] eqn:Ei; [done|].
        rewrite list_lookup_singleton. destruct (i - _)%nat; naive_solver.
  - split; [|by right]. apply list_lookup_middle. rewrite ?length_app. simpl. lia.
Qed.

Lemma gathered_ext routes F F' s :
  (∀ k, routes_key routes k ≠ [] → F k = F' k) → gathered routes F s → gathered routes F' s.
Proof.
  intros Hext (Hok & Hin & Hall). split; [done|]. split.
  - intros i k d Hk Hd. destruct (Hin i k d Hk Hd) as (H1 & H2 & H3 & H4).
    assert (routes_key routes k ≠ []) as Hne by (by rewrite <-H1).
    split; [done|split; [done|]]. by rewrite <-Hext.
  - intros k Hne HF. apply Hall; [done|]. by rewrite Hext.
Qed.

(** Recording one change under one key. *)
Lemma gathered_step routes F s key ws c s1 i :
  gathered routes F s → ws = routes_key routes key → ws ≠ [] →
  deliveryLocked s key ws = (s1, i) →
  gathered routes (λ k, F k ++ (if decide (k = key) then [c] else [])) (append_change s1 i c).
Proof.
  intros (Hok & Hin & Hall) Hws Hne Hd.
  destruct (deliveryLocked_spec s key ws s1 i Hok Hd) as (Hok1 & Hi & Hcase).
  pose proof Hok1 as [Hlen1 Hnd1 Hidx1].
  assert (∀ j, j ≠ i → s_deliveryKeys s1 !! j ≠ Some key) as Hother.
  { intros j Hj Hk. apply Hj. by eapply NoDup_lookup. }
  split; [split; simpl; [by rewrite length_alter|done|done]|]. simpl. split.
  - intros j k d Hk. rewrite list_lookup_alter. destruct (decide (i = j)) as [<-|Hij].
    + rewrite Hi in Hk. simplify_eq. rewrite decide_True by done.
      destruct (s_deliveries s1 !! i) as [d1|] eqn:Hd1; simpl; [|done]. intros [= <-]. simpl.
      destruct Hcase as [[Hkin ->]|(Hknin & Hds & Hks)].
      * destruct (Hin i k d1 Hi Hd1) as (-> & ? & -> & ?).
        split; [done|split; [done|split; [done|]]]. by destruct (F k).
      * assert (i = length (s_deliveries s)) as ->.
        { rewrite Hks in Hi. apply lookup_app_Some in Hi as [Hi|[Hge _]].
          - destruct Hknin. by eapply list_elem_of_lookup_2.
          - destruct Hok as [Hl _ _]. apply lookup_lt_Some in Hd1.
            rewrite Hds, length_app in Hd1. simpl in Hd1. lia. }
        rewrite Hds in Hd1. rewrite lookup_app_r, Nat.sub_diag in Hd1 by lia. simpl in Hd1.
        simplify_eq. simpl. split; [done|split; [done|]].
        destruct (F k) eqn:EF; [done|]. destruct Hknin. apply Hall; [done|by rewrite EF].
    + intros Hd1. rewrite decide_False, app_nil_r by (intros ->; by eapply Hother).
      destruct Hcase as [[Hkin ->]|(Hknin & Hds & Hks)]; [by eapply Hin|].
      rewrite Hks in Hk, Hi. rewrite Hds in Hd1.
      apply lookup_app_Some in Hk as [Hk|[Hge Hk]].
      * apply lookup_app_Some in Hd1 as [Hd1|[Hge _]]; [by eapply Hin|].
        apply lookup_lt_Some in Hk. destruct Hok as [Hl _ _]. lia.
      * exfalso. apply Hij. apply list_lookup_singleton_Some in Hk as [Hj <-].
        apply lookup_app_Some in Hi as [Hi|[Hge' Hi]].
        { destruct Hknin. by eapply list_elem_of_lookup_2. }
        apply list_lookup_singleton_Some in Hi as [Hi' _]. lia.
  - intros k Hrk HF. destruct (decide (k = key)) as [->|Hk].
    + by eapply list_elem_of_lookup_2.
    + rewrite app_nil_r in HF. specialize (Hall k Hrk HF).
      destruct Hcase as [[_ ->]|(_ & _ & ->)]; [done|]. apply elem_of_app. by left.
Qed.

(** The key a route gives a change. *)
Definition route_key (c : Change) (r : route) : deliveryKey :=
  mkKey (ch_table c) (r_scopeColumn r) (key_at (ch_key c) (r_scopeColumn r)).

Lemma visit_routes_spec routes F s c rs :
  gathered routes F s →
  NoDup (r_scopeColumn <$> rs) →
  (∀ r scope, r ∈ rs → routes_at routes (ch_table c) (r_scopeColumn r) scope
                       = default [] (r_scopes r !! scope)) →
  gathered routes (λ k, F k ++ (if decide (k ∈ route_key c <$> rs) then [c] else []))
    (visit_routes s c rs).
Proof.
  revert F s. induction rs as [|r rs IH]; intros F s Hg Hnd Hrs; simpl.
  { eapply gathered_ext; [|exact Hg]. intros k _. simpl. by rewrite app_nil_r. }
  simpl in Hnd. apply NoDup_cons in Hnd as [Hr Hnd].
  assert (∀ r' scope, r' ∈ rs → routes_at routes (ch_table c) (r_scopeColumn r') scope
                       = default [] (r_scopes r' !! scope)) as Hrs'.
  { intros. apply Hrs. by right. }
  assert (route_key c r ∉ route_key c <$> rs) as Hfresh.
  { intros (r' & Heq & Hr')%list_elem_of_fmap. apply Hr. injection Heq as Hc _.
    rewrite Hc. by apply list_elem_of_fmap_2. }
  assert (routes_key routes (route_key c r)
          = default [] (r_scopes r !! key_at (ch_key c) (r_scopeColumn r))) as Hkey.
  { unfold routes_key. simpl. apply Hrs. by left. }
  destruct (decide (length _ = _)) as [Hl|Hl].
  - apply nil_length_inv in Hl. rewrite Hl in Hkey.
    eapply gathered_ext; [|apply (IH F s Hg Hnd Hrs')]. intros k Hk.
    simpl. f_equal. repeat destruct (decide _); rewrite ?elem_of_cons in *; naive_solver.
  - destruct (deliveryLocked s _ _) as [s1 i] eqn:Hd.
    eapply gathered_ext; [|apply IH; [|done|done]].
    2:{ eapply gathered_step; [exact Hg| | |exact Hd]; [done|]. intros E. by rewrite E in Hl. }
    intros k _. simpl. rewrite <-app_assoc. f_equal. change (mkKey _ _ _) with (route_key c r).
    repeat destruct (decide _); rewrite ?elem_of_cons in *; naive_solver.
Qed.

Lemma find_route_nodup rs i r :
  NoDup (r_scopeColumn <$> rs) → rs !! i = Some r → find_route (r_scopeColumn r) rs = Some i.
Proof.
  intros Hnd Hi. destruct (find_route (r_scopeColumn r) rs) as [j|] eqn:E.
  - destruct (find_route_Some _ _ _ E) as (r' & Hj & Hc). f_equal.
    eapply NoDup_lookup; [exact Hnd| |]; rewrite list_lookup_fmap.
    + by rewrite Hj; simpl; rewrite Hc.
    + by rewrite Hi.
  - apply find_route_None in E. destruct E. apply list_elem_of_fmap.
    exists r. split; [done|]. by eapply list_elem_of_lookup_2.
Qed.

Lemma routes_at_route routes table rs r scope :
  columns_ok routes → routes !! table = Some rs → r ∈ rs →
  routes_at routes table (r_scopeColumn r) scope = default [] (r_scopes r !! scope).
Proof.
  intros Hok Hrs [i Hi]%list_elem_of_lookup. unfold routes_at. rewrite Hrs. simpl.
  by rewrite (find_route_nodup rs i r) by (done || by eapply Hok); rewrite Hi.
Qed.

Lemma visit_changes_spec routes F s changes :
  columns_ok routes → gathered routes F s →
  gathered routes (λ k, F k ++ base.filter (hits k) changes) (visit_changes routes s changes).
Proof.
  intros Hok. revert F s. induction changes as [|c changes IH]; intros F s Hg; simpl.
  { eapply gathered_ext; [|exact Hg]. intros k _. by rewrite app_nil_r. }
  eapply gathered_ext; [|apply IH, visit_routes_spec; [exact Hg| |]].
  - intros k Hk. simpl. rewrite <-app_assoc. f_equal. rewrite filter_cons.
    assert (k ∈ route_key c <$> default [] (routes !! ch_table c) ↔ hits k c) as Hiff.
    { split; [by intros (r & -> & _)%list_elem_of_fmap|].
      intros [Ht Hs]. unfold routes_key, routes_at in Hk. rewrite <-Ht in Hk.
      destruct (find_route _ _) as [i|] eqn:E; [|done].
      destruct (find_route_Some _ _ _ E) as (r & Hr & Hc).
      apply list_elem_of_fmap. exists r. split; [|by eapply list_elem_of_lookup_2].
      unfold route_key. rewrite Hc, Hs, Ht. by destruct k. }
    repeat destruct (decide _); naive_solver.
  - destruct (routes !! ch_table c) as [rs|] eqn:E; simpl; [by eapply Hok|constructor].
  - destruct (routes !! ch_table c) as [rs|] eqn:E; simpl; [|by intros ?? ?%elem_of_nil].
    intros r scope Hr. by eapply routes_at_route.
Qed.

(** ** Fields an operation leaves alone *)

(** The fields neither registration nor invalidation touches. *)
Definition core (h : Hub) :=
  (h_sourceID h, h_projections h, h_maxReplay h, h_queueSize h, h_ring h, h_received h,
   h_hasReceived h, h_tick h, h_tickTaken h, h_scratch h, h_stopped h).

(** The fields of the replay floor, which delivery does not touch. *)
Definition marks (h : Hub) :=
  (h_floor h, h_hasFloor h, h_lastEvicted h, h_hasEvicted h, h_stale h).

(** The registry fields, which eviction does not touch. *)
Definition registry (h : Hub) := (h_watchers h, h_routes h, h_heap h, h_queueSize h, h_scratch h).

Lemma frame_core h h' : frame h h' → core h' = core h.
Proof. intros Hf. by apply (f_equal core) in Hf. Qed.

Lemma frame_marks h h' : frame h h' → marks h' = marks h.
Proof. intros Hf. by apply (f_equal marks) in Hf. Qed.

Lemma evictLocked_registry h : registry (evictLocked h) = registry h.
Proof. unfold evictLocked. destruct (h_ring h); [done|]. simpl. by destruct (_ && _). Qed.

Lemma evict_loop_registry fuel h : registry (evict_loop fuel h) = registry h.
Proof.
  revert h. induction fuel as [|fuel IH]; intros h; simpl; [done|].
  destruct (decide _); [by rewrite IH, evictLocked_registry|done].
Qed.

Lemma registry_ok_proper h h' : registry h' = registry h → registry_ok h → registry_ok h'.
Proof.
  unfold registry. intros [= Hw Hr Hh _ _] [H1 H2 H3 H4]. split; rewrite ?Hw, ?Hr, ?Hh; done.
Qed.

(** Ending watchers of a table. *)
Definition ended (h : Hub) (w : wid) (obj : watcher) (reason : ResyncReason) (h' : Hub) : Prop :=
  w ∉ h_watchers h' ∧ h_heap h' !! w = Some (close_overflow obj reason).

Lemma invalidate_one_spec table h w :
  registry_ok h →
  frame h (invalidate_one table h w) ∧ registry_ok (invalidate_one table h w) ∧
  (∀ x, x ≠ w → untouched h x (invalidate_one table h w)) ∧
  (∀ obj, h_heap h !! w = Some obj →
     if decide (w ∈ h_watchers h ∧ p_table (w_projection obj) = table)
     then ended h w obj ResyncSchemaChanged (invalidate_one table h w)
     else untouched h w (invalidate_one table h w)).
Proof.
  intros Hok. unfold invalidate_one. destruct (h_heap h !! w) as [obj|] eqn:Hobj; [|done].
  destruct (decide (p_table _ = table)) as [Ht|Ht].
  2:{ split; [done|split; [done|split; [done|]]].
      intros o [= ->]. by rewrite decide_False by naive_solver. }
  destruct (decide (w ∈ h_watchers h)) as [Hin|Hin].
  2:{ rewrite endLocked_absent by done. split; [done|split; [done|split; [done|]]].
      intros o _. by rewrite decide_False by naive_solver. }
  destruct (endLocked_spec h w obj ResyncSchemaChanged Hok Hobj Hin) as (Hf & Hok1 & Hws & Hhp).
  split; [done|split; [done|split]].
  - intros x Hx. split; [rewrite Hws; set_solver|by rewrite Hhp, lookup_insert_ne].
  - intros o [= <-]. rewrite decide_True by done. split; [rewrite Hws; set_solver|].
    by rewrite Hhp, lookup_insert_eq.
Qed.

Lemma invalidate_fold_spec table ws h :
  registry_ok h → NoDup ws →
  frame h (foldl (invalidate_one table) h ws) ∧ registry_ok (foldl (invalidate_one table) h ws) ∧
  ∀ w obj, h_heap h !! w = Some obj →
    if decide (w ∈ ws ∧ w ∈ h_watchers h ∧ p_table (w_projection obj) = table)
    then ended h w obj ResyncSchemaChanged (foldl (invalidate_one table) h ws)
    else untouched h w (foldl (invalidate_one table) h ws).
Proof.
  intros Hok Hnd. revert h Hok.
  induction Hnd as [|w ws Hw Hnd IH]; intros h Hok; cbn [foldl].
  { split; [done|split; [done|]]. intros w obj _.
    by rewrite decide_False by (by intros [[]%elem_of_nil _]). }
  destruct (invalidate_one_spec table h w Hok) as (Hf & Hok1 & Hun & Hself).
  set (h1 := invalidate_one table h w) in *.
  destruct (IH h1 Hok1) as (Hf2 & Hok2 & Hall). split; [by etrans|split; [done|]].
  intros x o Hx. destruct (decide (x = w)) as [->|Hne].
  - specialize (Hself o Hx). destruct (decide (w ∈ h_watchers h ∧ _)) as [[Hin Ht]|Hno].
    + rewrite decide_True by (split; [by left|done]). destruct Hself as [Hnin Hh1].
      specialize (Hall w _ Hh1). rewrite decide_False in Hall by naive_solver.
      destruct Hall as [Hiff Hheap]. split; [by rewrite Hiff|by rewrite Hheap].
    + rewrite decide_False by naive_solver. destruct Hself as [Hiff Hheap].
      rewrite Hx in Hheap. specialize (Hall w _ Hheap).
      rewrite decide_False in Hall by naive_solver.
      eapply untouched_trans; [|exact Hall]. split; [done|]. by rewrite Hx.
  - destruct (Hun x Hne) as [Hiff Hheap]. rewrite Hx in Hheap. specialize (Hall x o Hheap).
    assert (x ∈ ws ∧ x ∈ h_watchers h1 ∧ p_table (w_projection o) = table ↔
            x ∈ w :: ws ∧ x ∈ h_watchers h ∧ p_table (w_projection o) = table) as Hcond.
    { rewrite elem_of_cons, Hiff. naive_solver. }
    destruct (decide (x ∈ w :: ws ∧ _)) as [Hc|Hc].
    + by rewrite decide_True in Hall by (by apply Hcond).
    + rewrite decide_False in Hall by (by rewrite Hcond).
      eapply untouched_trans; [|exact Hall]. split; [done|]. by rewrite Hx.
Qed.

Lemma registry_window h h' :
  registry h' = registry h → registry_ok h → ∀ w, untouched h w h'.
Proof. unfold registry. intros [= Hw Hr Hh _ _] _ w. split; [by rewrite Hw|by rewrite Hh]. Qed.

Lemma invalidateLocked_spec h table cursor :
  registry_ok h →
  core (invalidateLocked h table cursor) = core h ∧
  registry_ok (invalidateLocked h table cursor) ∧
  ∀ w obj, h_heap h !! w = Some obj →
    if decide (w ∈ h_watchers h ∧ p_table (w_projection obj) = table)
    then ended h w obj ResyncSchemaChanged (invalidateLocked h table cursor)
    else untouched h w (invalidateLocked h table cursor).
Proof.
  intros Hok. unfold invalidateLocked. cbv zeta.
  set (h0 := set_stale h _).
  assert (registry_ok h0) as Hok0 by (by apply (registry_ok_proper h)).
  destruct (invalidate_fold_spec table (elements (h_watchers h0)) h0 Hok0 (NoDup_elements _))
    as (Hf & Hok1 & Hall).
  set (h1 := foldl _ h0 _) in *.
  set (h2 := if h_hasFloor h1 && _ then _ else h1).
  assert (core h2 = core h1 ∧ registry h2 = registry h1) as [Hc2 Hr2]
    by (subst h2; by destruct (_ && _)).
  set (h3 := if negb _ || _ then _ else h2).
  assert (core h3 = core h1 ∧ registry h3 = registry h1) as [Hc3 Hr3]
    by (subst h3; by destruct (_ || _)).
  split; [by rewrite Hc3, (frame_core h0 h1 Hf)|].
  split; [by apply (registry_ok_proper h1)|].
  intros w obj Hw. specialize (Hall w obj Hw).
  pose proof (registry_window h1 h3 Hr3 Hok1 w) as [Hw3 Hh3].
  destruct (decide (w ∈ h_watchers h ∧ _)) as [[Hin Ht]|Hno].
  - rewrite decide_True in Hall by (rewrite elem_of_elements; done). destruct Hall as [Hn He].
    split; [by rewrite Hw3|by rewrite Hh3].
  - rewrite decide_False in Hall by (rewrite elem_of_elements; naive_solver).
    by eapply untouched_trans; [exact Hall|].
Qed.

Lemma invalidate_all_spec incs cursor h :
  registry_ok h →
  let h' := foldl (λ h inc, invalidateLocked h (inc_table inc) cursor) h incs in
  core h' = core h ∧ registry_ok h' ∧
  ∀ w obj, h_heap h !! w = Some obj →
    if decide (w ∈ h_watchers h ∧ p_table (w_projection obj) ∈ inc_table <$> incs)
    then ended h w obj ResyncSchemaChanged h' else untouched h w h'.
Proof.
  cbv zeta. revert h. induction incs as [|inc incs IH]; intros h Hok; cbn [foldl].
  { split; [done|split; [done|]]. intros w obj _.
    by rewrite decide_False by (by intros [_ []%elem_of_nil]). }
  destruct (invalidateLocked_spec h (inc_table inc) cursor Hok) as (Hc1 & Hok1 & Hone).
  destruct (IH _ Hok1) as (Hc2 & Hok2 & Hall).
  set (h1 := invalidateLocked h (inc_table inc) cursor) in *.
  split; [by rewrite Hc2|split; [done|]]. intros w obj Hw. specialize (Hone w obj Hw).
  rewrite fmap_cons. destruct (decide (w ∈ h_watchers h ∧ _ = _)) as [[Hin Ht]|Hno].
  - rewrite decide_True by (by rewrite Ht; split; [|left]).
    destruct Hone as [Hn He]. specialize (Hall w _ He).
    rewrite decide_False in Hall by naive_solver. destruct Hall as [Hi Hh].
    split; [by rewrite Hi|by rewrite Hh].
  - destruct Hone as [Hi Hh]. rewrite Hw in Hh. specialize (Hall w obj Hh).
    assert (w ∈ h_watchers h1 ∧ p_table (w_projection obj) ∈ inc_table <$> incs ↔
            w ∈ h_watchers h ∧ p_table (w_projection obj) ∈ inc_table inc :: (inc_table <$> incs)) as Hc.
    { rewrite elem_of_cons, Hi. naive_solver. }
    destruct (decide (w ∈ h_watchers h ∧ _ ∈ _)) as [H|H].
    + by rewrite decide_True in Hall by (by apply Hc).
    + rewrite decide_False in Hall by (by rewrite Hc).
      eapply untouched_trans; [|exact Hall]. split; [done|by rewrite Hw].
Qed.

(** ** Delivering what was gathered *)

Definition key_of (obj : watcher) : deliveryKey :=
  mkKey (p_table (w_projection obj)) (sp_scopeColumn (p_spec (w_projection obj))) (w_scope obj).

Lemma filter_hits_proj_changes obj t :
  base.filter (hits (key_of obj)) (tx_changes t) = proj_changes (w_projection obj) (w_scope obj) t.
Proof. apply list_filter_ext. done. Qed.

Lemma routes_key_iff h w k :
  registry_ok h →
  w ∈ routes_key (h_routes h) k ↔
  w ∈ h_watchers h ∧ ∃ obj, h_heap h !! w = Some obj ∧ key_of obj = k.
Proof.
  intros Hok. unfold routes_key. rewrite (reg_iff h Hok). unfold watches, key_of.
  split; intros (? & obj & ? & Hk); (split; [done|]); exists obj; (split; [done|]);
    destruct k; simpl in *; [destruct Hk as (-> & -> & ->)|injection Hk as <- <- <-]; done.
Qed.

(** The deliveries of a gathered scratch space reach every watcher once. *)
Lemma gathered_NoDup h F s :
  registry_ok h → gathered (h_routes h) F s → NoDup (mjoin (d_watchers <$> s_deliveries s)).
Proof.
  intros Hok ([Hlen Hnd _] & Hin & _). revert Hlen Hnd Hin.
  generalize (s_deliveryKeys s) as keys, (s_deliveries s) as ds. intros keys ds.
  revert keys. induction ds as [|d ds IH]; intros [|k keys] Hlen Hnd Hin; try done; [constructor|].
  apply NoDup_cons in Hnd as [Hk Hnd]. simpl.
  destruct (Hin 0%nat k d eq_refl eq_refl) as (Hw & _). apply NoDup_app. split; [|split].
  - rewrite Hw. apply (reg_nodup h Hok).
  - intros w Hwd (ws & Hww & Hws)%list_elem_of_join.
    apply list_elem_of_fmap in Hws as (d' & -> & [i Hi]%list_elem_of_lookup).
    assert (is_Some (keys !! i)) as [k' Hk'].
    { apply lookup_lt_is_Some. simpl in Hlen. apply lookup_lt_Some in Hi. lia. }
    destruct (Hin (S i) k' d' Hk' Hi) as (Hw' & _). rewrite Hw in Hwd. rewrite Hw' in Hww.
    apply routes_key_iff in Hwd as (_ & o1 & Ho1 & <-); [|done].
    apply routes_key_iff in Hww as (_ & o2 & Ho2 & <-); [|done]. simplify_eq.
    apply Hk. by eapply list_elem_of_lookup_2.
  - apply (IH keys); [by injection Hlen|done|]. intros i k' d'. apply (Hin (S i)).
Qed.

Lemma deliver_gathered_spec h t :
  registry_ok h → h_scratch h = empty_scratch →
  let h1 := set_scratch h (visit_changes (h_routes h) (h_scratch h) (tx_changes t)) in
  let h' := set_scratch (deliver_all h1 t (s_deliveries (h_scratch h1))) empty_scratch in
  core h' = core h ∧ marks h' = marks h ∧ registry_ok h' ∧
  ∀ w obj, h_heap h !! w = Some obj →
    let changes := proj_changes (w_projection obj) (w_scope obj) t in
    if decide (w ∈ h_watchers h ∧ changes ≠ [])
    then ∃ memo, offered h w obj (mkQueued t changes memo) h'
    else untouched h w h'.
Proof.
  intros Hok Hs. cbv zeta. simpl h_scratch. rewrite Hs.
  assert (gathered (h_routes h) (λ k, base.filter (hits k) (tx_changes t))
            (visit_changes (h_routes h) empty_scratch (tx_changes t))) as Hg.
  { apply (visit_changes_spec (h_routes h) (λ _, [])); [apply (reg_columns h Hok)|].
    split; [apply empty_scratch_ok|]. split; [|done]. intros i k d Hk. by destruct i. }
  set (s := visit_changes _ _ _) in *. set (h1 := set_scratch h s).
  assert (registry_ok h1) as Hok1 by (destruct Hok; by split).
  assert (∀ w, w ∈ mjoin (d_watchers <$> s_deliveries s) →
            ∃ obj, h_heap h !! w = Some obj ∧ w ∈ h_watchers h ∧
                   proj_changes (w_projection obj) (w_scope obj) t ≠ []) as Hjoin.
  { intros w (ws & Hww & (d & -> & [i Hi]%list_elem_of_lookup)%list_elem_of_fmap)%list_elem_of_join.
    destruct Hg as ([Hlen _ _] & Hin & _).
    destruct (lookup_lt_is_Some_2 (s_deliveryKeys s) i) as [k Hk].
    { rewrite <-Hlen. by eapply lookup_lt_Some. }
    destruct (Hin i k d Hk Hi) as (Hw & _ & _ & Hne). rewrite Hw in Hww.
    apply routes_key_iff in Hww as (Hreg & o & Ho & <-); [|done].
    exists o. split; [done|split; [done|]]. by rewrite <-filter_hits_proj_changes. }
  destruct (deliver_all_spec h1 t (s_deliveries s) Hok1) as (Hf & Hok' & Hall & Hun).
  { by apply (gathered_NoDup h (λ k, base.filter (hits k) (tx_changes t))). }
  { intros w Hw. by destruct (Hjoin w Hw) as (? & _ & ? & _). }
  split; [apply frame_core in Hf; unfold core in *; simpl in *; rewrite Hs; congruence|].
  split; [apply frame_marks in Hf; unfold marks in *; simpl in *; congruence|].
  split; [destruct Hok'; by split|].
  intros w obj Hw. destruct (decide (w ∈ h_watchers h ∧ _)) as [[Hreg Hne]|Hno].
  - destruct Hg as ([Hlen _ _] & Hin & Hkeys).
    assert (key_of obj ∈ s_deliveryKeys s) as [i Hi]%list_elem_of_lookup.
    { apply Hkeys; [|by rewrite filter_hits_proj_changes].
      intros E. assert (w ∈ routes_key (h_routes h) (key_of obj)) as Hwk by (apply routes_key_iff; eauto).
      rewrite E in Hwk. by apply elem_of_nil in Hwk. }
    destruct (lookup_lt_is_Some_2 (s_deliveries s) i) as [d Hd].
    { rewrite Hlen. by eapply lookup_lt_Some. }
    destruct (Hin i _ d Hi Hd) as (Hdw & _ & Hdc & _).
    destruct (Hall d) as [memo Hm]; [by eapply list_elem_of_lookup_2|].
    exists memo. rewrite <-filter_hits_proj_changes, <-Hdc.
    apply (Hm w obj); [|done]. rewrite Hdw. apply routes_key_iff; eauto.
  - apply Hun. intros Hw'. destruct (Hjoin w Hw') as (o & Ho & ? & ?). simplify_eq. by apply Hno.
Qed.
