(* ===== verification/HubWindow.v ===== *)
(** * The hub's replay window

    The ring, the received position, the eviction mark and the replay floor,
    against the history of every transaction the hub has accepted. *)

From S2P Require Import Prelude Errors CdcTypes Visibility Events Hub HubRegistry HubAccept.
Local Open Scope string_scope.
Local Open Scope list_scope.
Local Open Scope Z_scope.

(** ** Specification *)

(** A committed transaction of a source, as PostgreSQL streams it: its commit
    record starts before it ends. *)
Definition wf_tx (source : string) (t : Transaction) : Prop :=
  sourceID (tx_cursor t) = source ∧ tx_commitLSN t < lsn (tx_cursor t).

#[export] Instance wf_tx_dec source t : Decision (wf_tx source t) := _.

(** Commit order. *)
Definition tx_before (a b : Transaction) : Prop := lsn (tx_cursor a) < lsn (tx_cursor b).

(** What left the ring is at or before the eviction mark and the floor. *)
Definition evicted_ok (acc : list Transaction) (h : Hub) : Prop :=
  ∃ evicted, acc = evicted ++ h_ring h ∧
    (evicted ≠ [] → h_hasEvicted h = true) ∧
    (∀ t, t ∈ evicted → lsn (tx_cursor t) ≤ lsn (h_lastEvicted h)) ∧
    (h_hasFloor h = true → ∀ t, t ∈ evicted → lsn (tx_cursor t) ≤ lsn (h_floor h)).

(** The window against the accepted history [acc]: the ring is its newest
    part, and the eviction mark and the floor are at or after everything that
    left the ring. *)
Record window_ok (acc : list Transaction) (h : Hub) : Prop := {
  win_wf t : t ∈ acc → wf_tx (h_sourceID h) t;
  win_sorted : StronglySorted tx_before acc;
  win_received :
    match last acc with
    | None => h_hasReceived h = false
    | Some t => h_hasReceived h = true ∧ h_received h = tx_cursor t
    end;
  win_ring : evicted_ok acc h;
  win_evicted_source : h_hasEvicted h = true → sourceID (h_lastEvicted h) = h_sourceID h;
  win_floor_source : h_hasFloor h = true → sourceID (h_floor h) = h_sourceID h;
  win_size : zlen (h_ring h) ≤ h_maxReplay h;
  win_max : 0 ≤ h_maxReplay h
}.

(** [t] is accepted as new: after everything received. *)
Definition fresh (h : Hub) (t : Transaction) : Prop :=
  h_hasReceived h = true →
  sourceID (tx_cursor t) = sourceID (h_received h) ∧ lsn (h_received h) < lsn (tx_cursor t).

#[export] Instance fresh_dec h t : Decision (fresh h t) := _.

(** What the hub owes a watcher of [p] and [scope]: the transactions of a
    history that concern it and that its start point does not cover, as
    batches without their memo. *)
Definition batch_data (b : Batch) : Cursor * Z * list Change :=
  (b_cursor b, b_commitTime b, b_changes b).

Definition relevant (p : projection) (scope : string) (t : Transaction) : Prop :=
  proj_changes p scope t ≠ [].

#[export] Instance relevant_dec p scope t : Decision (relevant p scope t) := _.

Definition tx_data (p : projection) (scope : string) (t : Transaction) : Cursor * Z * list Change :=
  (tx_cursor t, tx_commitTime t, proj_changes p scope t).

(** The window only depends on the fields [core] and [marks] list. *)
Lemma window_ok_proper acc h h' :
  core h' = core h → marks h' = marks h → window_ok acc h → window_ok acc h'.
Proof.
  unfold core, marks. intros [= C1 C2 C3 C4 C5 C6 C7 C8 C9 C10 C11] [= M1 M2 M3 M4 M5].
  intros [W1 W2 W3 W4 W5 W6 W7 W8].
  split; unfold evicted_ok in *; rewrite ?C1, ?C3, ?C5, ?C6, ?C7, ?M1, ?M2, ?M3, ?M4; assumption.
Qed.

(** ** Lemmas on [later] *)

Lemma later_true a b : later a b = true ↔ sourceID a = sourceID b ∧ lsn b < lsn a.
Proof.
  unfold later. pose proof (Compare_spec a b) as H. destruct (Compare a b) as [o|e].
  - rewrite bool_decide_eq_true. intuition lia.
  - naive_solver.
Qed.

Lemma later_false a b : sourceID a = sourceID b → later a b = false → lsn a ≤ lsn b.
Proof.
  intros Hs Hl. destruct (decide (lsn b < lsn a)); [|lia].
  assert (later a b = true) by (by apply later_true). congruence.
Qed.

(** The later of two cursors of one source, as the code picks it. *)
Lemma later_max a b :
  sourceID a = sourceID b →
  lsn a ≤ lsn (if later a b then a else b) ∧ lsn b ≤ lsn (if later a b then a else b) ∧
  sourceID (if later a b then a else b) = sourceID b.
Proof.
  intros Hs. destruct (later a b) eqn:E.
  - apply later_true in E as [_ ?]. split; [lia|split; [lia|done]].
  - apply later_false in E; [|done]. split; [lia|split; [lia|done]].
Qed.

(** ** Sorted histories *)

Lemma sorted_snoc acc t :
  StronglySorted tx_before acc →
  (∀ u, last acc = Some u → tx_before u t) → StronglySorted tx_before (acc ++ [t]).
Proof.
  intros Hs Hl. induction Hs as [|a acc Hs IH Ha]; simpl; [repeat constructor|].
  constructor.
  - apply IH. intros u Hu. apply Hl. destruct acc; [done|exact Hu].
  - apply Forall_app. split; [done|]. constructor; [|constructor].
    destruct acc as [|b acc] using rev_ind; [by apply Hl|]. clear IHacc.
    assert (tx_before b t) as Hbt by (apply Hl; by rewrite app_comm_cons, last_snoc).
    apply Forall_app in Ha as [_ Ha]. apply Forall_cons in Ha as [Hab _].
    unfold tx_before in *. lia.
Qed.

Lemma sorted_last_max acc u t :
  StronglySorted tx_before acc → last acc = Some u → t ∈ acc →
  lsn (tx_cursor t) ≤ lsn (tx_cursor u).
Proof.
  intros Hs Hl [i Hi]%list_elem_of_lookup.
  apply last_Some in Hl as [acc' ->]. apply StronglySorted_app in Hs as (H1 & _ & _).
  apply lookup_app_Some in Hi as [Hi|[Hge Hi]].
  - specialize (H1 t u). unfold tx_before in H1. apply Z.lt_le_incl, H1.
    + by eapply list_elem_of_lookup_2.
    + by left.
  - apply list_lookup_singleton_Some in Hi as [_ <-]. lia.
Qed.

(** A fresh transaction comes after the whole history. *)
Lemma fresh_before acc h t : window_ok acc h → fresh h t → ∀ u, u ∈ acc → tx_before u t.
Proof.
  intros Hwin Hf u Hu. pose proof (win_received _ _ Hwin) as Hr.
  destruct (last acc) as [v|] eqn:Hl; [|by apply last_None in Hl as ->; apply elem_of_nil in Hu].
  destruct Hr as [Hr1 Hr2]. destruct (Hf Hr1) as [_ Hlt]. rewrite Hr2 in Hlt.
  pose proof (sorted_last_max acc v u (win_sorted _ _ Hwin) Hl Hu). unfold tx_before. lia.
Qed.

(** ** Eviction *)

Lemma window_evict acc h :
  zlen (h_ring h) > h_maxReplay h →
  (∀ t, t ∈ acc → wf_tx (h_sourceID h) t) → StronglySorted tx_before acc →
  evicted_ok acc h →
  (h_hasFloor h = true → sourceID (h_floor h) = h_sourceID h) →
  0 ≤ h_maxReplay h →
  let h' := evictLocked h in
  evicted_ok acc h' ∧
  (h_hasEvicted h' = true → sourceID (h_lastEvicted h') = h_sourceID h') ∧
  (h_hasFloor h' = true → sourceID (h_floor h') = h_sourceID h') ∧
  S (length (h_ring h')) = length (h_ring h) ∧ h_sourceID h' = h_sourceID h ∧
  h_maxReplay h' = h_maxReplay h ∧ h_hasReceived h' = h_hasReceived h ∧ h_received h' = h_received h.
Proof.
  intros Hlen Hwf Hs (evicted & Hacc & Hhe & Hle & Hfl) Hfs Hmax. cbv zeta.
  destruct (h_ring h) as [|oldest ring] eqn:Hr; [unfold zlen in Hlen; simpl in Hlen; lia|].
  assert (sourceID (tx_cursor oldest) = h_sourceID h) as Hsrc.
  { apply Hwf. rewrite Hacc. apply elem_of_app. right. by left. }
  assert (∀ t, t ∈ evicted ++ [oldest] → lsn (tx_cursor t) ≤ lsn (tx_cursor oldest)) as Hold.
  { intros t [Ht| ->%list_elem_of_singleton]%elem_of_app; [|lia].
    rewrite Hacc in Hs. apply StronglySorted_app in Hs as (H1 & _ & _).
    specialize (H1 t oldest Ht ltac:(by left)). unfold tx_before in H1. lia. }
  unfold evictLocked. rewrite Hr. simpl.
  destruct (h_hasFloor h) eqn:Hf; simpl.
  - pose proof (later_max (tx_cursor oldest) (h_floor h) ltac:(by rewrite Hfs, Hsrc)) as Hm.
    revert Hm. destruct (later (tx_cursor oldest) (h_floor h)); intros (Hm1 & Hm2 & Hm3); simpl;
      rewrite ?Hf; (split; [|by repeat split; auto; congruence]);
      exists (evicted ++ [oldest]); (split; [by rewrite <-app_assoc|]);
      (split; [done|]); (split; [done|]); intros _ t Ht;
      specialize (Hold t Ht); simpl; lia.
  - rewrite Hf. split; [|by repeat split; auto].
    exists (evicted ++ [oldest]). split; [by rewrite <-app_assoc|].
    split; [done|]. split; [done|]. simpl. by rewrite Hf.
Qed.

Lemma evict_loop_window fuel acc h :
  (length (h_ring h) ≤ fuel)%nat →
  (∀ t, t ∈ acc → wf_tx (h_sourceID h) t) → StronglySorted tx_before acc →
  evicted_ok acc h →
  (h_hasEvicted h = true → sourceID (h_lastEvicted h) = h_sourceID h) →
  (h_hasFloor h = true → sourceID (h_floor h) = h_sourceID h) →
  0 ≤ h_maxReplay h →
  match last acc with
  | None => h_hasReceived h = false
  | Some t => h_hasReceived h = true ∧ h_received h = tx_cursor t
  end →
  window_ok acc (evict_loop fuel h).
Proof.
  revert h. induction fuel as [|fuel IH]; intros h Hfuel Hwf Hs Hev Hes Hfs Hmax Hrec; simpl.
  { split; try done. unfold zlen. destruct (h_ring h); simpl in *; lia. }
  destruct (decide _) as [Hlen|Hlen]; [|split; try done; lia].
  destruct (window_evict acc h Hlen Hwf Hs Hev Hfs Hmax)
    as (Hev' & Hes' & Hfs' & Hl & Hsrc & Hmr & Hhr & Hrc).
  apply IH; rewrite ?Hsrc, ?Hmr, ?Hhr, ?Hrc; auto; try lia; rewrite <-Hsrc; auto.
Qed.

(** ** Invalidation and snapshots *)

Lemma set_floor_id h b : h_hasFloor h = b → set_floor h (h_floor h) b = h.
Proof. intros <-. by destruct h. Qed.

Lemma invalidateLocked_window acc h table cursor :
  registry_ok h → window_ok acc h → sourceID cursor = h_sourceID h →
  window_ok acc (invalidateLocked h table cursor).
Proof.
  intros Hok [Hwf Hs Hrec (evicted & Hacc & Hhe & Hle & Hfl) Hes Hfs Hsz Hmx] Hc.
  unfold invalidateLocked. cbv zeta. set (h0 := set_stale h _).
  assert (registry_ok h0) as Hok0 by (by apply (registry_ok_proper h)).
  destruct (invalidate_fold_spec table (elements (h_watchers h0)) h0 Hok0 (NoDup_elements _))
    as (Hf & _ & _).
  set (h1 := foldl _ h0 _) in *. clearbody h1.
  apply frame_core in Hf as Hcore. apply frame_marks in Hf as Hmarks.
  unfold core, marks in Hcore, Hmarks. simpl in Hcore, Hmarks.
  injection Hcore as E1 _ E3 _ E5 E6 E7 _ _ _ _. injection Hmarks as M1 M2 M3 M4 _.
  rewrite <-?E1, <-?E3, <-?E5, <-?E6, <-?E7, <-?M1, <-?M2, <-?M3, <-?M4 in *.
  clear Hf E1 E3 E5 E6 E7 M1 M2 M3 M4.
  assert (∃ floor, (if h_hasFloor h1 && later cursor (h_floor h1)
            then set_floor h1 cursor true else h1) = set_floor h1 floor (h_hasFloor h1) ∧
          (h_hasFloor h1 = true → lsn (h_floor h1) ≤ lsn floor ∧ sourceID floor = h_sourceID h1))
    as (floor & -> & Hfloor).
  { destruct (h_hasFloor h1) eqn:Ef; simpl; [|by exists (h_floor h1); rewrite set_floor_id].
    pose proof (later_max cursor (h_floor h1) ltac:(by rewrite Hc, Hfs)) as Hm. revert Hm.
    destruct (later _ _); intros (? & ? & ?);
      [exists cursor; split; [done|]|exists (h_floor h1); rewrite set_floor_id by done; split; [done|]];
      intros _; rewrite <-Hfs by done; split; (lia || congruence). }
  assert (∃ mark b, (if negb (h_hasEvicted (set_floor h1 floor (h_hasFloor h1)))
              || later cursor (h_lastEvicted (set_floor h1 floor (h_hasFloor h1)))
            then set_lastEvicted (set_floor h1 floor (h_hasFloor h1)) cursor
            else set_floor h1 floor (h_hasFloor h1))
          = set_floor (if b : bool then set_lastEvicted h1 mark else h1) floor (h_hasFloor h1) ∧
          (if b then sourceID mark = h_sourceID h1 ∧
             (h_hasEvicted h1 = true → lsn (h_lastEvicted h1) ≤ lsn mark) else True))
    as (mark & b & -> & Hmark).
  { simpl. destruct (h_hasEvicted h1) eqn:Ee; simpl; [|by exists cursor, true].
    destruct (later cursor (h_lastEvicted h1)) eqn:El; [|by exists cursor, false].
    exists cursor, true. split; [done|]. split; [done|]. intros _. apply later_true in El. lia. }
  destruct b; simpl.
  - destruct Hmark as [Hm1 Hm2]. split; simpl; try done.
    + exists evicted. split; [done|]. split; [done|]. split.
      * intros t Ht. specialize (Hle t Ht). destruct evicted; [by apply elem_of_nil in Ht|].
        specialize (Hm2 (Hhe ltac:(done))). simpl. lia.
      * simpl. intros Hf t Ht. specialize (Hfl Hf t Ht). destruct (Hfloor Hf). lia.
    + intros Hf. by destruct (Hfloor Hf).
  - split; simpl; try done.
    + exists evicted. split; [done|]. split; [done|]. split; [done|].
      simpl. intros Hf t Ht. specialize (Hfl Hf t Ht). destruct (Hfloor Hf). lia.
    + intros Hf. by destruct (Hfloor Hf).
Qed.

Lemma invalidate_all_window acc incs cursor h :
  registry_ok h → window_ok acc h → sourceID cursor = h_sourceID h →
  window_ok acc (foldl (λ h inc, invalidateLocked h (inc_table inc) cursor) h incs).
Proof.
  revert h. induction incs as [|inc incs IH]; intros h Hok Hwin Hc; cbn [foldl]; [done|].
  destruct (invalidateLocked_spec h (inc_table inc) cursor Hok) as (Hcore & Hok' & _).
  apply IH; [done|by apply invalidateLocked_window|].
  rewrite Hc. unfold core in Hcore. congruence.
Qed.

Lemma recordSnapshotLocked_window acc h cursor :
  window_ok acc h → sourceID cursor = h_sourceID h →
  window_ok acc (recordSnapshotLocked h cursor).
Proof.
  intros Hwin Hc. unfold recordSnapshotLocked. destruct (h_hasFloor h) eqn:Hf; [done|].
  destruct Hwin as [Hwf Hs Hrec (evicted & Hacc & Hhe & Hle & Hfl) Hes Hfs Hsz Hmx].
  assert (∀ t, t ∈ evicted → lsn (tx_cursor t) ≤
            lsn (if h_hasEvicted h && later (h_lastEvicted h) cursor then h_lastEvicted h else cursor)) as Hfl'.
  { intros t Ht. specialize (Hle t Ht). destruct evicted; [by apply elem_of_nil in Ht|].
    rewrite Hhe by done. simpl.
    pose proof (later_max (h_lastEvicted h) cursor) as Hm. rewrite Hes, Hc in Hm by (by apply Hhe).
    specialize (Hm eq_refl). destruct (later _ _); lia. }
  split; simpl; try done; [by exists evicted|].
  intros _. destruct (h_hasEvicted h) eqn:He; simpl; [|done]. destruct (later _ _); auto.
Qed.
