(* ===== verification/HubProps.v ===== *)
(** * What the hub guarantees at each locked step

    The whole of [Accept], [resume]'s replay and the replay window, as
    theorems on the definitions of internal/watch/hub.go. *)

From S2P Require Import Prelude Errors CdcTypes Visibility Events Hub HubRegistry HubAccept HubWindow.
Local Open Scope string_scope.
Local Open Scope list_scope.
Local Open Scope Z_scope.

(** ** Invariant *)

(** Between locked sections the index agrees with the registered set and the
    delivery scratch space is empty. *)
Definition hub_ok (h : Hub) : Prop := registry_ok h ∧ h_scratch h = empty_scratch.

(** What accepting a transaction does to one watcher, without the index. *)
Definition accept_fate (h : Hub) (t : Transaction) (w : wid) (obj : watcher) (h' : Hub) : Prop :=
  let changes := proj_changes (w_projection obj) (w_scope obj) t in
  if decide (w ∉ h_watchers h) then untouched h w h'
  else if decide (p_table (w_projection obj) ∈ inc_table <$> tx_incompatible t)
  then ended h w obj ResyncSchemaChanged h'
  else if decide (changes = []) then untouched h w h'
  else ∃ memo, offered h w obj (mkQueued t changes memo) h'.

(** [Accept] up to the eviction loop. *)
Definition accept_record (h : Hub) (t : Transaction) : Hub * option nat :=
  let h := set_received h (tx_cursor t) in
  let '(h, tick) :=
    if h_tickTaken h then (set_tick h (S (h_tick h)) false, Some (h_tick h)) else (h, None) in
  let h := set_ring h (h_ring h ++ [t]) in
  (evict_loop (length (h_ring h)) h, tick).

(** ** Phases of Accept *)

(** Fields the eviction loop leaves alone, next to the registry. *)
Definition fixed (h : Hub) :=
  (h_sourceID h, h_projections h, h_maxReplay h, h_queueSize h, h_received h,
   h_hasReceived h, h_tick h, h_tickTaken h, h_stopped h).

Lemma evict_loop_fixed fuel h : fixed (evict_loop fuel h) = fixed h.
Proof.
  revert h. induction fuel as [|fuel IH]; intros h; simpl; [done|].
  destruct (decide _); [|done]. rewrite IH. unfold evictLocked.
  destruct (h_ring h); [done|]. simpl. by destruct (_ && _).
Qed.

Lemma core_fixed h h' : core h' = core h → fixed h' = fixed h.
Proof. unfold core, fixed. congruence. Qed.

Lemma accept_record_spec h t :
  registry (accept_record h t).1 = registry h ∧
  fixed (accept_record h t).1 =
    (h_sourceID h, h_projections h, h_maxReplay h, h_queueSize h, tx_cursor t, true,
     if h_tickTaken h then S (h_tick h) else h_tick h, false, h_stopped h) ∧
  (accept_record h t).2 = (if h_tickTaken h then Some (h_tick h) else None).
Proof.
  unfold accept_record. simpl. destruct (h_tickTaken h) eqn:Ht;
    cbn [fst snd]; rewrite evict_loop_registry, evict_loop_fixed;
    (split; [done|split; [|done]]); unfold fixed; simpl; by rewrite ?Ht.
Qed.

Lemma accept_record_window acc h t :
  window_ok acc h → wf_tx (h_sourceID h) t → fresh h t →
  window_ok (acc ++ [t]) (accept_record h t).1.
Proof.
  intros [Hwf Hs Hrec (evicted & Hacc & Hhe & Hle & Hfl) Hes Hfs Hsz Hmx] Ht Hfresh.
  unfold accept_record. simpl.
  set (h1 := if h_tickTaken h then _ else _).
  assert (evicted_ok (acc ++ [t]) (set_ring h1.1 (h_ring h1.1 ++ [t]))) as Hev.
  { exists evicted. subst h1. destruct (h_tickTaken h); simpl;
      rewrite Hacc, app_assoc; repeat split; done. }
  assert (StronglySorted tx_before (acc ++ [t])) as Hsort.
  { apply sorted_snoc; [done|]. intros u Hu. rewrite Hu in Hrec. destruct Hrec as [Hhr Hr].
    destruct (Hfresh Hhr) as [_ Hlt]. rewrite Hr in Hlt. exact Hlt. }
  assert (∀ u, u ∈ acc ++ [t] → wf_tx (h_sourceID h) u) as Hwf'.
  { intros u [Hu|Hu]%elem_of_app; [by apply Hwf|]. by apply list_elem_of_singleton in Hu as ->. }
  subst h1. destruct (h_tickTaken h); simpl in *;
    (apply evict_loop_window; simpl; [lia|done|done|done|done|done|done|by rewrite last_snoc]).
Qed.

(** The schema-change and delivery phases of [Accept]. *)
Definition accept_invalidate (h : Hub) (t : Transaction) : Hub :=
  foldl (λ h inc, invalidateLocked h (inc_table inc) (tx_cursor t)) h (tx_incompatible t).

Definition accept_deliver (h : Hub) (t : Transaction) : Hub :=
  let h1 := set_scratch h (visit_changes (h_routes h) (h_scratch h) (tx_changes t)) in
  set_scratch (deliver_all h1 t (s_deliveries (h_scratch h1))) empty_scratch.

Lemma accept_new_phases h t :
  accept_new h t = (accept_deliver (accept_invalidate (accept_record h t).1 t) t, (accept_record h t).2).
Proof.
  unfold accept_new, accept_record, accept_deliver, accept_invalidate. simpl.
  by destruct (h_tickTaken h).
Qed.

Lemma accept_new_spec h t :
  hub_ok h →
  let h' := (accept_new h t).1 in
  hub_ok h' ∧
  fixed h' = (h_sourceID h, h_projections h, h_maxReplay h, h_queueSize h, tx_cursor t, true,
              if h_tickTaken h then S (h_tick h) else h_tick h, false, h_stopped h) ∧
  (accept_new h t).2 = (if h_tickTaken h then Some (h_tick h) else None) ∧
  (∀ acc, window_ok acc h → wf_tx (h_sourceID h) t → fresh h t → window_ok (acc ++ [t]) h') ∧
  ∀ w obj, h_heap h !! w = Some obj → accept_fate h t w obj h'.
Proof.
  intros [Hreg Hscr]. cbv zeta. rewrite accept_new_phases. simpl.
  destruct (accept_record_spec h t) as (R1 & R2 & R3).
  pose proof (λ acc, accept_record_window acc h t) as R4.
  set (h1 := (accept_record h t).1) in *.
  assert (registry_ok h1) as Hreg1 by (by apply (registry_ok_proper h)).
  destruct (invalidate_all_spec (tx_incompatible t) (tx_cursor t) h1 Hreg1) as (I1 & I2 & I3).
  fold (accept_invalidate h1 t) in I1, I2, I3. set (h2 := accept_invalidate h1 t) in *.
  assert (h_scratch h1 = empty_scratch) as S1 by (unfold registry in R1; congruence).
  assert (h_scratch h2 = empty_scratch) as S2 by (unfold core in I1; congruence).
  destruct (deliver_gathered_spec h2 t I2 S2) as (D1 & D2 & D3 & D4).
  change (set_scratch _ empty_scratch) with (accept_deliver h2 t) in D1, D2, D3, D4.
  set (h3 := accept_deliver h2 t) in *.
  split; [split; [done|unfold core in *; congruence]|].
  split; [by rewrite (core_fixed h2 h3), (core_fixed h1 h2)|].
  split; [done|]. split.
  - intros acc Hw Ht Hf. specialize (R4 acc Hw Ht Hf).
    assert (window_ok (acc ++ [t]) h2) as W2.
    { apply invalidate_all_window; [done|done|]. destruct Ht as [-> _].
      unfold fixed in R2. congruence. }
    by apply (window_ok_proper _ h2).
  - intros w obj Hw. assert (h_watchers h1 = h_watchers h ∧ h_heap h1 = h_heap h ∧
      h_queueSize h1 = h_queueSize h) as (Ew & Eh & Eq) by (unfold registry in R1; naive_solver).
    assert (h_queueSize h2 = h_queueSize h) as Eq2 by (unfold core in I1; congruence).
    specialize (I3 w obj). rewrite Eh, Ew in I3. specialize (I3 Hw).
    unfold accept_fate. cbv zeta.
    destruct (decide (w ∉ h_watchers h)) as [Hn|Hn]; [|apply dec_stable in Hn].
    { rewrite decide_False in I3 by naive_solver. destruct I3 as [A B]. rewrite Ew, Eh in *.
      specialize (D4 w obj). rewrite B in D4. specialize (D4 Hw).
      rewrite decide_False in D4 by naive_solver. destruct D4 as [P Q].
      split; [by rewrite P, A|by rewrite Q, B]. }
    destruct (decide (_ ∈ _)) as [Hi|Hi].
    + rewrite decide_True in I3 by done. destruct I3 as [A B].
      specialize (D4 w _ B). rewrite decide_False in D4 by naive_solver.
      destruct D4 as [P Q]. split; [by rewrite P|by rewrite Q].
    + rewrite decide_False in I3 by naive_solver. destruct I3 as [A B]. rewrite Ew, Eh in *.
      rewrite Hw in B. specialize (D4 w obj B). simpl in D4.
      destruct (decide (_ = [])) as [Hc|Hc].
      * rewrite decide_False in D4 by naive_solver. destruct D4 as [P Q].
        split; [by rewrite P, A|by rewrite Q, B].
      * rewrite decide_True in D4 by (split; [by apply A|done]). destruct D4 as [memo D4].
        exists memo. unfold offered in *. by rewrite Eq2 in D4.
Qed.

(** Accepting never registers a watcher. *)
Lemma endLocked_watchers h w r : h_watchers (endLocked h w r) ⊆ h_watchers h.
Proof.
  unfold endLocked, removeLocked. destruct (decide _); [|done].
  destruct (h_heap h !! w); [|done]. unfold routeLocked.
  destruct (find_route _ _); simpl; set_solver.
Qed.

Lemma offer_all_watchers h item ws : h_watchers (offer_all h item ws) ⊆ h_watchers h.
Proof.
  revert h. induction ws as [|w ws IH]; intros h; simpl; [done|].
  etrans; [apply IH|]. unfold offer. destruct (h_heap h !! w); [|done].
  destruct (decide _); [done|apply endLocked_watchers].
Qed.

Lemma deliver_all_watchers h t ds : h_watchers (deliver_all h t ds) ⊆ h_watchers h.
Proof.
  unfold deliver_all. revert h. induction ds as [|d ds IH]; intros h; simpl; [done|].
  etrans; [apply IH|]. unfold deliver. by destruct (decide _); rewrite offer_all_watchers.
Qed.

Lemma invalidateLocked_watchers h table c : h_watchers (invalidateLocked h table c) ⊆ h_watchers h.
Proof.
  unfold invalidateLocked. cbv zeta.
  assert (∀ ws h, h_watchers (foldl (invalidate_one table) h ws) ⊆ h_watchers h) as Hfold.
  { intros ws. induction ws as [|w ws IH]; intros h'; cbn [foldl]; [done|].
    etrans; [apply IH|]. unfold invalidate_one. destruct (h_heap h' !! w); [|done].
    destruct (decide _); [apply endLocked_watchers|done]. }
  etrans; [|apply (Hfold (elements (h_watchers (set_stale h ({[table]} ∪ h_stale h))))
                     (set_stale h ({[table]} ∪ h_stale h)))].
  set (h1 := foldl _ _ _). clearbody h1. destruct (_ && _); simpl; by destruct (_ || _).
Qed.

Lemma accept_new_watchers h t : h_watchers (accept_new h t).1 ⊆ h_watchers h.
Proof.
  rewrite accept_new_phases. simpl. unfold accept_deliver. simpl.
  etrans; [apply deliver_all_watchers|]. simpl.
  assert (h_watchers (accept_record h t).1 = h_watchers h) as <-.
  { destruct (accept_record_spec h t) as (R & _). unfold registry in R. congruence. }
  unfold accept_invalidate. generalize (accept_record h t).1. intros h1. revert h1.
  induction (tx_incompatible t) as [|inc incs IH]; intros h1; cbn [foldl]; [done|].
  etrans; [apply IH|apply invalidateLocked_watchers].
Qed.

(** ** The replay floor *)

(** The floor, once set, only moves forward. *)
Definition floor_le (h h' : Hub) : Prop :=
  h_hasFloor h = true → h_hasFloor h' = true ∧ lsn (h_floor h) ≤ lsn (h_floor h').

#[export] Instance floor_le_preorder : PreOrder floor_le.
Proof.
  split; [by intros h ?|]. intros h1 h2 h3 H12 H23 Hf.
  destruct (H12 Hf) as [Hf2 ?]. destruct (H23 Hf2). split; [done|lia].
Qed.

Lemma marks_floor_le h h' : marks h' = marks h → floor_le h h'.
Proof. unfold marks, floor_le. intros [= -> -> _ _ _] ?. done. Qed.

Lemma later_floor_le h c :
  floor_le h (if h_hasFloor h && later c (h_floor h) then set_floor h c true else h).
Proof.
  intros Hf. rewrite Hf. simpl. destruct (later c (h_floor h)) eqn:El; [|done].
  apply later_true in El. simpl. split; [done|lia].
Qed.

Lemma evict_loop_floor fuel h : floor_le h (evict_loop fuel h).
Proof.
  revert h. induction fuel as [|fuel IH]; intros h; simpl; [done|].
  destruct (decide _); [|done]. etrans; [|apply IH]. unfold evictLocked.
  destruct (h_ring h) as [|t ring]; [done|].
  exact (later_floor_le (set_lastEvicted (set_ring h ring) (tx_cursor t)) (tx_cursor t)).
Qed.

Lemma invalidateLocked_floor h table c : registry_ok h → floor_le h (invalidateLocked h table c).
Proof.
  intros Hok. unfold invalidateLocked. cbv zeta. set (h0 := set_stale h _).
  assert (registry_ok h0) as Hok0 by (by apply (registry_ok_proper h)).
  destruct (invalidate_fold_spec table (elements (h_watchers h0)) h0 Hok0 (NoDup_elements _))
    as (Hf & _ & _).
  set (h1 := foldl _ h0 _) in *. clearbody h1.
  apply frame_marks in Hf. trans h1; [exact (marks_floor_le h0 h1 Hf)|].
  etrans; [apply (later_floor_le h1 c)|]. set (h2 := if _ && _ then _ else h1).
  destruct (_ || _); done.
Qed.

Lemma accept_new_floor h t : hub_ok h → floor_le h (accept_new h t).1.
Proof.
  intros [Hreg Hscr]. rewrite accept_new_phases. simpl.
  destruct (accept_record_spec h t) as (R1 & _ & _).
  trans (accept_record h t).1.
  { unfold accept_record. simpl. destruct (h_tickTaken h); (etrans; [|apply evict_loop_floor]); done. }
  set (h1 := (accept_record h t).1) in *.
  assert (registry_ok h1) as Hreg1 by (by apply (registry_ok_proper h)).
  destruct (invalidate_all_spec (tx_incompatible t) (tx_cursor t) h1 Hreg1) as (I1 & I2 & _).
  fold (accept_invalidate h1 t) in I1, I2.
  trans (accept_invalidate h1 t).
  - unfold accept_invalidate. clearbody h1. clear -Hreg1. revert h1 Hreg1.
    induction (tx_incompatible t) as [|inc incs IH]; intros h1 Hreg1; cbn [foldl]; [done|].
    etrans; [by apply invalidateLocked_floor|]. apply IH.
    by destruct (invalidateLocked_spec h1 (inc_table inc) (tx_cursor t) Hreg1) as (_ & ? & _).
  - assert (h_scratch (accept_invalidate h1 t) = empty_scratch) as S2
      by (unfold core, registry in *; congruence).
    destruct (deliver_gathered_spec _ t I2 S2) as (_ & D2 & _). by apply marks_floor_le.
Qed.

(** ** Schema changes *)

(** The hub knows that [table] changed its shape at [c]: it is stale, and the
    floor and the eviction mark are not before the change. *)
Definition changed_at (h : Hub) (table : string) (c : Cursor) : Prop :=
  table ∈ h_stale h ∧ (h_hasFloor h = true → lsn c ≤ lsn (h_floor h)) ∧
  h_hasEvicted h = true ∧ lsn c ≤ lsn (h_lastEvicted h).

Lemma changed_at_marks h h' table c : marks h' = marks h → changed_at h table c → changed_at h' table c.
Proof. unfold marks, changed_at. by intros [= -> -> -> -> ->]. Qed.

Lemma invalidateLocked_changed acc h table c :
  registry_ok h → window_ok acc h → sourceID c = h_sourceID h →
  changed_at (invalidateLocked h table c) table c ∧
  ∀ other, changed_at h other c → changed_at (invalidateLocked h table c) other c.
Proof.
  intros Hok Hwin Hc. unfold invalidateLocked. cbv zeta. set (h0 := set_stale h _).
  assert (registry_ok h0) as Hok0 by (by apply (registry_ok_proper h)).
  destruct (invalidate_fold_spec table (elements (h_watchers h0)) h0 Hok0 (NoDup_elements _)) as (Hf & _ & _).
  set (h1 := foldl _ h0 _) in *. clearbody h1. apply frame_marks in Hf. unfold marks in Hf.
  injection Hf as Hfl Hhf Hle Hhe Hst. unfold h0 in *. simpl in *. rewrite Hhf, Hfl.
  assert (h_hasFloor h = true → later c (h_floor h) = false → lsn c ≤ lsn (h_floor h)) as Hfloor.
  { intros Hh. apply later_false. by rewrite (win_floor_source _ _ Hwin Hh). }
  assert (h_hasEvicted h = true → later c (h_lastEvicted h) = false → lsn c ≤ lsn (h_lastEvicted h)) as Hmark.
  { intros Hh. apply later_false. by rewrite (win_evicted_source _ _ Hwin Hh). }
  set (h2 := if _ && _ then _ else h1).
  assert (h_stale h2 = {[table]} ∪ h_stale h ∧ h_lastEvicted h2 = h_lastEvicted h ∧ h_hasEvicted h2 = h_hasEvicted h ∧
    (h_hasFloor h2 = true → lsn c ≤ lsn (h_floor h2))) as (E1 & E2 & E3 & E4).
  { subst h2. destruct (h_hasFloor h) eqn:Eh; simpl; [|rewrite Hhf; by split_and!].
    destruct (later c (h_floor h)) eqn:El; simpl; split_and!; try done. intros _. rewrite Hfl. by apply Hfloor. }
  rewrite E2, E3. unfold changed_at.
  destruct (h_hasEvicted h) eqn:Ee; simpl; [|split; [|intros other (_ & _ & ? & _)]; split_and!; rewrite ?E1; done || set_solver].
  destruct (later c (h_lastEvicted h)) eqn:El; simpl;
    (split; [|intros other (Ho & _ & _ & _)]; split_and!; rewrite ?E1, ?E2, ?E3; try done; try set_solver; by apply Hmark).
Qed.

Lemma invalidate_all_changed acc incs c h :
  registry_ok h → window_ok acc h → sourceID c = h_sourceID h →
  let h' := foldl (λ h inc, invalidateLocked h (inc_table inc) c) h incs in
  (∀ inc, inc ∈ incs → changed_at h' (inc_table inc) c) ∧ ∀ other, changed_at h other c → changed_at h' other c.
Proof.
  cbv zeta. revert h. induction incs as [|inc incs IH]; intros h Hok Hwin Hc; cbn [foldl];
    [split; [by intros inc ?%elem_of_nil|done]|].
  destruct (invalidateLocked_spec h (inc_table inc) c Hok) as (Hcore & Hok' & _).
  destruct (invalidateLocked_changed acc h (inc_table inc) c Hok Hwin Hc) as [H1 H2].
  destruct (IH (invalidateLocked h (inc_table inc) c)) as [H3 H4]; [done|by apply invalidateLocked_window| |].
  { rewrite Hc. unfold core in Hcore. congruence. }
  split; [|auto]. intros i [->|Hi]%elem_of_cons; auto.
Qed.

Lemma accept_new_changed acc h t inc :
  hub_ok h → window_ok acc h → wf_tx (h_sourceID h) t → fresh h t → inc ∈ tx_incompatible t →
  changed_at (accept_new h t).1 (inc_table inc) (tx_cursor t).
Proof.
  intros [Hreg Hscr] Hwin Hwf Hf Hin. rewrite accept_new_phases. simpl.
  destruct (accept_record_spec h t) as (R1 & R2 & _). pose proof (accept_record_window acc h t Hwin Hwf Hf) as R4.
  set (h1 := (accept_record h t).1) in *.
  assert (registry_ok h1) as Hreg1 by (by apply (registry_ok_proper h)).
  destruct (invalidate_all_spec (tx_incompatible t) (tx_cursor t) h1 Hreg1) as (I1 & I2 & _).
  fold (accept_invalidate h1 t) in I1, I2.
  assert (h_scratch (accept_invalidate h1 t) = empty_scratch) as S2 by (unfold core, registry in *; congruence).
  destruct (deliver_gathered_spec _ t I2 S2) as (_ & D2 & _).
  apply (changed_at_marks (accept_invalidate h1 t)); [exact D2|].
  apply (proj1 (invalidate_all_changed (acc ++ [t]) (tx_incompatible t) (tx_cursor t) h1 Hreg1 R4
    ltac:(destruct Hwf as [-> _]; unfold fixed in R2; congruence)) inc Hin).
Qed.

(** ** Replaying the ring *)

Lemma appendBatch_data obj batches t :
  batch_data <$> appendBatch obj batches t =
  (batch_data <$> batches) ++
  (tx_data (w_projection obj) (w_scope obj) <$>
     base.filter (relevant (w_projection obj) (w_scope obj)) [t]).
Proof.
  unfold appendBatch. rewrite filter_cons, filter_nil.
  destruct (decide (relevant _ _ t)) as [Hr|Hr]; unfold relevant in Hr.
  - rewrite decide_True by (by destruct (proj_changes _ _ t); simpl; [|lia]).
    by rewrite fmap_app.
  - apply dec_stable in Hr. rewrite Hr. simpl. by rewrite app_nil_r.
Qed.

Lemma backlog_loop_spec obj c ring backlog :
  (∀ t, t ∈ ring → sourceID (tx_cursor t) = sourceID c) →
  ∃ bs, backlog_loop obj c ring backlog = Ok bs ∧
    batch_data <$> bs = (batch_data <$> backlog) ++
      (tx_data (w_projection obj) (w_scope obj) <$>
         base.filter (λ t, lsn c ≤ tx_commitLSN t ∧ relevant (w_projection obj) (w_scope obj) t) ring).
Proof.
  revert backlog. induction ring as [|t ring IH]; intros backlog Hsrc; cbn [backlog_loop].
  { exists backlog. by rewrite filter_nil, app_nil_r. }
  unfold After. rewrite decide_False by (intros H; by apply H, Hsrc; left). simpl.
  destruct (IH (if bool_decide (lsn c ≤ tx_commitLSN t) then appendBatch obj backlog t else backlog))
    as (bs & Hbs & Hdata); [intros u Hu; apply Hsrc; by right|].
  exists bs. split; [done|]. rewrite Hdata, filter_cons. case_bool_decide.
  - rewrite appendBatch_data, <-app_assoc, <-fmap_app, filter_cons, filter_nil.
    destruct (decide (relevant _ _ t)).
    + by rewrite decide_True.
    + by rewrite decide_False by naive_solver.
  - by rewrite decide_False by naive_solver.
Qed.

Lemma replayable_spec h c :
  replayableLocked h c = true ↔
  h_hasFloor h = true ∧ sourceID c = sourceID (h_floor h) ∧ lsn (h_floor h) ≤ lsn c.
Proof.
  unfold replayableLocked. destruct (h_hasFloor h); [|naive_solver].
  pose proof (Compare_spec c (h_floor h)) as HC. destruct (Compare c (h_floor h)).
  - rewrite bool_decide_eq_true. intuition lia.
  - naive_solver.
Qed.

(** Nothing before the ring is needed from a replayable cursor. *)
Lemma window_replay acc h p scope c :
  window_ok acc h → replayableLocked h c = true →
  base.filter (λ t, lsn c ≤ tx_commitLSN t ∧ relevant p scope t) acc =
  base.filter (λ t, lsn c ≤ tx_commitLSN t ∧ relevant p scope t) (h_ring h).
Proof.
  intros Hwin (Hf & _ & Hc)%replayable_spec.
  destruct (win_ring _ _ Hwin) as (evicted & Hacc & _ & _ & Hfl).
  rewrite Hacc, filter_app, list_filter_none; [done|].
  apply Forall_forall. intros t Ht [Hafter _]. specialize (Hfl Hf t Ht).
  destruct (win_wf _ _ Hwin t) as [_ Hlt]; [rewrite Hacc; apply elem_of_app; by left|]. lia.
Qed.

(** The replay of [resume], against the whole accepted history. *)
Definition resume_spec (acc : list Transaction) (h : Hub) (w : wid) (obj : watcher) (c : Cursor)
    (r : resumed) : Prop :=
  match r with
  | ResumeRefused reason =>
      if decide (p_table (w_projection obj) ∈ h_stale h) then reason = ResyncSchemaChanged
      else reason = ResyncCursorUnavailable ∧
           ¬ (h_hasFloor h = true ∧ sourceID c = h_sourceID h ∧ lsn (h_floor h) ≤ lsn c)
  | ResumeFailed _ => False
  | Resumed h' backlog =>
      h' = registerLocked h w ∧ sourceID c = h_sourceID h ∧
      batch_data <$> backlog =
        tx_data (w_projection obj) (w_scope obj) <$>
          base.filter (λ t, lsn c ≤ tx_commitLSN t ∧
                            relevant (w_projection obj) (w_scope obj) t) acc
  end.

Lemma resume_locked_spec acc h w obj c :
  window_ok acc h → resume_spec acc h w obj c (resume_locked h w obj c).
Proof.
  intros Hwin. unfold resume_locked. destruct (decide (_ ∈ h_stale h)); [simpl; by rewrite decide_True|].
  destruct (replayableLocked h c) eqn:Hrep; simpl.
  - pose proof (window_replay acc h (w_projection obj) (w_scope obj) c Hwin Hrep) as Hring.
    apply replayable_spec in Hrep as (Hf & Hc & _). rewrite (win_floor_source _ _ Hwin Hf) in Hc.
    destruct (backlog_loop_spec obj c (h_ring h) []) as (bs & -> & Hdata).
    + intros t Ht. rewrite Hc. destruct (win_ring _ _ Hwin) as (ev & Hacc & _).
      apply (win_wf _ _ Hwin). rewrite Hacc. apply elem_of_app. by right.
    + split; [done|]. split; [done|]. by rewrite Hring.
  - rewrite decide_False by done. split; [done|]. intros (Hf & Hs & Hl).
    assert (replayableLocked h c = true); [|congruence].
    apply replayable_spec. by rewrite (win_floor_source _ _ Hwin Hf).
Qed.

(** ** Accept's cases *)

Lemma Accept_cases h t :
  if decide (fresh h t) then Accept h t = Ok (accept_new h t)
  else match Accept h t with
       | Ok (h', tick) => h' = h ∧ tick = None ∧ lsn (tx_cursor t) ≤ lsn (h_received h)
       | Err _ => h_hasReceived h = true ∧ sourceID (tx_cursor t) ≠ sourceID (h_received h)
       end.
Proof.
  unfold Accept. destruct (decide (fresh h t)) as [Hf|Hf]; unfold fresh in Hf;
    (destruct (h_hasReceived h); [|naive_solver]);
    pose proof (Compare_spec (tx_cursor t) (h_received h)) as HC;
    destruct (Compare (tx_cursor t) (h_received h)) as [o|e]; simpl.
  - rewrite decide_False; [done|]. specialize (Hf eq_refl). lia.
  - naive_solver.
  - destruct (decide (o ≤ 0)); [split; [done|]; split; [done|]; lia|].
    destruct Hf. intros _. intuition lia.
  - naive_solver.
Qed.

Lemma Accept_delivers_received h t h' tick :
  hub_ok h → Accept h t = Ok (h', tick) →
  h_hasReceived h' = true ∧ sourceID (tx_cursor t) = sourceID (h_received h') ∧
  lsn (tx_cursor t) ≤ lsn (h_received h').
Proof.
  intros Hok HA. pose proof (Accept_cases h t) as Hc. destruct (decide _) as [Hf|Hf].
  - rewrite Hc in HA. injection HA as HA. destruct (accept_new_spec h t Hok) as (_ & H2 & _).
    rewrite HA in H2. unfold fixed in H2. simpl in H2. injection H2 as _ _ _ _ -> -> _ _ _.
    done.
  - rewrite HA in Hc. destruct Hc as (-> & -> & Hl). unfold Accept in HA.
    unfold fresh in Hf. destruct (h_hasReceived h) eqn:Hr; [|destruct Hf; done].
    pose proof (Compare_spec (tx_cursor t) (h_received h)) as HC.
    destruct (Compare (tx_cursor t) (h_received h)); [|done]. naive_solver.
Qed.

(** ** A new hub *)

Lemma New_ok cfg h : New cfg true = Ok h → hub_ok h ∧ window_ok [] h ∧ h_watchers h = ∅.
Proof.
  unfold New. destruct (decide _) as [?|Hne]; [done|].
  set (mr := if decide (cfg_maxReplayTransactions cfg = 0) then _ else _).
  set (wq := if decide (cfg_watcherQueue cfg = 0) then _ else _).
  destruct (decide (mr < 0 ∨ wq < 0)) as [|Hpos]; [done|]. destruct (decide (map_Forall _ _)); [|done].
  intros [= <-]. split; [|split; [|done]].
  - split; [|done]. split; simpl.
    + by intros w ?%elem_of_empty.
    + intros t rs. by rewrite lookup_empty.
    + intros t c sc w. unfold routes_at. rewrite lookup_empty. simpl. split; [by intros ?%elem_of_nil|].
      by intros [?%elem_of_empty _].
    + intros t c sc. unfold routes_at. rewrite lookup_empty. constructor.
  - clearbody mr wq. split; simpl; try done; try lia.
    + by intros t ?%elem_of_nil.
    + constructor.
    + exists []. split; [done|]. split; [done|]. by split; [intros t ?%elem_of_nil|].
    + unfold zlen. simpl. lia.
Qed.

(** One projection of a table scoped by a column, and transactions of it. *)
Definition demo_spec : ProjectionSpec := mkSpec "db" "public" "orders" "shop" ["shop"; "id"].

Definition demo_cfg (queue : Z) : Config := mkConfig "db" {["orders" := demo_spec]} 2 queue.

Definition demo_hub (queue : Z) : Hub :=
  match New (demo_cfg queue) true with
  | Ok h => h
  | Err _ => mkHub "" ∅ 0 0 [] zero_Cursor false zero_Cursor false zero_Cursor false ∅ ∅ ∅ 0 false
               empty_scratch false ∅ 0
  end.

Definition demo_change (shop id : string) : Change :=
  mkChange OperationInsert "public.orders" (<["shop" := shop]> {["id" := id]})
    ["shop"; "id"] [TextValue shop; TextValue id].

(** A transaction that ends at [at_], with one change per id. *)
Definition demo_tx (at_ xid : Z) (shop : string) (ids : list string) : Transaction :=
  mkTransaction (mkCursor "db" at_) (demo_change shop <$> ids) 0 [] (at_ - 1) xid.

(** A snapshot that sees the transactions before [xmax]. *)
Definition demo_snapshot (at_ xmax : Z) : Snapshot :=
  newSnapshot "db" at_ (mkVisibility xmax xmax ∅).

Lemma demo_hub_ok : hub_ok (demo_hub 4) ∧ window_ok [] (demo_hub 4).
Proof. destruct (New_ok (demo_cfg 4) (demo_hub 4) eq_refl) as (? & ? & _). done. Qed.

(** ** Properties *)

(** C11 (functional): [Accept] is exact. A transaction at or before the received position is
    ignored whole; one of another source fails and changes nothing; any other
    becomes the received position, and each watcher object meets the fate its
    own registration, table and scope call for: not registered, untouched;
    its table changed shape, ended with [ResyncSchemaChanged]; no change of
    its scope, untouched; otherwise its own changes, in order and as one item,
    are queued, or it is dropped with [ResyncSlowWatcher] when its queue is
    full. The route index and the delivery scratch space, scanned or hashed,
    never show. *)
Theorem Accept_delivers h t :
  hub_ok h →
  match Accept h t with
  | Err _ => h_hasReceived h = true ∧ sourceID (tx_cursor t) ≠ sourceID (h_received h)
  | Ok (h', tick) =>
      hub_ok h' ∧
      if decide (fresh h t)
      then h_received h' = tx_cursor t ∧ h_hasReceived h' = true ∧
           tick = (if h_tickTaken h then Some (h_tick h) else None) ∧
           ∀ w obj, h_heap h !! w = Some obj → accept_fate h t w obj h'
      else h' = h ∧ tick = None ∧ lsn (tx_cursor t) ≤ lsn (h_received h)
  end.
Proof.
  intros Hok. pose proof (Accept_cases h t) as HA.
  destruct (decide (fresh h t)) as [Hf|Hf].
  - rewrite HA. destruct (accept_new_spec h t Hok) as (H1 & H2 & H3 & _ & H5).
    destruct (accept_new h t) as [h' tick]. simpl in *. unfold fixed in H2.
    split; [done|]. repeat split; [congruence|congruence|done|done].
  - destruct (Accept h t) as [[h' tick]|e]; naive_solver.
Qed.

(** C12 (invariant): the replay window stays sound over every accepted transaction: the
    ring is the newest part of the accepted history and never longer than
    [MaxReplayTransactions], everything that left it is at or before the
    eviction mark and the replay floor, and the floor never moves back. A table
    the transaction changed is stale, and neither the floor nor the mark is
    before the change; the floor stays so, but the mark need not, since an
    eviction sets it to what it evicts ([eviction_forgets_schema_change]). A
    resent transaction adds nothing to the history. *)
Theorem Accept_window acc h t h' tick :
  hub_ok h → window_ok acc h → wf_tx (h_sourceID h) t → Accept h t = Ok (h', tick) →
  window_ok (if decide (fresh h t) then acc ++ [t] else acc) h' ∧ floor_le h h' ∧
  (fresh h t → ∀ inc, inc ∈ tx_incompatible t → changed_at h' (inc_table inc) (tx_cursor t)).
Proof.
  intros Hok Hwin Hwf HA. pose proof (Accept_cases h t) as Hc. destruct (decide _) as [Hf|Hf].
  - rewrite Hc in HA. injection HA as HA.
    destruct (accept_new_spec h t Hok) as (_ & _ & _ & Hw & _).
    pose proof (accept_new_floor h t Hok) as Hfl. pose proof (accept_new_changed acc h t) as Hch.
    rewrite HA in Hw, Hfl, Hch. simpl in *. auto 10.
  - rewrite HA in Hc. by destruct Hc as (-> & _).
Qed.

Lemma Accept_delivers_witness :
  hub_ok (demo_hub 4) ∧
  match Accept (demo_hub 4) (demo_tx 10 1 "a" ["1"]) with
  | Err _ => True
  | Ok (h', _) => hub_ok h'
  end.
Proof.
  split; [exact (proj1 demo_hub_ok)|].
  pose proof (Accept_delivers (demo_hub 4) (demo_tx 10 1 "a" ["1"]) (proj1 demo_hub_ok)) as H.
  destruct (Accept (demo_hub 4) (demo_tx 10 1 "a" ["1"])) as [[h' tick]|e]; [exact (proj1 H)|exact I].
Defined.

Lemma Accept_window_witness :
  window_ok [demo_tx 10 1 "a" ["1"]] (accept_new (demo_hub 4) (demo_tx 10 1 "a" ["1"])).1.
Proof.
  pose proof (Accept_window [] (demo_hub 4) (demo_tx 10 1 "a" ["1"])
    (accept_new (demo_hub 4) (demo_tx 10 1 "a" ["1"])).1 None (proj1 demo_hub_ok) (proj2 demo_hub_ok)) as H.
  rewrite decide_True in H by (vm_compute; discriminate).
  refine (proj1 (H _ _)); [vm_compute; done|vm_compute; reflexivity].
Defined.

(** Accepting a transaction again changes nothing, so a resend after a
    reconnect is harmless. *)
Lemma Accept_idempotent h t h' tick :
  hub_ok h → Accept h t = Ok (h', tick) → Accept h' t = Ok (h', None).
Proof.
  intros Hok HA. pose proof (Accept_delivers_received h t h' tick Hok HA) as (Hr & Hs & Hl).
  unfold Accept. rewrite Hr. pose proof (Compare_spec (tx_cursor t) (h_received h')) as HC.
  destruct (Compare (tx_cursor t) (h_received h')) as [o|e]; simpl; [|done].
  rewrite decide_True; [done|]. lia.
Qed.

Lemma Accept_idempotent_witness :
  Accept (accept_new (demo_hub 4) (demo_tx 10 1 "a" ["1"])).1 (demo_tx 10 1 "a" ["1"]) =
  Ok ((accept_new (demo_hub 4) (demo_tx 10 1 "a" ["1"])).1, None).
Proof.
  apply (Accept_idempotent (demo_hub 4) (demo_tx 10 1 "a" ["1"]) _ None (proj1 demo_hub_ok)).
  vm_compute. reflexivity.
Defined.

(** C13 (refinement): [resume] is complete. Against the whole accepted history, of which the
    ring holds only the newest part, a replayable cursor gets as its backlog
    exactly the history's transactions after the cursor that touch its scope,
    each with all its changes, in commit order; a cursor is refused only when
    its table is stale or the floor has passed it; and reading the ring never
    fails. *)
Theorem resume_replays_history acc h w obj c :
  window_ok acc h → resume_spec acc h w obj c (resume_locked h w obj c).
Proof. apply resume_locked_spec. Qed.

Lemma resume_replays_history_witness :
  resume_spec [] (demo_hub 4) 0 (mkWatcher (projection_of demo_spec) "a" [] false (ResyncReasonOther 0))
    (mkCursor "db" 5)
    (resume_locked (demo_hub 4) 0
       (mkWatcher (projection_of demo_spec) "a" [] false (ResyncReasonOther 0)) (mkCursor "db" 5)).
Proof. apply (resume_replays_history [] (demo_hub 4)). exact (proj2 demo_hub_ok). Defined.

(** ** A schema change behind the floor *)

(** A hub that keeps two transactions, and a transaction at [at_] that
    changes the listed tables' shape. *)
Definition floor_hub : Hub :=
  mkHub "db" ∅ 2 4 [] zero_Cursor false zero_Cursor false zero_Cursor false ∅ ∅ ∅ 0 false
    empty_scratch false ∅ 0.

Definition shape_tx (at_ : Z) (tables : list string) : Transaction :=
  mkTransaction (mkCursor "db" at_) [] 0 ((λ t, mkIncompatible t (DiffRenamed "")) <$> tables) (at_ - 1) 1.

Definition accept_all (h : Hub) (ts : list Transaction) : Hub :=
  foldl (λ h t, match Accept h t with Ok (h', _) => h' | Err _ => h end) h ts.

(** Before the first floor, evicting an older transaction moves the eviction
    mark back behind a schema change that had advanced it, so the first
    snapshot may set a floor before the change and a cursor before it is
    replayable, across the changes the transaction lost. *)
Theorem eviction_forgets_schema_change :
  let h := accept_all floor_hub [shape_tx 10 []; shape_tx 20 ["public.orders"]; shape_tx 30 []] in
  h_lastEvicted (accept_all floor_hub [shape_tx 10 []; shape_tx 20 ["public.orders"]]) = mkCursor "db" 20 ∧
  h_lastEvicted h = mkCursor "db" 10 ∧
  replayableLocked (recordSnapshotLocked h (mkCursor "db" 15)) (mkCursor "db" 15) = true.
Proof. vm_compute. done. Qed.
