(* ===== verification/HubWatch.v ===== *)
(** * Watching: the goroutines of internal/watch/hub.go

    [Watch], [resume], [snapshot] and [live] as a state machine per goroutine,
    one step between two points where another goroutine can interleave: a
    locked section, a channel operation, a send to the client, a return of
    the snapshotter. [step] runs one labelled step of the whole system: the
    source accepting a transaction, [Accept]'s deferred tick close, [Stop],
    a new watch, or one step of a watch, with the choice its environment makes
    there (what a [send] returns, what the snapshotter yields, which ready case
    a [select] takes). Metrics are left out. *)

From S2P Require Import Prelude Errors CdcTypes Visibility Events Hub.
Local Open Scope string_scope.
Local Open Scope list_scope.
Local Open Scope Z_scope.

(** ** Data *)

Record Request : Type := mkRequest {
  rq_projection : string;
  rq_scope : string;
  rq_resumeCursor : string
}.

(** The closures [resume] and [snapshot] pass to [live] as [need]. *)
Inductive need : Type :=
| NeedAfter (cursor : Cursor)
| NeedNotCovered (snapshot : Snapshot).

Definition run_need (n : need) (t : Transaction) : result error bool :=
  match n with
  | NeedAfter cursor => After t cursor
  | NeedNotCovered snapshot => let! covered := Covers snapshot t in Ok (negb covered)
  end.

(** [live]'s parameters, and its variables at the top of its loop. *)
Record live_args : Type := mkLive {
  lv_base : Cursor;
  lv_baseSafe : bool;
  lv_need : need
}.

Record live_vars : Type := mkVars {
  lv_first : bool;
  lv_progressed : Cursor
}.

(** [position, received, tick := h.position()], with [newest]. *)
Record live_pos : Type := mkPos {
  ps_position : Cursor;
  ps_newest : Cursor;
  ps_received : bool;
  ps_tick : nat
}.

(** What a watch returns: nil, or an error. *)
Inductive watchErr : Type :=
| WUnknownProjection (name : string)
| WSend
| WContext
| WError (e : error).

Abbreviation outcome := (option watchErr).

(** Where a watch goroutine is. [todo] batches are the rest of the loop that
    sends them. [PcResync registered] is [return send(Resync{...})], with the
    deferred [unregister] still to run when the watcher had registered. *)
Inductive pc : Type :=
| PcStart (resumeCursor : string)
| PcResume (cursor : Cursor)
| PcBacklog (cursor : Cursor) (todo : list Batch)
| PcSnapshot
| PcBegin (streamed : list Transaction)
| PcReading (streamed : list Transaction)
| PcOverflow (streamed : list Transaction) (snapshot : Snapshot)
| PcUnstale (streamed : list Transaction) (snapshot : Snapshot)
| PcRecord (todo : list Batch) (snapshot : Snapshot)
| PcEnd (todo : list Batch) (snapshot : Snapshot)
| PcStreamed (todo : list Batch) (snapshot : Snapshot)
| PcPosition (a : live_args) (v : live_vars)
| PcDrain (a : live_args) (v : live_vars) (p : live_pos)
| PcDeliver (a : live_args) (v : live_vars) (p : live_pos) (item : queued)
| PcProgress (a : live_args) (v : live_vars) (p : live_pos)
| PcWait (a : live_args) (v : live_vars) (p : live_pos)
| PcResync (registered : bool) (reason : ResyncReason)
| PcUnregister (out : outcome)
| PcDone (out : outcome).

(** What the environment answers at a step that has a choice. *)
Inductive choice : Type :=
| ChGo
| ChSendFails
| ChRows (rows : list anyRow)
| ChSnapshot (res : result error Snapshot)
| ChCancelled
| ChOverflow
| ChStopped
| ChTick.

(** A watch goroutine: its program counter and the events its client got. *)
Record goroutine : Type := mkGo {
  g_pc : pc;
  g_sent : list Event
}.

Record sys : Type := mkSys {
  s_hub : Hub;
  s_closing : list nat;
  s_closed : list nat;
  s_gos : gmap wid goroutine
}.

(** ** One step of a watch *)

(** [return] with a deferred [unregister] still to run. *)
Definition finish (registered : bool) (out : outcome) : pc :=
  if registered then PcUnregister out else PcDone out.

(** [if err := send(e); err != nil { return err }], then on to [next]. *)
Definition sending (c : choice) (h : Hub) (e : Event) (registered : bool) (next : pc)
    : option (Hub * pc * list Event) :=
  match c with
  | ChGo => Some (h, next, [e])
  | ChSendFails => Some (h, finish registered (Some WSend), [])
  | _ => None
  end.

(** The loop of [snapshot] that keeps the streamed transactions it needs. *)
Fixpoint streamed_loop (w : watcher) (n : need) (ts : list Transaction) (batches : list Batch)
    : result error (list Batch) :=
  match ts with
  | [] => Ok batches
  | t :: rest =>
      let! needed := run_need n t in
      streamed_loop w n rest (if (needed : bool) then appendBatch w batches t else batches)
  end.

(** The [switch] on the snapshotter's error. *)
Definition snapshot_returned (streamed : list Transaction) (res : result error Snapshot) : pc :=
  match res with
  | Ok snapshot => PcOverflow streamed snapshot
  | Err e =>
      if errors_is e ErrSnapshotWindowClosed then PcResync true ResyncSnapshotWindowClosed
      else if errors_is e ErrSourceStopped then PcResync true ResyncSourceStopped
      else PcUnregister (Some (WError e))
  end.

Section WithLsn.
Context `{LsnText}.

(** [Watch] from the check of [h.stopped] to its tail calls. *)
Definition watch_start (h : Hub) (resumeCursor : string) : pc :=
  if h_stopped h then PcResync false ResyncSourceStopped
  else if decide (resumeCursor = "") then PcSnapshot
  else match ParseCursor (h_sourceID h) resumeCursor with
       | Err e => PcDone (Some (WError e))
       | Ok cursor => PcResume cursor
       end.

(** [position := ...] at the top of [live]'s loop. *)
Definition start_position (a : live_args) (position : Cursor) (received : bool) : Cursor :=
  if negb received || (lv_baseSafe a && later (lv_base a) position) then lv_base a else position.

(** The [select] at the end of [live]'s loop: a case can be taken when its
    channel is ready; [ctx] may be cancelled at any time. *)
Definition live_select (c : choice) (h : Hub) (closed : list nat) (obj : watcher)
    (a : live_args) (v : live_vars) (p : live_pos) : option pc :=
  match c with
  | ChCancelled => Some (PcUnregister (Some WContext))
  | ChOverflow => if w_overflow obj then Some (PcResync true (w_reason obj)) else None
  | ChStopped => if h_stopped h then Some (PcResync true ResyncSourceStopped) else None
  | ChTick => if decide (ps_tick p ∈ closed) then Some (PcPosition a (mkVars false (lv_progressed v))) else None
  | _ => None
  end.

(** One turn of [live]'s drain loop. *)
Definition live_drain (h : Hub) (w : wid) (obj : watcher) (a : live_args) (v : live_vars)
    (p : live_pos) : Hub * pc :=
  match w_queue obj with
  | item :: rest => (set_heap h (<[w := set_queue obj rest]> (h_heap h)), PcDeliver a v p item)
  | [] => (h, if lv_first v || later (ps_position p) (lv_progressed v)
              then PcProgress a v p else PcWait a v p)
  end.

(** The rest of that turn, with the item received. *)
Definition live_deliver (c : choice) (h : Hub) (a : live_args) (v : live_vars) (p : live_pos)
    (item : queued) : option (Hub * pc * list Event) :=
  let cursor := tx_cursor (q_transaction item) in
  let next := PcDrain a v (mkPos (if later cursor (ps_position p) then cursor else ps_position p)
                             (ps_newest p) (ps_received p) (ps_tick p)) in
  match run_need (lv_need a) (q_transaction item) with
  | Err e => Some (h, PcUnregister (Some (WError e)), [])
  | Ok true =>
      sending c h (EvBatch (mkBatch cursor (tx_commitTime (q_transaction item)) (q_changes item) (q_memo item)))
        true next
  | Ok false => Some (h, next, [])
  end.

Definition watch_step (h : Hub) (closed : list nat) (w : wid) (obj : watcher) (at_ : pc) (c : choice)
    : option (Hub * pc * list Event) :=
  match at_ with
  | PcStart resumeCursor => Some (h, watch_start h resumeCursor, [])
  | PcResume cursor =>
      Some (match resume_locked h w obj cursor with
            | ResumeRefused reason => (h, PcResync false reason, [])
            | ResumeFailed e => (h, PcDone (Some (WError e)), [])
            | Resumed h' backlog => (h', PcBacklog cursor backlog, [])
            end)
  | PcBacklog cursor (batch :: todo) => sending c h (EvBatch batch) true (PcBacklog cursor todo)
  | PcBacklog cursor [] =>
      Some (h, PcPosition (mkLive cursor true (NeedAfter cursor)) (mkVars true zero_Cursor), [])
  | PcSnapshot => let '(h', streamed) := snapshot_locked h w obj in Some (h', PcBegin streamed, [])
  | PcBegin streamed => sending c h SnapshotBegin true (PcReading streamed)
  | PcReading streamed =>
      match c with
      | ChRows rows => Some (h, PcReading streamed, [SnapshotRows rows])
      | ChSnapshot res => Some (h, snapshot_returned streamed res, [])
      | _ => None
      end
  | PcOverflow streamed snapshot =>
      Some (h, if w_overflow obj then PcResync true (w_reason obj) else PcUnstale streamed snapshot, [])
  | PcUnstale streamed snapshot =>
      let h' := set_stale h (h_stale h ∖ {[p_table (w_projection obj)]}) in
      Some (h', match streamed_loop obj (NeedNotCovered snapshot) streamed [] with
                | Err e => PcUnregister (Some (WError e))
                | Ok batches => PcRecord batches snapshot
                end, [])
  | PcRecord todo snapshot =>
      Some (recordSnapshotLocked h (sn_cursor snapshot), PcEnd todo snapshot, [])
  | PcEnd todo snapshot => sending c h SnapshotEnd true (PcStreamed todo snapshot)
  | PcStreamed (batch :: todo) snapshot =>
      sending c h (EvBatch batch) true (PcStreamed todo snapshot)
  | PcStreamed [] snapshot =>
      Some (h, PcPosition (mkLive (sn_cursor snapshot) false (NeedNotCovered snapshot))
                 (mkVars true zero_Cursor), [])
  | PcPosition a v =>
      let '(h', newest, received, tick) := position h in
      Some (h', PcDrain a v (mkPos (start_position a newest received) newest received tick), [])
  | PcDrain a v p => let '(h', next) := live_drain h w obj a v p in Some (h', next, [])
  | PcDeliver a v p item => live_deliver c h a v p item
  | PcProgress a v p =>
      sending c h (Progress (ps_position p)) true (PcWait a (mkVars (lv_first v) (ps_position p)) p)
  | PcWait a v p => (λ next, (h, next, [])) <$> live_select c h closed obj a v p
  | PcResync registered reason => sending c h (Resync reason) registered (finish registered None)
  | PcUnregister out => Some (unregister h w, PcDone out, [])
  | PcDone _ => None
  end.

(** ** The system *)

Inductive label : Type :=
| LAccept (t : Transaction)
| LCloseTick
| LStop
| LWatch (w : wid) (req : Request)
| LGo (w : wid) (c : choice).

(** [Watch] up to the allocation of the watcher. *)
Definition watch_begin (h : Hub) (w : wid) (req : Request) : Hub * pc :=
  match h_projections h !! rq_projection req with
  | None => (h, PcDone (Some (WUnknownProjection (rq_projection req))))
  | Some p =>
      (set_heap h (<[w := mkWatcher p (rq_scope req) [] false (ResyncReasonOther 0)]> (h_heap h)),
       PcStart (rq_resumeCursor req))
  end.

Definition step (s : sys) (l : label) : option sys :=
  match l with
  | LAccept t =>
      match Accept (s_hub s) t with
      | Err _ => Some s
      | Ok (h, tick) => Some (mkSys h (option_list tick ++ s_closing s) (s_closed s) (s_gos s))
      end
  | LCloseTick =>
      match s_closing s with
      | [] => None
      | tick :: rest => Some (mkSys (s_hub s) rest (tick :: s_closed s) (s_gos s))
      end
  | LStop => Some (mkSys (Stop (s_hub s)) (s_closing s) (s_closed s) (s_gos s))
  | LWatch w req =>
      match s_gos s !! w with
      | Some _ => None
      | None =>
          let '(h, at_) := watch_begin (s_hub s) w req in
          Some (mkSys h (s_closing s) (s_closed s) (<[w := mkGo at_ []]> (s_gos s)))
      end
  | LGo w c =>
      match s_gos s !! w, h_heap (s_hub s) !! w with
      | Some g, Some obj =>
          match watch_step (s_hub s) (s_closed s) w obj (g_pc g) c with
          | Some (h, at_, events) =>
              Some (mkSys h (s_closing s) (s_closed s)
                      (<[w := mkGo at_ (g_sent g ++ events)]> (s_gos s)))
          | None => None
          end
      | _, _ => None
      end
  end.

Fixpoint run (s : sys) (ls : list label) : option sys :=
  match ls with
  | [] => Some s
  | l :: rest => match step s l with Some s' => run s' rest | None => None end
  end.

End WithLsn.

(** ** Automation *)

(** The two ways a [send] can go in a step. *)
Ltac sending_cases :=
  match goal with
  | H : sending ?c _ _ _ _ = Some _ |- _ =>
      destruct c; simpl in H; try discriminate H; injection H as <- <- <-
  end.
