(* ===== verification/HubSystem.v ===== *)
(** * The watch system: reachable states and the hub invariant

    [reachable] runs any interleaving of the labels of HubWatch.v from a new
    hub, with the history of accepted transactions and each watch's start
    point kept beside the state. The environment is a PostgreSQL source: its
    transactions are well formed and the snapshotter answers for the same
    source. *)

From S2P Require Import Prelude Errors CdcTypes Visibility Events Hub HubRegistry HubAccept HubWindow.
From S2P Require Import HubProps HubWatch.
Local Open Scope string_scope.
Local Open Scope list_scope.
Local Open Scope Z_scope.

(** ** Auxiliary state *)

(** What a watch at this point needs of a transaction, once it is decided. *)
Definition need_of (at_ : pc) : option need :=
  match at_ with
  | PcBacklog cursor _ => Some (NeedAfter cursor)
  | PcRecord _ snapshot | PcEnd _ snapshot | PcStreamed _ snapshot => Some (NeedNotCovered snapshot)
  | PcPosition a _ | PcDrain a _ _ | PcDeliver a _ _ _ | PcProgress a _ _ | PcWait a _ _ =>
      Some (lv_need a)
  | _ => None
  end.

(** The accepted history; how much of it had left the ring when a snapshot
    watch registered; and each watch's need. *)
Record aux : Type := mkAux {
  a_acc : list Transaction;
  a_skip : gmap wid nat;
  a_need : gmap wid need
}.

Definition aux_skip (a : aux) (w : wid) : nat := default 0%nat (a_skip a !! w).

Definition aux_step (s : sys) (l : label) (s' : sys) (a : aux) : aux :=
  match l with
  | LAccept t =>
      if decide (fresh (s_hub s) t) then mkAux (a_acc a ++ [t]) (a_skip a) (a_need a) else a
  | LGo w _ =>
      match s_gos s !! w, s_gos s' !! w with
      | Some g, Some g' =>
          mkAux (a_acc a)
            (match g_pc g with
             | PcSnapshot =>
                 <[w := (length (a_acc a) - length (h_ring (s_hub s)))%nat]> (a_skip a)
             | _ => a_skip a
             end)
            (match need_of (g_pc g') with
             | Some n => <[w := n]> (a_need a)
             | None => a_need a
             end)
      | _, _ => a
      end
  | _ => a
  end.

(** The labels a source and its snapshotter produce. *)
Definition env_ok (source : string) (l : label) : Prop :=
  match l with
  | LAccept t => wf_tx source t
  | LGo _ (ChSnapshot (Ok snapshot)) => sourceID (sn_cursor snapshot) = source
  | _ => True
  end.

Definition init_sys (h : Hub) : sys := mkSys h [] [] ∅.

Section Reachable.
Context `{LsnText}.

Inductive steps : sys → aux → sys → aux → Prop :=
| steps_refl s a : steps s a s a
| steps_step s a s1 a1 l s2 :
    steps s a s1 a1 → env_ok (h_sourceID (s_hub s1)) l → step s1 l = Some s2 →
    steps s a s2 (aux_step s1 l s2 a1).

Definition reachable (s : sys) (a : aux) : Prop :=
  ∃ cfg h, New cfg true = Ok h ∧ steps (init_sys h) (mkAux [] ∅ ∅) s a.

(** Running labels the environment allows only reaches reachable states. *)
Fixpoint env_run (s : sys) (ls : list label) : Prop :=
  match ls with
  | [] => True
  | l :: rest => env_ok (h_sourceID (s_hub s)) l ∧
                 match step s l with Some s' => env_run s' rest | None => True end
  end.

Fixpoint aux_run (s : sys) (ls : list label) (a : aux) : aux :=
  match ls with
  | [] => a
  | l :: rest =>
      match step s l with Some s' => aux_run s' rest (aux_step s l s' a) | None => a end
  end.

Lemma steps_trans s1 a1 s2 a2 s3 a3 :
  steps s1 a1 s2 a2 → steps s2 a2 s3 a3 → steps s1 a1 s3 a3.
Proof. intros H12. induction 1; [done|]. econstructor; eauto. Qed.

Lemma run_steps s ls s' a :
  run s ls = Some s' → env_run s ls → steps s a s' (aux_run s ls a).
Proof.
  revert s a. induction ls as [|l ls IH]; intros s a Hrun Henv; simpl in *.
  { injection Hrun as ->. constructor. }
  destruct Henv as [Hl Henv]. destruct (step s l) as [s1|] eqn:Hs; [|done].
  eapply steps_trans; [|by apply IH]. eapply steps_step; [constructor|done|done].
Qed.

Lemma run_reachable cfg h ls s :
  New cfg true = Ok h → run (init_sys h) ls = Some s → env_run (init_sys h) ls →
  reachable s (aux_run (init_sys h) ls (mkAux [] ∅ ∅)).
Proof. intros Hn Hr He. exists cfg, h. split; [done|by apply run_steps]. Qed.

(** Where a watch is between its registration and its deferred unregister. *)
Definition registered_pc (at_ : pc) : bool :=
  match at_ with
  | PcStart _ | PcResume _ | PcSnapshot | PcResync false _ | PcDone _ => false
  | _ => true
  end.

(** The snapshots a watch holds are of the hub's source. *)
Definition snapshot_of (at_ : pc) : option Snapshot :=
  match at_ with
  | PcOverflow _ sn | PcUnstale _ sn | PcRecord _ sn | PcEnd _ sn | PcStreamed _ sn => Some sn
  | _ => None
  end.

(** ** A watch step and the rest of the hub *)

(** What a step of watch [w] may change: its own object and registration,
    the stale tables, a first floor, the tick's taken mark. *)
Record step_frame (w : wid) (h h' : Hub) : Prop := {
  sf_ok : hub_ok h';
  sf_window acc : window_ok acc h → window_ok acc h';
  sf_fixed : (h_sourceID h', h_projections h', h_queueSize h', h_ring h', h_received h',
     h_hasReceived h', h_tick h', h_stopped h') =
    (h_sourceID h, h_projections h, h_queueSize h, h_ring h, h_received h,
     h_hasReceived h, h_tick h, h_stopped h);
  sf_taken : h_tickTaken h = true → h_tickTaken h' = true;
  sf_others x : x ≠ w → untouched h x h'
}.

Lemma step_frame_refl w h : hub_ok h → step_frame w h h.
Proof. by split. Qed.

Lemma register_frame w h obj :
  hub_ok h → h_heap h !! w = Some obj → w ∉ h_watchers h →
  step_frame w h (registerLocked h w) ∧
  w ∈ h_watchers (registerLocked h w) ∧ h_heap (registerLocked h w) = h_heap h.
Proof.
  intros [Hreg Hscr] Hobj Hw.
  pose proof (registerLocked_ok h w obj Hreg Hobj Hw) as Hreg'.
  destruct (registerLocked_spec h w obj Hreg Hobj) as (Heq & _).
  set (h' := registerLocked h w) in *. clearbody h'.
  split; [|rewrite Heq; simpl; split; [set_solver|done]].
  split.
  - split; [done|]. by rewrite Heq.
  - intros acc. apply window_ok_proper; by rewrite Heq.
  - by rewrite Heq.
  - by rewrite Heq.
  - intros x Hx. rewrite Heq. split; simpl; [set_solver|done].
Qed.

Lemma unregister_frame w h obj :
  hub_ok h → h_heap h !! w = Some obj →
  step_frame w h (unregister h w) ∧
  w ∉ h_watchers (unregister h w) ∧ h_heap (unregister h w) = h_heap h.
Proof.
  intros [Hreg Hscr] Hobj. unfold unregister.
  destruct (decide (w ∈ h_watchers h)) as [Hw|Hw].
  2:{ rewrite removeLocked_absent by done. simpl. by split; [apply step_frame_refl|]. }
  pose proof (removeLocked_ok h w Hreg) as Hreg'.
  destruct (removeLocked_spec h w obj Hreg Hobj Hw) as (_ & Heq & _).
  set (h' := (removeLocked h w).1) in *. clearbody h'.
  split; [|rewrite Heq; simpl; split; [set_solver|done]].
  split.
  - split; [done|]. by rewrite Heq.
  - intros acc. apply window_ok_proper; by rewrite Heq.
  - by rewrite Heq.
  - by rewrite Heq.
  - intros x Hx. rewrite Heq. split; simpl; [set_solver|done].
Qed.

Lemma window_ok_stale acc h stale : window_ok acc h → window_ok acc (set_stale h stale).
Proof. by intros []; split. Qed.

Lemma stale_frame w h stale : hub_ok h → step_frame w h (set_stale h stale).
Proof. intros [[] ?]. split; [by split|intros acc; apply window_ok_stale|done|done|done]. Qed.

Lemma record_frame w h cursor :
  hub_ok h → sourceID cursor = h_sourceID h → step_frame w h (recordSnapshotLocked h cursor).
Proof.
  intros Hok Hc. split.
  - unfold recordSnapshotLocked. destruct (h_hasFloor h); [done|]. destruct Hok as [[] ?]. by split.
  - intros acc Hwin. by apply recordSnapshotLocked_window.
  - unfold recordSnapshotLocked. by destruct (h_hasFloor h).
  - unfold recordSnapshotLocked. by destruct (h_hasFloor h).
  - intros x Hx. unfold recordSnapshotLocked. by destruct (h_hasFloor h).
Qed.

Lemma tick_frame w h : hub_ok h → step_frame w h (set_tick h (h_tick h) true).
Proof. intros [[] ?]. split; [by split|by intros acc []; split|done|done|done]. Qed.

Lemma queue_frame w h obj queue :
  hub_ok h → h_heap h !! w = Some obj →
  step_frame w h (set_heap h (<[w := set_queue obj queue]> (h_heap h))).
Proof.
  intros [Hreg Hscr] Hobj. split.
  - split; [by eapply registry_ok_insert|done].
  - by intros acc []; split.
  - done.
  - done.
  - intros x Hx. split; simpl; [done|by rewrite lookup_insert_ne].
Qed.

(** The watcher object after a step of its own watch: the drain loop takes
    the head of its queue. *)
Definition obj_after (at_ : pc) (obj : watcher) : watcher :=
  match at_ with
  | PcDrain _ _ _ => set_queue obj (tail (w_queue obj))
  | _ => obj
  end.

(** Whether the watch is registered after a step. *)
Definition in_after (at_ at' : pc) (before : Prop) : Prop :=
  match at_, at' with
  | PcSnapshot, _ => True
  | PcResume _, PcBacklog _ _ => True
  | PcUnregister _, _ => False
  | _, _ => before
  end.

Lemma set_queue_nil obj : w_queue obj = [] → set_queue obj [] = obj.
Proof. intros <-. by destruct obj. Qed.

Lemma watch_step_frame h closed w obj at_ c h' at' events :
  hub_ok h → h_heap h !! w = Some obj →
  (registered_pc at_ = false → w ∉ h_watchers h) →
  (∀ sn, snapshot_of at_ = Some sn → sourceID (sn_cursor sn) = h_sourceID h) →
  watch_step h closed w obj at_ c = Some (h', at', events) →
  step_frame w h h' ∧ h_heap h' !! w = Some (obj_after at_ obj) ∧
  (w ∈ h_watchers h' ↔ in_after at_ at' (w ∈ h_watchers h)).
Proof.
  intros Hok Hobj Hreg Hsn Hstep. pose proof (step_frame_refl w h Hok) as Hrefl.
  destruct at_ as [rc|cur|cur todo| |str|str|str sn|str sn|todo sn|todo sn|todo sn|a v|a v p|a v p item
    |a v p|a v p|rg rs|out|out]; simpl in Hstep.
  - by injection Hstep as <- <- <-.
  - unfold resume_locked in Hstep. destruct (decide _); [by injection Hstep as <- <- <-|].
    destruct (negb _); [by injection Hstep as <- <- <-|].
    destruct (backlog_loop _ _ _ _); injection Hstep as <- <- <-; [|done].
    destruct (register_frame w h obj Hok Hobj (Hreg eq_refl)) as (? & ? & Hh).
    rewrite Hh. split; [done|]. split; [done|]. by simpl.
  - destruct todo; [by injection Hstep as <- <- <-|]. by sending_cases.
  - injection Hstep as <- <- <-.
    destruct (register_frame w h obj Hok Hobj (Hreg eq_refl)) as (? & ? & Hh).
    rewrite Hh. split; [done|]. split; [done|]. by simpl.
  - by sending_cases.
  - destruct c; try done; by injection Hstep as <- <- <-.
  - by injection Hstep as <- <- <-.
  - injection Hstep as <- <- <-. split; [by apply stale_frame|done].
  - injection Hstep as <- <- <-. split; [apply record_frame; [done|by apply Hsn]|].
    unfold recordSnapshotLocked. by destruct (h_hasFloor h).
  - by sending_cases.
  - destruct todo; [by injection Hstep as <- <- <-|]. by sending_cases.
  - injection Hstep as <- <- <-. split; [by apply tick_frame|done].
  - unfold live_drain in Hstep. destruct (w_queue obj) as [|item rest] eqn:Hq.
    + injection Hstep as <- <- <-. split; [done|]. simpl. by rewrite Hq, set_queue_nil.
    + injection Hstep as <- <- <-. split; [by apply queue_frame|]. simpl.
      by rewrite lookup_insert_eq, Hq.
  - unfold live_deliver in Hstep. destruct (run_need _ _) as [[]|];
      [by sending_cases| |]; by injection Hstep as <- <- <-.
  - by sending_cases.
  - destruct (live_select _ _ _ _ _ _ _); simpl in Hstep; [|done]. by injection Hstep as <- <- <-.
  - by sending_cases.
  - injection Hstep as <- <- <-.
    destruct (unregister_frame w h obj Hok Hobj) as (? & ? & Hh).
    rewrite Hh. split; [done|]. split; [done|]. by simpl.
  - done.
Qed.

(** ** One watch's view of the system *)

Record view : Type := mkView {
  v_acc : list Transaction;
  v_source : string;
  v_tick : nat;
  v_taken : bool;
  v_closing : list nat;
  v_closed : list nat;
  v_in : bool;
  v_obj : watcher;
  v_pc : pc;
  v_sent : list Event;
  v_skip : nat;
  v_need : option need
}.

Definition view_of (s : sys) (a : aux) (w : wid) (obj : watcher) (g : goroutine) : view :=
  mkView (a_acc a) (h_sourceID (s_hub s)) (h_tick (s_hub s)) (h_tickTaken (s_hub s))
    (s_closing s) (s_closed s) (bool_decide (w ∈ h_watchers (s_hub s))) obj (g_pc g) (g_sent g)
    (aux_skip a w) (a_need a !! w).

(** What accepting [t] changes in a watch's view. *)
Inductive fate (v : view) (t : Transaction) : bool → watcher → Prop :=
| fate_out : v_in v = false → fate v t false (v_obj v)
| fate_quiet : v_in v = true →
    ¬ relevant (w_projection (v_obj v)) (w_scope (v_obj v)) t → fate v t true (v_obj v)
| fate_ended reason : v_in v = true → fate v t false (close_overflow (v_obj v) reason)
| fate_queued memo : v_in v = true →
    relevant (w_projection (v_obj v)) (w_scope (v_obj v)) t →
    fate v t true (push_queue (v_obj v)
      (mkQueued t (proj_changes (w_projection (v_obj v)) (w_scope (v_obj v)) t) memo)).

Definition view_accept (v : view) (t : Transaction) (registered : bool) (obj : watcher) : view :=
  mkView (v_acc v ++ [t]) (v_source v)
    (if v_taken v then S (v_tick v) else v_tick v) false
    ((if v_taken v then [v_tick v] else []) ++ v_closing v) (v_closed v)
    registered obj (v_pc v) (v_sent v) (v_skip v) (v_need v).

(** What the rest of the system changes in a watch's view otherwise: another
    watch takes the tick, or a tick is closed. *)
Definition view_env (v : view) (taken : bool) (closing closed : list nat) : view :=
  mkView (v_acc v) (v_source v) (v_tick v) taken closing closed (v_in v) (v_obj v) (v_pc v)
    (v_sent v) (v_skip v) (v_need v).

(** The watch's own step. *)
Definition view_own (v : view) (h : Hub) (h' : Hub) (at' : pc) (events : list Event) (w : wid) : view :=
  mkView (v_acc v) (v_source v) (v_tick v) (h_tickTaken h') (v_closing v) (v_closed v)
    (bool_decide (w ∈ h_watchers h')) (obj_after (v_pc v) (v_obj v)) at' (v_sent v ++ events)
    (match v_pc v with PcSnapshot => length (v_acc v) - length (h_ring h) | _ => v_skip v end)%nat
    (match need_of at' with Some n => Some n | None => v_need v end).

Definition tick_known (v : view) (tick : nat) : Prop := tick ∈ v_closing v ∨ tick ∈ v_closed v.

Inductive view_step (v : view) : view → Prop :=
| vs_accept t registered obj :
    wf_tx (v_source v) t → (∀ u, u ∈ v_acc v → tx_before u t) →
    fate v t registered obj → view_step v (view_accept v t registered obj)
| vs_env taken closing closed :
    (v_taken v = true → taken = true) →
    (∀ tick, tick_known v tick → tick ∈ closing ∨ tick ∈ closed) →
    view_step v (view_env v taken closing closed)
| vs_own h w c h' at' events :
    hub_ok h → window_ok (v_acc v) h → h_heap h !! w = Some (v_obj v) →
    h_sourceID h = v_source v → h_tick h = v_tick v → h_tickTaken h = v_taken v →
    bool_decide (w ∈ h_watchers h) = v_in v →
    env_ok (v_source v) (LGo w c) →
    watch_step h (v_closed v) w (v_obj v) (v_pc v) c = Some (h', at', events) →
    view_step v (view_own v h h' at' events w).

(** A watch that has just been called. *)
Definition view_new (v : view) : Prop :=
  v_in v = false ∧ v_sent v = [] ∧ v_skip v = 0%nat ∧ v_need v = None ∧
  ((∃ e, v_pc v = PcDone (Some e)) ∨
   (∃ rc, v_pc v = PcStart rc) ∧ w_queue (v_obj v) = [] ∧ w_overflow (v_obj v) = false).

Inductive view_reach : view → Prop :=
| vr_new v : view_new v → view_reach v
| vr_step v v' : view_reach v → view_step v v' → view_reach v'.

(** What every watch's view satisfies, whatever it is doing. *)
Record view_base (v : view) : Prop := {
  vb_out : registered_pc (v_pc v) = false → v_in v = false;
  vb_in : registered_pc (v_pc v) = true → v_in v = true ∨ w_overflow (v_obj v) = true;
  vb_open : v_in v = true → w_overflow (v_obj v) = false;
  vb_start : (∃ rc, v_pc v = PcStart rc) ∨ (∃ c, v_pc v = PcResume c) ∨ v_pc v = PcSnapshot →
    w_queue (v_obj v) = [] ∧ w_overflow (v_obj v) = false ∧ v_sent v = [] ∧ v_skip v = 0%nat ∧
    v_need v = None;
  vb_snapshot sn : snapshot_of (v_pc v) = Some sn → sourceID (sn_cursor sn) = v_source v
}.

(** The facts about an own step every invariant's proof starts from. *)
Lemma own_frame v h w c h' at' events :
  view_base v → hub_ok h → h_heap h !! w = Some (v_obj v) → h_sourceID h = v_source v →
  bool_decide (w ∈ h_watchers h) = v_in v →
  watch_step h (v_closed v) w (v_obj v) (v_pc v) c = Some (h', at', events) →
  step_frame w h h' ∧ h_heap h' !! w = Some (obj_after (v_pc v) (v_obj v)) ∧
  (bool_decide (w ∈ h_watchers h') = true ↔ in_after (v_pc v) at' (v_in v = true)).
Proof.
  intros [Hout _ _ _ Hsn] Hok Hobj Hsrc Hin Hstep.
  destruct (watch_step_frame h (v_closed v) w (v_obj v) (v_pc v) c h' at' events) as (Hf & Hh & Hw);
    try done.
  - intros Hr. specialize (Hout Hr). rewrite Hout in Hin. by apply bool_decide_eq_false in Hin.
  - rewrite Hsrc. apply Hsn.
  - split; [done|]. split; [done|]. rewrite bool_decide_eq_true, Hw, <-Hin.
    destruct (v_pc v), at'; simpl; rewrite ?bool_decide_eq_true; done.
Qed.

(** Where a step can lead. *)
Definition pc_next (source : string) (h : Hub) (obj : watcher) (at_ at' : pc) : Prop :=
  (registered_pc at' = true → registered_pc at_ = true ∨ in_after at_ at' False) ∧
  (registered_pc at' = false → registered_pc at_ = false ∧ ¬ in_after at_ at' False ∨
     ∃ out, at_ = PcUnregister out) ∧
  (∀ sn, snapshot_of at' = Some sn → sourceID (sn_cursor sn) = source ∨ snapshot_of at_ = Some sn) ∧
  ((∃ rc, at' = PcStart rc) → False) ∧
  (registered_pc at' = true → ∀ out, at_ ≠ PcUnregister out) ∧
  ((∃ c, at' = PcResume c) ∨ at' = PcSnapshot → ∃ rc, at_ = PcStart rc).

Lemma watch_step_next h closed w obj at_ c h' at' events source :
  env_ok source (LGo w c) →
  watch_step h closed w obj at_ c = Some (h', at', events) →
  pc_next source h obj at_ at' ∧ ((∃ rc, at_ = PcStart rc) → events = []).
Proof.
  intros Henv Hstep. unfold pc_next.
  destruct at_ as [rc|cur|cur todo| |str|str|str sn|str sn|todo sn|todo sn|todo sn|a v|a v p|a v p item
    |a v p|a v p|rg rs|out|out]; simpl in Hstep.
  - injection Hstep as <- <- <-. unfold watch_start. destruct (h_stopped h); [naive_solver|].
    destruct (decide _); [naive_solver|]. destruct (ParseCursor _ _); naive_solver.
  - unfold resume_locked in Hstep. destruct (decide _); [injection Hstep as <- <- <-; naive_solver|].
    destruct (negb _); [injection Hstep as <- <- <-; naive_solver|].
    destruct (backlog_loop _ _ _ _); injection Hstep as <- <- <-; naive_solver.
  - destruct todo; [injection Hstep as <- <- <-; naive_solver|]. sending_cases; naive_solver.
  - injection Hstep as <- <- <-. naive_solver.
  - sending_cases; naive_solver.
  - destruct c as [| | |[sn|e]| | | |]; try done; injection Hstep as <- <- <-; simpl in *; try naive_solver.
    repeat case_match; naive_solver.
  - injection Hstep as <- <- <-. destruct (w_overflow obj); naive_solver.
  - injection Hstep as <- <- <-. destruct (streamed_loop _ _ _ _); naive_solver.
  - injection Hstep as <- <- <-. naive_solver.
  - sending_cases; naive_solver.
  - destruct todo; [injection Hstep as <- <- <-; naive_solver|]. sending_cases; naive_solver.
  - injection Hstep as <- <- <-. naive_solver.
  - unfold live_drain in Hstep. destruct (w_queue obj) as [|item rest] eqn:Hq;
      injection Hstep as <- <- <-; repeat case_match; naive_solver.
  - unfold live_deliver in Hstep. destruct (run_need _ _) as [[]|];
      [sending_cases; naive_solver| |]; injection Hstep as <- <- <-; naive_solver.
  - sending_cases; naive_solver.
  - destruct (live_select _ _ _ _ _ _ _) eqn:Hsel; simpl in Hstep; [|done].
    injection Hstep as <- <- <-. unfold live_select in Hsel.
    destruct c; simpl in Hsel; repeat case_match; naive_solver.
  - sending_cases; destruct rg; naive_solver.
  - injection Hstep as <- <- <-. naive_solver.
  - done.
Qed.

Lemma obj_after_overflow at_ obj : w_overflow (obj_after at_ obj) = w_overflow obj.
Proof. by destruct at_. Qed.

Ltac destruct_start :=
  intros;
  repeat match goal with
  | H : _ ∨ _ |- _ => destruct H
  | H : ∃ _, _ |- _ => destruct H
  end; try congruence.

Lemma view_reach_base v : view_reach v → view_base v.
Proof.
  induction 1 as [v Hnew|v v' Hr IH Hs].
  { destruct Hnew as (H1 & H2 & H3 & H4 & [[out H5]|[[rc H5] [H6 H7]]]);
      split; rewrite ?H5; simpl; try done; try congruence; destruct_start; auto. }
  destruct Hs as [t registered obj Hwf Hlast Hfate|taken closing closed Ht Hk
    |h w c h' at' events Hok Hwin Hobj Hsrc Htick Htaken Hin Henv Hstep].
  - destruct IH as [I1 I2 I3 I4 I5].
    destruct Hfate as [Hv|Hv Hn|reason Hv|memo Hv Hn]; split; simpl; auto; try congruence.
    1: by rewrite <-Hv.
    all: intros Hst; assert (v_in v = false); [apply I1|congruence]; try done;
      by destruct Hst as [[? ->]|[[? ->]| ->]].
  - by destruct IH.
  - destruct (own_frame v h w c h' at' events IH Hok Hobj Hsrc Hin Hstep) as (Hf & Hh & Hw).
    destruct (watch_step_next _ _ _ _ _ _ _ _ _ (v_source v) Henv Hstep) as ((N1 & N2 & N3 & N4 & N6 & N5) & Hev).
    destruct IH as [I1 I2 I3 I4 I5].
    split; simpl.
    + intros Hn. apply not_true_is_false. rewrite Hw. destruct (N2 Hn) as [[Hr0 Hna]|[out ->]]; [|by intros []].
      specialize (I1 Hr0). destruct (v_pc v), at'; simpl in *; try done; by rewrite I1.
    + intros Hn. rewrite Hw. destruct (N1 Hn) as [Hr0|Hia].
      * rewrite obj_after_overflow. specialize (N6 Hn).
        destruct (I2 Hr0) as [Hi|Ho]; [|by right]. left.
        destruct (v_pc v), at'; simpl in *; try done; by destruct (N6 out).
      * left. destruct (v_pc v), at'; done.
    + rewrite Hw, obj_after_overflow. intros Hia.
      destruct (decide (v_in v = true)) as [|Hnin]; [by apply I3|].
      destruct (v_pc v) eqn:Ev, at'; simpl in Hia; try done; apply I4; eauto.
    + intros [[rc E]|Hst]; [by destruct N4; eauto|].
      assert (∃ rc, v_pc v = PcStart rc) as [rc Hrc] by (apply N5; by destruct Hst; auto).
      rewrite (Hev (ex_intro _ rc Hrc)), app_nil_r.
      destruct (I4 (or_introl (ex_intro _ rc Hrc))) as (? & ? & ? & ? & ?). rewrite Hrc. simpl.
      repeat split; try done. by destruct Hst as [[? ->]| ->].
    + intros sn Hsn. destruct (N3 sn Hsn); auto.
Qed.

Record sys_ok (s : sys) (a : aux) : Prop := {
  so_hub : hub_ok (s_hub s);
  so_window : window_ok (a_acc a) (s_hub s);
  so_watchers w : w ∈ h_watchers (s_hub s) → is_Some (s_gos s !! w);
  so_fresh w : s_gos s !! w = None → a_skip a !! w = None ∧ a_need a !! w = None;
  so_idle w g : s_gos s !! w = Some g → h_heap (s_hub s) !! w = None →
    (∃ e, g_pc g = PcDone (Some e)) ∧ g_sent g = [] ∧ a_skip a !! w = None ∧ a_need a !! w = None;
  so_view w g obj : s_gos s !! w = Some g → h_heap (s_hub s) !! w = Some obj →
    view_reach (view_of s a w obj g)
}.

(** ** The system invariant *)

(** The fate of a watch, from what [Accept] does to its object. *)
Lemma accept_fate_view s a w obj g t h' :
  hub_ok (s_hub s) → h_heap (s_hub s) !! w = Some obj → accept_fate (s_hub s) t w obj h' →
  ∃ obj', h_heap h' !! w = Some obj' ∧
    fate (view_of s a w obj g) t (bool_decide (w ∈ h_watchers h')) obj'.
Proof.
  intros Hok Hobj Hf. unfold accept_fate in Hf. cbv zeta in Hf.
  destruct (decide (w ∉ h_watchers (s_hub s))) as [Hn|Hin%dec_stable].
  { destruct Hf as [Hw Hh]. exists obj. split; [congruence|].
    rewrite bool_decide_false by naive_solver. apply fate_out. simpl. by apply bool_decide_false. }
  assert (v_in (view_of s a w obj g) = true) as Hv by (by apply bool_decide_true).
  destruct (decide (_ ∈ _)).
  { destruct Hf as [Hw Hh]. eexists. split; [done|]. rewrite bool_decide_false by done.
    by apply (fate_ended (view_of s a w obj g)). }
  destruct (decide (_ = [])) as [Hnil|Hrel].
  { destruct Hf as [Hw Hh]. exists obj. split; [congruence|].
    rewrite bool_decide_true by naive_solver. apply fate_quiet; [done|]. simpl. unfold relevant. by intros []. }
  destruct Hf as [memo Hf]. unfold offered in Hf. destruct (decide _), Hf as [Hw Hh]; eexists; (split; [done|]).
  - rewrite bool_decide_true by done. by apply (fate_queued (view_of s a w obj g) t memo).
  - rewrite bool_decide_false by done. by apply (fate_ended (view_of s a w obj g)).
Qed.

Lemma view_new_idle s a w obj g :
  w ∉ h_watchers (s_hub s) → a_skip a !! w = None → a_need a !! w = None →
  g_sent g = [] → (∃ e, g_pc g = PcDone (Some e)) → view_new (view_of s a w obj g).
Proof.
  intros Hw Hs Hn Hg Hp. unfold view_new, view_of, aux_skip. simpl. rewrite Hs.
  repeat split; [by apply bool_decide_false|done|done|]. by left.
Qed.

(** Allocating an object nothing is registered under. *)
Lemma registry_ok_alloc h w obj :
  registry_ok h → w ∉ h_watchers h → registry_ok (set_heap h (<[w := obj]> (h_heap h))).
Proof.
  intros [Hheap Hcol Hiff Hnd] Hw. split; simpl; try done.
  - intros x Hx. rewrite lookup_insert_ne by (by intros ->). by apply Hheap.
  - intros t c s x. rewrite Hiff. split; intros (Hx & o & Ho & Hm); (split; [done|]); exists o;
      rewrite lookup_insert_ne in * by (by intros ->); done.
Qed.

Lemma sys_ok_accept s a t h' tick :
  sys_ok s a → wf_tx (h_sourceID (s_hub s)) t → Accept (s_hub s) t = Ok (h', tick) →
  fresh (s_hub s) t →
  sys_ok (mkSys h' (option_list tick ++ s_closing s) (s_closed s) (s_gos s))
    (mkAux (a_acc a ++ [t]) (a_skip a) (a_need a)).
Proof.
  intros [Hok Hwin Hws Hfr Hid Hvw] Hwf HA Hfresh. pose proof (Accept_cases (s_hub s) t) as Hc.
  rewrite decide_True, HA in Hc by done. injection Hc as Hc.
  destruct (accept_new_spec (s_hub s) t Hok) as (H1 & H2 & H3 & H4 & H5).
  pose proof (accept_new_watchers (s_hub s) t) as H6. rewrite <-Hc in *. simpl in *.
  injection H2 as F1 F2 F3 F4 F5 F6 F7 F8 F9.
  split; simpl; try done.
  - by apply H4.
  - intros w Hw. apply Hws. set_solver.
  - intros w g Hg Hn. apply (Hid w g Hg).
    destruct (h_heap (s_hub s) !! w) as [obj|] eqn:Hobj; [|done].
    destruct (accept_fate_view s a w obj g t h' Hok Hobj (H5 w obj Hobj)) as (obj' & ? & _). congruence.
  - intros w g obj' Hg Hobj'. destruct (h_heap (s_hub s) !! w) as [obj|] eqn:Hobj.
    + destruct (accept_fate_view s a w obj g t h' Hok Hobj (H5 w obj Hobj)) as (o & Ho & Hfate).
      rewrite Hobj' in Ho. injection Ho as <-.
      eapply vr_step; [by apply (Hvw w g obj)|].
      pose proof (λ Hl, vs_accept (view_of s a w obj g) t _ _ Hwf Hl Hfate) as Hstep. simpl in Hstep.
      unfold view_accept, view_of in *. simpl in *. rewrite F1, F7, F8, H3.
      replace (option_list (if h_tickTaken (s_hub s) then Some (h_tick (s_hub s)) else None))
        with (if h_tickTaken (s_hub s) then [h_tick (s_hub s)] else []) by (by destruct (h_tickTaken _)).
      apply Hstep. by apply (fresh_before (a_acc a) (s_hub s)).
    + destruct (Hid w g Hg Hobj) as ([out Hp] & Hs & Hk & Hne). apply vr_new.
      apply view_new_idle; [|done|done|done|by exists out].
      intros Hin%H6. destruct Hok as [Hreg _]. destruct (reg_heap _ Hreg w Hin). congruence.
Qed.

Lemma sys_ok_watch s a w req h' at' :
  sys_ok s a → s_gos s !! w = None → watch_begin (s_hub s) w req = (h', at') →
  sys_ok (mkSys h' (s_closing s) (s_closed s) (<[w := mkGo at' []]> (s_gos s))) a.
Proof.
  intros [Hok Hwin Hws Hfr Hid Hvw] Hnone Hb. destruct (Hfr w Hnone) as [Hsk Hne].
  assert (w ∉ h_watchers (s_hub s)) as Hnw by (intros Hin; destruct (Hws w Hin); congruence).
  assert (∀ x, x ≠ w → h_heap h' !! x = h_heap (s_hub s) !! x) as Hheap.
  { unfold watch_begin in Hb. destruct (h_projections _ !! _); injection Hb as <- <-; [|done].
    intros x Hx. simpl. by rewrite lookup_insert_ne. }
  assert (hub_ok h' ∧ core h' = core (s_hub s) ∧ marks h' = marks (s_hub s) ∧
          h_watchers h' = h_watchers (s_hub s)) as (Hok' & Hcore & Hmarks & Hws').
  { unfold watch_begin in Hb. destruct (h_projections _ !! _); injection Hb as <- <-; [|done].
    split; [|done]. destruct Hok as [Hreg Hscr]. split; [|done]. by apply registry_ok_alloc. }
  split; simpl.
  - done.
  - by apply (window_ok_proper _ (s_hub s)).
  - intros x Hx. rewrite Hws' in Hx. rewrite lookup_insert_ne by (by intros ->). by apply Hws.
  - intros x [Hx Hne']%lookup_insert_None. by apply Hfr.
  - intros x g Hg Hx. destruct (decide (x = w)) as [->|Hxw].
    + rewrite lookup_insert_eq in Hg. injection Hg as <-. simpl. split; [|done].
      unfold watch_begin in Hb. destruct (h_projections _ !! _); injection Hb as <- <-; [|by eexists].
      simpl in Hx. by rewrite lookup_insert_eq in Hx.
    + rewrite lookup_insert_ne in Hg by done. rewrite Hheap in Hx by done. by apply Hid.
  - intros x g obj Hg Hx. destruct (decide (x = w)) as [->|Hxw].
    + rewrite lookup_insert_eq in Hg. injection Hg as <-. apply vr_new.
      unfold watch_begin in Hb. destruct (h_projections _ !! _); injection Hb as <- <-.
      * simpl in Hx. rewrite lookup_insert_eq in Hx. injection Hx as <-.
        unfold view_new, view_of, aux_skip. simpl. rewrite Hsk.
        split; [by apply bool_decide_false|]. split; [done|]. split; [done|]. split; [done|].
        right. eauto.
      * apply view_new_idle; simpl; eauto.
    + rewrite lookup_insert_ne in Hg by done. rewrite Hheap in Hx by done.
      specialize (Hvw x g obj Hg Hx). unfold view_of in *. simpl. rewrite Hws'.
      unfold core in Hcore. injection Hcore as -> _ _ _ _ _ _ -> -> _ _. done.
Qed.

Lemma sys_ok_go s a w c g obj h' at' events :
  sys_ok s a → env_ok (h_sourceID (s_hub s)) (LGo w c) →
  s_gos s !! w = Some g → h_heap (s_hub s) !! w = Some obj →
  watch_step (s_hub s) (s_closed s) w obj (g_pc g) c = Some (h', at', events) →
  let s' := mkSys h' (s_closing s) (s_closed s) (<[w := mkGo at' (g_sent g ++ events)]> (s_gos s)) in
  sys_ok s' (aux_step s (LGo w c) s' a).
Proof.
  intros [Hok Hwin Hws Hfr Hid Hvw] Henv Hg Hobj Hstep s'.
  pose proof (Hvw w g obj Hg Hobj) as Hv. pose proof (view_reach_base _ Hv) as Hbase.
  destruct (own_frame (view_of s a w obj g) (s_hub s) w c h' at' events Hbase Hok Hobj eq_refl eq_refl Hstep)
    as ([Fok Fwin Ffix Ftak Foth] & Fh & Fw).
  injection Ffix as F1 F2 F3 F4 F5 F6 F7 F8.
  assert (aux_step s (LGo w c) s' a = mkAux (a_acc a)
    (match g_pc g with
     | PcSnapshot => <[w := (length (a_acc a) - length (h_ring (s_hub s)))%nat]> (a_skip a)
     | _ => a_skip a end)
    (match need_of at' with Some n => <[w := n]> (a_need a) | None => a_need a end)) as ->.
  { simpl. by rewrite Hg, lookup_insert_eq. }
  set (skip' := match g_pc g with PcSnapshot => _ | _ => _ end).
  set (need' := match need_of at' with Some n => _ | None => _ end).
  assert (∀ x, x ≠ w → skip' !! x = a_skip a !! x ∧ need' !! x = a_need a !! x) as Hother.
  { intros x Hx. subst skip' need'. split.
    - destruct (g_pc g); try done. by rewrite lookup_insert_ne.
    - destruct (need_of at'); [by rewrite lookup_insert_ne|done]. }
  split; simpl.
  - done.
  - by apply Fwin.
  - intros x Hx. destruct (decide (x = w)) as [->|Hxw]; [by rewrite lookup_insert_eq; eauto|].
    rewrite lookup_insert_ne by done. apply Hws. by apply (Foth x Hxw).
  - intros x [Hx Hxw]%lookup_insert_None. destruct (Hother x) as [-> ->]; auto.
  - intros x g' Hg' Hx. destruct (decide (x = w)) as [->|Hxw]; [congruence|].
    rewrite lookup_insert_ne in Hg' by done. destruct (Foth x Hxw) as [_ Hhx].
    destruct (Hother x Hxw) as [-> ->]. apply Hid; congruence.
  - intros x g' obj' Hg' Hx. destruct (decide (x = w)) as [->|Hxw].
    + rewrite lookup_insert_eq in Hg'. injection Hg' as <-. rewrite Fh in Hx. injection Hx as <-.
      eapply vr_step; [exact Hv|].
      pose proof (vs_own (view_of s a w obj g) (s_hub s) w c h' at' events Hok Hwin Hobj eq_refl
        eq_refl eq_refl eq_refl Henv Hstep) as Hvs.
      unfold view_own, view_of in Hvs. simpl in Hvs. unfold view_of, aux_skip. simpl. rewrite F1, F7.
      assert (default 0%nat (skip' !! w) = match g_pc g with
        PcSnapshot => (length (a_acc a) - length (h_ring (s_hub s)))%nat | _ => aux_skip a w end) as ->.
      { subst skip'. destruct (g_pc g); try done. by rewrite lookup_insert_eq. }
      assert (need' !! w = match need_of at' with Some n => Some n | None => a_need a !! w end) as ->.
      { subst need'. destruct (need_of at'); [by rewrite lookup_insert_eq|done]. }
      exact Hvs.
    + rewrite lookup_insert_ne in Hg' by done. destruct (Foth x Hxw) as [Hwx Hhx].
      destruct (Hother x Hxw) as [Hsk Hnd].
      rewrite Hhx in Hx. specialize (Hvw x g' obj' Hg' Hx). eapply vr_step; [exact Hvw|].
      pose proof (vs_env (view_of s a x obj' g') (h_tickTaken h') (s_closing s) (s_closed s) Ftak
        ltac:(intros tick Ht; exact Ht)) as Hvs.
      unfold view_env, view_of in Hvs. simpl in Hvs. unfold view_of, aux_skip. simpl.
      rewrite F1, F7, Hsk, Hnd. rewrite (bool_decide_ext _ _ Hwx). exact Hvs.
Qed.

Lemma sys_ok_step s a l s' :
  sys_ok s a → env_ok (h_sourceID (s_hub s)) l → step s l = Some s' → sys_ok s' (aux_step s l s' a).
Proof.
  intros Hok Henv Hstep. destruct l as [t| | |w req|w c]; simpl in Hstep.
  - destruct (Accept (s_hub s) t) as [[h' tick]|e] eqn:HA; injection Hstep as <-; simpl;
      pose proof (Accept_cases (s_hub s) t) as Hc; rewrite HA in Hc; destruct (decide _) as [Hf|Hf];
      try done.
    + by apply sys_ok_accept.
    + destruct Hc as (-> & -> & _). by destruct s.
  - destruct (s_closing s) as [|tick rest] eqn:Hcl; [done|]. injection Hstep as <-. simpl.
    destruct Hok as [H1 H2 H3 H4 H5 H6]. split; try done. intros w g obj Hg Hobj.
    specialize (H6 w g obj Hg Hobj). eapply vr_step; [exact H6|].
    apply (vs_env (view_of s a w obj g) (h_tickTaken (s_hub s)) rest (tick :: s_closed s)); [done|].
    unfold tick_known. simpl. rewrite Hcl. intros k. rewrite !elem_of_cons. naive_solver.
  - injection Hstep as <-. simpl. destruct Hok as [[[] ?] [] H3 H4 H5 H6]. split; try done; by split.
  - destruct (s_gos s !! w) eqn:Hg; [done|].
    destruct (watch_begin (s_hub s) w req) as [h' at'] eqn:Hb. injection Hstep as <-.
    by eapply sys_ok_watch.
  - destruct (s_gos s !! w) as [g|] eqn:Hg; [|done]. destruct (h_heap (s_hub s) !! w) as [obj|] eqn:Hobj; [|done].
    destruct (watch_step _ _ _ _ _ _) as [[[h' at'] events]|] eqn:Hw; [|done]. injection Hstep as <-.
    by eapply sys_ok_go.
Qed.

Lemma steps_ok s a s' a' : sys_ok s a → steps s a s' a' → sys_ok s' a'.
Proof. intros Hok. induction 1; [done|]. apply sys_ok_step; auto. Qed.

Lemma reachable_ok s a : reachable s a → sys_ok s a.
Proof.
  intros (cfg & h & Hnew & Hsteps). eapply steps_ok; [|exact Hsteps].
  destruct (New_ok cfg h Hnew) as (Hok & Hwin & Hws). split; simpl; try done.
  rewrite Hws. by intros w ?%elem_of_empty.
Qed.

End Reachable.

(** ** A concrete system, for closed examples *)

#[export] Instance env_ok_dec source l : Decision (env_ok source l).
Proof. destruct l as [| | | |w [| | |[sn|e]| | | |]]; simpl; apply _. Defined.

#[export] Instance env_run_dec `{LsnText} s ls : Decision (env_run s ls).
Proof.
  revert s. induction ls as [|l ls IH]; intros s; simpl; [apply _|].
  destruct (step s l); [|apply _]. apply and_dec; [apply _|apply IH].
Defined.

Definition demo_run (queue : Z) (ls : list label) : sys :=
  default (init_sys (demo_hub queue)) (@run hex_lsn_text (init_sys (demo_hub queue)) ls).

Definition demo_aux (queue : Z) (ls : list label) : aux :=
  @aux_run hex_lsn_text (init_sys (demo_hub queue)) ls (mkAux [] ∅ ∅).

(** The labels run, and the environment allows each of them. *)
Definition demo_valid (queue : Z) (ls : list label) : bool :=
  match New (demo_cfg queue) true with Ok _ => true | Err _ => false end &&
  match @run hex_lsn_text (init_sys (demo_hub queue)) ls with Some _ => true | None => false end &&
  bool_decide (@env_run hex_lsn_text (init_sys (demo_hub queue)) ls).

Lemma demo_reachable queue ls :
  demo_valid queue ls = true → @reachable hex_lsn_text (demo_run queue ls) (demo_aux queue ls).
Proof.
  unfold demo_valid, demo_run, demo_aux. rewrite !andb_true_iff. intros [[Hn Hr] He].
  apply bool_decide_eq_true in He.
  assert (New (demo_cfg queue) true = Ok (demo_hub queue)) as Hnew
    by (unfold demo_hub; by destruct (New _ _)).
  revert Hr He Hnew. generalize (demo_hub queue). intros h Hr He Hnew.
  destruct (@run hex_lsn_text (init_sys h) ls) as [s|] eqn:E; [|discriminate Hr].
  exact (@run_reachable hex_lsn_text (demo_cfg queue) h ls s Hnew E He).
Qed.

(** A snapshot watch of shop "a" up to its first wait, before which two
    transactions were accepted and the snapshot saw only the first. *)
Definition demo_snapshot_watch (w : wid) : list label :=
  [LAccept (demo_tx 10 1 "a" ["1"]); LAccept (demo_tx 20 2 "a" ["2"; "3"]);
   LWatch w (mkRequest "orders" "a" ""); LGo w ChGo; LGo w ChGo; LGo w ChGo;
   LGo w (ChRows []); LGo w (ChSnapshot (Ok (demo_snapshot 15 2)));
   LGo w ChGo; LGo w ChGo; LGo w ChGo; LGo w ChGo; LGo w ChGo; LGo w ChGo;
   LGo w ChGo; LGo w ChGo; LGo w ChGo].

Definition demo_go (queue : Z) (ls : list label) (w : wid) : goroutine :=
  default (mkGo (PcDone None) []) (s_gos (demo_run queue ls) !! w).

Definition demo_obj (queue : Z) (ls : list label) (w : wid) : watcher :=
  default (mkWatcher (mkProjection demo_spec "") "" [] false (ResyncReasonOther 0))
    (h_heap (s_hub (demo_run queue ls)) !! w).

Lemma demo_go_Some queue ls w :
  is_Some (s_gos (demo_run queue ls) !! w) → s_gos (demo_run queue ls) !! w = Some (demo_go queue ls w).
Proof. unfold demo_go. by intros [g ->]. Qed.

Lemma demo_obj_Some queue ls w :
  is_Some (h_heap (s_hub (demo_run queue ls)) !! w) →
  h_heap (s_hub (demo_run queue ls)) !! w = Some (demo_obj queue ls w).
Proof. unfold demo_obj. by intros [o ->]. Qed.
