(* ===== verification/HubProtocol.v ===== *)
(** * The watch stream protocol, and waking up

    What a client may rely on about the order of the events of one watch, and
    that a waiting watch is woken when there is something new. *)

From S2P Require Import Prelude Errors CdcTypes Visibility Events Hub HubRegistry HubAccept HubWindow.
From S2P Require Import HubProps HubWatch HubSystem.
Local Open Scope string_scope.
Local Open Scope list_scope.
Local Open Scope Z_scope.

(** ** Specification: the stream a client sees *)

(** [SInit]: nothing yet. [SSnapshot]: between SnapshotBegin and SnapshotEnd.
    [SCatchUp]: batches before the first Progress. [SLive c]: after Progress
    at [c]. [SEnded]: after Resync. *)
Inductive pstate : Type :=
| SInit
| SSnapshot
| SCatchUp
| SLive (c : Cursor)
| SEnded.

Definition proto_step (st : pstate) (e : Event) : option pstate :=
  match st, e with
  | SInit, SnapshotBegin => Some SSnapshot
  | SSnapshot, SnapshotRows _ => Some SSnapshot
  | SSnapshot, SnapshotEnd => Some SCatchUp
  | (SInit | SCatchUp), EvBatch _ => Some SCatchUp
  | SLive c, EvBatch _ => Some (SLive c)
  | (SInit | SCatchUp), Progress c => Some (SLive c)
  | SLive c, Progress c' => if later c' c then Some (SLive c') else None
  | (SInit | SSnapshot | SLive _), Resync _ => Some SEnded
  | _, _ => None
  end.

Fixpoint protocol (st : pstate) (es : list Event) : option pstate :=
  match es with
  | [] => Some st
  | e :: rest => match proto_step st e with Some st' => protocol st' rest | None => None end
  end.

Lemma protocol_app st es es' :
  protocol st (es ++ es') =
  match protocol st es with Some st' => protocol st' es' | None => None end.
Proof.
  revert st. induction es as [|e es IH]; intros st; simpl; [done|].
  destruct (proto_step st e); [apply IH|done].
Qed.

(** Where the stream stands at each point of the watch. *)
Definition proto_before (v : live_vars) (st : pstate) : Prop :=
  if lv_first v then st = SInit ∨ st = SCatchUp else st = SLive (lv_progressed v).

Definition proto_at (at_ : pc) (st : pstate) : Prop :=
  match at_ with
  | PcStart _ | PcResume _ | PcSnapshot | PcBegin _ => st = SInit
  | PcBacklog _ _ => st = SInit ∨ st = SCatchUp
  | PcReading _ | PcOverflow _ _ | PcUnstale _ _ | PcRecord _ _ | PcEnd _ _ => st = SSnapshot
  | PcStreamed _ _ => st = SCatchUp
  | PcPosition _ v | PcDrain _ v _ | PcDeliver _ v _ _ => proto_before v st
  | PcProgress _ v p =>
      proto_before v st ∧ (lv_first v = true ∨ later (ps_position p) (lv_progressed v) = true)
  | PcWait _ v _ => st = SLive (lv_progressed v)
  | PcResync _ _ => st = SInit ∨ st = SSnapshot ∨ ∃ c, st = SLive c
  | PcUnregister None | PcDone None => st = SEnded
  | PcUnregister (Some _) | PcDone (Some _) => True
  end.

Definition proto_ok (v : view) : Prop :=
  ∃ st, protocol SInit (v_sent v) = Some st ∧ proto_at (v_pc v) st.

Section Protocol.
Context `{LsnText}.

Lemma proto_own h closed w obj at_ c h' at' events sent st :
  watch_step h closed w obj at_ c = Some (h', at', events) →
  protocol SInit sent = Some st → proto_at at_ st →
  ∃ st', protocol SInit (sent ++ events) = Some st' ∧ proto_at at' st'.
Proof.
  intros Hstep Hp Hat. rewrite protocol_app, Hp.
  destruct at_ as [rc|cur|cur todo| |str|str|str sn|str sn|todo sn|todo sn|todo sn|a v|a v p|a v p item
    |a v p|a v p|rg rs|out|out]; simpl in Hstep, Hat.
  - injection Hstep as <- <- <-. unfold watch_start. exists st. split; [done|].
    destruct (h_stopped h); [simpl; auto|]. destruct (decide _); [done|]. by destruct (ParseCursor _ _).
  - unfold resume_locked in Hstep. exists st.
    destruct (decide _); [injection Hstep as <- <- <-; simpl; auto|].
    destruct (negb _); [injection Hstep as <- <- <-; simpl; auto|].
    destruct (backlog_loop _ _ _ _); injection Hstep as <- <- <-; simpl; auto.
  - destruct todo; [injection Hstep as <- <- <-; by exists st|].
    sending_cases; [|by exists st]. exists SCatchUp. destruct Hat as [-> | ->]; simpl; auto.
  - injection Hstep as <- <- <-. by exists st.
  - sending_cases; [|by exists st]. subst st. by exists SSnapshot.
  - subst st. destruct c as [| | |[sn|e]| | | |]; try done; injection Hstep as <- <- <-;
      exists SSnapshot; (split; [done|]); [done|done|]. simpl. repeat case_match; simpl; auto.
  - injection Hstep as <- <- <-. exists st. split; [done|]. destruct (w_overflow obj); simpl; auto.
  - injection Hstep as <- <- <-. exists st. split; [done|]. by destruct (streamed_loop _ _ _ _).
  - injection Hstep as <- <- <-. by exists st.
  - sending_cases; [|by exists st]. subst st. by exists SCatchUp.
  - destruct todo; [injection Hstep as <- <- <-; exists st; split; [done|by right]|].
    sending_cases; [|by exists st]. subst st. by exists SCatchUp.
  - injection Hstep as <- <- <-. by exists st.
  - unfold live_drain in Hstep. destruct (w_queue obj) as [|item rest] eqn:Hq;
      injection Hstep as <- <- <-; exists st; (split; [done|]); [|done].
    destruct (lv_first v) eqn:Hf; simpl; [auto|]. destruct (later _ _) eqn:Hl; simpl; [auto|].
    unfold proto_before in Hat. by rewrite Hf in Hat.
  - unfold live_deliver in Hstep. destruct (run_need _ _) as [[]|];
      [sending_cases; [|by exists st]|injection Hstep as <- <- <-; by exists st..].
    unfold proto_before in Hat. destruct (lv_first v) eqn:Hf.
    + exists SCatchUp. simpl. unfold proto_before. rewrite Hf. destruct Hat as [-> | ->]; auto.
    + exists st. subst st. simpl. unfold proto_before. by rewrite Hf.
  - sending_cases; [|by exists st]. exists (SLive (ps_position p)). destruct Hat as [Hat Hl].
    unfold proto_before in Hat. destruct (lv_first v) eqn:Hf.
    + by destruct Hat as [-> | ->].
    + subst st. destruct Hl as [|Hl]; [done|]. simpl. by rewrite Hl.
  - destruct (live_select _ _ _ _ _ _ _) eqn:Hsel; simpl in Hstep; [|done].
    injection Hstep as <- <- <-. exists st. split; [done|]. unfold live_select in Hsel.
    destruct c; simpl in Hsel; repeat case_match; try done; injection Hsel as <-; simpl; eauto.
  - sending_cases; [|exists st; split; [done|]; by destruct rg].
    exists SEnded. destruct Hat as [->|[->|[? ->]]]; (split; [done|]); by destruct rg.
  - injection Hstep as <- <- <-. exists st. by destruct out.
  - done.
Qed.

Lemma view_proto v : view_reach v → proto_ok v.
Proof.
  induction 1 as [v Hnew|v v' Hr [st [IH1 IH2]] Hs].
  { destruct Hnew as (_ & Hs & _ & _ & [[e Hpc]|[[rc Hpc] _]]); unfold proto_ok; rewrite Hs, Hpc;
      simpl; eauto. }
  destruct Hs as [| |h w c h' at' events ? ? ? ? ? ? ? Henv Hstep]; [by exists st|by exists st|].
  exact (proto_own _ _ _ _ _ _ _ _ _ _ _ Hstep IH1 IH2).
Qed.

(** ** Waking up *)

(** The tick a watch waits on closes at the next accepted transaction: either
    it is already closed or being closed, or nothing was accepted since the
    watch read its position, and then it holds the newest cursor. *)
Definition position_current (v : view) (p : live_pos) : Prop :=
  ps_tick p = v_tick v ∧ v_taken v = true ∧
  match last (v_acc v) with
  | None => ps_received p = false
  | Some t => ps_received p = true ∧ ps_newest p = tx_cursor t
  end.

Definition tick_ok (v : view) : Prop :=
  match v_pc v with
  | PcDrain _ _ p | PcDeliver _ _ p _ => tick_known v (ps_tick p) ∨ position_current v p
  | PcProgress _ _ p | PcWait _ _ p =>
      tick_known v (ps_tick p) ∨ position_current v p ∧ w_queue (v_obj v) = []
  | _ => True
  end.

Lemma tick_accept v t registered obj :
  tick_ok v → tick_ok (view_accept v t registered obj).
Proof.
  assert (∀ k, tick_known v k → tick_known (view_accept v t registered obj) k) as Hk.
  { intros k [Hk|Hk]; [left|right]; simpl; [apply elem_of_app; by right|done]. }
  assert (∀ p, position_current v p → tick_known (view_accept v t registered obj) (ps_tick p)) as Hc.
  { intros p (Hp1 & Hp2 & _). left. simpl. rewrite Hp2, Hp1. by left. }
  unfold tick_ok. simpl. destruct (v_pc v); try done; naive_solver.
Qed.

Lemma tick_env v taken closing closed :
  (v_taken v = true → taken = true) →
  (∀ tick, tick_known v tick → tick ∈ closing ∨ tick ∈ closed) →
  tick_ok v → tick_ok (view_env v taken closing closed).
Proof.
  intros Ht Hk. unfold tick_ok, position_current. simpl. destruct (v_pc v); try done; naive_solver.
Qed.

Lemma tick_own v h w c h' at' events :
  view_base v → hub_ok h → window_ok (v_acc v) h → h_heap h !! w = Some (v_obj v) →
  h_sourceID h = v_source v → h_tick h = v_tick v → h_tickTaken h = v_taken v →
  bool_decide (w ∈ h_watchers h) = v_in v →
  watch_step h (v_closed v) w (v_obj v) (v_pc v) c = Some (h', at', events) →
  tick_ok v → tick_ok (view_own v h h' at' events w).
Proof.
  intros Hb Hok Hwin Hobj Hsrc Htk Htaken Hin Hstep Hv.
  destruct (own_frame v h w c h' at' events Hb Hok Hobj Hsrc Hin Hstep) as (Hf & _).
  pose proof (sf_taken _ _ _ Hf) as Ft. unfold tick_ok, position_current, tick_known in *. simpl.
  destruct (v_pc v) as [rc|cur|cur todo| |str|str|str sn|str sn|todo sn|todo sn|todo sn|a lv|a lv p|a lv p item
    |a lv p|a lv p|rg rs|out|out]; simpl in *.
  - injection Hstep as <- <- <-. unfold watch_start. repeat case_match; done.
  - repeat case_match; by simplify_eq.
  - destruct todo; [by injection Hstep as <- <- <-|]. by sending_cases.
  - by injection Hstep as <- <- <-.
  - by sending_cases.
  - destruct c as [| | |[]| | | |]; try done; injection Hstep as <- <- <-; try done.
    simpl. repeat case_match; done.
  - injection Hstep as <- <- <-. by destruct (w_overflow _).
  - injection Hstep as <- <- <-. by destruct (streamed_loop _ _ _ _).
  - by injection Hstep as <- <- <-.
  - by sending_cases.
  - destruct todo; [by injection Hstep as <- <- <-|]. by sending_cases.
  - injection Hstep as <- <- <-. right. simpl. split; [done|]. split; [done|].
    exact (win_received _ _ Hwin).
  - unfold live_drain in Hstep. destruct (w_queue (v_obj v)) as [|item rest] eqn:Hq;
      injection Hstep as <- <- <-; simpl.
    + destruct (_ || _); naive_solver.
    + naive_solver.
  - unfold live_deliver in Hstep. destruct (run_need _ _) as [[]|];
      [sending_cases|injection Hstep as <- <- <-..]; simpl; naive_solver.
  - sending_cases; [|done]. simpl. naive_solver.
  - destruct (live_select _ _ _ _ _ _ _) eqn:Hsel; simpl in Hstep; [|done].
    injection Hstep as <- <- <-. unfold live_select in Hsel.
    destruct c; simpl in Hsel; repeat case_match; by simplify_eq.
  - sending_cases; by destruct rg.
  - by injection Hstep as <- <- <-.
  - done.
Qed.

Lemma view_tick v : view_reach v → tick_ok v.
Proof.
  induction 1 as [v Hnew|v v' Hr IH Hs].
  { destruct Hnew as (_ & _ & _ & _ & [[e Hpc]|[[rc Hpc] _]]); unfold tick_ok; by rewrite Hpc. }
  destruct Hs as [| |h w c h' at' events]; [by apply tick_accept|by apply tick_env|].
  eapply tick_own; eauto. by apply view_reach_base.
Qed.

(** ** Properties *)

(** C7 (safety): whatever the interleaving of accepts, watches and failures, every
    watch's events follow the stream protocol: a snapshot is bracketed by
    SnapshotBegin and SnapshotEnd with only rows between, catch-up batches
    come before the first Progress, Progress cursors strictly increase, and
    Resync is the last event and never cuts a catch-up short. A watch that
    returns nil has sent its Resync. *)
Theorem watch_protocol s a w g :
  reachable s a → s_gos s !! w = Some g →
  ∃ st, protocol SInit (g_sent g) = Some st ∧ (g_pc g = PcDone None → st = SEnded).
Proof.
  intros Hr Hg. pose proof (reachable_ok s a Hr) as Hok.
  destruct (h_heap (s_hub s) !! w) as [obj|] eqn:Hobj.
  - destruct (view_proto _ (so_view _ _ Hok w g obj Hg Hobj)) as (st & Hp & Hat).
    exists st. split; [done|]. simpl in Hat. intros Hd. by rewrite Hd in Hat.
  - destruct (so_idle _ _ Hok w g Hg Hobj) as ([e Hp] & -> & _). exists SInit.
    split; [done|]. by rewrite Hp.
Qed.

(** C14 (liveness): no wakeup is lost. When a waiting watch has something queued, or the
    hub has received past the position the watch last read, the tick it waits
    on is closed, or [Accept]'s deferred close of it is under way. *)
Theorem no_lost_wakeup s a w g obj args vars p :
  reachable s a → s_gos s !! w = Some g → h_heap (s_hub s) !! w = Some obj →
  g_pc g = PcWait args vars p →
  w_queue obj ≠ [] ∨ (h_hasReceived (s_hub s) = true ∧ h_received (s_hub s) ≠ ps_newest p) →
  ps_tick p ∈ s_closing s ∨ ps_tick p ∈ s_closed s.
Proof.
  intros Hr Hg Hobj Hpc Hnew. pose proof (reachable_ok s a Hr) as Hok.
  pose proof (view_tick _ (so_view _ _ Hok w g obj Hg Hobj)) as Ht. unfold tick_ok in Ht. simpl in Ht.
  rewrite Hpc in Ht. destruct Ht as [Ht|[(_ & _ & Hcur) Hq]]; [exact Ht|]. simpl in *.
  destruct Hnew as [Hnew|[Hr1 Hr2]]; [done|]. pose proof (win_received _ _ (so_window _ _ Hok)) as Hw.
  destruct (last (a_acc a)) as [t|]; [|congruence]. destruct Hcur, Hw. congruence.
Qed.

End Protocol.

Definition demo_waiting : list label :=
  demo_snapshot_watch 0 ++ [LAccept (demo_tx 30 3 "a" ["4"])].

Lemma watch_protocol_witness :
  ∃ st, protocol SInit (g_sent (demo_go 4 (demo_snapshot_watch 0) 0)) = Some st ∧
        (g_pc (demo_go 4 (demo_snapshot_watch 0) 0) = PcDone None → st = SEnded).
Proof.
  apply (@watch_protocol hex_lsn_text (demo_run 4 (demo_snapshot_watch 0))
           (demo_aux 4 (demo_snapshot_watch 0)) 0).
  - apply demo_reachable. vm_compute. reflexivity.
  - apply demo_go_Some. vm_compute. eauto.
Defined.

Lemma no_lost_wakeup_witness :
  0%nat ∈ s_closing (demo_run 4 demo_waiting) ∨ 0%nat ∈ s_closed (demo_run 4 demo_waiting).
Proof.
  eapply (@no_lost_wakeup hex_lsn_text (demo_run 4 demo_waiting) (demo_aux 4 demo_waiting) 0
           (demo_go 4 demo_waiting 0) (demo_obj 4 demo_waiting 0)
           (mkLive (mkCursor "db" 15) false (NeedNotCovered (demo_snapshot 15 2)))
           (mkVars true (mkCursor "db" 20))
           (mkPos (mkCursor "db" 20) (mkCursor "db" 20) true 0)).
  - apply demo_reachable. vm_compute. reflexivity.
  - apply demo_go_Some. vm_compute. eauto.
  - apply demo_obj_Some. vm_compute. eauto.
  - vm_compute. reflexivity.
  - left. vm_compute. discriminate.
Defined.
