(* ===== verification/HubDelivery.v ===== *)
(** * Every watch gets exactly its transactions

    The batches a watch has sent, the ones it still holds and the ones queued
    for it, against the accepted history: in commit order, each once, with no
    gap. And the meaning of Progress. *)

From S2P Require Import Prelude Errors CdcTypes Visibility Events Hub HubRegistry HubAccept HubWindow.
From S2P Require Import HubProps HubWatch HubSystem.
Local Open Scope string_scope.
Local Open Scope list_scope.
Local Open Scope Z_scope.

(** ** Specification *)

Definition needed (n : need) (t : Transaction) : Prop := run_need n t = Ok true.

#[export] Instance needed_dec n t : Decision (needed n t).
Proof. unfold needed. destruct (run_need n t) as [[]|]; [by left|right; congruence..]. Defined.

(** What the hub owes a watcher of a history: the transactions it needs that
    touch its scope, each with all its changes of that scope. *)
Definition owed (obj : watcher) (n : need) (ts : list Transaction) : list (Cursor * Z * list Change) :=
  tx_data (w_projection obj) (w_scope obj) <$>
    base.filter (λ t, needed n t ∧ relevant (w_projection obj) (w_scope obj) t) ts.

(** The batches among the events sent. *)
Fixpoint batches_of (es : list Event) : list (Cursor * Z * list Change) :=
  match es with
  | [] => []
  | EvBatch b :: rest => batch_data b :: batches_of rest
  | _ :: rest => batches_of rest
  end.

(** The batches a watch holds, the item it took from its queue, and the
    transactions it kept until the snapshot is known. *)
Definition todo_of (at_ : pc) : list Batch :=
  match at_ with
  | PcBacklog _ todo | PcRecord todo _ | PcEnd todo _ | PcStreamed todo _ => todo
  | _ => []
  end.

Definition hand_of (at_ : pc) : list queued :=
  match at_ with PcDeliver _ _ _ item => [item] | _ => [] end.

Definition streamed_of (at_ : pc) : list Transaction :=
  match at_ with
  | PcBegin s | PcReading s | PcOverflow s _ | PcUnstale s _ => s
  | _ => []
  end.

(** Between registration and the end of the watch. *)
Definition active (at_ : pc) : bool :=
  match at_ with PcResync _ _ | PcUnregister _ => false | _ => registered_pc at_ end.

Definition item_data (q : queued) : Transaction * list Change := (q_transaction q, q_changes q).

Definition tx_item (obj : watcher) (t : Transaction) : Transaction * list Change :=
  (t, proj_changes (w_projection obj) (w_scope obj) t).

Definition touches (obj : watcher) (t : Transaction) : Prop :=
  relevant (w_projection obj) (w_scope obj) t.

#[export] Instance touches_dec obj t : Decision (touches obj t) := _.

(** The history splits into what had left the ring before the watch, what is
    sent or held, what is queued, and what came after the watch was dropped. *)
Record active_ok (v : view) (a0 a1 a2 a3 : list Transaction) : Prop := {
  ac_acc : v_acc v = a0 ++ a1 ++ a2 ++ a3;
  ac_skip : length a0 = v_skip v;
  ac_in : v_in v = true → a3 = [];
  ac_queue : item_data <$> (hand_of (v_pc v) ++ w_queue (v_obj v)) =
             tx_item (v_obj v) <$> base.filter (touches (v_obj v)) a2;
  ac_need : v_need v = need_of (v_pc v);
  ac_sent :
    match need_of (v_pc v) with
    | Some n => batches_of (v_sent v) ++ (batch_data <$> todo_of (v_pc v)) = owed (v_obj v) n a1
    | None => batches_of (v_sent v) = [] ∧ streamed_of (v_pc v) = base.filter (touches (v_obj v)) a1
    end
}.

Record delivery_ok (v : view) : Prop := {
  dl_active : active (v_pc v) = true → ∃ a0 a1 a2 a3, active_ok v a0 a1 a2 a3;
  dl_prefix :
    match v_need v with
    | None => batches_of (v_sent v) = []
    | Some n => batches_of (v_sent v) `prefix_of` owed (v_obj v) n (drop (v_skip v) (v_acc v))
    end;
  dl_resume : ∀ c, v_need v = Some (NeedAfter c) → v_skip v = 0%nat
}.

(** ** Lists *)

Lemma batches_of_app es es' : batches_of (es ++ es') = batches_of es ++ batches_of es'.
Proof.
  induction es as [|e es IH]; simpl; [done|]. destruct e; simpl; by rewrite IH.
Qed.

Lemma owed_app obj n ts ts' : owed obj n (ts ++ ts') = owed obj n ts ++ owed obj n ts'.
Proof. unfold owed. by rewrite filter_app, fmap_app. Qed.

Lemma owed_none obj n ts : base.filter (touches obj) ts = [] → owed obj n ts = [].
Proof.
  intros Hf. unfold owed. rewrite list_filter_none; [done|]. apply Forall_forall.
  intros t Ht [_ Hr]. assert (t ∈ base.filter (touches obj) ts) as Hin.
  { by apply list_elem_of_filter. }
  rewrite Hf in Hin. by apply elem_of_nil in Hin.
Qed.

Lemma owed_single obj n t :
  touches obj t →
  owed obj n [t] = if decide (needed n t) then [tx_data (w_projection obj) (w_scope obj) t] else [].
Proof.
  intros Ht. unfold owed. rewrite filter_cons, filter_nil.
  destruct (decide (needed n t)); [by rewrite decide_True|by rewrite decide_False by naive_solver].
Qed.

Lemma owed_proper obj obj' n ts :
  w_projection obj' = w_projection obj → w_scope obj' = w_scope obj → owed obj' n ts = owed obj n ts.
Proof. unfold owed. by intros -> ->. Qed.

Lemma touches_proper obj obj' (ts : list Transaction) :
  w_projection obj' = w_projection obj → w_scope obj' = w_scope obj →
  base.filter (touches obj') ts = base.filter (touches obj) ts.
Proof. intros Hp Hs. apply list_filter_ext. intros t _. unfold touches. by rewrite Hp, Hs. Qed.

Lemma tx_item_proper obj obj' :
  w_projection obj' = w_projection obj → w_scope obj' = w_scope obj → tx_item obj' = tx_item obj.
Proof. unfold tx_item. by intros -> ->. Qed.

(** The first relevant element splits the list. *)
Lemma filter_cons_split {A} (P : A → Prop) `{∀ x, Decision (P x)} (l : list A) x r :
  base.filter P l = x :: r →
  ∃ b c, l = b ++ x :: c ∧ base.filter P b = [] ∧ base.filter P c = r ∧ P x.
Proof.
  induction l as [|y l IH]; [done|]. rewrite filter_cons. destruct (decide (P y)) as [Hy|Hy].
  - intros [= -> <-]. by exists [], l.
  - intros (b & c & -> & Hb & Hc & Hx)%IH. exists (y :: b), c.
    by rewrite filter_cons_False.
Qed.

(** The invariant only reads what a watcher watches, not its queue. *)
Lemma same_watch_prefix v obj' n ts :
  w_projection obj' = w_projection (v_obj v) → w_scope obj' = w_scope (v_obj v) →
  batches_of (v_sent v) `prefix_of` owed (v_obj v) n (drop (v_skip v) (v_acc v)) →
  batches_of (v_sent v) `prefix_of` owed obj' n (drop (v_skip v) (v_acc v ++ ts)).
Proof.
  intros Hp Hs Hpre. rewrite (owed_proper (v_obj v)) by done. etrans; [exact Hpre|].
  rewrite drop_app, owed_app. by apply prefix_app_r.
Qed.

Lemma active_prefix v a0 a1 a2 a3 :
  active_ok v a0 a1 a2 a3 →
  match v_need v with
  | None => batches_of (v_sent v) = []
  | Some n => batches_of (v_sent v) `prefix_of` owed (v_obj v) n (drop (v_skip v) (v_acc v))
  end.
Proof.
  intros [Hacc Hsk _ _ Hn Hs]. rewrite Hn. destruct (need_of (v_pc v)) as [n|]; [|by destruct Hs].
  rewrite Hacc, <-Hsk, drop_app_length, owed_app, <-Hs, <-app_assoc. by apply prefix_app_r.
Qed.

(** ** Accepting *)

Lemma fate_watch v t registered obj :
  fate v t registered obj → w_projection obj = w_projection (v_obj v) ∧ w_scope obj = w_scope (v_obj v).
Proof. by destruct 1. Qed.

Lemma delivery_accept v t registered obj :
  fate v t registered obj → delivery_ok v → delivery_ok (view_accept v t registered obj).
Proof.
  intros Hfate [Hact Hpre Hres]. destruct (fate_watch v t registered obj Hfate) as [Hp Hs]. split; simpl.
  - intros Ha. destruct (Hact Ha) as (a0 & a1 & a2 & a3 & [Hacc Hsk Hin Hq Hn Hsent]).
    pose proof (touches_proper (v_obj v) obj) as Ht. pose proof (tx_item_proper (v_obj v) obj Hp Hs) as Hi.
    assert (∀ b2 b3, a2 ++ a3 ++ [t] = b2 ++ b3 → (registered = true → b3 = []) →
      item_data <$> (hand_of (v_pc v) ++ w_queue obj) =
        tx_item (v_obj v) <$> base.filter (touches (v_obj v)) b2 →
      active_ok (view_accept v t registered obj) a0 a1 b2 b3) as Hmk.
    { intros b2 b3 Heq Hb3 Hbq. split; simpl.
      - by rewrite Hacc, <-!app_assoc, Heq.
      - done.
      - done.
      - by rewrite Ht, Hi by done.
      - done.
      - destruct (need_of (v_pc v)); [by rewrite (owed_proper (v_obj v))|]. by rewrite Ht by done. }
    exists a0, a1. destruct Hfate as [Hv|Hv Hr|reason Hv|memo Hv Hr].
    + exists a2, (a3 ++ [t]). by apply Hmk.
    + rewrite (Hin Hv) in *. exists (a2 ++ [t]), []. apply Hmk; [by rewrite app_nil_r|done|].
      by rewrite Hq, filter_app, filter_cons_False, filter_nil, app_nil_r.
    + exists a2, (a3 ++ [t]). by apply Hmk.
    + rewrite (Hin Hv) in *. exists (a2 ++ [t]), []. apply Hmk; [by rewrite app_nil_r|done|].
      simpl. by rewrite app_assoc, !fmap_app, <-fmap_app, Hq, filter_app, filter_cons_True, filter_nil, fmap_app.
  - destruct (v_need v); [|done]. by apply same_watch_prefix.
  - done.
Qed.

(** ** The watch's own steps *)

Lemma owed_filter obj n ts : owed obj n (base.filter (touches obj) ts) = owed obj n ts.
Proof.
  induction ts as [|t ts IH]; [done|]. rewrite filter_cons.
  change (t :: ts) with ([t] ++ ts). rewrite owed_app. destruct (decide (touches obj t)) as [Ht|Ht].
  - change (t :: base.filter (touches obj) ts) with ([t] ++ base.filter (touches obj) ts).
    by rewrite owed_app, IH.
  - rewrite (owed_none obj n [t]); [exact IH|]. by rewrite filter_cons_False.
Qed.

Lemma owed_after obj c ts :
  (∀ t, t ∈ ts → sourceID (tx_cursor t) = sourceID c) →
  owed obj (NeedAfter c) ts =
  tx_data (w_projection obj) (w_scope obj) <$>
    base.filter (λ t, lsn c ≤ tx_commitLSN t ∧ relevant (w_projection obj) (w_scope obj) t) ts.
Proof.
  intros Hs. unfold owed. f_equal. apply list_filter_ext. intros t Ht. unfold needed, run_need, After.
  rewrite decide_False by (intros H; by apply H, Hs). split; intros [H1 H2]; (split; [|done]).
  - injection H1 as H1. by apply bool_decide_eq_true in H1.
  - by rewrite bool_decide_true.
Qed.

Lemma streamed_loop_spec obj n ts bs bs' :
  streamed_loop obj n ts bs = Ok bs' →
  batch_data <$> bs' = (batch_data <$> bs) ++ owed obj n ts.
Proof.
  revert bs. induction ts as [|t ts IH]; intros bs; cbn [streamed_loop].
  { intros [= ->]. unfold owed. by rewrite filter_nil, app_nil_r. }
  destruct (run_need n t) as [b|e] eqn:Hn; simpl; [|done]. intros ->%IH.
  change (t :: ts) with ([t] ++ ts). rewrite owed_app, app_assoc. f_equal.
  unfold owed. rewrite filter_cons, filter_nil. destruct b.
  - rewrite appendBatch_data. f_equal. rewrite filter_cons, filter_nil.
    destruct (decide (relevant _ _ t)); [by rewrite decide_True|by rewrite decide_False by naive_solver].
  - rewrite decide_False; [by rewrite app_nil_r|]. unfold needed. intros [? _]. congruence.
Qed.

Lemma obj_after_watch at_ obj :
  w_projection (obj_after at_ obj) = w_projection obj ∧ w_scope (obj_after at_ obj) = w_scope obj.
Proof. by destruct at_. Qed.

Lemma inactive_need at_ : active at_ = false → need_of at_ = None.
Proof. by destruct at_. Qed.

(** A step that ends the watch, or that has not started it. *)
Lemma delivery_final v h h' at' events w :
  delivery_ok v → active at' = false → batches_of events = [] → v_pc v ≠ PcSnapshot →
  delivery_ok (view_own v h h' at' events w).
Proof.
  intros [_ Hpre Hres] Ha He Hsn. destruct (obj_after_watch (v_pc v) (v_obj v)) as [Hp Hs].
  assert (match v_pc v with PcSnapshot => length (v_acc v) - length (h_ring h) | _ => v_skip v end
          = v_skip v)%nat as Hsk by (by destruct (v_pc v)).
  split; simpl; rewrite ?Hsk, ?(inactive_need at' Ha), ?batches_of_app, ?He, ?app_nil_r; [congruence| |done].
  destruct (v_need v); [|done]. by rewrite (owed_proper (v_obj v)).
Qed.

(** A step between two points of an active watch: some of the queued part may
    move to the sent part. *)
Lemma delivery_next v h h' at' events w a0 a1 a2 a3 b1 b2 :
  delivery_ok v → active_ok v a0 a1 a2 a3 → v_pc v ≠ PcSnapshot →
  (bool_decide (w ∈ h_watchers h') = true → v_in v = true) →
  a1 ++ a2 = b1 ++ b2 →
  item_data <$> (hand_of at' ++ w_queue (obj_after (v_pc v) (v_obj v))) =
    tx_item (v_obj v) <$> base.filter (touches (v_obj v)) b2 →
  (need_of at' = None → v_need v = None) →
  (∀ c, need_of at' = Some (NeedAfter c) → v_need v = Some (NeedAfter c)) →
  match need_of at' with
  | Some n => batches_of (v_sent v ++ events) ++ (batch_data <$> todo_of at') = owed (v_obj v) n b1
  | None => batches_of (v_sent v ++ events) = [] ∧ streamed_of at' = base.filter (touches (v_obj v)) b1
  end →
  delivery_ok (view_own v h h' at' events w).
Proof.
  intros Hdl [Hacc Hsk Hin Hq Hn Hsent] Hsn Hreg Hab Hq' Hnone Hafter Hsent'.
  destruct (obj_after_watch (v_pc v) (v_obj v)) as [Hp Hs].
  assert (match v_pc v with PcSnapshot => length (v_acc v) - length (h_ring h) | _ => v_skip v end
          = v_skip v)%nat as Hsk' by (by destruct (v_pc v)).
  assert (active_ok (view_own v h h' at' events w) a0 b1 b2 a3) as Hact.
  { split; simpl; rewrite ?Hsk'; auto.
    - rewrite Hacc. f_equal. by rewrite !app_assoc, Hab.
    - by rewrite (touches_proper (v_obj v)), (tx_item_proper (v_obj v)).
    - destruct (need_of at'); auto.
    - destruct (need_of at'); [by rewrite (owed_proper (v_obj v))|by rewrite (touches_proper (v_obj v))]. }
  split.
  - intros _. by exists a0, b1, b2, a3.
  - by apply active_prefix in Hact.
  - intros c. simpl. rewrite Hsk'. destruct (need_of at') as [n|] eqn:En.
    + intros [= ->]. by apply (dl_resume v Hdl c), Hafter.
    + apply (dl_resume v Hdl c).
Qed.

(** The queued head is the next relevant transaction of the history. *)
Lemma queue_head obj item rest a2 :
  item_data <$> (item :: rest) = tx_item obj <$> base.filter (touches obj) a2 →
  ∃ b t c, a2 = (b ++ [t]) ++ c ∧ item_data item = tx_item obj t ∧ touches obj t ∧
    base.filter (touches obj) b = [] ∧
    item_data <$> rest = tx_item obj <$> base.filter (touches obj) c.
Proof.
  destruct (base.filter (touches obj) a2) as [|t r] eqn:Hf; [done|]. rewrite !fmap_cons.
  intros [= H1 H2 H3]. destruct (filter_cons_split _ _ _ _ Hf) as (b & c & -> & Hb & Hc & Ht).
  exists b, t, c. split; [by rewrite <-app_assoc|]. split; [unfold item_data, tx_item; congruence|].
  split; [done|]. split; [done|]. rewrite Hc. exact H3.
Qed.

Lemma owed_head obj n b t :
  base.filter (touches obj) b = [] → touches obj t →
  owed obj n (b ++ [t]) =
  if decide (needed n t) then [tx_data (w_projection obj) (w_scope obj) t] else [].
Proof. intros Hb Ht. by rewrite owed_app, owed_none, owed_single. Qed.

(** The decomposition of the history an active watch has. *)
Ltac start_active v Hv Epc :=
  let Hact := fresh "Hact" in
  destruct (dl_active v Hv) as (a0 & a1 & a2 & a3 & Hact); [by rewrite Epc|];
  pose proof Hact as [Hacc Hsk Hin3 Hq Hn Hsent];
  rewrite Epc in Hq, Hn, Hsent; cbn [need_of] in Hn, Hsent.

Ltac nil_done :=
  simpl in *; rewrite ?batches_of_app; simpl; rewrite ?app_nil_r in *; done.

(** A step to another active point, with its trivial obligations. *)
Ltac stay a0 a1 a2 a3 b1 b2 :=
  match goal with
  | Hact : active_ok _ _ _ _ _, Hnext : ∀ a0 a1 a2 a3 b1 b2, _, Hw : _ ↔ _ |- _ =>
      apply (Hnext a0 a1 a2 a3 b1 b2 Hact);
      [done|by apply Hw|try done|simpl; try done|simpl; try done; try congruence
      |simpl; try done; try congruence|simpl; try done]
  end.

Section Own.
Context `{LsnText}.

Lemma delivery_own v h w c h' at' events :
  view_base v → hub_ok h → window_ok (v_acc v) h → h_heap h !! w = Some (v_obj v) →
  h_sourceID h = v_source v → bool_decide (w ∈ h_watchers h) = v_in v →
  watch_step h (v_closed v) w (v_obj v) (v_pc v) c = Some (h', at', events) →
  delivery_ok v → delivery_ok (view_own v h h' at' events w).
Proof.
  intros Hb Hok Hwin Hobj Hsrc Hin Hstep Hv.
  destruct (own_frame v h w c h' at' events Hb Hok Hobj Hsrc Hin Hstep) as (_ & _ & Hw).
  pose proof (λ Hsn Ha He, delivery_final v h h' at' events w Hv Ha He Hsn) as Hfinal.
  pose proof (vb_start v Hb) as Hstart.
  pose proof (λ a0 a1 a2 a3 b1 b2 Hact Hsn Hi, delivery_next v h h' at' events w a0 a1 a2 a3 b1 b2 Hv Hact Hsn Hi)
    as Hnext.
  destruct (v_pc v) as [rc|cur|cur todo| |str|str|str sn|str sn|todo sn|todo sn|todo sn|a lv|a lv p|a lv p item
    |a lv p|a lv p|rg rs|out|out] eqn:Epc; simpl in Hstep, Hw.
  - injection Hstep as <- <- <-. apply Hfinal; [done| |done]. unfold watch_start.
    repeat case_match; done.
  - destruct Hstart as (Hq0 & _ & Hs0 & Hk0 & Hn0); [eauto|].
    pose proof (resume_locked_spec (v_acc v) h w (v_obj v) cur Hwin) as Hres.
    destruct (resume_locked h w (v_obj v) cur) as [reason|e|h1 backlog]; injection Hstep as <- <- <-;
      [by apply Hfinal..|]. destruct Hres as (_ & Hc & Hdata).
    assert (active_ok (view_own v h h1 (PcBacklog cur backlog) [] w) [] (v_acc v) [] []) as Hact.
    { split; simpl; rewrite ?Epc; simpl; rewrite ?Hq0, ?Hs0, ?Hk0, ?app_nil_r; try done. simpl. rewrite owed_after, Hdata; [done|].
      intros t Ht. rewrite Hc. by apply (win_wf _ _ Hwin). }
    split; [eauto|by apply active_prefix in Hact|]. intros c' _. simpl. by rewrite Epc.
  - start_active v Hv Epc. destruct todo as [|batch todo].
    + injection Hstep as <- <- <-. stay a0 a1 a2 a3 a1 a2. nil_done.
    + sending_cases; [|by apply Hfinal]. stay a0 a1 a2 a3 a1 a2.
      rewrite batches_of_app, <-Hsent, <-app_assoc. done.
  - destruct Hstart as (Hq0 & _ & Hs0 & Hk0 & Hn0); [auto|]. injection Hstep as <- <- <-.
    destruct (win_ring _ _ Hwin) as (evicted & Hacc & _).
    match goal with |- delivery_ok (view_own _ _ ?h1 ?at1 _ _) =>
      assert (active_ok (view_own v h h1 at1 [] w) evicted (h_ring h) [] []) as Hact end.
    { split; simpl; rewrite ?Epc; simpl; rewrite ?Hq0, ?Hs0, ?Hk0, ?app_nil_r; try done.
      - rewrite Hacc, length_app. lia.
      - split; [done|]. apply list_filter_ext. intros t _. unfold touches, relevant.
        destruct (proj_changes _ _ t); simpl; split; (done || lia). }
    split; [eauto|by apply active_prefix in Hact|]. intros c'. simpl. congruence.
  - start_active v Hv Epc. sending_cases; [|by apply Hfinal]. stay a0 a1 a2 a3 a1 a2.
    rewrite batches_of_app. by destruct Hsent as [-> ?].
  - start_active v Hv Epc. destruct c as [| |rows|[sn|e]| | | |]; try done; injection Hstep as <- <- <-.
    + stay a0 a1 a2 a3 a1 a2. rewrite batches_of_app. by destruct Hsent as [-> ?].
    + stay a0 a1 a2 a3 a1 a2. nil_done.
    + apply Hfinal; [done| |done]. simpl. repeat case_match; done.
  - start_active v Hv Epc. injection Hstep as <- <- <-.
    destruct (w_overflow (v_obj v)); [by apply Hfinal|]. stay a0 a1 a2 a3 a1 a2. nil_done.
  - start_active v Hv Epc. injection Hstep as <- <- <-.
    destruct (streamed_loop _ _ _ _) as [bs|e] eqn:Hloop; [|by apply Hfinal].
    apply streamed_loop_spec in Hloop. destruct Hsent as [Hs0 Hstr]. simpl in Hstr. subst str.
    rewrite owed_filter in Hloop. stay a0 a1 a2 a3 a1 a2. by rewrite app_nil_r, Hs0, Hloop.
  - start_active v Hv Epc. injection Hstep as <- <- <-. stay a0 a1 a2 a3 a1 a2. nil_done.
  - start_active v Hv Epc. sending_cases; [|by apply Hfinal]. stay a0 a1 a2 a3 a1 a2. nil_done.
  - start_active v Hv Epc. destruct todo as [|batch todo].
    + injection Hstep as <- <- <-. stay a0 a1 a2 a3 a1 a2. nil_done.
    + sending_cases; [|by apply Hfinal]. stay a0 a1 a2 a3 a1 a2.
      rewrite batches_of_app, <-Hsent, <-app_assoc. done.
  - start_active v Hv Epc. injection Hstep as <- <- <-. stay a0 a1 a2 a3 a1 a2. nil_done.
  - start_active v Hv Epc. unfold live_drain in Hstep. destruct (w_queue (v_obj v)) as [|item rest] eqn:Eq.
    + injection Hstep as <- <- <-. destruct (_ || _); stay a0 a1 a2 a3 a1 a2;
        rewrite ?Eq; nil_done.
    + injection Hstep as <- <- <-. stay a0 a1 a2 a3 a1 a2; rewrite ?Eq; nil_done.
  - start_active v Hv Epc. simpl in Hq.
    destruct (queue_head (v_obj v) item (w_queue (v_obj v)) a2 Hq)
      as (b & t & c2 & Ha2 & Hit & Ht & Hb0 & Hrest). injection Hit as Hit1 Hit2.
    unfold live_deliver in Hstep. rewrite Hit1 in Hstep.
    pose proof (owed_head (v_obj v) (lv_need a) b t Hb0 Ht) as Howed.
    destruct (run_need (lv_need a) t) as [[]|e] eqn:Hneed.
    + rewrite decide_True in Howed by done. sending_cases; [|by apply Hfinal].
      stay a0 a1 a2 a3 (a1 ++ b ++ [t]) c2; [by rewrite Ha2, <-!app_assoc|].
      rewrite app_nil_r, batches_of_app, owed_app, Howed. simpl in Hsent. rewrite app_nil_r in Hsent.
      rewrite Hsent. simpl. unfold batch_data. simpl. by rewrite Hit2.
    + injection Hstep as <- <- <-. rewrite decide_False in Howed by (unfold needed; congruence).
      stay a0 a1 a2 a3 (a1 ++ b ++ [t]) c2; [by rewrite Ha2, <-!app_assoc|].
      rewrite !app_nil_r, owed_app, Howed, app_nil_r. simpl in Hsent. by rewrite app_nil_r in Hsent.
    + injection Hstep as <- <- <-. by apply Hfinal.
  - start_active v Hv Epc. sending_cases; [|by apply Hfinal]. stay a0 a1 a2 a3 a1 a2.
    nil_done.
  - start_active v Hv Epc. destruct (live_select _ _ _ _ _ _ _) eqn:Hsel; simpl in Hstep; [|done].
    injection Hstep as <- <- <-. unfold live_select in Hsel.
    destruct c; simpl in Hsel; try done.
    + injection Hsel as <-. by apply Hfinal.
    + destruct (w_overflow (v_obj v)); [|done]. injection Hsel as <-. by apply Hfinal.
    + destruct (h_stopped h); [|done]. injection Hsel as <-. by apply Hfinal.
    + destruct (decide (ps_tick p ∈ v_closed v)); [|done]. injection Hsel as <-.
      stay a0 a1 a2 a3 a1 a2. nil_done.
  - sending_cases; apply Hfinal; try done; by destruct rg.
  - injection Hstep as <- <- <-. by apply Hfinal.
  - done.
Qed.

Lemma view_delivery v : view_reach v → delivery_ok v.
Proof.
  induction 1 as [v Hnew|v v' Hr IH Hs].
  { destruct Hnew as (H1 & H2 & H3 & H4 & [[e H5]|[[rc H5] [H6 H7]]]);
      split; rewrite ?H2, ?H4, ?H5; simpl; congruence. }
  destruct Hs as [t registered obj| |h w c h' at' events]; [by apply delivery_accept| |].
  - destruct IH as [Hact Hpre Hres]. split; [|done|done]. intros Ha.
    destruct (Hact Ha) as (a0 & a1 & a2 & a3 & []). exists a0, a1, a2, a3. by split.
  - eapply delivery_own; eauto. by apply view_reach_base.
Qed.

End Own.

(** ** Properties *)

Section Properties.
Context `{LsnText}.

(** The batches sent are a prefix of what is owed. *)
Lemma sent_prefix s a w g obj n :
  sys_ok s a → s_gos s !! w = Some g → h_heap (s_hub s) !! w = Some obj → a_need a !! w = Some n →
  batches_of (g_sent g) `prefix_of` owed obj n (drop (aux_skip a w) (a_acc a)).
Proof.
  intros Hok Hg Hobj Hn. pose proof (dl_prefix _ (view_delivery _ (so_view _ _ Hok w g obj Hg Hobj))) as Hpre.
  simpl in Hpre. by rewrite Hn in Hpre.
Qed.

(** A registered watch that waits with an empty queue has sent all of it. *)
Lemma idle_owed s a w g obj n args vars p :
  sys_ok s a → s_gos s !! w = Some g → h_heap (s_hub s) !! w = Some obj → a_need a !! w = Some n →
  g_pc g = PcWait args vars p → w ∈ h_watchers (s_hub s) → w_queue obj = [] →
  batches_of (g_sent g) = owed obj n (drop (aux_skip a w) (a_acc a)).
Proof.
  intros Hok Hg Hobj Hn Hpc Hin Hq. pose proof (view_delivery _ (so_view _ _ Hok w g obj Hg Hobj)) as Hdl.
  destruct (dl_active _ Hdl) as (a0 & a1 & a2 & a3 & [Hacc Hsk Hin3 Hq' Hn' Hsent]); [simpl; by rewrite Hpc|].
  simpl in *. rewrite Hpc in *. simpl in *. rewrite bool_decide_true in Hin3 by done.
  rewrite (Hin3 eq_refl) in Hacc. rewrite Hq in Hq'. rewrite app_nil_r in Hsent, Hacc.
  rewrite Hacc, <-Hsk, drop_app_length, owed_app.
  assert (n = lv_need args) as -> by congruence. rewrite Hsent, (owed_none _ _ a2); [by rewrite app_nil_r|].
  symmetry in Hq'. simpl in Hq'. by apply fmap_nil_inv in Hq'.
Qed.

(** C3 (refinement): every watch is exactly-once and in order. At any moment of any
    interleaving, the batches a watch has sent are a prefix of what the
    accepted history owes it: the transactions its start point does not cover
    that touch its scope, in commit order, each once and whole. A watch that
    resumed is owed from the whole history; a snapshot watch from what was in
    the ring when it registered. A waiting watch that is still registered and
    has nothing queued has sent all of it. *)
Theorem watch_exactly_once s a w g obj :
  reachable s a → s_gos s !! w = Some g → h_heap (s_hub s) !! w = Some obj →
  match a_need a !! w with
  | None => batches_of (g_sent g) = []
  | Some n =>
      batches_of (g_sent g) `prefix_of` owed obj n (drop (aux_skip a w) (a_acc a)) ∧
      (∀ c, n = NeedAfter c → aux_skip a w = 0%nat) ∧
      (∀ args vars p, g_pc g = PcWait args vars p → w ∈ h_watchers (s_hub s) → w_queue obj = [] →
         batches_of (g_sent g) = owed obj n (drop (aux_skip a w) (a_acc a)))
  end.
Proof.
  intros Hr Hg Hobj. pose proof (reachable_ok s a Hr) as Hok.
  destruct (a_need a !! w) as [n|] eqn:Hn.
  - split; [by eapply sent_prefix|]. split; [|by intros args vars p; eapply idle_owed].
    pose proof (dl_resume _ (view_delivery _ (so_view _ _ Hok w g obj Hg Hobj))) as Hres.
    simpl in Hres. naive_solver.
  - pose proof (dl_prefix _ (view_delivery _ (so_view _ _ Hok w g obj Hg Hobj))) as Hpre.
    simpl in Hpre. by rewrite Hn in Hpre.
Qed.

End Properties.

Lemma watch_exactly_once_witness :
  batches_of (g_sent (demo_go 4 (demo_snapshot_watch 0) 0))
  `prefix_of` owed (demo_obj 4 (demo_snapshot_watch 0) 0) (NeedNotCovered (demo_snapshot 15 2))
                [demo_tx 10 1 "a" ["1"]; demo_tx 20 2 "a" ["2"; "3"]].
Proof.
  assert (is_Some (s_gos (demo_run 4 (demo_snapshot_watch 0)) !! 0%nat)) as Hg by (vm_compute; eauto).
  assert (is_Some (h_heap (s_hub (demo_run 4 (demo_snapshot_watch 0))) !! 0%nat)) as Ho by (vm_compute; eauto).
  exact (proj1 (@watch_exactly_once hex_lsn_text (demo_run 4 (demo_snapshot_watch 0))
    (demo_aux 4 (demo_snapshot_watch 0)) 0 _ _
    (demo_reachable 4 (demo_snapshot_watch 0) eq_refl) (demo_go_Some _ _ _ Hg) (demo_obj_Some _ _ _ Ho))).
Defined.
