(* ===== verification/HubProgress.v ===== *)
(** * What Progress means

    A watch that reports Progress at a cursor has delivered everything it
    needs through that cursor, now and whatever is accepted later. *)

From S2P Require Import Prelude Errors CdcTypes Visibility Events Hub HubRegistry HubAccept HubWindow.
From S2P Require Import HubProps HubWatch HubSystem HubProtocol HubDelivery.
Local Open Scope string_scope.
Local Open Scope list_scope.
Local Open Scope Z_scope.

(** ** Specification *)

(** Where the watch's projection stands before any live transaction. *)
Definition base_of (n : need) : Cursor :=
  match n with NeedAfter c => c | NeedNotCovered sn => sn_cursor sn end.

(** Everything [n] needs through [c] is among the batches [sent]. *)
Definition delivered_through (obj : watcher) (n : need) (history : list Transaction)
    (sent : list Event) (c : Cursor) : Prop :=
  ∀ t, t ∈ history → lsn (tx_cursor t) ≤ lsn c → needed n t → touches obj t →
    tx_data (w_projection obj) (w_scope obj) t ∈ batches_of sent.

(** The cursor a snapshot watch falls back to while the hub has received
    nothing: its snapshot's own, for a watch that registered before the hub
    forgot any transaction. *)
Definition fallback (skip : nat) (n : need) (c : Cursor) : Prop :=
  match n with NeedAfter _ => False | NeedNotCovered sn => c = sn_cursor sn ∧ skip = 0%nat end.

(** A watch that resumed never reports less than where it resumed. *)
Definition past_base (n : need) (c : Cursor) : Prop :=
  match n with NeedAfter base => lsn base ≤ lsn c | NeedNotCovered _ => True end.

(** [c] is the end of a transaction the hub has accepted, or where the watch
    resumed, or what it fell back to. *)
Definition reached (acc : list Transaction) (skip : nat) (n : need) (c : Cursor) : Prop :=
  (∃ u, u ∈ acc ∧ c = tx_cursor u ∧ past_base n c) ∨ n = NeedAfter c ∨ fallback skip n c.

Lemma reached_past_base acc skip n c : reached acc skip n c → past_base n c.
Proof. intros [(u & _ & _ & H)|[->|H]]; [done|by simpl|]. by destruct n. Qed.

Lemma reached_base acc skip n :
  (∀ sn, n = NeedNotCovered sn → skip = 0%nat) → reached acc skip n (base_of n).
Proof. intros Hskip. right. destruct n as [c|sn]; [by left|right]. split; [done|by eapply Hskip]. Qed.

Definition claim (v : view) (n : need) (sent : list Event) (c : Cursor) : Prop :=
  reached (v_acc v) (v_skip v) n c ∧
  (delivered_through (v_obj v) n (drop (v_skip v) (v_acc v)) sent c ∨ fallback (v_skip v) n c).

Definition args_ok (source : string) (a : live_args) : Prop :=
  lv_base a = base_of (lv_need a) ∧
  match lv_need a with
  | NeedAfter c => lv_baseSafe a = true ∧ sourceID c = source
  | NeedNotCovered _ => lv_baseSafe a = false
  end.

Definition progress_at (v : view) : Prop :=
  match v_pc v with
  | PcBacklog c _ => sourceID c = v_source v
  | PcPosition a _ | PcWait a _ _ => args_ok (v_source v) a
  | PcDrain a _ p | PcDeliver a _ p _ => args_ok (v_source v) a ∧ reached (v_acc v) (v_skip v) (lv_need a) (ps_position p)
  | PcProgress a _ p =>
      args_ok (v_source v) a ∧
      (w_overflow (v_obj v) = false → claim v (lv_need a) (v_sent v) (ps_position p))
  | _ => True
  end.

Record progress_ok (v : view) : Prop := {
  pg_at : progress_at v;
  pg_sent : w_overflow (v_obj v) = false → ∀ pre c post, v_sent v = pre ++ Progress c :: post →
    ∃ n, v_need v = Some n ∧ claim v n pre c
}.

(** ** A longer history *)

Lemma reached_app acc t skip n c : reached acc skip n c → reached (acc ++ [t]) skip n c.
Proof. intros [(u & Hu & Hc)|H]; [left|by right]. exists u. split; [set_solver|done]. Qed.

(** A transaction after [c]'s reach is no part of what [c] promises. *)
Lemma needed_beyond source acc t skip n c :
  wf_tx source t → (∀ u, u ∈ acc → tx_before u t) → reached acc skip n c →
  lsn (tx_cursor t) ≤ lsn c → needed n t → fallback skip n c.
Proof.
  intros [_ Hwf] Hl [(u & Hu & Hc & _)|[->|H]] Hle Hn; [| |done].
  - specialize (Hl u Hu). unfold tx_before in Hl. subst c. lia.
  - unfold needed, run_need in Hn.
    apply After_spec in Hn as [_ Hn]. destruct Hn as [Hn _]. specialize (Hn eq_refl). lia.
Qed.

Lemma delivered_app source obj n acc t skip sent c :
  wf_tx source t → (∀ u, u ∈ acc → tx_before u t) → reached acc skip n c →
  delivered_through obj n (drop skip acc) sent c ∨ fallback skip n c →
  delivered_through obj n (drop skip (acc ++ [t])) sent c ∨ fallback skip n c.
Proof.
  intros Hwf Hl Hr [Hd|Hf]; [|by right].
  destruct (decide (lsn (tx_cursor t) ≤ lsn c ∧ needed n t)) as [[H1 H2]|Hno].
  { right. by eapply needed_beyond. }
  left. intros u Hu H1 H2 H3. rewrite drop_app in Hu. apply elem_of_app in Hu as [Hu|Hu]; [by apply Hd|].
  destruct (skip - length acc)%nat; simpl in Hu; [|by rewrite drop_nil in Hu; apply elem_of_nil in Hu].
  apply list_elem_of_singleton in Hu as ->. by destruct Hno.
Qed.

Lemma claim_accept v t registered obj n sent c :
  wf_tx (v_source v) t → (∀ u, u ∈ v_acc v → tx_before u t) →
  fate v t registered obj → claim v n sent c → claim (view_accept v t registered obj) n sent c.
Proof.
  intros Hwf Hl Hf [Hr Hd]. destruct (fate_watch v t registered obj Hf) as [Hp Hs]. split; simpl.
  - by apply reached_app.
  - destruct (delivered_app (v_source v) (v_obj v) n (v_acc v) t (v_skip v) sent c Hwf Hl Hr Hd) as [H|H];
      [left|by right]. unfold delivered_through, touches in *. by rewrite Hp, Hs.
Qed.

Lemma fate_open v t registered obj :
  fate v t registered obj → w_overflow obj = false → w_overflow (v_obj v) = false.
Proof. by destruct 1. Qed.

Lemma progress_accept v t registered obj :
  wf_tx (v_source v) t → (∀ u, u ∈ v_acc v → tx_before u t) →
  fate v t registered obj → progress_ok v → progress_ok (view_accept v t registered obj).
Proof.
  intros Hwf Hl Hf [Hat Hsent]. split.
  - unfold progress_at in *. simpl in *. destruct (v_pc v); try done;
      (destruct Hat as [Ha Hr]; split; [done|]).
    + by apply reached_app.
    + by apply reached_app.
    + intros Ho. apply claim_accept; try done. by apply Hr, (fate_open v t registered obj).
  - simpl. intros Ho pre c post Heq. pose proof (fate_open v t registered obj Hf Ho) as Ho'.
    destruct (Hsent Ho' pre c post Heq) as (n & Hn & Hc).
    exists n. split; [done|]. by apply claim_accept.
Qed.

(** ** The watch's own steps *)

Definition no_progress (es : list Event) : Prop := ∀ c, Progress c ∉ es.

Lemma progress_in_app sent events pre c post :
  no_progress events → sent ++ events = pre ++ Progress c :: post →
  ∃ post', sent = pre ++ Progress c :: post'.
Proof.
  intros Hno Heq. apply app_eq_inv in Heq as [(k & Hk1 & Hk2)|(k & -> & Hk2)].
  - destruct k as [|e k].
    + simpl in Hk2. destruct (Hno c). rewrite <-Hk2. by left.
    + simpl in Hk2. injection Hk2 as <- _. by exists k.
  - destruct (Hno c). rewrite Hk2. apply elem_of_app. right. by left.
Qed.

Lemma progress_snoc sent c' pre c post :
  sent ++ [Progress c'] = pre ++ Progress c :: post →
  (pre = sent ∧ c = c') ∨ ∃ post', sent = pre ++ Progress c :: post'.
Proof.
  destruct post as [|e post] using rev_ind; intros Heq.
  - left. apply app_inj_tail in Heq as [-> [= ->]]. done.
  - right. clear IHpost. rewrite app_comm_cons, app_assoc in Heq. apply app_inj_tail in Heq as [-> _].
    by exists post.
Qed.

Lemma claim_own v h h' at' events w n sent c :
  v_pc v ≠ PcSnapshot → claim v n sent c → claim (view_own v h h' at' events w) n sent c.
Proof.
  intros Hsn [Hr Hd]. destruct (obj_after_watch (v_pc v) (v_obj v)) as [Hp Hs].
  assert (v_skip (view_own v h h' at' events w) = v_skip v) as Hskip by (simpl; by destruct (v_pc v)).
  unfold claim. rewrite Hskip. split; [done|]. unfold delivered_through, touches in *. simpl. by rewrite Hp, Hs.
Qed.

(** When the queue is drained, a registered watch has sent all it is owed. *)
Lemma drained_claim v a0 a1 a2 a3 n c :
  active_ok v a0 a1 a2 a3 → view_base v → active (v_pc v) = true → need_of (v_pc v) = Some n →
  todo_of (v_pc v) = [] → hand_of (v_pc v) = [] → w_queue (v_obj v) = [] →
  w_overflow (v_obj v) = false → reached (v_acc v) (v_skip v) n c → claim v n (v_sent v) c.
Proof.
  intros [Hacc Hsk Hin Hq _ Hsent] Hb Ha Hn Htodo Hhand Hqu Ho Hr. split; [done|]. left.
  assert (a3 = []) as ->.
  { apply Hin. destruct (vb_in v Hb) as [|]; [by destruct (v_pc v)|done|congruence]. }
  rewrite Hn, Htodo in Hsent. rewrite Hhand, Hqu in Hq. simpl in Hq, Hsent.
  intros t Ht _ Hneed Htch. rewrite app_nil_r in Hsent. rewrite Hsent.
  rewrite Hacc, <-Hsk, drop_app_length, app_nil_r in Ht. apply elem_of_app in Ht as [Ht|Ht].
  - unfold owed. apply list_elem_of_fmap_2, list_elem_of_filter. done.
  - assert (t ∈ base.filter (touches (v_obj v)) a2) as Hin2 by (by apply list_elem_of_filter).
    apply (list_elem_of_fmap_2 (tx_item (v_obj v))) in Hin2. rewrite <-Hq in Hin2. by apply elem_of_nil in Hin2.
Qed.

Section Own.
Context `{LsnText}.

Lemma watch_step_need h closed w obj at_ c h' at' events :
  watch_step h closed w obj at_ c = Some (h', at', events) →
  (need_of at' = None ∨ need_of at' = need_of at_ ∨ (∃ cur, at_ = PcResume cur) ∨
   ∃ str sn, at_ = PcUnstale str sn) ∧
  (no_progress events ∨ ∃ a v p, at_ = PcProgress a v p ∧ events = [Progress (ps_position p)]).
Proof.
  intros Hstep. unfold no_progress.
  destruct at_ as [rc|cur|cur todo| |str|str|str sn|str sn|todo sn|todo sn|todo sn|a v|a v p|a v p item
    |a v p|a v p|rg rs|out|out]; simpl in Hstep.
  - injection Hstep as <- <- <-. unfold watch_start. repeat case_match; set_solver.
  - destruct (resume_locked _ _ _ _); injection Hstep as <- <- <-; split; eauto; set_solver.
  - destruct todo; [injection Hstep as <- <- <-|sending_cases]; split; auto; set_solver.
  - injection Hstep as <- <- <-. set_solver.
  - sending_cases; set_solver.
  - destruct c as [| | |[sn|e]| | | |]; try done; injection Hstep as <- <- <-;
      [set_solver..|]. simpl. repeat case_match; set_solver.
  - injection Hstep as <- <- <-. destruct (w_overflow obj); set_solver.
  - injection Hstep as <- <- <-. split; [eauto 10|set_solver].
  - injection Hstep as <- <- <-. split; auto; set_solver.
  - sending_cases; split; auto; set_solver.
  - destruct todo; [injection Hstep as <- <- <-|sending_cases]; split; auto; set_solver.
  - injection Hstep as <- <- <-. split; auto; set_solver.
  - unfold live_drain in Hstep. destruct (w_queue obj); injection Hstep as <- <- <-;
      [destruct (_ || _)|]; split; auto; set_solver.
  - unfold live_deliver in Hstep. destruct (run_need _ _) as [[]|];
      [sending_cases|injection Hstep as <- <- <-..]; split; auto; set_solver.
  - sending_cases; split; auto; [right; eauto|set_solver].
  - destruct (live_select _ _ _ _ _ _ _) eqn:Hsel; simpl in Hstep; [|done].
    injection Hstep as <- <- <-. unfold live_select in Hsel.
    destruct c; simpl in Hsel; repeat case_match; try done; injection Hsel as <-; split; auto; set_solver.
  - sending_cases; destruct rg; split; auto; set_solver.
  - injection Hstep as <- <- <-. split; auto; set_solver.
  - done.
Qed.

(** The position [live] starts a turn at. *)
Lemma start_position_reached acc skip h a :
  window_ok acc h → args_ok (h_sourceID h) a → (acc = [] → skip = 0%nat) →
  reached acc skip (lv_need a) (start_position a (h_received h) (h_hasReceived h)).
Proof.
  intros Hwin [Hbase Hsafe] Hskip. unfold start_position. pose proof (win_received _ _ Hwin) as Hrec.
  destruct (last acc) as [u|] eqn:Hl.
  - destruct Hrec as [-> Hr]. simpl. destruct (_ && _) eqn:Hlater.
    { rewrite Hbase. apply reached_base. intros sn Hn. rewrite Hn in Hsafe. by rewrite Hsafe in Hlater. }
    left. exists u.
    assert (u ∈ acc) as Hu by (apply last_Some in Hl as [l ->]; set_solver).
    rewrite Hr in *. split_and!; [done..|]. unfold past_base. destruct (lv_need a) as [c|]; [|done].
    destruct Hsafe as [Hsafe Hs]. rewrite Hbase, Hsafe in Hlater. simpl in Hlater.
    apply later_false in Hlater; [done|]. by rewrite Hs, (proj1 (win_wf _ _ Hwin u Hu)).
  - rewrite Hrec. simpl. rewrite Hbase. apply reached_base. intros _ _. by apply Hskip, last_None.
Qed.

Lemma progress_at_own v h w c h' at' events :
  view_base v → hub_ok h → window_ok (v_acc v) h → h_heap h !! w = Some (v_obj v) →
  h_sourceID h = v_source v →
  watch_step h (v_closed v) w (v_obj v) (v_pc v) c = Some (h', at', events) →
  delivery_ok v → progress_ok v → progress_at (view_own v h h' at' events w).
Proof.
  intros Hb Hok Hwin Hobj Hsrc Hstep Hdl [Hat _]. unfold progress_at in *. simpl.
  pose proof (λ Hsn n s c', claim_own v h h' at' events w n s c' Hsn) as Hclaim.
  destruct (v_pc v) as [rc|cur|cur todo| |str|str|str sn|str sn|todo sn|todo sn|todo sn|a lv|a lv p|a lv p item
    |a lv p|a lv p|rg rs|out|out] eqn:Epc; simpl in Hstep.
  - injection Hstep as <- <- <-. unfold watch_start. repeat case_match; done.
  - pose proof (resume_locked_spec (v_acc v) h w (v_obj v) cur Hwin) as Hres.
    destruct (resume_locked _ _ _ _); injection Hstep as <- <- <-; [done..|]. simpl.
    destruct Hres as (_ & Hc & _). by rewrite <-Hsrc.
  - destruct todo; [by injection Hstep as <- <- <-|by sending_cases].
  - by injection Hstep as <- <- <-.
  - by sending_cases.
  - destruct c as [| | |[sn|e]| | | |]; try done; injection Hstep as <- <- <-; try done.
    simpl. repeat case_match; done.
  - injection Hstep as <- <- <-. by destruct (w_overflow _).
  - injection Hstep as <- <- <-. by destruct (streamed_loop _ _ _ _).
  - by injection Hstep as <- <- <-.
  - by sending_cases.
  - destruct todo; [by injection Hstep as <- <- <-|by sending_cases].
  - injection Hstep as <- <- <-. simpl. split; [done|]. apply start_position_reached; [done|by rewrite Hsrc|].
    intros Hnil. destruct (dl_active v Hdl) as (a0 & a1 & a2 & a3 & [Hacc Hsk _ _ _ _]); [by rewrite Epc|].
    rewrite Hnil in Hacc. by destruct a0.
  - unfold live_drain in Hstep. destruct Hat as [Ha Hr].
    destruct (w_queue (v_obj v)) as [|item rest] eqn:Eq; injection Hstep as <- <- <-; [|done].
    destruct (_ || _); [|done]. split; [done|]. simpl. rewrite app_nil_r. intros Ho.
    apply Hclaim; [done|].
    destruct (dl_active v Hdl) as (a0 & a1 & a2 & a3 & Hact); [by rewrite Epc|].
    eapply drained_claim; rewrite ?Epc; eauto.
  - unfold live_deliver in Hstep. destruct Hat as [Ha Hr].
    assert (reached (v_acc v) (v_skip v) (lv_need a)
      (if later (tx_cursor (q_transaction item)) (ps_position p)
       then tx_cursor (q_transaction item) else ps_position p)) as Hr'.
    { destruct (later _ _) eqn:Hlater; [|done]. left.
      destruct (dl_active v Hdl) as (a0 & a1 & a2 & a3 & [Hacc _ _ Hq _ _]); [by rewrite Epc|].
      rewrite Epc in Hq. simpl in Hq.
      destruct (queue_head _ _ _ _ Hq) as (b & t & c2 & -> & Hit & _). injection Hit as Hit _. rewrite Hit.
      assert (t ∈ v_acc v) as Ht by (rewrite Hacc; set_solver).
      exists t. split_and!; [done..|]. apply reached_past_base in Hr. rewrite Hit in Hlater.
      apply later_true in Hlater as [_ Hlater]. unfold past_base in *. destruct (lv_need a); [lia|done]. }
    destruct (run_need _ _) as [[]|]; [sending_cases|injection Hstep as <- <- <-..]; done.
  - destruct Hat as [Ha _]. by sending_cases.
  - destruct (live_select _ _ _ _ _ _ _) eqn:Hsel; simpl in Hstep; [|done].
    injection Hstep as <- <- <-. unfold live_select in Hsel.
    destruct c; simpl in Hsel; repeat case_match; try done; by injection Hsel as <-.
  - sending_cases; by destruct rg.
  - by injection Hstep as <- <- <-.
  - done.
Qed.

Lemma progress_own v h w c h' at' events :
  view_base v → hub_ok h → window_ok (v_acc v) h → h_heap h !! w = Some (v_obj v) →
  h_sourceID h = v_source v →
  watch_step h (v_closed v) w (v_obj v) (v_pc v) c = Some (h', at', events) →
  delivery_ok v → progress_ok v → progress_ok (view_own v h h' at' events w).
Proof.
  intros Hb Hok Hwin Hobj Hsrc Hstep Hdl Hpg.
  split; [by eapply progress_at_own|]. simpl. rewrite obj_after_overflow. intros Ho pre c' post Heq.
  destruct (watch_step_need _ _ _ _ _ _ _ _ _ Hstep) as [Hneed Hev].
  assert (∀ n, v_need v = Some n →
    match need_of at' with Some n' => Some n' | None => v_need v end = Some n) as Hsame.
  { intros n Hn. destruct (need_of at') as [n'|] eqn:En; [|done].
    destruct Hneed as [|[Heq'|[[cur Ec]|(str & sn & Ec)]]]; [done| | |].
    - destruct (dl_active v Hdl) as (a0 & a1 & a2 & a3 & [_ _ _ _ Hn' _]); [by destruct (v_pc v)|]. congruence.
    - destruct (vb_start v Hb) as (_ & _ & _ & _ & ?); [eauto|]. congruence.
    - destruct (dl_active v Hdl) as (a0 & a1 & a2 & a3 & [_ _ _ _ Hn' _]); [by rewrite Ec|].
      rewrite Ec in Hn'. simpl in Hn'. congruence. }
  assert (v_pc v = PcSnapshot → v_sent v = [] ∧ events = []) as Hsnap.
  { intros Ec. destruct (vb_start v Hb) as (_ & _ & Hs & _); [auto|]. split; [done|].
    rewrite Ec in Hstep. simpl in Hstep. by injection Hstep as <- <- <-. }
  assert (v_pc v ≠ PcSnapshot) as Hnsn.
  { intros Ec. destruct (Hsnap Ec) as [Hs He]. rewrite Hs, He in Heq. by destruct pre. }
  destruct Hev as [Hno|(a & lv & p & Ec & ->)].
  - destruct (progress_in_app _ _ _ _ _ Hno Heq) as [post' Hs].
    destruct (pg_sent v Hpg Ho pre c' post' Hs) as (n & Hn & Hc).
    exists n. split; [by apply Hsame|by apply claim_own].
  - assert (claim v (lv_need a) (v_sent v) (ps_position p) ∧ v_need v = Some (lv_need a)) as [Hc Hn].
    { pose proof (pg_at v Hpg) as Hat. unfold progress_at in Hat. rewrite Ec in Hat.
      destruct Hat as [_ Hat]. split; [by apply Hat|].
      destruct (dl_active v Hdl) as (a0 & a1 & a2 & a3 & [_ _ _ _ Hn' _]); [by rewrite Ec|].
      by rewrite Hn', Ec. }
    destruct (progress_snoc _ _ _ _ _ Heq) as [[-> ->]|[k Hk]].
    + exists (lv_need a). split; [by apply Hsame|by apply claim_own].
    + destruct (pg_sent v Hpg Ho pre c' k Hk) as (n & Hn' & Hc').
      exists n. split; [by apply Hsame|by apply claim_own].
Qed.

Lemma view_progress v : view_reach v → progress_ok v.
Proof.
  induction 1 as [v Hnew|v v' Hr IH Hs].
  { destruct Hnew as (_ & Hs & _ & _ & Hpc). split.
    - unfold progress_at. by destruct Hpc as [[e ->]|[[rc ->] _]].
    - intros _ pre c post. rewrite Hs. by destruct pre. }
  destruct Hs as [t registered obj| |h w c h' at' events]; [by apply progress_accept| |].
  - destruct IH as [Hat Hsent]. by split.
  - eapply progress_own; eauto; [by apply view_reach_base|by apply view_delivery].
Qed.

Lemma view_base_need v : view_reach v → active (v_pc v) = true → v_need v = need_of (v_pc v).
Proof.
  intros Hr Ha. by destruct (dl_active v (view_delivery v Hr) Ha) as (? & ? & ? & ? & []).
Qed.

(** ** A watch that resumed sends no snapshot *)

Lemma end_event h closed w obj at_ c h' at' events :
  watch_step h closed w obj at_ c = Some (h', at', events) → SnapshotEnd ∈ events → ∃ todo sn, at_ = PcEnd todo sn.
Proof.
  intros Hstep Hin.
  destruct at_ as [rc|cur|cur todo| |str|str|str sn|str sn|todo sn|todo sn|todo sn|a v|a v p|a v p item
    |a v p|a v p|rg rs|out|out]; simpl in Hstep.
  all: try (injection Hstep as <- <- <-); try (by apply elem_of_nil in Hin); try by eauto.
  - destruct (resume_locked _ _ _ _); injection Hstep as <- <- <-; by apply elem_of_nil in Hin.
  - destruct todo; [injection Hstep as <- <- <-|sending_cases]; set_solver.
  - sending_cases; set_solver.
  - destruct c as [| | |[sn|e]| | | |]; try done; injection Hstep as <- <- <-; set_solver.
  - destruct todo; [injection Hstep as <- <- <-|sending_cases]; set_solver.
  - unfold live_drain in Hstep. destruct (w_queue obj); injection Hstep as <- <- <-; set_solver.
  - unfold live_deliver in Hstep. destruct (run_need _ _) as [[]|];
      [sending_cases|injection Hstep as <- <- <-..]; set_solver.
  - sending_cases; set_solver.
  - destruct (live_select _ _ _ _ _ _ _); simpl in Hstep; [|done]. injection Hstep as <- <- <-. set_solver.
  - sending_cases; set_solver.
Qed.

Lemma view_resumed v :
  view_reach v → ∀ c, v_need v = Some (NeedAfter c) → SnapshotEnd ∉ v_sent v.
Proof.
  induction 1 as [v Hnew|v v' Hr IH Hs].
  { destruct Hnew as (_ & -> & _). intros c _. apply not_elem_of_nil. }
  destruct Hs as [t registered obj| |h w c h' at' events Hok Hwin Hobj Hsrc Htick Htk Hin Henv Hstep]; [done..|].
  simpl. intros c' Hn. pose proof (view_reach_base v Hr) as Hb. pose proof (view_base_need v Hr) as Hact.
  rewrite not_elem_of_app.
  destruct (watch_step_need _ _ _ _ _ _ _ _ _ Hstep) as [Hneed _].
  assert (v_need v = Some (NeedAfter c') ∨ ∃ cur, v_pc v = PcResume cur) as [Hv|[cur Ec]].
  { destruct (need_of at') as [n|] eqn:En; [injection Hn as ->|by left].
    destruct Hneed as [|[Heq|[|(str & sn & Ec)]]]; [done| |by right|].
    - left. rewrite Hact; [done|]. by destruct (v_pc v).
    - rewrite Ec in Hstep. simpl in Hstep. injection Hstep as <- <- <-.
      by destruct (streamed_loop _ _ _ _). }
  - split; [by eapply IH|]. intros (todo & sn & Ec)%(end_event _ _ _ _ _ _ _ _ _ Hstep).
    rewrite Ec in Hact. specialize (Hact eq_refl). simpl in Hact. congruence.
  - destruct (vb_start v Hb) as (_ & _ & Hs & _); [eauto|]. rewrite Hs. split; [apply not_elem_of_nil|].
    intros (todo & sn & Ec')%(end_event _ _ _ _ _ _ _ _ _ Hstep). congruence.
Qed.

(** ** A watch that needs a snapshot begins with one *)

Lemma proto_step_snapshot st e : proto_step st e = Some SSnapshot → st = SInit ∧ e = SnapshotBegin ∨ st = SSnapshot.
Proof. destruct st, e; simpl; try destruct (later _ _); naive_solver. Qed.

Lemma protocol_head es : protocol SInit es = Some SSnapshot → head es = Some SnapshotBegin.
Proof.
  induction es as [|e es IH] using rev_ind; [done|]. rewrite protocol_app.
  destruct (protocol SInit es) as [st|] eqn:Hp; [|done]. simpl.
  destruct (proto_step st e) as [st'|] eqn:Hs; [|done]. intros [= ->].
  apply proto_step_snapshot in Hs as [[-> ->]| ->]; [|by rewrite head_app, IH].
  destruct es as [|e es _] using rev_ind; [done|]. rewrite protocol_app in Hp.
  destruct (protocol SInit es) as [st|]; [|done]. simpl in Hp.
  destruct st, e; simpl in Hp; try destruct (later _ _); done.
Qed.

Lemma view_begins v :
  view_reach v → ∀ sn, v_need v = Some (NeedNotCovered sn) → head (v_sent v) = Some SnapshotBegin.
Proof.
  induction 1 as [v Hnew|v v' Hr IH Hs].
  { destruct Hnew as (_ & _ & _ & Hn & _). intros sn. by rewrite Hn. }
  destruct Hs as [t registered obj| |h w c h' at' events Hok Hwin Hobj Hsrc Htick Htk Hin Henv Hstep]; [done..|].
  simpl. intros sn Hn. rewrite head_app.
  destruct (watch_step_need _ _ _ _ _ _ _ _ _ Hstep) as [Hneed _].
  assert (head (v_sent v) = Some SnapshotBegin) as ->; [|done].
  pose proof (view_base_need v Hr) as Hact.
  destruct (need_of at') as [n|] eqn:En; [injection Hn as ->|by eapply IH].
  destruct Hneed as [|[Heq|[[cur Ec]|(str & sn' & Ec)]]]; [done| | |].
  - eapply IH. rewrite Hact; [done|]. by destruct (v_pc v).
  - rewrite Ec in Hstep. simpl in Hstep. destruct (resume_locked _ _ _ _); by injection Hstep as <- <- <-.
  - destruct (view_proto v Hr) as (st & Hst & Hat). rewrite Ec in Hat. simpl in Hat. subst st. by apply protocol_head.
Qed.

End Own.

(** ** Properties *)

Section Properties.
Context `{LsnText}.

Lemma steps_acc s a s' a' : steps s a s' a' → ∃ ext, a_acc a' = a_acc a ++ ext.
Proof.
  induction 1 as [s a|s a s1 a1 l s2 _ [ext IH] _ _]; [exists []; by rewrite app_nil_r|].
  destruct l as [t| | |w req|w c]; simpl; try by exists ext.
  - destruct (decide _); [|by exists ext]. exists (ext ++ [t]). simpl. by rewrite IH, app_assoc.
  - destruct (s_gos s1 !! w), (s_gos s2 !! w); by exists ext.
Qed.


End Properties.

Definition demo_catchup : list label := demo_snapshot_watch 0.


(** ** Where Progress overstates *)

(** A snapshot watch with room for one queued transaction, while two are
    accepted during its snapshot: the second one drops it. *)
Definition demo_dropped : list label :=
  [LWatch 0 (mkRequest "orders" "a" ""); LGo 0 ChGo; LGo 0 ChGo; LGo 0 ChGo;
   LGo 0 (ChSnapshot (Ok (demo_snapshot 15 2))); LGo 0 ChGo; LGo 0 ChGo; LGo 0 ChGo;
   LAccept (demo_tx 20 2 "a" ["2"]); LAccept (demo_tx 30 3 "a" ["3"]);
   LGo 0 ChGo; LGo 0 ChGo; LGo 0 ChGo; LGo 0 ChGo; LGo 0 ChGo; LGo 0 ChGo; LGo 0 ChGo].

(** C40 (safety): the promise of Progress does not extend to a dropped watch: one dropped
    while its snapshot is sent still reports Progress at the hub's received
    position, past a transaction of its scope that it needs, never got and
    will not get. *)
Theorem dropped_watch_overstates_progress :
  @reachable hex_lsn_text (demo_run 1 demo_dropped) (demo_aux 1 demo_dropped) ∧
  w_overflow (demo_obj 1 demo_dropped 0) = true ∧
  (∃ pre, g_sent (demo_go 1 demo_dropped 0) = pre ++ [Progress (mkCursor "db" 30)]) ∧
  ¬ delivered_through (demo_obj 1 demo_dropped 0) (NeedNotCovered (demo_snapshot 15 2))
      (a_acc (demo_aux 1 demo_dropped)) (g_sent (demo_go 1 demo_dropped 0)) (mkCursor "db" 30).
Proof.
  split; [by apply demo_reachable|]. split; [done|].
  split; [by exists (take 3 (g_sent (demo_go 1 demo_dropped 0)))|].
  intros Hd. specialize (Hd (demo_tx 30 3 "a" ["3"])).
  assert (¬ tx_data (w_projection (demo_obj 1 demo_dropped 0)) (w_scope (demo_obj 1 demo_dropped 0))
    (demo_tx 30 3 "a" ["3"]) ∈ batches_of (g_sent (demo_go 1 demo_dropped 0))) as Hno
    by (apply (bool_decide_unpack _); vm_compute; done).
  apply Hno, Hd; apply (bool_decide_unpack _); vm_compute; done.
Qed.

(** A snapshot watch of a hub that has received nothing, then a transaction
    the snapshot does not cover but that ends before the snapshot's cursor. *)
Definition demo_fallback : list label :=
  [LWatch 0 (mkRequest "orders" "a" ""); LGo 0 ChGo; LGo 0 ChGo; LGo 0 ChGo;
   LGo 0 (ChSnapshot (Ok (demo_snapshot 50 2))); LGo 0 ChGo; LGo 0 ChGo; LGo 0 ChGo;
   LGo 0 ChGo; LGo 0 ChGo; LGo 0 ChGo; LGo 0 ChGo; LGo 0 ChGo;
   LAccept (demo_tx 40 2 "a" ["2"]); LCloseTick;
   LGo 0 ChTick; LGo 0 ChGo; LGo 0 ChGo; LGo 0 ChGo].

(** At its own snapshot's cursor a snapshot watch's Progress can be early: with
    nothing received it reports Progress at the snapshot cursor, and later
    sends a batch of a transaction that ends before that cursor. *)
Theorem snapshot_fallback_overstates_progress :
  @reachable hex_lsn_text (demo_run 4 demo_fallback) (demo_aux 4 demo_fallback) ∧
  w_overflow (demo_obj 4 demo_fallback 0) = false ∧
  ∃ pre b, g_sent (demo_go 4 demo_fallback 0) = pre ++ [Progress (mkCursor "db" 50); EvBatch b] ∧
    lsn (b_cursor b) < 50.
Proof.
  split; [by apply demo_reachable|]. split; [done|].
  exists (take 2 (g_sent (demo_go 4 demo_fallback 0))). eexists. split; [vm_compute; reflexivity|]. done.
Qed.
