(* ===== verification/HubMemo.v ===== *)
(** * Shared memos

    The watchers of one delivery share a memo pointer. Whoever loads it first
    decides the value for all, so every holder of one pointer must hold the
    same batch: the invariant here, over every interleaving, for the items in
    the queues, in the watches' hands and already sent. *)

From S2P Require Import Prelude Errors CdcTypes Visibility Events Hub HubRegistry HubAccept HubWindow.
From S2P Require Import HubProps HubWatch HubSystem HubDelivery.
Local Open Scope string_scope.
Local Open Scope list_scope.
Local Open Scope Z_scope.

(** ** Where memos are *)

Abbreviation data := (Cursor * Z * list Change)%type.

(** The data a queued item's batch has. *)
Definition queued_data (q : queued) : data :=
  (tx_cursor (q_transaction q), tx_commitTime (q_transaction q), q_changes q).

Definition queued_in (h : Hub) (q : queued) : Prop :=
  ∃ w obj, h_heap h !! w = Some obj ∧ q ∈ w_queue obj.

(** [o] says what data each allocated memo belongs to. *)
Definition memo_right (o : nat → data) (n : nat) (m : memoRef) (d : data) : Prop :=
  ∀ i, m = Some i → (i < n)%nat ∧ o i = d.

Definition heap_memos (o : nat → data) (h : Hub) : Prop :=
  ∀ q, queued_in h q → memo_right o (h_memos h) (q_memo q) (queued_data q).

Definition extends (n : nat) (o o' : nat → data) : Prop := ∀ i, (i < n)%nat → o' i = o i.

Lemma memo_right_mono o o' n n' m d :
  extends n o o' → (n ≤ n')%nat → memo_right o n m d → memo_right o' n' m d.
Proof. intros He Hn Hm i ->. destruct (Hm i eq_refl) as [? <-]. split; [lia|by apply He]. Qed.

(** ** What the hub's operations queue *)

(** Nothing new is queued, and no memo allocated. *)
Definition queues_less (h h' : Hub) : Prop :=
  h_memos h' = h_memos h ∧ ∀ q, queued_in h' q → queued_in h q.

#[export] Instance queues_less_preorder : PreOrder queues_less.
Proof. split; [by split|]. intros a b c [H1 H2] [H3 H4]. split; [congruence|auto]. Qed.

Lemma queues_less_heap h h' : h_memos h' = h_memos h → h_heap h' = h_heap h → queues_less h h'.
Proof. intros Hm Hh. split; [done|]. intros q (w & obj & Ho & Hq). exists w, obj. by rewrite <-Hh. Qed.

Lemma registry_less h h' : registry h' = registry h → h_memos h' = h_memos h → queues_less h h'.
Proof. unfold registry. intros [= _ _ Hh _ _] Hm. by apply queues_less_heap. Qed.

Lemma removeLocked_heap h w : h_heap (removeLocked h w).1 = h_heap h ∧ h_memos (removeLocked h w).1 = h_memos h.
Proof.
  unfold removeLocked, routeLocked. destruct (decide _); [|done]. destruct (h_heap h !! w) eqn:?; [|done].
  simpl. by destruct (find_route _ _).
Qed.

Lemma registerLocked_heap h w : h_heap (registerLocked h w) = h_heap h ∧ h_memos (registerLocked h w) = h_memos h.
Proof.
  unfold registerLocked, routeLocked. destruct (h_heap h !! w) eqn:?; [|done]. simpl.
  by destruct (find_route _ _).
Qed.

Lemma endLocked_less h w reason : queues_less h (endLocked h w reason).
Proof.
  unfold endLocked. destruct (removeLocked_heap h w) as [Hh Hm].
  destruct (removeLocked h w) as [h1 []]; simpl in *; [|by apply queues_less_heap].
  split; [done|]. intros q (w' & obj & Ho & Hq). simpl in Ho. rewrite lookup_alter, Hh in Ho.
  destruct (decide (w = w')) as [<-|Hne]; [|by exists w', obj].
  destruct (h_heap h !! w) as [obj0|] eqn:Hobj; [|done]. injection Ho as <-. by exists w, obj0.
Qed.

Lemma invalidateLocked_less h table cursor : queues_less h (invalidateLocked h table cursor).
Proof.
  unfold invalidateLocked. cbv zeta. set (h0 := set_stale h _).
  assert (∀ ws h, queues_less h (foldl (invalidate_one table) h ws)) as Hfold.
  { intros ws. induction ws as [|w ws IH]; intros h1; cbn [foldl]; [done|]. etrans; [|apply IH].
    unfold invalidate_one. destruct (h_heap h1 !! w); [|done].
    destruct (decide _); [apply endLocked_less|done]. }
  etrans; [|eapply queues_less_heap]; [etrans; [|apply (Hfold (elements (h_watchers h0)) h0)]| |].
  - by apply queues_less_heap.
  - by destruct (negb _ || _), (_ && _).
  - by destruct (negb _ || _), (_ && _).
Qed.

(** Offering one item queues nothing else. *)
Lemma offer_all_queued h item ws :
  h_memos (offer_all h item ws) = h_memos h ∧
  ∀ q, queued_in (offer_all h item ws) q → queued_in h q ∨ q = item.
Proof.
  revert h. induction ws as [|w ws IH]; intros h; cbn [offer_all]; [by split; auto|].
  destruct (IH (offer h w item)) as [Hm Hq].
  assert (h_memos (offer h w item) = h_memos h ∧
          ∀ q, queued_in (offer h w item) q → queued_in h q ∨ q = item) as [Hm1 Hq1].
  { unfold offer. destruct (h_heap h !! w) as [obj|] eqn:Ho; [|by split; auto].
    destruct (decide _).
    - split; [done|]. intros q (w' & obj' & Ho' & Hin). simpl in Ho'.
      apply lookup_insert_Some in Ho' as [[<- <-]|[_ Ho']]; [|left; by exists w', obj'].
      simpl in Hin. apply elem_of_app in Hin as [Hin|Hin%list_elem_of_singleton]; [left; by exists w, obj|by right].
    - destruct (endLocked_less h w ResyncSlowWatcher) as [H1 H2]. by split; auto. }
  split; [congruence|]. intros q [Hin| ->]%Hq; [by apply Hq1|by right].
Qed.

(** A delivery allocates its memo before it queues it. *)
Lemma deliver_memos o h t d :
  heap_memos o h →
  ∃ o', extends (h_memos h) o o' ∧ (h_memos h ≤ h_memos (deliver h t d))%nat ∧ heap_memos o' (deliver h t d).
Proof.
  intros Hh. unfold deliver. destruct (decide (1 < length (d_watchers d))%nat).
  - set (item := mkQueued t (d_changes d) (Some (h_memos h))).
    exists (λ i, if decide (i = h_memos h) then queued_data item else o i).
    destruct (offer_all_queued (set_memos h (S (h_memos h))) item (d_watchers d)) as [Hm Hq].
    assert (extends (h_memos h) o (λ i, if decide (i = h_memos h) then queued_data item else o i)) as He
      by (intros i Hi; by rewrite decide_False by lia).
    split; [done|]. rewrite Hm. simpl. split; [lia|]. intros q Hin. rewrite Hm. simpl.
    destruct (Hq q Hin) as [Hin'| ->].
    + eapply memo_right_mono; [exact He| |by apply Hh]. lia.
    + intros i [= <-]. split; [lia|]. by rewrite decide_True.
  - exists o. destruct (offer_all_queued h (mkQueued t (d_changes d) None) (d_watchers d)) as [Hm Hq].
    split; [done|]. rewrite Hm. split; [lia|]. intros q Hin. rewrite Hm.
    destruct (Hq q Hin) as [Hin'| ->]; [by apply Hh|done].
Qed.

Lemma deliver_all_memos o h t ds :
  heap_memos o h →
  ∃ o', extends (h_memos h) o o' ∧ (h_memos h ≤ h_memos (deliver_all h t ds))%nat ∧ heap_memos o' (deliver_all h t ds).
Proof.
  revert o h. induction ds as [|d ds IH]; intros o h Hh; cbn [deliver_all foldl]; [by exists o|].
  destruct (deliver_memos o h t d Hh) as (o1 & He1 & Hn1 & Hh1).
  destruct (IH o1 _ Hh1) as (o2 & He2 & Hn2 & Hh2). exists o2. split_and!; [|unfold deliver_all in *; lia|done].
  intros i Hi. rewrite He2 by lia. by apply He1.
Qed.

Lemma heap_memos_less o h h' : queues_less h h' → heap_memos o h → heap_memos o h'.
Proof. intros [Hm Hq] Hh q Hin. rewrite Hm. by apply Hh, Hq. Qed.

Lemma evict_loop_less fuel h : queues_less h (evict_loop fuel h).
Proof.
  apply registry_less; [apply evict_loop_registry|].
  revert h. induction fuel as [|fuel IH]; intros h; simpl; [done|]. destruct (decide _); [|done].
  rewrite IH. unfold evictLocked. destruct (h_ring h); [done|]. simpl. by destruct (_ && _).
Qed.

Lemma accept_new_memos o h t :
  heap_memos o h →
  ∃ o', extends (h_memos h) o o' ∧ (h_memos h ≤ h_memos (accept_new h t).1)%nat ∧
    heap_memos o' (accept_new h t).1.
Proof.
  intros Hh. rewrite accept_new_phases. cbn [fst].
  set (h1 := (accept_record h t).1). set (h2 := accept_invalidate h1 t).
  assert (queues_less h h1) as H1.
  { subst h1. unfold accept_record. simpl. destruct (h_tickTaken h); cbn [fst snd];
      (etrans; [|apply evict_loop_less]); by apply queues_less_heap. }
  assert (queues_less h1 h2) as H2.
  { subst h2. unfold accept_invalidate. generalize (tx_incompatible t), h1. intros incs.
    induction incs as [|inc incs IH]; intros h3; cbn [foldl]; [done|].
    etrans; [apply invalidateLocked_less|apply IH]. }
  assert (queues_less h h2) as H12 by (by etrans).
  unfold accept_deliver. cbv zeta. set (h3 := set_scratch h2 _).
  destruct (deliver_all_memos o h3 t (s_deliveries (h_scratch h3))) as (o' & He & Hn & Ho').
  { apply (heap_memos_less o h2); [by apply queues_less_heap|]. by apply (heap_memos_less o h). }
  exists o'. change (h_memos h3) with (h_memos h2) in *. destruct H12 as [Hm _]. rewrite Hm in *.
  split_and!; [done|done|]. eapply heap_memos_less; [|exact Ho']. by apply queues_less_heap.
Qed.

(** ** The system *)

(** A watch's hand, its batches to send, and what it sent. *)
Record go_memos (o : nat → data) (n : nat) (at_ : pc) (sent : list Event) : Prop := {
  gm_hand q : q ∈ hand_of at_ → memo_right o n (q_memo q) (queued_data q);
  gm_todo b : b ∈ todo_of at_ → b_memo b = None;
  gm_sent b : EvBatch b ∈ sent → memo_right o n (b_memo b) (batch_data b)
}.

Record sys_memos (o : nat → data) (s : sys) : Prop := {
  sm_heap : heap_memos o (s_hub s);
  sm_gos w g : s_gos s !! w = Some g → go_memos o (h_memos (s_hub s)) (g_pc g) (g_sent g)
}.

Lemma go_memos_mono o o' n n' at_ sent :
  extends n o o' → (n ≤ n')%nat → go_memos o n at_ sent → go_memos o' n' at_ sent.
Proof. intros He Hn [H1 H2 H3]. split; eauto using memo_right_mono. Qed.

(** A step that sends nothing with a memo, and holds nothing new. *)
Lemma go_memos_quiet o n at_ at' sent events :
  go_memos o n at_ sent → hand_of at' = [] → (∀ b, b ∈ todo_of at' → b_memo b = None) →
  (∀ b, EvBatch b ∈ events → b_memo b = None) → go_memos o n at' (sent ++ events).
Proof.
  intros [H1 H2 H3] Hh Ht He. split.
  - rewrite Hh. by intros q ?%elem_of_nil.
  - done.
  - intros b [Hin|Hin]%elem_of_app; [by apply H3|]. intros i Hi. by rewrite (He b Hin) in Hi.
Qed.

Lemma appendBatch_memo obj bs t :
  (∀ b, b ∈ bs → b_memo b = None) → ∀ b, b ∈ appendBatch obj bs t → b_memo b = None.
Proof.
  intros Hb b. unfold appendBatch. destruct (decide _); [|apply Hb].
  intros [Hin| ->%list_elem_of_singleton]%elem_of_app; [by apply Hb|done].
Qed.

Lemma backlog_loop_memo obj c ring bs backlog :
  (∀ b, b ∈ bs → b_memo b = None) → backlog_loop obj c ring bs = Ok backlog →
  ∀ b, b ∈ backlog → b_memo b = None.
Proof.
  revert bs. induction ring as [|t ring IH]; intros bs Hb Hl; simpl in Hl; [by injection Hl as <-|].
  destruct (After t c) as [after|]; simpl in Hl; [|done].
  eapply IH, Hl. destruct after; [by apply appendBatch_memo|done].
Qed.

Lemma streamed_loop_memo obj n ts bs batches :
  (∀ b, b ∈ bs → b_memo b = None) → streamed_loop obj n ts bs = Ok batches →
  ∀ b, b ∈ batches → b_memo b = None.
Proof.
  revert bs. induction ts as [|t ts IH]; intros bs Hb Hl; simpl in Hl; [by injection Hl as <-|].
  destruct (run_need n t) as [needed|]; simpl in Hl; [|done].
  eapply IH, Hl. destruct needed; [by apply appendBatch_memo|done].
Qed.

Lemma no_batch (e : Event) (b : Batch) : (∀ b, e ≠ EvBatch b) → EvBatch b ∈ [e] → False.
Proof. intros He Hin%list_elem_of_singleton. by eapply He. Qed.

Section Memos.
Context `{LsnText}.

Lemma watch_step_queues h closed w obj at_ c h' at' events :
  h_heap h !! w = Some obj → watch_step h closed w obj at_ c = Some (h', at', events) → queues_less h h'.
Proof.
  intros Hobj Hs. destruct at_; simpl in Hs.
  - by injection Hs as <- <- <-.
  - injection Hs as Hs. unfold resume_locked in Hs. destruct (decide _); [by injection Hs as <- <- <-|].
    destruct (negb _); [by injection Hs as <- <- <-|].
    destruct (backlog_loop _ _ _ _); injection Hs as <- <- <-; [|done].
    destruct (registerLocked_heap h w). by apply queues_less_heap.
  - destruct todo; [by injection Hs as <- <- <-|]. by sending_cases.
  - injection Hs as <- <- <-. destruct (registerLocked_heap h w). by apply queues_less_heap.
  - by sending_cases.
  - by destruct c; simplify_eq.
  - by injection Hs as <- <- <-.
  - injection Hs as <- <- <-. by apply queues_less_heap.
  - injection Hs as <- <- <-. unfold recordSnapshotLocked. go_cases; by apply queues_less_heap.
  - by sending_cases.
  - destruct todo; [by injection Hs as <- <- <-|]. by sending_cases.
  - injection Hs as <- <- <-. by apply queues_less_heap.
  - unfold live_drain in Hs. destruct (w_queue obj) as [|item rest] eqn:Hq; injection Hs as <- <- <-; [done|].
    split; [done|]. intros q (w' & obj' & Ho & Hin). simpl in Ho.
    apply lookup_insert_Some in Ho as [[<- <-]|[_ Ho]]; [|by exists w', obj'].
    exists w, obj. split; [done|]. rewrite Hq. by right.
  - unfold live_deliver in Hs. destruct (run_need _ _) as [[]|]; [by sending_cases|by injection Hs as <- <- <-..].
  - by sending_cases.
  - destruct (live_select _ _ _ _ _ _ _); simplify_eq/=. done.
  - by sending_cases.
  - injection Hs as <- <- <-. destruct (removeLocked_heap h w). by apply queues_less_heap.
  - done.
Qed.

Lemma watch_step_memos o h closed w obj at_ c h' at' events sent :
  heap_memos o h → h_heap h !! w = Some obj → go_memos o (h_memos h) at_ sent →
  watch_step h closed w obj at_ c = Some (h', at', events) → go_memos o (h_memos h) at' (sent ++ events).
Proof.
  intros Hh Hobj Hg Hs.
  assert (∀ at' , hand_of at' = [] → todo_of at' = [] → go_memos o (h_memos h) at' (sent ++ [])) as Hquiet.
  { intros at1 H1 H2. eapply go_memos_quiet; [done..|rewrite H2|]; by intros b ?%elem_of_nil. }
  assert (∀ at' e, hand_of at' = [] → (∀ b, b ∈ todo_of at' → b_memo b = None) →
    (∀ b, e = EvBatch b → b_memo b = None) → go_memos o (h_memos h) at' (sent ++ [e])) as Hsend.
  { intros at1 e H1 H2 H3. eapply go_memos_quiet; [done..|]. intros b Hb%list_elem_of_singleton. by apply H3. }
  assert (∀ b, b ∈ todo_of at_ → b_memo b = None) as Htodo by apply Hg.
  destruct at_; simpl in Hs.
  - injection Hs as <- <- <-. apply Hquiet; unfold watch_start; by go_cases.
  - injection Hs as Hs. unfold resume_locked in Hs. destruct (decide _); [injection Hs as <- <- <-; by apply Hquiet|].
    destruct (negb _); [injection Hs as <- <- <-; by apply Hquiet|].
    destruct (backlog_loop _ _ _ _) as [bs|] eqn:Hb; injection Hs as <- <- <-; [|by apply Hquiet].
    eapply go_memos_quiet; [done|done| |by intros b ?%elem_of_nil].
    eapply backlog_loop_memo; [|exact Hb]. by intros b ?%elem_of_nil.
  - destruct todo as [|b todo]; [injection Hs as <- <- <-; by apply Hquiet|]. simpl in Htodo.
    sending_cases; [|by apply Hquiet]. apply Hsend; [done| |].
    + intros b' Hb. apply Htodo. by right.
    + intros b' [= <-]. apply Htodo. by left.
  - injection Hs as <- <- <-. by apply Hquiet.
  - sending_cases; [by apply Hsend; [|intros b ?%elem_of_nil|]|by apply Hquiet].
  - destruct c; simplify_eq; [by apply Hsend; [|intros b ?%elem_of_nil|]|].
    apply Hquiet; unfold snapshot_returned; by go_cases.
  - injection Hs as <- <- <-. apply Hquiet; by go_cases.
  - injection Hs as <- <- <-. destruct (streamed_loop _ _ _ _) as [bs|] eqn:Hb; [|by apply Hquiet].
    eapply go_memos_quiet; [done|done| |by intros b ?%elem_of_nil].
    eapply streamed_loop_memo; [|exact Hb]. by intros b ?%elem_of_nil.
  - injection Hs as <- <- <-. eapply go_memos_quiet; [done|done|done|by intros b ?%elem_of_nil].
  - sending_cases; [by apply Hsend|by apply Hquiet].
  - destruct todo as [|b todo]; [injection Hs as <- <- <-; by apply Hquiet|]. simpl in Htodo.
    sending_cases; [|by apply Hquiet]. apply Hsend; [done| |].
    + intros b' Hb. apply Htodo. by right.
    + intros b' [= <-]. apply Htodo. by left.
  - injection Hs as <- <- <-. by apply Hquiet.
  - unfold live_drain in Hs. destruct (w_queue obj) as [|item rest] eqn:Hq; injection Hs as <- <- <-.
    + apply Hquiet; by destruct (_ || _).
    + rewrite app_nil_r. destruct Hg as [_ _ Hsent]. split; [|by intros b ?%elem_of_nil|done].
      intros q ->%list_elem_of_singleton. apply Hh. exists w, obj. rewrite Hq. split; [done|by left].
  - unfold live_deliver in Hs. destruct (run_need _ _) as [[]|]; [|injection Hs as <- <- <-; by apply Hquiet..].
    sending_cases; [|by apply Hquiet]. destruct Hg as [Hhand _ Hsent].
    split; [by intros q ?%elem_of_nil|by intros b ?%elem_of_nil|].
    intros b [Hin|Hin]%elem_of_app; [by apply Hsent|]. apply list_elem_of_singleton in Hin as [= ->].
    apply (Hhand item). by left.
  - sending_cases; [by apply Hsend; [|intros b ?%elem_of_nil|]|by apply Hquiet].
  - destruct (live_select _ _ _ _ _ _ _) as [next|] eqn:Hsel; simplify_eq/=. unfold live_select in Hsel.
    apply Hquiet; by go_cases.
  - sending_cases; (apply Hsend || apply Hquiet); try done; unfold finish; try (by destruct registered);
      destruct registered; by intros b ?%elem_of_nil.
  - injection Hs as <- <- <-. by apply Hquiet.
  - done.
Qed.

Lemma step_memos o s l s' :
  sys_memos o s → step s l = Some s' → ∃ o', sys_memos o' s'.
Proof.
  intros [Hheap Hgos] Hs. destruct l as [t| | |w req|w c]; simpl in Hs.
  - pose proof (Accept_cases (s_hub s) t) as HA. destruct (decide (fresh (s_hub s) t)).
    + rewrite HA in Hs. destruct (accept_new (s_hub s) t) as [h tick] eqn:En. injection Hs as <-.
      destruct (accept_new_memos o (s_hub s) t Hheap) as (o' & He & Hn & Ho'). rewrite En in *. simpl in *.
      exists o'. split; [done|]. intros w g Hg. eapply go_memos_mono; eauto.
    + exists o. destruct (Accept (s_hub s) t) as [[h tick]|]; injection Hs as <-; [|by split].
      destruct HA as (-> & -> & _). by split.
  - exists o. destruct (s_closing s); [done|]. injection Hs as <-. by split.
  - exists o. injection Hs as <-. by split.
  - exists o. destruct (s_gos s !! w) eqn:Hw; [done|]. destruct (watch_begin (s_hub s) w req) as [h at_] eqn:Hb.
    injection Hs as <-. unfold watch_begin in Hb.
    assert (queues_less (s_hub s) h ∧ hand_of at_ = [] ∧ todo_of at_ = []) as (Hq & Hh1 & Hh2).
    { destruct (h_projections (s_hub s) !! _); injection Hb as <- <-; [|done]. split_and!; [|done..].
      split; [done|]. intros q (w' & obj & Ho & Hin). simpl in Ho.
      apply lookup_insert_Some in Ho as [[<- <-]|[_ Ho]]; [by apply elem_of_nil in Hin|by exists w', obj]. }
    split; [by eapply heap_memos_less|]. intros w' g Hg. simpl in *. destruct Hq as [-> _].
    apply lookup_insert_Some in Hg as [[<- <-]|[_ Hg]]; [|by eapply Hgos].
    simpl. split; [rewrite Hh1|rewrite Hh2|]; by intros ? ?%elem_of_nil.
  - exists o. destruct (s_gos s !! w) as [g|] eqn:Hg; [|done].
    destruct (h_heap (s_hub s) !! w) as [obj|] eqn:Hobj; [|done].
    destruct (watch_step _ _ _ _ _ _) as [[[h at_] events]|] eqn:Hw; [|done]. injection Hs as <-.
    pose proof (watch_step_queues _ _ _ _ _ _ _ _ _ Hobj Hw) as Hq.
    split; [by eapply heap_memos_less|]. intros w' g' Hg'. simpl in *. destruct Hq as [-> _].
    apply lookup_insert_Some in Hg' as [[<- <-]|[_ Hg']]; [|by eapply Hgos].
    simpl. by eapply watch_step_memos; eauto.
Qed.

Lemma New_heap cfg h : New cfg true = Ok h → h_heap h = ∅.
Proof.
  unfold New. destruct (decide _); [done|]. cbv zeta.
  destruct (decide (_ < 0 ∨ _)); [done|]. destruct (decide (map_Forall _ _)); [by intros [= <-]|done].
Qed.

(** Every batch sent with a memo, by any watch, has that memo's data. *)
Lemma reachable_memos s a :
  reachable s a → ∃ o, ∀ w g b m, s_gos s !! w = Some g → EvBatch b ∈ g_sent g → b_memo b = Some m →
    o m = batch_data b.
Proof.
  intros (cfg & h & Hnew & Hsteps).
  assert (∃ o, sys_memos o s) as [o [_ Hgos]].
  { remember (init_sys h) as s0 eqn:E0. induction Hsteps as [s0 a0|s0 a0 s1 a1 l s2 _ IH _ Hl].
    - subst. exists (λ _, (zero_Cursor, 0, [])). split; [|by intros w g].
      intros q (w & obj & Ho & Hin). simpl in Ho. by rewrite (New_heap _ _ Hnew) in Ho.
    - destruct (IH E0) as [o Ho]. by eapply step_memos. }
  exists o. intros w g b m Hg Hin Hm. destruct (Hgos w g Hg) as [_ _ Hsent].
  by destruct (Hsent b Hin m Hm).
Qed.

End Memos.
