(* ===== verification/Reader.v ===== *)
(** * The replication reader: internal/cdc/stream.go and reader.go

    [receive] consumes replication messages and acknowledges positions;
    [Run] reconnects. A connection's messages and the environment's answers
    (what a standby status send returns, what the sink returns) are the
    inputs; pglogrepl's parsers are a parameter. The sink is an interface,
    which the hub implements. Logging and the recorded times are left out. *)

From S2P Require Import Prelude Float64 Errors CdcTypes Visibility Events Config Relation Decoder Hub.
From Stdlib Require Import Ascii.
Local Open Scope string_scope.
Local Open Scope list_scope.
Local Open Scope Z_scope.

(** ** Interfaces *)

(** [TransactionSink]: accepts a transaction or fails. *)
Class TransactionSink (S : Type) : Type :=
  sink : S → Transaction → result error S.

(** [Hub.Accept] is the daemon's sink; the tick it closes is the hub's own. *)
#[export] Instance hub_sink : TransactionSink Hub :=
  λ h t, let! r := Accept h t in Ok (fst r).

(** [pglogrepl.ParseXLogData], [Parse] and [ParsePrimaryKeepaliveMessage]. *)
Class PgLogRepl : Type := {
  parse_xlog : string → option (Z * Z * string);
  parse_message : string → option Message;
  parse_keepalive : string → option (Z * bool)
}.

(** ** State *)

(** [newDecoder]; its shapes are the reader's registry, an input here. *)
Definition newDecoder (cfg : ReaderConfig) : Decoder :=
  NewDecoderWithLimits (rd_maxTransactionBytes cfg) (rd_maxTransactionChanges cfg) (rd_maxValueBytes cfg).

(** [NewReader]: the reader's configuration, normalised. [instruments] is what
    creating the metrics instruments returned. *)
Definition NewReader (config : ReaderConfig) (sink : bool) (instruments : result error unit)
    : result error ReaderConfig :=
  let config := normalizeReaderConfig config in
  let! _ := validateReaderConfig config sink in
  match instruments with
  | Err e => Err (EWrap e)
  | Ok _ => Ok config
  end.

(** What [receive] and its callees change: the reader's statistics, the
    decoder, [safeLSN], the sink, and the positions sent to PostgreSQL. *)
Record rstate (S : Type) : Type := mkRstate {
  rs_decoder : Decoder;
  rs_safe : Z;
  rs_sink : S;
  rs_acks : list Z;
  rs_accepted : list Transaction;
  rs_lastReceived : option Z;
  rs_lastAcknowledged : option Z;
  rs_received : Z;
  rs_acceptedCount : Z;
  rs_decodeErrors : Z;
  rs_inFlight : Z * Z;
  rs_serverWALEnd : Z
}.
Arguments mkRstate {S}.
Arguments rs_decoder {S}.
Arguments rs_safe {S}.
Arguments rs_sink {S}.
Arguments rs_acks {S}.
Arguments rs_accepted {S}.
Arguments rs_lastReceived {S}.
Arguments rs_lastAcknowledged {S}.
Arguments rs_received {S}.
Arguments rs_acceptedCount {S}.
Arguments rs_decodeErrors {S}.
Arguments rs_inFlight {S}.
Arguments rs_serverWALEnd {S}.

(** One turn of [receive]'s loop: what [ReceiveMessage] returned, with what
    sending a standby status would return in that turn. *)
Inductive received : Type :=
| RecvCopyData (data : string)
| RecvTimeout
| RecvErrorResponse (sqlState message : string)
| RecvCopyDone
| RecvUnexpected
| RecvError (e : error)
| RecvCancelled.

Record input : Type := mkInput {
  in_received : received;
  in_shapes : shapeRegistry;
  in_status : result error unit
}.

(** ** Reconnecting *)

Inductive connState : Type :=
| StateIdle | StateConnecting | StateStreaming | StateBackingOff | StateFailed | StateStopped.

(** What one turn of [Run]'s loop meets: where its stream starts, or how starting
    it failed; what arrives on it; whether [ctx] or the stream's own context had
    ended when [read] returned; and the same after [wait], with the error
    [wait] returned. *)
Record attempt : Type := mkAttempt {
  at_start : result error Z;
  at_inputs : list input;
  at_ctxDone : bool;
  at_streamDone : bool;
  at_wait : option error;
  at_waitCtxDone : bool;
  at_waitStreamDone : bool
}.

Inductive run_outcome : Type :=
| RunReturned (err : option error)
| RunGoing.

(** [budgetExceeded], with the stream context's cause: it fails either way. *)
Definition budgetExceeded (cause : error) : connState * run_outcome :=
  (StateFailed, RunReturned (Some (EWrap cause))).

Section Reader.
Context {S : Type} `{TransactionSink S} `{PgLogRepl}.

Definition set_decoder (s : rstate S) (d : Decoder) (errs : Z) : rstate S :=
  mkRstate d (rs_safe s) (rs_sink s) (rs_acks s) (rs_accepted s) (rs_lastReceived s)
    (rs_lastAcknowledged s) (rs_received s) (rs_acceptedCount s) errs (Pending d) (rs_serverWALEnd s).

Definition count_decode_error (s : rstate S) : rstate S :=
  mkRstate (rs_decoder s) (rs_safe s) (rs_sink s) (rs_acks s) (rs_accepted s) (rs_lastReceived s)
    (rs_lastAcknowledged s) (rs_received s) (rs_acceptedCount s) (wrap_u64 (rs_decodeErrors s + 1))
    (rs_inFlight s) (rs_serverWALEnd s).

Definition set_safe (s : rstate S) (safe : Z) : rstate S :=
  mkRstate (rs_decoder s) safe (rs_sink s) (rs_acks s) (rs_accepted s) (rs_lastReceived s)
    (rs_lastAcknowledged s) (rs_received s) (rs_acceptedCount s) (rs_decodeErrors s)
    (rs_inFlight s) (rs_serverWALEnd s).

(** [observeServerWALEnd]: never backwards. *)
Definition observeServerWALEnd (s : rstate S) (lsn : Z) : rstate S :=
  mkRstate (rs_decoder s) (rs_safe s) (rs_sink s) (rs_acks s) (rs_accepted s) (rs_lastReceived s)
    (rs_lastAcknowledged s) (rs_received s) (rs_acceptedCount s) (rs_decodeErrors s) (rs_inFlight s)
    (if decide (lsn ≤ rs_serverWALEnd s) then rs_serverWALEnd s else lsn).

Definition setLastReceivedLSN (s : rstate S) (lsn : Z) : rstate S :=
  mkRstate (rs_decoder s) (rs_safe s) (rs_sink s) (rs_acks s) (rs_accepted s) (Some lsn)
    (rs_lastAcknowledged s) (rs_received s) (rs_acceptedCount s) (rs_decodeErrors s) (rs_inFlight s)
    (rs_serverWALEnd s).

(** [acknowledge]: the status is sent, and recorded when that succeeds. *)
Definition acknowledge (s : rstate S) (status : result error unit) : rstate S * result error unit :=
  match status with
  | Err e => (s, Err e)
  | Ok _ =>
      (mkRstate (rs_decoder s) (rs_safe s) (rs_sink s) (rs_acks s ++ [rs_safe s]) (rs_accepted s)
         (rs_lastReceived s) (Some (rs_safe s)) (rs_received s) (rs_acceptedCount s) (rs_decodeErrors s)
         (rs_inFlight s) (rs_serverWALEnd s), Ok tt)
  end.

(** The end of a transaction in [consumeCopyData]: the sink, then [safeLSN]
    and the acknowledgement. *)
Definition accept_transaction (cfg : ReaderConfig) (s : rstate S) (t : Transaction) (endLSN : Z)
    (status : result error unit) : rstate S * result error unit :=
  let s := mkRstate (rs_decoder s) (rs_safe s) (rs_sink s) (rs_acks s) (rs_accepted s) (rs_lastReceived s)
    (rs_lastAcknowledged s) (wrap_u64 (rs_received s + 1)) (rs_acceptedCount s) (rs_decodeErrors s)
    (rs_inFlight s) (rs_serverWALEnd s) in
  let t := mkTransaction (mkCursor (rd_sourceID cfg) (lsn (tx_cursor t))) (tx_changes t)
             (tx_commitTime t) (tx_incompatible t) (tx_commitLSN t) (tx_xid t) in
  match sink (rs_sink s) t with
  | Err e => (s, Err (EWrap2 (ESentinel ErrSinkRejected) e))
  | Ok k =>
      let s := mkRstate (rs_decoder s) endLSN k (rs_acks s) (rs_accepted s ++ [t]) (rs_lastReceived s)
        (rs_lastAcknowledged s) (rs_received s) (rs_acceptedCount s) (rs_decodeErrors s)
        (rs_inFlight s) (rs_serverWALEnd s) in
      match acknowledge s status with
      | (s, Err e) => (s, Err (classifyPostgresError e))
      | (s, Ok _) =>
          (mkRstate (rs_decoder s) (rs_safe s) (rs_sink s) (rs_acks s) (rs_accepted s) (rs_lastReceived s)
             (rs_lastAcknowledged s) (rs_received s) (wrap_u64 (rs_acceptedCount s + 1)) (rs_decodeErrors s)
             (rs_inFlight s) (rs_serverWALEnd s), Ok tt)
      end
  end.

(** The XLogData case of [consumeCopyData], from the parsed pgoutput message. *)
Definition consume_message (cfg : ReaderConfig) (s : rstate S) (shapes : shapeRegistry) (m : Message)
    (status : result error unit) : rstate S * result error unit :=
  match Consume (rs_decoder s) (Some shapes) m with
  | (d, Err e) => (set_decoder s d (wrap_u64 (rs_decodeErrors s + 1)), Err e)
  | (d, Ok None) => (set_decoder s d (rs_decodeErrors s), Ok tt)
  | (d, Ok (Some t)) =>
      let s := set_decoder s d (rs_decodeErrors s) in
      match m with
      | MsgCommit _ endLSN =>
          if decide (endLSN = 0) then (s, Err (EWrap (ESentinel ErrMalformedReplicationData)))
          else accept_transaction cfg s t endLSN status
      | _ => (s, Err (EWrap (ESentinel ErrMalformedReplicationData)))
      end
  end.

(** The keepalive case: between transactions [safeLSN] may follow the server's
    sent position. *)
Definition consume_keepalive (s : rstate S) (serverWALEnd : Z) (replyRequested : bool)
    (status : result error unit) : rstate S * result error unit :=
  let s := observeServerWALEnd s serverWALEnd in
  let s := if decide (InTransaction (rs_decoder s) = false ∧ serverWALEnd > rs_safe s)
           then set_safe s serverWALEnd else s in
  if replyRequested then
    match acknowledge s status with
    | (s, Err e) => (s, Err (classifyPostgresError e))
    | r => r
    end
  else (s, Ok tt).

Definition consumeCopyData (cfg : ReaderConfig) (s : rstate S) (shapes : shapeRegistry) (data : string)
    (status : result error unit) : rstate S * result error unit :=
  match data with
  | EmptyString => (s, Err (ESentinel ErrMalformedReplicationData))
  | String id rest =>
      if decide (id = "w"%char) then
        match parse_xlog rest with
        | None => (s, Err (EWrap (ESentinel ErrMalformedReplicationData)))
        | Some (walStart, serverWALEnd, walData) =>
            if decide (slen walData = 0) then (s, Err (EWrap (ESentinel ErrMalformedReplicationData)))
            else if decide (slen walData > rd_maxTransactionBytes cfg)
            then (s, Err (ESentinel ErrTransactionTooLarge))
            else
              let s := observeServerWALEnd (setLastReceivedLSN s walStart) serverWALEnd in
              match parse_message walData with
              | None => (count_decode_error s, Err (EWrap (ESentinel ErrMalformedReplicationData)))
              | Some m => consume_message cfg s shapes m status
              end
        end
      else if decide (id = "k"%char) then
        match parse_keepalive rest with
        | None => (s, Err (EWrap (ESentinel ErrMalformedReplicationData)))
        | Some (serverWALEnd, replyRequested) => consume_keepalive s serverWALEnd replyRequested status
        end
      else (s, Err (EWrap (ESentinel ErrUnexpectedReplicationMessage)))
  end.

(** One turn of [receive]'s loop; an error ends it. *)
Definition receive_turn (cfg : ReaderConfig) (s : rstate S) (i : input) : rstate S * result error unit :=
  match in_received i with
  | RecvCopyData data => consumeCopyData cfg s (in_shapes i) data (in_status i)
  | RecvTimeout =>
      match acknowledge s (in_status i) with
      | (s, Err e) => (s, Err (classifyPostgresError e))
      | r => r
      end
  | RecvErrorResponse sqlState message => (s, Err (classifyErrorResponse sqlState message))
  | RecvCopyDone => (s, Err (retryableError ErrReplicationEnded ""))
  | RecvUnexpected => (s, Err (EWrap (ESentinel ErrUnexpectedReplicationMessage)))
  | RecvError e => (s, Err e)
  | RecvCancelled => (s, Err (ESentinel ErrContextCanceled))
  end.

(** [receive]: turns until an error; [None] is still running. *)
Fixpoint receive (cfg : ReaderConfig) (s : rstate S) (inputs : list input) : rstate S * option error :=
  match inputs with
  | [] => (s, None)
  | i :: rest =>
      match receive_turn cfg s i with
      | (s, Err e) => (s, Some e)
      | (s, Ok _) => receive cfg s rest
      end
  end.

(** A new reader: nothing received, and no connection. *)
Definition new_reader (cfg : ReaderConfig) (k : S) : rstate S :=
  mkRstate (newDecoder cfg) 0 k [] [] None None 0 0 0 (0, 0) 0.

(** A connection of [read]: a new decoder, and [safeLSN] at the position it
    starts at. The statistics are the reader's and stay. *)
Definition connection (cfg : ReaderConfig) (s : rstate S) (startLSN : Z) : rstate S :=
  mkRstate (newDecoder cfg) startLSN (rs_sink s) (rs_acks s) (rs_accepted s) (rs_lastReceived s)
    (rs_lastAcknowledged s) (rs_received s) (rs_acceptedCount s) (rs_decodeErrors s) (rs_inFlight s)
    (rs_serverWALEnd s).

(** [read], on its connection: what it returned, or None while it runs. It only
    returns with an error. *)
Definition read_once (cfg : ReaderConfig) (s : rstate S) (start : result error Z) (inputs : list input)
    : rstate S * option error :=
  match start with
  | Err e => (s, Some e)
  | Ok startLSN => receive cfg (connection cfg s startLSN) inputs
  end.

(** [Run] from its [attempts]-th reconnect: the reader after it, the connection
    state, the reconnects counted, and what it returns; [cause] is why the
    retention monitor stops the stream. *)
Fixpoint Run (cfg : ReaderConfig) (cause : error) (attempts : Z) (s : rstate S) (reads : list attempt)
    : rstate S * (connState * Z * run_outcome) :=
  match reads with
  | [] => (s, (StateConnecting, 0, RunGoing))
  | r :: rest =>
      match read_once cfg s (at_start r) (at_inputs r) with
      | (s, None) => (s, (StateStreaming, 0, RunGoing))
      | (s, Some err) =>
          if at_ctxDone r then (s, (StateStopped, 0, RunReturned None))
          else if at_streamDone r then
            let '(state, out) := budgetExceeded cause in (s, (state, 0, out))
          else if negb (isRetryable err) then (s, (StateFailed, 0, RunReturned (Some err)))
          else if decide (rp_maxAttempts (rd_retryPolicy cfg) ≤ attempts)
          then (s, (StateFailed, 0, RunReturned (Some (EWrap (ESentinel ErrRetryExhausted)))))
          else
            match at_wait r with
            | Some e =>
                if at_waitCtxDone r then (s, (StateStopped, 1, RunReturned None))
                else if at_waitStreamDone r then
                  let '(state, out) := budgetExceeded cause in (s, (state, 1, out))
                else (s, (StateFailed, 1, RunReturned (Some e)))
            | None =>
                let '(s, (state, reconnects, out)) := Run cfg cause (attempts + 1) s rest in
                (s, (state, reconnects + 1, out))
            end
      end
  end.

End Reader.

(** [retryDelay] of a retry, from the number in [0, 1) its random source gives:
    2 to the retry's power is exact, and infinite past the largest double.
    Outside the range of a duration the conversion's result is the
    implementation's. *)
Definition retryDelay (policy : RetryPolicy) (attempt : Z) (random : float64) : option Z :=
  let base := f64_mul (f64_of_int (rp_initialBackoff policy)) (f64_of_int (2 ^ (attempt - 1))) in
  let base := f64_min base (f64_of_int (rp_maxBackoff policy)) in
  let jitter := f64_add f64_one (f64_mul (f64_sub (f64_mul random (f64_of_int 2)) f64_one) (rp_jitter policy)) in
  f64_to_int64 (f64_mul base jitter).

(** The default policy at the middle and at the ends of its jitter: it doubles
    from 250ms to 10s, and 20% either way. *)
Example retryDelay_default :
  let policy := mkRetry 250000000 10000000000 10 f64_0_2 in
  retryDelay policy 1 f64_0_5 = Some 250000000 ∧ retryDelay policy 3 f64_0_5 = Some 1000000000 ∧
  retryDelay policy 7 f64_0_5 = Some 10000000000 ∧ retryDelay policy 2000 f64_0_5 = Some 10000000000 ∧
  retryDelay policy 1 f64_zero = Some 200000000 ∧ retryDelay policy 9 f64_zero = Some 8000000000.
Proof. vm_compute. split_and!; reflexivity. Qed.

(** ** Statistics *)

Definition connState_String (s : connState) : string :=
  match s with
  | StateIdle => "idle"
  | StateConnecting => "connecting"
  | StateStreaming => "streaming"
  | StateBackingOff => "backing_off"
  | StateStopped => "stopped"
  | StateFailed => "failed"
  end.

Record ReaderStats : Type := mkReaderStats {
  ConnectionState : string;
  LastReceivedLSN : string;
  LastAcknowledgedLSN : string;
  TransactionsReceived : Z;
  TransactionsAccepted : Z;
  DecodeErrors : Z;
  ReconnectAttempts : Z;
  InFlightBytes : Z;
  InFlightChanges : Z;
  RetentionState : string
}.

(** [lsnStat]: empty until the first [Store]. *)
Definition lsnStat_String `{LsnText} (s : option Z) : string :=
  match s with
  | None => ""
  | Some lsn => lsn_string lsn
  end.

Definition Stats `{LsnText} {S} (connection_ : connState) (retention : string) (reconnects : Z) (s : rstate S)
    : ReaderStats :=
  mkReaderStats (connState_String connection_) (lsnStat_String (rs_lastReceived s))
    (lsnStat_String (rs_lastAcknowledged s)) (rs_received s) (rs_acceptedCount s) (rs_decodeErrors s)
    reconnects (rs_inFlight s).2 (rs_inFlight s).1 retention.
