(* ===== verification/ReaderProps.v ===== *)
(** * What the reader guarantees

    Acknowledging lets PostgreSQL discard WAL, so a position is acknowledged
    only when every transaction up to it is in the sink; and [Run]'s retries
    are bounded. *)

From S2P Require Import Prelude Errors CdcTypes Visibility Events Float64 Config Relation Decoder DecoderProps Hub Reader.
From Stdlib Require Import Ascii.
Local Open Scope string_scope.
Local Open Scope list_scope.
Local Open Scope Z_scope.

Section Acks.
Context {S : Type} `{TransactionSink S} `{PgLogRepl}.

(** ** Specification: a logical replication stream *)

(** What a turn carries, once parsed. *)
Inductive wire : Type :=
| WireMessage (m : Message)
| WireKeepalive (serverWALEnd : Z)
| WireOther.

Definition wire_of (i : input) : wire :=
  match in_received i with
  | RecvCopyData (String id rest) =>
      if decide (id = "w"%char) then
        match parse_xlog rest with
        | Some (_, _, walData) =>
            match parse_message walData with Some m => WireMessage m | None => WireOther end
        | None => WireOther
        end
      else if decide (id = "k"%char) then
        match parse_keepalive rest with Some (k, _) => WireKeepalive k | None => WireOther end
      else WireOther
  | _ => WireOther
  end.

(** PostgreSQL's documented stream order: transactions arrive in commit order,
    after the position replication started at, and a keepalive between
    transactions carries the sent position, so a transaction that follows it
    ends after it. Inside a transaction it says nothing. *)
Fixpoint ordered (bound : Z) (inTx : bool) (inputs : list input) : Prop :=
  match inputs with
  | [] => True
  | i :: rest =>
      match wire_of i with
      | WireMessage (MsgBegin _ _) => ordered bound true rest
      | WireMessage (MsgCommit _ endLSN) => bound < endLSN ∧ ordered endLSN false rest
      | WireKeepalive k => ordered (if inTx then bound else Z.max bound k) inTx rest
      | _ => ordered bound inTx rest
      end
  end.

(** The ends of the transactions a stream carries. *)
Fixpoint commit_ends (inputs : list input) : list Z :=
  match inputs with
  | [] => []
  | i :: rest =>
      match wire_of i with
      | WireMessage (MsgCommit _ endLSN) => endLSN :: commit_ends rest
      | _ => commit_ends rest
      end
  end.

(** The position a turn says everything before it was sent, and whether a
    transaction is open after it. *)
Definition next_bound (bound : Z) (inTx : bool) (w : wire) : Z * bool :=
  match w with
  | WireMessage (MsgBegin _ _) => (bound, true)
  | WireMessage (MsgCommit _ endLSN) => (endLSN, false)
  | WireKeepalive k => (if inTx then bound else Z.max bound k, inTx)
  | _ => (bound, inTx)
  end.

(** And a whole stream. *)
Fixpoint end_bound (bound : Z) (inTx : bool) (inputs : list input) : Z :=
  match inputs with
  | [] => bound
  | i :: rest => let next := next_bound bound inTx (wire_of i) in end_bound next.1 next.2 rest
  end.

Definition accepted_ends (s : rstate S) : list Z := (λ t, lsn (tx_cursor t)) <$> rs_accepted s.

(** ** One turn *)

(** What a turn may do: keep [safeLSN] within the stream's bound, acknowledge
    only it, and accept at most the transaction it ends. *)
Record turn_ok (s s' : rstate S) : Prop := {
  to_acks : ∃ acks, rs_acks s' = rs_acks s ++ acks ∧ ∀ l, l ∈ acks → l = rs_safe s';
  to_accepted : ∃ ts, rs_accepted s' = rs_accepted s ++ ts
}.

Lemma turn_ok_refl s : turn_ok s s.
Proof.
  split; exists []; rewrite app_nil_r; [|done]. split; [done|]. by intros l ?%elem_of_nil.
Qed.

Lemma turn_ok_same s s' :
  rs_acks s' = rs_acks s → rs_accepted s' = rs_accepted s → turn_ok s s'.
Proof.
  intros H1 H2. split; exists []; rewrite app_nil_r; [|done]. split; [done|]. by intros l ?%elem_of_nil.
Qed.

Lemma acknowledge_turn s s' status r :
  acknowledge s status = (s', r) →
  turn_ok s s' ∧ rs_safe s' = rs_safe s ∧ rs_decoder s' = rs_decoder s ∧ rs_accepted s' = rs_accepted s.
Proof.
  unfold acknowledge. destruct status; intros [= <- <-]; [|by split; [apply turn_ok_refl|]].
  split; [|done]. split; simpl; [|by exists []; rewrite app_nil_r].
  exists [rs_safe s]. split; [done|]. by intros l ->%list_elem_of_singleton.
Qed.

(** Consuming a message emits a transaction only at a COMMIT, and tracks
    whether one is open. *)
Lemma Consume_open d shapes m d' r :
  Consume d shapes m = (d', Ok r) →
  match m with
  | MsgBegin _ _ => r = None ∧ InTransaction d = false ∧ InTransaction d' = true
  | MsgCommit _ endLSN => ∃ t, r = Some t ∧ lsn (tx_cursor t) = endLSN ∧ InTransaction d' = false
  | _ => r = None ∧ InTransaction d' = InTransaction d
  end.
Proof.
  assert (∀ id decode, consume_row d shapes id decode = (d', Ok r) →
    r = None ∧ InTransaction d' = InTransaction d) as Hrow.
  { intros id decode. unfold consume_row. pose proof (skip_in_flight d shapes id) as Hs.
    destruct (skip d shapes id) as [d1 [[]|e]]; simpl in Hs; unfold in_flight in Hs;
      injection Hs as S1 S2 S3 S4 S5; try done.
    - intros [= <- <-]. unfold InTransaction. by rewrite S1.
    - destruct (decode d1) as [c|e]; [|done]. unfold append_pending, InTransaction. rewrite S1.
      destruct (dc_pending d); [|done]. destruct (decide _); [done|]. destruct (decide _); [done|].
      by intros [= <- <-]. }
  destruct m; simpl; try by intros [= <- <-].
  - intros [= <- <-]. split; [done|].
    pose proof (check_in_flight (set_relation d (rm_relationID m) (newRelationInfo m)) shapes
      (rm_relationID m) (newRelationInfo m)) as Hc. unfold in_flight in Hc. injection Hc as C1 C2 C3 C4 C5.
    unfold InTransaction. by rewrite C1.
  - unfold InTransaction. destruct (dc_pending d); [done|]. by intros [= <- <-].
  - apply Hrow.
  - apply Hrow.
  - apply Hrow.
  - destruct (dc_pending d); [|done]. intros [= <- <-]. by eexists.
Qed.

Lemma accept_transaction_turn cfg s t endLSN status s' r :
  lsn (tx_cursor t) = endLSN →
  accept_transaction cfg s t endLSN status = (s', r) →
  turn_ok s s' ∧ rs_decoder s' = rs_decoder s ∧
  ((∃ e, r = Err e) ∧ rs_acks s' = rs_acks s ∨ rs_safe s' = endLSN ∧ endLSN ∈ accepted_ends s').
Proof.
  intros Ht. unfold accept_transaction. simpl. destruct (sink _ _) as [k|e].
  2:{ intros [= <- <-]. split; [by apply turn_ok_same|]. split; [done|]. left. eauto. }
  match goal with |- match acknowledge ?s1 _ with _ => _ end = _ → _ => set (s1' := s1) end.
  destruct (acknowledge s1' status) as [s2 [u|e]] eqn:Hack;
    apply acknowledge_turn in Hack as ([(acks & Ha1 & Ha2) _] & Hsafe & Hdec & Hacc);
    intros [= <- <-]; simpl.
  - split.
    + split; simpl; [by exists acks|]. rewrite Hacc. simpl. eexists. done.
    + split; [done|]. right. split; [done|]. unfold accepted_ends. simpl. rewrite Hacc. simpl.
      rewrite fmap_app. apply elem_of_app. right. simpl. rewrite <-Ht. by left.
  - split.
    + split; [by exists acks|]. rewrite Hacc. simpl. eexists. done.
    + split; [done|]. right. split; [done|]. unfold accepted_ends. rewrite Hacc. simpl.
      rewrite fmap_app. apply elem_of_app. right. simpl. rewrite <-Ht. by left.
Qed.

(** A turn leaves [safeLSN] within the bound. If it acknowledged anything, the
    transaction the turn ends, if any, is accepted. *)
Definition turn_good (s : rstate S) (w : wire) (bound : Z) (s' : rstate S) (r : result error unit) : Prop :=
  let next := next_bound bound (InTransaction (rs_decoder s)) w in
  turn_ok s s' ∧
  (rs_acks s' ≠ rs_acks s ∨ r = Ok tt →
     rs_safe s' ≤ next.1 ∧
     ∀ c endLSN, w = WireMessage (MsgCommit c endLSN) → endLSN ∈ accepted_ends s') ∧
  (r = Ok tt → InTransaction (rs_decoder s') = next.2).

(** Neither acknowledges nor accepts. *)
Definition silent (s s' : rstate S) : Prop :=
  rs_acks s' = rs_acks s ∧ rs_accepted s' = rs_accepted s.

Lemma good_fail s w bound s' e : silent s s' → turn_good s w bound s' (Err e).
Proof.
  intros [H1 H2]. split; [by apply turn_ok_same|]. split; [|done]. by intros [?|?].
Qed.

(** Within the bound, with no COMMIT at hand. *)
Definition within (s : rstate S) (w : wire) (bound : Z) (s' : rstate S) : Prop :=
  silent s s' ∧ rs_safe s' ≤ (next_bound bound (InTransaction (rs_decoder s)) w).1 ∧
  InTransaction (rs_decoder s') = (next_bound bound (InTransaction (rs_decoder s)) w).2 ∧
  ∀ c endLSN, w ≠ WireMessage (MsgCommit c endLSN).

Lemma good_quiet s w bound s' : within s w bound s' → turn_good s w bound s' (Ok tt).
Proof.
  intros ([H1 H2] & H3 & H4 & H5). split; [by apply turn_ok_same|]. split; [|done]. intros _.
  split; [done|]. intros c e Hw. by destruct (H5 c e).
Qed.

Lemma good_ack s w bound s1 status s2 r2 :
  within s w bound s1 → acknowledge s1 status = (s2, r2) →
  turn_good s w bound s2
    match r2 with Ok u => Ok u | Err e => Err (classifyPostgresError e) end.
Proof.
  intros ([H1 H2] & H3 & H4 & H5) ([(acks & K1 & K2) _] & K4 & K5 & K6)%acknowledge_turn.
  split; [|split; [|by rewrite K5]].
  - split; [exists acks; by rewrite K1, H1|exists []; by rewrite app_nil_r, K6].
  - intros _. rewrite K4. split; [done|]. intros c e Hw. by destruct (H5 c e).
Qed.

Lemma consume_message_good cfg s s0 shapes m status bound s' r :
  rs_safe s ≤ bound → silent s s0 → rs_safe s0 = rs_safe s → rs_decoder s0 = rs_decoder s →
  consume_message cfg s0 shapes m status = (s', r) → turn_good s (WireMessage m) bound s' r.
Proof.
  intros Hb [Hs1 Hs2] Hs3 Hs4. unfold consume_message. rewrite Hs4.
  destruct (Consume (rs_decoder s) (Some shapes) m) as [d [[t|]|e]] eqn:Hc.
  - apply Consume_open in Hc. destruct m; try (by destruct Hc as [[=] _]).
    destruct Hc as (t' & [= <-] & Ht & Hin). destruct (decide _); [intros [= <- <-]; by apply good_fail|].
    intros Hacc. apply accept_transaction_turn in Hacc as ([(acks & A1 & A2) (ts & A3)] & A4 & A5); [|done].
    simpl in *. split; [|split].
    + split; [exists acks; split; [congruence|done]|exists ts; congruence].
    + intros Hor. simpl. destruct A5 as [[[e ->] Hsame]|[-> Hin']].
      * destruct Hor as [Hne|Hne]; [|done]. destruct Hne. congruence.
      * split; [done|]. by intros c e [= _ <-].
    + intros _. simpl. by rewrite A4.
  - intros [= <- <-]. apply good_quiet. split; [done|]. simpl. rewrite Hs3.
    apply Consume_open in Hc. destruct m; simpl; try (by destruct Hc as (? & [=] & _));
      (split; [lia|]); (split; [tauto|]); done.
  - intros [= <- <-]. by apply good_fail.
Qed.

Lemma consume_keepalive_good s k reply status bound s' r :
  rs_safe s ≤ bound → consume_keepalive s k reply status = (s', r) →
  turn_good s (WireKeepalive k) bound s' r.
Proof.
  intros Hb. unfold consume_keepalive. simpl.
  set (s1 := if decide _ then _ else _).
  assert (within s (WireKeepalive k) bound s1) as Hw.
  { subst s1. destruct (decide _) as [[Hin Hk]|Hn]; simpl in *.
    - split; [done|]. simpl. rewrite Hin. split; [lia|]. done.
    - split; [done|]. simpl. split; [|done]. destruct (InTransaction _); simpl in *; lia. }
  destruct reply; [|intros [= <- <-]; by apply good_quiet].
  destruct (acknowledge s1 status) as [s2 [[]|e]] eqn:Hk; intros [= <- <-];
    exact (good_ack _ _ _ _ _ _ _ Hw Hk).
Qed.

Lemma receive_turn_good cfg s i bound s' r :
  rs_safe s ≤ bound → receive_turn cfg s i = (s', r) → turn_good s (wire_of i) bound s' r.
Proof.
  intros Hb. destruct i as [recv shapes status]. unfold receive_turn, wire_of. simpl.
  destruct recv as [data| |sq msg| | |e|]; try (intros [= <- <-]; by apply good_fail).
  - unfold consumeCopyData. destruct data as [|id rest]; [intros [= <- <-]; by apply good_fail|].
    destruct (decide (id = "w"%char)).
    + destruct (parse_xlog rest) as [[[walStart serverWALEnd] walData]|];
        [|intros [= <- <-]; by apply good_fail].
      destruct (decide _); [intros [= <- <-]; by apply good_fail|].
      destruct (decide _); [intros [= <- <-]; by apply good_fail|].
      destruct (parse_message walData) as [m|]; [|intros [= <- <-]; by apply good_fail].
      by apply consume_message_good.
    + destruct (decide (id = "k"%char)); [|intros [= <- <-]; by apply good_fail].
      destruct (parse_keepalive rest) as [[k reply]|]; [|intros [= <- <-]; by apply good_fail].
      by apply consume_keepalive_good.
  - assert (within s WireOther bound s) as Hw by done.
    destruct (acknowledge s status) as [s2 [[]|e]] eqn:Hk; intros [= <- <-];
      exact (good_ack _ _ _ _ _ _ _ Hw Hk).
Qed.

(** ** Streams *)

Lemma ordered_next bound inTx i rest :
  ordered bound inTx (i :: rest) →
  ordered (next_bound bound inTx (wire_of i)).1 (next_bound bound inTx (wire_of i)).2 rest ∧
  (∀ c endLSN, wire_of i = WireMessage (MsgCommit c endLSN) → bound < endLSN) ∧
  bound ≤ (next_bound bound inTx (wire_of i)).1.
Proof.
  cbn [ordered]. destruct (wire_of i) as [[]| |]; simpl; try (intros Ho; split; [done|split; [done|lia]]).
  - intros [Hlt Ho]. split; [done|]. split; [by intros c e [= _ <-]|lia].
  - intros Ho. split; [done|]. split; [done|]. destruct inTx; lia.
Qed.

Lemma ordered_commits bound inTx inputs :
  ordered bound inTx inputs → ∀ e, e ∈ commit_ends inputs → bound < e.
Proof.
  revert bound inTx. induction inputs as [|i rest IH]; intros bound inTx Ho e; [by intros ?%elem_of_nil|].
  apply ordered_next in Ho as (Ho & Hc & Hle). cbn [commit_ends].
  destruct (wire_of i) as [[]| |] eqn:Hw; intros He; try (specialize (IH _ _ Ho e He); simpl in *; lia).
  apply elem_of_cons in He as [->|He]; [by eapply Hc|]. specialize (IH _ _ Ho e He). simpl in *.
  specialize (Hc _ _ eq_refl). lia.
Qed.

Lemma receive_accepts cfg s inputs s' e :
  receive cfg s inputs = (s', e) → ∃ ts, rs_accepted s' = rs_accepted s ++ ts.
Proof.
  revert s. induction inputs as [|i rest IH]; intros s; simpl.
  { intros [= <- <-]. exists []. by rewrite app_nil_r. }
  destruct (receive_turn cfg s i) as [s1 r] eqn:Ht.
  apply (receive_turn_good cfg s i (rs_safe s)) in Ht as ([_ [ts Hts]] & _); [|lia].
  destruct r as [u|err]; [|intros [= <- <-]; by exists ts].
  intros [ts' Hts']%IH. exists (ts ++ ts'). by rewrite Hts', Hts, app_assoc.
Qed.

Lemma ordered_end_bound bound inTx inputs : ordered bound inTx inputs → bound ≤ end_bound bound inTx inputs.
Proof.
  revert bound inTx. induction inputs as [|i rest IH]; intros bound inTx Ho; [simpl; lia|].
  apply ordered_next in Ho as (Ho & _ & Hle). cbn [end_bound]. cbv zeta. apply IH in Ho. lia.
Qed.

(** What one read acknowledges is covered by what it was sent, and accepted. *)
Lemma receive_acks cfg s inputs bound s' e :
  rs_safe s ≤ bound → ordered bound (InTransaction (rs_decoder s)) inputs →
  receive cfg s inputs = (s', e) →
  ∃ acks, rs_acks s' = rs_acks s ++ acks ∧
    ∀ l, l ∈ acks → l ≤ end_bound bound (InTransaction (rs_decoder s)) inputs ∧
      ∀ c, c ∈ commit_ends inputs → c ≤ l → c ∈ accepted_ends s'.
Proof.
  revert s bound. induction inputs as [|i rest IH]; intros s bound Hsafe Hord; cbn [receive].
  { intros [= <- <-]. exists []. rewrite app_nil_r. split; [done|]. by intros l ?%elem_of_nil. }
  apply ordered_next in Hord as (Hord & _ & Hle). cbn [end_bound]. cbv zeta.
  pose proof (ordered_commits _ _ _ Hord) as Hlater. pose proof (ordered_end_bound _ _ _ Hord) as Hend.
  destruct (receive_turn cfg s i) as [s1 r] eqn:Ht.
  apply (receive_turn_good cfg s i bound) in Ht as ([(acks & A1 & A2) _] & Hgood & Htx); [|done].
  assert (∀ c, c ∈ commit_ends (i :: rest) → c ∈ commit_ends rest ∨ ∃ x, wire_of i = WireMessage (MsgCommit x c)) as Hcases.
  { intros c. cbn [commit_ends]. destruct (wire_of i) as [[]| |]; try by left.
    intros [->|Hc]%elem_of_cons; [right; by eexists|by left]. }
  assert (∀ s2, (∀ x, x ∈ accepted_ends s1 → x ∈ accepted_ends s2) → ∀ l, l ∈ acks →
    l ≤ end_bound (next_bound bound (InTransaction (rs_decoder s)) (wire_of i)).1
          (next_bound bound (InTransaction (rs_decoder s)) (wire_of i)).2 rest ∧
    ∀ c, c ∈ commit_ends (i :: rest) → c ≤ l → c ∈ accepted_ends s2) as Hnow.
  { intros s2 Hmono l Hl. destruct Hgood as [Hs1 Hc1].
    { left. rewrite A1. intros Heq. apply (f_equal length) in Heq. rewrite length_app in Heq.
      destruct acks; [by apply elem_of_nil in Hl|simpl in Heq; lia]. }
    rewrite (A2 l Hl). split; [lia|]. intros c [Hc|[x Hw]]%Hcases Hcl; [|by eapply Hmono, Hc1].
    specialize (Hlater c Hc). lia. }
  destruct r as [[]|err].
  2:{ intros [= <- <-]. exists acks. split; [done|]. by apply Hnow. }
  intros Hrest. pose proof (receive_accepts _ _ _ _ _ Hrest) as [ts Hts].
  assert (∀ x, x ∈ accepted_ends s1 → x ∈ accepted_ends s') as Hmono.
  { unfold accepted_ends. rewrite Hts, fmap_app. intros x Hx. apply elem_of_app. by left. }
  destruct Hgood as [Hs1 Hc1]; [by right|]. rewrite <-(Htx eq_refl) in Hord.
  destruct (IH s1 _ Hs1 Hord Hrest) as (acks' & B1 & B2). rewrite (Htx eq_refl) in B2.
  exists (acks ++ acks'). split; [by rewrite B1, A1, app_assoc|].
  intros l [Hl|Hl]%elem_of_app; [by apply Hnow|]. destruct (B2 l Hl) as [Hb Hc]. split; [done|].
  intros c [Hin|[x Hw]]%Hcases Hcl; [by apply Hc|]. by eapply Hmono, Hc1.
Qed.

(** ** Properties *)

(** PostgreSQL's side of a slot, over the reads of a [Run]: a stream starts
    where the slot stood or at a position acknowledged since, is in order, and
    leaves out no transaction of the WAL up to where it has got. *)
Fixpoint served (cfg : ReaderConfig) (slot : Z) (wal : list Z) (s : rstate S) (reads : list attempt) : Prop :=
  match reads with
  | [] => True
  | r :: rest =>
      match at_start r with
      | Err _ => True
      | Ok startLSN =>
          startLSN ∈ slot :: rs_acks s ∧ ordered startLSN false (at_inputs r) ∧
          ∀ c, c ∈ wal → startLSN < c → c ≤ end_bound startLSN false (at_inputs r) → c ∈ commit_ends (at_inputs r)
      end ∧ served cfg slot wal (read_once cfg s (at_start r) (at_inputs r)).1 rest
  end.

(** Everything of the WAL up to an acknowledged position is accepted. *)
Definition acks_covered (slot : Z) (wal : list Z) (s : rstate S) : Prop :=
  ∀ l, l ∈ rs_acks s → ∀ c, c ∈ wal → slot < c → c ≤ l → c ∈ accepted_ends s.

Lemma read_covered cfg slot wal s startLSN inputs :
  acks_covered slot wal s → startLSN ∈ slot :: rs_acks s → ordered startLSN false inputs →
  (∀ c, c ∈ wal → startLSN < c → c ≤ end_bound startLSN false inputs → c ∈ commit_ends inputs) →
  acks_covered slot wal (receive cfg (connection cfg s startLSN) inputs).1.
Proof.
  intros Hcov Hstart Hord Hsent. destruct (receive cfg (connection cfg s startLSN) inputs) as [s1 e] eqn:Hr.
  pose proof (receive_accepts _ _ _ _ _ Hr) as [ts Hts].
  assert (∀ x, x ∈ accepted_ends s → x ∈ accepted_ends s1) as Hmono.
  { unfold accepted_ends. rewrite Hts, fmap_app. intros x Hx. apply elem_of_app. by left. }
  apply (receive_acks cfg _ inputs startLSN) in Hr as (acks & Ha & Hacks); [|simpl; lia|done].
  intros l Hl c Hc Hslot Hcl. cbn [fst] in Hl |- *. simpl in Ha. rewrite Ha in Hl. apply elem_of_app in Hl as [Hl|Hl]; [by apply Hmono, (Hcov l)|].
  destruct (Hacks l Hl) as [Hend Hacc]. destruct (decide (c ≤ startLSN)) as [Hle|Hgt].
  - apply elem_of_cons in Hstart as [->|Hstart]; [lia|]. by apply Hmono, (Hcov startLSN).
  - apply Hacc; [|done]. apply Hsent; [done|lia|]. change (InTransaction (rs_decoder (connection cfg s startLSN))) with false in Hend. lia.
Qed.

(** After a read [Run] has returned, still reads, or goes on. *)
Lemma run_after_read cfg cause attempts s r rest s' out :
  Run cfg cause attempts s (r :: rest) = (s', out) →
  s' = (read_once cfg s (at_start r) (at_inputs r)).1 ∨
  ∃ state reconnects out', Run cfg cause (attempts + 1) (read_once cfg s (at_start r) (at_inputs r)).1 rest =
    (s', (state, reconnects, out')).
Proof.
  cbn [Run]. destruct (read_once cfg s _ _) as [s1 [err|]]; [|intros [= <- _]; by left].
  destruct (at_ctxDone r); [intros [= <- _]; by left|]. destruct (at_streamDone r); [intros [= <- _]; by left|].
  destruct (negb _); [intros [= <- _]; by left|]. destruct (decide _); [intros [= <- _]; by left|].
  destruct (at_wait r) as [e|].
  - destruct (at_waitCtxDone r), (at_waitStreamDone r); intros [= <- _]; by left.
  - simpl. destruct (Run cfg cause (attempts + 1) s1 rest) as [s2 [[st rc] o]] eqn:Hrest.
    intros [= <- _]. right. eauto.
Qed.

(** C15 (safety): no acknowledged data loss, across reconnects. However often the
    connection is lost and whatever the sink and the status sends answer, every
    transaction of the WAL that ends after the slot's first position and at or
    before a position the reader has ever acknowledged was accepted by the
    sink: what PostgreSQL may discard is never missing. *)
Theorem acks_only_accepted cfg cause k slot wal reads s' out
    (Hserved : served cfg slot wal (new_reader cfg k) reads)
    (Hrun : Run cfg cause 0 (new_reader cfg k) reads = (s', out)) :
  ∀ l, l ∈ rs_acks s' → ∀ c, c ∈ wal → slot < c → c ≤ l → c ∈ accepted_ends s'.
Proof.
  change (acks_covered slot wal s').
  assert (acks_covered slot wal (new_reader cfg k)) as Hcov by (intros l Hl; by apply elem_of_nil in Hl).
  revert Hserved Hrun Hcov. generalize (new_reader cfg k), 0. revert s' out.
  induction reads as [|r rest IH]; intros s' out s attempts; cbn [served Run]; [by intros _ [= <- _]|].
  intros [Hstart Hserved] Hrun Hcov.
  assert (acks_covered slot wal (read_once cfg s (at_start r) (at_inputs r)).1) as Hcov'.
  { unfold read_once. destruct (at_start r); [|done]. destruct Hstart as (? & ? & ?). by apply read_covered. }
  apply run_after_read in Hrun as [-> | (state & reconnects & out' & Hrun)]; [done|]. by eapply IH.
Qed.

End Acks.

(** ** Reconnecting *)

Section Reconnecting.
Context {S : Type} `{TransactionSink S} `{PgLogRepl}.

(** A connection that cannot be opened and that [Run] retries: nothing
    cancelled, a retryable error, and a wait that ends normally. *)
Definition lost (r : attempt) : Prop :=
  at_ctxDone r = false ∧ at_streamDone r = false ∧ at_wait r = None ∧
  ∃ err, at_start r = Err err ∧ isRetryable err = true.

(** C19 (termination): [Run] reconnects at most [MaxAttempts] times over its whole life, so after
    one more read than that it has returned, unless a stream still runs; and
    when no connection can be opened, what it returns is [ErrRetryExhausted],
    after exactly that many reconnects, having accepted nothing. [attempts]
    counts the reconnects already made. *)
Theorem Run_bounded cfg cause attempts (s : rstate S) reads s' state reconnects out :
  let maxAttempts := rp_maxAttempts (rd_retryPolicy cfg) in
  0 ≤ attempts ≤ maxAttempts →
  Run cfg cause attempts s reads = (s', (state, reconnects, out)) →
  0 ≤ reconnects ≤ maxAttempts - attempts ∧
  (zlen reads > maxAttempts - attempts → out = RunGoing → state = StateStreaming) ∧
  (zlen reads > maxAttempts - attempts → Forall lost reads →
     out = RunReturned (Some (EWrap (ESentinel ErrRetryExhausted))) ∧
     reconnects = maxAttempts - attempts ∧ state = StateFailed ∧ s' = s).
Proof.
  cbv zeta. revert attempts s state reconnects out.
  induction reads as [|r reads IH]; intros attempts s state reconnects out Ha; cbn [Run].
  { intros [= <- <- <- <-]. split; [lia|]. split; unfold zlen; simpl; lia. }
  assert (∀ s1 err, read_once cfg s (at_start r) (at_inputs r) = (s1, Some err) → Forall lost (r :: reads) →
    s1 = s ∧ at_ctxDone r = false ∧ at_streamDone r = false ∧ isRetryable err = true ∧ at_wait r = None) as Hlost.
  { intros s1 err Hr [(L1 & L2 & L3 & e & L4 & L5) _]%Forall_cons. rewrite L4 in Hr. by injection Hr as <- <-. }
  destruct (read_once cfg s _ _) as [s1 [err|]] eqn:Hread.
  2:{ intros [= <- <- <- <-]. split; [lia|]. split; [done|]. intros _ [(_ & _ & _ & e & L4 & _) _]%Forall_cons.
      by rewrite L4 in Hread. }
  specialize (Hlost s1 err eq_refl).
  destruct (at_ctxDone r); [intros [= <- <- <- <-]; split; [lia|]; split; [done|]; intros _ (_ & [=] & _)%Hlost|].
  destruct (at_streamDone r); [intros [= <- <- <- <-]; split; [lia|]; split; [done|]; intros _ (_ & _ & [=] & _)%Hlost|].
  destruct (isRetryable err); simpl; [|intros [= <- <- <- <-]; split; [lia|]; split; [done|]; intros _ (_ & _ & _ & [=] & _)%Hlost].
  destruct (decide (_ ≤ attempts)).
  { intros [= <- <- <- <-]. split; [lia|]. split; [done|]. intros _ (-> & _)%Hlost. split; [done|]. split; [lia|done]. }
  destruct (at_wait r) as [e|].
  - destruct (at_waitCtxDone r); [|destruct (at_waitStreamDone r)]; intros [= <- <- <- <-];
      (split; [lia|]); (split; [done|]); by intros _ (_ & _ & _ & _ & [=])%Hlost.
  - destruct (Run cfg cause (attempts + 1) s1 reads) as [s2 [[st rc] o]] eqn:Hrun.
    intros [= <- <- <- <-]. destruct (IH (attempts + 1) s1 st rc o) as (I1 & I2 & I3); [lia|done|].
    split; [lia|]. unfold zlen in *. simpl length. split; [intros; apply I2; [lia|done]|].
    intros Hlen Hall. destruct (Hlost Hall) as [-> _]. apply Forall_cons in Hall as [_ Hall].
    destruct I3 as (? & ? & ? & ?); [lia|done|]. split; [done|]. split; [lia|done].
Qed.

End Reconnecting.

(** A concrete protocol and sink, for a closed example. *)
Definition demo_wire : PgLogRepl := {|
  parse_xlog s := Some (0, 0, s);
  parse_message s := if decide (s = "B") then Some (MsgBegin 1 0)
                     else if decide (s = "C") then Some (MsgCommit 9 10) else None;
  parse_keepalive _ := Some (20, true)
|}.

Definition demo_sink : TransactionSink (list Transaction) := λ k t, Ok (k ++ [t]).

Definition demo_input (data : string) : input :=
  mkInput (RecvCopyData data) (registry_of new_shapes) (Ok tt).

Definition demo_config : ReaderConfig :=
  normalizeReaderConfig (mkReaderConfig "postgres://db" "db" "watchd" "watchd_pub" 0 0 0 0 0 0 0
    (mkRetry 0 0 0 f64_zero) 0 0 0 f64_zero f64_zero).

Definition demo_lost : attempt :=
  mkAttempt (Err (retryableError ErrReplicationEnded "")) [] false false None false false.

Definition demo_retrying (maxAttempts : Z) : ReaderConfig :=
  normalizeReaderConfig (mkReaderConfig "postgres://db" "db" "watchd" "watchd_pub" 0 0 0 0 0 0 0
    (mkRetry 0 0 maxAttempts f64_zero) 0 0 0 f64_zero f64_zero).

Lemma Run_bounded_witness :
  let cfg := demo_retrying 2 in
  let '(s, out) := @Run _ demo_sink demo_wire cfg (ESentinel ErrRetainedWALBudgetExceeded) 0 (new_reader cfg [])
    [demo_lost; demo_lost; demo_lost] in
  out = (StateFailed, 2, RunReturned (Some (EWrap (ESentinel ErrRetryExhausted)))) ∧ s = new_reader cfg [].
Proof.
  cbv zeta. destruct (Run _ _ _ _ _) as [s [[state reconnects] out]] eqn:Hrun.
  destruct (@Run_bounded _ demo_sink demo_wire (demo_retrying 2) _ 0 _ _ _ _ _ _ ltac:(vm_compute; split; discriminate) Hrun)
    as (_ & _ & Hl).
  destruct Hl as (-> & -> & -> & ->); [vm_compute; reflexivity| |split; reflexivity].
  repeat (apply Forall_cons_2; [split_and!; try reflexivity; eexists; split; reflexivity|]). apply Forall_nil_2.
Defined.

(** The acknowledgement of the first transaction fails, so the next connection
    starts where the slot was and is sent it again, with a keepalive that asks
    for a reply; a connection that cannot be opened follows, and one that
    starts at the keepalive's position. *)
Definition demo_attempt (start : result error Z) (inputs : list input) : attempt :=
  mkAttempt start inputs false false None false false.

Definition demo_reads : list attempt :=
  [ demo_attempt (Ok 5) [demo_input "wB"; mkInput (RecvCopyData "wC") (registry_of new_shapes)
      (Err (retryableError ErrSourceUnavailable ""))];
    demo_attempt (Ok 5) [demo_input "wB"; demo_input "wC"; demo_input "k"; mkInput RecvCopyDone (registry_of new_shapes) (Ok tt)];
    demo_lost;
    demo_attempt (Ok 20) [demo_input "wB"] ].

Definition demo_received : rstate (list Transaction) * (connState * Z * run_outcome) :=
  @Run _ demo_sink demo_wire demo_config (ESentinel ErrRetainedWALBudgetExceeded) 0 (new_reader demo_config []) demo_reads.

Lemma acks_only_accepted_witness :
  demo_received.2 = (StateStreaming, 3, RunGoing) ∧
  rs_acks demo_received.1 = [10; 20] ∧ rs_received demo_received.1 = 2 ∧ 10 ∈ accepted_ends demo_received.1.
Proof.
  split; [vm_compute; reflexivity|]. split; [vm_compute; reflexivity|]. split; [vm_compute; reflexivity|].
  refine (@acks_only_accepted _ demo_sink demo_wire demo_config (ESentinel ErrRetainedWALBudgetExceeded) [] 5 [10]
    demo_reads demo_received.1 demo_received.2 _ _ 20 _ 10 _ _ _).
  - cbn [served demo_reads demo_attempt demo_lost at_start at_inputs]. split_and!; try done.
    all: try (apply (bool_decide_unpack _); vm_compute; done).
    all: try (vm_compute; done).
    all: intros c ->%list_elem_of_singleton Hlt _; first [lia | apply (bool_decide_unpack _); vm_compute; done].
  - vm_compute. reflexivity.
  - apply (bool_decide_unpack _). vm_compute. done.
  - apply (bool_decide_unpack _). vm_compute. done.
  - done.
  - done.
Defined.
