(* ===== verification/Wal.v ===== *)
(** * The reader against the write-ahead log

    The log is a list of transactions, each with its rows and the relations
    they are rows of. What the streams of a reader's connections carry of it,
    and what the sink is handed: the log's own transactions after the slot, in
    order, none missing and none made up. *)

From S2P Require Import Prelude Errors CdcTypes Visibility Events Float64 Config Relation Decoder DecoderProps Hub HubWindow Reader ReaderProps.
From Stdlib Require Import Ascii.
Local Open Scope string_scope.
Local Open Scope list_scope.
Local Open Scope Z_scope.

(** ** The log *)

Inductive row_op : Type :=
| OpInsert (new : option TupleData)
| OpUpdate (old new : option TupleData)
| OpDelete (old : option TupleData).

(** A committed transaction: its rows, each with its relation as the stream
    described it, and where its commit record starts and ends. *)
Record wal_tx : Type := mkWalTx {
  wt_xid : Z;
  wt_time : Z;
  wt_ops : list (RelationMessage * row_op);
  wt_commit : Z;
  wt_end : Z
}.

Record wal_ok (wal : list wal_tx) : Prop := {
  wal_commit w : w ∈ wal → wt_commit w < wt_end w;
  wal_sorted : StronglySorted (λ a b, wt_end a ≤ wt_commit b) wal
}.

(** ** What a row stands for *)

(** The key: the columns the relation marks, with their texts. *)
Definition key_pairs (columns : list RelationMessageColumn) (texts : list string) : list (string * string) :=
  omap (λ '(c, text), if decide (rc_flags c = 1) then Some (rc_name c, text) else None) (zip columns texts).

Definition assign_pairs (pairs : list (string * string)) : gmap string string :=
  foldl (λ m '(name, text), <[name := text]> m) ∅ pairs.

Definition new_key (m : RelationMessage) (columns : TupleData) : gmap string string :=
  assign_pairs (key_pairs (rm_columns m) (v_text ∘ column_value <$> columns)).

(** A delete's tuple is the whole old row, or its key columns alone. *)
Definition old_key (m : RelationMessage) (columns : TupleData) : gmap string string :=
  if decide (length columns = length (rm_columns m))
  then assign_pairs (key_pairs (rm_columns m) (tc_data <$> columns))
  else assign_pairs (zip (rc_name <$> base.filter (λ c, rc_flags c = 1) (rm_columns m)) (tc_data <$> columns)).

Definition row_change (m : RelationMessage) (op : row_op) : Change :=
  let table := qualifiedTable (rm_namespace m) (rm_relationName m) in
  let names := rc_name <$> rm_columns m in
  match op with
  | OpInsert new =>
      mkChange OperationInsert table (new_key m (default [] new)) names (column_value <$> default [] new)
  | OpUpdate _ new =>
      mkChange OperationUpdate table (new_key m (default [] new)) names (column_value <$> default [] new)
  | OpDelete old => mkChange OperationDelete table (old_key m (default [] old)) [] []
  end.

(** A table that no longer has its baseline's shape. *)
Definition misfit (reg : shapeRegistry) (m : RelationMessage) : option IncompatibleRelationError :=
  let table := qualifiedTable (rm_namespace m) (rm_relationName m) in
  baseline ← sr_byTable reg table; mkIncompatible table <$> diff baseline (shapeOfRelation m).

Definition op_change (reg : shapeRegistry) (op : RelationMessage * row_op) : option Change :=
  match misfit reg op.1 with Some _ => None | None => Some (row_change op.1 op.2) end.

Definition tx_core (t : Transaction) : Transaction :=
  mkTransaction (tx_cursor t) (tx_changes t) (tx_commitTime t) [] (tx_commitLSN t) (tx_xid t).

Section Decoding.
Context (recorded : shapeRegistry → Prop).

(** What rows stand for, each under the baselines [recorded] when it came. *)
Definition changes_of (ops : list (RelationMessage * row_op)) (changes : list Change) : Prop :=
  ∃ regs, Forall2 (λ _ reg, recorded reg) ops regs ∧ changes = omap (λ '(op, reg), op_change reg op) (zip ops regs).

(** The transaction the sink should get, but for what it reports of tables
    that do not fit, which the log does not say. *)
Definition decodes (source : string) (w : wal_tx) (t : Transaction) : Prop :=
  ∃ changes, changes_of (wt_ops w) changes ∧
    tx_core t = mkTransaction (mkCursor source (wt_end w)) changes (wt_time w) [] (wt_commit w) (wt_xid w).

(** A generation names one state of the baselines: every change moves it. *)
Definition generations : Prop :=
  ∀ reg reg', recorded reg → recorded reg' → sr_generation reg = sr_generation reg' →
    ∀ table, sr_byTable reg table = sr_byTable reg' table.

Lemma changes_of_snoc ops changes op reg :
  changes_of ops changes → recorded reg → changes_of (ops ++ [op]) (changes ++ option_list (op_change reg op)).
Proof.
  intros (regs & Hall & ->) Hreg. exists (regs ++ [reg]). split; [by apply Forall2_app; [|constructor]|].
  rewrite zip_with_app by (by eapply Forall2_length). rewrite omap_app. csimpl. by destruct (op_change reg op).
Qed.

(** With the baselines as they are throughout, a row's verdict is theirs. *)
Lemma changes_of_fixed reg ops changes :
  (∀ reg', recorded reg' → reg' = reg) → changes_of ops changes → changes = omap (op_change reg) ops.
Proof.
  intros Hfix (regs & Hall & ->). induction Hall as [|op reg' ops regs Hr _ IH]; [done|]. csimpl.
  rewrite (Hfix reg' Hr). destruct (op_change reg op); by rewrite IH.
Qed.

End Decoding.

(** The states of the baselines while [l] is recorded, shape by shape. *)
Definition recordings (l : list relationShape) (reg : shapeRegistry) : Prop :=
  ∃ l1, l1 `prefix_of` l ∧ reg = registry_of (foldl record new_shapes l1).

Lemma recordings_generations l : zlen l < 2 ^ 64 → generations (recordings l).
Proof.
  intros Hl reg reg' (l1 & H1 & ->) (l2 & H2 & ->). cbn [registry_of sr_generation sr_byTable].
  assert (∀ l1 l2, l2 `prefix_of` l → l1 `prefix_of` l2 →
    ss_gen (foldl record new_shapes l1) = ss_gen (foldl record new_shapes l2) →
    foldl record new_shapes l1 = foldl record new_shapes l2) as Hpre.
  { intros k1 k2 [x Hx] [y ->] Hg. unfold zlen in Hl. rewrite Hx, !length_app in Hl. rewrite foldl_app in *.
    destruct (recordings_move k1 new_shapes) as [? _]; [simpl; unfold zlen; lia..|].
    destruct (recordings_move y (foldl record new_shapes k1)) as [_ Heq]; [simpl in *; unfold zlen in *; lia..|].
    symmetry. by apply Heq. }
  intros Hg table. destruct (prefix_weak_total l1 l2 l H1 H2) as [Hp|Hp].
  - by rewrite (Hpre l1 l2).
  - by rewrite (Hpre l2 l1).
Qed.

(** ** What a stream carries *)

(** The relations described so far, and the open transaction. *)
Record scan : Type := mkScan {
  sc_known : gmap Z RelationMessage;
  sc_open : option (Z * Z * list (RelationMessage * row_op))
}.

Definition add_op (st : scan) (id : Z) (op : row_op) : scan :=
  match sc_known st !! id, sc_open st with
  | Some m, Some (xid, time, ops) => mkScan (sc_known st) (Some (xid, time, ops ++ [(m, op)]))
  | _, _ => st
  end.

Definition scan_message (st : scan) (m : Message) : scan * option wal_tx :=
  match m with
  | MsgRelation r => (mkScan (<[rm_relationID r := r]> (sc_known st)) (sc_open st), None)
  | MsgBegin xid time => (mkScan (sc_known st) (Some (xid, time, [])), None)
  | MsgInsert id new => (add_op st id (OpInsert new), None)
  | MsgUpdate id old new => (add_op st id (OpUpdate old new), None)
  | MsgDelete id old => (add_op st id (OpDelete old), None)
  | MsgCommit c e =>
      match sc_open st with
      | Some (xid, time, ops) => (mkScan (sc_known st) None, Some (mkWalTx xid time ops c e))
      | None => (st, None)
      end
  | MsgType | MsgOrigin | MsgOther _ => (st, None)
  end.

Definition scan_wire (st : scan) (w : wire) : scan * option wal_tx :=
  match w with WireMessage m => scan_message st m | _ => (st, None) end.

(** The transactions a connection's stream carries. *)
Fixpoint carried `{PgLogRepl} (st : scan) (inputs : list input) : list wal_tx :=
  match inputs with
  | [] => []
  | i :: rest => let next := scan_wire st (wire_of i) in option_list next.2 ++ carried next.1 rest
  end.

Definition new_scan : scan := mkScan ∅ None.

(** ** The decoder keeps up with the stream *)

(** What the decoder holds of a relation, checked against [reg]. *)
Definition checked_info (reg : shapeRegistry) (m : RelationMessage) : relationInfo :=
  let info := newRelationInfo m in
  mkInfo (ri_table info) (ri_columns info) (ri_keyIndexes info) (ri_shape info) (ri_oid info)
    (sr_generation reg) (misfit reg m).

Section Follows.
Context (recorded : shapeRegistry → Prop).

Definition relation_follows (info : option relationInfo) (m : option RelationMessage) : Prop :=
  match info, m with
  | Some info, Some m => ∃ reg, recorded reg ∧ info = checked_info reg m
  | None, None => True
  | _, _ => False
  end.

Record follows (d : Decoder) (st : scan) : Prop := {
  fo_relations id : relation_follows (dc_relations d !! id) (sc_known st !! id);
  fo_open :
    match dc_pending d, sc_open st with
    | Some changes, Some (xid, time, ops) =>
        changes_of recorded ops changes ∧ dc_pendingXid d = xid ∧ dc_pendingCommitTime d = time
    | None, None => True
    | _, _ => False
    end
}.

End Follows.

(** ** Keys *)

Lemma key_indexes_pairs columns texts pn pt :
  length columns = length texts → length pn = length pt →
  key_pairs columns texts =
  zip ((λ i, default "" ((pn ++ (rc_name <$> columns)) !! i)) <$> key_indexes (length pn) columns)
      ((λ i, default "" ((pt ++ texts) !! i)) <$> key_indexes (length pn) columns).
Proof.
  revert texts pn pt. induction columns as [|c columns IH]; intros [|t texts] pn pt Hl Hk; try done.
  injection Hl as Hl. cbn [key_indexes].
  pose proof (IH texts (pn ++ [rc_name c]) (pt ++ [t]) Hl) as Hrest.
  rewrite !length_app, Hk in Hrest. specialize (Hrest eq_refl). rewrite <-Hk, <-!app_assoc in Hrest.
  replace (length pn + length [rc_name c])%nat with (S (length pn)) in Hrest by (simpl; lia).
  unfold key_pairs in *. csimpl. destruct (decide (rc_flags c = 1)); [|exact Hrest].
  rewrite !fmap_cons, Hrest. simpl. by rewrite !list_lookup_middle by done.
Qed.

Lemma key_indexes_names columns pn :
  (λ i, default "" ((pn ++ (rc_name <$> columns)) !! i)) <$> key_indexes (length pn) columns =
  rc_name <$> base.filter (λ c, rc_flags c = 1) columns.
Proof.
  revert pn. induction columns as [|c columns IH]; intros pn; [done|]. cbn [key_indexes]. rewrite filter_cons.
  pose proof (IH (pn ++ [rc_name c])) as Hrest. rewrite length_app, <-app_assoc in Hrest.
  replace (length pn + length [rc_name c])%nat with (S (length pn)) in Hrest by (simpl; lia).
  change ([rc_name c] ++ (rc_name <$> columns)) with (rc_name <$> c :: columns) in Hrest.
  destruct (decide (rc_flags c = 1)); [|exact Hrest]. rewrite (fmap_cons _ (length pn)), Hrest.
  by rewrite (fmap_cons _ c columns), list_lookup_middle by done.
Qed.

Lemma assign_all_pairs names texts : assign_all names texts ∅ = assign_pairs (zip names texts).
Proof. done. Qed.

Lemma checked_key_names reg m :
  key_names (checked_info reg m) = rc_name <$> base.filter (λ c, rc_flags c = 1) (rm_columns m).
Proof. apply (key_indexes_names (rm_columns m) []). Qed.

Lemma values_key reg m columns key :
  length columns = length (rm_columns m) →
  keyFromValues (checked_info reg m) (column_value <$> columns) = Ok key → key = new_key m columns.
Proof.
  intros Hl. unfold keyFromValues. destruct (decide _); [done|]. intros [-> _]%key_loop_spec.
  rewrite assign_all_pairs. unfold new_key. f_equal.
  rewrite (key_indexes_pairs (rm_columns m) (v_text ∘ column_value <$> columns) [] [])
    by (by rewrite ?length_fmap). f_equal.
  apply list_fmap_ext. intros _ i _. simpl. rewrite !list_lookup_fmap. by destruct (columns !! i).
Qed.

Lemma tuple_key reg m columns maxBytes u :
  checkKeyTuple (checked_info reg m) (Some columns) maxBytes = Ok u →
  keyFromTuple (checked_info reg m) columns = old_key m columns.
Proof.
  intros Hck. rewrite keyFromTuple_spec, assign_all_pairs. unfold old_key.
  assert (length (ri_columns (checked_info reg m)) = length (rm_columns m)) as Hlen by apply length_fmap.
  unfold key_texts, key_columns, keyColumn. rewrite Hlen. destruct (decide (length columns = _)) as [Hl|Hl].
  - f_equal. rewrite (key_indexes_pairs (rm_columns m) (tc_data <$> columns) [] []) by (by rewrite ?length_fmap).
    f_equal. cbn [length app]. apply list_eq. intros k. rewrite !list_lookup_fmap.
    destruct (key_indexes 0 (rm_columns m) !! k) as [i|] eqn:Hk.
    + rewrite lookup_seq_lt by (by eapply lookup_lt_Some). simpl. rewrite Hk. simpl.
      rewrite list_lookup_fmap. by destruct (columns !! i).
    + by rewrite lookup_seq_ge by (by apply lookup_ge_None).
  - rewrite <-(checked_key_names reg). do 2 f_equal.
    unfold checkKeyTuple in Hck. rewrite Hlen in Hck.
    destruct (decide (length (ri_keyIndexes _) = 0%nat)); [done|].
    rewrite decide_False in Hck by done. destruct (decide _) as [Hk|]; [|done].
    rewrite <-Hk. apply list_eq. intros k. rewrite !list_lookup_fmap.
    destruct (columns !! k) as [c|] eqn:Hc.
    + rewrite lookup_seq_lt by (by eapply lookup_lt_Some). simpl. by rewrite Hc.
    + by rewrite lookup_seq_ge by (by apply lookup_ge_None).
Qed.

(** ** Rows *)

(** The decoder's own view of a row message. *)
Definition decode_op (d : Decoder) (id : Z) (op : row_op) : result error Change :=
  match op with
  | OpInsert new => insert_row d id new
  | OpUpdate old new => update_row d id old new
  | OpDelete old => delete_row d id old
  end.

Lemma new_row_spec reg m new maxBytes values :
  decodeRow (checked_info reg m) new maxBytes = Ok values →
  length (default [] new) = length (rm_columns m) ∧ values = column_value <$> default [] new.
Proof.
  destruct new as [columns|]; [|done]. intros (Hl & _ & ->)%decodeRow_exact. split; [|done].
  simpl in *. by rewrite Hl, length_fmap.
Qed.

Lemma decode_op_spec reg d id m op c :
  dc_relations d !! id = Some (checked_info reg m) → decode_op d id op = Ok c → c = row_change m op.
Proof.
  intros Hi. destruct op as [new|old new|old]; simpl; unfold insert_row, update_row, delete_row, relation;
    rewrite Hi; cbn [result_bind].
  - destruct (decodeRow _ _ _) as [values|] eqn:Hv; cbn [result_bind]; [|done].
    apply new_row_spec in Hv as [Hl ->]. destruct (keyFromValues _ _) as [key|] eqn:Hk; cbn [result_bind]; [|done].
    intros [= <-]. by apply values_key in Hk as ->.
  - destruct (decodeRow _ _ _) as [values|] eqn:Hv; cbn [result_bind]; [|done].
    apply new_row_spec in Hv as [Hl ->]. destruct (keyFromValues _ _) as [key|] eqn:Hk; cbn [result_bind]; [|done].
    destruct (match old with Some _ => _ | None => _ end); cbn [result_bind]; [|done].
    intros [= <-]. by apply values_key in Hk as ->.
  - destruct (checkKeyTuple _ _ _) as [u|] eqn:Hck; cbn [result_bind]; [|done]. intros [= <-].
    destruct old as [columns|]; [|done]. simpl. by rewrite (tuple_key reg m columns _ _ Hck).
Qed.

(** A relation checked against the baselines, whatever it was checked against
    before. *)
Lemma check_relation reg d id info m :
  ri_table info = ri_table (newRelationInfo m) → ri_columns info = ri_columns (newRelationInfo m) →
  ri_keyIndexes info = ri_keyIndexes (newRelationInfo m) → ri_shape info = ri_shape (newRelationInfo m) →
  ri_oid info = ri_oid (newRelationInfo m) →
  dc_relations (check d (Some reg) id info) = <[id := checked_info reg m]> (dc_relations d).
Proof.
  intros E1 E2 E3 E4 E5. unfold check. cbv zeta.
  set (d1 := match sr_byOID reg (ri_oid info) with Some _ => _ | None => _ end).
  assert (dc_relations d1 = dc_relations d) as Hd1.
  { subst d1. destruct (sr_byOID _ _); [|done]. destruct (decide _); [|done].
    by rewrite (proj2 (report_in_flight _ _)). }
  clearbody d1. unfold checked_info, misfit. rewrite E1, E2, E3, E4, E5. cbn [newRelationInfo ri_table ri_shape].
  destruct (sr_byTable reg _) as [baseline|]; simpl; [|by rewrite Hd1].
  destruct (diff baseline _); simpl; [rewrite (proj2 (report_in_flight _ _)); simpl|]; by rewrite Hd1.
Qed.

Definition op_message (id : Z) (op : row_op) : Message :=
  match op with
  | OpInsert new => MsgInsert id new
  | OpUpdate old new => MsgUpdate id old new
  | OpDelete old => MsgDelete id old
  end.

Section Keeps_up.
Context (recorded : shapeRegistry → Prop) (Hgen : generations recorded).

Abbreviation follows := (follows recorded).

(** A relation the decoder knows is checked again when the generation has
    moved; its verdict is that of the baselines as they are. *)
Lemma skip_follows reg d st id m :
  recorded reg → follows d st → sc_known st !! id = Some m →
  ∃ d', skip d (Some reg) id = (d', Ok (bool_decide (is_Some (misfit reg m)))) ∧
    follows d' st ∧ ∃ reg', dc_relations d' !! id = Some (checked_info reg' m).
Proof.
  intros Hreg [Hrel Hopen] Hm. pose proof (Hrel id) as Hid. rewrite Hm in Hid. unfold relation_follows in Hid.
  destruct (dc_relations d !! id) as [info|] eqn:Hi; [|done]. destruct Hid as (reg0 & Hreg0 & ->).
  unfold skip, relation. rewrite Hi. cbv zeta. cbn [checked_info ri_checked].
  destruct (decide (sr_generation reg0 ≠ sr_generation reg)) as [Hne|Heq%dec_stable].
  - set (d1 := check d (Some reg) id _).
    assert (dc_relations d1 = <[id := checked_info reg m]> (dc_relations d)) as Hd1 by (by apply check_relation).
    pose proof (check_in_flight d (Some reg) id (checked_info reg0 m)) as Hfl. fold d1 in Hfl.
    exists d1. split; [by rewrite Hd1, lookup_insert_eq|].
    split; [|exists reg; by rewrite Hd1, lookup_insert_eq].
    split.
    + intros id'. rewrite Hd1. destruct (decide (id' = id)) as [->|Hne'].
      * rewrite lookup_insert_eq, Hm. simpl. eauto.
      * by rewrite lookup_insert_ne.
    + unfold in_flight in Hfl. injection Hfl as -> _ -> -> _. exact Hopen.
  - rewrite Hi. exists d. split.
    + assert (misfit reg0 m = misfit reg m) as Hmis; [|by cbn [checked_info ri_incompatible]; rewrite Hmis].
      unfold misfit. by rewrite (Hgen reg0 reg Hreg0 Hreg Heq).
    + split; [by split|]. by exists reg0.
Qed.

Lemma Consume_op reg d st id op d' r :
  recorded reg → follows d st → Consume d (Some reg) (op_message id op) = (d', Ok r) →
  r = None ∧ follows d' (add_op st id op).
Proof.
  intros Hreg Hf Hc.
  assert (consume_row d (Some reg) id (λ d, decode_op d id op) = (d', Ok r)) as Hrow by (by destruct op).
  clear Hc. unfold consume_row in Hrow. unfold add_op.
  destruct (sc_known st !! id) as [m|] eqn:Hm.
  2:{ pose proof (fo_relations _ _ _ Hf id) as Hid. rewrite Hm in Hid. unfold relation_follows in Hid.
      unfold skip, relation in Hrow. by destruct (dc_relations d !! id). }
  destruct (skip_follows reg d st id m Hreg Hf Hm) as (d1 & Hskip & [Hrel Hopen] & reg' & Hl). rewrite Hskip in Hrow.
  assert (∀ ops changes, changes_of recorded ops changes →
    changes_of recorded (ops ++ [(m, op)]) (changes ++ option_list (op_change reg (m, op)))) as Hsnoc
    by (intros ops changes Hch; by apply changes_of_snoc).
  unfold op_change in Hsnoc. cbn [fst snd] in Hsnoc.
  destruct (misfit reg m) as [e|] eqn:Hmis; [rewrite bool_decide_true in Hrow by eauto|
    rewrite bool_decide_false in Hrow by (by intros [])].
  - injection Hrow as <- <-. split; [done|]. destruct (sc_open st) as [[[xid time] ops]|] eqn:Ho; [|by split; rewrite ?Ho].
    split; [done|]. simpl. destruct (dc_pending d1); [|done]. destruct Hopen as (Hch & Hx & Ht). split; [|done].
    specialize (Hsnoc ops _ Hch). by rewrite app_nil_r in Hsnoc.
  - destruct (decode_op d1 id op) as [c|e] eqn:Hdec; [|done]. apply (decode_op_spec reg' d1 id m op c Hl) in Hdec as ->.
    unfold append_pending in Hrow. destruct (dc_pending d1) as [changes|] eqn:Hp; [|done].
    destruct (decide _); [done|]. destruct (decide _); [done|]. injection Hrow as <- <-. split; [done|].
    destruct (sc_open st) as [[[xid time] ops]|]; [|done]. destruct Hopen as (Hch & Hx & Ht).
    split; [done|]. simpl. split; [|done]. by apply Hsnoc.
Qed.

(** One message: the decoder emits the transaction the stream ended. *)
Lemma Consume_follows reg d st m d' r :
  recorded reg → follows d st → Consume d (Some reg) m = (d', Ok r) →
  follows d' (scan_message st m).1 ∧
  match r, (scan_message st m).2 with
  | None, None => True
  | Some t, Some w => decodes recorded "" w t ∧ ∃ c, m = MsgCommit c (wt_end w)
  | _, _ => False
  end.
Proof.
  intros Hreg Hf Hc. assert (∀ id op, m = op_message id op → r = None ∧ follows d' (add_op st id op)) as Hop.
  { intros id op ->. by eapply Consume_op. }
  destruct m as [rm|xid time|id new|id old new|id old|c e| | |ty].
  - assert (check (set_relation d (rm_relationID rm) (newRelationInfo rm)) (Some reg) (rm_relationID rm)
      (newRelationInfo rm) = d' ∧ None = r) as [<- <-] by (by injection Hc).
    clear Hc Hop. split; [|done]. destruct Hf as [Hrel Hopen].
    split; cbn [scan_message fst sc_known sc_open].
    + intros id. rewrite (check_relation reg _ _ _ rm) by done. cbn [set_relation dc_relations].
      rewrite insert_insert_eq. destruct (decide (id = rm_relationID rm)) as [->|Hne].
      * rewrite !lookup_insert_eq. simpl. eauto.
      * by rewrite !lookup_insert_ne by done.
    + pose proof (check_in_flight (set_relation d (rm_relationID rm) (newRelationInfo rm)) (Some reg)
        (rm_relationID rm) (newRelationInfo rm)) as Hi. revert Hi. generalize (check (set_relation d (rm_relationID rm)
        (newRelationInfo rm)) (Some reg) (rm_relationID rm) (newRelationInfo rm)).
      unfold in_flight. intros d1 [= -> _ -> -> _]. exact Hopen.
  - simpl in Hc. destruct Hf as [Hrel Hopen]. destruct (dc_pending d); [done|]. injection Hc as <- <-.
    split; [|done]. split; [done|]. simpl. split; [|done]. exists []. by split.
  - by destruct (Hop id (OpInsert new) eq_refl) as [-> ?].
  - by destruct (Hop id (OpUpdate old new) eq_refl) as [-> ?].
  - by destruct (Hop id (OpDelete old) eq_refl) as [-> ?].
  - simpl in *. destruct Hf as [Hrel Hopen]. destruct (dc_pending d) as [changes|]; [|done].
    injection Hc as <- <-. destruct (sc_open st) as [[[xid time] ops]|]; [|done]. destruct Hopen as (Hch & Hx & Ht).
    simpl. split; [by split|]. split; [|by eexists]. exists changes. split; [done|]. unfold tx_core. simpl. by rewrite Hx, Ht.
  - by injection Hc as <- <-.
  - by injection Hc as <- <-.
  - done.
Qed.

End Keeps_up.

(** ** The reader keeps up with its streams *)

Section Streams.
Context {S : Type} `{TransactionSink S} `{PgLogRepl} (cfg : ReaderConfig).
Context (recorded : shapeRegistry → Prop) (Hgen : generations recorded).

Abbreviation decodes := (decodes recorded).
Abbreviation follows := (follows recorded).

(** From [s] to [s'] the sink was handed some of [ws], from its start: all of
    them unless the stream failed. *)
Definition handed (s s' : rstate S) (ws : list wal_tx) (all : Prop) : Prop :=
  ∃ ts k, rs_accepted s' = rs_accepted s ++ ts ∧ Forall2 (decodes (rd_sourceID cfg)) (take k ws) ts ∧ (all → take k ws = ws).

Lemma handed_none s s' ws : rs_accepted s' = rs_accepted s → handed s s' ws False.
Proof. intros E. exists [], 0%nat. rewrite app_nil_r. by split_and!; [|constructor|]. Qed.

Lemma handed_nothing s s' all : rs_accepted s' = rs_accepted s → handed s s' [] all.
Proof. intros E. exists [], 0%nat. rewrite app_nil_r. by split_and!; [|constructor|]. Qed.

Lemma handed_weaken s s' ws (all all' : Prop) : handed s s' ws all → (all' → all) → handed s s' ws all'.
Proof. intros (ts & k & H1 & H2 & H3) Hi. exists ts, k. tauto. Qed.

Lemma accept_transaction_handed s t endLSN status s' r :
  accept_transaction cfg s t endLSN status = (s', r) →
  rs_decoder s' = rs_decoder s ∧
  (r = Ok tt ∨ rs_accepted s' ≠ rs_accepted s →
   ∃ t', rs_accepted s' = rs_accepted s ++ [t'] ∧
     tx_core t' = mkTransaction (mkCursor (rd_sourceID cfg) (lsn (tx_cursor t))) (tx_changes t) (tx_commitTime t) []
       (tx_commitLSN t) (tx_xid t)).
Proof.
  unfold accept_transaction. cbv zeta. destruct (sink _ _) as [k|e].
  2:{ intros [= <- <-]. split; [done|]. by intros [?|[]]. }
  destruct (acknowledge _ _) as [s2 [u|e]] eqn:Hk; apply acknowledge_turn in Hk as (_ & _ & Hd & Ha); simpl in *;
    intros [= <- <-]; (split; [exact Hd|]); intros _; eexists; by rewrite Ha.
Qed.

Lemma handed_one s s' t' w all :
  rs_accepted s' = rs_accepted s ++ [t'] → decodes (rd_sourceID cfg) w t' → handed s s' [w] all.
Proof. intros E Hc. exists [t'], 1%nat. split_and!; [done|by repeat constructor|done]. Qed.

Lemma consume_message_follows reg s0 s st m status s' r :
  recorded reg → rs_accepted s = rs_accepted s0 → follows (rs_decoder s) st →
  consume_message cfg s reg m status = (s', r) →
  handed s0 s' (option_list (scan_message st m).2) (r = Ok tt) ∧
  (r = Ok tt → follows (rs_decoder s') (scan_message st m).1).
Proof.
  intros Hreg Hs Hf Hc. unfold consume_message in Hc.
  destruct (Consume (rs_decoder s) (Some reg) m) as [d [[t|]|e]] eqn:Hcons.
  - destruct (Consume_follows recorded Hgen reg _ st m d _ Hreg Hf Hcons) as [Hf' Hw].
    destruct ((scan_message st m).2) as [w|]; [|done]. destruct Hw as ((changes & Hch & Hcore) & c & ->). simpl in Hc.
    destruct (decide _); [injection Hc as <- <-; split; [|done]; by eapply handed_weaken; [apply handed_none|]|].
    apply accept_transaction_handed in Hc as [Hd Ha]. simpl in *. split; [|by rewrite Hd].
    destruct (decide (length (rs_accepted s') = length (rs_accepted s))) as [Hl|Hl].
    + assert (r ≠ Ok tt) as Hr.
      { intros ->. destruct Ha as (t' & Ha & _); [by left|]. rewrite Ha, length_app in Hl. simpl in Hl. lia. }
      eapply handed_weaken; [apply handed_none|done]. rewrite <-Hs.
      destruct (decide (r = Ok tt)); [done|].
      apply dec_stable. intros Hne. destruct Ha as (t' & Ha & _); [by right|]. rewrite Ha, length_app in Hl. simpl in Hl. lia.
    + destruct Ha as (t' & Ha & Ht'); [right; congruence|]. eapply handed_one; [by rewrite Ha, Hs|].
      exists changes. split; [done|]. rewrite Ht'. unfold tx_core in Hcore. simpl in *. by injection Hcore as -> -> -> -> ->.
  - destruct (Consume_follows recorded Hgen reg _ st m d _ Hreg Hf Hcons) as [Hf' Hw]. injection Hc as <- <-.
    destruct ((scan_message st m).2); [done|]. split; [by apply handed_nothing|]. by intros _.
  - injection Hc as <- <-. split; [|done]. by eapply handed_weaken; [apply handed_none|].
Qed.

Lemma turn_follows s st i s' r :
  recorded (in_shapes i) → follows (rs_decoder s) st → receive_turn cfg s i = (s', r) →
  handed s s' (option_list (scan_wire st (wire_of i)).2) (r = Ok tt) ∧
  (r = Ok tt → follows (rs_decoder s') (scan_wire st (wire_of i)).1).
Proof.
  intros Hreg Hf Ht.
  assert (∀ ws P, rs_accepted s' = rs_accepted s → r ≠ Ok tt →
    handed s s' ws (r = Ok tt) ∧ (r = Ok tt → P)) as Hfail.
  { intros ws P Hs Hr. split; [|done]. by eapply handed_weaken; [apply handed_none|]. }
  assert (rs_accepted s' = rs_accepted s → rs_decoder s' = rs_decoder s →
    handed s s' [] (r = Ok tt) ∧ (r = Ok tt → follows (rs_decoder s') st)) as Hquiet.
  { intros Hs Hd. split; [by apply handed_nothing|]. by rewrite Hd. }
  unfold receive_turn, wire_of in *. destruct (in_received i) as [data| |sq msg| | |e|];
    try (injection Ht as <- <-; by apply Hfail).
  2:{ simpl. destruct (acknowledge s (in_status i)) as [s2 [u|e]] eqn:Hk;
        apply acknowledge_turn in Hk as (_ & _ & Hd & Ha); injection Ht as <- <-; by apply Hquiet. }
  unfold consumeCopyData in Ht. destruct data as [|id rest]; [injection Ht as <- <-; by apply Hfail|].
  destruct (decide (id = "w"%char)).
  - destruct (parse_xlog rest) as [[[walStart serverWALEnd] walData]|]; [|injection Ht as <- <-; by apply Hfail].
    destruct (decide _); [injection Ht as <- <-; by apply Hfail|].
    destruct (decide _); [injection Ht as <- <-; by apply Hfail|].
    destruct (parse_message walData) as [m|]; [|injection Ht as <- <-; by apply Hfail].
    by eapply (consume_message_follows (in_shapes i) s _ st) in Ht.
  - destruct (decide (id = "k"%char)); [|injection Ht as <- <-; by apply Hfail].
    destruct (parse_keepalive rest) as [[k reply]|]; [|injection Ht as <- <-; by apply Hfail].
    simpl. unfold consume_keepalive in Ht. set (s1 := if decide _ then _ else _) in *.
    assert (rs_accepted s1 = rs_accepted s ∧ rs_decoder s1 = rs_decoder s) as [E1 E2]
      by (subst s1; by destruct (decide _)). clearbody s1.
    destruct reply; [destruct (acknowledge s1 (in_status i)) as [s2 [u|x]] eqn:Hk;
      apply acknowledge_turn in Hk as (_ & _ & Hd & Ha)|]; injection Ht as <- <-; apply Hquiet; congruence.
Qed.

Lemma handed_trans s1 s2 s3 ws1 ws2 all :
  handed s1 s2 ws1 True → handed s2 s3 ws2 all → handed s1 s3 (ws1 ++ ws2) all.
Proof.
  intros (t1 & k1 & E1 & D1 & A1) (t2 & k2 & E2 & D2 & A2). rewrite (A1 I) in D1.
  exists (t1 ++ t2), (length ws1 + k2)%nat. split; [by rewrite E2, E1, app_assoc|].
  rewrite take_app_add. split; [by apply Forall2_app|]. intros Ha. by rewrite (A2 Ha).
Qed.

Lemma handed_more s s' ws ws' : handed s s' ws False → handed s s' (ws ++ ws') False.
Proof.
  intros (ts & k & E & D & _). exists ts, (k `min` length ws)%nat. split; [done|].
  rewrite take_app_le by lia. split; [|done].
  replace (take (k `min` length ws) ws) with (take k ws); [done|].
  destruct (Nat.le_ge_cases k (length ws)); [by rewrite Nat.min_l|].
  rewrite Nat.min_r by done. by rewrite !take_ge by done.
Qed.

(** A connection hands over transactions its stream carries, in order. *)
Lemma receive_follows s st inputs s' e :
  Forall (λ i, recorded (in_shapes i)) inputs → follows (rs_decoder s) st → receive cfg s inputs = (s', e) →
  handed s s' (carried st inputs) False.
Proof.
  revert s st. induction inputs as [|i rest IH]; intros s st Hall Hf; cbn [receive carried].
  { intros [= <- <-]. by apply handed_nothing. }
  apply Forall_cons in Hall as [Hi Hall]. destruct (receive_turn cfg s i) as [s1 r] eqn:Ht.
  destruct (turn_follows s st i s1 r Hi Hf Ht) as [Hh Hf']. cbv zeta.
  destruct r as [[]|err].
  - intros Hr. eapply handed_trans; [by eapply handed_weaken|]. by eapply IH; [|apply Hf'|].
  - intros [= <- <-]. apply handed_more. by eapply handed_weaken.
Qed.

Lemma new_decoder_follows : follows (newDecoder cfg) new_scan.
Proof. split; [|done]. intros id. simpl. by rewrite !lookup_empty. Qed.

Lemma connection_handed s startLSN inputs s' e :
  Forall (λ i, recorded (in_shapes i)) inputs → receive cfg (connection cfg s startLSN) inputs = (s', e) →
  handed s s' (carried new_scan inputs) False.
Proof.
  intros Hall Hr. apply (receive_follows _ new_scan) in Hr as (ts & k & H1); [|done|apply new_decoder_follows].
  by exists ts, k.
Qed.

End Streams.

(** ** What is new *)

(** What a sink that ignores what it already has keeps: each transaction that
    ends after everything kept before, and after [bound]. *)
Fixpoint news (bound : Z) (ts : list Transaction) : list Transaction :=
  match ts with
  | [] => []
  | t :: rest =>
      if decide (bound < lsn (tx_cursor t)) then t :: news (lsn (tx_cursor t)) rest else news bound rest
  end.

Definition last_end (bound : Z) (ts : list Transaction) : Z := foldl (λ _ t, lsn (tx_cursor t)) bound ts.

Lemma news_app b ts ts' : news b (ts ++ ts') = news b ts ++ news (last_end b (news b ts)) ts'.
Proof.
  revert b. induction ts as [|t ts IH]; intros b; [done|]. simpl. destruct (decide _); [|apply IH].
  simpl. f_equal. apply IH.
Qed.

Lemma news_old b ts : (∀ t, t ∈ ts → lsn (tx_cursor t) ≤ b) → news b ts = [].
Proof.
  revert b. induction ts as [|t ts IH]; intros b Hb; [done|]. simpl.
  rewrite decide_False by (apply Z.nlt_ge, Hb; by left). apply IH. set_solver.
Qed.

Lemma news_new b ts :
  StronglySorted tx_before ts → (∀ t, t ∈ ts → b < lsn (tx_cursor t)) → news b ts = ts.
Proof.
  intros Hs. revert b. induction Hs as [|t ts Hs IH Ht]; intros b Hb; [done|]. simpl.
  rewrite decide_True by (apply Hb; by left). f_equal. apply IH. by apply Forall_forall.
Qed.

(** ** The log's order *)

Lemma wal_ok_sub wal (P : wal_tx → Prop) `{∀ w, Decision (P w)} : wal_ok wal → wal_ok (base.filter P wal).
Proof.
  intros [Hc Hs]. split; [intros w [_ Hw]%list_elem_of_filter; by apply Hc|].
  by apply StronglySorted_filter.
Qed.

Lemma wal_ok_app ws ws' :
  wal_ok (ws ++ ws') → wal_ok ws ∧ wal_ok ws' ∧ ∀ a b, a ∈ ws → b ∈ ws' → wt_end a < wt_end b.
Proof.
  intros [Hc Hs]. apply StronglySorted_app in Hs as (Hab & H1 & H2).
  split; [split; [set_solver|done]|]. split; [split; [set_solver|done]|].
  intros a b Ha Hb. specialize (Hab a b Ha Hb). specialize (Hc b ltac:(set_solver)). simpl in *. lia.
Qed.

Lemma log_ends_sorted ws : wal_ok ws → StronglySorted (λ a b, wt_end a < wt_end b) ws.
Proof.
  intros [Hc Hs]. induction Hs as [|w ws Hs IH Hw]; constructor.
  - apply IH. intros v Hv. apply Hc. by right.
  - apply Forall_forall. intros v Hv. eapply Forall_forall in Hw; [|done].
    specialize (Hc v ltac:(by right)). lia.
Qed.

(** The last position of a log. *)
Definition wal_end (b : Z) (ws : list wal_tx) : Z := foldl (λ _ w, wt_end w) b ws.

Section Order.
Context (R : wal_tx → Transaction → Prop) (Hends : ∀ w t, R w t → lsn (tx_cursor t) = wt_end w).

Lemma ends_same ws ts : Forall2 R ws ts → (λ t, lsn (tx_cursor t)) <$> ts = wt_end <$> ws.
Proof. induction 1 as [|w t ws ts Hr _ IH]; [done|]. by rewrite !fmap_cons, IH, (Hends w t Hr). Qed.

Lemma last_end_same b ws ts : Forall2 R ws ts → last_end b ts = wal_end b ws.
Proof.
  intros Hall. revert b. induction Hall as [|w t ws ts Hr _ IH]; intros b; [done|]. simpl.
  by rewrite IH, (Hends w t Hr).
Qed.

Lemma ends_in ws ts t : Forall2 R ws ts → t ∈ ts → ∃ w, w ∈ ws ∧ lsn (tx_cursor t) = wt_end w.
Proof.
  intros Hall Ht. apply (list_elem_of_fmap_2 (λ t, lsn (tx_cursor t))) in Ht. rewrite (ends_same ws ts Hall) in Ht.
  apply list_elem_of_fmap in Ht as (w & Hw & Hin). by exists w.
Qed.

Lemma decoded_sorted ws ts : wal_ok ws → Forall2 R ws ts → StronglySorted tx_before ts.
Proof.
  intros Hok Hall. induction Hall as [|w t ws ts Hr Hall IH]; [constructor|].
  apply (wal_ok_app [w] ws) in Hok as (_ & Hws & Hab). constructor; [by apply IH|].
  apply Forall_forall. intros u Hu. destruct (ends_in ws ts u Hall Hu) as (v & Hv & Hend).
  unfold tx_before. rewrite Hend, (Hends w t Hr). apply Hab; [by left|done].
Qed.

Lemma wal_end_le b ws w : wal_ok ws → w ∈ ws → wt_end w ≤ wal_end b ws.
Proof.
  destruct ws as [|v ws _] using rev_ind; [intros _ Hw; by apply elem_of_nil in Hw|].
  intros (_ & _ & Hab)%wal_ok_app Hw. unfold wal_end. rewrite foldl_app. simpl.
  apply elem_of_app in Hw as [Hw| ->%list_elem_of_singleton]; [|done].
  apply Z.lt_le_incl, Hab; [done|by left].
Qed.

Lemma wal_end_lt b ws x : b < x → (∀ w, w ∈ ws → wt_end w < x) → wal_end b ws < x.
Proof.
  intros Hb Hw. destruct ws as [|v ws _] using rev_ind; [done|]. unfold wal_end. rewrite foldl_app. simpl.
  apply Hw, elem_of_app. right. by left.
Qed.

(** After the transactions of [done], those of [more] among which some are
    repeated: only the new ones are news. *)
Lemma news_continue slot done todo ts more rest :
  wal_ok (done ++ todo) → (∀ w, w ∈ done ++ todo → slot < wt_end w) → Forall2 R more ts →
  (∃ l, done ++ todo = l ++ more ++ rest ∧ (length l ≤ length done)%nat) →
  ∃ todo1 todo2, todo = todo1 ++ todo2 ∧ Forall2 R todo1 (news (wal_end slot done) ts) ∧
    ∀ w, w ∈ more → w ∈ done ++ todo1.
Proof.
  intros Hok Hslot Hts (l & Hl & Hlen).
  destruct (prefix_split l (more ++ rest) done todo) as (x & -> & Hx); [done|done|].
  apply wal_ok_app in Hok as (Hdone & Htodo & Hab). set (b := wal_end _ _).
  assert (∀ w, w ∈ x → wt_end w ≤ b) as Hold by (intros w Hw; apply wal_end_le; [done|set_solver]).
  assert (∀ ws ts, Forall2 R ws ts → (∀ w, w ∈ ws → wt_end w ≤ b) → news b ts = []) as Hnone.
  { intros ws us Hall Hws. apply news_old. intros t Ht. destruct (ends_in ws us t Hall Ht) as (w & Hw & ->).
    by apply Hws. }
  apply app_eq_inv in Hx as [(y & -> & ->)|(y & -> & ->)].
  - exists y, rest. split; [done|]. split; [|set_solver].
    apply Forall2_app_inv_l in Hts as (us & vs & Hus & Hvs & ->). rewrite news_app, (Hnone x us) by done. simpl.
    apply wal_ok_app in Htodo as (Hy & _). rewrite news_new; [done|by eapply decoded_sorted|].
    intros t Ht. destruct (ends_in y vs t Hvs Ht) as (w & Hw & ->).
    apply wal_end_lt; [apply Hslot; set_solver|]. intros v Hv. apply Hab; set_solver.
  - exists [], todo. split; [done|]. split; [|set_solver]. rewrite (Hnone more) by (done || (intros w Hw; apply Hold; set_solver)).
    constructor.
Qed.

End Order.

(** ** A whole [Run] *)

Section Runs.
Context {S : Type} `{TransactionSink S} `{PgLogRepl} (cfg : ReaderConfig).
Context (recorded : shapeRegistry → Prop) (Hgen : generations recorded).
Context (slot : Z) (wal : list wal_tx) (Hwal : wal_ok wal).

#[local] Abbreviation decoded := (decodes recorded (rd_sourceID cfg)).

Lemma decoded_ends w t : decoded w t → lsn (tx_cursor t) = wt_end w.
Proof. intros (changes & _ & Hc). by apply (f_equal (λ t, lsn (tx_cursor t))) in Hc. Qed.

(** The log after the slot. *)
Definition log_after (l : Z) : list wal_tx := base.filter (λ w, l < wt_end w) wal.

(** PostgreSQL's side of one connection: its stream starts at or after the
    slot, and carries the log from there on. The baselines may change
    meanwhile, between any two messages, as snapshots record them. *)
Definition stream_of (r : attempt) : Prop :=
  match at_start r with
  | Err _ => True
  | Ok startLSN =>
      slot ≤ startLSN ∧ Forall (λ i, recorded (in_shapes i)) (at_inputs r) ∧
      carried new_scan (at_inputs r) `prefix_of` log_after startLSN
  end.

(** The sink has the log's transactions [done], and [todo] is left. *)
Record caught (s : rstate S) (done todo : list wal_tx) : Prop := {
  ca_split : log_after slot = done ++ todo;
  ca_news : Forall2 decoded done (news slot (rs_accepted s));
  ca_from l : l ∈ accepted_ends s → ∃ w, w ∈ done ∧ l = wt_end w
}.

Lemma log_after_ok : wal_ok (log_after slot).
Proof. by apply wal_ok_sub. Qed.

Lemma elem_of_log_after l w : w ∈ log_after l → l < wt_end w ∧ w ∈ wal.
Proof. unfold log_after. by intros ?%list_elem_of_filter. Qed.

(** Where a stream starts, the sink has everything before. *)
Lemma start_reached s done todo startLSN :
  caught s done todo → acks_covered slot (wt_end <$> wal) s → startLSN ∈ slot :: rs_acks s → slot ≤ startLSN →
  ∃ l, log_after slot = l ++ log_after startLSN ∧ (length l ≤ length done)%nat.
Proof.
  intros [Hsplit Hnews Hfrom] Hcov Hstart Hle. pose proof log_after_ok as Hok.
  assert (log_after startLSN = base.filter (λ w, startLSN < wt_end w) (log_after slot)) as Hstartlog.
  { unfold log_after. rewrite list_filter_filter. apply list_filter_iff. intros w. lia. }
  destruct (filter_suffix (λ a b, wt_end a < wt_end b) (λ w, startLSN < wt_end w) (log_after slot))
    as (l & Hl & Hno); [by apply log_ends_sorted|intros a b; lia|].
  exists l. rewrite Hstartlog. split; [exact Hl|].
  destruct (Nat.le_gt_cases (length l) (length done)) as [|Hgt]; [done|exfalso].
  rewrite Hsplit in Hl at 1. destruct (prefix_split done todo l _ Hl) as (x & -> & ->); [lia|].
  destruct x as [|w x]; [rewrite app_nil_r in Hgt; lia|].
  assert (w ∈ log_after slot) as [Hslot Hw]%elem_of_log_after by (rewrite Hsplit; set_solver).
  specialize (Hno w ltac:(set_solver)). apply elem_of_cons in Hstart as [->|Hstart]; [lia|].
  assert (wt_end w ∈ accepted_ends s) as (v & Hv & Heq)%Hfrom
    by (apply (Hcov startLSN); [done|by apply list_elem_of_fmap_2|lia..]).
  rewrite Hsplit in Hok. apply wal_ok_app in Hok as (_ & _ & Hab). specialize (Hab v w Hv ltac:(set_solver)). lia.
Qed.

Lemma caught_connection s done todo startLSN inputs :
  caught s done todo → acks_covered slot (wt_end <$> wal) s → startLSN ∈ slot :: rs_acks s → slot ≤ startLSN →
  Forall (λ i, recorded (in_shapes i)) inputs → carried new_scan inputs `prefix_of` log_after startLSN →
  ∃ todo1 todo2, todo = todo1 ++ todo2 ∧
    caught (receive cfg (connection cfg s startLSN) inputs).1 (done ++ todo1) todo2.
Proof.
  intros Hca Hcov Hstart Hle Hreg [q Hq]. destruct (receive _ _ _) as [s' e] eqn:Hr.
  destruct (start_reached s done todo startLSN Hca Hcov Hstart Hle) as (l & Hl & Hlen).
  destruct Hca as [Hsplit Hnews Hfrom].
  apply (connection_handed cfg recorded Hgen) in Hr as (ts & k & Hacc & Hts & _); [|done].
  destruct (news_continue decoded decoded_ends slot done todo ts (take k (carried new_scan inputs))
    (drop k (carried new_scan inputs) ++ q)) as (todo1 & todo2 & -> & Hn & Hmore).
  { rewrite <-Hsplit. apply log_after_ok. }
  { rewrite <-Hsplit. by intros w [? _]%elem_of_log_after. }
  { done. }
  { exists l. by rewrite <-Hsplit, (app_assoc (take _ _)), take_drop, <-Hq. }
  exists todo1, todo2. split; [done|]. simpl. split.
  - by rewrite Hsplit, app_assoc.
  - rewrite Hacc, news_app, (last_end_same decoded decoded_ends slot done) by done. by apply Forall2_app.
  - intros x. unfold accepted_ends. rewrite Hacc, fmap_app. intros [Hx|Hx]%elem_of_app.
    + apply Hfrom in Hx as (w & Hw & ->). exists w. split; [set_solver|done].
    + apply list_elem_of_fmap in Hx as (t & -> & Ht).
      destruct (ends_in decoded decoded_ends _ _ t Hts Ht) as (w & Hw & Hend). exists w. split; [by apply Hmore|done].
Qed.

Lemma caught_new k : caught (new_reader cfg k) [] (log_after slot).
Proof. split; [done|done|]. intros l Hl. by apply elem_of_nil in Hl. Qed.

(** Whatever the outcome of the reads. *)
Lemma Run_caught cause attempts s reads done todo s' out :
  caught s done todo → acks_covered slot (wt_end <$> wal) s →
  served cfg slot (wt_end <$> wal) s reads → Forall stream_of reads →
  Run cfg cause attempts s reads = (s', out) →
  (∃ done' todo', caught s' done' todo') ∧ acks_covered slot (wt_end <$> wal) s'.
Proof.
  revert attempts s done todo out. induction reads as [|r rest IH]; intros attempts s done todo out Hca Hcov Hserved Hall.
  { intros [= <- _]. eauto. }
  apply Forall_cons in Hall as [Hr Hall]. destruct Hserved as [Hstart Hserved]. intros Hrun.
  assert ((∃ done' todo', caught (read_once cfg s (at_start r) (at_inputs r)).1 done' todo') ∧
    acks_covered slot (wt_end <$> wal) (read_once cfg s (at_start r) (at_inputs r)).1) as [(done' & todo' & Hca') Hcov'].
  { unfold read_once, stream_of in *. destruct (at_start r) as [startLSN|e]; [|by eauto].
    destruct Hstart as (Hin & Hord & Hgaps). destruct Hr as (Hle & Hreg & Hpre).
    split; [|by apply read_covered].
    destruct (caught_connection s done todo startLSN (at_inputs r)) as (t1 & t2 & _ & Hc); eauto. }
  apply run_after_read in Hrun as [->|(state & n & out' & Hrun)]; [by eauto|]. by eapply IH.
Qed.

Lemma Run_acks cause k reads s' out :
  served cfg slot (wt_end <$> wal) (new_reader cfg k) reads → Forall stream_of reads →
  Run cfg cause 0 (new_reader cfg k) reads = (s', out) →
  ∃ had due, caught s' had due ∧ ∀ l w, l ∈ rs_acks s' → w ∈ due → l < wt_end w.
Proof.
  intros Hserved Hstreams Hrun.
  destruct (Run_caught cause 0 _ reads [] (log_after slot) s' out (caught_new k)) as [(had & due & Hca) Hcov];
    [by intros l Hl; apply elem_of_nil in Hl|done..|].
  exists had, due. split; [done|]. destruct Hca as [Hsplit Hnews Hfrom].
  intros l w Hl Hw. destruct (decide (l < wt_end w)) as [|Hge]; [done|exfalso].
  assert (w ∈ log_after slot) as [Hslot Hin]%elem_of_log_after by (rewrite Hsplit; set_solver).
  assert (wt_end w ∈ accepted_ends s') as (v & Hv & Heq)%Hfrom
    by (apply (Hcov l); [done|by apply list_elem_of_fmap_2|lia..]).
  pose proof log_after_ok as Hok. rewrite Hsplit in Hok. apply wal_ok_app in Hok as (_ & _ & Hab).
  specialize (Hab v w Hv Hw). lia.
Qed.


End Runs.

(** ** A log, streamed twice *)

(** Two transactions: an insert, then an update that leaves the note as it was
    and a delete. *)
Definition demo_insert : TupleData := demo_row (demo_text "x").
Definition demo_update : TupleData := demo_row (mkColumn TupleDataTypeToast "").
Definition demo_old : TupleData := [demo_text "a"; demo_text "1"].

Definition demo_log : list wal_tx :=
  [mkWalTx 1 100 [(demo_relation, OpInsert (Some demo_insert))] 9 10;
   mkWalTx 2 200 [(demo_relation, OpUpdate None (Some demo_update)); (demo_relation, OpDelete (Some demo_old))] 19 20].

Definition demo_log_wire : PgLogRepl := {|
  parse_xlog s := Some (0, 0, s);
  parse_message s :=
    if decide (s = "R") then Some (MsgRelation demo_relation)
    else if decide (s = "B1") then Some (MsgBegin 1 100)
    else if decide (s = "I") then Some (MsgInsert 7 (Some demo_insert))
    else if decide (s = "C1") then Some (MsgCommit 9 10)
    else if decide (s = "B2") then Some (MsgBegin 2 200)
    else if decide (s = "U") then Some (MsgUpdate 7 None (Some demo_update))
    else if decide (s = "D") then Some (MsgDelete 7 (Some demo_old))
    else if decide (s = "C2") then Some (MsgCommit 19 20) else None;
  parse_keepalive _ := None
|}.

(** A snapshot records the table's baseline. *)
Definition demo_recorded : shapes := record new_shapes (shapeOfRelation demo_relation).

Definition demo_baselines (reg : shapeRegistry) : Prop :=
  reg = registry_of new_shapes ∨ reg = registry_of demo_recorded.

Lemma demo_generations : generations demo_baselines.
Proof. intros reg reg' [-> | ->] [-> | ->] Hg table; [done|vm_compute in Hg; discriminate..|done]. Qed.

Definition demo_later (data : string) : input := mkInput (RecvCopyData data) (registry_of demo_recorded) (Ok tt).

(** The first connection ends before its acknowledgement arrives; the second
    carries the first transaction again, then the second one, during which the
    table's baseline is recorded. *)
Definition demo_log_reads : list attempt :=
  [ demo_attempt (Ok 5) [demo_input "wR"; demo_input "wB1"; demo_input "wI";
      mkInput (RecvCopyData "wC1") (registry_of new_shapes) (Err (retryableError ErrSourceUnavailable ""))];
    demo_attempt (Ok 5) [demo_input "wR"; demo_input "wB1"; demo_input "wI"; demo_input "wC1";
      demo_input "wB2"; demo_input "wU"; demo_later "wD"; demo_later "wC2"] ].

Definition demo_log_run : rstate (list Transaction) * (connState * Z * run_outcome) :=
  @Run _ demo_sink demo_log_wire demo_config (ESentinel ErrRetainedWALBudgetExceeded) 0
    (new_reader demo_config []) demo_log_reads.

Lemma demo_log_ok : wal_ok demo_log.
Proof.
  split; [|repeat constructor; simpl; lia]. apply Forall_forall. repeat constructor; simpl; lia.
Qed.

Lemma demo_log_served cfg :
  @served _ demo_sink demo_log_wire cfg 5 (wt_end <$> demo_log) (new_reader cfg []) demo_log_reads.
Proof.
  cbn [served demo_log_reads demo_attempt at_start at_inputs].
  split; [split; [by left|]|split; [split; [by left|]|exact I]].
  all: split; [vm_compute; split_and!; (reflexivity || exact I)|].
  all: intros c Hc Hlt Hend; vm_compute in Hend.
  all: repeat (apply elem_of_cons in Hc as [->|Hc];
    [try (exfalso; by apply Hend); apply (bool_decide_unpack _); vm_compute; exact I|]); by apply elem_of_nil in Hc.
Qed.

Lemma demo_log_streams : Forall (@stream_of demo_log_wire demo_baselines 5 demo_log) demo_log_reads.
Proof.
  repeat (apply Forall_cons_2 || apply Forall_nil_2); (split; [vm_compute; discriminate|]);
    (split; [repeat (apply Forall_cons_2 || apply Forall_nil_2); ((left; reflexivity) || (right; reflexivity))|]).
  - exists (drop 1 demo_log). vm_compute. reflexivity.
  - exists []. vm_compute. reflexivity.
Qed.

