(* ===== verification/Bootstrap.v ===== *)
(** * Creating the slot: internal/cdc/bootstrap.go, and stream.go's [read]

    [bootstrap] creates the replication slot together with the first scope's
    snapshot and hands its stream to the next [read]; a failure after the slot
    exists drops the slot again. What the call owns (its connections, the slot
    it created, the stream it handed over) is its state, so that the deferred
    cleanups are part of the model. *)

From S2P Require Import Prelude Float64 Errors CdcTypes Visibility Events Config Relation Catalog SnapshotRead.
From S2P Require Import Decoder Hub Reader.
Local Open Scope string_scope.
Local Open Scope list_scope.
Local Open Scope Z_scope.

(** ** State and answers *)

(** What exists after a call: the reader's baselines, the rows' sink, whether
    the call's replication and management connections are open, the slot it
    created, and the stream left for [read] with the position it starts at. *)
Record boot (K : Type) : Type := mkBoot {
  bo_shapes : shapes;
  bo_sink : option K;
  bo_stream : bool;
  bo_management : bool;
  bo_created : bool;
  bo_dropped : bool;
  bo_bootstrap : option Z
}.
Arguments mkBoot {K}.
Arguments bo_shapes {K}.
Arguments bo_sink {K}.
Arguments bo_stream {K}.
Arguments bo_management {K}.
Arguments bo_created {K}.
Arguments bo_dropped {K}.
Arguments bo_bootstrap {K}.

(** [pglogrepl.CreateReplicationSlotResult]. *)
Record createdSlot : Type := mkCreated { cs_consistentPoint : string; cs_snapshotName : string }.

Record bootstrap_answers : Type := mkBootstrapAnswers {
  bq_connect : option error;
  bq_connectCtxErr : option error;
  bq_management : option error;
  bq_managementCtxErr : option error;
  bq_publication : row_answer (bool * bool * bool * bool);
  bq_spec : spec_answers;
  bq_slot : row_answer slotState;
  bq_create : result error createdSlot;
  bq_read : read_answers;
  bq_start : option error;
  bq_cleanupConnect : option error;
  bq_drop : option error
}.

(** ** Operations *)

(** [connectReplication], the same rule as for a management connection. *)
Definition connectReplication (connect : option error) (ctxErr : option error) : result error unit :=
  connectManagementWithTimeout connect ctxErr.

Definition startReplication (start : option error) : result error unit := exec start.

Definition createBootstrapSlot (q : bootstrap_answers) : result error createdSlot :=
  let! found := lookupSlot (bq_slot q) in
  match found with
  | Some _ => Err (ESentinel ErrBootstrapSlotExists)
  | None =>
      match bq_create q with
      | Ok slot => Ok slot
      | Err e => if isDuplicateObject e then Err (ESentinel ErrBootstrapSlotExists)
                 else Err (classifyPostgresError e)
      end
  end.

(** [dropSlot]: what dropping answers; a slot that is already gone is fine. *)
Definition dropSlot (q : bootstrap_answers) : result error unit :=
  match bq_cleanupConnect q with
  | Some e => Err (classifyConnectionError e)
  | None =>
      match bq_drop q with
      | None => Ok tt
      | Some e =>
          match as_pg_error e with
          | Some (sqlState, _) => if decide (sqlState = "42704") then Ok tt else Err (classifyPostgresError e)
          | None => Err (classifyPostgresError e)
          end
      end
  end.

Section Bootstrap.
Context {K : Type} `{RowSink K} `{PgIdentifier} `{LsnText}.

(** From the created slot to the started stream, before the deferred cleanup;
    [None] is out of fuel. *)
Definition bootstrap_read (fuel : nat) (cfg : ReaderConfig) (spec : ProjectionSpec) (scope : string) (slot : createdSlot)
    (q : bootstrap_answers) (k : K) : K * option (result error (Z * visibility)) :=
  match parse_lsn (cs_consistentPoint slot) with
  | None => (k, Some (Err (EWrap (ESentinel ErrPostgresServer))))
  | Some cursor =>
      match readSnapshot fuel (rd_snapshotBatchRows cfg) (cs_snapshotName slot) spec scope (bq_read q) k with
      | (k, None) => (k, None)
      | (k, Some read) =>
          (k, Some (let! v := read in let! _ := startReplication (bq_start q) in Ok (cursor, v)))
      end
  end.

(** The deferred cleanup of a failed call with a created slot: [dropSlot]
    closes the stream, and a failing drop is reported with the error. *)
Definition bootstrap_cleanup (b : boot K) (q : bootstrap_answers) (err : error) : boot K * error :=
  match dropSlot q with
  | Ok _ => (mkBoot (bo_shapes b) (bo_sink b) false (bo_management b) (bo_created b) true (bo_bootstrap b), err)
  | Err _ => (mkBoot (bo_shapes b) (bo_sink b) false (bo_management b) (bo_created b) false (bo_bootstrap b),
              EWrap err)
  end.

(** The deferred closes, when the stream was not handed over. *)
Definition close_all (b : boot K) : boot K :=
  mkBoot (bo_shapes b) (bo_sink b) false false (bo_created b) (bo_dropped b) (bo_bootstrap b).

(** [Reader.Bootstrap]. [checkRetentionBudget] only logs, and is left out. *)
Definition bootstrap (fuel : nat) (cfg : ReaderConfig) (s : shapes) (spec : ProjectionSpec) (scope : string)
    (sink : option K) (q : bootstrap_answers) : boot K * option (result error Snapshot) :=
  let b0 := mkBoot s sink false false false false None in
  match sink with
  | None => (b0, Some (Err (ESentinel ErrSnapshotSinkRequired)))
  | Some k =>
      let connected :=
        let! _ := validateSourceProjectionSpec cfg spec in
        let! _ := connectReplication (bq_connect q) (bq_connectCtxErr q) in
        let! _ := connectManagementWithTimeout (bq_management q) (bq_managementCtxErr q) in
        let! _ := validatePublication (bq_publication q) in
        validateProjectionSpec s spec (bq_spec q) in
      match connected with
      | Err e => (close_all b0, Some (Err e))
      | Ok s =>
          match createBootstrapSlot q with
          | Err e => (close_all (mkBoot s sink true true false false None), Some (Err e))
          | Ok slot =>
              let '(k, res) := bootstrap_read fuel cfg spec scope slot q k in
              let b := mkBoot s (Some k) true true true false None in
              match res with
              | None => (b, None)
              | Some (Err e) =>
                  let '(b, e) := bootstrap_cleanup b q e in (close_all b, Some (Err e))
              | Some (Ok (cursor, v)) =>
                  (mkBoot s (Some k) true false true false (Some cursor),
                   Some (Ok (newSnapshot (sp_sourceID spec) cursor v)))
              end
          end
      end
  end.

(** [takeBootstrapStream]: the stream is handed over once. *)
Definition takeBootstrapStream (b : boot K) : boot K * option Z :=
  match bo_bootstrap b with
  | None => (b, None)
  | Some cursor =>
      (mkBoot (bo_shapes b) (bo_sink b) (bo_stream b) (bo_management b) (bo_created b) (bo_dropped b) None,
       Some cursor)
  end.

End Bootstrap.

(** ** Starting a connection: [read] *)

Record start_answers : Type := mkStartAnswers {
  st_connect : option error;
  st_ctxErr : option error;
  st_slot : slot_answers;
  st_start : option error
}.

Definition read_start `{LsnText} (q : start_answers) : result error Z :=
  let! _ := connectReplication (st_connect q) (st_ctxErr q) in
  let! startLSN := requireSlot (st_slot q) in
  let! _ := startReplication (st_start q) in
  Ok startLSN.

(** [Reader.read]: the stream a Bootstrap left, or a new one from the slot;
    then [receive] on the inputs that arrive. *)
Definition read {K S} `{LsnText} `{TransactionSink S} `{PgLogRepl} (cfg : ReaderConfig) (b : boot K) (s : rstate S)
    (q : start_answers) (inputs : list input) : boot K * result error Z * (rstate S * option error) :=
  let '(b, stream) := takeBootstrapStream b in
  let start := match stream with Some cursor => Ok cursor | None => read_start q end in
  (b, start, read_once cfg s start inputs).

(** ** Properties *)

Section Properties.
Context {K : Type} `{RowSink K} `{PgIdentifier} `{LsnText}.

(** C21 (error): a call to Bootstrap never drops a slot it did not create. When it fails
    its connections are closed, no stream is handed over, and the slot it
    created is dropped, or dropping it failed and the error says so: that slot
    alone can be left behind. When it succeeds the slot exists, and the stream it
    hands over, once, to the next read starts exactly at the snapshot's cursor. *)
Theorem Bootstrap_owns_its_slot fuel cfg s spec scope sink q b res
    (Hb : bootstrap fuel cfg s spec scope sink q = (b, Some res)) :
  bo_management b = false ∧ (bo_dropped b = true → bo_created b = true) ∧
  match res with
  | Ok snapshot =>
      bo_created b = true ∧ bo_dropped b = false ∧ bo_stream b = true ∧
      takeBootstrapStream b = (mkBoot (bo_shapes b) (bo_sink b) true false true false None,
                               Some (lsn (sn_cursor snapshot))) ∧
      sourceID (sn_cursor snapshot) = rd_sourceID cfg
  | Err e =>
      bo_stream b = false ∧ bo_bootstrap b = None ∧
      (bo_created b = true → bo_dropped b = true ∨ ∃ cause d, e = EWrap cause ∧ dropSlot q = Err d)
  end.
Proof.
  unfold bootstrap in Hb. destruct sink as [k|]; [|by injection Hb as <- <-].
  destruct (validateSourceProjectionSpec cfg spec) as [[]|] eqn:Hsrc; simpl in Hb; [|by injection Hb as <- <-].
  destruct (connectReplication _ _); simpl in Hb; [|by injection Hb as <- <-].
  destruct (connectManagementWithTimeout _ _); simpl in Hb; [|by injection Hb as <- <-].
  destruct (validatePublication _); simpl in Hb; [|by injection Hb as <- <-].
  destruct (validateProjectionSpec s spec _) as [s1|]; [|by injection Hb as <- <-].
  destruct (createBootstrapSlot q) as [slot|]; [|by injection Hb as <- <-].
  destruct (bootstrap_read fuel cfg spec scope slot q k) as [k' [[[cursor v]|e]|]]; [| |done].
  - injection Hb as <- <-. simpl. split_and!; try done.
    unfold validateSourceProjectionSpec in Hsrc. destruct (validateProjectionSpecConfig spec); [|done].
    simpl in Hsrc. by destruct (decide (sp_sourceID spec ≠ rd_sourceID cfg)) as [|?%dec_stable].
  - unfold bootstrap_cleanup in Hb. destruct (dropSlot q) as [|d] eqn:Hd; injection Hb as <- <-; simpl.
    + split_and!; try done. by left.
    + split_and!; try done. intros _. right. by exists e, d.
Qed.

End Properties.

(** ** A concrete bootstrap: replication does not start, and the slot goes *)

Definition demo_bootstrap_answers (start : option error) : bootstrap_answers :=
  mkBootstrapAnswers None None None None (RowOk (true, true, true, false)) demo_spec_answers RowNone
    (Ok (mkCreated "0x20" "00000003-0000001B-1"))
    (mkRead None None (RowOk "5:9:6") demo_sql None)
    start None None.

Definition demo_bootstrap (start : option error) : boot (list (list anyRow)) * option (result error Snapshot) :=
  @bootstrap _ demo_row_sink demo_identifier hex_lsn_text 4 demo_reader new_shapes demo_spec "a" (Some [])
    (demo_bootstrap_answers start).

Lemma Bootstrap_owns_its_slot_witness :
  let failed := demo_bootstrap (Some (EOther "connection reset")) in
  let made := demo_bootstrap None in
  made.2 = Some (Ok (newSnapshot "db" 32 (mkVisibility 5 9 {[6]}))) ∧
  (takeBootstrapStream made.1).2 = Some 32 ∧
  failed.2 = Some (Err (EOther "connection reset")) ∧
  bo_stream failed.1 = false ∧ bo_dropped failed.1 = true.
Proof.
  cbv zeta.
  assert ((demo_bootstrap None).2 = Some (Ok (newSnapshot "db" 32 (mkVisibility 5 9 {[6]})))) as Em
    by (vm_compute; reflexivity).
  assert ((demo_bootstrap (Some (EOther "connection reset"))).2 = Some (Err (EOther "connection reset"))) as Ef
    by (vm_compute; reflexivity).
  assert (bo_created (demo_bootstrap (Some (EOther "connection reset"))).1 = true) as Ec
    by (vm_compute; reflexivity).
  destruct (demo_bootstrap None) as [b r] eqn:Eb. simpl in Em. subst r.
  destruct (demo_bootstrap (Some _)) as [b' r'] eqn:Eb'. simpl in Ef, Ec. subst r'. simpl.
  destruct (@Bootstrap_owns_its_slot _ demo_row_sink demo_identifier hex_lsn_text _ _ _ _ _ _ _ _ _ Eb)
    as (_ & _ & _ & _ & _ & Ht & _).
  destruct (@Bootstrap_owns_its_slot _ demo_row_sink demo_identifier hex_lsn_text _ _ _ _ _ _ _ _ _ Eb')
    as (_ & _ & Hs & _ & Hd).
  split_and!; [done|by rewrite Ht|done|done|].
  destruct (Hd Ec) as [|(cause & d & [=] & _)]; done.
Defined.
