(* ===== verification/Connection.v ===== *)
(** * PostgreSQL connections: internal/cdc/cdc.go and connections.go

    How a database URL becomes a replication connection and a management
    connection, what closing does, and how a failure to connect reaches [Run].
    pgconn and pgx are parameters: what they make of a URL, what connecting with
    a configuration answers, and what closing answers. *)

From S2P Require Import Prelude Float64 Errors CdcTypes Visibility Config Catalog Relation Decoder Events SnapshotRead Hub Reader ReaderProps Bootstrap.
Local Open Scope string_scope.
Local Open Scope list_scope.
Local Open Scope Z_scope.

(** A parsed configuration: the runtime parameters, of which a nil map is None,
    and everything else. *)
Record pgConfig (R : Type) : Type := mkPgConfig {
  pc_RuntimeParams : option (gmap string string);
  pc_rest : R
}.
Arguments mkPgConfig {R}.
Arguments pc_RuntimeParams {R}.
Arguments pc_rest {R}.

(** [pgconn] and [pgx]: a replication connection is a [C], a management
    connection an [M]. A parser's error may quote the URL: only that there is one
    is used. *)
Class Postgres (R C M : Type) : Type := {
  pgconn_ParseConfig : string → option (pgConfig R);
  pgconn_ConnectConfig : pgConfig R → result error C;
  pgconn_Close : C → option error;
  pgx_ParseConfig : string → option (pgConfig R);
  pgx_ConnectConfig : pgConfig R → result error M;
  pgx_Close : M → option error
}.

Section Connection.
Context {R C M : Type} `{Postgres R C M}.

(** [CDC]: its connection, until it is closed. *)
Record CDC : Type := mkCDC { cdc_conn : option C }.

Definition with_replication (config : pgConfig R) : pgConfig R :=
  mkPgConfig (Some (<["replication" := "database"]> (default ∅ (pc_RuntimeParams config)))) (pc_rest config).

Definition Connect (databaseURL : string) : result error CDC :=
  if decide (databaseURL = "") then Err (ESentinel ErrDatabaseURLRequired)
  else
    match pgconn_ParseConfig databaseURL with
    | None => Err (ESentinel ErrInvalidDatabaseURL)
    | Some config =>
        match pgconn_ConnectConfig (with_replication config) with
        | Err e => Err (EWrap e)
        | Ok conn => Ok (mkCDC (Some conn))
        end
    end.

(** [Conn], of a pointer that may be nil. *)
Definition Conn (cdc : option CDC) : option C :=
  match cdc with
  | None => None
  | Some cdc => cdc_conn cdc
  end.

(** [Close]: the pointer's value after it, the connection it closed, and the
    error. *)
Definition Close (cdc : option CDC) : option CDC * option C * option error :=
  match cdc with
  | Some (mkCDC (Some conn)) => (Some (mkCDC None), Some conn, pgconn_Close conn)
  | _ => (cdc, None, None)
  end.

(** [connectManagement]. Deleting from a nil map does nothing. *)
Definition without_replication (config : pgConfig R) : pgConfig R :=
  mkPgConfig (base.delete "replication" <$> pc_RuntimeParams config) (pc_rest config).

Definition connectManagement (databaseURL : string) : result error M :=
  match pgx_ParseConfig databaseURL with
  | None => Err (ESentinel ErrInvalidDatabaseURL)
  | Some config =>
      match pgx_ConnectConfig (without_replication config) with
      | Err e => Err (EWrap e)
      | Ok conn => Ok conn
      end
  end.

(** [closeReplicationConnection] and [closeManagementConnection] drop the
    error. *)
Definition closeReplicationConnection (cdc : option CDC) : option CDC := fst (fst (Close cdc)).

Definition closeManagementConnection (management : M) : unit := let _ := pgx_Close management in tt.

(** How connecting failed, for the reader's wrappers. *)
Definition connect_error {A} (r : result error A) : option error :=
  match r with
  | Err e => Some e
  | Ok _ => None
  end.

(** ** Lemmas *)

(** The configurations differ in the replication parameter alone. *)
Lemma replication_params config :
  default ∅ (pc_RuntimeParams (with_replication config)) !! "replication" = Some "database" ∧
  default ∅ (pc_RuntimeParams (without_replication config)) !! "replication" = None ∧
  (∀ key, key ≠ "replication" →
     default ∅ (pc_RuntimeParams (with_replication config)) !! key =
     default ∅ (pc_RuntimeParams (without_replication config)) !! key) ∧
  pc_rest (with_replication config) = pc_rest config ∧ pc_rest (without_replication config) = pc_rest config.
Proof.
  destruct config as [params rest]. unfold with_replication, without_replication. simpl.
  split_and!; [by rewrite lookup_insert_eq| | |done..].
  - destruct params as [params|]; simpl; [by rewrite lookup_delete_eq|by rewrite lookup_empty].
  - intros key Hk. rewrite lookup_insert_ne by done. destruct params as [params|]; simpl; [|done].
    by rewrite lookup_delete_ne.
Qed.

(** Closing twice closes once. *)
Lemma Close_idempotent cdc :
  let '(cdc', closed, err) := Close cdc in
  closed = Conn cdc ∧ Conn cdc' = None ∧ Close cdc' = (cdc', None, None) ∧ (Conn cdc = None → err = None).
Proof. by destruct cdc as [[[conn|]]|]. Qed.

(** A failure to connect is not retried when it is the URL's, and its error does
    not depend on what the parser said. *)
Lemma Connect_bad_url url :
  pgconn_ParseConfig url = None →
  ∃ s, connect_error (Connect url) = Some (ESentinel s) ∧
    s = (if decide (url = "") then ErrDatabaseURLRequired else ErrInvalidDatabaseURL) ∧
    connectReplication (connect_error (Connect url)) None = Err (ESentinel s).
Proof.
  intros Hp. unfold Connect. destruct (decide (url = "")); [by eexists|]. rewrite Hp. by eexists.
Qed.

(** [read]'s answers when its connection is to this URL. *)
Definition dialled (databaseURL : string) (ctxErr : option error) (slot : slot_answers) (start : option error)
    : start_answers :=
  mkStartAnswers (connect_error (Connect databaseURL)) ctxErr slot start.

(** An error of the driver: none of this package's sentinels. *)
Definition foreign (e : error) : Prop :=
  errors_is e ErrInvalidDatabaseURL = false ∧ errors_is e ErrDatabaseURLRequired = false ∧
  errors_is e ErrInsufficientPrivileges = false.

(** PostgreSQL's answer that the role may not do this. *)
Definition denied (e : error) : Prop :=
  ∃ message, as_pg_error e = Some ("42501", message) ∧
    (contains_string "requested wal segment" (to_lower message) && contains_string "removed" (to_lower message)) = false.

Lemma classified_denied e :
  foreign e → (errors_is (classifyPostgresError e) ErrInsufficientPrivileges = true ↔ denied e) ∧
    (denied e → classifyPostgresError e = terminalError ErrInsufficientPrivileges "42501").
Proof.
  intros (_ & _ & Hf). unfold classifyPostgresError, denied. destruct (as_pg_error e) as [[code message]|] eqn:He.
  2:{ rewrite Hf. split; [split; [done|]|]; by intros (? & ? & _). }
  split; [split|].
  - unfold classifySQLState. destruct (_ && _) eqn:Hw; [by intros [=]%bool_decide_eq_true|].
    intros Hc. exists message. split; [|done]. repeat (destruct (decide _); [by subst|]). done.
  - intros (m & [= -> ->] & Hw). unfold classifySQLState. by rewrite Hw.
  - intros (m & [= -> ->] & Hw). unfold classifySQLState. by rewrite Hw.
Qed.

End Connection.
Arguments CDC : clear implicits.

Section Dialling.
Context {R C M : Type} `{Postgres R C M} {S : Type} `{TransactionSink S} `{PgLogRepl} `{LsnText}.

(** C22 (error): how a failure to connect reaches [Run]. The context's end is
    reported as itself. A URL that does not parse ends [Run] at once, with its own
    error and nothing of the parser's text, and no retry; having none is an
    error of its own. A server
    that refuses the role ends it too; any other failure of the driver is
    ErrSourceUnavailable, without the driver's text, and is retried. *)
Theorem connection_failures url ctxErr slot start :
  let r := read_start (dialled (R := R) (C := C) (M := M) url ctxErr slot start) in
  (∀ e c, connect_error (Connect url) = Some e → ctxErr = Some c → r = Err c) ∧
  (pgconn_ParseConfig url = None → ctxErr = None →
     ∃ s, s ∈ [ErrDatabaseURLRequired; ErrInvalidDatabaseURL] ∧ r = Err (ESentinel s) ∧
       (url ≠ "" → s = ErrInvalidDatabaseURL ∧
          ∀ (cfg : ReaderConfig) cause attempts (k : rstate S) a rest,
            at_start a = r → at_ctxDone a = false → at_streamDone a = false →
            Run cfg cause attempts k (a :: rest) = (k, (StateFailed, 0, RunReturned (Some (ESentinel s)))))) ∧
  (∀ config e, url ≠ "" → pgconn_ParseConfig url = Some config →
     pgconn_ConnectConfig (with_replication config) = Err e → foreign e → ctxErr = None →
     (denied e → r = Err (terminalError ErrInsufficientPrivileges "42501")) ∧
     (¬ denied e → r = Err (EWrap (ESentinel ErrSourceUnavailable)) ∧
        isRetryable (EWrap (ESentinel ErrSourceUnavailable)) = true)).
Proof.
  cbv zeta. unfold read_start, dialled, connectReplication. cbn [st_connect st_ctxErr]. split_and!.
  - by intros e c -> ->.
  - intros Hp ->. destruct (Connect_bad_url (R := R) (C := C) (M := M) url Hp) as (s & He & -> & Hr).
    unfold connectReplication in Hr. rewrite Hr. eexists. split; [|split; [reflexivity|]].
    { destruct (decide _); set_solver. }
    intros Hu. rewrite decide_False by done. split; [done|]. intros cfg cause attempts k a rest Hs Hc Hd.
    cbn [Run]. rewrite Hs. cbn [read_once]. by rewrite Hc, Hd.
  - intros config e Hu Hp Hc Hf ->. unfold Connect. rewrite decide_False by done. rewrite Hp, Hc.
    assert (foreign (EWrap e)) as Hf' by done. cbn [connect_error connectManagementWithTimeout].
    destruct (classified_denied (EWrap e) Hf') as [Hiff Heq]. unfold classifyConnectionError.
    destruct Hf' as (-> & -> & _). cbn [orb]. cbv zeta. change (denied (EWrap e)) with (denied e) in *.
    destruct (errors_is (classifyPostgresError (EWrap e)) ErrInsufficientPrivileges); split; intros Hd.
    + by rewrite Heq.
    + exfalso. tauto.
    + exfalso. apply Hiff in Hd. done.
    + done.
Qed.

End Dialling.

(** A server that is down, and one that refuses the role. *)
Definition demo_postgres (answer : error) : Postgres unit unit unit := {|
  pgconn_ParseConfig url := if decide (url = "postgres://db") then Some (mkPgConfig None tt) else None;
  pgconn_ConnectConfig _ := Err answer;
  pgconn_Close _ := None;
  pgx_ParseConfig _ := None;
  pgx_ConnectConfig _ := Err answer;
  pgx_Close _ := None
|}.

Definition demo_slot_answers : slot_answers := mkSlotAnswers None None RowNone RowNone.

Lemma connection_failures_witness :
  let attempt r := mkAttempt r [] false false None false false in
  let read url answer := @read_start hex_lsn_text
    (@dialled _ _ _ (demo_postgres answer) url None demo_slot_answers None) in
  (@Run _ demo_sink demo_wire demo_config (EOther "budget") 0 (new_reader demo_config [])
     [attempt (read "postgres//db" (EOther "unused")); attempt (Ok 1)]).2 =
    (StateFailed, 0, RunReturned (Some (ESentinel ErrInvalidDatabaseURL))) ∧
  read "postgres://db" (EPg "42501" "permission denied") = Err (terminalError ErrInsufficientPrivileges "42501") ∧
  read "postgres://db" (EOther "connection refused") = Err (EWrap (ESentinel ErrSourceUnavailable)).
Proof.
  cbv zeta. split_and!.
  - destruct (@connection_failures _ _ _ (demo_postgres (EOther "unused")) _ demo_sink demo_wire hex_lsn_text
      "postgres//db" None demo_slot_answers None) as (_ & Hbad & _).
    destruct Hbad as (s & _ & _ & Hs); [reflexivity|reflexivity|]. destruct Hs as [-> Hrun]; [discriminate|].
    rewrite Hrun; reflexivity.
  - destruct (@connection_failures _ _ _ (demo_postgres (EPg "42501" "permission denied")) _ demo_sink demo_wire
      hex_lsn_text "postgres://db" None demo_slot_answers None) as (_ & _ & Hd).
    apply (Hd (mkPgConfig None tt) (EPg "42501" "permission denied")); try reflexivity; [discriminate| |].
    + split_and!; reflexivity.
    + exists "permission denied". split; reflexivity.
  - destruct (@connection_failures _ _ _ (demo_postgres (EOther "connection refused")) _ demo_sink demo_wire
      hex_lsn_text "postgres://db" None demo_slot_answers None) as (_ & _ & Hd).
    apply (Hd (mkPgConfig None tt) (EOther "connection refused")); try reflexivity; [discriminate| |].
    + split_and!; reflexivity.
    + intros (m & ? & _). discriminate.
Defined.
