(* ===== verification/Source.v ===== *)
(** * The source's lifecycle: internal/cdc/source.go

    A [Source] owns one slot and the one Run loop that streams it. Its methods
    run on any number of goroutines, and it starts two of its own: one that
    waits for Start's context, and Run. Each goroutine is a program counter;
    a step takes it from one point where it can block to the next, [mu] is
    explicit, and the answers of the Reader's primitives (the fields
    [slotExists], [bootstrap], [snapshot], [run]) come with the step. *)

From S2P Require Import Prelude Errors CdcTypes Visibility.
Local Open Scope string_scope.
Local Open Scope list_scope.
Local Open Scope Z_scope.

(** ** State *)

(** Start's goroutine: waiting for the context, for [mu], returned. *)
Inductive waiter : Type := WaitCtx | WaitLock | WaitDone.

(** Run's goroutine: in [run], waiting for [mu] with what it returned,
    returned. *)
Inductive runner : Type :=
| RunActive
| RunLock (err : option error)
| RunDone (err : option error).

(** The fields of [Source], with how often [done] was closed, whether Start's
    context has ended, and the goroutines it started. *)
Record Source : Type := mkSource {
  src_started : bool;
  src_streaming : bool;
  src_stopped : bool;
  src_once : bool;
  src_closes : nat;
  src_err : option error;
  src_ctxDone : bool;
  src_waiters : list waiter;
  src_runs : list runner
}.

Definition NewSource : Source := mkSource false false false false 0 None false [] [].

(** [stopLocked], through [stopOnce]. *)
Definition stopLocked (s : Source) (err : option error) : Source :=
  if src_once s then s
  else mkSource (src_started s) (src_streaming s) true true (S (src_closes s)) err (src_ctxDone s)
         (src_waiters s) (src_runs s).

(** [startRunLocked]. *)
Definition startRunLocked (s : Source) : Source :=
  if src_streaming s then s
  else mkSource (src_started s) true (src_stopped s) (src_once s) (src_closes s) (src_err s) (src_ctxDone s)
         (src_waiters s) (src_runs s ++ [RunActive]).

Definition readyLocked (s : Source) : result error unit :=
  if negb (src_started s) then Err (ESentinel ErrSourceNotStarted)
  else if src_stopped s then Err (ESentinel ErrSourceStopped)
  else Ok tt.

(** [Start], with what [slotExists] answers. *)
Definition Start (s : Source) (exists_ : result error bool) : Source * result error unit :=
  if src_started s then (s, Err (ESentinel ErrSourceAlreadyStarted))
  else match exists_ with
       | Err e => (s, Err e)
       | Ok found =>
           let s := mkSource true (src_streaming s) (src_stopped s) (src_once s) (src_closes s) (src_err s)
                      (src_ctxDone s) (src_waiters s) (src_runs s) in
           let s := if (found : bool) then startRunLocked s else s in
           (mkSource (src_started s) (src_streaming s) (src_stopped s) (src_once s) (src_closes s) (src_err s)
              (src_ctxDone s) (src_waiters s ++ [WaitCtx]) (src_runs s), Ok tt)
       end.

(** The end of Start's context. *)
Definition cancel (s : Source) : Source :=
  mkSource (src_started s) (src_streaming s) (src_stopped s) (src_once s) (src_closes s) (src_err s) true
    (src_waiters s) (src_runs s).

(** [Err]: nil until [done] is closed. *)
Definition source_Err (s : Source) : option error :=
  if decide (0 < src_closes s)%nat then src_err s else None.

Definition set_waiter (s : Source) (i : nat) (w : waiter) : Source :=
  mkSource (src_started s) (src_streaming s) (src_stopped s) (src_once s) (src_closes s) (src_err s) (src_ctxDone s)
    (<[i := w]> (src_waiters s)) (src_runs s).

Definition set_runner (s : Source) (i : nat) (r : runner) : Source :=
  mkSource (src_started s) (src_streaming s) (src_stopped s) (src_once s) (src_closes s) (src_err s) (src_ctxDone s)
    (src_waiters s) (<[i := r]> (src_runs s)).

(** ** Calls and the lock *)

(** A call of [Start] or [Snapshot]: waiting for [mu]; in [slotExists] and in
    [bootstrap], which hold it; in [snapshot], which holds it only after a
    bootstrap found the slot; and returned. *)
Inductive call : Type :=
| StartLock
| StartProbing
| StartReturned (r : result error unit)
| SnapshotLock
| SnapshotBooting
| SnapshotReading (locked : bool)
| SnapshotReturned (r : result error Snapshot).

Inductive thread : Type := TCall (n : nat) | TWaiter (i : nat) | TRunner (i : nat).

Record source_sys : Type := mkSourceSys {
  ss_src : Source;
  ss_mu : option nat;
  ss_calls : gmap nat call
}.

Definition new_source_sys : source_sys := mkSourceSys NewSource None ∅.

(** ** Steps *)

Inductive label : Type :=
| LStart (n : nat)
| LSnapshot (n : nat)
| LCancel
| LLock (t : thread)
| LExists (n : nat) (exists_ : result error bool)
| LBoot (n : nat) (boot : result error Snapshot)
| LRead (n : nat) (answer : result error Snapshot)
| LCtx (i : nat)
| LRunReturns (i : nat) (err : option error).

(** What a goroutine does once it has [mu], up to where it can block or
    returns: the lock is kept only by a call that goes on to a primitive. *)
Definition locked (s : source_sys) (t : thread) : option source_sys :=
  let src := ss_src s in
  match t with
  | TCall n =>
      match ss_calls s !! n with
      | Some StartLock =>
          Some (if src_started src
                then mkSourceSys src None (<[n := StartReturned (Err (ESentinel ErrSourceAlreadyStarted))]> (ss_calls s))
                else mkSourceSys src (Some n) (<[n := StartProbing]> (ss_calls s)))
      | Some SnapshotLock =>
          Some match readyLocked src with
               | Err e => mkSourceSys src None (<[n := SnapshotReturned (Err e)]> (ss_calls s))
               | Ok _ =>
                   if src_streaming src
                   then mkSourceSys src None (<[n := SnapshotReading false]> (ss_calls s))
                   else mkSourceSys src (Some n) (<[n := SnapshotBooting]> (ss_calls s))
               end
      | _ => None
      end
  | TWaiter i =>
      match src_waiters src !! i with
      | Some WaitLock =>
          let src := set_waiter src i WaitDone in
          Some (mkSourceSys (if src_streaming src then src else stopLocked src None) None (ss_calls s))
      | _ => None
      end
  | TRunner i =>
      match src_runs src !! i with
      | Some (RunLock err) =>
          Some (mkSourceSys (stopLocked (set_runner src i (RunDone err)) err) None (ss_calls s))
      | _ => None
      end
  end.

(** [None] is a step that cannot happen. *)
Definition source_step (s : source_sys) (l : label) : option source_sys :=
  let src := ss_src s in
  match l with
  | LStart n =>
      match ss_calls s !! n with
      | None => Some (mkSourceSys src (ss_mu s) (<[n := StartLock]> (ss_calls s)))
      | Some _ => None
      end
  | LSnapshot n =>
      match ss_calls s !! n with
      | None => Some (mkSourceSys src (ss_mu s) (<[n := SnapshotLock]> (ss_calls s)))
      | Some _ => None
      end
  | LCancel => Some (mkSourceSys (cancel src) (ss_mu s) (ss_calls s))
  | LLock t => match ss_mu s with None => locked s t | Some _ => None end
  | LExists n exists_ =>
      match ss_calls s !! n with
      | Some StartProbing =>
          let '(src, r) := Start src exists_ in
          Some (mkSourceSys src None (<[n := StartReturned r]> (ss_calls s)))
      | _ => None
      end
  | LBoot n boot =>
      match ss_calls s !! n with
      | Some SnapshotBooting =>
          Some match boot with
               | Ok snapshot =>
                   mkSourceSys (startRunLocked src) None (<[n := SnapshotReturned (Ok snapshot)]> (ss_calls s))
               | Err e =>
                   if errors_is e ErrBootstrapSlotExists
                   then mkSourceSys (startRunLocked src) (ss_mu s) (<[n := SnapshotReading true]> (ss_calls s))
                   else mkSourceSys src None (<[n := SnapshotReturned (Err e)]> (ss_calls s))
               end
      | _ => None
      end
  | LRead n answer =>
      match ss_calls s !! n with
      | Some (SnapshotReading held) =>
          Some (mkSourceSys src (if (held : bool) then None else ss_mu s)
                  (<[n := SnapshotReturned answer]> (ss_calls s)))
      | _ => None
      end
  | LCtx i =>
      match src_waiters src !! i with
      | Some WaitCtx =>
          if src_ctxDone src then Some (mkSourceSys (set_waiter src i WaitLock) (ss_mu s) (ss_calls s)) else None
      | _ => None
      end
  | LRunReturns i err =>
      match src_runs src !! i with
      | Some RunActive => Some (mkSourceSys (set_runner src i (RunLock err)) (ss_mu s) (ss_calls s))
      | _ => None
      end
  end.

Fixpoint source_run (s : source_sys) (ls : list label) : option source_sys :=
  match ls with
  | [] => Some s
  | l :: rest => s' ← source_step s l; source_run s' rest
  end.

Definition source_reachable (s : source_sys) : Prop := ∃ ls, source_run new_source_sys ls = Some s.

(** ** Invariant *)

Definition run_done (r : runner) : bool := match r with RunDone _ => true | _ => false end.

(** A waiter moves on only when the context has ended. *)
Definition waiter_ok (ctx : bool) (w : waiter) : Prop := w = WaitCtx ∨ ctx = true.

(** The life of a source: new; waiting for its first scope; cancelled while it
    waited; streaming; ended with what Run returned. *)
Inductive phase : Source → Prop :=
| PhaseNew ctx : phase (mkSource false false false false 0 None ctx [] [])
| PhaseWaiting ctx w : waiter_ok ctx w → w ≠ WaitDone → phase (mkSource true false false false 0 None ctx [w] [])
| PhaseCancelled : phase (mkSource true false true true 1 None true [WaitDone] [])
| PhaseStreaming ctx w r :
    waiter_ok ctx w → run_done r = false → phase (mkSource true true false false 0 None ctx [w] [r])
| PhaseEnded ctx w err : waiter_ok ctx w → phase (mkSource true true true true 1 err ctx [w] [RunDone err]).

(** Which calls hold [mu] where they block, and what they found under it. *)
Definition holds (c : call) : bool :=
  match c with StartProbing | SnapshotBooting | SnapshotReading true => true | _ => false end.

Definition call_ok (src : Source) (c : call) : Prop :=
  match c with
  | StartProbing => src_started src = false
  | SnapshotBooting => src_started src = true ∧ src_streaming src = false ∧ src_stopped src = false
  | SnapshotReading _ | SnapshotReturned (Ok _) => src_streaming src = true
  | _ => True
  end.

Record source_ok (s : source_sys) : Prop := {
  sk_phase : phase (ss_src s);
  sk_mu n : ss_mu s = Some n ↔ ∃ c, ss_calls s !! n = Some c ∧ holds c = true;
  sk_calls n c : ss_calls s !! n = Some c → call_ok (ss_src s) c
}.

Lemma new_source_ok : source_ok new_source_sys.
Proof. split; [apply PhaseNew|naive_solver|done]. Qed.

(** No two calls hold the lock. *)
Lemma holder_unique s n m c d :
  source_ok s → ss_calls s !! n = Some c → holds c = true → ss_calls s !! m = Some d → holds d = true → n = m.
Proof.
  intros Hok Hc Hh Hd Hg. assert (ss_mu s = Some n) as H1 by (apply (sk_mu _ Hok); eauto).
  assert (ss_mu s = Some m) as H2 by (apply (sk_mu _ Hok); eauto). congruence.
Qed.

(** A call that does not hold the lock survives every change under it. *)
Lemma call_ok_mono src src' c :
  (src_streaming src = true → src_streaming src' = true) → holds c = false → call_ok src c → call_ok src' c.
Proof. intros Hs. destruct c as [| |r| | |[]|[]]; simpl; auto; discriminate. Qed.

(** One call moves to [c] and keeps the lock exactly if [c] does; nobody else
    holds it. *)
Lemma moved_ok src src' mu mu' calls n c :
  source_ok (mkSourceSys src mu calls) → mu' = (if holds c then Some n else None) → phase src' →
  (src_streaming src = true → src_streaming src' = true) →
  (∀ m, mu = Some m → m = n) → call_ok src' c →
  source_ok (mkSourceSys src' mu' (<[n := c]> calls)).
Proof.
  intros Hok -> Hp Hs Hmu Hc. assert (∀ m d, m ≠ n → calls !! m = Some d → holds d = false) as Hfree.
  { intros m d Hne Hd. destruct (holds d) eqn:Hh; [|done]. destruct Hne. apply Hmu.
    apply (sk_mu _ Hok). simpl. eauto. }
  split; cbn [ss_src ss_mu ss_calls]; [done|intros m|intros m d].
  - destruct (decide (m = n)) as [->|Hne].
    + rewrite lookup_insert_eq. split; [|by intros (d & [= <-] & ->)]. destruct (holds c) eqn:Hh; [by exists c|done].
    + rewrite lookup_insert_ne by done. split; [destruct (holds c); congruence|].
      intros (d & Hd & Hh). by rewrite (Hfree m d) in Hh.
  - destruct (decide (m = n)) as [->|Hne]; [rewrite lookup_insert_eq; by intros [= <-]|].
    rewrite lookup_insert_ne by done. intros Hd. eapply call_ok_mono; [exact Hs|by eapply Hfree|].
    by apply (sk_calls _ Hok m d).
Qed.

(** A goroutine of the source takes the free lock, and gives it back. *)
Lemma unlocked_ok src src' calls :
  source_ok (mkSourceSys src None calls) → phase src' → (src_streaming src = true → src_streaming src' = true) →
  source_ok (mkSourceSys src' None calls).
Proof.
  intros Hok Hp Hs. split; cbn [ss_src ss_mu ss_calls]; [done|apply (sk_mu _ Hok)|intros n c Hc].
  eapply call_ok_mono; [exact Hs| |by apply (sk_calls _ Hok n c)]. destruct (holds c) eqn:Hh; [|done].
  pose proof (proj2 (sk_mu _ Hok n) (ex_intro _ c (conj Hc Hh))) as Hmu. done.
Qed.

(** What the source's own functions make of a phase. *)
Lemma startRunLocked_phase s :
  phase s → src_started s = true → src_stopped s = false → phase (startRunLocked s) ∧ src_streaming (startRunLocked s) = true.
Proof. intros [] ? ?; simplify_eq/=; split; try done; by constructor. Qed.

Lemma Start_phase s exists_ :
  phase s → src_started s = false → phase (Start s exists_).1 ∧ src_streaming s = false.
Proof.
  intros [] ?; simplify_eq/=. split; [|done]. destruct exists_ as [[]|]; by repeat constructor.
Qed.

Lemma waiter_phase s i :
  phase s → src_waiters s !! i = Some WaitLock →
  phase (if src_streaming s then set_waiter s i WaitDone else stopLocked (set_waiter s i WaitDone) None).
Proof.
  intros [] Hw; simplify_eq/=; apply list_lookup_singleton_Some in Hw as [-> Hw]; unfold set_waiter; simplify_eq/=.
  - destruct H as [| ->]; [done|]. constructor.
  - constructor; [|done]. right. by destruct H.
  - constructor. right. by destruct H.
Qed.

Lemma ctx_phase s i :
  phase s → src_waiters s !! i = Some WaitCtx → src_ctxDone s = true → phase (set_waiter s i WaitLock).
Proof.
  intros [] Hw Hc; simplify_eq/=; apply list_lookup_singleton_Some in Hw as [-> Hw]; unfold set_waiter; simplify_eq/=;
    constructor; by try right.
Qed.

Lemma runner_phase s i r :
  phase s → src_runs s !! i = Some r → run_done r = false →
  src_streaming s = true ∧ src_stopped s = false ∧ i = 0%nat ∧
  (∀ err, phase (set_runner s i (RunLock err)) ∧ phase (stopLocked (set_runner s i (RunDone err)) err)).
Proof.
  intros [] Hr Hd; simplify_eq/=; apply list_lookup_singleton_Some in Hr as [-> Hr]; simplify_eq/=.
  split_and!; [done..|]. intros err. by split; constructor.
Qed.

Lemma cancel_phase s : phase s → phase (cancel s).
Proof. intros []; constructor; done || by right. Qed.

Lemma readyLocked_ok s : readyLocked s = Ok tt → src_started s = true ∧ src_stopped s = false.
Proof. unfold readyLocked. by destruct (src_started s), (src_stopped s). Qed.

Lemma Ok_tt (r : result error unit) u : r = Ok u → r = Ok tt.
Proof. by destruct u. Qed.

Lemma stopLocked_streaming s err : src_streaming (stopLocked s err) = src_streaming s.
Proof. unfold stopLocked. by destruct (src_once s). Qed.

Lemma locked_ok src calls t s' :
  source_ok (mkSourceSys src None calls) → locked (mkSourceSys src None calls) t = Some s' → source_ok s'.
Proof.
  intros Hok Hl. pose proof (sk_phase _ Hok) as Hp. simpl in Hp.
  destruct t as [n|i|i]; simpl in Hl.
  - pose proof (λ src' mu' c, moved_ok src src' None mu' calls n c Hok) as Hmove.
    destruct (calls !! n) as [[]|] eqn:Hc; simplify_eq/=.
    + destruct (src_started src) eqn:Hs; by apply Hmove.
    + destruct (readyLocked src) as [u|e] eqn:Hr; [|by apply (Hmove src _ (SnapshotReturned (Err e)))].
      apply Ok_tt, readyLocked_ok in Hr as [Hs Hn]. destruct (src_streaming src) eqn:Hst.
      * by apply (Hmove src _ (SnapshotReading false)).
      * by apply (Hmove src _ SnapshotBooting).
  - destruct (src_waiters src !! i) as [[]|] eqn:Hw; simplify_eq/=. eapply unlocked_ok; [exact Hok|by apply waiter_phase|].
    destruct (src_streaming src) eqn:E; [done|]. by rewrite stopLocked_streaming.
  - destruct (src_runs src !! i) as [[| |]|] eqn:Hr; simplify_eq/=.
    destruct (runner_phase src i _ Hp Hr eq_refl) as (Hst & _ & _ & Hph).
    eapply unlocked_ok; [exact Hok|apply Hph|]. by rewrite stopLocked_streaming.
Qed.

(** A new call holds nothing, and finds nothing yet. *)
Lemma entered_ok src mu calls n c :
  source_ok (mkSourceSys src mu calls) → calls !! n = None → holds c = false → call_ok src c →
  source_ok (mkSourceSys src mu (<[n := c]> calls)).
Proof.
  intros Hok Hn Hh Hc. split; cbn [ss_src ss_mu ss_calls]; [apply (sk_phase _ Hok)|intros m|intros m d].
  - rewrite (sk_mu _ Hok m). simpl. destruct (decide (m = n)) as [->|Hne];
      [rewrite lookup_insert_eq, Hn; split; intros (? & ? & ?); simplify_eq/=; congruence|by rewrite lookup_insert_ne].
  - destruct (decide (m = n)) as [->|Hne]; [rewrite lookup_insert_eq; by intros [= <-]|].
    rewrite lookup_insert_ne by done. apply (sk_calls _ Hok m d).
Qed.

(** A change outside the lock, of the goroutines or the context. *)
Lemma same_calls_ok src src' mu calls :
  source_ok (mkSourceSys src mu calls) → phase src' →
  src_started src' = src_started src → src_streaming src' = src_streaming src → src_stopped src' = src_stopped src →
  source_ok (mkSourceSys src' mu calls).
Proof.
  intros Hok Hp H1 H2 H3. split; cbn [ss_src ss_mu ss_calls]; [done|apply (sk_mu _ Hok)|intros n c Hc].
  pose proof (sk_calls _ Hok n c Hc) as Hcall. simpl in Hcall. destruct c as [| |r| | |[]|[]]; simpl in *; congruence.
Qed.

Lemma source_ok_step s l s' : source_ok s → source_step s l = Some s' → source_ok s'.
Proof.
  intros Hok Hl. destruct s as [src mu calls]. pose proof (sk_phase _ Hok) as Hp. simpl in Hp.
  assert (∀ n c, calls !! n = Some c → holds c = true → mu = Some n) as Hmu
    by (intros n c Hc Hh; apply (sk_mu _ Hok); simpl; eauto).
  assert (∀ n c, calls !! n = Some c → call_ok src c) as Hcall by apply (sk_calls _ Hok).
  destruct l as [n|n| |t|n exists_|n boot|n answer|i|i err]; simpl in Hl.
  - destruct (calls !! n) eqn:Hn; simplify_eq/=. by apply entered_ok.
  - destruct (calls !! n) eqn:Hn; simplify_eq/=. by apply entered_ok.
  - simplify_eq/=. eapply same_calls_ok; [exact Hok|by apply cancel_phase|done..].
  - destruct mu as [m|]; [done|]. by eapply locked_ok.
  - destruct (calls !! n) as [[]|] eqn:Hn; simplify_eq/=. pose proof (Hmu n _ Hn eq_refl) as ->.
    destruct (Start_phase src exists_ Hp (Hcall n _ Hn)) as [Hph Hst].
    destruct (Start src exists_) as [src' r]. simplify_eq/=.
    apply (moved_ok src src' (Some n) None calls n (StartReturned r)); try done; [by rewrite Hst|by intros m [= ->]].
  - destruct (calls !! n) as [[]|] eqn:Hn; simplify_eq/=. pose proof (Hmu n _ Hn eq_refl) as ->.
    destruct (Hcall n _ Hn) as (Hs & Hf & Ht). destruct (startRunLocked_phase src Hp Hs Ht) as [Hph Hst].
    assert (∀ m, Some n = Some m → m = n) as Hn' by (by intros m [= ->]).
    pose proof (λ src' mu' c, moved_ok src src' (Some n) mu' calls n c Hok) as Hmove. destruct boot as [snapshot|e].
    + by apply (Hmove _ _ (SnapshotReturned (Ok snapshot))).
    + destruct (errors_is e _); [by apply (Hmove _ _ (SnapshotReading true))|by apply (Hmove _ _ (SnapshotReturned (Err e)))].
  - destruct (calls !! n) as [[| | | | |held|]|] eqn:Hn; simplify_eq/=. pose proof (Hcall n _ Hn) as Hst. simpl in Hst.
    assert (call_ok src (SnapshotReturned answer)) as Hans by (by destruct answer). destruct held.
    + pose proof (Hmu n _ Hn eq_refl) as ->.
      apply (moved_ok src src (Some n) None calls n (SnapshotReturned answer)); try done. by intros m [= ->].
    + split; cbn [ss_src ss_mu ss_calls]; [done|intros m|intros m d].
      * rewrite (sk_mu _ Hok m). simpl. destruct (decide (m = n)) as [->|Hne];
          [rewrite lookup_insert_eq, Hn; split; intros (? & ? & ?); simplify_eq/=; congruence|by rewrite lookup_insert_ne].
      * destruct (decide (m = n)) as [->|Hne]; [rewrite lookup_insert_eq; by intros [= <-]|].
        rewrite lookup_insert_ne by done. apply Hcall.
  - destruct (src_waiters src !! i) as [[]|] eqn:Hw; [|done..]. destruct (src_ctxDone src) eqn:Hd; simplify_eq/=.
    eapply same_calls_ok; [exact Hok|by apply ctx_phase|done..].
  - destruct (src_runs src !! i) as [[]|] eqn:Hr; simplify_eq/=.
    destruct (runner_phase src i _ Hp Hr eq_refl) as (_ & _ & _ & Hph).
    eapply same_calls_ok; [exact Hok|apply Hph|done..].
Qed.

Lemma source_ok_run s ls s' : source_ok s → source_run s ls = Some s' → source_ok s'.
Proof.
  revert s. induction ls as [|l ls IH]; intros s Hs Hr; simplify_eq/=; [done|].
  destruct (source_step s l) as [s1|] eqn:Hl; simpl in Hr; [|done].
  by eapply IH, Hr; eapply source_ok_step.
Qed.

Lemma reachable_source_ok s : source_reachable s → source_ok s.
Proof. intros [ls Hr]. eapply source_ok_run; [apply new_source_ok|exact Hr]. Qed.

(** What a step never takes back. *)
Record follows (s s' : Source) : Prop := {
  fl_streaming : src_streaming s = true → src_streaming s' = true;
  fl_stopped : src_stopped s = true →
    src_stopped s' = true ∧ source_Err s' = source_Err s ∧ src_closes s' = src_closes s ∧
    length (src_runs s') = length (src_runs s)
}.

Lemma follows_refl s : follows s s.
Proof. by split. Qed.

Lemma follows_trans s1 s2 s3 : follows s1 s2 → follows s2 s3 → follows s1 s3.
Proof.
  intros [A1 A2] [B1 B2]. split; [auto|]. intros Hs. destruct (A2 Hs) as (H1 & <- & <- & <-). auto.
Qed.

Lemma follows_live s s' :
  src_stopped s = false → (src_streaming s = true → src_streaming s' = true) → follows s s'.
Proof. intros Hf Hs. split; [done|congruence]. Qed.

Lemma startRunLocked_follows s : follows s (startRunLocked s) ∨ src_stopped s = true ∧ src_streaming s = false.
Proof.
  destruct (src_streaming s) eqn:Hst; [left; unfold startRunLocked; rewrite Hst; apply follows_refl|].
  destruct (src_stopped s) eqn:Hs; [by right|left]. apply follows_live; [done|congruence].
Qed.

Lemma source_step_follows s l s' : source_ok s → source_step s l = Some s' → follows (ss_src s) (ss_src s').
Proof.
  intros Hok Hl. destruct s as [src mu calls]. pose proof (sk_phase _ Hok) as Hp. simpl in Hp |- *.
  assert (∀ n c, calls !! n = Some c → call_ok src c) as Hcall by apply (sk_calls _ Hok).
  destruct l as [n|n| |t|n exists_|n boot|n answer|i|i err]; simpl in Hl.
  - destruct (calls !! n); simplify_eq/=. apply follows_refl.
  - destruct (calls !! n); simplify_eq/=. apply follows_refl.
  - simplify_eq/=. by split.
  - destruct mu as [m|]; [done|]. destruct t as [n|i|i]; simpl in Hl.
    + destruct (calls !! n) as [[]|]; simplify_eq/=; repeat case_match; apply follows_refl.
    + destruct (src_waiters src !! i) as [[]|] eqn:Hw; simplify_eq/=.
      destruct Hp; simplify_eq/=; by split.
    + destruct (src_runs src !! i) as [[| |]|] eqn:Hr; simplify_eq/=.
      destruct (runner_phase src i _ Hp Hr eq_refl) as (Hst & Hs & _). apply follows_live; [done|].
      by rewrite stopLocked_streaming.
  - destruct (calls !! n) as [[]|] eqn:Hn; simplify_eq/=. pose proof (Start_phase src exists_ Hp (Hcall n _ Hn)) as [_ Hst].
    specialize (Hcall n _ Hn). simpl in Hcall. destruct (Start src exists_) as [src' r] eqn:HS. simplify_eq/=.
    apply follows_live; [|congruence]. by destruct Hp.
  - destruct (calls !! n) as [[]|] eqn:Hn; simplify_eq/=. destruct (Hcall n _ Hn) as (_ & Hf & Hs).
    destruct boot as [snapshot|e]; [|destruct (errors_is e _)]; simpl; (by apply follows_refl) || by apply follows_live; congruence.
  - destruct (calls !! n) as [[]|]; simplify_eq/=. apply follows_refl.
  - destruct (src_waiters src !! i) as [[]|]; [|done..]. destruct (src_ctxDone src); simplify_eq/=. by split.
  - destruct (src_runs src !! i) as [[]|] eqn:Hr; simplify_eq/=. split; [done|]. intros Hs.
    split_and!; [done..|]. simpl. by rewrite length_insert.
Qed.

Lemma source_run_follows s ls s' : source_ok s → source_run s ls = Some s' → follows (ss_src s) (ss_src s').
Proof.
  revert s. induction ls as [|l ls IH]; intros s Hs Hr; simplify_eq/=; [apply follows_refl|].
  destruct (source_step s l) as [s1|] eqn:Hl; simpl in Hr; [|done].
  eapply follows_trans; [by eapply source_step_follows|]. apply IH; [by eapply source_ok_step|done].
Qed.

(** ** Properties *)

Lemma phase_runs s : phase s → length (src_runs s) = (if src_streaming s then 1 else 0)%nat ∧ (src_closes s ≤ 1)%nat.
Proof. intros []; simpl; lia. Qed.

(** C23 (safety): whatever calls, goroutines and failures interleave, a source has at most
    one Run loop, and of all calls that found no slot at most one is in
    [bootstrap] at a time, with no Run loop beside it and none stopped before
    it; once a Run loop was started no call is ever in [bootstrap] again. A
    call of Snapshot that succeeded has that Run loop started. Done is closed
    at most once, and once it has stopped its error and the number of Run loops
    stay as they are. *)
Theorem source_one_stream s (Hs : source_reachable s) :
  let src := ss_src s in
  (length (src_runs src) ≤ 1)%nat ∧ (src_closes src ≤ 1)%nat ∧
  (∀ n m, ss_calls s !! n = Some SnapshotBooting → ss_calls s !! m = Some SnapshotBooting → n = m) ∧
  (∀ n, ss_calls s !! n = Some SnapshotBooting → src_runs src = [] ∧ src_stopped src = false) ∧
  (∀ n snapshot, ss_calls s !! n = Some (SnapshotReturned (Ok snapshot)) → length (src_runs src) = 1%nat) ∧
  ∀ ls s', source_run s ls = Some s' →
    (src_runs src ≠ [] → ∀ n, ss_calls s' !! n ≠ Some SnapshotBooting) ∧
    (src_stopped src = true → src_stopped (ss_src s') = true ∧ source_Err (ss_src s') = source_Err src ∧
       length (src_runs (ss_src s')) = length (src_runs src)).
Proof.
  apply reachable_source_ok in Hs as Hok. cbv zeta.
  destruct (phase_runs _ (sk_phase _ Hok)) as [Hruns Hcloses]. split_and!.
  - destruct (src_streaming _); lia.
  - done.
  - intros n m Hn Hm. by eapply (holder_unique s n m SnapshotBooting SnapshotBooting).
  - intros n Hn. destruct (sk_calls _ Hok n _ Hn) as (_ & Hf & Hst). split; [|done].
    rewrite Hf in Hruns. by apply nil_length_inv.
  - intros n snapshot Hn. pose proof (sk_calls _ Hok n _ Hn) as Hst. simpl in Hst. by rewrite Hst in Hruns.
  - intros ls s' Hr. pose proof (source_ok_run _ _ _ Hok Hr) as Hok'.
    destruct (source_run_follows _ _ _ Hok Hr) as [Hstr Hstop]. split.
    + intros Hne n Hn. destruct (sk_calls _ Hok' n _ Hn) as (_ & Hf & _).
      destruct (src_streaming (ss_src s)); [by rewrite Hstr in Hf|]. apply Hne. by apply nil_length_inv.
    + intros Hst. destruct (Hstop Hst) as (? & ? & _ & ?). done.
Qed.

(** ** Everything ends *)

(** The steps a goroutine still has to take, those it starts included. *)
Definition call_work (c : call) : nat :=
  match c with
  | StartLock => 6 | StartProbing => 5 | SnapshotLock => 5 | SnapshotBooting => 4 | SnapshotReading _ => 1
  | StartReturned _ | SnapshotReturned _ => 0
  end.

Definition waiter_work (w : waiter) : nat := match w with WaitCtx => 2 | WaitLock => 1 | WaitDone => 0 end.
Definition runner_work (r : runner) : nat := match r with RunActive => 2 | RunLock _ => 1 | RunDone _ => 0 end.

Definition calls_work (calls : gmap nat call) : nat := map_fold (λ _ c n, call_work c + n)%nat 0%nat calls.

Definition own_work (src : Source) : nat :=
  (sum_list (waiter_work <$> src_waiters src) + sum_list (runner_work <$> src_runs src))%nat.

Definition work (s : source_sys) : nat := (calls_work (ss_calls s) + own_work (ss_src s))%nat.

(** A step that is neither a new call nor the end of the context. *)
Definition internal (l : label) : bool :=
  match l with LStart _ | LSnapshot _ | LCancel => false | _ => true end.

Lemma calls_work_insert calls n c :
  calls_work (<[n := c]> calls) = (call_work c + calls_work (delete n calls))%nat.
Proof.
  unfold calls_work. rewrite <-insert_delete_eq, map_fold_insert_L; [done| |apply lookup_delete_eq]. intros. lia.
Qed.

Lemma calls_work_lookup calls n c :
  calls !! n = Some c → calls_work calls = (call_work c + calls_work (delete n calls))%nat.
Proof. intros Hn. by rewrite <-calls_work_insert, insert_id. Qed.

Lemma sum_list_insert (l : list nat) i x y :
  l !! i = Some x → (sum_list (<[i := y]> l) + x = sum_list l + y)%nat.
Proof.
  revert i. induction l as [|z l IH]; intros [|i]; simpl; intros Hi; simplify_eq; [lia|]. specialize (IH i Hi). lia.
Qed.

Lemma set_waiter_work s i v w :
  src_waiters s !! i = Some v → (own_work (set_waiter s i w) + waiter_work v = own_work s + waiter_work w)%nat.
Proof.
  intros Hv. unfold own_work, set_waiter. simpl. rewrite list_fmap_insert.
  pose proof (sum_list_insert (waiter_work <$> src_waiters s) i (waiter_work v) (waiter_work w)) as Hs.
  rewrite list_lookup_fmap, Hv in Hs. specialize (Hs eq_refl). lia.
Qed.

Lemma set_runner_work s i v r :
  src_runs s !! i = Some v → (own_work (set_runner s i r) + runner_work v = own_work s + runner_work r)%nat.
Proof.
  intros Hv. unfold own_work, set_runner. simpl. rewrite list_fmap_insert.
  pose proof (sum_list_insert (runner_work <$> src_runs s) i (runner_work v) (runner_work r)) as Hs.
  rewrite list_lookup_fmap, Hv in Hs. specialize (Hs eq_refl). lia.
Qed.

Lemma stopLocked_work s err : own_work (stopLocked s err) = own_work s.
Proof. unfold stopLocked. by destruct (src_once s). Qed.

Lemma sum_list_app (l k : list nat) : sum_list (l ++ k) = (sum_list l + sum_list k)%nat.
Proof. induction l as [|y l IH]; simpl; lia. Qed.

Lemma startRunLocked_work s : (own_work (startRunLocked s) ≤ own_work s + 2)%nat.
Proof.
  unfold startRunLocked. destruct (src_streaming s); [lia|]. unfold own_work. simpl.
  rewrite fmap_app, sum_list_app. simpl. lia.
Qed.

Lemma Start_work s exists_ : (own_work (Start s exists_).1 ≤ own_work s + 4)%nat.
Proof.
  unfold Start. destruct (src_started s); [simpl; lia|]. destruct exists_ as [found|]; [|simpl; lia].
  set (s1 := mkSource true _ _ _ _ _ _ _ _). assert (own_work s1 = own_work s) as E by done.
  destruct found; [pose proof (startRunLocked_work s1) as Hr; revert Hr; generalize (startRunLocked s1)|generalize s1 E];
    intros s2; unfold own_work; simpl; rewrite fmap_app, sum_list_app; simpl; unfold own_work in *; lia.
Qed.

(** Each goroutine only ever moves on. *)
Lemma step_work s l s' : internal l = true → source_step s l = Some s' → (work s' < work s)%nat.
Proof.
  destruct s as [src mu calls]. intros Hi Hl. unfold work.
  assert (∀ n c c' src' mu', calls !! n = Some c → (call_work c' + own_work src' < call_work c + own_work src)%nat →
    Some (mkSourceSys src' mu' (<[n := c']> calls)) = Some s' →
    (calls_work (ss_calls s') + own_work (ss_src s') < calls_work calls + own_work src)%nat) as Hcall.
  { intros n c c' src' mu' Hn Hlt [= <-]. simpl. rewrite calls_work_insert, (calls_work_lookup calls n c) by done. lia. }
  destruct l as [n|n| |t|n exists_|n boot|n answer|i|i err]; simpl in *; try done.
  - destruct mu as [m|]; [done|]. destruct t as [n|i|i]; simpl in Hl.
    + destruct (calls !! n) as [[]|] eqn:Hn; try done.
      * destruct (src_started src); (eapply Hcall; [exact Hn| |exact Hl]); simpl; lia.
      * destruct (readyLocked src); [destruct (src_streaming src)|];
          (eapply Hcall; [exact Hn| |exact Hl]); simpl; lia.
    + destruct (src_waiters src !! i) as [[]|] eqn:Hw; simplify_eq/=.
      pose proof (set_waiter_work src i _ WaitDone Hw) as Hs. simpl in Hs.
      destruct (src_streaming src); rewrite ?stopLocked_work; lia.
    + destruct (src_runs src !! i) as [[| |]|] eqn:Hr; simplify_eq/=.
      pose proof (set_runner_work src i _ (RunDone err) Hr) as Hs. simpl in Hs. rewrite stopLocked_work. lia.
  - destruct (calls !! n) as [[]|] eqn:Hn; try done. pose proof (Start_work src exists_) as Hs.
    destruct (Start src exists_) as [src' r]. (eapply Hcall; [exact Hn| |exact Hl]). simpl in *. lia.
  - destruct (calls !! n) as [[]|] eqn:Hn; try done. pose proof (startRunLocked_work src) as Hs.
    destruct boot as [|e]; [|destruct (errors_is e _)]; (eapply Hcall; [exact Hn| |exact Hl]); simpl; lia.
  - destruct (calls !! n) as [[]|] eqn:Hn; try done. (eapply Hcall; [exact Hn| |exact Hl]). simpl. lia.
  - destruct (src_waiters src !! i) as [[]|] eqn:Hw; try done. destruct (src_ctxDone src); simplify_eq/=.
    pose proof (set_waiter_work src i _ WaitLock Hw) as Hs. simpl in Hs. lia.
  - destruct (src_runs src !! i) as [[]|] eqn:Hr; simplify_eq/=.
    pose proof (set_runner_work src i _ (RunLock err) Hr) as Hs. simpl in Hs. lia.
Qed.

Lemma run_work s ls s' :
  Forall (λ l, internal l = true) ls → source_run s ls = Some s' → (length ls + work s' ≤ work s)%nat.
Proof.
  revert s. induction ls as [|l ls IH]; intros s Hall Hr; simplify_eq/=; [lia|].
  apply Forall_cons in Hall as [Hl Hall]. destruct (source_step s l) as [s1|] eqn:Hs; simpl in Hr; [|done].
  specialize (IH s1 Hall Hr). pose proof (step_work s l s1 Hl Hs). lia.
Qed.

(** A source stays started, and a context ended. *)
Lemma source_step_kept s l s' :
  source_step s l = Some s' →
  (src_started (ss_src s) = true → src_started (ss_src s') = true) ∧
  (src_ctxDone (ss_src s) = true → src_ctxDone (ss_src s') = true).
Proof.
  assert (∀ src err, src_started (stopLocked src err) = src_started src ∧ src_ctxDone (stopLocked src err) = src_ctxDone src)
    as Hstop by (intros src err; unfold stopLocked; by destruct (src_once src)).
  assert (∀ src, src_started (startRunLocked src) = src_started src ∧ src_ctxDone (startRunLocked src) = src_ctxDone src)
    as Hrun by (intros src; unfold startRunLocked; by destruct (src_streaming src)).
  destruct s as [src mu calls]. intros Hl.
  destruct l as [n|n| |t|n exists_|n boot|n answer|i|i err]; simpl in Hl; repeat case_match; simplify_eq/=; try done.
  all: rewrite ?(proj1 (Hstop _ _)), ?(proj2 (Hstop _ _)), ?(proj1 (Hrun _)), ?(proj2 (Hrun _)); try done.
  all: unfold locked, Start in *; simpl in *; repeat case_match; simplify_eq/=; try done.
  all: rewrite ?(proj1 (Hstop _ _)), ?(proj2 (Hstop _ _)), ?(proj1 (Hrun _)), ?(proj2 (Hrun _)); done.
Qed.

(** Nothing can move. *)
Definition stuck (s : source_sys) : Prop := ∀ l, internal l = true → source_step s l = None.

Definition returned (c : call) : bool :=
  match c with StartReturned _ | SnapshotReturned _ => true | _ => false end.

(** The lock is never what a source is stuck on. *)
Lemma stuck_free s : source_ok s → stuck s → ss_mu s = None ∧ ∀ n c, ss_calls s !! n = Some c → returned c = true.
Proof.
  intros Hok Hst. assert (ss_mu s = None) as Hmu.
  { destruct (ss_mu s) as [n|] eqn:Hmu; [exfalso|done].
    apply (sk_mu _ Hok) in Hmu as (c & Hc & Hh). destruct c as [| | | | |[]|]; try done.
    - specialize (Hst (LExists n (Ok true)) eq_refl). simpl in Hst. rewrite Hc in Hst. by destruct (Start _ _).
    - specialize (Hst (LBoot n (Err (EOther ""))) eq_refl). simpl in Hst. by rewrite Hc in Hst.
    - specialize (Hst (LRead n (Err (EOther ""))) eq_refl). simpl in Hst. by rewrite Hc in Hst. }
  split; [done|]. intros n c Hc. destruct (returned c) eqn:Hr; [done|exfalso].
  pose proof (Hst (LLock (TCall n)) eq_refl) as Hlock. simpl in Hlock. rewrite Hmu, Hc in Hlock.
  destruct c as [| | | | |held|]; try done;
    try (assert (ss_mu s = Some n) by (apply (sk_mu _ Hok); eauto); congruence).
  specialize (Hst (LRead n (Err (EOther ""))) eq_refl). simpl in Hst. by rewrite Hc in Hst.
Qed.

(** What a stuck source is. *)
Lemma stuck_ended s :
  source_ok s → stuck s → src_started (ss_src s) = true → src_ctxDone (ss_src s) = true ∨ src_streaming (ss_src s) = true →
  src_stopped (ss_src s) = true ∧ src_closes (ss_src s) = 1%nat ∧
  (src_runs (ss_src s) = [] ∧ source_Err (ss_src s) = None ∨
   ∃ err, src_runs (ss_src s) = [RunDone err] ∧ source_Err (ss_src s) = err).
Proof.
  intros Hok Hst Hs Hend. destruct (stuck_free s Hok Hst) as [Hmu _]. pose proof (sk_phase _ Hok) as Hp.
  pose proof (λ i, Hst (LCtx i) eq_refl) as Hctx. pose proof (λ t, Hst (LLock t) eq_refl) as Hlock.
  pose proof (λ i, Hst (LRunReturns i None) eq_refl) as Hret. simpl in Hctx, Hlock, Hret. rewrite Hmu in Hlock.
  unfold locked in Hlock. destruct Hp as [ctx|ctx w Hw Hn| |ctx w r Hw Hr|ctx w err Hw]; simplify_eq/=.
  - destruct Hend as [->|?]; [|done]. destruct w; [by specialize (Hctx 0%nat)|by specialize (Hlock (TWaiter 0))|done].
  - split_and!; [done..|by left].
  - destruct r as [|err|]; [by specialize (Hret 0%nat)|by specialize (Hlock (TRunner 0))|done].
  - split_and!; [done..|right; by exists err].
Qed.

(** C24 (liveness): a started source gets to its end. Once its context is
    cancelled, or Run was started and so returns one day, no schedule of its
    goroutines and calls can go on for ever, whatever PostgreSQL answers: each
    takes at most [work s] steps; and when nothing can move any more the
    source has stopped, Done is closed, Err is what Run returned, or nil when
    no Run was started, the lock is free, and every call has returned. *)
Theorem source_stops s ls s' (Hs : source_reachable s) (Hstarted : src_started (ss_src s) = true)
    (Hend : src_ctxDone (ss_src s) = true ∨ src_runs (ss_src s) ≠ [])
    (Hint : Forall (λ l, internal l = true) ls) (Hr : source_run s ls = Some s') :
  (length ls ≤ work s)%nat ∧
  (stuck s' →
     src_stopped (ss_src s') = true ∧ src_closes (ss_src s') = 1%nat ∧
     (src_runs (ss_src s') = [] ∧ source_Err (ss_src s') = None ∨
      ∃ err, src_runs (ss_src s') = [RunDone err] ∧ source_Err (ss_src s') = err) ∧
     ss_mu s' = None ∧ ∀ n c, ss_calls s' !! n = Some c → returned c = true).
Proof.
  apply reachable_source_ok in Hs as Hok. pose proof (run_work s ls s' Hint Hr) as Hw. split; [lia|]. intros Hst.
  pose proof (source_ok_run _ _ _ Hok Hr) as Hok'. destruct (stuck_free s' Hok' Hst) as [Hmu Hcalls].
  assert (src_started (ss_src s') = true ∧ (src_ctxDone (ss_src s') = true ∨ src_streaming (ss_src s') = true)) as [H1 H2].
  { destruct (phase_runs _ (sk_phase _ Hok)) as [Hruns _].
    assert (src_ctxDone (ss_src s) = true ∨ src_streaming (ss_src s) = true) as Hend'.
    { destruct Hend as [|Hne]; [by left|right]. destruct (src_streaming (ss_src s)); [done|].
      destruct Hne. by apply nil_length_inv. }
    clear - Hok Hr Hstarted Hend'. revert s Hok Hr Hstarted Hend'.
    induction ls as [|l ls IH]; intros s Hok Hr Hs He; simplify_eq/=; [done|].
    destruct (source_step s l) as [s1|] eqn:Hl; simpl in Hr; [|done].
    pose proof (source_ok_step _ _ _ Hok Hl) as Hok1. destruct (source_step_kept s l s1 Hl) as [Hk1 Hk2].
    apply (IH s1); [done|done|auto|]. destruct He as [|He]; [auto|].
    right. by apply (fl_streaming _ _ (source_step_follows _ _ _ Hok Hl)). }
  destruct (stuck_ended s' Hok' Hst H1 H2) as (? & ? & ?). done.
Qed.

(** ** A source that bootstraps, streams, and stops with its stream's error *)

Lemma ended_stuck s :
  map_Forall (λ _ c, returned c = true) (ss_calls s) → Forall (λ w, waiter_work w = 0%nat) (src_waiters (ss_src s)) →
  Forall (λ r, run_done r = true) (src_runs (ss_src s)) → stuck s.
Proof.
  intros Hc Hw Hr l Hl. destruct s as [src mu calls]. simpl in *.
  assert (∀ n, calls !! n = None ∨ ∃ c, calls !! n = Some c ∧ returned c = true) as Hcalls.
  { intros n. destruct (calls !! n) as [c|] eqn:E; [right; eauto|by left]. }
  assert (∀ i, src_waiters src !! i = None ∨ src_waiters src !! i = Some WaitDone) as Hwaiters.
  { intros i. destruct (src_waiters src !! i) as [w|] eqn:E; [right|by left]. eapply Forall_lookup in Hw; [|done]. by destruct w. }
  assert (∀ i, src_runs src !! i = None ∨ ∃ err, src_runs src !! i = Some (RunDone err)) as Hruns.
  { intros i. destruct (src_runs src !! i) as [r|] eqn:E; [right|by left]. eapply Forall_lookup in Hr; [|done]. destruct r; eauto; done. }
  destruct l as [n|n| |[n|i|i]|n exists_|n boot|n answer|i|i err]; simpl in *; try done.
  - destruct mu; [done|]. destruct (Hcalls n) as [->|([] & -> & ?)]; done.
  - destruct mu; [done|]. by destruct (Hwaiters i) as [->| ->].
  - destruct mu; [done|]. by destruct (Hruns i) as [->|[? ->]].
  - destruct (Hcalls n) as [->|([] & -> & ?)]; done.
  - destruct (Hcalls n) as [->|([] & -> & ?)]; done.
  - destruct (Hcalls n) as [->|([] & -> & ?)]; done.
  - by destruct (Hwaiters i) as [->| ->].
  - by destruct (Hruns i) as [->|[? ->]].
Qed.

(** Two first scopes at once: the second waits for the first one's bootstrap,
    which fails, and then creates the slot. *)
Definition demo_labels : list label :=
  [LStart 0; LLock (TCall 0); LExists 0 (Ok false); LSnapshot 1; LSnapshot 2; LLock (TCall 1);
   LBoot 1 (Err (ESentinel ErrSourceUnavailable)); LLock (TCall 2);
   LBoot 2 (Ok (newSnapshot "db" 32 (mkVisibility 5 9 ∅))); LCancel].

Definition demo_ending : list label :=
  [LCtx 0; LLock (TWaiter 0); LRunReturns 0 (Some (ESentinel ErrSlotInvalidated)); LLock (TRunner 0)].

Definition demo_source : source_sys := default new_source_sys (source_run new_source_sys demo_labels).
Definition demo_ended : source_sys := default new_source_sys (source_run demo_source demo_ending).

Lemma demo_source_reachable : source_reachable demo_source.
Proof. exists demo_labels. vm_compute. reflexivity. Qed.

Lemma source_one_stream_witness :
  src_runs (ss_src demo_source) = [RunActive] ∧ (src_closes (ss_src demo_source) ≤ 1)%nat.
Proof.
  split; [vm_compute; reflexivity|]. destruct (source_one_stream demo_source demo_source_reachable) as (_ & Hc & _).
  exact Hc.
Defined.

Lemma source_stops_witness :
  (length demo_ending ≤ work demo_source)%nat ∧
  source_Err (ss_src demo_ended) = Some (ESentinel ErrSlotInvalidated).
Proof.
  destruct (source_stops demo_source demo_ending demo_ended demo_source_reachable) as [Hw He].
  - vm_compute. reflexivity.
  - left. vm_compute. reflexivity.
  - repeat constructor.
  - vm_compute. reflexivity.
  - split; [exact Hw|]. destruct He as (_ & _ & [[Hn _]|(err & Hruns & Herr)] & _).
    + apply ended_stuck; [apply (bool_decide_unpack _); vm_compute; exact I|repeat constructor..].
    + vm_compute in Hn. discriminate Hn.
    + rewrite Herr. vm_compute in Hruns. injection Hruns as <-. reflexivity.
Defined.
