(* ===== verification/Wire.v ===== *)
(** * The v1 API's messages: api/watch/v1

    The messages the server sends and the client receives, as the generated
    package declares them. A protobuf map is a [gmap]; a [oneof] is an
    inductive type whose unset case is the nil field. protobuf's encoding and
    a gRPC stream are parameters: a message can be sent as its structure or as
    bytes that were marshaled before, and the receiver decodes either. *)

From S2P Require Import Prelude Errors CdcTypes Events.
Local Open Scope string_scope.
Local Open Scope list_scope.
Local Open Scope Z_scope.

(** ** Messages *)

Inductive wireValue : Type :=
| ValueKindUnset
| Value_Text (text : string)
| Value_Null
| Value_UnchangedToast.

#[export] Instance wireValue_eq_dec : EqDecision wireValue.
Proof. solve_decision. Defined.

(** [Operation], an open enum. *)
Inductive wireOperation : Type :=
| OPERATION_INSERT | OPERATION_UPDATE | OPERATION_DELETE
| OPERATION_OTHER (n : Z).

#[export] Instance wireOperation_eq_dec : EqDecision wireOperation.
Proof. solve_decision. Defined.

Abbreviation wireRow := (gmap string wireValue).

Record wireChange : Type := mkWireChange {
  wc_operation : wireOperation;
  wc_table : string;
  wc_key : gmap string string;
  wc_values : gmap string wireValue
}.

#[export] Instance wireChange_eq_dec : EqDecision wireChange.
Proof. solve_decision. Defined.

(** The commit time is absent or a timestamp, in nanoseconds. *)
Record wireBatch : Type := mkWireBatch {
  wb_cursor : string;
  wb_changes : list wireChange;
  wb_commitTime : option Z
}.

#[export] Instance wireBatch_eq_dec : EqDecision wireBatch.
Proof. solve_decision. Defined.

Inductive wireReason : Type :=
| RESYNC_REASON_UNSPECIFIED
| RESYNC_REASON_CURSOR_UNAVAILABLE
| RESYNC_REASON_SLOW_WATCHER
| RESYNC_REASON_SNAPSHOT_WINDOW_CLOSED
| RESYNC_REASON_SOURCE_STOPPED
| RESYNC_REASON_SCHEMA_CHANGED.

#[export] Instance wireReason_eq_dec : EqDecision wireReason.
Proof. solve_decision. Defined.

(** [WatchResponse.Event]. *)
Inductive wireEvent : Type :=
| WatchResponse_Unset
| WatchResponse_SnapshotBegin
| WatchResponse_SnapshotRows (rows : list wireRow)
| WatchResponse_SnapshotEnd
| WatchResponse_Batch (batch : wireBatch)
| WatchResponse_Progress (cursor : string)
| WatchResponse_Resync (reason : wireReason).

#[export] Instance wireEvent_eq_dec : EqDecision wireEvent.
Proof. solve_decision. Defined.

Record WatchRequest : Type := mkWatchRequest {
  wr_projection : string;
  wr_scope : string;
  wr_resumeCursor : string
}.

Inductive CursorOrder : Type :=
| CURSOR_ORDER_UNSPECIFIED | CURSOR_ORDER_BEFORE | CURSOR_ORDER_EQUAL | CURSOR_ORDER_AFTER.

#[export] Instance CursorOrder_eq_dec : EqDecision CursorOrder.
Proof. solve_decision. Defined.

(** gRPC status codes, the ones either side tells apart. *)
Inductive code : Type :=
| OK | Canceled | Unknown | InvalidArgument | DeadlineExceeded | NotFound | PermissionDenied
| FailedPrecondition | Unimplemented | Internal | Unavailable | Unauthenticated
| CodeOther (n : Z).

#[export] Instance code_eq_dec : EqDecision code.
Proof. solve_decision. Defined.

#[export] Instance wireValue_countable : Countable wireValue.
Proof.
  refine (inj_countable'
    (λ v, match v with
          | ValueKindUnset => inl (inl ())
          | Value_Text text => inl (inr text)
          | Value_Null => inr (inl ())
          | Value_UnchangedToast => inr (inr ())
          end)
    (λ x : (() + string) + (() + ()),
       match x with
       | inl (inl _) => ValueKindUnset
       | inl (inr text) => Value_Text text
       | inr (inl _) => Value_Null
       | inr (inr _) => Value_UnchangedToast
       end) _).
  by intros [].
Defined.

#[export] Instance wireOperation_countable : Countable wireOperation.
Proof.
  refine (inj_countable'
    (λ o, match o with
          | OPERATION_INSERT => inl (Some true)
          | OPERATION_UPDATE => inl (Some false)
          | OPERATION_DELETE => inl None
          | OPERATION_OTHER n => inr n
          end)
    (λ x : option bool + Z,
       match x with
       | inl (Some true) => OPERATION_INSERT
       | inl (Some false) => OPERATION_UPDATE
       | inl None => OPERATION_DELETE
       | inr n => OPERATION_OTHER n
       end) _).
  by intros [].
Defined.

#[export] Instance wireChange_countable : Countable wireChange.
Proof.
  refine (inj_countable' (λ c, (wc_operation c, wc_table c, wc_key c, wc_values c))
    (λ '(o, t, k, v), mkWireChange o t k v) _).
  by intros [].
Defined.

#[export] Instance wireBatch_countable : Countable wireBatch.
Proof.
  refine (inj_countable' (λ b, (wb_cursor b, wb_changes b, wb_commitTime b))
    (λ '(c, changes, t), mkWireBatch c changes t) _).
  by intros [].
Defined.

(** ** Encoding and streams *)

(** [proto.Marshal], the receiver's decoding, and [proto.Size] of a row. *)
Class Proto : Type := {
  proto_marshal : wireEvent → option string;
  proto_unmarshal : string → option wireEvent;
  row_size : wireRow → Z
}.

(** What is marshaled decodes to the same message. *)
Class ProtoLaws `{Proto} : Prop := {
  proto_roundtrip e bytes : proto_marshal e = Some bytes → proto_unmarshal bytes = Some e
}.

(** A message given to a stream: a [WatchResponse] with its event set, or one
    that holds only encoded bytes. *)
Inductive streamMessage : Type :=
| MsgEvent (e : wireEvent)
| MsgEncoded (bytes : string).

#[export] Instance streamMessage_eq_dec : EqDecision streamMessage.
Proof. solve_decision. Defined.

(** What the other end of the stream receives. *)
Definition receives `{Proto} (m : streamMessage) : option wireEvent :=
  match m with
  | MsgEvent e => Some e
  | MsgEncoded bytes => proto_unmarshal bytes
  end.

(** [grpc.ServerStreamingServer.Send]. *)
Class ServerStream (K : Type) : Type := stream_send : K → streamMessage → result code K.
