(* ===== verification/Server.v ===== *)
(** * The gRPC server: internal/server/server.go

    The service on top of a watcher: cursors on the wire, the translation of
    watch events into messages, packing of snapshot rows, and statuses. The
    stream and protobuf are interfaces; metrics and logging are left out. *)

From S2P Require Import Prelude Errors CdcTypes Visibility Events Hub HubWatch Wire.
From Stdlib Require Import Ascii.
Local Open Scope string_scope.
Local Open Scope list_scope.
Local Open Scope Z_scope.

(** ** State *)

(** The fields the requests read, and the health service's status. *)
Record Server : Type := mkServer {
  sv_sourceID : string;
  sv_maxRowsMessageBytes : Z;
  sv_serving : bool
}.

Definition defaultMaxRowsMessageBytes : Z := Z.shiftl 1 20.

Definition cursorSeparator : ascii := "@"%char.

(** [SetServing]: both services' status. *)
Definition SetServing (s : Server) (serving : bool) : Server :=
  mkServer (sv_sourceID s) (sv_maxRowsMessageBytes s) serving.

(** [New]; [None] is [ErrInvalidConfig]. *)
Definition NewServer (sourceID : string) (maxRowsMessageBytes : Z) (watcher : bool) : option Server :=
  if bool_decide (sourceID = "") || contains_char cursorSeparator sourceID || negb watcher ||
     bool_decide (maxRowsMessageBytes < 0)
  then None
  else
    let max := if decide (maxRowsMessageBytes = 0) then defaultMaxRowsMessageBytes else maxRowsMessageBytes in
    Some (SetServing (mkServer sourceID max false) false).

(** ** Cursors on the wire *)

Section Cursors.
Context `{LsnText}.

Definition encodeCursor (s : Server) (cursor : Cursor) : string :=
  sv_sourceID s +:+ String cursorSeparator (Cursor_String cursor).

Definition decodeCursor (s : Server) (text : string) : result error Cursor :=
  match cut_char cursorSeparator text with
  | None => Err (EOther "malformed cursor")
  | Some (source, position) =>
      if decide (source ≠ sv_sourceID s) then Err (EOther "cursor belongs to another source")
      else match ParseCursor (sv_sourceID s) position with
           | Err _ => Err (EOther "malformed cursor")
           | Ok cursor => Ok cursor
           end
  end.

(** The literal map of [CompareCursors]; a missing key gives the zero order. *)
Definition cursor_order (order : Z) : CursorOrder :=
  if decide (order = -1) then CURSOR_ORDER_BEFORE
  else if decide (order = 0) then CURSOR_ORDER_EQUAL
  else if decide (order = 1) then CURSOR_ORDER_AFTER else CURSOR_ORDER_UNSPECIFIED.

Definition CompareCursors (s : Server) (left right : string) : result code CursorOrder :=
  match decodeCursor s left, decodeCursor s right with
  | Err _, _ => Err InvalidArgument
  | Ok _, Err _ => Err InvalidArgument
  | Ok l, Ok r =>
      match Compare l r with
      | Err _ => Err InvalidArgument
      | Ok order => Ok (cursor_order order)
      end
  end.

(** ** Conversions *)

Definition resyncReasons (r : ResyncReason) : wireReason :=
  match r with
  | ResyncCursorUnavailable => RESYNC_REASON_CURSOR_UNAVAILABLE
  | ResyncSlowWatcher => RESYNC_REASON_SLOW_WATCHER
  | ResyncSnapshotWindowClosed => RESYNC_REASON_SNAPSHOT_WINDOW_CLOSED
  | ResyncSourceStopped => RESYNC_REASON_SOURCE_STOPPED
  | ResyncSchemaChanged => RESYNC_REASON_SCHEMA_CHANGED
  | ResyncReasonOther _ => RESYNC_REASON_UNSPECIFIED
  end.

Definition operations (operation : string) : option wireOperation :=
  if decide (operation = OperationInsert) then Some OPERATION_INSERT
  else if decide (operation = OperationUpdate) then Some OPERATION_UPDATE
  else if decide (operation = OperationDelete) then Some OPERATION_DELETE
  else None.

Definition convertKind (value : Value) : result error wireValue :=
  match v_kind value with
  | ValueText => Ok (Value_Text (v_text value))
  | ValueNull => Ok Value_Null
  | ValueUnchangedToast => Ok Value_UnchangedToast
  | _ => Err (EOther "server: column has unsupported value kind")
  end.

(** The loop of [convertChangeValues]; [columns[index]] out of range panics. *)
Fixpoint convert_values (columns : list string) (values : list Value) (converted : gmap string wireValue)
    {struct values} : result error (gmap string wireValue) :=
  match values with
  | [] => Ok converted
  | value :: values' =>
      match columns with
      | [] => Err (EOther "panic: index out of range")
      | column :: columns' =>
          let! kind := convertKind value in
          convert_values columns' values' (<[column := kind]> converted)
      end
  end.

Definition convertChangeValues (columns : list string) (values : list Value)
    : result error (gmap string wireValue) :=
  convert_values columns values ∅.

Definition convertChange (change : Change) : result error wireChange :=
  match operations (ch_operation change) with
  | None => Err (EOther "server: unknown change operation")
  | Some operation =>
      let! values := convertChangeValues (ch_columns change) (ch_values change) in
      Ok (mkWireChange operation (ch_table change) (ch_key change) values)
  end.

Fixpoint convert_changes (changes : list Change) : result error (list wireChange) :=
  match changes with
  | [] => Ok []
  | change :: rest =>
      let! converted := convertChange change in
      let! rest := convert_changes rest in
      Ok (converted :: rest)
  end.

(** The zero [time.Time]. *)
Definition zero_time : Z := 0.

Definition convertBatch (s : Server) (batch : Batch) : result error wireEvent :=
  let! changes := convert_changes (b_changes batch) in
  Ok (WatchResponse_Batch (mkWireBatch (encodeCursor s (b_cursor batch)) changes
        (if decide (b_commitTime batch = zero_time) then None else Some (b_commitTime batch)))).

(** [convertValues] of a snapshot row: text or NULL, and no other type. The
    order Go ranges over the row in only picks which column is reported. *)
Definition convertAny (value : anyValue) : option wireValue :=
  match value with
  | AnyString text => Some (Value_Text text)
  | AnyNil => Some Value_Null
  | AnyOther => None
  end.

Definition convertRow (row : anyRow) : result error wireRow :=
  if decide (map_Forall (λ _ value, convertAny value ≠ None) row)
  then Ok (omap convertAny row)
  else Err (EOther "server: column has unsupported value type").

End Cursors.

(** ** Sending *)

(** Why a send failed: the stream's status, or an error of the server. *)
Inductive sendErr : Type :=
| SendStatus (c : code)
| SendError (e : error).

Section Sending.
Context `{LsnText} `{Proto} {K : Type} `{ServerStream K}.

Definition sendMessage (k : K) (message : streamMessage) : result sendErr K :=
  match stream_send k message with
  | Ok k => Ok k
  | Err c => Err (SendStatus c)
  end.

(** [encodedMessage]. *)
Definition encodedMessage (message : wireEvent) : result error streamMessage :=
  match proto_marshal message with
  | None => Err (EOther "server: encode batch")
  | Some bytes => Ok (MsgEncoded bytes)
  end.

(** [batchMessage]; [memos] is the store of the batches' memos. *)
Definition batchMessage (s : Server) (memos : gmap nat (Memo streamMessage)) (batch : Batch)
    : gmap nat (Memo streamMessage) * result error streamMessage :=
  match b_memo batch with
  | None => (memos, let! converted := convertBatch s batch in Ok (MsgEvent converted))
  | Some m =>
      let '(memo, value, _) :=
        Load (Some (default new_Memo (memos !! m)))
          (λ _, let! converted := convertBatch s batch in encodedMessage converted) in
      (<[m := default new_Memo memo]> memos, value)
  end.

(** [flush] of [sendRows]. *)
Definition flush (k : K) (message : list wireRow) : result sendErr K :=
  if decide (message = []) then Ok k
  else sendMessage k (MsgEvent (WatchResponse_SnapshotRows message)).

(** The loop of [sendRows] with the message being packed; what was sent stays
    sent when it fails. *)
Fixpoint send_rows (s : Server) (k : K) (message : list wireRow) (messageBytes : Z) (rows : list anyRow)
    : K * result sendErr unit :=
  match rows with
  | [] => match flush k message with Ok k => (k, Ok tt) | Err e => (k, Err e) end
  | row :: rest =>
      match convertRow row with
      | Err e => (k, Err (SendError e))
      | Ok converted =>
          let rowBytes := row_size converted in
          if decide (messageBytes + rowBytes > sv_maxRowsMessageBytes s) then
            match flush k message with
            | Err e => (k, Err e)
            | Ok k => send_rows s k [converted] rowBytes rest
            end
          else send_rows s k (message ++ [converted]) (messageBytes + rowBytes) rest
      end
  end.

Definition sendRows (s : Server) (k : K) (rows : list anyRow) : K * result sendErr unit :=
  send_rows s k [] 0 rows.

Definition send_one (k : K) (message : streamMessage) : K * result sendErr unit :=
  match sendMessage k message with Ok k => (k, Ok tt) | Err e => (k, Err e) end.

(** [send]: one watch event as one or more messages. *)
Definition send (s : Server) (memos : gmap nat (Memo streamMessage)) (k : K) (event : Event)
    : gmap nat (Memo streamMessage) * (K * result sendErr unit) :=
  match event with
  | SnapshotBegin => (memos, send_one k (MsgEvent WatchResponse_SnapshotBegin))
  | SnapshotRows rows => (memos, sendRows s k rows)
  | SnapshotEnd => (memos, send_one k (MsgEvent WatchResponse_SnapshotEnd))
  | EvBatch batch =>
      match batchMessage s memos batch with
      | (memos, Err e) => (memos, (k, Err (SendError e)))
      | (memos, Ok message) => (memos, send_one k message)
      end
  | Progress cursor => (memos, send_one k (MsgEvent (WatchResponse_Progress (encodeCursor s cursor))))
  | Resync reason => (memos, send_one k (MsgEvent (WatchResponse_Resync (resyncReasons reason))))
  end.

End Sending.

(** ** Requests and statuses *)

(** What a watch returns to the server: an unknown projection, an error of the
    source, or what sending failed with. *)
Inductive watchResult : Type :=
| WatchUnknownProjection
| WatchError (e : error)
| WatchSend (e : sendErr).

Definition statusOfError (e : error) : code :=
  if errors_is e ErrInvalidCursor then InvalidArgument
  else if errors_is e ErrSourceUnavailable || errors_is e ErrSourceNotStarted || errors_is e ErrSlotInUse
  then Unavailable
  else if errors_is e ErrInvalidReaderConfig || errors_is e ErrInsufficientPrivileges
  then FailedPrecondition
  else Internal.

(** [status]: [None] is a nil error; [ctxErr] is the code of the request's own
    context, when it has ended. *)
Definition status (ctxErr : option code) (err : option watchResult) : option code :=
  match err with
  | None => None
  | Some err =>
      match ctxErr with
      | Some c => Some c
      | None =>
          Some match err with
               | WatchSend (SendStatus c) => c
               | WatchUnknownProjection => NotFound
               | WatchError e => statusOfError e
               | WatchSend (SendError e) => statusOfError e
               end
      end
  end.

(** [Server.Watch]: the request's cursor, decoded before the hub is asked. *)
Definition watch_request `{LsnText} (s : Server) (req : WatchRequest) : result code Request :=
  if decide (wr_resumeCursor req = "") then Ok (mkRequest (wr_projection req) (wr_scope req) "")
  else match decodeCursor s (wr_resumeCursor req) with
       | Err _ => Err InvalidArgument
       | Ok cursor => Ok (mkRequest (wr_projection req) (wr_scope req) (Cursor_String cursor))
       end.

(** ** Lemmas *)

Lemma decodeCursor_encode `{LsnTextLaws} s c :
  contains_char cursorSeparator (sv_sourceID s) = false → sv_sourceID s ≠ "" →
  sourceID c = sv_sourceID s → is_u64 (lsn c) → decodeCursor s (encodeCursor s c) = Ok c.
Proof.
  intros Hs Hne Hc Hl. unfold decodeCursor, encodeCursor. rewrite cut_char_app by done.
  rewrite decide_False by naive_solver. unfold ParseCursor, Cursor_String.
  rewrite decide_False, parse_lsn_string by done. rewrite <-Hc. by destruct c.
Qed.

Lemma decodeCursor_source `{LsnText} s text c : decodeCursor s text = Ok c → sourceID c = sv_sourceID s.
Proof.
  unfold decodeCursor, ParseCursor. intros Hd. by go_cases.
Qed.

(** ** Properties *)

(** Every cursor the server hands out orders, through CompareCursors, as the
    positions it stands for; and a cursor of another source, or one that is
    malformed, is refused and never misread: whatever text decodes, decodes
    to a cursor of this server's source. *)
Lemma CompareCursors_exact `{LsnTextLaws} source max s a b
    (Hs : NewServer source max true = Some s)
    (Ha : sourceID a = source) (Hb : sourceID b = source) (Hla : is_u64 (lsn a)) (Hlb : is_u64 (lsn b)) :
  CompareCursors s (encodeCursor s a) (encodeCursor s b) =
    Ok (match lsn a ?= lsn b with
        | Lt => CURSOR_ORDER_BEFORE | Eq => CURSOR_ORDER_EQUAL | Gt => CURSOR_ORDER_AFTER
        end) ∧
  (∀ text c, decodeCursor s text = Ok c → sourceID c = source) ∧
  (∀ other c, sv_sourceID other ≠ source → contains_char cursorSeparator (sv_sourceID other) = false →
     CompareCursors s (encodeCursor other c) (encodeCursor s b) = Err InvalidArgument).
Proof.
  unfold NewServer in Hs.
  destruct (_ || _) eqn:Hv; [done|]. injection Hs as <-.
  apply orb_false_iff in Hv as [[[Hne Hsep]%orb_false_iff _]%orb_false_iff _].
  apply bool_decide_eq_false in Hne. split; [|split].
  - unfold CompareCursors. rewrite !decodeCursor_encode by done. unfold Compare.
    rewrite decide_False by (rewrite Ha, Hb; naive_solver).
    destruct (Z.compare_spec (lsn a) (lsn b)) as [E|E|E].
    + by rewrite !decide_False by lia.
    + by rewrite decide_True by lia.
    + rewrite decide_False, decide_True by lia. done.
  - intros text c Hd. by apply decodeCursor_source in Hd.
  - intros other c Ho Hsep'. unfold CompareCursors, decodeCursor at 1, encodeCursor at 1.
    rewrite cut_char_app by done. by rewrite decide_True.
Qed.

Section Packing.
Context `{Proto} {K : Type} `{ServerStream K}.

(** Sending messages of rows one after the other. *)
Fixpoint send_all (k : K) (messages : list (list wireRow)) : K * result sendErr unit :=
  match messages with
  | [] => (k, Ok tt)
  | m :: rest =>
      match sendMessage k (MsgEvent (WatchResponse_SnapshotRows m)) with
      | Err e => (k, Err e)
      | Ok k => send_all k rest
      end
  end.

Definition rows_size (rows : list wireRow) : Z := foldr Z.add 0 (row_size <$> rows).

(** A message of packed rows: not empty, and within the limit unless its one
    row alone exceeds it. *)
Definition packed (limit : Z) (m : list wireRow) : Prop :=
  m ≠ [] ∧ (length m = 1%nat ∨ rows_size m ≤ limit).

(** A message is only closed when its next row does not fit. *)
Fixpoint greedy (limit : Z) (messages : list (list wireRow)) : Prop :=
  match messages with
  | m1 :: (m2 :: _) as rest => limit < rows_size m1 + rows_size (take 1 m2) ∧ greedy limit rest
  | _ => True
  end.

Definition converts (rows : list anyRow) (ws : list wireRow) : Prop :=
  Forall2 (λ row w, convertRow row = Ok w) rows ws.

Lemma rows_size_app a b : rows_size (a ++ b) = rows_size a + rows_size b.
Proof. unfold rows_size. rewrite fmap_app. induction (row_size <$> a); simpl; lia. Qed.

Lemma send_rows_packs s k message rows ws :
  packed (sv_maxRowsMessageBytes s) message → converts rows ws →
  ∃ more rest, message ++ ws = concat ((message ++ more) :: rest) ∧
    Forall (packed (sv_maxRowsMessageBytes s)) ((message ++ more) :: rest) ∧
    greedy (sv_maxRowsMessageBytes s) ((message ++ more) :: rest) ∧
    send_rows s k message (rows_size message) rows = send_all k ((message ++ more) :: rest).
Proof.
  intros Hm Hc. revert message k Hm. induction Hc as [|row w rows ws Hw Hc IH]; intros message k Hm.
  - exists [], []. rewrite !app_nil_r. destruct Hm as [Hne Hm].
    split_and!; [by simpl; rewrite app_nil_r|by apply Forall_singleton|done|].
    cbn [send_rows send_all]. unfold flush. rewrite decide_False by done. by destruct (sendMessage _ _).
  - cbn [send_rows]. rewrite Hw. cbv zeta. destruct (decide _) as [Hgt|Hle].
    + destruct Hm as [Hne Hm]. unfold flush. rewrite decide_False by done.
      assert (packed (sv_maxRowsMessageBytes s) [w]) as Hpw by (split; [done|by left]).
      assert (rows_size [w] = row_size w) as Hsw by (unfold rows_size; simpl; lia).
      set (k' := match sendMessage k (MsgEvent (WatchResponse_SnapshotRows message)) with Ok k' => k' | Err _ => k end).
      destruct (IH [w] k' Hpw) as (more & rest & Hcat & Hall & Hgr & Hsend).
      exists [], (([w] ++ more) :: rest). rewrite app_nil_r.
      split_and!; [by simpl in *; rewrite <-Hcat|by constructor| |].
      * split; [|done]. change (take 1 ([w] ++ more)) with [w]. lia.
      * rewrite <-Hsw. cbn [send_all]. subst k'. destruct (sendMessage k _); [|done]. by rewrite Hsend.
    + assert (packed (sv_maxRowsMessageBytes s) (message ++ [w])) as Hpw.
      { split; [by destruct message|]. right. rewrite rows_size_app. unfold rows_size at 2. simpl. lia. }
      destruct (IH (message ++ [w]) k Hpw) as (more & rest & Hcat & Hall & Hgr & Hsend).
      exists (w :: more), rest. rewrite <-(app_assoc message [w] more) in Hcat, Hall, Hgr, Hsend. rewrite <-app_assoc in Hcat.
      split_and!; [exact Hcat|exact Hall|exact Hgr|].
      etrans; [|exact Hsend]. f_equal. rewrite rows_size_app. unfold rows_size at 3. simpl. lia.
Qed.

(** C27 (bounds): a snapshot's rows reach the stream each once and in order, in messages that
    are never empty and never exceed the configured size, except for a single
    row that alone does; and a message is only closed when the next row would
    not fit. *)
Theorem sendRows_packs s k rows ws (Hc : converts rows ws) :
  ∃ messages, concat messages = ws ∧ Forall (packed (sv_maxRowsMessageBytes s)) messages ∧
    greedy (sv_maxRowsMessageBytes s) messages ∧ sendRows s k rows = send_all k messages.
Proof.
  destruct Hc as [|row w rows ws Hw Hc]; [by exists []|].
  unfold sendRows. cbn [send_rows]. rewrite Hw. cbv zeta.
  assert (packed (sv_maxRowsMessageBytes s) [w]) as Hpw by (split; [done|by left]).
  destruct (send_rows_packs s k [w] rows ws Hpw Hc) as (more & rest & Hcat & Hall & Hgr & Hsend).
  exists (([w] ++ more) :: rest). split_and!; [done..|]. rewrite <-Hsend.
  assert (rows_size [w] = row_size w) as -> by (unfold rows_size; simpl; lia).
  by destruct (decide _).
Qed.

End Packing.

(** A stream that takes every message. *)
Definition collect_stream : ServerStream (list streamMessage) := λ k m, Ok (k ++ [m]).

(** ** A concrete server *)

Definition demo_server : Server := mkServer "db" 10 true.

(** A number in binary, and back. *)
Fixpoint bits (p : positive) : string :=
  match p with
  | xH => ""
  | xO p => String "0"%char (bits p)
  | xI p => String "1"%char (bits p)
  end.

Fixpoint of_bits (text : string) : positive :=
  match text with
  | EmptyString => xH
  | String c rest => if decide (c = "1"%char) then xI (of_bits rest) else xO (of_bits rest)
  end.

Lemma of_bits_bits p : of_bits (bits p) = p.
Proof. induction p as [p IH|p IH|]; simpl; by rewrite ?IH. Qed.

(** An encoding of batches, the only messages the server encodes itself, with
    rows as large as their columns. *)
Definition demo_proto : Proto := {|
  proto_marshal e := if e is WatchResponse_Batch b then Some (bits (encode b)) else None;
  proto_unmarshal text := WatchResponse_Batch <$> decode (of_bits text);
  row_size r := 4 * Z.of_nat (size r)
|}.

#[export] Instance demo_proto_laws : @ProtoLaws demo_proto.
Proof. split. intros [] bytes; simpl; try done. intros [= <-]. by rewrite of_bits_bits, decode_encode. Qed.

Definition demo_wire_row (id : string) : anyRow := {["id" := AnyString id; "note" := AnyNil]}.
Definition demo_wire_sent (id : string) : wireRow := {["id" := Value_Text id; "note" := Value_Null]}.

Lemma CompareCursors_exact_witness :
  @CompareCursors hex_lsn_text demo_server
    (@encodeCursor hex_lsn_text demo_server (mkCursor "db" 16))
    (@encodeCursor hex_lsn_text demo_server (mkCursor "db" 32)) = Ok CURSOR_ORDER_BEFORE.
Proof.
  apply (@CompareCursors_exact hex_lsn_text _ "db" 10 (mkServer "db" 10 false)
    (mkCursor "db" 16) (mkCursor "db" 32)); [reflexivity..|by vm_compute|by vm_compute].
Defined.

Lemma sendRows_packs_witness :
  ∃ messages, concat messages = [demo_wire_sent "1"; demo_wire_sent "2"] ∧
    @sendRows demo_proto _ collect_stream demo_server [] [demo_wire_row "1"; demo_wire_row "2"] =
    @send_all _ collect_stream [] messages.
Proof.
  destruct (@sendRows_packs demo_proto _ collect_stream demo_server []
    [demo_wire_row "1"; demo_wire_row "2"] [demo_wire_sent "1"; demo_wire_sent "2"])
    as (messages & Hc & _ & _ & Hs).
  - repeat (apply Forall2_cons_2; [vm_compute; reflexivity|]). apply Forall2_nil_2.
  - exists messages. split; [exact Hc|exact Hs].
Defined.
