(* ===== verification/Store.v ===== *)
(** * The SDK's stores: sdk/go/watchd/store.go and types.go

    The [Store] interface with the contract its comments state, as a typeclass
    of operations and a typeclass of laws, and [MemoryStore], which implements
    it. The syncer is verified against the laws alone. *)

From S2P Require Import Prelude Errors.
From Stdlib Require Import Ascii.
Local Open Scope string_scope.
Local Open Scope list_scope.
Local Open Scope Z_scope.

(** ** Data: types.go *)

Record sdkValue : Type := mkSdkValue { sv_text : string; sv_null : bool; sv_unchanged : bool }.

#[export] Instance sdkValue_eq_dec : EqDecision sdkValue.
Proof. solve_decision. Defined.

Abbreviation Row := (gmap string sdkValue).

Inductive Operation : Type :=
| Insert | Update | Delete
| OperationOther (n : Z).

#[export] Instance Operation_eq_dec : EqDecision Operation.
Proof. solve_decision. Defined.

Record sdkChange : Type := mkSdkChange {
  sc_operation : Operation;
  sc_table : string;
  sc_key : gmap string string;
  sc_values : Row
}.

#[export] Instance sdkChange_eq_dec : EqDecision sdkChange.
Proof. solve_decision. Defined.

(** The zero [CommitTime] is 0. *)
Record sdkBatch : Type := mkSdkBatch {
  sb_cursor : string;
  sb_commitTime : Z;
  sb_changes : list sdkChange
}.

#[export] Instance sdkBatch_eq_dec : EqDecision sdkBatch.
Proof. solve_decision. Defined.

Definition ErrMissingKey : error := EOther "watchd: row is missing a primary-key column".

(** ** The interface *)

(** [Store] on states [S] and [SnapshotWriter] on states [W]. *)
Class Store (S W : Type) : Type := {
  store_Cursor : S → result error string;
  store_BeginSnapshot : S → result error W;
  store_Apply : S → sdkBatch → S * result error unit;
  store_SaveCursor : S → string → S * result error unit;
  writer_Put : W → list Row → W * result error unit;
  writer_Commit : S → W → S * result error unit;
  writer_Abort : W → W
}.

(** The contract: a store holds a projection [P] and a cursor; a snapshot is
    written beside them and replaces both at Commit, in one step; a batch is
    applied with its cursor, and applying batches again changes nothing. A
    failed Apply promises nothing. *)
Class StoreSpec (S W P : Type) `{Store S W} : Type := {
  rows_of : S → P;
  cursor_of : S → string;
  written : W → P;
  empty_rows : P;
  put : P → list Row → P;
  apply_batch : P → sdkBatch → P
}.

Class StoreLaws (S W P : Type) `{StoreSpec S W P} : Prop := {
  law_Cursor s c : store_Cursor s = Ok c → c = cursor_of s;
  law_Begin s w : store_BeginSnapshot s = Ok w → written w = empty_rows;
  law_Put w rows w' : writer_Put w rows = (w', Ok tt) → written w' = put (written w) rows;
  law_Commit s w s' : writer_Commit s w = (s', Ok tt) → rows_of s' = written w ∧ cursor_of s' = "";
  law_Commit_fails s w s' e : writer_Commit s w = (s', Err e) → rows_of s' = rows_of s ∧ cursor_of s' = cursor_of s;
  law_Apply s b s' : store_Apply s b = (s', Ok tt) →
    rows_of s' = apply_batch (rows_of s) b ∧ cursor_of s' = sb_cursor b;
  law_SaveCursor s c s' : store_SaveCursor s c = (s', Ok tt) → rows_of s' = rows_of s ∧ cursor_of s' = c;
  law_SaveCursor_fails s c s' e : store_SaveCursor s c = (s', Err e) →
    rows_of s' = rows_of s ∧ cursor_of s' = cursor_of s;
  law_put_nil p : put p [] = p;
  law_put_app p rows1 rows2 : put p (rows1 ++ rows2) = put (put p rows1) rows2;
  law_Apply_again p bs : foldl apply_batch (foldl apply_batch p bs) bs = foldl apply_batch p bs
}.

(** ** MemoryStore *)

(** The primary key is fixed at construction and never written. *)
Record MemoryStore : Type := mkMemory {
  mem_rows : gmap string Row;
  mem_cursor : string
}.

(** [memorySnapshot]; its store is the one it was begun on. *)
Record memorySnapshot : Type := mkMemorySnapshot { msn_rows : gmap string Row }.

Definition NewMemoryStore : MemoryStore := mkMemory ∅ "".

Definition separator : ascii := "000"%char.

(** A value of a key or of a change [map[string]string]. *)
Fixpoint key_parts (columns : list string) (key : gmap string string) : result error (list string) :=
  match columns with
  | [] => Ok []
  | column :: rest =>
      match key !! column with
      | None => Err (EWrap ErrMissingKey)
      | Some value => let! parts := key_parts rest key in Ok (value :: parts)
      end
  end.

Section Memory.
Context (primaryKey : list string).

Definition keyOf (key : gmap string string) : result error string :=
  let! parts := key_parts primaryKey key in Ok (join_char separator parts).

(** The new row of an insert or update: the values that were sent, and the
    current ones where they were not. *)
Definition merge_value (current : option Row) (column : string) (value : sdkValue) : option sdkValue :=
  if sv_unchanged value then current ≫= (.!! column) else Some value.

Definition merge_row (current : option Row) (values : Row) : Row :=
  map_imap (merge_value current) values.

(** One turn of the loop of [Apply]. *)
Definition apply_change (rows : gmap string Row) (change : sdkChange) : result error (gmap string Row) :=
  let! id := keyOf (sc_key change) in
  match sc_operation change with
  | Delete => Ok (delete id rows)
  | Insert | Update => Ok (<[id := merge_row (rows !! id) (sc_values change)]> rows)
  | OperationOther _ => Err (EOther "watchd: unknown operation")
  end.

(** [Apply]: an error leaves the changes before it applied. *)
Fixpoint apply_changes (rows : gmap string Row) (changes : list sdkChange)
    : gmap string Row * result error unit :=
  match changes with
  | [] => (rows, Ok tt)
  | change :: rest =>
      match apply_change rows change with
      | Err e => (rows, Err e)
      | Ok rows => apply_changes rows rest
      end
  end.

Definition memory_Apply (s : MemoryStore) (batch : sdkBatch) : MemoryStore * result error unit :=
  match apply_changes (mem_rows s) (sb_changes batch) with
  | (rows, Err e) => (mkMemory rows (mem_cursor s), Err e)
  | (rows, Ok _) => (mkMemory rows (sb_cursor batch), Ok tt)
  end.

(** The key of a row of a snapshot. *)
Fixpoint row_key (columns : list string) (row : Row) (key : gmap string string)
    : result error (gmap string string) :=
  match columns with
  | [] => Ok key
  | column :: rest =>
      match row !! column with
      | None => Err (EWrap ErrMissingKey)
      | Some value =>
          if sv_null value || sv_unchanged value then Err (EWrap ErrMissingKey)
          else row_key rest row (<[column := sv_text value]> key)
      end
  end.

Definition row_id (row : Row) : result error string :=
  let! key := row_key primaryKey row ∅ in keyOf key.

Fixpoint memory_Put (w : memorySnapshot) (rows : list Row) : memorySnapshot * result error unit :=
  match rows with
  | [] => (w, Ok tt)
  | row :: rest =>
      match row_id row with
      | Err e => (w, Err e)
      | Ok id => memory_Put (mkMemorySnapshot (<[id := row]> (msn_rows w))) rest
      end
  end.

Definition memory_Commit (s : MemoryStore) (w : memorySnapshot) : MemoryStore * result error unit :=
  (mkMemory (msn_rows w) "", Ok tt).

Definition memory_Abort (w : memorySnapshot) : memorySnapshot := mkMemorySnapshot ∅.

Definition memory_SaveCursor (s : MemoryStore) (cursor : string) : MemoryStore * result error unit :=
  (mkMemory (mem_rows s) cursor, Ok tt).

(** [Get]: a copy of the row with that key. *)
Definition Get (s : MemoryStore) (key : gmap string string) : option Row :=
  match keyOf key with Err _ => None | Ok id => mem_rows s !! id end.

Definition Len (s : MemoryStore) : nat := size (mem_rows s).

Definition memory_store : Store MemoryStore memorySnapshot := {|
  store_Cursor s := Ok (mem_cursor s);
  store_BeginSnapshot _ := Ok (mkMemorySnapshot ∅);
  store_Apply := memory_Apply;
  store_SaveCursor := memory_SaveCursor;
  writer_Put := memory_Put;
  writer_Commit := memory_Commit;
  writer_Abort := memory_Abort
|}.

(** ** What a key's row becomes *)

(** A change's effect on the row of its key, for a change that does not fail. *)
Definition row_effect (change : sdkChange) (current : option Row) : option Row :=
  match sc_operation change with
  | Delete => None
  | Insert | Update => Some (merge_row current (sc_values change))
  | OperationOther _ => current
  end.

(** The changes of one key, on its row. *)
Definition row_effects (id : string) (changes : list sdkChange) (current : option Row) : option Row :=
  foldl (λ r c, row_effect c r) current
    (base.filter (λ c, keyOf (sc_key c) = Ok id) changes).

(** ** Lemmas *)

Lemma merge_row_lookup current values column :
  merge_row current values !! column = values !! column ≫= merge_value current column.
Proof. apply map_lookup_imap. Qed.

(** Two merges in a row are one. *)
Lemma merge_row_merge current v1 v2 :
  merge_row (Some (merge_row current v1)) v2 = merge_row current (merge_row (Some v1) v2).
Proof.
  apply map_eq. intros c. rewrite !merge_row_lookup. destruct (v2 !! c) as [v|]; simpl; [|done].
  unfold merge_value at 1 3. destruct (sv_unchanged v) eqn:Hu; simpl.
  - apply merge_row_lookup.
  - unfold merge_value. by rewrite Hu.
Qed.

Lemma merge_row_again current values :
  merge_row (Some (merge_row current values)) values = merge_row current values.
Proof.
  apply map_eq. intros c. rewrite merge_row_lookup.
  destruct (values !! c) as [v|] eqn:Hv; simpl.
  - unfold merge_value. destruct (sv_unchanged v) eqn:Hu; simpl; [done|].
    rewrite merge_row_lookup, Hv. simpl. unfold merge_value. by rewrite Hu.
  - by rewrite merge_row_lookup, Hv.
Qed.

(** Any number of changes leaves a row as it was, sets it whatever it was, or
    is one merge into it. *)
Lemma row_effects_form changes :
  (∀ r, foldl (λ r c, row_effect c r) r changes = r) ∨
  (∃ k, ∀ r, foldl (λ r c, row_effect c r) r changes = k) ∨
  (∃ values, ∀ r, foldl (λ r c, row_effect c r) r changes = Some (merge_row r values)).
Proof.
  induction changes as [|c changes IH] using rev_ind; [by left|].
  assert (∀ r, foldl (λ r c, row_effect c r) r (changes ++ [c]) =
               row_effect c (foldl (λ r c, row_effect c r) r changes)) as E
    by (intros r; by rewrite foldl_app).
  destruct (sc_operation c) eqn:Hop.
  1,2: assert (∀ r, row_effect c r = Some (merge_row r (sc_values c))) as He
         by (intros r; unfold row_effect; by rewrite Hop);
    right; destruct IH as [IH|[[k IH]|[values IH]]];
    [right; exists (sc_values c); intros r; by rewrite E, IH, He
    |left; exists (Some (merge_row k (sc_values c))); intros r; by rewrite E, IH, He
    |right; exists (merge_row (Some values) (sc_values c)); intros r; by rewrite E, IH, He, merge_row_merge].
  - right; left. exists None. intros r. rewrite E. unfold row_effect. by rewrite Hop.
  - assert (∀ r, row_effect c r = r) as He by (intros r; unfold row_effect; by rewrite Hop).
    destruct IH as [IH|[[k IH]|[values IH]]];
      [left|right; left; exists k|right; right; exists values]; intros r; by rewrite E, He, IH.
Qed.

Lemma row_effects_again id changes r :
  row_effects id changes (row_effects id changes r) = row_effects id changes r.
Proof.
  unfold row_effects.
  destruct (row_effects_form (base.filter (λ c, keyOf (sc_key c) = Ok id) changes)) as [H|[[k H]|[v H]]];
    rewrite !H; [done..|]. by rewrite merge_row_again.
Qed.

(** A change fails or not whatever the rows are. *)
Definition change_ok (c : sdkChange) : bool :=
  match keyOf (sc_key c), sc_operation c with
  | Err _, _ | _, OperationOther _ => false
  | Ok _, _ => true
  end.

(** What a list of changes applies: those before the first that fails. *)
Fixpoint applied (changes : list sdkChange) : list sdkChange :=
  match changes with
  | [] => []
  | c :: rest => if change_ok c then c :: applied rest else []
  end.

Lemma apply_change_spec rows c :
  if change_ok c
  then ∃ rows', apply_change rows c = Ok rows' ∧ ∀ id, rows' !! id = row_effects id [c] (rows !! id)
  else ∃ e, apply_change rows c = Err e.
Proof.
  unfold apply_change, change_ok. destruct (keyOf (sc_key c)) as [id|] eqn:Hk; simpl; [|eauto].
  assert (∀ id', base.filter (λ c, keyOf (sc_key c) = Ok id') [c] = if decide (id = id') then [c] else []) as Hf.
  { intros id'. rewrite filter_cons, Hk, filter_nil.
    destruct (decide (id = id')) as [->|Hne]; [by rewrite decide_True|]. rewrite decide_False; [done|congruence]. }
  destruct (sc_operation c) eqn:Ho; [| | |eauto]; (eexists; split; [done|]); intros id'; unfold row_effects;
    rewrite Hf; destruct (decide (id = id')) as [->|Hne]; simpl; unfold row_effect; rewrite ?Ho;
    by simplify_map_eq.
Qed.

Lemma row_effects_cons id c changes r :
  row_effects id (c :: changes) r = row_effects id changes (row_effects id [c] r).
Proof.
  unfold row_effects. rewrite (filter_cons _ c changes), (filter_cons _ c []).
  by destruct (decide (keyOf (sc_key c) = Ok id)).
Qed.

Lemma row_effects_app id l1 l2 r : row_effects id (l1 ++ l2) r = row_effects id l2 (row_effects id l1 r).
Proof. unfold row_effects. by rewrite filter_app, foldl_app. Qed.

Lemma apply_changes_lookup rows changes id :
  (apply_changes rows changes).1 !! id = row_effects id (applied changes) (rows !! id).
Proof.
  revert rows. induction changes as [|c changes IH]; intros rows; [done|]. simpl.
  pose proof (apply_change_spec rows c) as Hc. destruct (change_ok c).
  - destruct Hc as (rows' & -> & Hl). by rewrite IH, Hl, <-row_effects_cons.
  - by destruct Hc as [e ->].
Qed.

(** The rows after batches: a fold over everything they applied. *)
Definition memory_apply (rows : gmap string Row) (b : sdkBatch) : gmap string Row :=
  (apply_changes rows (sb_changes b)).1.

Definition all_applied (bs : list sdkBatch) : list sdkChange := b ← bs; applied (sb_changes b).

Lemma memory_apply_lookup rows bs id :
  foldl memory_apply rows bs !! id = row_effects id (all_applied bs) (rows !! id).
Proof.
  revert rows. induction bs as [|b bs IH]; intros rows; [done|]. simpl.
  rewrite IH. unfold memory_apply. rewrite apply_changes_lookup. unfold all_applied. csimpl.
  by rewrite row_effects_app.
Qed.

Lemma memory_apply_again rows pre suf :
  foldl memory_apply (foldl memory_apply rows (pre ++ suf)) suf = foldl memory_apply rows (pre ++ suf).
Proof.
  apply map_eq. intros id. rewrite foldl_app, !memory_apply_lookup. apply row_effects_again.
Qed.

(** The rows after putting a snapshot's rows, a row without a key left out. *)
Definition memory_put (written : gmap string Row) (rows : list Row) : gmap string Row :=
  foldl (λ m row, match row_id row with Ok id => <[id := row]> m | Err _ => m end) written rows.

Lemma memory_Put_ok w rows w' :
  memory_Put w rows = (w', Ok tt) → msn_rows w' = memory_put (msn_rows w) rows.
Proof.
  revert w. induction rows as [|row rows IH]; intros w; simpl; [by intros [= <-]|].
  destruct (row_id row) as [id|e]; [|done]. intros ->%IH. done.
Qed.

#[local] Existing Instance memory_store.

Definition memory_spec : StoreSpec MemoryStore memorySnapshot (gmap string Row) := {|
  rows_of := mem_rows;
  cursor_of := mem_cursor;
  written := msn_rows;
  empty_rows := ∅;
  put := memory_put;
  apply_batch := memory_apply
|}.

#[local] Existing Instance memory_spec.

Lemma memory_Apply_ok s b s' :
  memory_Apply s b = (s', Ok tt) → mem_rows s' = memory_apply (mem_rows s) b ∧ mem_cursor s' = sb_cursor b.
Proof.
  unfold memory_Apply, memory_apply. destruct (apply_changes _ _) as [rows [[]|e]]; [|done].
  by intros [= <-].
Qed.

(** [MemoryStore] keeps the contract of [Store]. *)
Lemma memory_laws : StoreLaws MemoryStore memorySnapshot (gmap string Row).
Proof.
  split; simpl.
  - by intros s c [= <-].
  - by intros s w [= <-].
  - apply memory_Put_ok.
  - by intros s w s' [= <-].
  - by intros s w s' e.
  - apply memory_Apply_ok.
  - by intros s c s' [= <-].
  - by intros s c s' e.
  - done.
  - intros p rows1 rows2. apply foldl_app.
  - intros p bs. apply (memory_apply_again p [] bs).
Qed.

(** Whether a batch applies does not depend on the store. *)
Lemma apply_changes_result rows rows' changes :
  (apply_changes rows changes).2 = (apply_changes rows' changes).2.
Proof.
  revert rows rows'. induction changes as [|c changes IH]; intros rows rows'; [done|]. simpl.
  unfold apply_change. destruct (keyOf _); simpl; [|done]. by destruct (sc_operation c).
Qed.

Fixpoint apply_all (s : MemoryStore) (bs : list sdkBatch) : MemoryStore * result error unit :=
  match bs with
  | [] => (s, Ok tt)
  | b :: rest =>
      match memory_Apply s b with
      | (s, Err e) => (s, Err e)
      | (s, Ok _) => apply_all s rest
      end
  end.

Definition batch_ok (b : sdkBatch) : Prop := (apply_changes ∅ (sb_changes b)).2 = Ok tt.

Lemma apply_all_ok s bs s' :
  apply_all s bs = (s', Ok tt) ↔
  Forall batch_ok bs ∧ s' = mkMemory (foldl memory_apply (mem_rows s) bs) (foldl (λ _ b, sb_cursor b) (mem_cursor s) bs).
Proof.
  revert s. induction bs as [|b bs IH]; intros [rows cursor]; simpl.
  { split; [by intros [= <-]|by intros [_ ->]]. }
  rewrite Forall_cons. unfold batch_ok at 1. rewrite (apply_changes_result ∅ rows).
  unfold memory_Apply, memory_apply at 2. simpl.
  destruct (apply_changes rows _) as [rows' [[]|e]]; simpl; [rewrite IH; naive_solver|naive_solver].
Qed.

(** ** Properties *)

(** C25 (functional): after a reconnect the server may replay batches the store already has.
    Applying any final run of the applied batches once more gives exactly
    the same rows and the same cursor, deletes, re-inserts and unchanged
    columns included. *)
Theorem Apply_idempotent s pre suf s' (Hall : apply_all s (pre ++ suf) = (s', Ok tt)) (Hne : suf ≠ []) :
  apply_all s' suf = (s', Ok tt).
Proof.
  apply apply_all_ok in Hall as [Hok ->]. apply apply_all_ok. simpl.
  split; [by apply Forall_app in Hok as [_ ?]|]. rewrite memory_apply_again. f_equal.
  destruct suf as [|b suf _] using rev_ind; [done|]. by rewrite app_assoc, !foldl_app.
Qed.

(** Two rows share a place in the store only when their primary keys are equal:
    joining the key values with NUL is injective, since PostgreSQL text never
    contains one. *)
Lemma keyOf_injective k1 k2 id (H1 : keyOf k1 = Ok id) (H2 : keyOf k2 = Ok id)
    (Hfree : ∀ column value, column ∈ primaryKey → k1 !! column = Some value ∨ k2 !! column = Some value →
             contains_char separator value = false) column (Hcol : column ∈ primaryKey) :
  k1 !! column = k2 !! column.
Proof.
  assert (∀ k columns parts, key_parts columns k = Ok parts →
    Forall2 (λ c p, k !! c = Some p) columns parts) as Hparts.
  { intros k columns. induction columns as [|c cs IH]; intros parts; simpl; [by intros [= <-]|].
    destruct (k !! c) as [v|] eqn:Hv; [|done]. destruct (key_parts cs k); simpl; [|done].
    intros [= <-]. constructor; [done|by apply IH]. }
  unfold keyOf in H1, H2.
  destruct (key_parts primaryKey k1) as [p1|] eqn:E1; [|done].
  destruct (key_parts primaryKey k2) as [p2|] eqn:E2; [|done]. simplify_eq/=.
  apply Hparts in E1, E2.
  assert (∀ (k : gmap string string) p, (∀ c v, c ∈ primaryKey → k !! c = Some v → contains_char separator v = false) →
    Forall2 (λ c p, k !! c = Some p) primaryKey p → Forall (λ p, contains_char separator p = false) p) as Hf.
  { intros k p Hk Hp. apply Forall_lookup_2. intros i v Hv.
    eapply Forall2_lookup_r in Hp as (c & Hc & Hkc); [|done]. eapply Hk, Hkc. by eapply list_elem_of_lookup_2. }
  assert (p1 = p2) as ->.
  { apply (join_char_inj separator); [|by eapply Hf; [|done]; eauto..|done].
    by rewrite <-(Forall2_length _ _ _ E1), <-(Forall2_length _ _ _ E2). }
  apply list_elem_of_lookup_1 in Hcol as [i Hi].
  eapply Forall2_lookup_l in E1 as (v & Hv & ->); [|done].
  eapply Forall2_lookup_l in E2 as (v' & Hv' & ->); [|done]. congruence.
Qed.

End Memory.

(** ** A concrete projection *)

Definition demo_primaryKey : list string := ["shop"; "id"].

Definition demo_text_value (text : string) : sdkValue := mkSdkValue text false false.

Definition demo_sdk_change (op : Operation) (id : string) (note : sdkValue) : sdkChange :=
  mkSdkChange op "public.orders" (<["shop" := "a"]> {["id" := id]})
    (<["shop" := demo_text_value "a"]> (<["id" := demo_text_value id]> {["note" := note]})).

Definition demo_batches : list sdkBatch :=
  [mkSdkBatch "db@1" 1 [demo_sdk_change Insert "1" (demo_text_value "x")];
   mkSdkBatch "db@2" 2 [demo_sdk_change Update "1" (mkSdkValue "" false true); demo_sdk_change Insert "2" (demo_text_value "y")];
   mkSdkBatch "db@3" 3 [demo_sdk_change Delete "2" (demo_text_value "")]].

Lemma Apply_idempotent_witness :
  let s := (apply_all demo_primaryKey NewMemoryStore demo_batches).1 in
  mem_cursor s = "db@3" ∧ Len s = 1%nat ∧
  apply_all demo_primaryKey s (drop 1 demo_batches) = (s, Ok tt).
Proof.
  cbv zeta. split; [vm_compute; reflexivity|]. split; [vm_compute; reflexivity|].
  apply (Apply_idempotent demo_primaryKey NewMemoryStore (take 1 demo_batches) (drop 1 demo_batches)); [|done].
  rewrite take_drop. vm_compute. reflexivity.
Defined.

Lemma keyOf_injective_witness :
  ({["shop" := "a"; "id" := "1"]} : gmap string string) !! "id" = Some "1".
Proof.
  rewrite (keyOf_injective demo_primaryKey {["shop" := "a"; "id" := "1"]}
    {["id" := "1"; "shop" := "a"; "note" := "x"]} (join_char separator ["a"; "1"])); [vm_compute; reflexivity|..].
  - vm_compute. reflexivity.
  - vm_compute. reflexivity.
  - intros column value Hcol Hv. unfold demo_primaryKey in Hcol.
    repeat (apply elem_of_cons in Hcol as [->|Hcol]); [| |by apply elem_of_nil in Hcol];
      destruct Hv as [Hv|Hv]; vm_compute in Hv; injection Hv as <-; vm_compute; reflexivity.
  - apply (bool_decide_unpack _). vm_compute. done.
Defined.

(** A batch whose second change lacks a key column fails, and its first change
    stays applied under the old cursor. *)
Lemma Apply_leaves_partial_batch :
  let b := mkSdkBatch "db@1" 1 [demo_sdk_change Insert "1" (demo_text_value "x");
                                mkSdkChange Insert "public.orders" {["shop" := "a"]} ∅] in
  let '(s, res) := memory_Apply demo_primaryKey NewMemoryStore b in
  res ≠ Ok tt ∧ Len s = 1%nat ∧ mem_cursor s = "".
Proof. vm_compute. split; [discriminate|]. split; reflexivity. Qed.
