(* ===== verification/Client.v ===== *)
(** * The SDK's client: sdk/go/watchd/client.go

    [Sync] keeps a [Store] in step with a server: [stream] applies one Watch
    stream's messages, and the loop around it decides what follows when one
    ends. What the server sends, and whether the contexts have ended, are the
    inputs; the store is any implementation of its interface. Metrics and the
    jitter of the waits are left out. *)

From S2P Require Import Prelude Errors Wire Store.
Local Open Scope string_scope.
Local Open Scope list_scope.
Local Open Scope Z_scope.

(** ** Conversions *)

(** The literal map of operations; a missing key gives the zero value. *)
Definition operations (operation : wireOperation) : Operation :=
  match operation with
  | OPERATION_INSERT => Insert
  | OPERATION_UPDATE => Update
  | OPERATION_DELETE => Delete
  | OPERATION_OTHER _ => OperationOther 0
  end.

Definition convert_value (value : wireValue) : option sdkValue :=
  match value with
  | Value_Text text => Some (mkSdkValue text false false)
  | Value_Null => Some (mkSdkValue "" true false)
  | Value_UnchangedToast => Some (mkSdkValue "" false true)
  | ValueKindUnset => None
  end.

Definition convertValues (values : gmap string wireValue) : Row := omap convert_value values.

Definition convert_change (change : wireChange) : sdkChange :=
  mkSdkChange (operations (wc_operation change)) (wc_table change) (wc_key change)
    (convertValues (wc_values change)).

Definition convertBatch (batch : wireBatch) : sdkBatch :=
  mkSdkBatch (wb_cursor batch) (default 0 (wb_commitTime batch)) (convert_change <$> wb_changes batch).

(** ** State *)

Record State : Type := mkState { st_fresh : bool; st_cursor : string }.

#[export] Instance State_eq_dec : EqDecision State.
Proof. solve_decision. Defined.

(** [syncer], with its store and the states [OnState] was called with. *)
Record syncer (S : Type) : Type := mkSyncer {
  sy_store : S;
  sy_state : State;
  sy_reported : bool;
  sy_progressed : bool;
  sy_reports : list State
}.
Arguments mkSyncer {S}.
Arguments sy_store {S}.
Arguments sy_state {S}.
Arguments sy_reported {S}.
Arguments sy_progressed {S}.
Arguments sy_reports {S}.

(** How a stream ends: the server asks for a resync, the store fails, the
    stream fails with a status, or the client refuses what it received. *)
Inductive syncErr : Type :=
| SyncResync
| SyncStore (e : error)
| SyncStatus (c : code)
| SyncOther (text : string).

(** What [stream.Recv] returns. *)
Inductive recv : Type :=
| RecvEvent (event : wireEvent)
| RecvEOF
| RecvErr (c : code).

Record SyncConfig : Type := mkSyncConfig {
  cf_projection : string;
  cf_scope : string;
  cf_minBackoff : Z;
  cf_maxBackoff : Z
}.

Section Client.
Context {S W : Type} `{Store S W}.

Definition set_store (sy : syncer S) (s : S) : syncer S :=
  mkSyncer s (sy_state sy) (sy_reported sy) (sy_progressed sy) (sy_reports sy).

Definition set_progressed (sy : syncer S) (progressed : bool) : syncer S :=
  mkSyncer (sy_store sy) (sy_state sy) (sy_reported sy) progressed (sy_reports sy).

(** [setState]. *)
Definition setState (sy : syncer S) (fresh : bool) (cursor : string) : syncer S :=
  let next := mkState fresh cursor in
  if sy_reported sy && bool_decide (next = sy_state sy) then sy
  else mkSyncer (sy_store sy) next true (sy_progressed sy) (sy_reports sy ++ [next]).

(** One turn of [stream]'s loop on a received event; an error ends it. *)
Definition stream_event (sy : syncer S) (writer : option W) (event : wireEvent)
    : syncer S * option W * option syncErr :=
  match event with
  | WatchResponse_SnapshotBegin =>
      let sy := setState sy false "" in
      match store_BeginSnapshot (sy_store sy) with
      | Err e => (sy, None, Some (SyncStore e))
      | Ok w => (sy, Some w, None)
      end
  | WatchResponse_SnapshotRows rows =>
      match writer with
      | None => (sy, writer, Some (SyncOther "watchd: snapshot rows outside a snapshot"))
      | Some w =>
          match writer_Put w (convertValues <$> rows) with
          | (w, Err e) => (sy, Some w, Some (SyncStore e))
          | (w, Ok _) => (sy, Some w, None)
          end
      end
  | WatchResponse_SnapshotEnd =>
      match writer with
      | None => (sy, writer, Some (SyncOther "watchd: snapshot end outside a snapshot"))
      | Some w =>
          match writer_Commit (sy_store sy) w with
          | (s, Err e) => (set_store sy s, None, Some (SyncStore e))
          | (s, Ok _) => (set_store sy s, None, None)
          end
      end
  | WatchResponse_Batch batch =>
      match writer with
      | Some _ => (sy, writer, Some (SyncOther "watchd: batch inside a snapshot"))
      | None =>
          match store_Apply (sy_store sy) (convertBatch batch) with
          | (s, Err e) => (set_store sy s, writer, Some (SyncStore e))
          | (s, Ok _) => (set_store sy s, writer, None)
          end
      end
  | WatchResponse_Progress cursor =>
      match writer with
      | Some _ => (sy, writer, Some (SyncOther "watchd: progress inside a snapshot"))
      | None =>
          match store_SaveCursor (sy_store sy) cursor with
          | (s, Err e) => (set_store sy s, writer, Some (SyncStore e))
          | (s, Ok _) => (setState (set_progressed (set_store sy s) true) true cursor, writer, None)
          end
      end
  | WatchResponse_Resync _ => (sy, writer, Some SyncResync)
  | WatchResponse_Unset => (sy, writer, Some (SyncOther "watchd: unknown server event"))
  end.

(** The loop of [stream]; no error is still running. *)
Fixpoint stream_loop (sy : syncer S) (writer : option W) (inputs : list recv)
    : syncer S * option W * option syncErr :=
  match inputs with
  | [] => (sy, writer, None)
  | RecvEOF :: _ => (sy, writer, Some (SyncOther "watchd: server ended the stream"))
  | RecvErr c :: _ => (sy, writer, Some (SyncStatus c))
  | RecvEvent event :: rest =>
      match stream_event sy writer event with
      | (sy, writer, Some e) => (sy, writer, Some e)
      | (sy, writer, None) => stream_loop sy writer rest
      end
  end.

(** [stream]: the request it opens, and how it ends. Its deferred Abort only
    discards the writer. *)
Definition stream (cfg : SyncConfig) (sy : syncer S) (snapshot : bool) (open : option code)
    (inputs : list recv) : syncer S * option WatchRequest * option syncErr :=
  let sy := set_progressed sy false in
  let cursor := if snapshot then Ok "" else store_Cursor (sy_store sy) in
  match cursor with
  | Err e => (sy, None, Some (SyncStore e))
  | Ok cursor =>
      let request := mkWatchRequest (cf_projection cfg) (cf_scope cfg) cursor in
      match open with
      | Some c => (sy, Some request, Some (SyncStatus c))
      | None =>
          let '(sy, _, err) := stream_loop sy None inputs in
          (sy, Some request, err)
      end
  end.

(** ** The loop of Sync *)

Definition status_code (err : syncErr) : code :=
  match err with SyncStatus c => c | _ => Unknown end.

Definition isPermanent (err : syncErr) : bool :=
  match status_code err with
  | NotFound | InvalidArgument | FailedPrecondition | PermissionDenied | Unauthenticated | Unimplemented => true
  | _ => false
  end.

Definition defaultMinBackoff : Z := 100 * 1000000.
Definition defaultMaxBackoff : Z := 5 * 1000000000.

(** [Sync]'s checks and defaults: [None] is its error. *)
Definition sync_config (cfg : SyncConfig) (store : bool) : option SyncConfig :=
  if decide (cf_projection cfg = "" ∨ store = false) then None
  else
    let minBackoff := if decide (cf_minBackoff cfg ≤ 0) then defaultMinBackoff else cf_minBackoff cfg in
    let maxBackoff := if decide (cf_maxBackoff cfg < minBackoff) then Z.max defaultMaxBackoff minBackoff
                      else cf_maxBackoff cfg in
    Some (mkSyncConfig (cf_projection cfg) (cf_scope cfg) minBackoff maxBackoff).

(** The variables of the loop. *)
Record sync_vars : Type := mkSyncVars {
  sn_snapshot : bool;
  sn_resyncs : Z;
  sn_backoff : Z
}.

(** What one turn of the loop meets: how opening the stream fails, what it
    receives, and whether [ctx] has ended after it and during the wait. *)
Record sync_input : Type := mkSyncInput {
  si_open : option code;
  si_inputs : list recv;
  si_ctxDone : bool;
  si_waitDone : bool
}.

Inductive sync_result : Type :=
| SyncRunning
| SyncContinues (vars : sync_vars)
| SyncReturns (err : option syncErr).

(** The [switch] on the stream's error: the next [snapshot], [resyncs] and
    [retryNow], or the error [Sync] returns. *)
Definition sync_switch (v : sync_vars) (err : syncErr) : option (bool * Z * bool) :=
  match err with
  | SyncResync => Some (true, wrap_i64 (sn_resyncs v + 1), bool_decide (wrap_i64 (sn_resyncs v + 1) = 1))
  | SyncStore _ => None
  | _ =>
      if decide (status_code err = InvalidArgument ∧ sn_snapshot v = false)
      then Some (true, sn_resyncs v, true)
      else if isPermanent err then None
      else Some (false, sn_resyncs v, false)
  end.

(** One turn of [Sync]'s loop. *)
Definition sync_turn (cfg : SyncConfig) (sy : syncer S) (v : sync_vars) (i : sync_input)
    : syncer S * option WatchRequest * sync_result :=
  match stream cfg sy (sn_snapshot v) (si_open i) (si_inputs i) with
  | (sy, request, None) => (sy, request, SyncRunning)
  | (sy, request, Some err) =>
      let sy := setState sy false (st_cursor (sy_state sy)) in
      if si_ctxDone i then (sy, request, SyncReturns None)
      else
        match sync_switch v err with
        | None => (sy, request, SyncReturns (Some err))
        | Some (snapshot, resyncs, retryNow) =>
            let backoff := if sy_progressed sy then cf_minBackoff cfg else sn_backoff v in
            let resyncs := if sy_progressed sy then (match err with SyncResync => 1 | _ => 0 end) else resyncs in
            if (retryNow : bool) then (sy, request, SyncContinues (mkSyncVars snapshot resyncs backoff))
            else if si_waitDone i then (sy, request, SyncReturns None)
            else (sy, request,
                  SyncContinues (mkSyncVars snapshot resyncs
                    (Z.min (wrap_i64 (backoff * 2)) (cf_maxBackoff cfg))))
        end
  end.

(** The loop: the requests it made, and what it returns; [None] is running. *)
Fixpoint sync_loop (cfg : SyncConfig) (sy : syncer S) (v : sync_vars) (inputs : list sync_input)
    : syncer S * sync_vars * list WatchRequest * option (option syncErr) :=
  match inputs with
  | [] => (sy, v, [], None)
  | i :: rest =>
      match sync_turn cfg sy v i with
      | (sy, request, SyncRunning) => (sy, v, option_list request, None)
      | (sy, request, SyncReturns err) => (sy, v, option_list request, Some err)
      | (sy, request, SyncContinues v) =>
          let '(sy, v, requests, out) := sync_loop cfg sy v rest in
          (sy, v, option_list request ++ requests, out)
      end
  end.

Definition new_syncer (s : S) : syncer S := mkSyncer s (mkState false "") false false [].

Definition Sync (cfg : SyncConfig) (s : S) (inputs : list sync_input)
    : syncer S * sync_vars * list WatchRequest * option (option syncErr) :=
  sync_loop cfg (new_syncer s) (mkSyncVars false 0 (cf_minBackoff cfg)) inputs.

End Client.

(** [Client.CompareCursors], from the server's answer. *)
Definition client_order (response : result code CursorOrder) : result syncErr Z :=
  match response with
  | Err c => Err (SyncStatus c)
  | Ok CURSOR_ORDER_BEFORE => Ok (-1)
  | Ok CURSOR_ORDER_EQUAL => Ok 0
  | Ok CURSOR_ORDER_AFTER => Ok 1
  | Ok CURSOR_ORDER_UNSPECIFIED => Err (SyncOther "watchd: unknown cursor order")
  end.
