(* ===== verification/ClientProps.v ===== *)
(** * The client keeps a faithful, truthful projection

    An abstract [replica] that applies a stream's events without failing, and
    the proof that [stream] implements it over any store that keeps its
    contract; what [Sync] reports as fresh; and when it returns. *)

From S2P Require Import Prelude Errors Wire Store Client.
Local Open Scope string_scope.
Local Open Scope list_scope.
Local Open Scope Z_scope.

(** ** The abstract replica *)

(** The projection, its resume cursor, and the snapshot being received. *)
Record replica (P : Type) : Type := mkReplica {
  rp_rows : P;
  rp_cursor : string;
  rp_building : option P
}.
Arguments mkReplica {P}.
Arguments rp_rows {P}.
Arguments rp_cursor {P}.
Arguments rp_building {P}.

Section Replica.
Context {S W P : Type} `{StoreSpec S W P}.

(** A snapshot is built beside the projection and replaces it at its end; a
    batch and a progress need the projection not to be replaced. *)
Definition replica_event (r : replica P) (event : wireEvent) : option (replica P) :=
  match event, rp_building r with
  | WatchResponse_SnapshotBegin, _ => Some (mkReplica (rp_rows r) (rp_cursor r) (Some empty_rows))
  | WatchResponse_SnapshotRows rows, Some b =>
      Some (mkReplica (rp_rows r) (rp_cursor r) (Some (put b (convertValues <$> rows))))
  | WatchResponse_SnapshotEnd, Some b => Some (mkReplica b "" None)
  | WatchResponse_Batch batch, None =>
      Some (mkReplica (apply_batch (rp_rows r) (convertBatch batch)) (wb_cursor batch) None)
  | WatchResponse_Progress cursor, None => Some (mkReplica (rp_rows r) cursor None)
  | _, _ => None
  end.

Fixpoint replica_run (r : replica P) (events : list wireEvent) : option (replica P) :=
  match events with
  | [] => Some r
  | event :: rest => r' ← replica_event r event; replica_run r' rest
  end.

(** The events that change the rows. *)
Definition changes_rows (event : wireEvent) : Prop :=
  match event with WatchResponse_SnapshotEnd | WatchResponse_Batch _ => True | _ => False end.

Lemma replica_run_rows r events r' :
  replica_run r events = Some r' → Forall (λ e, ¬ changes_rows e) events → rp_rows r' = rp_rows r.
Proof.
  revert r. induction events as [|e events IH]; intros r Hr Hall; [by injection Hr as <-|].
  apply Forall_cons in Hall as [He Hall]. simpl in Hr.
  destruct (replica_event r e) as [r1|] eqn:E; simpl in Hr; [|done].
  rewrite (IH r1) by done. destruct e, (rp_building r) eqn:Hb; simpl in *; rewrite ?Hb in E;
    unfold replica_event in E; rewrite ?Hb in E; by simplify_eq/=.
Qed.

(** What the client shows: the last confirmation, unless a snapshot began
    after it. *)
Definition confirmation (event : wireEvent) : option State :=
  match event with
  | WatchResponse_Progress cursor => Some (mkState true cursor)
  | WatchResponse_SnapshotBegin => Some (mkState false "")
  | _ => None
  end.

Definition shown (before : State) (events : list wireEvent) : State :=
  default before (last (omap confirmation events)).

End Replica.

(** ** The syncer implements it *)

Section Stream.
Context {S W P : Type} `{StoreLaws S W P}.

Definition tracks (sy : syncer S) (writer : option W) (r : replica P) : Prop :=
  rows_of (sy_store sy) = rp_rows r ∧ cursor_of (sy_store sy) = rp_cursor r ∧ written <$> writer = rp_building r.

Lemma setState_store (sy : syncer S) fresh cursor : sy_store (setState sy fresh cursor) = sy_store sy.
Proof. unfold setState. by destruct (_ && _). Qed.

Lemma setState_progressed (sy : syncer S) fresh cursor : sy_progressed (setState sy fresh cursor) = sy_progressed sy.
Proof. unfold setState. by destruct (_ && _). Qed.

Lemma setState_state (sy : syncer S) fresh cursor :
  sy_state (setState sy fresh cursor) = mkState fresh cursor ∧ sy_reported (setState sy fresh cursor) = true.
Proof.
  unfold setState. destruct (sy_reported sy) eqn:Hr; simpl; [|done].
  by destruct (bool_decide_reflect (mkState fresh cursor = sy_state sy)) as [->|].
Qed.

(** One event: accepted by both, or the stream ends with the store as it was,
    an Apply that fails apart. *)
Lemma stream_event_tracks sy writer r event :
  tracks sy writer r →
  match stream_event sy writer event with
  | (sy', writer', None) => ∃ r', replica_event r event = Some r' ∧ tracks sy' writer' r'
  | (sy', _, Some e) =>
      (∃ err batch, e = SyncStore err ∧ event = WatchResponse_Batch batch) ∨
      rows_of (sy_store sy') = rp_rows r ∧ cursor_of (sy_store sy') = rp_cursor r
  end.
Proof.
  intros (Hrows & Hcur & Hw). unfold replica_event. rewrite <-Hw. destruct event; simpl.
  - by right.
  - destruct (store_BeginSnapshot _) as [w|] eqn:Hb; [|right; by rewrite setState_store].
    eexists. split; [done|]. unfold tracks. rewrite setState_store in *. simpl.
    split_and!; [done..|]. by rewrite (law_Begin _ w Hb).
  - destruct writer as [w|]; simpl; [|by right].
    destruct (writer_Put w _) as [w' [[]|]] eqn:Hp; [|by right].
    eexists. split; [done|]. split_and!; [done..|]. simpl. by rewrite (law_Put _ _ _ Hp).
  - destruct writer as [w|]; simpl; [|by right].
    destruct (writer_Commit _ w) as [s' [[]|]] eqn:Hc.
    + apply law_Commit in Hc as [Hc1 Hc2]. eexists. split; [done|]. by split_and!.
    + apply law_Commit_fails in Hc as [Hc1 Hc2]. right. simpl. by rewrite Hc1, Hc2.
  - destruct writer as [w|]; simpl; [by right|].
    destruct (store_Apply _ _) as [s' [[]|]] eqn:Ha; [|left; eauto].
    apply law_Apply in Ha as [Ha1 Ha2]. eexists. split; [done|]. split_and!; simpl; [|done..].
    by rewrite Ha1, Hrows.
  - destruct writer as [w|]; simpl; [by right|].
    destruct (store_SaveCursor _ _) as [s' [[]|]] eqn:Hs.
    + apply law_SaveCursor in Hs as [Hs1 Hs2]. eexists. split; [done|].
      unfold tracks. rewrite setState_store. simpl. split_and!; [by rewrite Hs1|done..].
    + apply law_SaveCursor_fails in Hs as [Hs1 Hs2]. right. simpl. by rewrite Hs1, Hs2.
  - by right.
Qed.

(** The consumed events of a stream, and the store when it ends. *)
Lemma stream_loop_tracks sy writer r inputs sy' writer' err :
  tracks sy writer r → stream_loop sy writer inputs = (sy', writer', err) →
  ∃ events rest r', inputs = (RecvEvent <$> events) ++ rest ∧ replica_run r events = Some r' ∧
    (err = None → rest = [] ∧ tracks sy' writer' r') ∧
    ((∃ e batch rest', err = Some (SyncStore e) ∧ rest = RecvEvent (WatchResponse_Batch batch) :: rest') ∨
     rows_of (sy_store sy') = rp_rows r' ∧ cursor_of (sy_store sy') = rp_cursor r').
Proof.
  revert sy writer r. induction inputs as [|i inputs IH]; intros sy writer r Hr Hl; simpl in Hl.
  { injection Hl as <- <- <-. exists [], [], r. split_and!; [done..|]. right. split; apply Hr. }
  assert (∀ e, err = Some e → (sy, writer) = (sy', writer') →
    ∃ events rest r', i :: inputs = (RecvEvent <$> events) ++ rest ∧ replica_run r events = Some r' ∧
      (err = None → rest = [] ∧ tracks sy' writer' r') ∧
      ((∃ e batch rest', err = Some (SyncStore e) ∧ rest = RecvEvent (WatchResponse_Batch batch) :: rest') ∨
       rows_of (sy_store sy') = rp_rows r' ∧ cursor_of (sy_store sy') = rp_cursor r')) as Hend.
  { intros e -> [= <- <-]. exists [], (i :: inputs), r. split_and!; [done..|]. right. split; apply Hr. }
  destruct i as [event| |c]; [|injection Hl as <- <- <-; by eapply Hend..].
  pose proof (stream_event_tracks sy writer r event Hr) as He.
  destruct (stream_event sy writer event) as [[sy1 w1] [e|]].
  - injection Hl as <- <- <-. exists [], (RecvEvent event :: inputs), r. split_and!; [done..|].
    destruct He as [(x & b & -> & ->)|He]; [left; eauto|by right].
  - destruct He as (r1 & Hr1 & Ht). destruct (IH sy1 w1 r1 Ht Hl) as (events & rest & r' & -> & Hrun & H3 & H4).
    exists (event :: events), rest, r'. split_and!; [done| |done|done]. simpl. by rewrite Hr1.
Qed.

(** A stream ends before its loop, with the store untouched, or in it. *)
Lemma stream_cases cfg sy snapshot open inputs sy' request err :
  stream cfg sy snapshot open inputs = (sy', request, err) →
  (∀ req, request = Some req → wr_resumeCursor req = if snapshot then "" else cursor_of (sy_store sy)) ∧
  ((∃ e, err = Some e ∧ sy' = set_progressed sy false) ∨
   ∃ writer', stream_loop (set_progressed sy false) None inputs = (sy', writer', err)).
Proof.
  unfold stream. intros Hs. simpl in Hs.
  destruct (if snapshot then Ok "" else store_Cursor (sy_store sy)) as [cursor|] eqn:Hc.
  2:{ injection Hs as <- <- <-. split; [done|left; eauto]. }
  assert (cursor = if snapshot then "" else cursor_of (sy_store sy)) as ->.
  { destruct snapshot; [by injection Hc as <-|by apply law_Cursor in Hc]. }
  destruct open as [c|].
  { injection Hs as <- <- <-. split; [by intros req [= <-]|left; eauto]. }
  destruct (stream_loop _ None inputs) as [[sy1 w1] err1] eqn:Hl. injection Hs as <- <- <-.
  split; [by intros req [= <-]|right; eauto].
Qed.

(** C9 (refinement): whatever a server sends, a stream applies it as the abstract replica does,
    up to the message that ends it: a snapshot is built beside the projection
    and replaces it, with its cursor, in one step at its end, and nothing
    else but a batch changes a row. An unfinished snapshot leaves no trace,
    and no failure, Apply's apart, leaves anything but the replica's state.
    The stream asks to resume exactly at the stored cursor, unless a snapshot
    is forced. *)
Theorem stream_refines cfg sy snapshot open inputs sy' request err
    (Hs : stream cfg sy snapshot open inputs = (sy', request, err)) :
  ∃ events rest r, inputs = (RecvEvent <$> events) ++ rest ∧
    replica_run (mkReplica (rows_of (sy_store sy)) (cursor_of (sy_store sy)) None) events = Some r ∧
    (err = None → rest = []) ∧
    ((∃ e batch rest', err = Some (SyncStore e) ∧ rest = RecvEvent (WatchResponse_Batch batch) :: rest') ∨
     rows_of (sy_store sy') = rp_rows r ∧ cursor_of (sy_store sy') = rp_cursor r) ∧
    (Forall (λ e, ¬ changes_rows e) events → rp_rows r = rows_of (sy_store sy)) ∧
    (∀ req, request = Some req →
       wr_resumeCursor req = if snapshot then "" else cursor_of (sy_store sy)).
Proof.
  apply stream_cases in Hs as [Hreq [(e & -> & ->)|[w' Hl]]].
  - eexists [], inputs, _. split_and!; try done. by right.
  - apply (stream_loop_tracks _ _ (mkReplica (rows_of (sy_store sy)) (cursor_of (sy_store sy)) None)) in Hl
      as (events & rest & r & -> & Hrun & H3 & H4); [|done].
    exists events, rest, r. split_and!; [done|done| |done| |done].
    + intros Hn. by apply H3.
    + intros Hall. by apply (replica_run_rows (mkReplica (rows_of (sy_store sy)) (cursor_of (sy_store sy)) None) events).
Qed.

(** ** What a stream makes of given messages *)

(** The events after which the store is another. *)
Definition stores (event : wireEvent) : Prop :=
  match event with
  | WatchResponse_SnapshotEnd | WatchResponse_Batch _ | WatchResponse_Progress _ => True
  | _ => False
  end.

(** What a stream receives changes nothing in the store. *)
Definition keeps (inputs : list recv) : Prop := ∀ event, RecvEvent event ∈ inputs → ¬ stores event.

(** An event the replica accepts is refused by the store alone. *)
Lemma stream_event_accepts sy writer r event r' :
  tracks sy writer r → replica_event r event = Some r' →
  match stream_event sy writer event with
  | (sy', writer', None) => tracks sy' writer' r'
  | (_, _, Some e) => ∃ err, e = SyncStore err
  end.
Proof.
  intros Ht Hr. pose proof (stream_event_tracks sy writer r event Ht) as Hev.
  destruct (stream_event sy writer event) as [[sy' writer'] [e|]] eqn:Hs.
  2:{ destruct Hev as (r1 & Hr1 & ?). by rewrite Hr in Hr1; injection Hr1 as ->. }
  clear Hev. destruct Ht as (_ & _ & Hw). unfold replica_event in Hr. rewrite <-Hw in Hr.
  destruct event, writer as [w|]; simplify_eq/=; try (by repeat case_match; simplify_eq/=; eauto).
Qed.

(** Accepted messages are applied, then the stream goes on with the rest. *)
Lemma stream_loop_accepts sy writer r events tail r' sy' writer' err :
  tracks sy writer r → replica_run r events = Some r' →
  stream_loop sy writer ((RecvEvent <$> events) ++ tail) = (sy', writer', err) →
  (∃ e, err = Some (SyncStore e)) ∨
  ∃ sy1 writer1, tracks sy1 writer1 r' ∧ stream_loop sy1 writer1 tail = (sy', writer', err).
Proof.
  revert sy writer r. induction events as [|event events IH]; intros sy writer r Ht Hr Hl.
  { injection Hr as ->. right. eauto. }
  cbn [replica_run] in Hr. destruct (replica_event r event) as [r1|] eqn:He; [|done]. simpl in Hr.
  rewrite fmap_cons in Hl. cbn [app stream_loop] in Hl.
  pose proof (stream_event_accepts sy writer r event r1 Ht He) as Hev.
  destruct (stream_event sy writer event) as [[sy1 w1] [e|]].
  - destruct Hev as [x ->]. injection Hl as <- <- <-. left. eauto.
  - by eapply IH.
Qed.

Lemma stream_event_keeps sy writer event sy' writer' err :
  ¬ stores event → stream_event sy writer event = (sy', writer', err) → sy_store sy' = sy_store sy.
Proof.
  intros Hk He. destruct event; simpl in *; try (by destruct Hk); try (by simplify_eq).
  - destruct (store_BeginSnapshot _); simplify_eq; apply setState_store.
  - destruct writer as [w|]; [|by simplify_eq]. by destruct (writer_Put _ _) as [? []]; simplify_eq.
Qed.

Lemma stream_loop_keeps sy writer inputs sy' writer' err :
  keeps inputs → stream_loop sy writer inputs = (sy', writer', err) → sy_store sy' = sy_store sy.
Proof.
  revert sy writer. induction inputs as [|i inputs IH]; intros sy writer Hk Hl; simpl in Hl; [by simplify_eq|].
  destruct i as [event| |c]; [|by simplify_eq..].
  destruct (stream_event sy writer event) as [[sy1 w1] e] eqn:He.
  apply stream_event_keeps in He as Hs; [|apply Hk; by left].
  destruct e; [by simplify_eq|]. rewrite <-Hs. eapply IH; [|done]. intros e He'. apply Hk. by right.
Qed.

(** A stream that receives what the replica accepts, and then nothing that
    reaches the store: unless the store fails, it holds what the replica does,
    and without more to receive the stream still runs. *)
Lemma stream_applies cfg sy snapshot events tail r sy' request err :
  replica_run (mkReplica (rows_of (sy_store sy)) (cursor_of (sy_store sy)) None) events = Some r →
  keeps tail → stream cfg sy snapshot None ((RecvEvent <$> events) ++ tail) = (sy', request, err) →
  (∃ e, err = Some (SyncStore e)) ∨
  rows_of (sy_store sy') = rp_rows r ∧ cursor_of (sy_store sy') = rp_cursor r ∧ (tail = [] → err = None).
Proof.
  intros Hr Hk Hs. unfold stream in Hs. simpl in Hs.
  destruct (if snapshot then _ else _) as [cursor|]; [|injection Hs as <- <- <-; left; eauto].
  destruct (stream_loop _ None _) as [[sy1 w1] err1] eqn:Hl. injection Hs as <- <- <-.
  apply (stream_loop_accepts _ _ (mkReplica (rows_of (sy_store sy)) (cursor_of (sy_store sy)) None) _ _ r) in Hl
    as [Hl|(sy2 & w2 & (Hrows & Hcur & _) & Hl)]; [by left| |done|done].
  right. apply stream_loop_keeps in Hl as Hst; [|done]. rewrite Hst. split_and!; [done..|].
  intros ->. simpl in Hl. by simplify_eq.
Qed.

(** A stream that was not opened, or received nothing for the store. *)
Lemma stream_unchanged cfg sy snapshot open inputs sy' request err :
  open ≠ None ∨ keeps inputs → stream cfg sy snapshot open inputs = (sy', request, err) →
  sy_store sy' = sy_store sy.
Proof.
  intros Hk Hs. unfold stream in Hs. simpl in Hs.
  destruct (if snapshot then _ else _) as [cursor|]; [|by simplify_eq/=].
  destruct open as [c|]; [by simplify_eq/=|]. destruct Hk as [|Hk]; [done|].
  destruct (stream_loop _ None _) as [[sy1 w1] err1] eqn:Hl. simplify_eq.
  by apply stream_loop_keeps in Hl.
Qed.

(** A turn of Sync's loop that does not return keeps what its stream left in
    the store, which has not failed. *)
Lemma sync_turn_stream cfg (sy : syncer S) v i sy' request out :
  sync_turn cfg sy v i = (sy', request, out) →
  ∃ sy1 err, stream cfg sy (sn_snapshot v) (si_open i) (si_inputs i) = (sy1, request, err) ∧
    sy_store sy' = sy_store sy1 ∧ ((∀ e, out ≠ SyncReturns e) → ∀ e, err ≠ Some (SyncStore e)).
Proof.
  unfold sync_turn. intros Ht. destruct (stream cfg sy _ _ _) as [[sy1 req] err] eqn:Hs.
  exists sy1, err. destruct err as [err|]; [|by simplify_eq].
  destruct (si_ctxDone i).
  { simplify_eq. rewrite setState_store. split_and!; [done..|]. intros Hno. by destruct (Hno None). }
  destruct (sync_switch v err) as [[[snapshot resyncs] retry]|] eqn:Hsw.
  2:{ simplify_eq. rewrite setState_store. split_and!; [done..|]. intros Hno. by destruct (Hno (Some err)). }
  assert (∀ e, Some err ≠ Some (SyncStore e)) as Hne by (by intros e [= ->]).
  destruct retry; [|destruct (si_waitDone i)]; simplify_eq; by rewrite setState_store.
Qed.

End Stream.

(** ** What Sync reports *)

Section Reports.
Context {S W : Type} `{Store S W}.

(** Each report differs from the one before it. *)
Definition no_stutter (reports : list State) : Prop :=
  ∀ i a b, reports !! i = Some a → reports !! Datatypes.S i = Some b → a ≠ b.

Record reports_ok (sy : syncer S) : Prop := {
  ro_last : last (sy_reports sy) = if sy_reported sy then Some (sy_state sy) else None;
  ro_stutter : no_stutter (sy_reports sy)
}.

Lemma no_stutter_snoc reports a : no_stutter reports → last reports ≠ Some a → no_stutter (reports ++ [a]).
Proof.
  intros Hr Hl i x y Hx Hy. apply lookup_app_Some in Hy as [Hy|[Hge Hy]].
  - rewrite lookup_app_l in Hx; [by eapply Hr|]. apply lookup_lt_Some in Hy. lia.
  - apply list_lookup_singleton_Some in Hy as [Hi <-]. rewrite lookup_app_l in Hx by lia.
    rewrite last_lookup in Hl. assert (i = pred (length reports)) as -> by lia. naive_solver.
Qed.

Lemma setState_reports (sy : syncer S) fresh cursor :
  reports_ok sy → reports_ok (setState sy fresh cursor) ∧
  (sy_reports (setState sy fresh cursor) = sy_reports sy ∨
   sy_reports (setState sy fresh cursor) = sy_reports sy ++ [mkState fresh cursor]).
Proof.
  intros [Hl Hs]. unfold setState.
  destruct (sy_reported sy && bool_decide (mkState fresh cursor = sy_state sy)) eqn:Hc; [by split; [split|left]|].
  split; [|by right]. split; simpl; [by rewrite last_snoc|]. apply no_stutter_snoc; [done|].
  rewrite Hl. destruct (sy_reported sy); [|done]. apply bool_decide_eq_false in Hc. congruence.
Qed.

(** A step that only moves the store or the flags. *)
Lemma reports_ok_same (sy sy' : syncer S) :
  sy_reports sy' = sy_reports sy → sy_reported sy' = sy_reported sy → sy_state sy' = sy_state sy →
  reports_ok sy → reports_ok sy'.
Proof. intros H1 H2 H3 [Hl Hs]. split; rewrite H1; [by rewrite H2, H3|done]. Qed.

(** Fresh reports come from confirmations. *)
Definition confirmed (before : list State) (received : string → Prop) (sy : syncer S) : Prop :=
  reports_ok sy ∧ ∀ c, mkState true c ∈ sy_reports sy → mkState true c ∈ before ∨ received c.

Lemma confirmed_setState before received (sy : syncer S) fresh cursor :
  confirmed before received sy → (fresh = true → received cursor) →
  confirmed before received (setState sy fresh cursor).
Proof.
  intros [Hok Hc] Hf. destruct (setState_reports sy fresh cursor Hok) as [Hok' Hr]. split; [done|].
  intros c Hin. destruct Hr as [Hr|Hr]; rewrite Hr in Hin; [by apply Hc|].
  apply elem_of_app in Hin as [Hin|Hin]; [by apply Hc|].
  apply list_elem_of_singleton in Hin as [= <- <-]. right. by apply Hf.
Qed.

Lemma confirmed_mono before (r1 r2 : string → Prop) (sy : syncer S) :
  (∀ c, r1 c → r2 c) → confirmed before r1 sy → confirmed before r2 sy.
Proof. intros Hr [Hok Hc]. split; [done|]. intros c Hin. destruct (Hc c Hin); auto. Qed.

Lemma confirmed_same before received (sy sy' : syncer S) :
  sy_reports sy' = sy_reports sy → sy_reported sy' = sy_reported sy → sy_state sy' = sy_state sy →
  confirmed before received sy → confirmed before received sy'.
Proof. intros H1 H2 H3 [Hok Hc]. split; [by eapply reports_ok_same|by rewrite H1]. Qed.

Lemma stream_event_confirmed before received (sy : syncer S) (writer : option W) event :
  confirmed before received sy → (∀ c, event = WatchResponse_Progress c → received c) →
  let '(sy', _, _) := stream_event sy writer event in confirmed before received sy'.
Proof.
  intros Hc Hp. destruct event; simpl; [done| | | | | |done].
  - destruct (store_BeginSnapshot _); by apply confirmed_setState.
  - destruct writer; [|done]. by destruct (writer_Put _ _) as [? []].
  - destruct writer; [|done]. by destruct (writer_Commit _ _) as [? []]; apply (confirmed_same before received sy).
  - destruct writer; [done|]. by destruct (store_Apply _ _) as [? []]; apply (confirmed_same before received sy).
  - destruct writer; [done|]. destruct (store_SaveCursor _ _) as [? []]; [|by apply (confirmed_same before received sy)].
    apply confirmed_setState; [by apply (confirmed_same before received sy)|auto].
Qed.

Definition progress_in (inputs : list recv) (c : string) : Prop :=
  RecvEvent (WatchResponse_Progress c) ∈ inputs.

Lemma stream_loop_confirmed before received (sy : syncer S) (writer : option W) inputs :
  confirmed before received sy → (∀ c, progress_in inputs c → received c) →
  let '(sy', _, _) := stream_loop sy writer inputs in confirmed before received sy'.
Proof.
  revert sy writer. induction inputs as [|i inputs IH]; intros sy writer Hc Hp; simpl; [done|].
  destruct i as [event| |c]; [|done..].
  pose proof (stream_event_confirmed before received sy writer event Hc) as He.
  destruct (stream_event sy writer event) as [[sy1 w1] [e|]].
  - apply He. intros c ->. apply Hp. by left.
  - apply IH; [apply He; intros c ->; apply Hp; by left|]. intros c Hin. apply Hp. by right.
Qed.

Lemma stream_confirmed before received cfg (sy : syncer S) snapshot open inputs :
  confirmed before received sy → (∀ c, progress_in inputs c → received c) →
  let '(sy', _, _) := stream cfg sy snapshot open inputs in confirmed before received sy'.
Proof.
  intros Hc Hp. unfold stream. simpl.
  destruct (if snapshot then Ok "" else store_Cursor (sy_store sy)); [|by apply (confirmed_same before received sy)].
  destruct open; [by apply (confirmed_same before received sy)|].
  pose proof (stream_loop_confirmed before received (set_progressed sy false) None inputs) as Hl.
  destruct (stream_loop _ _ _) as [[sy1 w1] e1]. apply Hl; [by apply (confirmed_same before received sy)|done].
Qed.

Lemma sync_turn_confirmed before received cfg (sy : syncer S) v i :
  confirmed before received sy → (∀ c, progress_in (si_inputs i) c → received c) →
  let '(sy', _, out) := sync_turn cfg sy v i in
  confirmed before received sy' ∧ (out ≠ SyncRunning → st_fresh (sy_state sy') = false).
Proof.
  intros Hc Hp. unfold sync_turn.
  pose proof (stream_confirmed before received cfg sy (sn_snapshot v) (si_open i) (si_inputs i) Hc Hp) as Hs.
  destruct (stream cfg sy _ _ _) as [[sy1 req] [err|]]; [|done].
  assert (confirmed before received (setState sy1 false (st_cursor (sy_state sy1))) ∧
          st_fresh (sy_state (setState sy1 false (st_cursor (sy_state sy1)))) = false) as [H1 H2].
  { split; [by apply confirmed_setState|]. unfold setState.
    destruct (_ && _) eqn:Hb; [|done]. apply andb_true_iff in Hb as [_ Hb].
    apply bool_decide_eq_true in Hb. by rewrite <-Hb. }
  destruct (si_ctxDone i); [done|]. destruct (sync_switch v err) as [[[? ?] retry]|]; [|done].
  destruct retry; [done|]. by destruct (si_waitDone i).
Qed.

(** C10 (safety): Sync never shows a projection as fresh that the server has not confirmed:
    every fresh state it reports is at the cursor of a Progress it received;
    every change of state is reported, once; and whenever no stream is up,
    when Sync has returned too, it shows the projection as stale. *)
Theorem fresh_means_confirmed cfg (s : S) inputs sy v requests out
    (Hs : Sync cfg s inputs = (sy, v, requests, out)) :
  (∀ c, mkState true c ∈ sy_reports sy → ∃ i, i ∈ inputs ∧ progress_in (si_inputs i) c) ∧
  (out ≠ None → st_fresh (sy_state sy) = false) ∧
  last (sy_reports sy) = (if sy_reported sy then Some (sy_state sy) else None) ∧
  no_stutter (sy_reports sy).
Proof.
  set (received c := ∃ i, i ∈ inputs ∧ progress_in (si_inputs i) c).
  assert (∀ sy0 v0 todo, confirmed [] received sy0 → (∀ i, i ∈ todo → i ∈ inputs) →
    let '(sy, _, _, out) := sync_loop cfg sy0 v0 todo in
    confirmed [] received sy ∧ (out ≠ None → st_fresh (sy_state sy) = false)) as Hloop.
  { intros sy0 v0 todo. revert sy0 v0. induction todo as [|i todo IH]; intros sy0 v0 Hc Hin; simpl; [done|].
    pose proof (sync_turn_confirmed [] received cfg sy0 v0 i Hc) as Ht.
    destruct (sync_turn cfg sy0 v0 i) as [[sy1 req] [|v1|err]].
    - destruct Ht as [H1 _]; [|done]. intros c Hp. exists i. split; [apply Hin; by left|done].
    - destruct Ht as [H1 _]. { intros c Hp. exists i. split; [apply Hin; by left|done]. }
      specialize (IH sy1 v1 H1). destruct (sync_loop cfg sy1 v1 todo) as [[[? ?] ?] ?].
      apply IH. intros j Hj. apply Hin. by right.
    - destruct Ht as [H1 H2]. { intros c Hp. exists i. split; [apply Hin; by left|done]. }
      split; [done|]. intros _. by apply H2. }
  unfold Sync in Hs. specialize (Hloop (new_syncer s) (mkSyncVars false 0 (cf_minBackoff cfg)) inputs).
  rewrite Hs in Hloop. destruct Hloop as [[[Hl Hst] Hc] Hf]; [|done|].
  { split; [by split|]. intros c Hin. by apply elem_of_nil in Hin. }
  split_and!; [|done|done|done]. intros c Hin. destruct (Hc c Hin) as [Hn|]; [by apply elem_of_nil in Hn|done].
Qed.

End Reports.

(** ** When Sync returns *)

Section Returns.
Context {S W : Type} `{Store S W}.

Definition backoff_ok (cfg : SyncConfig) (v : sync_vars) : Prop :=
  cf_minBackoff cfg ≤ sn_backoff v ≤ cf_maxBackoff cfg.

Lemma sync_config_bounds cfg0 store cfg :
  sync_config cfg0 store = Some cfg → 0 < cf_minBackoff cfg ≤ cf_maxBackoff cfg.
Proof.
  unfold sync_config, defaultMinBackoff, defaultMaxBackoff. destruct (decide _); [done|]. intros [= <-]. simpl.
  destruct (decide (cf_minBackoff cfg0 ≤ 0)); destruct (decide (cf_maxBackoff cfg0 < _)); lia.
Qed.

Lemma stream_request (cfg : SyncConfig) (sy : syncer S) open inputs sy' request err :
  stream cfg sy true open inputs = (sy', request, err) → ∃ r, request = Some r ∧ wr_resumeCursor r = "".
Proof.
  unfold stream. simpl. destruct open; [intros [= <- <- <-]; eauto|].
  destruct (stream_loop _ _ _) as [[? ?] ?]. intros [= <- <- <-]. eauto.
Qed.

(** What the turns of a loop that has got as far as [out] establish. *)
Definition returns_ok (inputs : list sync_input) (requests : list WatchRequest) (out : option (option syncErr)) : Prop :=
  match out with
  | None => True
  | Some None => ∃ i, i ∈ inputs ∧ (si_ctxDone i = true ∨ si_waitDone i = true)
  | Some (Some e) =>
      ((∃ err, e = SyncStore err) ∨ isPermanent e = true) ∧
      (e = SyncStatus InvalidArgument → ∃ r, last requests = Some r ∧ wr_resumeCursor r = "")
  end.

Lemma sync_turn_returns cfg (sy : syncer S) v i :
  0 < cf_minBackoff cfg ≤ cf_maxBackoff cfg → 2 * cf_maxBackoff cfg < 2 ^ 63 → backoff_ok cfg v →
  match sync_turn cfg sy v i with
  | (_, request, SyncReturns out) => returns_ok [i] (option_list request) (Some out)
  | (_, _, SyncContinues v') => backoff_ok cfg v'
  | (_, _, SyncRunning) => True
  end.
Proof.
  intros Hcfg Hmax Hb. unfold sync_turn, backoff_ok in *.
  destruct (stream cfg sy _ _ _) as [[sy1 request] [err|]] eqn:Hs; [|done].
  set (sy2 := setState sy1 false (st_cursor (sy_state sy1))).
  destruct (si_ctxDone i) eqn:Hctx; [exists i; split; [by left|by left]|].
  destruct (sync_switch v err) as [[[snapshot resyncs] retry]|] eqn:Hsw.
  - set (backoff := if sy_progressed sy2 then cf_minBackoff cfg else sn_backoff v).
    assert (cf_minBackoff cfg ≤ backoff ≤ cf_maxBackoff cfg) by (subst backoff; destruct (sy_progressed sy2); lia).
    destruct retry; [done|]. destruct (si_waitDone i) eqn:Hw; [exists i; split; [by left|by right]|].
    simpl. rewrite wrap_i64_id by (unfold is_i64; lia). lia.
  - split.
    + destruct err; simpl in Hsw; [done|by left; eauto| |done].
      destruct (decide _) in Hsw; [done|]. right. by destruct (isPermanent _).
    + intros ->. simpl in Hsw. destruct (decide _) as [|Hn] in Hsw; [done|].
      destruct (sn_snapshot v) eqn:Hv; [|by destruct Hn].
      apply stream_request in Hs as (r & -> & Hr). by exists r.
Qed.

(** C26 (termination): Sync only ends the way it promises: with nil when its context has ended,
    and with an error that a retry cannot fix: the store failed, or the
    server refused for good; a refused stored cursor is not fatal, since it is
    first dropped for a snapshot. Every other end of a stream leads to another
    stream, after a wait that stays within the configured bounds. *)
Theorem Sync_returns_only cfg0 store cfg (s : S) inputs sy v requests out
    (Hcfg : sync_config cfg0 store = Some cfg) (Hmax : 2 * cf_maxBackoff cfg < 2 ^ 63)
    (Hs : Sync cfg s inputs = (sy, v, requests, out)) :
  0 < cf_minBackoff cfg ≤ sn_backoff v ∧ sn_backoff v ≤ cf_maxBackoff cfg ∧
  match out with
  | None => True
  | Some None => ∃ i, i ∈ inputs ∧ (si_ctxDone i = true ∨ si_waitDone i = true)
  | Some (Some e) =>
      ((∃ err, e = SyncStore err) ∨ isPermanent e = true) ∧
      (e = SyncStatus InvalidArgument → ∃ r, last requests = Some r ∧ wr_resumeCursor r = "")
  end.
Proof.
  apply sync_config_bounds in Hcfg.
  enough (backoff_ok cfg v ∧ returns_ok inputs requests out) as [Hb Hr] by (unfold backoff_ok in Hb; split_and!; [lia..|done]).
  unfold Sync in Hs. assert (backoff_ok cfg (mkSyncVars false 0 (cf_minBackoff cfg))) as Hb by (unfold backoff_ok; simpl; lia).
  revert Hs Hb. generalize (new_syncer s), (mkSyncVars false 0 (cf_minBackoff cfg)). revert requests.
  induction inputs as [|i inputs IH]; intros requests sy0 v0 Hs Hb; simpl in Hs; [by injection Hs as <- <- <- <-|].
  pose proof (sync_turn_returns cfg sy0 v0 i Hcfg Hmax Hb) as Ht.
  destruct (sync_turn cfg sy0 v0 i) as [[sy1 request] [|v1|out1]].
  - by injection Hs as <- <- <- <-.
  - destruct (sync_loop cfg sy1 v1 inputs) as [[[sy2 v2] rs] out2] eqn:Hl. injection Hs as <- <- <- <-.
    destruct (IH rs sy1 v1 Hl Ht) as [Hb2 Hr]. split; [done|].
    destruct out2 as [[e|]|]; [| |done]; unfold returns_ok in *.
    + split; [apply Hr|]. intros He. destruct Hr as [_ Hr]. destruct (Hr He) as (r & Hlast & Hcur).
      exists r. split; [|done]. by rewrite last_app, Hlast.
    + destruct Hr as (j & Hj & Hd). exists j. split; [by right|done].
  - injection Hs as <- <- <- <-. split; [done|]. unfold returns_ok in *.
    destruct out1 as [e|]; [done|]. destruct Ht as (j & Hj & Hd). exists j. split; [|done].
    apply list_elem_of_singleton in Hj as ->. by left.
Qed.

End Returns.

(** ** A concrete client *)

Definition demo_sync_config : SyncConfig := mkSyncConfig "orders" "a" 100 1000.

Definition demo_wire_row (id note : string) : wireRow :=
  {["shop" := Value_Text "a"; "id" := Value_Text id; "note" := Value_Text note]}.

Definition demo_received : list recv :=
  [RecvEvent WatchResponse_SnapshotBegin;
   RecvEvent (WatchResponse_SnapshotRows [demo_wire_row "1" "x"; demo_wire_row "2" "y"]);
   RecvEvent WatchResponse_SnapshotEnd;
   RecvEvent (WatchResponse_Batch (mkWireBatch "db@3"
     [mkWireChange OPERATION_DELETE "public.orders" {["shop" := "a"; "id" := "2"]} ∅] None));
   RecvEvent (WatchResponse_Progress "db@4");
   RecvErr Unavailable].

Definition demo_stream : syncer MemoryStore * option WatchRequest * option syncErr :=
  @stream _ _ (memory_store demo_primaryKey) demo_sync_config (new_syncer NewMemoryStore) false None demo_received.

Lemma stream_refines_witness :
  demo_stream.2 = Some (SyncStatus Unavailable) ∧ mem_cursor (sy_store demo_stream.1.1) = "db@4" ∧
  Len (sy_store demo_stream.1.1) = 1%nat ∧
  ∃ events rest, demo_received = (RecvEvent <$> events) ++ rest.
Proof.
  split; [vm_compute; reflexivity|]. split; [vm_compute; reflexivity|]. split; [vm_compute; reflexivity|].
  destruct demo_stream as [[sy request] err] eqn:E.
  destruct (@stream_refines _ _ _ _ (memory_spec demo_primaryKey) (memory_laws demo_primaryKey) _ _ _ _ _ _ _ _ E)
    as (events & rest & r & Hin & _). by exists events, rest.
Defined.

Definition demo_sync : syncer MemoryStore * sync_vars * list WatchRequest * option (option syncErr) :=
  @Sync _ _ (memory_store demo_primaryKey) demo_sync_config NewMemoryStore
    [mkSyncInput None demo_received false false; mkSyncInput None [RecvErr NotFound] false false].

Lemma fresh_means_confirmed_witness :
  sy_reports demo_sync.1.1.1 = [mkState false ""; mkState true "db@4"; mkState false "db@4"] ∧
  st_fresh (sy_state demo_sync.1.1.1) = false.
Proof.
  split; [vm_compute; reflexivity|].
  assert (demo_sync.2 ≠ None) as Hout by (by vm_compute).
  destruct demo_sync as [[[sy v] requests] out] eqn:E. simpl in *.
  by apply (@fresh_means_confirmed _ _ (memory_store demo_primaryKey) _ _ _ _ _ _ _ E).
Defined.

Lemma Sync_returns_only_witness :
  demo_sync.1.2 = [mkWatchRequest "orders" "a" ""; mkWatchRequest "orders" "a" "db@4"] ∧
  demo_sync.2 = Some (Some (SyncStatus NotFound)) ∧ isPermanent (SyncStatus NotFound) = true.
Proof.
  split; [vm_compute; reflexivity|].
  assert (demo_sync.2 = Some (Some (SyncStatus NotFound))) as Hout by (vm_compute; reflexivity).
  split; [done|]. destruct demo_sync as [[[sy v] requests] out] eqn:E. simpl in Hout. subst out.
  destruct (@Sync_returns_only _ _ (memory_store demo_primaryKey) demo_sync_config true demo_sync_config
    _ _ _ _ _ _ eq_refl ltac:(simpl; lia) E) as (_ & _ & [[err [=]]|Hp] & _). done.
Defined.

(** Two resyncs, each after a confirmed progress. The first is followed up at
    once: a context that would end during a wait is not looked at. The second
    waits, since the count it is decided on still holds the first. *)
Lemma second_resync_waits :
  let confirmed_then_resync :=
    [RecvEvent WatchResponse_SnapshotBegin; RecvEvent WatchResponse_SnapshotEnd;
     RecvEvent (WatchResponse_Progress "db@4"); RecvEvent (WatchResponse_Resync RESYNC_REASON_SLOW_WATCHER)] in
  let turn := mkSyncInput None confirmed_then_resync false true in
  let sync := @Sync _ _ (memory_store demo_primaryKey) demo_sync_config NewMemoryStore in
  (sync [turn]).2 = None ∧ (sync [turn; turn]).2 = Some None.
Proof. vm_compute. split; reflexivity. Qed.
