(* ===== verification/Limits.v ===== *)
(** * Message limits: sdk/go/watchd/client.go against internal/cdc and internal/server

    A batch is one source transaction and is never split, so the largest
    message a client accepts has to hold whatever the decoder lets through. The
    decoder bounds a transaction by its estimated bytes in memory, the client
    by a message's bytes on the wire: here the two are compared, over
    protobuf's documented encoding. *)

From S2P Require Import Prelude Errors CdcTypes Visibility Config Relation Decoder DecoderProps Events Hub Wire Server.
From Stdlib Require Import Ascii.
Local Open Scope string_scope.
Local Open Scope list_scope.
Local Open Scope Z_scope.

(** ** The client's limit *)

Definition DefaultMaxMessageBytes : Z := Z.shiftl 64 20.

(** [Dial]'s limit on received messages, with the caller's options after its
    own: the last one applies. *)
Definition Dial (opts : list Z) : Z := foldl (λ _ opt, opt) DefaultMaxMessageBytes ([DefaultMaxMessageBytes] ++ opts).

(** ** protobuf's encoding *)

(** The bytes of a varint. *)
Definition varint_len (n : Z) : Z := if decide (n ≤ 0) then 1 else Z.log2 n / 7 + 1.

(** A length-delimited field of [n] bytes, with a field number below 16. *)
Definition field (n : Z) : Z := 1 + varint_len n + n.

(** A [Value] with its oneof set: null is an enum, unchanged_toast an empty
    message. *)
Definition value_size (v : wireValue) : Z :=
  match v with
  | ValueKindUnset => 0
  | Value_Text text => field (slen text)
  | Value_Null => 2
  | Value_UnchangedToast => field 0
  end.

(** The sum of [f] over a map. *)
Definition map_sum {V} (f : string → V → Z) (m : gmap string V) : Z := map_fold (λ k v n, n + f k v) 0 m.

(** A map's entries are messages of a key and a value, both always present. *)
Definition value_entry (column : string) (v : wireValue) : Z := field (field (slen column) + field (value_size v)).
Definition key_entry (column value : string) : Z := field (field (slen column) + field (slen value)).

(** The operation and a non-empty table, then the two maps. *)
Definition change_size (c : wireChange) : Z :=
  (match wc_operation c with
   | OPERATION_OTHER n => if decide (n = 0) then 0 else 1 + (if decide (n < 0) then 10 else varint_len n)
   | _ => 2
   end) +
  (if decide (wc_table c = "") then 0 else field (slen (wc_table c))) +
  map_sum key_entry (wc_key c) + map_sum value_entry (wc_values c).

(** protobuf as far as a batch needs it: a timestamp is two varints of ten bytes
    at most. *)
Class ProtoSize : Type := {
  timestamp_size : Z → Z;
  message_size : wireEvent → Z
}.

Definition batch_size `{ProtoSize} (b : wireBatch) : Z :=
  (if decide (wb_cursor b = "") then 0 else field (slen (wb_cursor b))) +
  foldr (λ c n, field (change_size c) + n) 0 (wb_changes b) +
  match wb_commitTime b with Some t => field (timestamp_size t) | None => 0 end.

Class ProtoSizeLaws `{ProtoSize} : Prop := {
  timestamp_small t : 0 ≤ timestamp_size t ≤ 22;
  message_batch b : message_size (WatchResponse_Batch b) = field (batch_size b)
}.

(** ** Lemmas *)

Lemma varint_len_bound n : 0 ≤ n → 1 ≤ varint_len n ∧ 128 * (varint_len n - 1) ≤ n.
Proof.
  intros Hn. unfold varint_len. destruct (decide (n ≤ 0)) as [?|Hp]; [lia|].
  set (k := Z.log2 n / 7). assert (0 ≤ Z.log2 n) by apply Z.log2_nonneg.
  assert (0 ≤ k) by (apply Z.div_pos; lia). split; [lia|].
  destruct (decide (k = 0)) as [->|Hk]; [lia|].
  assert (2 ^ (7 * k) ≤ n) as Hpow.
  { etrans; [|apply (Z.log2_spec n); lia]. apply Z.pow_le_mono_r; [lia|]. unfold k. apply Z.mul_div_le. lia. }
  assert (k ≤ 2 ^ (7 * (k - 1))) as Hle.
  { assert (k - 1 < 2 ^ (k - 1)) by (apply Z.pow_gt_lin_r; lia).
    assert (2 ^ (k - 1) ≤ 2 ^ (7 * (k - 1))) by (apply Z.pow_le_mono_r; lia). lia. }
  replace (7 * k) with (7 + 7 * (k - 1)) in Hpow by lia. rewrite Z.pow_add_r in Hpow by lia. lia.
Qed.

(** A field's bytes: two and a 128th more than its content. *)
Lemma field_bound n : 0 ≤ n → 2 + n ≤ field n ∧ 128 * (field n - n - 2) ≤ n.
Proof. intros Hn. pose proof (varint_len_bound n Hn). unfold field. lia. Qed.

Lemma slen_nonneg s : 0 ≤ slen s.
Proof. unfold slen. lia. Qed.

Lemma value_size_nonneg v : 0 ≤ value_size v.
Proof.
  destruct v as [|text| |]; simpl; [lia| |lia|vm_compute; discriminate].
  pose proof (field_bound (slen text) (slen_nonneg text)). pose proof (slen_nonneg text). lia.
Qed.

Lemma map_sum_empty {V} (f : string → V → Z) : map_sum f ∅ = 0.
Proof. apply map_fold_empty. Qed.

Lemma map_sum_fresh {V} (f : string → V → Z) k v m :
  m !! k = None → map_sum f (<[k := v]> m) = map_sum f m + f k v.
Proof. intros Hm. unfold map_sum. rewrite map_fold_insert_L; [done|intros; lia|done]. Qed.

(** Inserting can only replace. *)
Lemma map_sum_insert {V} (f : string → V → Z) k v m :
  (∀ k v, 0 ≤ f k v) → map_sum f (<[k := v]> m) ≤ map_sum f m + f k v.
Proof.
  intros Hf. destruct (m !! k) as [v0|] eqn:Hm; [|by rewrite map_sum_fresh].
  assert (map_sum f m = map_sum f (base.delete k m) + f k v0) as ->.
  { rewrite <-(map_sum_fresh f k v0 (base.delete k m)) by apply lookup_delete_eq. by rewrite insert_delete_id. }
  rewrite <-insert_delete_eq, map_sum_fresh by apply lookup_delete_eq. pose proof (Hf k v0). lia.
Qed.

(** Two sums compared entry by entry. *)
Lemma map_sum_le {V} (f g : string → V → Z) (m : gmap string V) :
  (∀ k v, f k v ≤ g k v) → map_sum f m ≤ map_sum g m.
Proof.
  intros Hfg. induction m as [|k v m Hm IH] using map_ind; [by rewrite !map_sum_empty|].
  rewrite !map_sum_fresh by done. pose proof (Hfg k v). lia.
Qed.

(** ** What a change costs on the wire *)

(** 1 for a column whose name and value are under three bytes together. *)
Definition short (n : Z) : Z := if decide (n < 3) then 1 else 0.

Fixpoint short_values (columns : list string) (values : list Value) : Z :=
  match values with
  | [] => 0
  | value :: rest =>
      short (slen (default "" (head columns)) + estimatedValueBytes value) + short_values (tail columns) rest
  end.

Definition short_columns (c : Change) : Z :=
  map_sum (λ column value, short (slen column + slen value)) (ch_key c) + short_values (ch_columns c) (ch_values c).

Lemma value_entry_nonneg column v : 0 ≤ value_entry column v.
Proof.
  unfold value_entry. pose proof (slen_nonneg column). pose proof (value_size_nonneg v).
  pose proof (field_bound (slen column) ltac:(lia)). pose proof (field_bound (value_size v) ltac:(lia)).
  pose proof (field_bound (field (slen column) + field (value_size v)) ltac:(lia)). lia.
Qed.

Lemma key_entry_bound column value :
  0 ≤ key_entry column value ∧
  4 * key_entry column value ≤ 15 * (slen column + slen value) + 33 * short (slen column + slen value).
Proof.
  unfold key_entry, short. pose proof (slen_nonneg column). pose proof (slen_nonneg value).
  pose proof (field_bound (slen column) ltac:(lia)). pose proof (field_bound (slen value) ltac:(lia)).
  pose proof (field_bound (field (slen column) + field (slen value)) ltac:(lia)).
  destruct (decide _); lia.
Qed.

Lemma value_entry_bound column value wv :
  convertKind value = Ok wv →
  4 * value_entry column wv ≤
    15 * (slen column + estimatedValueBytes value) + 33 * short (slen column + estimatedValueBytes value).
Proof.
  unfold convertKind, value_entry, estimatedValueBytes, short. intros Hk.
  pose proof (slen_nonneg column). pose proof (slen_nonneg (v_text value)).
  pose proof (field_bound (slen column) ltac:(lia)).
  assert (value_size wv = match v_kind value with ValueText => field (slen (v_text value)) | _ => 2 end) as Hv.
  { destruct (v_kind value); try discriminate Hk; injection Hk as <-; reflexivity. }
  rewrite Hv. clear Hv Hk wv.
  pose proof (field_bound (slen (v_text value)) ltac:(lia)).
  destruct (v_kind value);
    match goal with |- context [field (field _ + field ?x)] =>
      pose proof (field_bound x ltac:(lia)); pose proof (field_bound (field (slen column) + field x) ltac:(lia))
    end; destruct (decide _); lia.
Qed.

Lemma convert_values_bound columns values acc m :
  convert_values columns values acc = Ok m →
  4 * map_sum value_entry m ≤ 4 * map_sum value_entry acc + 15 * value_bytes columns values + 33 * short_values columns values.
Proof.
  revert columns acc. induction values as [|value values IH]; intros columns acc; simpl.
  { intros [= <-]. lia. }
  destruct columns as [|column columns]; [done|]. destruct (convertKind value) as [wv|] eqn:Hk; simpl; [|done].
  intros Hm%IH. pose proof (value_entry_bound column value wv Hk).
  pose proof (map_sum_insert value_entry column wv acc value_entry_nonneg). lia.
Qed.

Lemma key_bound key :
  0 ≤ map_sum key_entry key ∧
  4 * map_sum key_entry key ≤
    15 * key_bytes key + 33 * map_sum (λ column value, short (slen column + slen value)) key.
Proof.
  change (key_bytes key) with (map_sum (λ column value, slen column + slen value) key).
  induction key as [|k v key Hk IH] using map_ind; [rewrite !map_sum_empty; lia|].
  rewrite !map_sum_fresh by done. pose proof (key_entry_bound k v). lia.
Qed.

Lemma value_bytes_nonneg columns values : 0 ≤ value_bytes columns values.
Proof.
  revert columns. induction values as [|value values IH]; intros columns; simpl; [lia|].
  pose proof (IH (tail columns)). pose proof (slen_nonneg (default "" (head columns))).
  unfold estimatedValueBytes. pose proof (slen_nonneg (v_text value)). destruct (v_kind value); lia.
Qed.

(** A change costs under 3.78 times its estimate on the wire, unless it has many
    short columns. *)
Lemma change_bound c wc :
  convertChange c = Ok wc → short_columns c ≤ 32 →
  0 ≤ change_size wc ∧ 100 * field (change_size wc) ≤ 378 * estimatedChangeBytes c - 71000.
Proof.
  unfold convertChange. destruct (operations (ch_operation c)) as [op|] eqn:Hop; [|done].
  destruct (convertChangeValues _ _) as [m|] eqn:Hm; simpl; [|done]. intros [= <-] Hshort.
  apply convert_values_bound in Hm. rewrite map_sum_empty in Hm.
  pose proof (key_bound (ch_key c)). pose proof (value_bytes_nonneg (ch_columns c) (ch_values c)).
  assert (6 ≤ slen (ch_operation c) ∧ match op with OPERATION_OTHER _ => False | _ => True end) as [Hlen Hknown].
  { unfold operations in Hop. repeat (destruct (decide _) as [->|]; [injection Hop as <-; by vm_compute|]). done. }
  unfold short_columns in Hshort. unfold change_size, estimatedChangeBytes, changeOverhead. cbn [wc_operation wc_table wc_key wc_values].
  pose proof (slen_nonneg (ch_table c)). pose proof (field_bound (slen (ch_table c)) ltac:(lia)).
  assert (0 ≤ map_sum value_entry m) as Hpos.
  { clear. induction m as [|k v m Hk IH] using map_ind; [by rewrite map_sum_empty|]. rewrite map_sum_fresh by done.
    pose proof (value_entry_nonneg k v). lia. }
  assert (match op with OPERATION_OTHER n => if decide (n = 0) then 0 else 1 + (if decide (n < 0) then 10 else varint_len n)
          | _ => 2 end = 2) as -> by by destruct op.
  match goal with |- 0 ≤ ?s ∧ _ => set (size := s); assert (0 ≤ size) as Hsize; [unfold size; destruct (decide _); lia|] end.
  split; [done|]. pose proof (field_bound size Hsize). unfold size in *. destruct (decide (ch_table c = "")); lia.
Qed.

Lemma estimatedChangeBytes_nonneg c : 0 ≤ estimatedChangeBytes c.
Proof.
  unfold estimatedChangeBytes, changeOverhead. pose proof (slen_nonneg (ch_operation c)). pose proof (slen_nonneg (ch_table c)).
  pose proof (value_bytes_nonneg (ch_columns c) (ch_values c)).
  assert (0 ≤ key_bytes (ch_key c)); [|lia]. change (key_bytes (ch_key c)) with
    (map_sum (λ column value, slen column + slen value) (ch_key c)).
  induction (ch_key c) as [|k v key Hk IH] using map_ind; [by rewrite map_sum_empty|].
  rewrite map_sum_fresh by done. pose proof (slen_nonneg k). pose proof (slen_nonneg v). lia.
Qed.

Lemma footprint_filter P `{∀ c, Decision (P c)} changes : footprint (base.filter P changes) ≤ footprint changes.
Proof.
  unfold footprint. induction changes as [|c changes IH]; [done|]. rewrite filter_cons.
  pose proof (estimatedChangeBytes_nonneg c). destruct (decide _); rewrite ?fmap_cons; cbn [foldr]; lia.
Qed.

(** A transaction the decoder emits is within its limits. *)
Lemma emitted_footprint maxBytes maxChanges maxValue ms shapes commitLSN endLSN d t :
  let d0 := NewDecoderWithLimits maxBytes maxChanges maxValue in
  Consume (consume_states d0 ms) shapes (MsgCommit commitLSN endLSN) = (d, Ok (Some t)) →
  footprint (tx_changes t) ≤ dc_maxTransactionBytes d0.
Proof.
  cbv zeta. intros Hc. pose proof (consume_states_bounded (NewDecoderWithLimits maxBytes maxChanges maxValue) ms) as Hb.
  destruct Hb as [Hb Hl]; [simpl; destruct (decide _); [done|lia]..|done|].
  apply (f_equal (λ l, l.1.1)) in Hl. cbn [limits fst] in Hl. rewrite <-Hl. clear Hl. unfold bounded in Hb.
  cbn [Consume] in Hc. destruct (dc_pending _) as [pending|]; [|done]. destruct Hb as (_ & Hf & Hle).
  injection Hc as _ <-. cbn [tx_changes]. lia.
Qed.

Lemma convert_changes_bound changes converted :
  convert_changes changes = Ok converted → Forall (λ c, short_columns c ≤ 32) changes →
  0 ≤ foldr (λ c n, field (change_size c) + n) 0 converted ∧
  100 * foldr (λ c n, field (change_size c) + n) 0 converted ≤ 378 * footprint changes - 71000 * zlen changes.
Proof.
  unfold footprint, zlen. revert converted. induction changes as [|c changes IH]; intros converted; cbn [convert_changes].
  { intros [= <-] _. simpl. lia. }
  rewrite fmap_cons. cbn [foldr length]. destruct (convertChange c) as [wc|] eqn:Hc; simpl; [|done].
  destruct (convert_changes changes) as [rest|] eqn:Hr; simpl; [|done]. intros [= <-] [Hs Hall]%Forall_cons.
  destruct (change_bound c wc Hc Hs) as [Hn Hf]. destruct (IH _ eq_refl Hall). cbn [foldr].
  pose proof (field_bound (change_size wc) Hn). lia.
Qed.

Section Fits.
Context `{ProtoSizeLaws} `{LsnText}.

(** ** Properties *)

(** C29 (bounds): a batch of a table that is not wide fits. Take any transaction the
    decoder emits, whatever it was fed, with changes of at most 32 columns
    whose name and value are under three bytes together, and a cursor text of
    up to 500; and the part of it a watch is owed. The message the server makes
    of it is smaller than four times the decoder's limit, so a client with the
    default limits accepts it from a server with the default limits. A wide
    table is another matter ([wide_batch_exceeds]). *)
Theorem batch_fits maxBytes maxChanges maxValue ms shapes commitLSN endLSN d t p scope s b event
    (Hd : Consume (consume_states (NewDecoderWithLimits maxBytes maxChanges maxValue) ms) shapes
            (MsgCommit commitLSN endLSN) = (d, Ok (Some t)))
    (Hb : b_changes b = proj_changes p scope t) (Hne : b_changes b ≠ [])
    (Hshort : Forall (λ c, short_columns c ≤ 32) (tx_changes t))
    (Hcursor : slen (encodeCursor s (b_cursor b)) ≤ 500)
    (Hevent : convertBatch s b = Ok event) :
  let limit := dc_maxTransactionBytes (NewDecoderWithLimits maxBytes maxChanges maxValue) in
  message_size event < 4 * limit ∧
  (limit ≤ defaultMaxTransactionBytes → message_size event ≤ Dial []).
Proof.
  cbv zeta. apply emitted_footprint in Hd. cbv zeta in Hd. set (limit := dc_maxTransactionBytes _) in *.
  change (Dial []) with (4 * defaultMaxTransactionBytes). cut (message_size event < 4 * limit); [lia|].
  unfold convertBatch in Hevent. destruct (convert_changes (b_changes b)) as [converted|] eqn:Hc; simpl in Hevent; [|done].
  injection Hevent as <-. rewrite message_batch.
  assert (Forall (λ c, short_columns c ≤ 32) (b_changes b)) as Hs.
  { rewrite Hb. unfold proj_changes. apply Forall_forall. intros c [_ Hin]%list_elem_of_filter.
    rewrite Forall_forall in Hshort. by apply Hshort. }
  assert (footprint (b_changes b) ≤ limit) as Hf.
  { rewrite Hb. unfold proj_changes. etrans; [apply footprint_filter|done]. }
  apply convert_changes_bound in Hc as [Hc0 Hc]; [|done].
  assert (1 ≤ zlen (b_changes b)) by (unfold zlen; destruct (b_changes b); [done|simpl; lia]).
  match goal with |- field ?size < _ => set (size' := size); assert (0 ≤ size' ∧ 100 * size' ≤ 378 * limit - 17000) as [Hn Hle] end.
  - unfold size', batch_size. cbn [wb_cursor wb_changes wb_commitTime].
    destruct (timestamp_small (b_commitTime b)) as [Ht0 Ht]. pose proof (field_bound _ Ht0).
    pose proof (slen_nonneg (encodeCursor s (b_cursor b))) as Hcur. pose proof (field_bound _ Hcur).
    destruct (decide (encodeCursor s (b_cursor b) = "")), (decide (b_commitTime b = zero_time)); lia.
  - pose proof (field_bound size' Hn). lia.
Qed.

End Fits.

(** protobuf's sizes, with timestamps of the largest size. *)
Definition demo_sizes : ProtoSize :=
  let sizes := {| timestamp_size _ := 22; message_size _ := 0 |} in
  {| timestamp_size _ := 22;
     message_size e := match e with WatchResponse_Batch b => field (@batch_size sizes b) | _ => 0 end |}.

#[export] Instance demo_sizes_laws : @ProtoSizeLaws demo_sizes.
Proof. split; [done|]. intros b. reflexivity. Qed.

Definition demo_messages : list (option shapeRegistry * Message) :=
  (None, MsgRelation demo_relation) :: (None, MsgBegin 9 100) :: demo_body.

Definition demo_emitted : option Transaction :=
  match Consume (consume_states (NewDecoderWithLimits 0 0 0) demo_messages) None (MsgCommit 40 50) with
  | (_, Ok t) => t
  | _ => None
  end.

Definition demo_sent (t : Transaction) : Batch :=
  mkBatch (tx_cursor t) (tx_commitTime t)
    (proj_changes (mkProjection (mkSpec "db" "public" "orders" "shop" ["shop"; "id"]) "public.orders") "a" t) None.

Lemma batch_fits_witness :
  match demo_emitted with
  | Some t =>
      length (b_changes (demo_sent t)) = 2%nat ∧
      ∃ event, @convertBatch hex_lsn_text demo_server (demo_sent t) = Ok event ∧
        @message_size demo_sizes event ≤ Dial []
  | None => False
  end.
Proof.
  unfold demo_emitted. destruct (Consume (consume_states _ _) None _) as [d [[t|]|]] eqn:Hd; [|by vm_compute in Hd..].
  pose proof Hd as Ht. vm_compute in Ht. injection Ht as _ Ht.
  assert (length (b_changes (demo_sent t)) = 2%nat) as Hlen by (subst t; vm_compute; reflexivity).
  assert (Forall (λ c, short_columns c ≤ 32) (tx_changes t)) as Hshort
    by (subst t; apply (bool_decide_unpack _); vm_compute; exact I).
  assert (slen (@encodeCursor hex_lsn_text demo_server (b_cursor (demo_sent t))) ≤ 500) as Hcursor
    by (subst t; vm_compute; discriminate).
  split; [exact Hlen|].
  destruct (@convertBatch hex_lsn_text demo_server (demo_sent t)) as [event|] eqn:He;
    [|exfalso; subst t; vm_compute in He; discriminate He].
  exists event. split; [reflexivity|].
  refine (proj2 (@batch_fits demo_sizes demo_sizes_laws hex_lsn_text 0 0 0 demo_messages None 40 50 d t _ "a" demo_server
    (demo_sent t) event Hd eq_refl _ Hshort Hcursor He) _); [|vm_compute; discriminate].
  intros E. rewrite E in Hlen. discriminate Hlen.
Defined.

(** A wide table: columns of two letters, all empty strings. *)
Definition letters : list ascii :=
  Ascii.ascii_of_nat <$> (seq 97 26 ++ [95])%nat.

Definition wide_columns : list string :=
  a ← letters; b ← letters; [String a (String b EmptyString)].

Definition wide_change : Change :=
  mkChange OperationUpdate "public.t" {["aa" := "1"]} wide_columns (TextValue "1" :: replicate (length (tail wide_columns)) (TextValue "")).

Definition wide_changes : list Change := replicate (Z.to_nat 9600) wide_change.

Definition wide_batch : Batch := mkBatch (mkCursor "db" 100) 0 wide_changes None.

Lemma footprint_replicate n c : footprint (replicate n c) = Z.of_nat n * estimatedChangeBytes c.
Proof. unfold footprint. induction n as [|n IH]; [done|]. cbn [replicate]. rewrite fmap_cons. cbn [foldr]. lia. Qed.

Lemma convert_changes_replicate n c wc :
  convertChange c = Ok wc → convert_changes (replicate n c) = Ok (replicate n wc).
Proof. intros Hc. induction n as [|n IH]; [done|]. simpl. by rewrite Hc, IH. Qed.

Lemma sizes_replicate n wc :
  foldr (λ c n, field (change_size c) + n) 0 (replicate n wc) = Z.of_nat n * field (change_size wc).
Proof. induction n as [|n IH]; [done|]. cbn [replicate foldr]. lia. Qed.

(** The decoder takes changes one by one while they fit. *)
Lemma append_all d pending changes :
  dc_pending d = Some pending → dc_pendingBytes d + footprint changes ≤ dc_maxTransactionBytes d →
  zlen pending + zlen changes ≤ dc_maxTransactionChanges d →
  dc_pending (foldl (λ d c, (append_pending d c).1) d changes) = Some (pending ++ changes).
Proof.
  revert d pending. induction changes as [|c changes IH]; intros d pending Hp Hb Hn; [by rewrite app_nil_r|].
  assert (footprint (c :: changes) = estimatedChangeBytes c + footprint changes) as Hf by done. rewrite Hf in Hb.
  assert (0 ≤ footprint changes) as Hpos.
  { unfold footprint. clear. induction changes as [|c changes IH]; [done|]. rewrite fmap_cons. cbn [foldr].
    pose proof (estimatedChangeBytes_nonneg c). lia. }
  unfold zlen in *. cbn [length] in Hn. cbn [foldl]. unfold append_pending at 2. rewrite Hp.
  rewrite decide_False by (unfold zlen; lia). cbv zeta. rewrite decide_False by lia. cbn [fst].
  rewrite (IH _ (pending ++ [c])); [by rewrite <-app_assoc|done|simpl; lia|]. rewrite length_app. simpl. lia.
Qed.

Lemma wide_change_size : ∃ wc, convertChange wide_change = Ok wc ∧ field (change_size wc) = 7315.
Proof.
  assert (match convertChange wide_change with Ok wc => bool_decide (field (change_size wc) = 7315) | Err _ => false end = true)
    as Hc by (vm_compute; reflexivity).
  destruct (convertChange wide_change) as [wc|]; [|done]. exists wc. split; [done|]. by apply bool_decide_eq_true in Hc.
Qed.

(** Without the bound on short columns it does not hold: updates of a table of
    729 columns with names of two letters, all but one empty, are a transaction
    the decoder takes within the default limits, and its batch is more than the
    default client accepts. The batch is never split, so such a client cannot
    get past it. *)
Theorem wide_batch_exceeds `{ProtoSizeLaws} `{LsnText} :
  NoDup wide_columns ∧ zlen wide_columns ≤ 1600 ∧
  dc_pending (foldl (λ d c, (append_pending d c).1) (Consume NewDecoder None (MsgBegin 1 0)).1 wide_changes) =
    Some wide_changes ∧
  ∃ event, convertBatch demo_server wide_batch = Ok event ∧ Dial [] < message_size event.
Proof.
  split; [apply (bool_decide_unpack _); vm_compute; exact I|]. split; [by vm_compute|].
  assert (zlen wide_changes = 9600) as Hlen by (unfold zlen, wide_changes; rewrite length_replicate; lia).
  assert (footprint wide_changes = 9600 * 1732) as Hfoot.
  { unfold wide_changes. rewrite footprint_replicate, Z2Nat.id by lia.
    replace (estimatedChangeBytes wide_change) with 1732 by (vm_compute; reflexivity). lia. }
  split.
  - rewrite (append_all _ []); [done|done|rewrite Hfoot; by vm_compute|rewrite Hlen; by vm_compute].
  - destruct wide_change_size as (wc & Hc & Hsize). unfold convertBatch, wide_batch, wide_changes.
    cbn [b_changes b_cursor b_commitTime]. revert Hc. generalize wide_change as c. intros c Hc.
    assert (Z.of_nat (Z.to_nat 9600) = 9600) as Hn by lia. revert Hn. generalize (Z.to_nat 9600) as n. intros n Hn.
    rewrite (convert_changes_replicate _ _ _ Hc). eexists. split; [reflexivity|]. rewrite message_batch.
    unfold batch_size. cbn [wb_cursor wb_changes wb_commitTime]. rewrite sizes_replicate, Hsize, Hn.
    pose proof (slen_nonneg (encodeCursor demo_server (mkCursor "db" 100))) as Hcur. pose proof (field_bound _ Hcur).
    change (Dial []) with 67108864. rewrite (decide_True (P := (0 = zero_time))) by done.
    match goal with |- _ < field ?n => assert (9600 * 7315 ≤ n) as Hle by (destruct (decide _); lia);
      assert (0 ≤ n) as Hpos by lia end.
    pose proof (field_bound _ Hpos). lia.
Qed.
