(* ===== verification/Mirror.v ===== *)
(** * End to end: the hub's events, the server's messages, the client's rows

    What a watch sends, converted by the server, received by the client's
    [stream] and applied to its store, is the snapshot's rows with the owed
    transactions applied: the conversions and the packing lose nothing, and the
    protocol never makes the client refuse a message. *)

From stdpp Require Import functions.
From S2P Require Import Prelude Errors CdcTypes Visibility Events Hub HubRegistry HubAccept HubWindow.
From S2P Require Import HubProps HubWatch HubSystem HubProtocol HubDelivery HubMemo.
From S2P Require Import Wire Server Store Client ClientProps.
Local Open Scope string_scope.
Local Open Scope list_scope.
Local Open Scope Z_scope.

(** ** What the client should hold *)

Definition sdk_any (value : anyValue) : sdkValue :=
  match value with
  | AnyString text => mkSdkValue text false false
  | _ => mkSdkValue "" true false
  end.

Definition sdk_row (row : anyRow) : Row := sdk_any <$> row.

Definition sdk_value (value : Value) : sdkValue :=
  match v_kind value with
  | ValueText => mkSdkValue (v_text value) false false
  | ValueUnchangedToast => mkSdkValue "" false true
  | _ => mkSdkValue "" true false
  end.

(** A change's columns with their values; of two columns with one name, the
    later wins. *)
Definition sdk_values (columns : list string) (values : list Value) : Row :=
  foldl (λ row '(column, value), <[column := sdk_value value]> row) ∅ (zip columns values).

Definition sdk_operation (operation : string) : Operation :=
  if decide (operation = OperationInsert) then Insert
  else if decide (operation = OperationUpdate) then Update else Delete.

Definition sdk_change (change : Change) : sdkChange :=
  mkSdkChange (sdk_operation (ch_operation change)) (ch_table change) (ch_key change)
    (sdk_values (ch_columns change) (ch_values change)).

Definition sdk_batch `{LsnText} (s : Server) (data : Cursor * Z * list Change) : sdkBatch :=
  let '(cursor, commitTime, changes) := data in
  mkSdkBatch (encodeCursor s cursor) commitTime (sdk_change <$> changes).

(** ** Conversions lose nothing *)

Lemma convertRow_spec row w : convertRow row = Ok w → convertValues w = sdk_row row.
Proof.
  unfold convertRow, convertValues, sdk_row. destruct (decide _) as [Hall|]; [|done]. intros [= <-].
  apply map_eq. intros c. rewrite lookup_omap, lookup_omap, lookup_fmap.
  destruct (row !! c) as [v|] eqn:Hv; simpl; [|done]. apply Hall in Hv. by destruct v.
Qed.

Lemma convertKind_spec value k : convertKind value = Ok k → convert_value k = Some (sdk_value value).
Proof. unfold convertKind, sdk_value. by destruct (v_kind value); intros [= <-]. Qed.

Lemma convert_values_spec columns values m m' :
  convert_values columns values m = Ok m' →
  convertValues m' = foldl (λ row '(column, value), <[column := sdk_value value]> row)
                       (convertValues m) (zip columns values).
Proof.
  revert columns m. induction values as [|v values IH]; intros columns m; simpl.
  { intros [= ->]. by destruct columns. }
  destruct columns as [|c columns]; [done|]. destruct (convertKind v) as [k|] eqn:Hk; simpl; [|done].
  intros ->%IH. f_equal. apply convertKind_spec in Hk. unfold convertValues.
  by rewrite (omap_insert_Some _ _ _ _ _ Hk).
Qed.

Lemma convertChange_spec change w : convertChange change = Ok w → convert_change w = sdk_change change.
Proof.
  unfold convertChange. destruct (Server.operations _) as [op|] eqn:Hop; [|done].
  destruct (convertChangeValues _ _) as [values|] eqn:Hv; simpl; [|done]. intros [= <-].
  unfold convert_change, sdk_change. simpl. f_equal.
  - unfold Server.operations, sdk_operation in *. by go_cases.
  - by apply convert_values_spec in Hv as ->.
Qed.

Lemma convert_changes_spec changes ws :
  convert_changes changes = Ok ws → convert_change <$> ws = sdk_change <$> changes.
Proof.
  revert ws. induction changes as [|c changes IH]; intros ws; simpl; [by intros [= <-]|].
  destruct (convertChange c) as [w|] eqn:Hc; simpl; [|done].
  destruct (convert_changes changes) as [rest|]; simpl; [|done]. intros [= <-].
  rewrite !fmap_cons, (IH rest) by done. by rewrite (convertChange_spec c w).
Qed.

Lemma convertBatch_spec `{LsnText} s b e :
  Server.convertBatch s b = Ok e →
  ∃ w, e = WatchResponse_Batch w ∧ convertBatch w = sdk_batch s (batch_data b) ∧
       wb_cursor w = encodeCursor s (b_cursor b).
Proof.
  unfold Server.convertBatch. destruct (convert_changes _) as [ws|] eqn:Hw; simpl; [|done]. intros [= <-].
  eexists. split; [done|]. split; [|done]. unfold convertBatch, sdk_batch, batch_data. simpl.
  rewrite (convert_changes_spec _ _ Hw). f_equal. unfold zero_time. by destruct (decide _).
Qed.

(** ** Sending a watch's events *)

Section Mirror.
Context `{LsnText} `{ProtoLaws} {S W P : Type} `{StoreLaws S W P}.
Context (s : Server).
#[local] Existing Instance collect_stream.

Abbreviation memo_store := (gmap nat (Memo streamMessage)).

(** The watches send concurrently: [es] is the order in which their events
    reach the server's streams. The memos are shared; a watch whose stream
    failed sends nothing more. *)
Fixpoint serve_events (memos : memo_store) (streams : wid → option (list streamMessage))
    (es : list (wid * Event)) : memo_store * (wid → option (list streamMessage)) :=
  match es with
  | [] => (memos, streams)
  | (w, e) :: rest =>
      match streams w with
      | None => serve_events memos streams rest
      | Some k =>
          let '(memos, (k, err)) := send s memos k e in
          serve_events memos (<[w := if err is Ok _ then Some k else None]> streams) rest
      end
  end.

(** The events of one watch, in order. *)
Definition events_of (w : wid) (es : list (wid * Event)) : list Event :=
  (base.filter (λ p, p.1 = w) es).*2.

(** Every loaded memo holds the encoding of the batch it belongs to; [origin]
    says which data each memo's batch has. *)
Definition encoded (b : Batch) : result error streamMessage :=
  let! converted := Server.convertBatch s b in encodedMessage converted.

Definition memos_ok (origin : nat → Batch) (memos : memo_store) : Prop :=
  ∀ m memo, memos !! m = Some memo →
    (m_once memo = true ∧ m_value memo = Some (encoded (origin m))) ∨ m_once memo = false.

(** The watches that share a memo send the same batch. *)
Definition memo_of (origin : nat → Batch) (e : Event) : Prop :=
  match e with
  | EvBatch b => ∀ m, b_memo b = Some m → encoded b = encoded (origin m)
  | _ => True
  end.

(** What one event does to the client. *)
Definition mirror (r : replica P) (e : Event) : replica P :=
  match e with
  | SnapshotBegin => mkReplica (rp_rows r) (rp_cursor r) (Some empty_rows)
  | SnapshotRows rows => mkReplica (rp_rows r) (rp_cursor r) ((λ b, put b (sdk_row <$> rows)) <$> rp_building r)
  | SnapshotEnd => mkReplica (default (rp_rows r) (rp_building r)) "" None
  | EvBatch b => mkReplica (apply_batch (rp_rows r) (sdk_batch s (batch_data b))) (encodeCursor s (b_cursor b)) None
  | Progress c => mkReplica (rp_rows r) (encodeCursor s c) None
  | Resync _ => r
  end.

(** The client can apply the event: rows only while it builds a snapshot. *)
Definition applies (r : replica P) (e : Event) : Prop :=
  match e with
  | SnapshotBegin => True
  | SnapshotRows _ | SnapshotEnd => is_Some (rp_building r)
  | EvBatch _ | Progress _ => rp_building r = None
  | Resync _ => False
  end.

Definition rows_message (rows : list wireRow) : streamMessage := MsgEvent (WatchResponse_SnapshotRows rows).

Lemma send_rows_collect k message bytes rows k' :
  send_rows s k message bytes rows = (k', Ok tt) →
  ∃ msgs ws, converts rows ws ∧ concat msgs = message ++ ws ∧ k' = k ++ (rows_message <$> msgs).
Proof.
  assert (∀ k m k', flush k m = Ok k' → ∃ msgs, concat msgs = m ∧ k' = k ++ (rows_message <$> msgs)) as Hflush.
  { intros k0 m k1. unfold flush. destruct (decide (m = [])) as [->|]; intros [= <-].
    - exists []. by rewrite app_nil_r.
    - exists [m]. simpl. by rewrite app_nil_r. }
  revert k message bytes. induction rows as [|row rows IH]; intros k message bytes Hs; cbn [send_rows] in Hs.
  { destruct (flush k message) as [k1|] eqn:Hf; [|done]. injection Hs as <-.
    apply Hflush in Hf as (msgs & Hc & ->). exists msgs, []. rewrite app_nil_r. split_and!; [constructor|done..]. }
  destruct (convertRow row) as [w|] eqn:Hw; [|done]. cbv zeta in Hs. destruct (decide _).
  - destruct (flush k message) as [k1|] eqn:Hf; [|done].
    apply Hflush in Hf as (msgs1 & Hc1 & ->). apply IH in Hs as (msgs2 & ws & Hconv & Hc2 & ->).
    exists (msgs1 ++ msgs2), (w :: ws). split_and!; [by constructor|by rewrite concat_app, Hc1, Hc2|].
    by rewrite fmap_app, app_assoc.
  - apply IH in Hs as (msgs & ws & Hconv & Hc & ->). exists msgs, (w :: ws).
    split_and!; [by constructor| |done]. by rewrite Hc, <-app_assoc.
Qed.

Lemma mapM_receives_events evs : mapM receives (MsgEvent <$> evs) = Some evs.
Proof. induction evs as [|e evs IH]; [done|]. rewrite fmap_cons. simpl. by rewrite IH. Qed.

Lemma converts_rows rows ws : converts rows ws → convertValues <$> ws = sdk_row <$> rows.
Proof.
  induction 1 as [|row w rows ws Hw _ IH]; [done|]. by rewrite !fmap_cons, IH, (convertRow_spec row w).
Qed.

Lemma replica_run_app (r : replica P) l1 l2 :
  replica_run r (l1 ++ l2) = r' ← replica_run r l1; replica_run r' l2.
Proof.
  revert r. induction l1 as [|e l1 IH]; intros r; [done|]. simpl.
  by destruct (replica_event r e); simpl.
Qed.

Lemma replica_run_put (r : replica P) b msgs :
  rp_building r = Some b →
  replica_run r (WatchResponse_SnapshotRows <$> msgs) =
  Some (mkReplica (rp_rows r) (rp_cursor r) (Some (put b (convertValues <$> concat msgs)))).
Proof.
  revert r b. induction msgs as [|m msgs IH]; intros r b Hb.
  { simpl. rewrite law_put_nil, <-Hb. by destruct r. }
  rewrite fmap_cons. cbn [replica_run]. unfold replica_event at 1. rewrite Hb. simpl.
  rewrite (IH _ (put b (convertValues <$> m))) by done. simpl. by rewrite fmap_app, law_put_app.
Qed.

(** What a memo's message is to the client. *)
Lemma encoded_receives b message :
  encoded b = Ok message →
  ∃ w, receives message = Some (WatchResponse_Batch w) ∧ convertBatch w = sdk_batch s (batch_data b) ∧
       wb_cursor w = encodeCursor s (b_cursor b).
Proof.
  unfold encoded, encodedMessage. destruct (Server.convertBatch s b) as [ev|] eqn:Hc; simpl; [|done].
  destruct (proto_marshal ev) as [bytes|] eqn:Hm; [|done]. intros [= <-]. simpl.
  apply convertBatch_spec in Hc as (w & -> & Hw & Hcur). exists w. by rewrite (proto_roundtrip _ _ Hm).
Qed.

(** [batchMessage] with a memo: the encoding of the batch, memos kept right. *)
Lemma batchMessage_memo origin memos b m memos' value :
  memos_ok origin memos → b_memo b = Some m → encoded b = encoded (origin m) →
  batchMessage s memos b = (memos', value) → memos_ok origin memos' ∧ value = encoded b.
Proof.
  intros Hok Hm Ho Hb. unfold batchMessage in Hb. rewrite Hm in Hb. change (λ _, _) with (λ _ : (), encoded b) in Hb.
  assert (∀ memo v called, Load (Some (default new_Memo (memos !! m))) (λ _, encoded b) = (memo, v, called) →
    v = encoded b ∧ memo = Some (mkMemo true (Some (encoded b)))) as Hload.
  { intros memo v called. unfold Load. destruct (memos !! m) as [old|] eqn:Hl; simpl; [|by intros [= <- <- <-]].
    destruct (Hok m old Hl) as [[Ho1 Ho2]|Ho1]; rewrite Ho1; [rewrite Ho2|by intros [= <- <- <-]].
    intros [= <- <- <-]. rewrite Ho. split; [done|]. destruct old; simpl in *. by subst. }
  destruct (Load _ _) as [[memo v] called]. destruct (Hload _ _ _ eq_refl) as [-> ->]. injection Hb as <- <-.
  split; [|done]. intros m' memo' Hl. apply lookup_insert_Some in Hl as [[<- <-]|[_ Hl]]; [|by apply Hok].
  left. simpl. by rewrite Ho.
Qed.

(** Whatever the outcome, sending keeps the memos right. *)
Lemma send_memos_ok origin memos k e memos' k' err :
  memos_ok origin memos → memo_of origin e → send s memos k e = (memos', (k', err)) → memos_ok origin memos'.
Proof.
  intros Hok Ho Hs. destruct e as [| | |b| |]; simpl in Hs; try (by injection Hs as <- _).
  destruct (batchMessage s memos b) as [memos1 value] eqn:Hb.
  assert (memos1 = memos') as <- by (destruct value; by injection Hs as <- _).
  destruct (b_memo b) as [m|] eqn:Hm.
  - by destruct (batchMessage_memo origin memos b m memos1 value) as [Hok1 _]; [..|by apply Ho| |].
  - unfold batchMessage in Hb. rewrite Hm in Hb. by injection Hb as <- _.
Qed.

(** One event: what the client receives for it is what it mirrors. *)
Lemma send_mirror origin memos k e memos' k' :
  memos_ok origin memos → memo_of origin e → send s memos k e = (memos', (k', Ok tt)) →
  memos_ok origin memos' ∧
  ∃ ms evs, k' = k ++ ms ∧ mapM receives ms = Some evs ∧
    ∀ r, applies r e → replica_run r evs = Some (mirror r e).
Proof.
  intros Hok Ho Hs.
  assert (∀ ev, (memos, send_one k (MsgEvent ev)) = (memos', (k', Ok tt)) →
    (∀ r, applies r e → replica_event r ev = Some (mirror r e)) →
    memos_ok origin memos' ∧
    ∃ ms evs, k' = k ++ ms ∧ mapM receives ms = Some evs ∧
      ∀ r, applies r e → replica_run r evs = Some (mirror r e)) as Hone.
  { intros ev [= <- <-] Hr. split; [done|]. exists [MsgEvent ev], [ev]. split_and!; [done..|].
    intros r Ha. simpl. by rewrite (Hr r Ha). }
  destruct e; simpl in Hs.
  - apply Hone in Hs; [done|]. by intros r _.
  - injection Hs as <- Hs. split; [done|]. apply send_rows_collect in Hs as (msgs & ws & Hc & Hcat & ->).
    exists (rows_message <$> msgs), (WatchResponse_SnapshotRows <$> msgs). split_and!; [done| |].
    + rewrite <-(mapM_receives_events (WatchResponse_SnapshotRows <$> msgs)). f_equal.
      rewrite <-list_fmap_compose. done.
    + intros r [b Hb]. rewrite (replica_run_put r b msgs Hb), Hcat. simpl. rewrite Hb. simpl.
      by rewrite (converts_rows _ _ Hc).
  - apply Hone in Hs; [done|]. intros r [b Hb]. unfold replica_event. simpl. by rewrite Hb.
  - destruct (batchMessage s memos batch) as [memos1 value] eqn:Hb.
    assert (∀ r w, applies r (EvBatch batch) → convertBatch w = sdk_batch s (batch_data batch) →
      wb_cursor w = encodeCursor s (b_cursor batch) →
      replica_event r (WatchResponse_Batch w) = Some (mirror r (EvBatch batch))) as Hap.
    { intros r w Ha Hw Hc. unfold replica_event. simpl in *. by rewrite Ha, Hw, Hc. }
    destruct (b_memo batch) as [m|] eqn:Hm.
    + destruct (batchMessage_memo origin memos batch m memos1 value) as [Hok1 ->]; [done|done|by apply Ho|done|].
      destruct (encoded batch) as [message|] eqn:He; [|done]. injection Hs as <- <- . split; [done|].
      apply encoded_receives in He as (w & Hrec & Hw & Hcur).
      exists [message], [WatchResponse_Batch w]. split_and!; [done|simpl; by rewrite Hrec|].
      intros r Ha. cbn [replica_run]. by rewrite (Hap r w).
    + unfold batchMessage in Hb. rewrite Hm in Hb. injection Hb as <- <-.
      destruct (Server.convertBatch s batch) as [ev|] eqn:Hc; simpl in Hs; [|done].
      apply convertBatch_spec in Hc as (w & -> & Hw & Hcur). apply Hone in Hs; [done|]. eauto.
  - apply Hone in Hs; [done|]. intros r Ha. unfold replica_event. simpl in *. by rewrite Ha.
  - apply Hone in Hs; [done|]. by intros r [].
Qed.

(** Events in order that the client can apply. *)
Fixpoint all_apply (r : replica P) (es : list Event) : Prop :=
  match es with
  | [] => True
  | e :: rest => applies r e ∧ all_apply (mirror r e) rest
  end.

Lemma mapM_option_app {A B} (f : A → option B) l1 l2 k1 k2 :
  mapM f l1 = Some k1 → mapM f l2 = Some k2 → mapM f (l1 ++ l2) = Some (k1 ++ k2).
Proof. rewrite !mapM_Some. apply Forall2_app. Qed.

(** Each stream that did not fail carries, for any interleaving, what the
    client needs to mirror that watch's events. *)
Lemma serve_events_mirror origin es memos streams w k1 :
  memos_ok origin memos → Forall (memo_of origin) es.*2 →
  (serve_events memos streams es).2 w = Some k1 →
  ∃ k ms evs, streams w = Some k ∧ k1 = k ++ ms ∧ mapM receives ms = Some evs ∧
    ∀ r, all_apply r (events_of w es) → replica_run r evs = Some (foldl mirror r (events_of w es)).
Proof.
  revert memos streams. induction es as [|[w' e] es IH]; intros memos streams Hok Ho Hs.
  { exists k1, [], []. by rewrite app_nil_r. }
  apply Forall_cons in Ho as [He Ho]. cbn [serve_events] in Hs. unfold events_of in *. rewrite filter_cons. simpl.
  destruct (streams w') as [k|] eqn:Hw'.
  2:{ destruct (IH _ _ Hok Ho Hs) as (k & ms & evs & Hk & Hrest). rewrite decide_False by congruence. eauto. }
  destruct (send s memos k e) as [memos1 [k' err]] eqn:Hse.
  assert (memos_ok origin memos1) as Hok1 by (by eapply send_memos_ok).
  destruct (IH _ _ Hok1 Ho Hs) as (k2 & ms2 & evs2 & Hk2 & -> & Hm2 & Hr2).
  destruct (decide (w' = w)) as [->|Hne].
  2:{ rewrite fn_lookup_insert_ne in Hk2 by done. eauto 10. }
  rewrite fn_lookup_insert in Hk2. destruct err as [[]|]; [|done]. injection Hk2 as ->.
  apply (send_mirror origin) in Hse as (_ & ms1 & evs1 & -> & Hm1 & Hr1); [|done..].
  exists k, (ms1 ++ ms2), (evs1 ++ evs2). split_and!; [done|by rewrite app_assoc|by apply mapM_option_app|].
  intros r [Ha Hall]. rewrite replica_run_app, (Hr1 r Ha). simpl. by apply Hr2.
Qed.

(** ** What the protocol makes of it *)

(** The rows of the snapshot among the events. *)
Fixpoint snapshot_rows (es : list Event) : list anyRow :=
  match es with
  | [] => []
  | SnapshotRows rows :: rest => rows ++ snapshot_rows rest
  | _ :: rest => snapshot_rows rest
  end.

Lemma snapshot_rows_app l1 l2 : snapshot_rows (l1 ++ l2) = snapshot_rows l1 ++ snapshot_rows l2.
Proof. induction l1 as [|[] l1 IH]; simpl; [done|done| |done..]. by rewrite IH, app_assoc. Qed.

Definition installs (es : list Event) : bool := existsb (λ e, if e is SnapshotEnd then true else false) es.

(** The rows a client with [before] should hold: those of the snapshot, when
    there was one, with the batches applied. *)
Definition expected_rows (before : P) (es : list Event) : P :=
  foldl apply_batch (if installs es
                     then put empty_rows (sdk_row <$> snapshot_rows es) else before)
    (sdk_batch s <$> batches_of es).

Definition mirror_state (r r' : replica P) (es : list Event) (st : pstate) : Prop :=
  rp_rows r' = expected_rows (rp_rows r) es ∧
  match st with
  | SSnapshot => rp_building r' = Some (put empty_rows (sdk_row <$> snapshot_rows es)) ∧
                 batches_of es = [] ∧ installs es = false
  | SInit => rp_building r' = None ∧ es = []
  | _ => rp_building r' = None
  end.

Lemma all_apply_app r l1 l2 : all_apply r (l1 ++ l2) ↔ all_apply r l1 ∧ all_apply (foldl mirror r l1) l2.
Proof.
  revert r. induction l1 as [|e l1 IH]; intros r; simpl; [naive_solver|]. rewrite IH. naive_solver.
Qed.

(** A stream that follows the protocol and has not ended can be applied. *)
Lemma protocol_mirror r es st :
  rp_building r = None → protocol SInit es = Some st → st ≠ SEnded →
  all_apply r es ∧ mirror_state r (foldl mirror r es) es st.
Proof.
  intros Hb. revert st. induction es as [|e es IH] using rev_ind; intros st Hp Hne.
  { injection Hp as <-. by split_and!. }
  rewrite protocol_app in Hp. destruct (protocol SInit es) as [st1|]; [|done]. simpl in Hp.
  destruct (proto_step st1 e) as [st2|] eqn:Hstep; [|done]. injection Hp as ->.
  assert (st1 ≠ SEnded) as Hne1 by (intros ->; by destruct e).
  destruct (IH st1 eq_refl Hne1) as (Hall & Hrows & Hst).
  rewrite all_apply_app, foldl_app. cbn [foldl all_apply].
  set (r1 := foldl mirror r es) in *. unfold mirror_state, expected_rows in *.
  unfold installs in *. rewrite snapshot_rows_app, batches_of_app, existsb_app, !fmap_app, foldl_app.
  destruct e as [|rows| |b|c|reason]; destruct st1 as [| | |c1|]; simplify_eq/=;
    rewrite ?orb_false_r, ?orb_true_r, ?app_nil_r; simpl; try (destruct (later c c1); simplify_eq/=).
  - destruct Hst as [_ ->]. split_and!; try done. simpl. by rewrite law_put_nil.
  - destruct Hst as (Hbuild & Hbs & Hend). split_and!; rewrite ?Hbuild; simpl; try done.
    + by rewrite Hend in Hrows |- *.
    + by rewrite law_put_app.
  - destruct Hst as (Hbuild & Hbs & Hend). split_and!; rewrite ?Hbuild, ?Hbs; simpl; done.
  - destruct Hst as [Hbuild ->]. by split_and!.
  - split_and!; try done. by rewrite Hrows.
  - split_and!; try done. by rewrite Hrows.
  - destruct Hst as [Hbuild ->]. by split_and!.
  - by split_and!.
  - by split_and!.
Qed.

(** The memos the hub shared say which batch each belongs to. *)
Lemma encoded_data b b' : batch_data b = batch_data b' → encoded b = encoded b'.
Proof. unfold encoded, Server.convertBatch. destruct b, b'. by intros [= -> -> ->]. Qed.

Definition sent_by (st : sys) (w : wid) : list Event := default [] (g_sent <$> s_gos st !! w).

Lemma elem_of_events_of w e es : e ∈ events_of w es ↔ (w, e) ∈ es.
Proof.
  unfold events_of. rewrite list_elem_of_fmap. split.
  - by intros ([w' e'] & -> & [[= ->] Hin]%list_elem_of_filter).
  - intros Hin. exists (w, e). split; [done|]. by apply list_elem_of_filter.
Qed.

Lemma served_memos sys a es :
  reachable sys a → (∀ w, events_of w es `prefix_of` sent_by sys w) → ∃ origin, Forall (memo_of origin) es.*2.
Proof.
  intros Hr Hes. destruct (reachable_memos _ _ Hr) as [o Ho].
  exists (λ i, let '(c, t, changes) := o i in mkBatch c t changes None).
  apply Forall_fmap, Forall_forall. intros [w e] Hin. simpl. destruct e as [| | |b| |]; try done.
  intros m Hm. apply encoded_data. apply elem_of_events_of in Hin.
  assert (EvBatch b ∈ sent_by sys w) as Hs by (destruct (Hes w) as [rest ->]; apply elem_of_app; by left).
  unfold sent_by in Hs. destruct (s_gos sys !! w) as [g|] eqn:Hg; simpl in Hs; [|by apply elem_of_nil in Hs].
  rewrite (Ho w g b m Hg Hs Hm). unfold batch_data. simpl. by destruct (o m) as [[]].
Qed.

(** A stream that follows the protocol and holds no Resync has not ended. *)
Lemma protocol_open es st : protocol SInit es = Some st → (∀ reason, Resync reason ∉ es) → st ≠ SEnded.
Proof.
  destruct es as [|e es _] using rev_ind; [by intros [= <-]|]. rewrite protocol_app. intros Hp Hno ->.
  destruct (protocol SInit es) as [st1|]; [|done]. simpl in Hp.
  destruct e as [| | | | |reason]; [..|by destruct (Hno reason); apply elem_of_app; right; apply elem_of_cons; left];
    destruct st1; simpl in Hp; try done. by destruct (later _ _).
Qed.

Lemma protocol_prefix es es' st :
  es `prefix_of` es' → protocol SInit es' = Some st → ∃ st', protocol SInit es = Some st'.
Proof. intros [rest ->]. rewrite protocol_app. destruct (protocol SInit es); [by eauto|done]. Qed.

Lemma batches_of_prefix es es' : es `prefix_of` es' → batches_of es `prefix_of` batches_of es'.
Proof. intros [rest ->]. rewrite batches_of_app. by exists (batches_of rest). Qed.

(** What reached a client is what its watch sent, mirrored. *)
Lemma served_mirror sys a es w g k rows cursor :
  reachable sys a → (∀ w', events_of w' es `prefix_of` sent_by sys w') →
  (serve_events ∅ (λ _, Some []) es).2 w = Some k →
  s_gos sys !! w = Some g → is_Some (h_heap (s_hub sys) !! w) →
  let sent := events_of w es in
  (∀ reason, Resync reason ∉ sent) →
  ∃ received st, mapM receives k = Some received ∧
    replica_run (mkReplica rows cursor None) received = Some (foldl mirror (mkReplica rows cursor None) sent) ∧
    sent `prefix_of` g_sent g ∧ protocol SInit sent = Some st ∧
    mirror_state (mkReplica rows cursor None) (foldl mirror (mkReplica rows cursor None) sent) sent st.
Proof.
  intros Hr Hes Hserve Hg [obj Hobj] sent Hno. pose proof (reachable_ok sys a Hr) as Hok.
  assert (sent `prefix_of` g_sent g) as Hpre by (specialize (Hes w); unfold sent_by in Hes; by rewrite Hg in Hes).
  destruct (served_memos sys a es Hr Hes) as [origin Ho].
  apply (serve_events_mirror origin) in Hserve as (k0 & ms & evs & [= <-] & -> & Hm & Hrun); [|by intros m memo|done].
  destruct (view_proto _ (so_view _ _ Hok w g obj Hg Hobj)) as (st' & Hst' & _).
  destruct (protocol_prefix sent _ _ Hpre Hst') as [st Hst].
  destruct (protocol_mirror (mkReplica rows cursor None) sent st) as (Hall & Hrows);
    [done|done|by eapply protocol_open|].
  exists evs, st. split_and!; [done|by apply Hrun|done..].
Qed.

(** C2 (refinement): end to end, a client mirrors its scope. Take any interleaving of the
    hub's accepts and watches, and any order in which the server's streams
    send the watches' events, with the encoded batches shared between streams.
    A client's stream receives what was sent to it so far, up to a Resync, and
    then anything that stores nothing: a Resync, rows of a snapshot cut short,
    an error. It refuses no message, and unless its own store fails its rows
    are the snapshot's rows (or, without a whole snapshot, the rows it had)
    with a prefix of the transactions the accepted history owes the watch
    applied in commit order, each once; with all of them when everything was
    sent and the watch waits, registered, with nothing queued. *)
Theorem client_mirrors_watch sys a es w g obj n k :
  reachable sys a → (∀ w', events_of w' es `prefix_of` sent_by sys w') →
  (serve_events ∅ (λ _, Some []) es).2 w = Some k →
  s_gos sys !! w = Some g → h_heap (s_hub sys) !! w = Some obj → a_need a !! w = Some n →
  let sent := events_of w es in
  let history := owed obj n (drop (aux_skip a w) (a_acc a)) in
  (∀ reason, Resync reason ∉ sent) →
  ∃ received, mapM receives k = Some received ∧
    ∀ cfg sy snapshot tail sy' request err, keeps tail →
      stream cfg sy snapshot None ((RecvEvent <$> received) ++ tail) = (sy', request, err) →
      (∃ e, err = Some (SyncStore e)) ∨
      ∃ bs, rows_of (sy_store sy') =
              foldl apply_batch (if installs sent then put empty_rows (sdk_row <$> snapshot_rows sent)
                                 else rows_of (sy_store sy)) (sdk_batch s <$> bs) ∧
        (tail = [] → err = None) ∧ bs `prefix_of` history ∧
        (∀ args vars p, sent = g_sent g → g_pc g = PcWait args vars p → w ∈ h_watchers (s_hub sys) →
           w_queue obj = [] → bs = history).
Proof.
  intros Hr Hes Hserve Hg Hobj Hn sent history Hno. pose proof (reachable_ok sys a Hr) as Hok.
  assert (∀ rows cursor, _) as Hm by (intros rows cursor; by eapply (served_mirror sys a es w g k rows cursor)).
  destruct (Hm empty_rows "") as (received & _ & Hrec & _). exists received. split; [done|].
  intros cfg sy snapshot tail sy' request err Hk Hs.
  destruct (Hm (rows_of (sy_store sy)) (cursor_of (sy_store sy)))
    as (received' & st & Hrec' & Hrun & Hpre & _ & Hrows & _).
  assert (received' = received) as -> by congruence.
  destruct (stream_applies _ _ _ _ _ _ _ _ _ Hrun Hk Hs) as [He|(Hrows' & _ & Herr)]; [by left|right].
  exists (batches_of sent). split_and!; [by rewrite Hrows'|done|by etrans; [apply batches_of_prefix|eapply sent_prefix]|].
  intros args vars p -> Hpc Hin Hq. by eapply idle_owed.
Qed.

End Mirror.

(** ** Two watches of one scope, served together *)

Definition demo_second_watch (w : wid) : list label :=
  [LWatch w (mkRequest "orders" "a" ""); LGo w ChGo; LGo w ChGo; LGo w ChGo;
   LGo w (ChRows []); LGo w (ChSnapshot (Ok (demo_snapshot 15 2)))] ++ repeat (LGo w ChGo) 9.

(** Both caught up, both woken by a third transaction, whose batch and memo
    they share. *)
Definition demo_shared : list label :=
  demo_snapshot_watch 0 ++ demo_second_watch 1 ++ [LAccept (demo_tx 30 3 "a" ["4"]); LCloseTick] ++
  LGo 0 ChTick :: repeat (LGo 0%nat ChGo) 5 ++ LGo 1 ChTick :: repeat (LGo 1%nat ChGo) 5.

Fixpoint interleave (es0 es1 : list Event) : list (wid * Event) :=
  match es0, es1 with
  | e0 :: es0, e1 :: es1 => (0%nat, e0) :: (1%nat, e1) :: interleave es0 es1
  | es0, es1 => (pair 0%nat <$> es0) ++ (pair 1%nat <$> es1)
  end.

Lemma events_of_app w l1 l2 : events_of w (l1 ++ l2) = events_of w l1 ++ events_of w l2.
Proof. unfold events_of. by rewrite filter_app, fmap_app. Qed.

Lemma events_of_cons w v e es :
  events_of w ((v, e) :: es) = if decide (v = w) then e :: events_of w es else events_of w es.
Proof.
  unfold events_of. destruct (decide (v = w)); [by rewrite filter_cons_True|by rewrite filter_cons_False].
Qed.

Lemma events_of_pair w v es : events_of w (pair v <$> es) = if decide (v = w) then es else [].
Proof.
  induction es as [|e es IH]; [by destruct (decide _)|]. rewrite fmap_cons, events_of_cons, IH.
  by destruct (decide _).
Qed.

Lemma events_of_interleave w es0 es1 :
  events_of w (interleave es0 es1) =
  (if decide (0%nat = w) then es0 else []) ++ (if decide (1%nat = w) then es1 else []).
Proof.
  revert es1. induction es0 as [|e0 es0 IH]; intros [|e1 es1]; cbn [interleave];
    try (by rewrite events_of_app, !events_of_pair).
  rewrite !events_of_cons, IH. destruct (decide (0%nat = w)), (decide (1%nat = w)); try done. congruence.
Qed.

Definition demo_sent (w : wid) : list Event := g_sent (demo_go 8 demo_shared w).
Definition demo_served : list (wid * Event) := interleave (demo_sent 0) (demo_sent 1).

Definition demo_streams : wid → option (list streamMessage) :=
  (@serve_events hex_lsn_text demo_proto demo_server ∅ (λ _, Some []) demo_served).2.

Lemma demo_served_sent w : events_of w demo_served `prefix_of` sent_by (demo_run 8 demo_shared) w.
Proof.
  unfold demo_served. rewrite events_of_interleave.
  assert (∀ v, is_Some (s_gos (demo_run 8 demo_shared) !! v) →
    sent_by (demo_run 8 demo_shared) v = demo_sent v) as Hsent
    by (intros v Hv; unfold sent_by; by rewrite (demo_go_Some _ _ _ Hv)).
  destruct (decide (0%nat = w)) as [<-|]; [|destruct (decide (1%nat = w)) as [<-|]; [|apply prefix_nil]].
  - rewrite Hsent by (vm_compute; eauto). rewrite decide_False by done. by rewrite app_nil_r.
  - rewrite Hsent by (vm_compute; eauto). reflexivity.
Qed.

Lemma no_resync es :
  existsb (λ e, if e is Resync _ then true else false) es = false → ∀ reason, Resync reason ∉ es.
Proof.
  intros He reason Hin. rewrite <-not_true_iff_false in He. apply He, existsb_exists.
  exists (Resync reason). by rewrite <-list_elem_of_In.
Qed.

Definition demo_mirrored : list wireEvent := default [] (mapM (@receives demo_proto) (default [] (demo_streams 1))).

(** The client of the second watch, whose stream breaks in the end. *)
Definition demo_mirror : syncer MemoryStore * option WatchRequest * option syncErr :=
  @stream _ _ (memory_store demo_primaryKey) demo_sync_config (new_syncer NewMemoryStore) false None
    ((RecvEvent <$> demo_mirrored) ++ [RecvErr Unavailable]).

Lemma client_mirrors_watch_witness :
  demo_mirror.2 = Some (SyncStatus Unavailable) ∧
  ∃ bs, mem_rows (sy_store demo_mirror.1.1) =
          foldl (@apply_batch _ _ _ _ (memory_spec demo_primaryKey)) ∅ (@sdk_batch hex_lsn_text demo_server <$> bs) ∧
    size (mem_rows (sy_store demo_mirror.1.1)) = 3%nat ∧ length bs = 2%nat.
Proof.
  assert (demo_mirror.2 = Some (SyncStatus Unavailable)) as Herr by (vm_compute; reflexivity). split; [done|].
  destruct (@client_mirrors_watch hex_lsn_text demo_proto demo_proto_laws MemoryStore memorySnapshot (gmap string Row)
    (memory_store demo_primaryKey) (memory_spec demo_primaryKey) (memory_laws demo_primaryKey)
    demo_server (demo_run 8 demo_shared) (demo_aux 8 demo_shared) demo_served 1
    (demo_go 8 demo_shared 1) (demo_obj 8 demo_shared 1) (NeedNotCovered (demo_snapshot 15 2))
    (default [] (demo_streams 1))) as (received & Hrec & Hstream).
  - apply demo_reachable. vm_compute. reflexivity.
  - apply demo_served_sent.
  - vm_compute. reflexivity.
  - apply demo_go_Some. vm_compute. eauto.
  - apply demo_obj_Some. vm_compute. eauto.
  - vm_compute. reflexivity.
  - apply no_resync. vm_compute. reflexivity.
  - assert (received = demo_mirrored) as -> by (unfold demo_mirrored; by rewrite Hrec). clear Hrec.
    destruct (Hstream demo_sync_config (new_syncer NewMemoryStore) false [RecvErr Unavailable]
      demo_mirror.1.1 demo_mirror.1.2 demo_mirror.2) as [[e He]|(bs & Hrows & _ & _ & Hidle)].
    + intros e He. apply list_elem_of_singleton in He. discriminate.
    + unfold demo_mirror. by destruct (stream _ _ _ _ _) as [[? ?] ?].
    + rewrite Herr in He. discriminate.
    + exists bs. split.
      { etrans; [exact Hrows|]. apply (f_equal (λ rows, foldl _ rows _)). vm_compute. reflexivity. }
      assert (bs = owed (demo_obj 8 demo_shared 1) (NeedNotCovered (demo_snapshot 15 2))
        (drop (aux_skip (demo_aux 8 demo_shared) 1) (a_acc (demo_aux 8 demo_shared)))) as Hbs.
      { eapply Hidle; [vm_compute; reflexivity..|apply (bool_decide_unpack _); vm_compute; done|vm_compute; reflexivity]. }
      split; [vm_compute; reflexivity|]. rewrite Hbs. vm_compute. reflexivity.
Defined.
