(* ===== verification/Table.v ===== *)
(** * A client's rows against the table's history

    The table a scope shows is its base with a history of transactions
    applied. A snapshot shows some of them, the stream delivers others, and a
    reconnect delivers some again: what a client's rows are then, and why they
    become the table, over any number of sessions. *)

From stdpp Require Import functions.
From S2P Require Import Prelude Errors CdcTypes Visibility Events Hub HubRegistry HubAccept HubWindow.
From S2P Require Import HubProps HubWatch HubSystem HubProtocol HubDelivery HubProgress HubMemo.
From S2P Require Import Wire Server Store Client ClientProps Mirror.
Local Open Scope string_scope.
Local Open Scope list_scope.
Local Open Scope Z_scope.

(** ** The table after a history *)

(** Commit order: a transaction's commit record starts where an earlier one's
    has ended. *)
Definition wal_order (a b : Transaction) : Prop := lsn (tx_cursor a) ≤ tx_commitLSN b.

(** Delivered by a resume at [c]. *)
Definition after (c : Cursor) (t : Transaction) : Prop := lsn c ≤ tx_commitLSN t.

#[export] Instance after_dec c t : Decision (after c t) := Z_le_dec _ _.

Section Table.
Context `{LsnText} (s : Server) (primaryKey : list string) (p : projection) (scope : string).

Abbreviation rows := (gmap string Row).

Definition tx_batch (t : Transaction) : sdkBatch := sdk_batch s (tx_data p scope t).

(** The scope's rows after the transactions, applied to [base] in order. *)
Definition table (base : rows) (ts : list Transaction) : rows :=
  foldl (memory_apply primaryKey) base (tx_batch <$> ts).

(** The changes of a transaction to the scope, those it applies. *)
Definition tx_changes (t : Transaction) : list sdkChange := applied primaryKey (sb_changes (tx_batch t)).

(** A transaction writes a row, named by its key. *)
Definition writes (id : string) (t : Transaction) : Prop :=
  base.filter (λ c, keyOf primaryKey (sc_key c) = Ok id) (tx_changes t) ≠ [].

#[local] Instance writes_dec id t : Decision (writes id t) := _.

(** What a history makes of one row. *)
Definition row_history (id : string) (ts : list Transaction) (r : option Row) : option Row :=
  row_effects primaryKey id (mjoin (tx_changes <$> ts)) r.

Lemma all_applied_history ts : all_applied primaryKey (tx_batch <$> ts) = mjoin (tx_changes <$> ts).
Proof.
  unfold all_applied. induction ts as [|t ts IH]; [done|]. rewrite !fmap_cons. csimpl. by rewrite IH.
Qed.

Lemma table_lookup base ts id : table base ts !! id = row_history id ts (base !! id).
Proof. unfold table, row_history. by rewrite memory_apply_lookup, all_applied_history. Qed.

Lemma table_app base ts ts' : table base (ts ++ ts') = table (table base ts) ts'.
Proof. unfold table. by rewrite fmap_app, foldl_app. Qed.

Lemma row_history_app id ts ts' r : row_history id (ts ++ ts') r = row_history id ts' (row_history id ts r).
Proof. unfold row_history. by rewrite fmap_app, join_app, row_effects_app. Qed.

(** Only the transactions that write the row matter to it. *)
Lemma row_history_writes id ts r : row_history id (base.filter (writes id) ts) r = row_history id ts r.
Proof.
  revert r. induction ts as [|t ts IH]; intros r; [done|]. rewrite filter_cons.
  change (t :: ts) with ([t] ++ ts). rewrite row_history_app. destruct (decide (writes id t)) as [Hw|Hw].
  - change (t :: base.filter (writes id) ts) with ([t] ++ base.filter (writes id) ts).
    by rewrite row_history_app, IH.
  - rewrite IH. f_equal. unfold row_history, row_effects. csimpl. rewrite app_nil_r.
    unfold writes in Hw. by rewrite (dec_stable Hw).
Qed.

Lemma row_history_same id ts ts' r :
  base.filter (writes id) ts = base.filter (writes id) ts' → row_history id ts r = row_history id ts' r.
Proof. intros Heq. by rewrite <-(row_history_writes id ts), Heq, row_history_writes. Qed.

(** Replaying the end of a history changes nothing. *)
Lemma row_history_again id ts ts' r :
  row_history id ts' (row_history id (ts ++ ts') r) = row_history id (ts ++ ts') r.
Proof. rewrite row_history_app. apply row_effects_again. Qed.

Lemma table_again base ts ts' : table (table base (ts ++ ts')) ts' = table base (ts ++ ts').
Proof. unfold table. rewrite fmap_app. apply memory_apply_again. Qed.

(** A transaction that does not touch the scope writes none of its rows. *)
Lemma irrelevant_writes id t : ¬ relevant p scope t → ¬ writes id t.
Proof.
  intros Hr%dec_stable Hw. apply Hw. unfold tx_changes, tx_batch, sdk_batch, tx_data. by rewrite Hr.
Qed.

Lemma filter_writes_comm id (P : Transaction → Prop) `{∀ t, Decision (P t)} (ts : list Transaction) :
  base.filter (writes id) (base.filter P ts) = base.filter P (base.filter (writes id) ts).
Proof. rewrite !list_filter_filter. apply list_filter_iff. naive_solver. Qed.

(** Transactions left out that do not touch the scope are not missed. *)
Lemma writes_filter id (P : Transaction → Prop) `{∀ t, Decision (P t)} (ts : list Transaction) :
  (∀ t, t ∈ ts → relevant p scope t → P t) →
  base.filter (writes id) (base.filter P ts) = base.filter (writes id) ts.
Proof.
  intros HP. rewrite filter_writes_comm. apply list_filter_all, Forall_forall.
  intros t [Hw Ht]%list_elem_of_filter. apply HP; [done|]. destruct (decide (relevant p scope t)) as [|Hn]; [done|].
  by destruct (irrelevant_writes id t Hn).
Qed.

Lemma table_filter base (P : Transaction → Prop) `{∀ t, Decision (P t)} (ts : list Transaction) :
  (∀ t, t ∈ ts → relevant p scope t → P t) → table base (base.filter P ts) = table base ts.
Proof. intros HP. apply map_eq. intros id. rewrite !table_lookup. by apply row_history_same, writes_filter. Qed.

(** What is owed, applied, is the table with what is needed. *)
Lemma table_owed obj n base ts :
  w_projection obj = p → w_scope obj = scope →
  foldl (memory_apply primaryKey) base (sdk_batch s <$> owed obj n ts) = table base (base.filter (needed n) ts).
Proof.
  intros Hp Hs. unfold owed. rewrite Hp, Hs, <-list_fmap_compose.
  transitivity (table base (base.filter (relevant p scope) (base.filter (needed n) ts))).
  - rewrite list_filter_filter. unfold table. do 2 f_equal. apply list_filter_iff. naive_solver.
  - apply table_filter. naive_solver.
Qed.

(** ** Rows that see some transactions and not others *)

(** Two transactions write one row of the scope. *)
Definition shares_row (a b : Transaction) : Prop := ∃ id, writes id a ∧ writes id b.

(** [D] holds of every earlier writer of a row with one: PostgreSQL's row
    locks make a transaction wait for the writers of the row before it. *)
Definition row_closed (D : Transaction → Prop) (ts : list Transaction) : Prop :=
  StronglySorted (λ a b, D b → shares_row a b → D a) ts.

Section Closed.
Context (D : Transaction → Prop) `{∀ t, Decision (D t)}.

Notation seen := (base.filter D).
Notation unseen := (base.filter (λ t, ¬ D t)).

Lemma closed_later t ts id :
  Forall (λ b, D b → shares_row t b → D t) ts → writes id t → ¬ D t → base.filter (writes id) (seen ts) = [].
Proof.
  intros Hall Hw Hn. apply list_filter_none, Forall_forall. intros u [Hd Hu]%list_elem_of_filter Hwu.
  eapply Forall_forall in Hall; [|done]. apply Hn, Hall; [done|by exists id].
Qed.

(** Of one row's writers, those with [D] come first. *)
Lemma row_split ts id :
  row_closed D ts →
  base.filter (writes id) ts = base.filter (writes id) (seen ts) ++ base.filter (writes id) (unseen ts).
Proof.
  induction 1 as [|t ts Hs IH Ht]; [done|]. rewrite !(filter_cons _ t ts).
  destruct (decide (writes id t)) as [Hw|Hw].
  - destruct (decide (D t)) as [Hd|Hd].
    + rewrite (decide_False (P := ¬ D t)), filter_cons_True, IH by naive_solver. done.
    + rewrite (decide_True (P := ¬ D t)), filter_cons_True, IH by done.
      by rewrite (closed_later t ts id) by done.
  - destruct (decide (D t)) as [Hd|Hd].
    + rewrite (decide_False (P := ¬ D t)), filter_cons_False by naive_solver. done.
    + rewrite (decide_True (P := ¬ D t)), filter_cons_False by done. done.
Qed.

(** Those seen, then those that are not, give the whole history. *)
Lemma table_seen base ts :
  row_closed D ts → table (table base (seen ts)) (unseen ts) = table base ts.
Proof.
  intros Hc. rewrite <-table_app. apply map_eq. intros id. rewrite !table_lookup. apply row_history_same.
  by rewrite filter_app, (row_split ts id).
Qed.

(** A snapshot ahead of the stream: the rows are the table at the stream's
    position with what the snapshot saw beyond it. *)
Lemma table_ahead base p1 p2 :
  row_closed D (p1 ++ p2) →
  table (table base (seen (p1 ++ p2))) (unseen p1) = table (table base p1) (seen p2).
Proof.
  intros Hc. rewrite <-!table_app. apply map_eq. intros id. rewrite !table_lookup. apply row_history_same.
  pose proof (StronglySorted_app_1_l _ _ _ Hc) as Hc1.
  rewrite filter_app, !filter_app, (row_split p1 id), <-!app_assoc by done. f_equal.
  destruct (base.filter (writes id) (unseen p1)) as [|a l] eqn:Ha; [by rewrite app_nil_r|].
  destruct (base.filter (writes id) (seen p2)) as [|b l'] eqn:Hb; [by rewrite app_nil_r|].
  assert (a ∈ base.filter (writes id) (unseen p1)) as Hina by (rewrite Ha; by left).
  assert (b ∈ base.filter (writes id) (seen p2)) as Hinb by (rewrite Hb; by left).
  apply list_elem_of_filter in Hina as [Hwa [Hna Hina]%list_elem_of_filter].
  apply list_elem_of_filter in Hinb as [Hwb [Hdb Hinb]%list_elem_of_filter].
  destruct Hna. eapply (StronglySorted_app_1_elem_of _ _ _ _ _ Hc Hina Hinb); [done|by exists id].
Qed.

End Closed.

(** ** Histories in commit order *)

Record history_ok (source : string) (ts : list Transaction) : Prop := {
  ho_wf t : t ∈ ts → wf_tx source t;
  ho_order : StronglySorted wal_order ts
}.

(** Once past a position, a history stays past it. *)
Lemma after_suffix source c ts :
  history_ok source ts → ∃ l, ts = l ++ base.filter (after c) ts.
Proof.
  intros [Hwf Hs]. induction Hs as [|t ts Hs IH Ht]; [by exists []|]. rewrite filter_cons.
  destruct (decide (after c t)) as [Ha|Ha].
  - exists []. simpl. f_equal. symmetry. apply list_filter_all, Forall_forall. intros u Hu.
    eapply Forall_forall in Ht; [|done]. destruct (Hwf t) as [_ Hlt]; [by left|]. unfold wal_order, after in *. lia.
  - destruct IH as [l IH]; [intros u Hu; apply Hwf; by right|]. exists (t :: l). simpl. by f_equal.
Qed.

Lemma history_ok_sub source (P : Transaction → Prop) `{∀ t, Decision (P t)} (ts : list Transaction) :
  history_ok source ts → history_ok source (base.filter P ts).
Proof.
  intros [Hwf Hs]. split; [|by apply StronglySorted_filter]. intros t [_ Ht]%list_elem_of_filter. by apply Hwf.
Qed.

Lemma history_ok_l source ts ts' : history_ok source (ts ++ ts') → history_ok source ts.
Proof.
  intros [Hwf Hs]. split; [intros t Ht; apply Hwf; set_solver|]. by eapply StronglySorted_app_1_l.
Qed.

(** Rows that a resume at [c] turns into the table, once the stream is past
    the first [m] transactions of the history. *)
Definition catches_up (base : rows) (hist : list Transaction) (rs : rows) (c : Cursor) (m : nat) : Prop :=
  ∀ ts rest, hist = ts ++ rest → (m ≤ length ts)%nat → table rs (base.filter (after c) ts) = table base ts.

(** A session that resumed at [c] and got as far as [ts]: resumed again, later,
    it delivers the end of that again. *)
Lemma catches_up_resumed base source hist rs c m ts rest c' :
  history_ok source hist → hist = ts ++ rest → catches_up base hist rs c m → lsn c ≤ lsn c' →
  (∀ t, t ∈ rest → relevant p scope t → after c t → after c' t) →
  catches_up base hist (table rs (base.filter (after c) ts)) c' (m `max` length ts).
Proof.
  intros Hok HH Hup Hle Hrest P Q HPQ Hlen. rewrite HPQ in HH. symmetry in HH.
  assert (∀ l : list Transaction, base.filter (after c') (base.filter (after c) l) = base.filter (after c') l) as Hcc.
  { intros l. rewrite list_filter_filter. apply list_filter_iff. unfold after. intros t. lia. }
  destruct (prefix_split ts rest P Q HH) as (x & -> & ->); [lia|].
  rewrite filter_app, table_app, <-(Hcc ts).
  destruct (after_suffix source c' (base.filter (after c) ts)) as [l Hl].
  { rewrite HPQ, <-app_assoc in Hok. apply history_ok_sub. by eapply history_ok_l. }
  replace (table rs (base.filter (after c) ts)) with (table rs (l ++ base.filter (after c') (base.filter (after c) ts)))
    by (by rewrite <-Hl).
  rewrite table_again, <-Hl, <-(Hcc x), table_filter, <-table_app, <-filter_app.
  - apply (Hup _ Q HPQ). lia.
  - intros t [Ha Ht]%list_elem_of_filter Hr. apply Hrest; [set_solver|done..].
Qed.

(** A session that started from a snapshot and got as far as [ts]. *)
Lemma catches_up_snapshot base source hist (D : Transaction → Prop) `{∀ t, Decision (D t)} m ts rest c' :
  history_ok source hist → hist = ts ++ rest → row_closed D hist →
  (∀ ts' rest', hist = ts' ++ rest' → (m ≤ length ts')%nat → ∀ t, t ∈ rest' → ¬ D t) →
  (∀ t, t ∈ rest → relevant p scope t → ¬ D t → after c' t) →
  catches_up base hist (table (table base (base.filter D hist)) (base.filter (λ t, ¬ D t) ts)) c' (m `max` length ts).
Proof.
  intros Hok HH Hc Hend Hrest P Q HPQ Hlen. assert (ts ++ rest = P ++ Q) as Heq by congruence.
  destruct (prefix_split ts rest P Q Heq) as (x & -> & ->); [lia|]. clear Heq.
  rewrite HH in Hc |- *. rewrite (table_ahead D) by done.
  rewrite filter_app, (list_filter_none D Q), app_nil_r
    by (apply Forall_forall, (Hend _ Q HPQ); lia).
  rewrite <-!table_app. apply map_eq. intros id. rewrite !table_lookup.
  assert (row_closed D x) as Hcx by (apply StronglySorted_app_1_r, StronglySorted_app_1_l in Hc; done).
  set (W := base.filter (writes id) : list Transaction → list Transaction). set (K := ts ++ base.filter D x).
  assert (W (ts ++ x) = W K ++ W (base.filter (λ t, ¬ D t) x)) as HW.
  { subst W K. rewrite !filter_app, <-app_assoc. f_equal. by apply row_split. }
  assert (W (base.filter (after c') (ts ++ x)) = base.filter (after c') (W K) ++ W (base.filter (λ t, ¬ D t) x)) as HA.
  { subst W. rewrite filter_writes_comm, HW, filter_app. f_equal. apply list_filter_all, Forall_forall.
    intros t [Hw [Hn Ht]%list_elem_of_filter]%list_elem_of_filter. apply Hrest; [set_solver| |done].
    destruct (decide (relevant p scope t)) as [|Hr]; [done|]. by destruct (irrelevant_writes id t Hr). }
  assert (history_ok source (W K)) as HokK.
  { eapply history_ok_l. rewrite <-HW. subst W. apply history_ok_sub.
    rewrite HPQ in Hok. by eapply history_ok_l. }
  destruct (after_suffix source c' (W K) HokK) as [l Hl].
  rewrite app_assoc, row_history_app. fold K.
  rewrite <-(row_history_writes id K), <-(row_history_writes id (base.filter _ _)). fold (W K).
  fold (W (base.filter (after c') (ts ++ x))). rewrite HA, row_history_app.
  replace (row_history id (W K) (base !! id)) with (row_history id (l ++ base.filter (after c') (W K)) (base !! id))
    by (by rewrite <-Hl).
  rewrite row_history_again, <-Hl, <-row_history_app, <-HW. apply row_history_writes.
Qed.
End Table.
