(* ===== verification/Sessions.v ===== *)
(** * A client over its sessions

    A client's [Sync] starts from a snapshot, loses its stream, resumes at the
    last cursor it stored, perhaps at another server, and so on, each time by a
    turn of its loop. Against one history of transactions its rows catch up
    with the table. *)

From stdpp Require Import functions.
From S2P Require Import Prelude Errors CdcTypes Visibility Events Hub HubRegistry HubAccept HubWindow.
From S2P Require Import HubProps HubWatch HubSystem HubProtocol HubDelivery HubProgress HubMemo.
From S2P Require Import Wire Server Store Client ClientProps Mirror Table.
Local Open Scope string_scope.
Local Open Scope list_scope.
Local Open Scope Z_scope.

(** ** Cursors sent *)

Definition event_cursor (e : Event) : option Cursor :=
  match e with EvBatch b => Some (b_cursor b) | Progress c => Some c | _ => None end.

(** The last cursor among the events. *)
Definition sent_cursor (es : list Event) : option Cursor := last (omap event_cursor es).

Lemma sent_cursor_snoc es e :
  sent_cursor (es ++ [e]) = match event_cursor e with Some c => Some c | None => sent_cursor es end.
Proof.
  unfold sent_cursor. rewrite omap_app. csimpl. destruct (event_cursor e); [by rewrite last_snoc|by rewrite app_nil_r].
Qed.

(** The event that sent it; what follows sent no other, and no batch. *)
Lemma sent_cursor_Some es c :
  sent_cursor es = Some c →
  ∃ pre e post, es = pre ++ e :: post ∧ event_cursor e = Some c ∧ omap event_cursor post = [].
Proof.
  induction es as [|e es IH] using rev_ind; [done|]. rewrite sent_cursor_snoc.
  destruct (event_cursor e) as [c'|] eqn:He.
  - intros [= ->]. by exists es, e, [].
  - intros (pre & e' & post & -> & He' & Hb)%IH. exists pre, e', (post ++ [e]).
    rewrite <-app_assoc, omap_app, Hb. csimpl. by rewrite He.
Qed.

Lemma sent_cursor_None es : sent_cursor es = None → batches_of es = [].
Proof.
  unfold sent_cursor. rewrite last_None. induction es as [|[] es IH]; csimpl; intros He; try done; by apply IH.
Qed.

(** A stream that begins with a snapshot sends a cursor only after its end. *)
Lemma protocol_installs es st :
  protocol SInit es = Some st → head es = Some SnapshotBegin → installs es = false →
  sent_cursor es = None ∧ (st = SSnapshot ∨ st = SEnded).
Proof.
  destruct es as [|e es]; [done|]. intros Hp [= ->]. unfold sent_cursor, installs. csimpl.
  cbn [protocol proto_step] in Hp. revert Hp.
  induction es as [|e es IH]; [intros [= <-] _; auto|]. cbn [protocol]. destruct e; csimpl; try done; try apply IH.
  destruct es as [|[] es]; simpl; try done. intros [= <-]. auto.
Qed.

Section Sessions.
Context `{LsnTextLaws} `{ProtoLaws} (s : Server) (primaryKey : list string) (p : projection) (scope : string).
Context (cfg : SyncConfig).

Abbreviation rows := (gmap string Row).

#[local] Instance client_store : Store MemoryStore memorySnapshot := memory_store primaryKey.
#[local] Instance client_spec : StoreSpec MemoryStore memorySnapshot rows := memory_spec primaryKey.
#[local] Instance client_laws : StoreLaws MemoryStore memorySnapshot rows := memory_laws primaryKey.

#[local] Abbreviation mirror := (mirror (S := MemoryStore) (W := memorySnapshot) s).
#[local] Abbreviation stored_rows sy := (mem_rows (sy_store sy)).
#[local] Abbreviation stored_cursor sy := (mem_cursor (sy_store sy)).

(** What the replica stores with its rows: the last cursor sent; none once a
    snapshot replaced the rows. *)
Definition cursor_after (before : string) (es : list Event) : string :=
  match sent_cursor es with
  | Some c => encodeCursor s c
  | None => if installs es then "" else before
  end.

Lemma mirror_cursor (r : replica rows) es st :
  protocol SInit es = Some st →
  rp_cursor (foldl mirror r es) = cursor_after (rp_cursor r) es ∧
  (st = SInit ∨ st = SSnapshot → sent_cursor es = None).
Proof.
  revert st. induction es as [|e es IH] using rev_ind; intros st; [done|].
  rewrite protocol_app, foldl_app. destruct (protocol SInit es) as [st1|]; [|done]. simpl.
  destruct (proto_step st1 e) as [st2|] eqn:Hstep; [|done]. intros [= <-].
  destruct (IH st1 eq_refl) as [Hc Hn]. unfold cursor_after, installs in *.
  rewrite sent_cursor_snoc, existsb_app.
  destruct e, st1; simplify_eq/=; rewrite ?orb_false_r, ?orb_true_r, ?Hn by auto;
    try destruct (later _ _); simplify_eq/=; split; auto; try (by intros [|]);
    by rewrite Hn in Hc by auto.
Qed.

(** ** One session *)

(** A watch served to one client: the hub's process, the order its server sent
    the watches' events in, and the history before the hub's first
    transaction. *)
Record session : Type := mkSession {
  se_sys : sys;
  se_aux : aux;
  se_events : list (wid * Event);
  se_watch : wid;
  se_go : goroutine;
  se_obj : watcher;
  se_need : need;
  se_old : list Transaction
}.

Definition se_sent (ss : session) : list Event := events_of (se_watch ss) (se_events ss).

(** The history up to what the hub has accepted. *)
Definition se_history (ss : session) : list Transaction := se_old ss ++ a_acc (se_aux ss).

Definition se_reach (ss : session) : nat := length (se_history ss).

(** What the watch can still be sent, and the first transactions, which it
    cannot get from the hub. *)
Definition se_owable (ss : session) : list Transaction :=
  drop (aux_skip (se_aux ss) (se_watch ss)) (a_acc (se_aux ss)).

Definition se_gone (ss : session) : list Transaction :=
  se_old ss ++ take (aux_skip (se_aux ss) (se_watch ss)) (a_acc (se_aux ss)).

Lemma gone_owable ss : se_gone ss ++ se_owable ss = se_history ss.
Proof. unfold se_gone, se_owable, se_history. by rewrite <-app_assoc, take_drop. Qed.

Context (source : string) (hist : list Transaction) (base : rows).

(** The session is one of [hist]: the hub accepted a part of it, and the watch
    is of the scope. [se_sent] is what it was sent, up to a Resync. *)
Record session_ok (ss : session) : Prop := {
  so_reach : reachable (se_sys ss) (se_aux ss);
  so_source : h_sourceID (s_hub (se_sys ss)) = source;
  so_served w : events_of w (se_events ss) `prefix_of` sent_by (se_sys ss) w;
  so_go : s_gos (se_sys ss) !! se_watch ss = Some (se_go ss);
  so_obj : h_heap (s_hub (se_sys ss)) !! se_watch ss = Some (se_obj ss);
  so_need : a_need (se_aux ss) !! se_watch ss = Some (se_need ss);
  so_projection : w_projection (se_obj ss) = p;
  so_scope : w_scope (se_obj ss) = scope;
  so_history : ∃ future, hist = se_history ss ++ future;
  so_stays reason : Resync reason ∉ se_sent ss
}.

(** A turn of the client's Sync on the session: its stream receives what the
    server sent it, and then anything that stores nothing: a Resync, rows of a
    snapshot cut short, an error. Sync goes on, so the store has not failed. *)
Definition runs (ss : session) (sy : syncer MemoryStore) (v : sync_vars) (request : WatchRequest)
    (sy' : syncer MemoryStore) (out : sync_result) : Prop :=
  session_ok ss ∧
  ∃ i k received tail, (serve_events s ∅ (λ _, Some []) (se_events ss)).2 (se_watch ss) = Some k ∧
    mapM receives k = Some received ∧ keeps tail ∧
    si_open i = None ∧ si_inputs i = (RecvEvent <$> received) ++ tail ∧
    sync_turn cfg sy v i = (sy', Some request, out) ∧ (∀ e, out ≠ SyncReturns e).

(** It was sent all its watch sent, which waits, registered, with nothing
    queued. *)
Definition idle (ss : session) : Prop :=
  se_sent ss = g_sent (se_go ss) ∧ (∃ args vars q, g_pc (se_go ss) = PcWait args vars q) ∧
  se_watch ss ∈ h_watchers (s_hub (se_sys ss)) ∧ w_queue (se_obj ss) = [].

(** A position of the source; positions are 64 bits wide. *)
Definition place (c : Cursor) : Prop := sourceID c = source ∧ is_u64 (lsn c).

(** The hub's watch resumed at [c], and its history reaches back to there. *)
Definition from_cursor (ss : session) (c : Cursor) : Prop :=
  se_need ss = NeedAfter c ∧ place c ∧ ∀ t, t ∈ se_old ss → ¬ after c t.

(** The session serves a request to resume, at the cursor the server reads. *)
Definition resumes (ss : session) (request : WatchRequest) (c : Cursor) : Prop :=
  decodeCursor s (wr_resumeCursor request) = Ok c ∧ se_need ss = NeedAfter c ∧ ∀ t, t ∈ se_old ss → ¬ after c t.

Definition covered (sn : Snapshot) (t : Transaction) : Prop := ¬ needed (NeedNotCovered sn) t.

#[local] Instance covered_dec sn t : Decision (covered sn t) := _.

(** The session started from a snapshot, which shows the table with the
    transactions it covers, all among the first [m]. What PostgreSQL promises
    of it: a transaction it shows comes with the earlier writers of its rows.
    The ones the hub cannot deliver any more are among those it shows. *)
Record from_snapshot (ss : session) (sn : Snapshot) (m : nat) : Prop := {
  fs_need : se_need ss = NeedNotCovered sn;
  fs_position : place (sn_cursor sn);
  fs_rows : installs (se_sent ss) = true →
            put empty_rows (sdk_row <$> snapshot_rows (se_sent ss)) =
            table s primaryKey p scope base (base.filter (covered sn) hist);
  fs_closed : row_closed s primaryKey p scope (covered sn) hist;
  fs_gone t : t ∈ se_gone ss → covered sn t;
  fs_end ts rest : hist = ts ++ rest → (m ≤ length ts)%nat → ∀ t, t ∈ rest → ¬ covered sn t
}.

(** The last cursor the session stored can be resumed at. It can when a batch
    brought it. A Progress is believed unless the watch was dropped, or it is
    the cursor a snapshot watch falls back to, the snapshot's own, with a
    transaction that the snapshot misses ending before it. *)
Definition trusted (ss : session) : Prop :=
  ∀ pre c post, se_sent ss = pre ++ Progress c :: post → omap event_cursor post = [] →
    w_overflow (se_obj ss) = false ∧
    ∀ sn, se_need ss = NeedNotCovered sn → c = sn_cursor sn → ∀ t, t ∈ hist → ¬ covered sn t → after c t.

(** ** How far a session got *)

(** Of what the hub could deliver, [ts] is sent and [rest] is not. *)
Record session_at (ss : session) (ts rest : list Transaction) : Prop := {
  sa_split : se_owable ss = ts ++ rest;
  sa_sent : batches_of (se_sent ss) = owed (se_obj ss) (se_need ss) ts
}.

Lemma owed_prefix obj n l bs :
  bs `prefix_of` owed obj n l → ∃ ts rest, l = ts ++ rest ∧ bs = owed obj n ts.
Proof.
  revert bs. induction l as [|t l IH]; intros bs Hpre.
  { exists [], []. split; [done|]. destruct Hpre as [k Hk]. by destruct bs. }
  change (t :: l) with ([t] ++ l) in Hpre. rewrite owed_app in Hpre.
  destruct bs as [|b bs]; [by exists [], (t :: l)|].
  destruct (owed obj n [t]) as [|b' k] eqn:Ho; simpl in Hpre.
  - destruct (IH _ Hpre) as (ts & rest & -> & Hts). exists (t :: ts), rest. split; [done|].
    change (t :: ts) with ([t] ++ ts). by rewrite owed_app, Ho.
  - assert (k = []) as ->.
    { unfold owed in Ho. rewrite filter_cons, filter_nil in Ho. destruct (decide _); by simplify_eq/=. }
    simpl in Hpre. apply prefix_cons_inv_1 in Hpre as Hb. apply prefix_cons_inv_2 in Hpre.
    destruct (IH _ Hpre) as (ts & rest & -> & Hts). exists (t :: ts), rest. split; [done|].
    change (t :: ts) with ([t] ++ ts). by rewrite owed_app, Ho, Hb, Hts.
Qed.

Lemma sent_is_prefix ss : session_ok ss → se_sent ss `prefix_of` g_sent (se_go ss).
Proof. intros Hok. pose proof (so_served _ Hok (se_watch ss)) as Hs. unfold sent_by in Hs. by rewrite (so_go _ Hok) in Hs. Qed.

Lemma session_view ss :
  session_ok ss →
  view_reach (view_of (se_sys ss) (se_aux ss) (se_watch ss) (se_obj ss) (se_go ss)).
Proof. intros Hok. apply (so_view _ _ (reachable_ok _ _ (so_reach _ Hok))); apply Hok. Qed.

Lemma session_somewhere ss : session_ok ss → ∃ ts rest, session_at ss ts rest.
Proof.
  intros Hok. destruct (owed_prefix (se_obj ss) (se_need ss) (se_owable ss) (batches_of (se_sent ss)))
    as (ts & rest & Hts & Hbs).
  - etrans; [by apply batches_of_prefix, sent_is_prefix|].
    by eapply sent_prefix; [apply reachable_ok, Hok|apply Hok..].
  - by exists ts, rest.
Qed.

Lemma idle_everything ss : session_ok ss → idle ss → session_at ss (se_owable ss) [].
Proof.
  intros Hok (Hall & (args & vars & q & Hpc) & Hin & Hq). split; [by rewrite app_nil_r|]. rewrite Hall.
  by eapply idle_owed; [apply reachable_ok, Hok|apply Hok..|exact Hpc| |].
Qed.

(** A snapshot watch sends a cursor only after its snapshot's end; one that
    waits has sent one. *)
Lemma snapshot_begins ss sn pre :
  session_ok ss → se_need ss = NeedNotCovered sn → pre `prefix_of` g_sent (se_go ss) → pre ≠ [] →
  head pre = Some SnapshotBegin.
Proof.
  intros Hok Hn [rest Hrest] Hne.
  pose proof (view_begins _ (session_view ss Hok) sn) as Hb. simpl in Hb.
  rewrite (so_need _ Hok), Hn, Hrest in Hb. specialize (Hb eq_refl). by destruct pre.
Qed.

Lemma session_protocol ss pre :
  session_ok ss → pre `prefix_of` g_sent (se_go ss) → ∃ st, protocol SInit pre = Some st.
Proof.
  intros Hok Hpre. destruct (view_proto _ (session_view ss Hok)) as (st & Hst & _).
  by eapply protocol_prefix.
Qed.

Lemma cursor_installs ss sn :
  session_ok ss → se_need ss = NeedNotCovered sn → installs (se_sent ss) = false → sent_cursor (se_sent ss) = None.
Proof.
  intros Hok Hn Hi. destruct (decide (se_sent ss = [])) as [->|Hne]; [done|].
  destruct (session_protocol ss (se_sent ss) Hok (sent_is_prefix ss Hok)) as [st Hst].
  by eapply protocol_installs; [|eapply snapshot_begins; [|done|apply sent_is_prefix|]|].
Qed.

Lemma idle_installs ss sn :
  session_ok ss → idle ss → se_need ss = NeedNotCovered sn → installs (se_sent ss) = true.
Proof.
  intros Hok (Hall & (args & vars & q & Hpc) & _) Hn. apply not_false_iff_true. intros Hi.
  destruct (view_proto _ (session_view ss Hok)) as (st & Hst & Hat). simpl in *. rewrite Hpc in Hat. simpl in Hat.
  rewrite <-Hall in Hst. assert (se_sent ss ≠ []) as Hne by (intros He; rewrite He in Hst; simplify_eq/=).
  apply protocol_installs in Hst as [_ [|]]; [congruence..| |done].
  by eapply snapshot_begins; [|done|apply sent_is_prefix|].
Qed.

(** What the client's store holds after a turn: its snapshot or what it had
    before, with the batches, and the last cursor sent. *)
Lemma runs_rows ss sy v request sy' out :
  runs ss sy v request sy' out →
  stored_rows sy' = foldl (memory_apply primaryKey)
    (if installs (se_sent ss) then put empty_rows (sdk_row <$> snapshot_rows (se_sent ss)) else stored_rows sy)
    (sdk_batch s <$> batches_of (se_sent ss)) ∧
  stored_cursor sy' = cursor_after (stored_cursor sy) (se_sent ss) ∧
  wr_resumeCursor request = (if sn_snapshot v then "" else stored_cursor sy).
Proof.
  intros (Hok & i & k & received & tail & Hserve & Hrec & Hk & Hopen & Hin & Hturn & Hout).
  destruct (served_mirror (S := MemoryStore) (W := memorySnapshot) s (se_sys ss) (se_aux ss) (se_events ss)
    (se_watch ss) (se_go ss) k (stored_rows sy) (stored_cursor sy)) as (received' & st & Hrec' & Hrun & Hpre & Hst & Hrows & _);
    [apply Hok|apply Hok|done|apply Hok|rewrite (so_obj _ Hok); eauto|apply Hok|].
  assert (received' = received) as -> by congruence.
  destruct (sync_turn_stream cfg sy v i sy' (Some request) out Hturn) as (sy1 & err & Hs & -> & Herr).
  split_and!; [| |exact (proj1 (stream_cases _ _ _ _ _ _ _ _ Hs) _ eq_refl)];
    rewrite Hopen, Hin in Hs;
    destruct (stream_applies _ _ _ _ _ _ _ _ _ Hrun Hk Hs) as [[e He]|(Hrows' & Hcur' & _)];
    try by destruct (Herr Hout e).
  - etrans; [exact Hrows'|exact Hrows].
  - etrans; [exact Hcur'|]. exact (proj1 (mirror_cursor _ _ _ Hst)).
Qed.

(** ** Past the cursor *)

Context (Hhist : history_ok source hist) (Hwidth : ∀ t, t ∈ hist → is_u64 (lsn (tx_cursor t))).

Lemma hist_place t : t ∈ hist → place (tx_cursor t).
Proof. intros Ht. split; [by apply (ho_wf _ _ Hhist)|by apply Hwidth]. Qed.

Lemma hist_before ts ts' t t' : hist = ts ++ ts' → t ∈ ts → t' ∈ ts' → wal_order t t'.
Proof. intros Hh Ht Ht'. pose proof (ho_order _ _ Hhist) as Hs. rewrite Hh in Hs. by eapply StronglySorted_app_1_elem_of. Qed.

Lemma wf_ends t : t ∈ hist → tx_commitLSN t < lsn (tx_cursor t).
Proof. intros Ht. by apply (ho_wf _ _ Hhist). Qed.

(** Commit order is the order of the ends. *)
Lemma hist_later u t : u ∈ hist → t ∈ hist → lsn (tx_cursor u) < lsn (tx_cursor t) → wal_order u t.
Proof.
  intros Hu Ht Hlt. pose proof (ho_order _ _ Hhist) as Hs. pose proof (wf_ends u Hu) as Hwf.
  apply list_elem_of_split in Hu as (l1 & l2 & Hl). rewrite Hl in Hs, Ht.
  apply elem_of_app in Ht as [Ht|[->|Ht]%elem_of_cons]; [|lia|].
  - assert (wal_order t u) as Hw by (eapply (StronglySorted_app_1_elem_of _ _ _ _ _ Hs); set_solver).
    unfold wal_order in Hw. lia.
  - apply StronglySorted_app_1_r, StronglySorted_cons in Hs as [Hs _]. by eapply Forall_forall in Hs.
Qed.

Lemma elem_of_owed obj n ts t :
  t ∈ ts → needed n t → touches obj t → tx_data (w_projection obj) (w_scope obj) t ∈ owed obj n ts.
Proof. intros Ht Hn Hr. unfold owed. by apply list_elem_of_fmap_2, list_elem_of_filter. Qed.

Lemma owed_elem obj n ts d :
  d ∈ owed obj n ts → ∃ t, t ∈ ts ∧ needed n t ∧ d = tx_data (w_projection obj) (w_scope obj) t.
Proof. unfold owed. intros (t & -> & [[Hn _] Ht]%list_elem_of_filter)%list_elem_of_fmap. eauto. Qed.

(** A session's place in the history. *)
Lemma session_hist ss ts rest :
  session_ok ss → session_at ss ts rest → ∃ future, hist = (se_gone ss ++ ts) ++ rest ++ future.
Proof.
  intros Hok [Hs _]. destruct (so_history _ Hok) as [future Hf]. exists future.
  by rewrite Hf, <-gone_owable, Hs, <-!app_assoc.
Qed.

Lemma needed_after c t : sourceID c = source → t ∈ hist → needed (NeedAfter c) t ↔ after c t.
Proof.
  intros Hc Ht. destruct (ho_wf _ _ Hhist t Ht) as [Hs _]. unfold needed, run_need, After, after.
  rewrite decide_False by congruence. split; [by intros [= ?%bool_decide_eq_true]|].
  intros Ha. by rewrite bool_decide_true.
Qed.

Lemma progress_reached ss c pre post :
  session_ok ss → w_overflow (se_obj ss) = false → se_sent ss = pre ++ Progress c :: post →
  (∃ u, u ∈ se_history ss ∧ c = tx_cursor u ∧ past_base (se_need ss) c ∧
     delivered_through (se_obj ss) (se_need ss) (se_owable ss) pre c) ∨
  c = base_of (se_need ss).
Proof.
  intros Hok Ho Hs. destruct (sent_is_prefix ss Hok) as [more Hmore].
  destruct (pg_sent _ (view_progress _ (session_view ss Hok)) Ho pre c (post ++ more)) as (n & Hn & Hreach & Hd).
  { simpl. by rewrite Hmore, Hs, <-app_assoc. }
  simpl in *. rewrite (so_need _ Hok) in Hn. injection Hn as <-.
  destruct Hreach as [(u & Hu & Hc & Hp)|[->|Hf]]; [|by right|right; by destruct (se_need ss), Hf].
  destruct Hd as [Hd|Hf]; [|right; by destruct (se_need ss), Hf].
  left. exists u. split_and!; [|done..]. unfold se_history. set_solver.
Qed.

(** A cursor that was sent is past where the session started, and what the
    client still needs commits at or after it. *)
Lemma cursor_past ss ts rest future c :
  session_ok ss → session_at ss ts rest → hist = (se_gone ss ++ ts) ++ rest ++ future →
  place (base_of (se_need ss)) → trusted ss → sent_cursor (se_sent ss) = Some c →
  place c ∧ past_base (se_need ss) c ∧
  ∀ t, t ∈ rest ++ future → touches (se_obj ss) t → needed (se_need ss) t → after c t.
Proof.
  intros Hok [Hsplit Hsent] Hh Hplace Htrust Hc. unfold after.
  apply sent_cursor_Some in Hc as (pre & e & post & Hes & He & Hpost).
  assert (∀ t, t ∈ rest ++ future → t ∈ hist) as Hin by (rewrite Hh; set_solver).
  assert (∀ c t, t ∈ hist → se_need ss = NeedAfter c → needed (se_need ss) t → lsn c ≤ tx_commitLSN t) as Hresumed.
  { intros c0 t Ht Hn. rewrite Hn in Hplace |- *. intros Hnd. apply needed_after in Hnd; [done|apply Hplace|done]. }
  destruct e as [| | |b|c'|]; simplify_eq/=.
  - assert (batch_data b ∈ batches_of (se_sent ss)) as Hb by (rewrite Hes, batches_of_app; set_solver).
    rewrite Hsent in Hb. apply owed_elem in Hb as (u & Hu & Hn & Hd). injection Hd as Hd _ _. rewrite Hd.
    assert (u ∈ hist) as Huh by (rewrite Hh; set_solver). split_and!; [by apply hist_place| |].
    + pose proof (wf_ends u Huh). unfold past_base. destruct (se_need ss) as [c0|] eqn:En; [|done].
      specialize (Hresumed c0 u Huh eq_refl Hn). lia.
    + intros t Ht _ _. eapply hist_before; [exact Hh| |done]. set_solver.
  - destruct (Htrust pre c post Hes Hpost) as [Ho Hbase].
    destruct (progress_reached ss c pre post Hok Ho Hes) as [(u & Hu & -> & Hp & Hd)|Hc].
    2:{ subst c. split_and!; [done|by destruct (se_need ss); simpl|]. intros t Ht _ Hn. specialize (Hin t Ht).
        destruct (se_need ss) as [c0|sn] eqn:En; simpl in *; [by apply Hresumed|].
        apply (Hbase sn eq_refl eq_refl t Hin). by intros []. }
    assert (∃ future', hist = se_history ss ++ future') as [future' Hh2] by apply Hok.
    assert (rest ++ future = rest ++ future') as Hfut.
    { rewrite Hh, <-gone_owable, Hsplit, <-!app_assoc in Hh2. by simplify_list_eq. }
    apply (app_inv_head rest) in Hfut as <-. split_and!; [apply hist_place; rewrite Hh2; apply elem_of_app; by left|done|].
    intros t Ht Htch Hn. apply elem_of_app in Ht as [Ht|Ht]; [|by eapply hist_before].
    destruct (decide (lsn (tx_cursor t) ≤ lsn (tx_cursor u))) as [Hle|Hgt].
    + exfalso. assert (tx_data (w_projection (se_obj ss)) (w_scope (se_obj ss)) t ∈ owed (se_obj ss) (se_need ss) ts) as Ho'.
      { rewrite <-Hsent, Hes, batches_of_app. apply elem_of_app. left. apply Hd; [|done..]. rewrite Hsplit. set_solver. }
      apply owed_elem in Ho' as (t' & Ht' & _ & Hdata). injection Hdata as Hcur _ _.
      assert (wal_order t' t) as Hw by (eapply (hist_before _ _ _ _ Hh); apply elem_of_app; [by right|by left]).
      pose proof (wf_ends t (Hin t ltac:(apply elem_of_app; by left))). unfold wal_order in Hw. rewrite <-Hcur in Hw. lia.
    + apply hist_later; [rewrite Hh2; apply elem_of_app; by left|apply Hin, elem_of_app; by left|lia].
Qed.

(** ** What a session makes of the rows *)

Abbreviation table := (table s primaryKey p scope).
Abbreviation catches_up := (catches_up s primaryKey p scope base hist).

Lemma resumed_rows ss ts rest c sy v request sy' out :
  runs ss sy v request sy' out → session_at ss ts rest → from_cursor ss c →
  installs (se_sent ss) = false ∧
  stored_rows sy' = table (stored_rows sy) (base.filter (after c) (se_gone ss ++ ts)).
Proof.
  intros Hruns Hat (Hn & [Hsrc _] & Hold). pose proof (proj1 Hruns) as Hok.
  destruct (session_hist ss ts rest Hok Hat) as [future Hh]. pose proof (session_view ss Hok) as Hv.
  assert (a_need (se_aux ss) !! se_watch ss = Some (NeedAfter c)) as Hneed by (by rewrite (so_need _ Hok), Hn).
  assert (installs (se_sent ss) = false) as Hi.
  { apply not_true_iff_false. intros (e & He & Hend)%existsb_exists. destruct e; try done.
    destruct (view_resumed _ Hv c Hneed). simpl. destruct (sent_is_prefix ss Hok) as [more ->].
    apply elem_of_app. left. by apply list_elem_of_In. }
  split; [done|]. assert (se_gone ss = se_old ss) as ->.
  { unfold se_gone. pose proof (dl_resume _ (view_delivery _ Hv) c Hneed) as Hsk. simpl in Hsk.
    by rewrite Hsk, take_0, app_nil_r. }
  destruct (runs_rows ss sy v request sy' out Hruns) as [-> _].
  rewrite Hi, (sa_sent _ _ _ Hat), Hn, (table_owed s primaryKey p scope) by apply Hok. f_equal.
  rewrite filter_app, (list_filter_none _ (se_old ss)) by (apply Forall_forall, Hold). simpl.
  apply list_filter_ext. intros t Ht. apply needed_after; [done|]. rewrite Hh. set_solver.
Qed.

Lemma snapshot_session_rows ss ts rest sn m sy v request sy' out :
  runs ss sy v request sy' out → session_at ss ts rest → from_snapshot ss sn m → installs (se_sent ss) = true →
  stored_rows sy' =
    table (table base (base.filter (covered sn) hist)) (base.filter (λ t, ¬ covered sn t) (se_gone ss ++ ts)).
Proof.
  intros Hruns Hat Hsn Hi. pose proof (proj1 Hruns) as Hok.
  destruct (runs_rows ss sy v request sy' out Hruns) as [-> _].
  rewrite Hi, (fs_rows _ _ _ Hsn Hi), (sa_sent _ _ _ Hat), (fs_need _ _ _ Hsn), (table_owed s primaryKey p scope) by apply Hok.
  f_equal. rewrite filter_app, (list_filter_none _ (se_gone ss)).
  2:{ apply Forall_forall. intros t Ht Hc. by apply Hc, (fs_gone _ _ _ Hsn). }
  simpl. apply list_filter_iff. intros t. unfold covered. split; [tauto|apply dec_stable].
Qed.

Lemma session_reach ss ts rest :
  session_ok ss → session_at ss ts rest → (length (se_gone ss ++ ts) ≤ se_reach ss)%nat.
Proof. intros Hok [Hs _]. unfold se_reach. rewrite <-gone_owable, Hs, !length_app. lia. Qed.

Lemma catches_up_mono rs c m m' : catches_up rs c m → (m ≤ m')%nat → catches_up rs c m'.
Proof. intros Hup Hle ts rest Hh Hlen. apply (Hup ts rest Hh). lia. Qed.


(** ** The client's life *)

(** The client between two turns of Sync's loop: whether the cursor it has
    stored can be resumed at, and how far in the history it has been. A client
    starts with an empty cursor. A turn that is refused or cut before anything
    reaches the store changes nothing; a turn on a session moves it on. Sync
    may be started anew on the store. *)
Inductive client_at : syncer MemoryStore → sync_vars → bool → nat → Prop :=
| client_new st v : mem_cursor st = "" → client_at (new_syncer st) v true 0
| client_unserved sy v good m i sy' request v' :
    client_at sy v good m → si_open i ≠ None ∨ keeps (si_inputs i) →
    sync_turn cfg sy v i = (sy', request, SyncContinues v') → client_at sy' v' good m
| client_snapshot sy v good m ss request sy' v' sn seen good' :
    client_at sy v good m → runs ss sy v request sy' (SyncContinues v') →
    wr_resumeCursor request = "" → from_snapshot ss sn seen →
    (good' = true → trusted ss ∧ (good = true ∨ installs (se_sent ss) = true)) →
    client_at sy' v' good' (m `max` (seen `max` se_reach ss))
| client_resumed sy v m ss request sy' v' c good' :
    client_at sy v true m → runs ss sy v request sy' (SyncContinues v') →
    resumes ss request c → (good' = true → trusted ss) →
    client_at sy' v' good' (m `max` se_reach ss)
| client_restarted sy v good m v' :
    client_at sy v good m → client_at (new_syncer (sy_store sy)) v' good m.

(** What a stored cursor is good for: a resume there that gets far enough
    gives the client the table. *)
Definition resumable (st : MemoryStore) (m : nat) : Prop :=
  mem_cursor st = "" ∨
  ∃ c, mem_cursor st = encodeCursor s c ∧ place c ∧ catches_up (mem_rows st) c m.

Lemma resumable_mono st m m' : resumable st m → (m ≤ m')%nat → resumable st m'.
Proof. intros [|(c & Hc & Hp & Hup)] Hle; [by left|right]. exists c. split_and!; [done|done|by eapply catches_up_mono]. Qed.

(** What the server's [New] checks of its source's name. *)
Context (Hserver : sv_sourceID s = source) (Hsource : source ≠ "" ∧ contains_char cursorSeparator source = false).

(** The server reads the cursor it sent. *)
Lemma decode_place c : place c → decodeCursor s (encodeCursor s c) = Ok c.
Proof. intros [Hs Hl]. destruct Hsource. apply decodeCursor_encode; congruence. Qed.

Lemma resumes_from ss request c : resumes ss request c → from_cursor ss c.
Proof.
  intros (Hd & Hn & Hold). split_and!; [done| |done]. split; [by rewrite <-Hserver; eapply decodeCursor_source|].
  unfold decodeCursor, ParseCursor in Hd. destruct (cut_char _ _) as [[? ?]|]; [|done].
  repeat case_decide; try done. destruct (parse_lsn _) eqn:Hp; [|done]. simplify_eq. by eapply parse_lsn_range.
Qed.

Lemma resumes_stored ss sy v request sy' out c m :
  runs ss sy v request sy' out → resumes ss request c → resumable (sy_store sy) m → catches_up (stored_rows sy) c m.
Proof.
  intros Hruns (Hd & _) Hst. destruct (runs_rows _ _ _ _ _ _ Hruns) as (_ & _ & Hreq). rewrite Hreq in Hd.
  destruct (sn_snapshot v); [done|]. destruct Hst as [He|(c0 & He & Hp & Hup)]; [by rewrite He in Hd|].
  rewrite He, decode_place in Hd by done. by injection Hd as ->.
Qed.

Lemma snapshot_resumable ss sy v request sy' out sn seen m :
  runs ss sy v request sy' out → from_snapshot ss sn seen → trusted ss →
  resumable (sy_store sy) m ∨ installs (se_sent ss) = true →
  resumable (sy_store sy') (m `max` (seen `max` se_reach ss)).
Proof.
  intros Hruns Hsn Htrust Hst. pose proof (proj1 Hruns) as Hok.
  destruct (runs_rows _ _ _ _ _ _ Hruns) as (Hrows & Hcur & _). unfold cursor_after in Hcur.
  destruct (installs (se_sent ss)) eqn:Hi.
  2:{ pose proof (cursor_installs ss sn Hok (fs_need _ _ _ Hsn) Hi) as Hc. rewrite Hc in Hcur.
      rewrite (sent_cursor_None _ Hc) in Hrows. simpl in Hrows. destruct Hst as [Hst|]; [|done].
      eapply (resumable_mono _ m); [|lia]. unfold resumable in *. by rewrite Hrows, Hcur. }
  destruct (sent_cursor (se_sent ss)) as [c|] eqn:Hc; [|by left].
  destruct (session_somewhere ss Hok) as (ts & rest & Hat).
  destruct (session_hist ss ts rest Hok Hat) as [future Hh]. pose proof (session_reach ss ts rest Hok Hat) as Hlen.
  destruct (cursor_past ss ts rest future c Hok Hat Hh) as (Hp & _ & Hpast);
    [rewrite (fs_need _ _ _ Hsn); apply Hsn|done|done|].
  right. exists c. split_and!; [done|done|]. rewrite (snapshot_session_rows ss ts rest sn seen sy v request sy' out) by done.
  intros P Q HPQ HP. eapply (catches_up_snapshot s primaryKey p scope base source hist (covered sn) seen _ _ c);
    [done|exact Hh|apply Hsn|apply Hsn| |exact HPQ|lia].
  intros t Ht Hr Hn. apply Hpast; [done| |].
  - unfold touches. by rewrite (so_projection _ Hok), (so_scope _ Hok).
  - rewrite (fs_need _ _ _ Hsn). by apply dec_stable.
Qed.

Lemma resumed_resumable ss sy v request sy' out c m :
  runs ss sy v request sy' out → resumes ss request c → trusted ss → resumable (sy_store sy) m →
  resumable (sy_store sy') (m `max` se_reach ss).
Proof.
  intros Hruns Hres Htrust Hst. pose proof (proj1 Hruns) as Hok. pose proof (resumes_from _ _ _ Hres) as Hfrom.
  destruct (runs_rows _ _ _ _ _ _ Hruns) as (Hrows & Hcur & _). unfold cursor_after in Hcur.
  destruct (session_somewhere ss Hok) as (ts & rest & Hat).
  destruct (resumed_rows ss ts rest c sy v request sy' out Hruns Hat Hfrom) as [Hi Hrows']. rewrite Hi in *.
  destruct (sent_cursor (se_sent ss)) as [c'|] eqn:Hc.
  2:{ rewrite (sent_cursor_None _ Hc) in Hrows. simpl in Hrows.
      eapply (resumable_mono _ m); [|lia]. unfold resumable in *. by rewrite Hrows, Hcur. }
  destruct (session_hist ss ts rest Hok Hat) as [future Hh]. pose proof (session_reach ss ts rest Hok Hat) as Hlen.
  pose proof (resumes_stored _ _ _ _ _ _ _ _ Hruns Hres Hst) as Hup. destruct Hfrom as (Hn & [Hsrc Hw] & _).
  destruct (cursor_past ss ts rest future c' Hok Hat Hh) as (Hp & Hle & Hpast); [by rewrite Hn|done|done|].
  right. exists c'. split_and!; [done|done|]. rewrite Hrows'. rewrite Hn in Hle, Hpast. intros P Q HPQ HP.
  eapply (catches_up_resumed s primaryKey p scope base source hist (stored_rows sy) c m _ _ c');
    [done|exact Hh|done|exact Hle| |exact HPQ|lia].
  intros t Ht Hr Ha. apply Hpast; [done| |].
  - unfold touches. by rewrite (so_projection _ Hok), (so_scope _ Hok).
  - apply needed_after; [done| |done]. rewrite Hh. set_solver.
Qed.

(** Whatever the client went through, what it has stored can be resumed from,
    unless its last cursor overstated. *)
Lemma client_resumable sy v good m : client_at sy v good m → good = true → resumable (sy_store sy) m.
Proof.
  induction 1 as [st v Hst|sy v good m i sy' request v' _ IH Hi Hturn
    |sy v good m ss request sy' v' sn seen good' _ IH Hruns _ Hsn Hgood
    |sy v m ss request sy' v' c good' _ IH Hruns Hres Hgood|sy v good m v' _ IH]; intros Hg.
  - by left.
  - destruct (sync_turn_stream cfg sy v i sy' request _ Hturn) as (sy1 & err & Hs & -> & _).
    rewrite (stream_unchanged _ _ _ _ _ _ _ _ Hi Hs). by apply IH.
  - destruct (Hgood Hg) as [Htrust Hst]. eapply snapshot_resumable; [done..|]. naive_solver.
  - eapply resumed_resumable; [done|done|by apply Hgood|by apply IH].
  - by apply IH.
Qed.


End Sessions.

(** ** A client that lost its stream *)

Lemma some_of {A} (o : option A) : (if o is Some _ then true else false) = true → is_Some o.
Proof. destruct o; [by eauto|done]. Qed.

Definition demo_row (id : string) : anyRow := <["shop" := AnyString "a"]> {["id" := AnyString id]}.

(** A snapshot watch with one row in its snapshot and one batch; then a
    transaction, and a watch that resumes after that batch and catches up. *)
Definition demo_two : list label :=
  [LAccept (demo_tx 10 1 "a" ["1"]); LAccept (demo_tx 20 2 "a" ["2"; "3"]);
   LWatch 0%nat (mkRequest "orders" "a" ""); LGo 0%nat ChGo; LGo 0%nat ChGo; LGo 0%nat ChGo;
   LGo 0%nat (ChRows [demo_row "1"]); LGo 0%nat (ChSnapshot (Ok (demo_snapshot 15 2)))] ++
  repeat (LGo 0%nat ChGo) 9 ++
  [LAccept (demo_tx 30 3 "a" ["4"]);
   LWatch 1%nat (mkRequest "orders" "a" (@Cursor_String hex_lsn_text (mkCursor "db" 20)))] ++
  repeat (LGo 1%nat ChGo) 7.

(** What the client got of watch [w]: its first [n] events. *)
Definition demo_session (w : wid) (n : nat) (nd : need) : session :=
  mkSession (demo_run 8 demo_two) (demo_aux 8 demo_two) (pair w <$> take n (g_sent (demo_go 8 demo_two w))) w
    (demo_go 8 demo_two w) (demo_obj 8 demo_two w) nd [].

Definition demo_messages (ss : session) : list wireEvent :=
  default [] ((@serve_events hex_lsn_text demo_proto demo_server ∅ (λ _, Some []) (se_events ss)).2 (se_watch ss)
              ≫= mapM (@receives demo_proto)).

(** A turn of the client's Sync on a session, whose stream then ends so. *)
Definition demo_turn (sy : syncer MemoryStore) (v : sync_vars) (ss : session) (tail : list recv)
    : syncer MemoryStore * option WatchRequest * sync_result :=
  @sync_turn _ _ (memory_store demo_primaryKey) demo_sync_config sy v
    (mkSyncInput None ((RecvEvent <$> demo_messages ss) ++ tail) false false).

Definition demo_first : session := demo_session 0 4 (NeedNotCovered (demo_snapshot 15 2)).
Definition demo_second : session := demo_session 1 9 (NeedAfter (mkCursor "db" 20)).

Definition demo_start : sync_vars := mkSyncVars false 0 100.
Definition demo_retry : sync_vars := mkSyncVars false 0 200.

Definition demo_lost : syncer MemoryStore :=
  (demo_turn (new_syncer NewMemoryStore) demo_start demo_first [RecvErr Unavailable]).1.1.
Definition demo_back : syncer MemoryStore := (demo_turn demo_lost demo_retry demo_second []).1.1.

Definition demo_history : list Transaction := a_acc (demo_aux 8 demo_two).

Abbreviation demo_orders := (projection_of demo_spec).

Lemma demo_history_ok : history_ok "db" demo_history.
Proof.
  split.
  - apply Forall_forall, (bool_decide_unpack _). vm_compute. done.
  - assert (demo_history = [demo_tx 10 1 "a" ["1"]; demo_tx 20 2 "a" ["2"; "3"]; demo_tx 30 3 "a" ["4"]]) as ->
      by (vm_compute; reflexivity).
    repeat constructor; unfold wal_order; simpl; lia.
Qed.

Lemma demo_history_width t : t ∈ demo_history → is_u64 (lsn (tx_cursor t)).
Proof. revert t. apply Forall_forall, (bool_decide_unpack _). vm_compute. done. Qed.

Lemma demo_session_ok w n nd :
  is_Some (s_gos (demo_run 8 demo_two) !! w) → is_Some (h_heap (s_hub (demo_run 8 demo_two)) !! w) →
  a_need (demo_aux 8 demo_two) !! w = Some nd →
  w_projection (demo_obj 8 demo_two w) = demo_orders → w_scope (demo_obj 8 demo_two w) = "a" →
  existsb (λ e, if e is Resync _ then true else false) (take n (g_sent (demo_go 8 demo_two w))) = false →
  @session_ok hex_lsn_text demo_orders "a" "db" demo_history (demo_session w n nd).
Proof.
  intros Hg Ho Hn Hp Hs Hr. unfold demo_session.
  split; unfold se_sent, se_history;
    cbn [se_sys se_aux se_events se_watch se_go se_obj se_need se_old app]; [..|done| | |].
  - apply demo_reachable. vm_compute. reflexivity.
  - vm_compute. reflexivity.
  - intros v. rewrite events_of_pair. destruct (decide (w = v)) as [<-|]; [|apply prefix_nil].
    unfold sent_by. rewrite (demo_go_Some _ _ _ Hg). exists (drop n (g_sent (demo_go 8 demo_two w))).
    symmetry. apply take_drop.
  - by apply demo_go_Some.
  - by apply demo_obj_Some.
  - exact Hn.
  - exact Hs.
  - exists []. by rewrite app_nil_r.
  - intros reason. rewrite events_of_pair, decide_True by done. by apply no_resync.
Qed.

Lemma demo_runs sy v ss tail request out :
  @session_ok hex_lsn_text demo_orders "a" "db" demo_history ss → keeps tail →
  is_Some ((@serve_events hex_lsn_text demo_proto demo_server ∅ (λ _, Some []) (se_events ss)).2 (se_watch ss)
              ≫= mapM (@receives demo_proto)) →
  (demo_turn sy v ss tail).1.2 = Some request → (demo_turn sy v ss tail).2 = out →
  (∀ e, out ≠ SyncReturns e) →
  @runs hex_lsn_text demo_proto demo_server demo_primaryKey demo_orders "a" demo_sync_config "db" demo_history ss
    sy v request (demo_turn sy v ss tail).1.1 out.
Proof.
  intros Hok Hk [received Hrec] Hreq <- Hout. split; [done|].
  destruct (_.2 (se_watch ss)) as [k|] eqn:Hserve; [|done]. simpl in Hrec.
  assert (demo_messages ss = received) as Hm by (unfold demo_messages; by rewrite Hserve; simpl; rewrite Hrec).
  exists (mkSyncInput None ((RecvEvent <$> demo_messages ss) ++ tail) false false), k, received, tail.
  rewrite Hm at 2. split_and!; [done..| |exact Hout]. rewrite <-Hreq. unfold demo_turn.
  by destruct (sync_turn _ _ _ _) as [[? ?] ?].
Qed.

Lemma demo_first_snapshot :
  @from_snapshot hex_lsn_text demo_server demo_primaryKey demo_orders "a" "db" demo_history ∅ demo_first (demo_snapshot 15 2) 3.
Proof.
  assert (demo_history = [demo_tx 10 1 "a" ["1"]; demo_tx 20 2 "a" ["2"; "3"]; demo_tx 30 3 "a" ["4"]]) as Hh
    by (vm_compute; reflexivity).
  assert (covered (demo_snapshot 15 2) (demo_tx 10 1 "a" ["1"])) as H1
    by (apply (bool_decide_unpack _); vm_compute; done).
  assert (¬ covered (demo_snapshot 15 2) (demo_tx 20 2 "a" ["2"; "3"])) as H2
    by (apply (bool_decide_unpack _); vm_compute; done).
  assert (¬ covered (demo_snapshot 15 2) (demo_tx 30 3 "a" ["4"])) as H3
    by (apply (bool_decide_unpack _); vm_compute; done).
  split.
  - reflexivity.
  - split; [reflexivity|]. split; vm_compute; congruence.
  - intros _. rewrite Hh, filter_cons_True, !filter_cons_False, filter_nil by done. vm_compute. reflexivity.
  - rewrite Hh. repeat constructor; intros Hc; [destruct (H2 Hc)|destruct (H3 Hc)..].
  - intros t Ht. assert (se_gone demo_first = []) as Hg by (vm_compute; reflexivity).
    rewrite Hg in Ht. destruct (proj1 (elem_of_nil t) Ht).
  - rewrite Hh. intros ts rest Hr Hlen t Ht. apply (f_equal length) in Hr. rewrite length_app in Hr. simpl in Hr.
    destruct rest as [|u rest]; [destruct (proj1 (elem_of_nil t) Ht)|]. clear - Hr Hlen. cbn [length] in Hr. lia.
Qed.

Lemma no_progress_sent es :
  existsb (λ e, if e is Progress _ then true else false) es = false → ∀ pre c post, es ≠ pre ++ Progress c :: post.
Proof.
  intros He pre c post ->. rewrite existsb_app in He. simpl in He. by rewrite orb_true_r in He.
Qed.

Lemma demo_keeps : keeps [RecvErr Unavailable].
Proof. intros e He. apply list_elem_of_singleton in He. discriminate. Qed.

Lemma demo_runs_first :
  @runs hex_lsn_text demo_proto demo_server demo_primaryKey demo_orders "a" demo_sync_config "db" demo_history
    demo_first (new_syncer NewMemoryStore) demo_start (mkWatchRequest "orders" "a" "") demo_lost (SyncContinues demo_retry).
Proof.
  apply (demo_runs _ _ demo_first); [apply demo_session_ok|apply demo_keeps|..]; try (intros e; discriminate);
    try apply some_of; vm_compute; reflexivity.
Qed.

Lemma demo_runs_second :
  @runs hex_lsn_text demo_proto demo_server demo_primaryKey demo_orders "a" demo_sync_config "db" demo_history
    demo_second demo_lost demo_retry (mkWatchRequest "orders" "a" "db@0x14") demo_back SyncRunning.
Proof.
  apply (demo_runs _ _ demo_second); [apply demo_session_ok|by intros e He; apply elem_of_nil in He|..];
    try (intros e; discriminate); try apply some_of; vm_compute; reflexivity.
Qed.

Lemma demo_second_idle : idle demo_second.
Proof.
  split; [vm_compute; reflexivity|]. split; [vm_compute; eauto|].
  split; [apply (bool_decide_unpack _); vm_compute; done|vm_compute; reflexivity].
Qed.

Lemma demo_source : "db" ≠ "" ∧ contains_char cursorSeparator "db" = false.
Proof. split; [discriminate|reflexivity]. Qed.


