(* ===== verification/Monitor.v ===== *)
(** * The retention monitor: internal/cdc/retention.go and stream.go

    The loop beside [Run] that samples retained WAL and re-reads the server's
    limit, and what reaching the budget does to [Run]. A turn is one case of
    the loop's [select] with what PostgreSQL answered in it. *)

From S2P Require Import Prelude Float64 Errors Config Retention Catalog CdcTypes Visibility Reader.
Local Open Scope string_scope.
Local Open Scope list_scope.
Local Open Scope Z_scope.

(** ** The loop *)

(** The row of pg_replication_slots a sample reads ([None] is no row), and the
    row of pg_settings. *)
Abbreviation slot_row := (result error (option (option Z * string * option Z))).
Abbreviation setting_row := (result error (string * string)).

Inductive monitor_case : Type :=
| CaseDone
| CaseCheck (setting : setting_row)
| CaseSample (slot : slot_row) (setting : setting_row).

(** One turn, with how connecting failed and whether [ctx] had ended then. *)
Record monitor_turn : Type := mkTurn {
  mt_case : monitor_case;
  mt_connect : option error;
  mt_ctxErr : option error
}.

(** The task of a turn; its error is only logged. *)
Definition monitor_task (cfg : ReaderConfig) (m : monitor) (c : monitor_case) : monitor :=
  match c with
  | CaseSample slot setting => fst (sampleRetention cfg m slot setting)
  | _ => m
  end.

(** [monitorRetentionBudget], and whether it still runs. *)
Fixpoint monitorRetentionBudget (cfg : ReaderConfig) (m : monitor) (turns : list monitor_turn) : monitor * bool :=
  match turns with
  | [] => (m, true)
  | t :: rest =>
      match mt_case t with
      | CaseDone => (m, false)
      | c =>
          match connectManagementWithTimeout (mt_connect t) (mt_ctxErr t) with
          | Err _ =>
              match mt_ctxErr t with
              | Some _ => (m, false)
              | None => monitorRetentionBudget cfg m rest
              end
          | Ok _ => monitorRetentionBudget cfg (monitor_task cfg m c) rest
          end
      end
  end.

(** ** What it samples *)

(** The retained bytes and the effective budget a turn's sample gives. *)
Definition sample_of (cfg : ReaderConfig) (c : monitor_case) : option (Z * Z) :=
  match c with
  | CaseSample (Ok (Some (Some bytes, _, _))) setting =>
      match readMaxSlotWALKeepSize setting with
      | Ok (serverBytes, unbounded) =>
          Some (bytes, effectiveRetentionBudget (rd_maxRetainedWALBytes cfg) serverBytes unbounded)
      | Err _ => None
      end
  | _ => None
  end.

(** The turns that run before the loop returns. *)
Fixpoint turns_run (turns : list monitor_turn) : list monitor_turn :=
  match turns with
  | [] => []
  | t :: rest =>
      match mt_case t, mt_connect t, mt_ctxErr t with
      | CaseDone, _, _ => []
      | _, Some _, Some _ => []
      | _, Some _, None => turns_run rest
      | _, None, _ => t :: turns_run rest
      end
  end.

Definition samples_run (cfg : ReaderConfig) (turns : list monitor_turn) : list (Z * Z) :=
  omap (λ t, sample_of cfg (mt_case t)) (turns_run turns).

(** A sample at its budget, which must be known. *)
Definition at_budget (sample : Z * Z) : Prop :=
  0 < snd sample ∧ 0 ≤ fst sample ∧ f64_le f64_one (retention_ratio (fst sample) (snd sample)) = true.

#[export] Instance at_budget_dec sample : Decision (at_budget sample).
Proof. unfold at_budget. apply _. Defined.

(** What the policy keeps, without the gauges. *)
Definition policy (m : monitor) : retentionState * list retentionState * string * list sentinel :=
  (mo_state m, mo_transitions m, mo_shown m, mo_stops m).

Lemma policy_apply m1 m2 retained budget warn degrade :
  policy m1 = policy m2 →
  policy (applyRetentionPolicy m1 retained budget warn degrade) =
  policy (applyRetentionPolicy m2 retained budget warn degrade).
Proof.
  destruct m1, m2. unfold policy. simpl. intros [= -> -> -> ->]. unfold applyRetentionPolicy. simpl.
  by destruct (decide _).
Qed.

Lemma policy_samples warn degrade m1 m2 samples :
  policy m1 = policy m2 → policy (apply_samples warn degrade m1 samples) = policy (apply_samples warn degrade m2 samples).
Proof.
  revert m1 m2. induction samples as [|[r b] samples IH]; intros m1 m2 Hm; [done|].
  apply IH. by apply policy_apply.
Qed.

(** One task applies its sample, if it has one. *)
Lemma task_policy cfg m c :
  policy (monitor_task cfg m c) =
  policy (apply_samples (rd_retentionWarnFraction cfg) (rd_retentionDegradeFraction cfg) m
            (option_list (sample_of cfg c))).
Proof.
  destruct c as [| |slot setting]; [done..|]. unfold monitor_task, sampleRetention, sample_of.
  destruct slot as [[[[[bytes|] status] safe]|]|]; [| |done..].
  - destruct (readMaxSlotWALKeepSize setting) as [[serverBytes unbounded]|]; [|done]. simpl.
    by apply policy_apply.
  - by destruct (readMaxSlotWALKeepSize setting) as [[serverBytes unbounded]|].
Qed.

(** The loop is the policy over its samples. *)
Lemma monitor_samples cfg m turns :
  policy (fst (monitorRetentionBudget cfg m turns)) =
  policy (apply_samples (rd_retentionWarnFraction cfg) (rd_retentionDegradeFraction cfg) m (samples_run cfg turns)).
Proof.
  revert m. induction turns as [|[c connect ctxErr] turns IH]; intros m; [done|].
  assert (∀ c, policy (fst (monitorRetentionBudget cfg (monitor_task cfg m c) turns)) =
    policy (apply_samples (rd_retentionWarnFraction cfg) (rd_retentionDegradeFraction cfg) m
              (option_list (sample_of cfg c) ++ samples_run cfg turns))) as Htask.
  { intros c0. rewrite IH. unfold apply_samples at 2. rewrite foldl_app. apply policy_samples.
    apply task_policy. }
  assert (∀ t, omap (λ t, sample_of cfg (mt_case t)) (t :: turns_run turns) =
    option_list (sample_of cfg (mt_case t)) ++ samples_run cfg turns) as Hcons.
  { intros t. unfold samples_run. cbn [omap list_omap]. by destruct (sample_of cfg (mt_case t)). }
  destruct c as [|setting|slot setting]; [done| |]; destruct connect, ctxErr; try done; try apply IH;
    unfold samples_run; cbn [turns_run mt_case mt_connect mt_ctxErr]; rewrite Hcons; apply Htask.
Qed.

(** ** Properties *)

Lemma next_terminal current retained budget warn degrade :
  current ≠ retentionTerminal →
  (nextRetentionState current retained budget warn degrade = retentionTerminal ↔ at_budget (retained, budget)).
Proof.
  intros Hc. unfold nextRetentionState, at_budget. cbn [fst snd]. destruct (decide _) as [Hn|Hn].
  { split; [done|]. naive_solver lia. }
  destruct (f64_le f64_one _); [split; [|done]; intros _; split_and!; [lia|lia|done]|].
  split; [|by intros (_ & _ & ?)]. intros E. apply (f_equal rank) in E. rewrite max_state_rank in E.
  change (rank retentionTerminal) with 3%nat in E. exfalso.
  pose proof (fall_rank 3 current (target_state (retention_ratio retained budget) warn degrade)
    (retention_ratio retained budget) warn degrade) as [Hle _].
  pose proof (rank_lt_terminal _ Hc). pose proof (rank_lt_terminal _
    (target_not_terminal (retention_ratio retained budget) warn degrade)). lia.
Qed.

Lemma terminal_samples warn degrade m samples :
  mo_state m ≠ retentionTerminal →
  (mo_state (apply_samples warn degrade m samples) = retentionTerminal ↔ Exists at_budget samples).
Proof.
  intros Hm. induction samples as [|[r b] samples IH] using rev_ind; [by rewrite Exists_nil|].
  rewrite Exists_app, Exists_cons, Exists_nil, <-IH. unfold apply_samples in *. rewrite foldl_app. cbn [foldl].
  set (m1 := foldl _ _ samples) in *. clearbody m1. unfold applyRetentionPolicy.
  destruct (decide (mo_state m1 = retentionTerminal)) as [Ht|Ht].
  - rewrite decide_True; [by intuition|]. unfold nextRetentionState. by rewrite decide_True by auto.
  - pose proof (next_terminal (mo_state m1) r b warn degrade Ht) as Hnext.
    rewrite <-Hnext. destruct (decide _) as [Hs|Hs]; [rewrite Hs; tauto|]. cbn [mo_state]. tauto.
Qed.

(** The state [Stats] shows is the policy's. *)
Lemma monitor_shows cfg turns :
  let m := fst (monitorRetentionBudget cfg new_monitor turns) in mo_shown m = retentionState_String (mo_state m).
Proof.
  cbv zeta. pose proof (monitor_samples cfg new_monitor turns) as Hp. unfold policy in Hp. injection Hp as Hs _ Hw _.
  rewrite Hw, Hs. by pose proof (policy_stops_once (rd_retentionWarnFraction cfg) (rd_retentionDegradeFraction cfg)
    (samples_run cfg turns) []) as (_ & ? & _ & _).
Qed.

(** C16 (safety): the source is protected exactly at the budget. Whatever the monitor's turns
    meet, it stops the stream when, and only when, a sample it took found the
    retained WAL at an effective budget above zero (a budget of zero is none); it does so once, with the budget's
    error, and [Stats] shows the policy's state. *)
Theorem monitor_acts_at_budget cfg turns :
  let m := fst (monitorRetentionBudget cfg new_monitor turns) in
  mo_stops m = (if decide (Exists at_budget (samples_run cfg turns)) then [ErrRetainedWALBudgetExceeded] else []) ∧
  (mo_state m = retentionTerminal ↔ Exists at_budget (samples_run cfg turns)) ∧
  mo_shown m = retentionState_String (mo_state m).
Proof.
  cbv zeta. pose proof (monitor_samples cfg new_monitor turns) as Hp. unfold policy in Hp. injection Hp as Hs _ Hw Hst.
  pose proof (terminal_samples (rd_retentionWarnFraction cfg) (rd_retentionDegradeFraction cfg) new_monitor
    (samples_run cfg turns)) as Ht.
  pose proof (policy_stops_once (rd_retentionWarnFraction cfg) (rd_retentionDegradeFraction cfg)
    (samples_run cfg turns) []) as (Hstops & Hshown & _ & _).
  specialize (Ht ltac:(done)). rewrite Hst, Hs, Hw, Hstops, Hshown. split; [|done].
  destruct (decide (mo_state _ = _)) as [E|E], (decide (Exists _ _)) as [E'|E']; tauto.
Qed.

(** The monitor's turns over a slot that grows past its budget. *)
Definition demo_turn (retained : Z) : monitor_turn :=
  mkTurn (CaseSample (Ok (Some (Some retained, "reserved", None))) (Ok ("-1", "MB"))) None None.

Definition demo_monitored : ReaderConfig :=
  normalizeReaderConfig (mkReaderConfig "url" "db" "slot" "pub" 0 0 0 0 0 0 0 (mkRetry 0 0 0 f64_zero) 1000 0 0
    f64_zero f64_zero).

(** A sample whose connection failed is skipped, and nothing is done twice. *)
Example demo_monitor :
  let turns := [demo_turn 400; demo_turn 600; mkTurn (CaseCheck (Ok ("0", "MB"))) (Some (EOther "refused")) None;
                demo_turn 900; demo_turn 1000; demo_turn 2000] in
  let m := fst (monitorRetentionBudget demo_monitored new_monitor turns) in
  mo_transitions m = [retentionWarn; retentionDegrade; retentionTerminal] ∧
  mo_stops m = [ErrRetainedWALBudgetExceeded] ∧ mo_shown m = "terminal".
Proof. vm_compute. auto. Qed.

(** What [Run] returns then, once the read has: the budget's error, which is not
    retried and has its own error class. *)
Lemma budget_ends_Run {S : Type} `{TransactionSink S} `{PgLogRepl} cfg attempts (s : rstate S) r rest s' err :
  at_ctxDone r = false → at_streamDone r = true → read_once cfg s (at_start r) (at_inputs r) = (s', Some err) →
  ∃ e, Run cfg (ESentinel ErrRetainedWALBudgetExceeded) attempts s (r :: rest) =
         (s', (StateFailed, 0, RunReturned (Some e))) ∧
    errors_is e ErrRetainedWALBudgetExceeded = true ∧ errorClass e = "retention_budget_exceeded".
Proof. intros Hc Hs Hr. cbn [Run]. rewrite Hr, Hc, Hs. simpl. eexists. by split_and!. Qed.
