(* ===== verification/Telemetry.v ===== *)
(** * Telemetry: internal/telemetry

    The parts of the metrics pipeline that decide something: which exporters
    and protocol the environment asks for, the rate limit on export errors,
    the process's instance ID, the attribute allowlist, and the folding of the
    Go runtime's histograms into watchd's buckets. The OpenTelemetry SDK and
    its exporters are not modelled. *)

From S2P Require Import Prelude Float64.
From Stdlib Require Import Ascii.
Local Open Scope string_scope.
Local Open Scope list_scope.
Local Open Scope Z_scope.

(** ** Exporters: telemetry.go *)

(** Unicode's White_Space, as UTF-8, which [strings.TrimSpace] trims. *)
Definition bytes (l : list nat) : string := String.string_of_list_ascii (ascii_of_nat <$> l).

Definition white_space : list string :=
  bytes <$> ([[9]; [10]; [11]; [12]; [13]; [32]; [194; 133]; [194; 160]; [225; 154; 128]] ++
             ((λ n, [226; 128; n]) <$> seq 128 11) ++
             [[226; 128; 168]; [226; 128; 169]; [226; 128; 175]; [226; 129; 159]; [227; 128; 128]])%nat.

(** What is left after the first of the given prefixes [s] has. *)
Fixpoint strip_prefix (prefix s : string) : option string :=
  match prefix, s with
  | EmptyString, _ => Some s
  | String a p, String b s => if decide (a = b) then strip_prefix p s else None
  | String _ _, EmptyString => None
  end.

Fixpoint trim_left (fuel : nat) (spaces : list string) (s : string) : string :=
  match fuel with
  | O => s
  | S fuel => match omap (λ p, strip_prefix p s) spaces with
              | [] => s
              | s :: _ => trim_left fuel spaces s
              end
  end.

Fixpoint reverse_string (s acc : string) : string :=
  match s with EmptyString => acc | String a s => reverse_string s (String a acc) end.

(** Each turn removes a byte at least, so the length is fuel enough. *)
Definition TrimSpace (s : string) : string :=
  let left := trim_left (String.length s) white_space s in
  reverse_string
    (trim_left (String.length s) ((λ p, reverse_string p EmptyString) <$> white_space)
       (reverse_string left EmptyString)) EmptyString.

(** The loop of [otlpEnabled] over the listed exporters; [None] is
    [ErrInvalidEnvironment]. *)
Fixpoint otlp_names (names : list string) (otlp : bool) : option bool :=
  match names with
  | [] => Some otlp
  | name :: rest =>
      let name := TrimSpace name in
      if decide (name = "" ∨ name = "prometheus" ∨ name = "none") then otlp_names rest otlp
      else if decide (name = "otlp") then otlp_names rest true
      else None
  end.

Definition otlpEnabled (value : string) : option bool := otlp_names (split_char ","%char value) false.

(** The protocol of [newOTLPExporter]: gRPC or HTTP. *)
Inductive otlp_protocol : Type := OtlpHTTP | OtlpGRPC.

Definition newOTLPExporter (metrics_protocol protocol : string) : option otlp_protocol :=
  let chosen := if decide (metrics_protocol = "") then protocol else metrics_protocol in
  if decide (chosen = "" ∨ chosen = "http/protobuf") then Some OtlpHTTP
  else if decide (chosen = "grpc") then Some OtlpGRPC
  else None.

(** ** Setting up *)

(** [errors.Is] tells [ErrInvalidEnvironment] from any other failure. *)
Inductive setupError : Type := ErrInvalidEnvironment | SetupFailed.

(** The environment, and whether the SDK's calls succeed: the resource, the two
    exporters, and the runtime instrumentation. *)
Record setup_env : Type := mkSetupEnv {
  OTEL_METRICS_EXPORTER : string;
  OTEL_EXPORTER_OTLP_METRICS_PROTOCOL : string;
  OTEL_EXPORTER_OTLP_PROTOCOL : string;
  se_resource : bool;
  se_prometheusExporter : bool;
  se_otlpExporter : bool;
  se_runtime : bool
}.

Inductive metric_reader : Type := PrometheusReader | OtlpReader (protocol : otlp_protocol).

(** The provider's readers, and whether there is a handler for /metrics. *)
Record Telemetry : Type := mkTelemetry {
  tl_readers : list metric_reader;
  tl_handler : bool
}.

Definition Setup (prometheus : bool) (e : setup_env) : result setupError Telemetry :=
  match otlpEnabled (OTEL_METRICS_EXPORTER e) with
  | None => Err ErrInvalidEnvironment
  | Some otlp =>
      if negb (se_resource e) then Err ErrInvalidEnvironment
      else if prometheus && negb (se_prometheusExporter e) then Err SetupFailed
      else
        let readers := if (prometheus : bool) then [PrometheusReader] else [] in
        let! readers :=
          if (otlp : bool) then
            match newOTLPExporter (OTEL_EXPORTER_OTLP_METRICS_PROTOCOL e) (OTEL_EXPORTER_OTLP_PROTOCOL e) with
            | None => Err ErrInvalidEnvironment
            | Some protocol => if se_otlpExporter e then Ok (readers ++ [OtlpReader protocol]) else Err SetupFailed
            end
          else Ok readers in
        if se_runtime e then Ok (mkTelemetry readers prometheus) else Err SetupFailed
  end.

(** [version], from the build information's main module version. *)
Definition version (info : option string) : string :=
  match info with
  | Some v => if decide (v ≠ "" ∧ v ≠ "(devel)") then v else "dev"
  | None => "dev"
  end.

(** ** The instance ID *)

Definition hex_char (d : Z) : ascii := ascii_of_nat (Z.to_nat (if decide (d < 10) then 48 + d else 87 + d)).

(** [%x] of bytes. *)
Fixpoint hex_bytes (b : list Z) : string :=
  match b with
  | [] => EmptyString
  | x :: rest => String (hex_char (Z.shiftr x 4)) (String (hex_char (Z.land x 15)) (hex_bytes rest))
  end.

(** [instanceID], from 16 random bytes. *)
Definition instanceID (random : list Z) : string :=
  let b := alter (λ x, Z.lor (Z.land x 0x0f) 0x40) 6%nat random in
  let b := alter (λ x, Z.lor (Z.land x 0x3f) 0x80) 8%nat b in
  join_char "-"%char
    [hex_bytes (take 4 b); hex_bytes (take 2 (drop 4 b)); hex_bytes (take 2 (drop 6 b));
     hex_bytes (take 2 (drop 8 b)); hex_bytes (drop 10 b)].

(** ** Export errors *)

Definition errorLogInterval : Z := 30 * 1000000000.

(** [last] is None before the first error. *)
Record errorHandler : Type := mkErrorHandler {
  eh_last : option Z;
  eh_suppressed : Z
}.

Definition newErrorHandler : errorHandler := mkErrorHandler None 0.

(** [Handle] at a time in nanoseconds: the handler, and the number of
    suppressed errors a logged line reports. *)
Definition Handle (h : errorHandler) (now : Z) : errorHandler * option Z :=
  match eh_last h with
  | Some last =>
      if decide (now - last < errorLogInterval)
      then (mkErrorHandler (Some last) (wrap_i64 (eh_suppressed h + 1)), None)
      else (mkErrorHandler (Some now) 0, Some (eh_suppressed h))
  | None => (mkErrorHandler (Some now) 0, Some (eh_suppressed h))
  end.

(** ** Attributes: attrs.go *)

Definition allowedKeys : list string := ["source"; "projection"; "reason"; "error_class"; "state"; "mode"].

Definition Allowed (key : string) : bool := bool_decide (key ∈ allowedKeys).

(** [Attributes]: None is the panic. *)
Definition Attributes (kvs : list (string * string)) : option (gmap string string) :=
  if forallb (λ kv, Allowed (fst kv)) kvs then Some (foldl (λ m kv, <[fst kv := snd kv]> m) ∅ kvs) else None.

Definition MetricPrefix : string := "watchd.".

Definition IsWatchdMetric (name : string) : bool := has_prefix MetricPrefix name.

(** ** Runtime histograms: runtime.go *)

(** [for target < len(bounds) && bounds[target] < hi], over the bounds that
    remain. *)
Fixpoint advance (rest : list float64) (target : nat) (hi : float64) : nat :=
  match rest with
  | [] => target
  | b :: rest => if f64_lt b hi then advance rest (S target) hi else target
  end.

Record rebucketed : Type := mkRebucketed {
  rb_counts : list Z;
  rb_count : Z;
  rb_sum : float64
}.

(** [lo > 0] and not minus infinity. *)
Definition add_sum (sum lo : float64) (c : Z) : float64 :=
  if f64_lt f64_zero lo then f64_add sum (f64_mul lo (f64_of_int c)) else sum.

(** The loop over the runtime's buckets; None is an index out of range. *)
Fixpoint rebucket_loop (bounds : list float64) (counts : list Z) (buckets : list float64) (target : nat)
    (r : rebucketed) : option rebucketed :=
  match counts, buckets with
  | [], _ => Some r
  | c :: counts, lo :: ((hi :: _) as buckets) =>
      let target := advance (drop target bounds) target hi in
      rebucket_loop bounds counts buckets target
        (if decide (c = 0) then r
         else mkRebucketed (alter (λ n, wrap_u64 (n + c)) target (rb_counts r)) (wrap_u64 (rb_count r + c))
                (add_sum (rb_sum r) lo c))
  | _, _ => None
  end.

Definition rebucket (counts : list Z) (buckets bounds : list float64) : option rebucketed :=
  rebucket_loop bounds counts buckets 0 (mkRebucketed (replicate (S (length bounds)) 0) 0 f64_zero).

(** ** Rebucketing lemmas *)

(** The first bound at or above [hi]; past the last bound, the overflow
    bucket. *)
Definition place (bounds : list float64) (hi : float64) : nat := advance bounds 0 hi.

Lemma advance_shift rest target hi : advance rest target hi = (target + advance rest 0 hi)%nat.
Proof.
  revert target. induction rest as [|b rest IH]; intros target; simpl; [lia|].
  destruct (f64_lt b hi); [|lia]. rewrite (IH (S target)), (IH 1%nat). lia.
Qed.

Lemma place_spec bounds hi :
  (place bounds hi ≤ length bounds)%nat ∧
  (∀ b, bounds !! place bounds hi = Some b → f64_lt b hi = false) ∧
  Forall (λ b, f64_lt b hi = true) (take (place bounds hi) bounds).
Proof.
  unfold place. induction bounds as [|b bounds (IH1 & IH2 & IH3)]; simpl; [by split_and!|].
  destruct (f64_lt b hi) eqn:Hb.
  - rewrite advance_shift. split; [lia|]. split; [by apply IH2|]. simpl. by apply Forall_cons.
  - split; [lia|]. simpl. split; [by intros ? [= <-]|constructor].
Qed.

(** Starting past bounds that are all below [hi] finds the same place. *)
Lemma advance_place bounds target hi :
  Forall (λ b, f64_lt b hi = true) (take target bounds) → (target ≤ length bounds)%nat →
  advance (drop target bounds) target hi = place bounds hi.
Proof.
  unfold place. revert target. induction bounds as [|b bounds IH]; intros target Hlt Hle.
  { simpl in Hle. assert (target = 0)%nat as -> by lia. done. }
  destruct target as [|target]; [done|]. simpl in *. apply Forall_cons in Hlt as [-> Hlt].
  rewrite advance_shift, (advance_shift bounds 1). rewrite <-(IH target), (advance_shift _ target) by (done || lia). lia.
Qed.

Definition ascending (buckets : list float64) : Prop :=
  ∀ i lo hi, buckets !! i = Some lo → buckets !! S i = Some hi → f64_le lo hi = true.

(** The counts of the runtime's buckets that belong in bucket [j]. *)
Definition share (bounds : list float64) (j : nat) (buckets : list (Z * float64)) : Z :=
  foldr Z.add 0 (fst <$> base.filter (λ p, place bounds (snd p) = j) buckets).

Lemma share_cons bounds j c hi buckets :
  share bounds j ((c, hi) :: buckets) = (if decide (place bounds hi = j) then c else 0) + share bounds j buckets.
Proof. unfold share. rewrite filter_cons. simpl. by destruct (decide _). Qed.

Lemma wrap_u64_add a b : wrap_u64 (wrap_u64 a + b) = wrap_u64 (a + b).
Proof. unfold wrap_u64. by rewrite Z.add_mod_idemp_l. Qed.

Lemma add_share n bounds j c hi buckets :
  is_u64 n →
  wrap_u64 ((if decide (place bounds hi = j) then wrap_u64 (n + c) else n) + share bounds j buckets) =
  wrap_u64 (n + share bounds j ((c, hi) :: buckets)).
Proof.
  intros Hn. rewrite share_cons. destruct (decide _); [|f_equal; lia].
  rewrite wrap_u64_add. f_equal. lia.
Qed.

(** From any point of the loop. *)
Lemma rebucket_loop_exact bounds counts buckets target r :
  length buckets = S (length counts) → ascending buckets → (target ≤ length bounds)%nat →
  (∀ lo, head buckets = Some lo → Forall (λ b, f64_lt b lo = true) (take target bounds)) →
  Forall is_u64 (rb_counts r) → is_u64 (rb_count r) →
  ∃ r', rebucket_loop bounds counts buckets target r = Some r' ∧
    rb_count r' = wrap_u64 (rb_count r + foldr Z.add 0 counts) ∧
    ∀ j, rb_counts r' !! j =
      (λ n, wrap_u64 (n + share bounds j (zip counts (tail buckets)))) <$> rb_counts r !! j.
Proof.
  revert buckets target r. induction counts as [|c counts IH]; intros buckets target r Hlen Hasc Ht Hlow Hu Hc.
  { exists r. destruct buckets; simpl; (split; [done|]); rewrite Z.add_0_r, wrap_u64_id by done; (split; [done|]);
      intros j; destruct (rb_counts r !! j) as [n|] eqn:Hn; simpl; try done;
      unfold share; simpl; rewrite Z.add_0_r, wrap_u64_id; try done; by eapply Forall_lookup_1 in Hn. }
  destruct buckets as [|lo [|hi buckets]]; [done|done|]. cbn [rebucket_loop].
  assert (Forall (λ b, f64_lt b hi = true) (take target bounds)) as Hhi.
  { eapply Forall_impl; [by apply (Hlow lo)|]. intros b Hb. eapply f64_lt_le_trans; [exact Hb|]. by apply (Hasc 0%nat). }
  rewrite advance_place by done. destruct (place_spec bounds hi) as (Hp1 & _ & Hp3).
  set (r1 := if decide (c = 0) then r else _).
  assert (Forall is_u64 (rb_counts r1) ∧ is_u64 (rb_count r1) ∧ rb_count r1 = wrap_u64 (rb_count r + c) ∧
    ∀ j, rb_counts r1 !! j =
      (λ n, if decide (place bounds hi = j) then wrap_u64 (n + c) else n) <$> rb_counts r !! j) as (Hu1 & Hc1 & Hcount & Hcounts).
  { unfold r1. destruct (decide (c = 0)) as [->|Hc0]; simpl.
    - rewrite Z.add_0_r, wrap_u64_id by done. split_and!; try done. intros j.
      destruct (rb_counts r !! j) as [n|] eqn:Hn; simpl; [|done].
      rewrite Z.add_0_r, wrap_u64_id; [by destruct (decide _)|by eapply Forall_lookup_1 in Hn].
    - split_and!; try done; [|apply Z.mod_pos_bound; lia|].
      + apply Forall_lookup_2. intros j n Hj. rewrite list_lookup_alter in Hj.
        destruct (decide _) as [<-|]; [|by eapply Forall_lookup_1 in Hj].
        destruct (rb_counts r !! _); simpl in Hj; [|done]. injection Hj as <-. apply Z.mod_pos_bound. lia.
      + intros j. rewrite list_lookup_alter. destruct (decide (place bounds hi = j)) as [<-|]; [done|].
        by destruct (rb_counts r !! j). }
  destruct (IH (hi :: buckets) (place bounds hi) r1) as (r' & Hr' & Hrc & Hrs); try done.
  - simpl in *. lia.
  - intros i a b Ha Hb. by apply (Hasc (S i)).
  - by intros ? [= <-].
  - exists r'. split; [done|]. split.
    + rewrite Hrc, Hcount, wrap_u64_add. simpl. f_equal. lia.
    + intros j. rewrite Hrs, Hcounts. destruct (rb_counts r !! j) as [n|] eqn:Hn; simpl; [|done].
      f_equal. apply add_share. by eapply Forall_lookup_1 in Hn.
Qed.

(** ** Export errors: lemmas *)

(** The lines logged for errors at the given times, each with its time. *)
Fixpoint handle_all (h : errorHandler) (times : list Z) : errorHandler * list (Z * Z) :=
  match times with
  | [] => (h, [])
  | now :: rest =>
      match Handle h now with
      | (h, None) => handle_all h rest
      | (h, Some suppressed) => let '(h, lines) := handle_all h rest in (h, (now, suppressed) :: lines)
      end
  end.

(** What the lines account for: themselves, and what each says it suppressed. *)
Definition accounted (lines : list (Z * Z)) : Z := foldr Z.add 0 ((λ l, 1 + snd l) <$> lines).

Lemma accounted_cons l lines : accounted (l :: lines) = 1 + snd l + accounted lines.
Proof. done. Qed.

(** Lines are an interval apart, the first one from [last]. *)
Fixpoint spaced (last : option Z) (lines : list Z) : Prop :=
  match lines with
  | [] => True
  | now :: rest =>
      match last with Some last => errorLogInterval ≤ now - last | None => True end ∧ spaced (Some now) rest
  end.

Lemma handle_all_accounts h times :
  0 ≤ eh_suppressed h → eh_suppressed h + zlen times < 2 ^ 63 →
  let '(h', lines) := handle_all h times in
  accounted lines + eh_suppressed h' = eh_suppressed h + zlen times ∧ 0 ≤ eh_suppressed h' ∧
  spaced (eh_last h) (fst <$> lines).
Proof.
  revert h. induction times as [|now times IH]; intros h H0 Hb.
  { unfold accounted, zlen. simpl. split_and!; [lia|lia|done]. }
  unfold zlen in *. cbn [length] in *. cbn [handle_all]. unfold Handle.
  assert (∀ s, Handle h now = (mkErrorHandler (Some now) 0, Some s) → s = eh_suppressed h →
    match eh_last h with Some last => errorLogInterval ≤ now - last | None => True end →
    let '(h', lines) := handle_all (mkErrorHandler (Some now) 0) times in
    accounted ((now, s) :: lines) + eh_suppressed h' = eh_suppressed h + Z.of_nat (S (length times)) ∧
    0 ≤ eh_suppressed h' ∧ spaced (eh_last h) (now :: (fst <$> lines))) as Hlogged.
  { intros s _ -> Hspace. specialize (IH (mkErrorHandler (Some now) 0)). simpl in IH.
    destruct (handle_all _ times) as [h' lines]. destruct IH as (I1 & I2 & I3); [lia|lia|].
    rewrite accounted_cons. simpl. split_and!; [lia|done..]. }
  destruct (eh_last h) as [last|] eqn:Hl.
  - destruct (decide _) as [Hlt|Hge].
    + rewrite wrap_i64_id by (unfold is_i64; lia). specialize (IH (mkErrorHandler (Some last) (eh_suppressed h + 1))).
      simpl in IH. destruct (handle_all _ times) as [h' lines]. destruct IH as (I1 & I2 & I3); [lia|lia|].
      split_and!; [lia|done|done].
    + specialize (Hlogged (eh_suppressed h)). unfold Handle in Hlogged. rewrite Hl, decide_False in Hlogged by done.
      destruct (handle_all _ times) as [h' lines]. apply Hlogged; [done|done|lia].
  - specialize (Hlogged (eh_suppressed h)). unfold Handle in Hlogged. rewrite Hl in Hlogged.
    destruct (handle_all _ times) as [h' lines]. by apply Hlogged.
Qed.

(** Every export error is either logged or counted by the next line, and lines
    are at least the interval apart. *)
Lemma errors_accounted times :
  zlen times < 2 ^ 63 →
  let '(h, lines) := handle_all newErrorHandler times in
  accounted lines + eh_suppressed h = zlen times ∧ spaced None (fst <$> lines).
Proof.
  intros Hb. pose proof (handle_all_accounts newErrorHandler times) as Ha. simpl in Ha.
  destruct (handle_all newErrorHandler times) as [h lines]. destruct Ha as (H1 & _ & H3); [lia|lia|]. by split.
Qed.

(** ** Exporters and the instance ID: lemmas *)

Definition known_exporters : list string := [""; "prometheus"; "none"; "otlp"].

Lemma otlp_names_exact names otlp :
  otlp_names names otlp =
  if decide (Forall (λ name, TrimSpace name ∈ known_exporters) names)
  then Some (otlp || bool_decide ("otlp" ∈ (TrimSpace <$> names))) else None.
Proof.
  revert otlp. induction names as [|name names IH]; intros otlp; [by rewrite orb_false_r|].
  cbn [otlp_names]. cbv zeta. rewrite fmap_cons.
  assert (TrimSpace name ∈ known_exporters ↔
    (TrimSpace name = "" ∨ TrimSpace name = "prometheus" ∨ TrimSpace name = "none") ∨ TrimSpace name = "otlp") as Hk.
  { unfold known_exporters. rewrite !elem_of_cons, elem_of_nil. tauto. }
  destruct (decide (_ ∨ _)) as [Hn|Hn]; [|destruct (decide (_ = "otlp")) as [Ho|Ho]]; rewrite ?IH.
  - destruct (decide (Forall _ names)) as [Hall|Hall].
    + rewrite decide_True by (apply Forall_cons; tauto). do 2 f_equal. apply bool_decide_ext.
      rewrite elem_of_cons. split; [by right|]. intros [E|]; [|done]. rewrite <-E in Hn. by destruct Hn as [|[|]].
    + rewrite decide_False; [done|]. by intros [_ ?]%Forall_cons.
  - destruct (decide (Forall _ names)) as [Hall|Hall].
    + rewrite decide_True by (apply Forall_cons; tauto). rewrite Ho, orb_true_l. f_equal.
      rewrite bool_decide_true by (apply elem_of_cons; by left). by rewrite orb_true_r.
    + rewrite decide_False; [done|]. by intros [_ ?]%Forall_cons.
  - rewrite decide_False; [done|]. intros [?%Hk _]%Forall_cons. tauto.
Qed.

(** When the SDK's calls succeed, setting up fails only on the environment: a
    listed exporter or an OTLP protocol watchd does not know. *)
Lemma Setup_environment prometheus e :
  se_resource e = true → se_prometheusExporter e = true → se_otlpExporter e = true → se_runtime e = true →
  match Setup prometheus e with
  | Ok t =>
      tl_handler t = prometheus ∧ (PrometheusReader ∈ tl_readers t ↔ prometheus = true) ∧
      (otlpEnabled (OTEL_METRICS_EXPORTER e) = Some true ↔ ∃ protocol, OtlpReader protocol ∈ tl_readers t)
  | Err err =>
      err = ErrInvalidEnvironment ∧
      (otlpEnabled (OTEL_METRICS_EXPORTER e) = None ∨
       newOTLPExporter (OTEL_EXPORTER_OTLP_METRICS_PROTOCOL e) (OTEL_EXPORTER_OTLP_PROTOCOL e) = None)
  end.
Proof.
  intros Hr Hp Ho Hs. unfold Setup. rewrite Hr, Hp, Ho, Hs, andb_false_r. simpl.
  destruct (otlpEnabled _) as [[]|]; simpl; [destruct (newOTLPExporter _ _) as [protocol|]; simpl| |]; try tauto.
  - destruct prometheus; set_solver.
  - destruct prometheus; set_solver.
Qed.

(** The version and variant of a UUIDv4, whatever the random bytes. *)
Lemma instanceID_version random :
  length random = 16%nat →
  String.length (instanceID random) = 36%nat ∧
  String.get 14 (instanceID random) = Some "4"%char ∧
  ∃ c, String.get 19 (instanceID random) = Some c ∧ c ∈ ["8"; "9"; "a"; "b"]%char.
Proof.
  intros Hlen. do 16 (destruct random as [|? random]; [done|]). destruct random; [|done].
  split; [done|]. split.
  - simpl. by rewrite Z.shiftr_lor, Z.shiftr_land, Z.land_0_r.
  - simpl. rewrite Z.shiftr_lor, Z.shiftr_land. change (Z.shiftr 63 4) with (Z.ones 2). rewrite Z.land_ones by lia.
    eexists. split; [done|]. pose proof (Z.mod_pos_bound (Z.shiftr z7 4) (2 ^ 2)) as Hm.
    set (y := Z.shiftr z7 4 mod 2 ^ 2) in *. clearbody y.
    assert (y = 0 ∨ y = 1 ∨ y = 2 ∨ y = 3) as [->|[->|[->| ->]]] by lia; vm_compute; set_solver.
Qed.

(** ** Properties *)

(** Folding a runtime histogram into watchd's bounds loses no observation and
    reports none below its value: each runtime bucket's count is added to the
    first bound not below the bucket's upper edge, or to the overflow bucket
    when there is none; and the total is the total. Counts are 64-bit. *)
Lemma rebucket_exact counts buckets bounds
    (Hlen : length buckets = S (length counts)) (Hasc : ascending buckets) :
  ∃ r, rebucket counts buckets bounds = Some r ∧ length (rb_counts r) = S (length bounds) ∧
    rb_count r = wrap_u64 (foldr Z.add 0 counts) ∧
    ∀ j, (j ≤ length bounds)%nat →
      rb_counts r !! j = Some (wrap_u64 (share bounds j (zip counts (tail buckets)))) ∧
      ∀ hi, place bounds hi = j →
        Forall (λ b, f64_lt b hi = true) (take j bounds) ∧ (∀ b, bounds !! j = Some b → f64_lt b hi = false).
Proof.
  destruct (rebucket_loop_exact bounds counts buckets 0 (mkRebucketed (replicate (S (length bounds)) 0) 0 f64_zero))
    as (r & Hr & Hc & Hs); [done|done|lia|done|by apply Forall_replicate|done|].
  assert (∀ j, (j ≤ length bounds)%nat →
    rb_counts r !! j = Some (wrap_u64 (share bounds j (zip counts (tail buckets))))) as Hj.
  { intros j Hj. rewrite Hs. cbn [rb_counts]. rewrite lookup_replicate_2 by lia. done. }
  exists r. split; [done|]. split; [|split; [done|]].
  - apply Nat.le_antisymm.
    + apply lookup_ge_None. rewrite Hs. cbn [rb_counts]. by rewrite (proj1 (lookup_replicate_None _ _ _)).
    + destruct (decide (S (length bounds) ≤ length (rb_counts r)))%nat as [|Hlt]; [done|].
      specialize (Hj (length bounds)). rewrite lookup_ge_None_2 in Hj by lia. by discriminate Hj.
  - intros j Hle. split; [by apply Hj|]. intros hi <-. destruct (place_spec bounds hi) as (_ & ? & ?). done.
Qed.

Lemma rebucket_exact_witness :
  let f n := f64_of_int n in
  ∃ r, rebucket [2; 0; 5; 1] [f 0; f 1; f 3; f 4; f 9] [f 1; f 4; f 8] = Some r ∧
    rb_counts r = [2; 5; 0; 1] ∧ rb_count r = 8.
Proof.
  cbv zeta. edestruct rebucket_exact as (r & Hr & _ & Hc & _); [| |exists r; split; [exact Hr|]].
  - reflexivity.
  - intros i lo hi Hlo Hhi. do 4 (destruct i as [|i]; [injection Hlo as <-; injection Hhi as <-; vm_compute; reflexivity|]).
    destruct i; discriminate Hhi.
  - split; [|exact Hc]. vm_compute in Hr. injection Hr as <-. reflexivity.
Defined.

(** ** The runtime's histograms: runtime.go *)

Definition runtimeLatencyBounds : list float64 :=
  [1e-6; 5e-6; 1e-5; 5e-5; 1e-4; 2.5e-4; 5e-4; 1e-3; 2.5e-3; 5e-3; 1e-2; 1e-1; 1]%f64.

(** The runtime's name and the instrument's; descriptions are left out. *)
Definition runtimeHistograms : list (string * string) :=
  [("/sched/latencies:seconds", "go.schedule.duration"); ("/sched/pauses/total/gc:seconds", "go.gc.pause.duration")].

(** The names of the samples [newRuntimeProducer] reads. *)
Definition newRuntimeProducer : list string := fst <$> runtimeHistograms.

(** A read sample: a histogram's counts and buckets, or another kind. *)
Definition runtime_sample : Type := option (list Z * list float64).

(** The loop of [Produce]; None is an index out of range. *)
Fixpoint produce_loop (i : nat) (samples : list runtime_sample) : option (list (string * rebucketed)) :=
  match samples with
  | [] => Some []
  | None :: rest => produce_loop (S i) rest
  | Some (counts, buckets) :: rest =>
      h ← runtimeHistograms !! i;
      point ← rebucket counts buckets runtimeLatencyBounds;
      out ← produce_loop (S i) rest;
      Some ((snd h, point) :: out)
  end.

(** [Produce], given what [metrics.Read] stores for each name. *)
Definition Produce (read : string → runtime_sample) : option (list (string * rebucketed)) :=
  produce_loop 0 (read <$> newRuntimeProducer).

(** A histogram as [runtime/metrics] documents it. *)
Definition runtime_histogram (s : runtime_sample) : Prop :=
  match s with
  | Some (counts, buckets) => length buckets = S (length counts) ∧ ascending buckets
  | None => True
  end.

(** Every supported histogram is produced, under its own name and with every
    observation; one this Go version does not support is left out. *)
Lemma Produce_complete (read : string → runtime_sample) :
  (∀ name, runtime_histogram (read name)) →
  ∃ out, Produce read = Some out ∧
    (fst <$> out) = omap (λ h, (λ _, snd h) <$> read (fst h)) runtimeHistograms ∧
    ∀ name source counts buckets, (source, name) ∈ runtimeHistograms → read source = Some (counts, buckets) →
      ∃ r, (name, r) ∈ out ∧ rb_count r = wrap_u64 (foldr Z.add 0 counts).
Proof.
  intros Hwf. unfold Produce, newRuntimeProducer, runtimeHistograms. cbn [fmap list_fmap fst].
  pose proof (Hwf "/sched/latencies:seconds") as H1. pose proof (Hwf "/sched/pauses/total/gc:seconds") as H2.
  assert (∀ counts buckets, runtime_histogram (Some (counts, buckets)) →
    ∃ r, rebucket counts buckets runtimeLatencyBounds = Some r ∧ rb_count r = wrap_u64 (foldr Z.add 0 counts)) as Hr.
  { intros counts buckets [Hl Ha]. destruct (rebucket_exact counts buckets runtimeLatencyBounds Hl Ha)
      as (r & ? & _ & ? & _). by exists r. }
  destruct (read "/sched/latencies:seconds") as [[c1 b1]|] eqn:E1,
    (read "/sched/pauses/total/gc:seconds") as [[c2 b2]|] eqn:E2;
    repeat match goal with Hh : runtime_histogram (Some _) |- _ => apply Hr in Hh as (? & ? & ?) end;
    cbn [produce_loop runtimeHistograms lookup list_lookup mbind option_bind snd];
    repeat match goal with Hh : rebucket _ _ _ = Some _ |- _ => rewrite Hh; clear Hh end;
    cbn; rewrite ?E1, ?E2; cbn; eexists; (split; [reflexivity|]); (split; [reflexivity|]);
    intros name source counts buckets Hin Hread; set_unfold in Hin; destruct Hin as [[= -> ->]|[[= -> ->]|[]]];
    simplify_eq; eexists; (split; [|eassumption]); set_solver.
Qed.
