(* ===== verification/Ops.v ===== *)
(** * The operational endpoint: internal/ops/ops.go

    The routes of [Handler] and what they answer. [http.ServeMux] is modelled
    for the patterns registered here and a path that is already clean: it
    redirects any other path. Prometheus's and pprof's handlers are not
    modelled; only that a request reaches them. *)

From S2P Require Import Prelude.
From Stdlib Require Import Ascii.
Local Open Scope string_scope.
Local Open Scope list_scope.
Local Open Scope Z_scope.

(** [Config]: whether there is a metrics handler, what [Ready] reports when it
    is set, and [Pprof]. *)
Record opsConfig : Type := mkOpsHandler {
  op_metrics : bool;
  op_ready : option bool;
  op_pprof : bool
}.

(** An answer: a status and body of [writeStatus], a handler of another
    package, a redirect of the mux, or its own 404 and 405. *)
Inductive opsAnswer : Type :=
| OpsStatus (code : Z) (body : string)
| OpsMetrics
| OpsPprof (handler : string)
| OpsRedirect (path : string)
| OpsNotFound
| OpsMethodNotAllowed.

#[export] Instance opsAnswer_eq_dec : EqDecision opsAnswer.
Proof. solve_decision. Defined.

Definition writeStatus (code : Z) (body : string) : opsAnswer := OpsStatus code (body +:+ String "010"%char "").

(** A "GET" pattern also matches HEAD; another method on its path is 405. *)
Definition get (method : string) (answer : opsAnswer) : opsAnswer :=
  if decide (method = "GET" ∨ method = "HEAD") then answer else OpsMethodNotAllowed.

(** The patterns of pprof: a path's own, or the subtree's index. *)
Definition pprof_route (path : string) : opsAnswer :=
  if decide (path = "/debug/pprof/cmdline") then OpsPprof "Cmdline"
  else if decide (path = "/debug/pprof/profile") then OpsPprof "Profile"
  else if decide (path = "/debug/pprof/symbol") then OpsPprof "Symbol"
  else if decide (path = "/debug/pprof/trace") then OpsPprof "Trace"
  else if has_prefix "/debug/pprof/" path then OpsPprof "Index"
  else if decide (path = "/debug/pprof") then OpsRedirect "/debug/pprof/"
  else OpsNotFound.

Definition Handler (cfg : opsConfig) (method path : string) : opsAnswer :=
  if decide (path = "/metrics") then if op_metrics cfg then get method OpsMetrics else OpsNotFound
  else if decide (path = "/healthz") then get method (writeStatus 200 "ok")
  else if decide (path = "/readyz") then
    get method (match op_ready cfg with
                | Some true => writeStatus 200 "ready"
                | _ => writeStatus 503 "not ready"
                end)
  else if op_pprof cfg then pprof_route path
  else OpsNotFound.

(** Profiles are served only when they are enabled. *)
Lemma pprof_opt_in cfg method path name : Handler cfg method path = OpsPprof name → op_pprof cfg = true.
Proof.
  unfold Handler, get. destruct (decide (path = "/metrics")); [by destruct (op_metrics cfg); [destruct (decide _)|]|].
  destruct (decide _); [by destruct (decide _)|]. destruct (decide _).
  - destruct (decide _); [|done]. by destruct (op_ready cfg) as [[]|].
  - by destruct (op_pprof cfg).
Qed.

(** Ready exactly when the process says so, and alive whatever it says. *)
Lemma readyz_answers cfg :
  Handler cfg "GET" "/healthz" = writeStatus 200 "ok" ∧
  (Handler cfg "GET" "/readyz" = writeStatus 200 "ready" ↔ op_ready cfg = Some true).
Proof. destruct cfg as [? [[]|] ?]; split; try reflexivity; split; (done || discriminate). Qed.
