(* ===== verification/Durations.v ===== *)
(** * Durations in the configuration: internal/daemon/config.go

    [Duration.UnmarshalJSON] takes a JSON string and gives it to the standard
    library's [time.ParseDuration], which is modelled here from Go's:
    the 64-bit accumulation with its overflow checks, and the float64 arithmetic
    of a fraction. *)

From S2P Require Import Prelude Float64.
From Stdlib Require Import Ascii.
Local Open Scope string_scope.
Local Open Scope list_scope.
Local Open Scope Z_scope.

(** ** time.ParseDuration *)

(** [leadingInt]: the leading digits' value and what follows; None is overflow. *)
Fixpoint leadingInt (x : Z) (s : string) : option (Z * string) :=
  match s with
  | EmptyString => Some (x, s)
  | String a rest =>
      match digit_value a with
      | None => Some (x, s)
      | Some d =>
          if decide (x > 2 ^ 63 / 10) then None
          else if decide (x * 10 + d > 2 ^ 63) then None else leadingInt (x * 10 + d) rest
      end
  end.

(** [leadingFraction]: the digits that fit, and the power of ten they are
    over. *)
Fixpoint leadingFraction (x : Z) (scale : float64) (overflow : bool) (s : string) : Z * float64 * string :=
  match s with
  | EmptyString => (x, scale, s)
  | String a rest =>
      match digit_value a with
      | None => (x, scale, s)
      | Some d =>
          if overflow then leadingFraction x scale true rest
          else if decide (x > (2 ^ 63 - 1) / 10) then leadingFraction x scale true rest
          else if decide (x * 10 + d > 2 ^ 63) then leadingFraction x scale true rest
          else leadingFraction (x * 10 + d) (f64_mul scale 10%f64) false rest
      end
  end.

(** A unit is what comes before a dot or a digit. *)
Fixpoint leadingUnit (s : string) : string * string :=
  match s with
  | EmptyString => (EmptyString, s)
  | String a rest =>
      if decide (a = "."%char ∨ is_Some (digit_value a)) then (EmptyString, s)
      else let '(u, rest) := leadingUnit rest in (String a u, rest)
  end.

(** Micro in either of Unicode's two characters, as UTF-8. *)
Definition micro_sign : string := String (ascii_of_nat 194) (String (ascii_of_nat 181) "s").
Definition greek_mu : string := String (ascii_of_nat 206) (String (ascii_of_nat 188) "s").

Definition unitMap : list (string * Z) :=
  [("ns", 1); ("us", 1000); (micro_sign, 1000); (greek_mu, 1000); ("ms", 1000000); ("s", 1000000000);
   ("m", 60 * 1000000000); ("h", 3600 * 1000000000)].

Definition unit_of (u : string) : option Z := snd <$> (snd <$> list_find (λ e, e.1 = u) unitMap).

(** One turn of the loop: a number and its unit, in nanoseconds. *)
Definition duration_term (s : string) : option (Z * string) :=
  match s with
  | EmptyString => None
  | String a _ =>
      if decide (¬ (a = "."%char ∨ is_Some (digit_value a))) then None
      else
        '(v, s1) ← leadingInt 0 s;
        let pre := negb (bool_decide (slen s1 = slen s)) in
        let '(f, scale, s2, post) :=
          match s1 with
          | String dot rest =>
              if decide (dot = "."%char) then
                let '(f, scale, s2) := leadingFraction 0 f64_one false rest in
                (f, scale, s2, negb (bool_decide (slen s2 = slen rest)))
              else (0, f64_one, s1, false)
          | EmptyString => (0, f64_one, s1, false)
          end in
        if negb (pre || post) then None
        else
          let '(u, s3) := leadingUnit s2 in
          if decide (u = "") then None
          else
            unit ← unit_of u;
            if decide (v > 2 ^ 63 / unit) then None
            else
              fraction ← (if decide (f > 0)
                          then f64_to_int64 (f64_mul (f64_of_int f) (f64_div (f64_of_int unit) scale)) else Some 0);
              if decide (v * unit + fraction > 2 ^ 63) then None else Some (v * unit + fraction, s3)
  end.

(** The loop, with the sum so far; a turn consumes a byte at least. *)
Fixpoint duration_terms (fuel : nat) (d : Z) (s : string) : option Z :=
  match s, fuel with
  | EmptyString, _ => Some d
  | _, O => None
  | _, S fuel =>
      '(v, rest) ← duration_term s;
      let d := wrap_u64 (d + v) in
      if decide (d > 2 ^ 63) then None else duration_terms fuel d rest
  end.

Definition ParseDuration (s : string) : option Z :=
  let '(neg, s) :=
    match s with
    | String c rest => if decide (c = "-"%char) then (true, rest) else if decide (c = "+"%char) then (false, rest) else (false, s)
    | EmptyString => (false, s)
    end in
  if decide (s = "0") then Some 0
  else if decide (s = "") then None
  else
    d ← duration_terms (String.length s) 0 s;
    if (neg : bool) then Some (wrap_i64 (- d))
    else if decide (d > 2 ^ 63 - 1) then None else Some d.

(** ** Duration.UnmarshalJSON *)

(** A JSON value, as [json.Unmarshal] into a string tells it: null leaves the
    string empty. *)
Inductive json_value : Type :=
| JsonString (text : string)
| JsonNull
| JsonOther.

(** None is the error that [LoadConfig] reports as an invalid configuration. *)
Definition UnmarshalJSON (data : json_value) : option Z :=
  match data with
  | JsonString text => ParseDuration text
  | JsonNull => ParseDuration ""
  | JsonOther => None
  end.

Example ParseDuration_examples :
  ParseDuration "10s" = Some 10000000000 ∧ ParseDuration "1h30m" = Some 5400000000000 ∧
  ParseDuration "1.5s" = Some 1500000000 ∧ ParseDuration "-0.5ms" = Some (-500000) ∧ ParseDuration "0" = Some 0 ∧
  ParseDuration ".5s" = Some 500000000 ∧ ParseDuration "2562047h47m16.854775807s" = Some (2 ^ 63 - 1) ∧
  ParseDuration "10" = None ∧ ParseDuration "s" = None ∧ ParseDuration "." = None ∧ ParseDuration "1 s" = None ∧
  ParseDuration "9223372036854775808ns" = None ∧ ParseDuration "-9223372036854775808ns" = Some (- 2 ^ 63) ∧
  UnmarshalJSON JsonNull = None.
Proof. vm_compute. split_and!; reflexivity. Qed.

(** ** Lemmas *)

(** The decimal text of [n] reads as [n], up to where no digit follows. *)
Lemma leadingInt_format_digits fuel n acc a0 :
  0 ≤ n < 10 ^ Z.of_nat fuel → 0 ≤ a0 →
  ∃ k, 0 ≤ k ∧ (a0 * 10 ^ k + n ≤ 2 ^ 63 →
    leadingInt a0 (format_digits fuel n acc) = leadingInt (a0 * 10 ^ k + n) acc).
Proof.
  revert n acc. induction fuel as [|fuel IH]; intros n acc Hn Ha.
  { exists 0. change (10 ^ Z.of_nat 0) with 1 in Hn. assert (n = 0) as -> by lia.
    split; [lia|]. intros _. simpl. f_equal. lia. }
  assert (0 ≤ n / 10 < 10 ^ Z.of_nat fuel) as Hq.
  { rewrite Nat2Z.inj_succ, Z.pow_succ_r in Hn by lia.
    split; [apply Z.div_pos; lia|apply Z.div_lt_upper_bound; lia]. }
  assert (0 ≤ n mod 10 < 10) by (apply Z.mod_pos_bound; lia).
  pose proof (Z.div_mod n 10 ltac:(lia)) as Hdm.
  assert (∀ x, 0 ≤ x → x * 10 + n mod 10 ≤ 2 ^ 63 →
    leadingInt x (String (digit_char (n mod 10)) acc) = leadingInt (x * 10 + n mod 10) acc) as Hstep.
  { intros x Hx Hle. cbn [leadingInt]. rewrite digit_value_char by done.
    change (2 ^ 63 / 10) with 922337203685477580. rewrite decide_False by lia. by rewrite decide_False by lia. }
  cbn [format_digits]. destruct (decide (n / 10 = 0)) as [H0|H0].
  - exists 1. split; [lia|]. rewrite Z.pow_1_r. intros Hle. rewrite Hstep by lia. f_equal. lia.
  - destruct (IH (n / 10) (String (digit_char (n mod 10)) acc) Hq Ha) as (k & Hk & Heq).
    exists (k + 1). split; [lia|]. rewrite Z.pow_add_r, Z.pow_1_r by lia. intros Hle.
    assert (0 ≤ a0 * 10 ^ k) by (apply Z.mul_nonneg_nonneg; [done|apply Z.pow_nonneg; lia]).
    rewrite Heq by lia. rewrite Hstep by lia. f_equal. lia.
Qed.

Lemma format_digits_app fuel n acc rest : format_digits fuel n acc +:+ rest = format_digits fuel n (acc +:+ rest).
Proof.
  revert n acc. induction fuel as [|fuel IH]; intros n acc; [done|]. cbn [format_digits].
  destruct (decide _); [done|]. by rewrite IH.
Qed.

Lemma leadingInt_format n rest :
  0 ≤ n ≤ 2 ^ 63 → match rest with String a _ => digit_value a = None | EmptyString => True end →
  leadingInt 0 (format_uint n +:+ rest) = Some (n, rest).
Proof.
  intros Hn Hrest. unfold format_uint. rewrite format_digits_app.
  destruct (leadingInt_format_digits 20 n ("" +:+ rest) 0) as (k & _ & Heq); [|done|].
  { split; [lia|]. assert (2 ^ 63 < 10 ^ Z.of_nat 20) by (vm_compute; reflexivity). lia. }
  rewrite Heq by lia. replace (0 * 10 ^ k + n) with n by lia. change ("" +:+ rest) with rest.
  destruct rest as [|a rest]; [done|]. cbn [leadingInt]. by rewrite Hrest.
Qed.

(** It starts with a digit. *)
Lemma format_uint_digit n : 0 ≤ n → ∃ a rest, format_uint n = String a rest ∧ is_Some (digit_value a).
Proof.
  intros Hn. unfold format_uint.
  assert (∀ fuel n acc, 0 ≤ n → ∃ a rest, format_digits (S fuel) n acc = String a rest ∧ is_Some (digit_value a)) as Hd.
  { clear. induction fuel as [|fuel IH]; intros n acc Hn.
    - cbn [format_digits]. assert (0 ≤ n mod 10 < 10) by (apply Z.mod_pos_bound; lia).
      destruct (decide _); eexists _, _; (split; [reflexivity|]); by rewrite digit_value_char.
    - assert (0 ≤ n mod 10 < 10) by (apply Z.mod_pos_bound; lia).
      change (format_digits (S (S fuel)) n acc) with
        (if decide (n / 10 = 0) then String (digit_char (n mod 10)) acc
         else format_digits (S fuel) (n / 10) (String (digit_char (n mod 10)) acc)).
      destruct (decide _); [eexists _, _; (split; [reflexivity|]); by rewrite digit_value_char|].
      apply IH. apply Z.div_pos; lia. }
  by apply Hd.
Qed.

(** A unit's text reads back up to the next term. *)
Lemma leadingUnit_unit u unit rest :
  unit_of u = Some unit →
  match rest with String a _ => is_Some (digit_value a) | EmptyString => True end →
  leadingUnit (u +:+ rest) = (u, rest) ∧ u ≠ "" ∧ 0 < unit ≤ 3600 * 1000000000 ∧
  match u with String a _ => digit_value a = None ∧ a ≠ "."%char | EmptyString => False end.
Proof.
  intros Hu Hrest.
  assert (leadingUnit rest = ("", rest)) as Hend.
  { destruct rest as [|a rest]; [done|]. cbn [leadingUnit]. by rewrite decide_True by auto. }
  assert (u ∈ fst <$> unitMap ∧ unit ∈ snd <$> unitMap) as [Hin Hun].
  { unfold unit_of in Hu. destruct (list_find _ unitMap) as [[i [u' unit']]|] eqn:Hf; [|done].
    simpl in Hu. injection Hu as <-. apply list_find_Some in Hf as (Hi & Hu' & _). simpl in Hu'. subst u'.
    split; apply list_elem_of_fmap; (exists (u, unit')); (split; [done|]); by eapply list_elem_of_lookup_2. }
  split; [|split; [|split]].
  - cbn in Hin. repeat (apply elem_of_cons in Hin as [->|Hin];
      [cbn; rewrite ?Hend; reflexivity|]). by apply elem_of_nil in Hin.
  - intros ->. vm_compute in Hu. discriminate.
  - cbn in Hun. repeat (apply elem_of_cons in Hun as [->|Hun]; [lia|]). by apply elem_of_nil in Hun.
  - cbn in Hin. repeat (apply elem_of_cons in Hin as [->|Hin]; [vm_compute; split; [reflexivity|discriminate]|]).
    by apply elem_of_nil in Hin.
Qed.

(** ** Durations written as numbers and units *)

Definition term_text (t : Z * string) : string := format_uint t.1 +:+ t.2.

Definition duration_text (l : list (Z * string)) : string := foldr (λ t s, term_text t +:+ s) "" l.

Definition term_value (t : Z * string) : Z := t.1 * default 0 (unit_of t.2).

Definition duration_value (l : list (Z * string)) : Z := foldr (λ t n, term_value t + n) 0 l.

(** A number of a known unit, which fits a duration by itself. *)
Definition term_ok (t : Z * string) : Prop := 0 ≤ t.1 ∧ is_Some (unit_of t.2) ∧ term_value t < 2 ^ 63.

Lemma duration_text_starts l :
  Forall term_ok l → match duration_text l with String a _ => is_Some (digit_value a) | EmptyString => l = [] end.
Proof.
  intros Hl. destruct Hl as [|[n u] l (Hn & _ & _) _]; [done|].
  destruct (format_uint_digit n Hn) as (a & rest & Ha & Hd). cbn [duration_text foldr term_text fst].
  unfold term_text. cbn [fst snd]. by rewrite Ha.
Qed.

Lemma length_append s1 s2 : String.length (s1 +:+ s2) = (String.length s1 + String.length s2)%nat.
Proof. induction s1 as [|a s1 IH]; [done|]. simpl. by rewrite IH. Qed.

Lemma duration_term_text t rest :
  term_ok t → match rest with String a _ => is_Some (digit_value a) | EmptyString => True end →
  duration_term (term_text t +:+ rest) = Some (term_value t, rest) ∧ 0 ≤ term_value t ∧ (2 ≤ String.length (term_text t))%nat.
Proof.
  destruct t as [n u]. intros (Hn & [unit Hu] & Hv) Hrest. unfold term_text, term_value in *. cbn [fst snd] in *.
  rewrite Hu in *. cbn [from_option id] in *.
  destruct (leadingUnit_unit u unit rest Hu Hrest) as (Hlu & Hne & Hunit & Hfirst).
  destruct (format_uint_digit n Hn) as (a & tl & Ha & Hd).
  assert (0 ≤ n * unit) by (apply Z.mul_nonneg_nonneg; lia).
  assert (n ≤ n * unit) by nia.
  assert (n ≤ 2 ^ 63 / unit) as Hdiv by (apply Z.div_le_lower_bound; lia).
  split; [|split; [done|]].
  2:{ rewrite length_append, Ha. destruct u; [done|]. simpl. lia. }
  rewrite string_app_assoc. unfold duration_term. rewrite Ha at 1. cbn [String.append].
  rewrite (decide_False (P := ¬ _)) by tauto.
  rewrite leadingInt_format; [|lia|by destruct u; [done|]; destruct Hfirst]. cbn [mbind option_bind].
  assert (slen (u +:+ rest) ≠ slen (format_uint n +:+ (u +:+ rest))) as Hpre.
  { unfold slen. rewrite (length_append (format_uint n)), Ha. simpl. lia. }
  rewrite (bool_decide_eq_false_2 _ Hpre). cbn [negb orb].
  assert (match u +:+ rest with
          | EmptyString => (0, f64_one, u +:+ rest, false)
          | String dot rest0 =>
              if decide (dot = "."%char)
              then let '(f, scale, s2) := leadingFraction 0 f64_one false rest0 in
                   (f, scale, s2, negb (bool_decide (slen s2 = slen rest0)))
              else (0, f64_one, u +:+ rest, false)
          end = (0, f64_one, u +:+ rest, false)) as ->.
  { destruct u as [|c u]; [done|]. destruct Hfirst as [_ Hdot]. cbn [String.append]. by rewrite decide_False. }
  cbv zeta. cbn [orb negb]. rewrite Hlu, decide_False by done. rewrite Hu. cbn [mbind option_bind].
  rewrite (decide_False (P := n > _)) by lia. rewrite (decide_False (P := 0 > 0)) by lia. cbn [mbind option_bind].
  rewrite decide_False by lia. do 2 f_equal. lia.
Qed.

Lemma duration_value_nonneg l : Forall term_ok l → 0 ≤ duration_value l.
Proof.
  induction 1 as [|t l Ht Hl IH]; [done|]. cbn [duration_value foldr]. unfold duration_value in IH.
  destruct (duration_term_text t "" Ht I) as (_ & ? & _). lia.
Qed.

Lemma duration_terms_text fuel d l :
  Forall term_ok l → (String.length (duration_text l) ≤ fuel)%nat → 0 ≤ d ≤ 2 ^ 63 →
  duration_terms fuel d (duration_text l) =
    if decide (d + duration_value l ≤ 2 ^ 63) then Some (d + duration_value l) else None.
Proof.
  intros Hl. revert fuel d. induction Hl as [|t l Ht Hl IH]; intros fuel d Hfuel Hd.
  { cbn [duration_text foldr duration_value]. rewrite decide_True by lia. destruct fuel; simpl; f_equal; lia. }
  pose proof (duration_value_nonneg l Hl) as Hpos.
  pose proof (duration_text_starts l Hl) as Hstart.
  change (duration_text (t :: l)) with (term_text t +:+ duration_text l) in *.
  change (duration_value (t :: l)) with (term_value t + duration_value l).
  destruct (duration_term_text t (duration_text l) Ht) as (Hterm & Hv & Hlen); [by destruct (duration_text l)|].
  rewrite length_append in Hfuel. destruct Ht as (_ & _ & Hmax). destruct fuel as [|fuel]; [lia|].
  destruct (term_text t +:+ duration_text l) as [|a s] eqn:Es.
  { apply (f_equal String.length) in Es. rewrite length_append in Es. simpl in Es. lia. }
  cbn [duration_terms]. rewrite Hterm. cbn [mbind option_bind].
  rewrite wrap_u64_id by (unfold is_u64; lia). destruct (decide (d + term_value t > 2 ^ 63)).
  - rewrite decide_False by lia. done.
  - rewrite IH by lia. destruct (decide (_ ≤ _)), (decide (_ ≤ _)); try lia; [f_equal; lia|done].
Qed.

(** ** Properties *)

(** A duration written as numbers with units, each of which fits,
    is read as their sum exactly when that is a duration, and is refused when
    it is not: no text of this form overflows into another value. With a minus
    sign it is the negation, down to the least duration. *)
Theorem UnmarshalJSON_exact l (Hl : Forall term_ok l) (Hne : l ≠ []) :
  let n := duration_value l in
  UnmarshalJSON (JsonString (duration_text l)) = (if decide (n < 2 ^ 63) then Some n else None) ∧
  UnmarshalJSON (JsonString (String "-" (duration_text l))) = (if decide (n ≤ 2 ^ 63) then Some (- n) else None).
Proof.
  cbv zeta. cbn [UnmarshalJSON].
  pose proof (duration_terms_text (String.length (duration_text l)) 0 l Hl (le_n _) ltac:(lia)) as Hterms.
  rewrite Z.add_0_l in Hterms. pose proof (duration_text_starts l Hl) as Hstart.
  assert (2 ≤ String.length (duration_text l))%nat as Hlen.
  { destruct Hl as [|t l Ht Hl]; [done|]. change (duration_text (t :: l)) with (term_text t +:+ duration_text l).
    destruct (duration_term_text t "" Ht I) as (_ & _ & ?). rewrite length_append. lia. }
  pose proof (duration_value_nonneg l Hl) as Hpos.
  assert (duration_text l ≠ "0" ∧ duration_text l ≠ "") as [H0 H1].
  { split; intros E; rewrite E in Hlen; simpl in Hlen; lia. }
  unfold ParseDuration. split.
  - destruct (duration_text l) as [|a s] eqn:Es; [done|].
    rewrite (decide_False (P := a = "-"%char)) by (intros ->; by destruct Hstart).
    rewrite (decide_False (P := a = "+"%char)) by (intros ->; by destruct Hstart).
    rewrite !decide_False by done. rewrite Hterms.
    destruct (decide (duration_value l ≤ 2 ^ 63)); cbn [mbind option_bind].
    + destruct (decide (_ > _)), (decide (_ < _)); (done || lia).
    + by rewrite decide_False by lia.
  - rewrite (decide_True (P := "-"%char = "-"%char)) by done. rewrite !decide_False by done. rewrite Hterms.
    destruct (decide (duration_value l ≤ 2 ^ 63)); cbn [mbind option_bind]; [|done].
    rewrite wrap_i64_id by (unfold is_i64; lia). done.
Qed.

Lemma UnmarshalJSON_exact_witness :
  duration_text [(1, "h"); (30, "m"); (500, micro_sign)] = "1h30m500" +:+ micro_sign ∧
  UnmarshalJSON (JsonString (duration_text [(1, "h"); (30, "m"); (500, micro_sign)])) = Some 5400000500000 ∧
  UnmarshalJSON (JsonString (duration_text [(2562047, "h"); (47, "m"); (17, "s")])) = None.
Proof.
  split; [reflexivity|]. split.
  - refine (proj1 (UnmarshalJSON_exact [(1, "h"); (30, "m"); (500, micro_sign)] _ _)); [|discriminate].
    repeat constructor; try (vm_compute; discriminate); by eexists.
  - refine (proj1 (UnmarshalJSON_exact [(2562047, "h"); (47, "m"); (17, "s")] _ _)); [|discriminate].
    repeat constructor; try (vm_compute; discriminate); by eexists.
Defined.
