(* ===== verification/Daemon.v ===== *)
(** * The process: internal/daemon and cmd/watchd

    Configuration, from the file's text to each component's own configuration;
    [Serve] as the ordered actions of startup and shutdown on the source, the
    hub, the server and the listeners; and the exit code. The JSON and YAML
    decoders, the operating system and gRPC's transport are parameters or
    inputs. *)

From S2P Require Import Prelude Float64 Errors CdcTypes Config Hub Reader Source Server Ops Telemetry.
From Stdlib Require Import Ascii.
Local Open Scope string_scope.
Local Open Scope list_scope.
Local Open Scope Z_scope.

(** ** Configuration: config.go *)

Record ProjectionConfig : Type := mkProjectionConfig {
  pc_schema : string;
  pc_table : string;
  pc_scopeColumn : string;
  pc_primaryKey : list string
}.

Record OpsConfig : Type := mkOpsConfig {
  oc_listenAddress : string;
  oc_pprof : bool;
  oc_mutexProfileFraction : Z;
  oc_blockProfileRate : Z
}.

Record RetentionConfig : Type := mkRetentionConfig {
  rc_maxRetainedWALBytes : Z;
  rc_warnFraction : float64;
  rc_degradeFraction : float64;
  rc_sampleInterval : Z
}.

(** Durations are nanoseconds. *)
Record DaemonConfig : Type := mkDaemonConfig {
  dc_sourceID : string;
  dc_slotName : string;
  dc_publicationName : string;
  dc_listenAddress : string;
  dc_projections : gmap string ProjectionConfig;
  dc_shutdownTimeout : Z;
  dc_ops : OpsConfig;
  dc_retention : RetentionConfig;
  dc_databaseURL : string
}.

(** [yaml.YAMLToJSONStrict], and the JSON decoder with unknown fields
    disallowed: the value, and whether input follows it. The decoder never
    sets [DatabaseURL], whose tag excludes it. *)
Class ConfigFormats : Type := {
  YAMLToJSONStrict : string → option string;
  json_decode : string → option (DaemonConfig * bool)
}.

(** The errors of [Serve] and of the configuration, by what [errors.Is] can
    tell: [ErrInvalidConfig], [ErrSource] with the source's error, or
    another. *)
Inductive daemonError : Type :=
| DaemonInvalidConfig
| DaemonSource (inner : option error)
| DaemonOther.

#[export] Instance daemonError_eq_dec : EqDecision daemonError.
Proof. solve_decision. Defined.

Definition defaultShutdownTimeout : Z := seconds 10.

Definition ops_validate (o : OpsConfig) : result daemonError unit :=
  if decide (oc_mutexProfileFraction o < 0 ∨ oc_blockProfileRate o < 0) then Err DaemonInvalidConfig
  else if decide ((oc_mutexProfileFraction o > 0 ∨ oc_blockProfileRate o > 0) ∧ oc_pprof o = false)
  then Err DaemonInvalidConfig
  else if decide (oc_pprof o = true ∧ oc_listenAddress o = "") then Err DaemonInvalidConfig
  else Ok tt.

(** Fields the configuration does not set are Go's zero values. *)
Definition readerConfig (c : DaemonConfig) : ReaderConfig :=
  mkReaderConfig (dc_databaseURL c) (dc_sourceID c) (dc_slotName c) (dc_publicationName c)
    0 0 0 0 0 0 0 (mkRetry 0 0 0 f64_zero)
    (rc_maxRetainedWALBytes (dc_retention c)) 0 (rc_sampleInterval (dc_retention c))
    (rc_warnFraction (dc_retention c)) (rc_degradeFraction (dc_retention c)).

Definition projectionSpecs (c : DaemonConfig) : gmap string ProjectionSpec :=
  (λ p, mkSpec (dc_sourceID c) (pc_schema p) (pc_table p) (pc_scopeColumn p) (pc_primaryKey p)) <$>
    dc_projections c.

Definition hubConfig (c : DaemonConfig) : Config := mkConfig (dc_sourceID c) (projectionSpecs c) 0 0.

(** [Config.validate]. The projections are ranged over in any order; every
    failure is the same error. *)
Definition validate (c : DaemonConfig) : result daemonError unit :=
  if decide (dc_databaseURL c = "") then Err DaemonInvalidConfig
  else if decide (dc_listenAddress c = "") then Err DaemonInvalidConfig
  else if decide (size (dc_projections c) = 0%nat) then Err DaemonInvalidConfig
  else if decide (dc_shutdownTimeout c < 0) then Err DaemonInvalidConfig
  else
    let! _ := ops_validate (dc_ops c) in
    match NewReader (readerConfig c) true (Ok tt) with
    | Err _ => Err DaemonInvalidConfig
    | Ok _ =>
        if decide (map_Forall (λ _ spec, ValidateProjectionSpec spec = Ok tt) (projectionSpecs c)) then
          match NewServer (dc_sourceID c) 0 true with
          | None => Err DaemonInvalidConfig
          | Some _ => Ok tt
          end
        else Err DaemonInvalidConfig
    end.

Section Formats.
Context `{ConfigFormats}.

(** [data] is what reading the file gave. *)
Definition ParseJSONConfig (data : option string) (databaseURL : string) : result daemonError DaemonConfig :=
  match data with
  | None => Err DaemonInvalidConfig
  | Some data =>
      match YAMLToJSONStrict data with
      | None => Err DaemonInvalidConfig
      | Some _ =>
          match json_decode data with
          | None | Some (_, true) => Err DaemonInvalidConfig
          | Some (cfg, false) =>
              let timeout := if decide (dc_shutdownTimeout cfg = 0) then defaultShutdownTimeout
                             else dc_shutdownTimeout cfg in
              let cfg := mkDaemonConfig (dc_sourceID cfg) (dc_slotName cfg) (dc_publicationName cfg)
                           (dc_listenAddress cfg) (dc_projections cfg) timeout (dc_ops cfg) (dc_retention cfg)
                           databaseURL in
              let! _ := validate cfg in Ok cfg
          end
      end
  end.

Definition ParseYAMLConfig (data : option string) (databaseURL : string) : result daemonError DaemonConfig :=
  match data with
  | None => Err DaemonInvalidConfig
  | Some data =>
      match YAMLToJSONStrict data with
      | None => Err DaemonInvalidConfig
      | Some converted => ParseJSONConfig (Some converted) databaseURL
      end
  end.

(** [filepath.Ext]: from the last dot after the last slash. *)
Fixpoint ext_from (path : string) (found : string) : string :=
  match path with
  | EmptyString => found
  | String a rest =>
      ext_from rest (if decide (a = "."%char) then path else if decide (a = "/"%char) then EmptyString else found)
  end.

Definition Ext (path : string) : string := ext_from path EmptyString.

(** [open] is what opening the file gave: its contents, when it opened and
    could be read. *)
Definition LoadConfig (path : string) (open : option (option string)) (databaseURL : string)
    : result daemonError DaemonConfig :=
  match open with
  | None => Err DaemonInvalidConfig
  | Some data =>
      let ext := to_lower (Ext path) in
      if decide (ext = ".json") then ParseJSONConfig data databaseURL
      else if decide (ext = ".yaml" ∨ ext = ".yml") then ParseYAMLConfig data databaseURL
      else Err DaemonInvalidConfig
  end.

End Formats.

(** ** The process: daemon.go *)

(** A socket: open, closed by [Serve], or handed to the server that closes it
    when it stops. *)
Inductive listener : Type := Open | Closed | HandedOver.

#[export] Instance listener_eq_dec : EqDecision listener.
Proof. solve_decision. Defined.

(** What a process consists of. [p_streams] and [p_opsServer] say whether the
    gRPC server and the ops server run; [p_ready] is the flag behind /readyz
    and the serving gauge, and the server's own status is gRPC health's. *)
Record process : Type := mkProcess {
  p_api : listener;
  p_ops : option listener;
  p_opsServer : bool;
  p_source : option Source;
  p_hub : option Hub;
  p_server : option Server;
  p_ready : bool;
  p_streams : bool;
  p_telemetry : bool
}.

(** The steps of [Serve] that have an effect on it, and the source's own end. *)
Inductive action : Type :=
| ATelemetry
| AFlush
| ACloseListeners
| ACloseAPI
| ANewSource
| ANewHub (hub : Hub)
| ANewServer (server : Server)
| AStartOps
| AStopOps
| AStartSource (found : result error bool)
| AServe
| ASetReady (serving : bool)
| ASetHealth (serving : bool)
| ASourceEnds (err : option error)
| AHubStop
| ADrain (in_time : bool)
| AStopSource.

(** The configuration [startOps] gives the ops handler. *)
Definition startOps (c : OpsConfig) (p : process) : opsConfig := mkOpsHandler true (Some (p_ready p)) (oc_pprof c).

(** What the ops endpoint answers, while its server runs. *)
Definition ops_answer (c : OpsConfig) (p : process) (method path : string) : option opsAnswer :=
  if p_opsServer p then Some (Handler (startOps c p) method path) else None.

Definition close_listener (l : listener) : listener := match l with Open => Closed | _ => l end.

Definition act (p : process) (a : action) : process :=
  let '(mkProcess api ops opsServer source hub server ready streams telemetry) := p in
  match a with
  | ATelemetry => mkProcess api ops opsServer source hub server ready streams true
  | AFlush => mkProcess api ops opsServer source hub server ready streams false
  | ACloseListeners =>
      mkProcess (close_listener api) (close_listener <$> ops) opsServer source hub server ready streams telemetry
  | ACloseAPI => mkProcess (close_listener api) ops opsServer source hub server ready streams telemetry
  | ANewSource => mkProcess api ops opsServer (Some NewSource) hub server ready streams telemetry
  | ANewHub h => mkProcess api ops opsServer source (Some h) server ready streams telemetry
  | ANewServer s => mkProcess api ops opsServer source hub (Some s) ready streams telemetry
  | AStartOps =>
      match ops with
      | None => p
      | Some _ => mkProcess api (Some HandedOver) true source hub server ready streams telemetry
      end
  | AStopOps => mkProcess api ops false source hub server ready streams telemetry
  | AStartSource found =>
      mkProcess api ops opsServer ((λ s, fst (Start s found)) <$> source) hub server ready streams telemetry
  | AServe => mkProcess HandedOver ops opsServer source hub server ready true telemetry
  | ASetReady b => mkProcess api ops opsServer source hub server b streams telemetry
  | ASetHealth b => mkProcess api ops opsServer source hub ((λ s, SetServing s b) <$> server) ready streams telemetry
  | ASourceEnds err =>
      mkProcess api ops opsServer ((λ s, stopLocked s err) <$> source) hub server ready streams telemetry
  | AHubStop => mkProcess api ops opsServer source (Stop <$> hub) server ready streams telemetry
  | ADrain _ => mkProcess api ops opsServer source hub server ready false telemetry
  | AStopSource =>
      mkProcess api ops opsServer (cancel <$> source) hub server ready streams telemetry
  end.

(** Why [Serve] stops serving: the case its first [select] takes. *)
Inductive ending : Type :=
| EndContext
| EndSource (err : option error)
| EndServer.

(** What [Serve] meets. *)
Record serve_env : Type := mkServeEnv {
  se_telemetry : setup_env;
  se_readerInstruments : result error unit;
  se_hubInstruments : bool;
  se_serverInstruments : bool;
  se_gauge : bool;
  se_slot : result error bool;
  se_ending : ending;
  se_drained : bool;
  se_sourceStops : option (option error)
}.

Definition failure (e : ending) : result daemonError unit :=
  match e with
  | EndContext => Ok tt
  | EndSource err => Err (DaemonSource err)
  | EndServer => Err DaemonOther
  end.

(** Its closure of that name: the flag behind /readyz, then gRPC health. *)
Definition setServing (value : bool) : list action := [ASetReady value; ASetHealth value].

(** From the start of the source, with its deferred [stopSource]. *)
Definition serve_source (e : serve_env) : list action * result daemonError unit :=
  match se_slot e with
  | Err err => ([AStartSource (se_slot e); ACloseAPI; AStopSource], Err (DaemonSource (Some err)))
  | Ok _ =>
      ([AStartSource (se_slot e); AServe] ++ setServing true ++
       (match se_ending e with EndSource err => [ASourceEnds err] | _ => [] end) ++
       setServing false ++ [AHubStop; ADrain (se_drained e); AStopSource] ++
       (match se_sourceStops e with Some err => [ASourceEnds err] | None => [] end) ++
       [AStopSource],
       failure (se_ending e))
  end.

(** The construction of the components, and the ops server around the source. *)
Definition serve_components (c : DaemonConfig) (e : serve_env) : list action * result daemonError unit :=
  match NewReader (readerConfig c) true (se_readerInstruments e) with
  | Err _ => ([ACloseListeners], Err DaemonInvalidConfig)
  | Ok _ =>
      match New (hubConfig c) true, se_hubInstruments e with
      | Ok hub, true =>
          match NewServer (dc_sourceID c) 0 true, se_serverInstruments e with
          | Some server, true =>
              let built := [ANewSource; ANewHub hub; ANewServer server] in
              if se_gauge e then
                let '(actions, res) := serve_source e in
                (built ++ [AStartOps] ++ actions ++ [AStopOps], res)
              else (built ++ [ACloseListeners], Err DaemonOther)
          | _, _ => ([ANewSource; ANewHub hub; ACloseListeners], Err DaemonInvalidConfig)
          end
      | _, _ => ([ANewSource; ACloseListeners], Err DaemonInvalidConfig)
      end
  end.

(** [Serve]: its actions in order, and what it returns; [ops] says whether
    there is an ops listener. *)
Definition Serve (c : DaemonConfig) (ops : bool) (e : serve_env) : list action * result daemonError unit :=
  match Setup ops (se_telemetry e) with
  | Err ErrInvalidEnvironment => ([ACloseListeners], Err DaemonInvalidConfig)
  | Err SetupFailed => ([ACloseListeners], Err DaemonOther)
  | Ok _ => let '(actions, res) := serve_components c e in (ATelemetry :: actions ++ [AFlush], res)
  end.

(** The process with its sockets open: with or without the ops endpoint. *)
Definition listening (ops : bool) : process :=
  mkProcess Open (if ops then Some Open else None) false None None None false false false.

(** The process before the first action and after each, with that action. *)
Fixpoint moments (before : option action) (p : process) (actions : list action) : list (option action * process) :=
  (before, p) :: match actions with [] => [] | a :: rest => moments (Some a) (act p a) rest end.

(** [Run]: listening can fail on either address. *)
Definition RunDaemon (c : DaemonConfig) (listen_api listen_ops : bool) (e : serve_env) : result daemonError unit :=
  if negb listen_api then Err DaemonOther
  else
    let ops := bool_decide (oc_listenAddress (dc_ops c) ≠ "") in
    if ops && negb listen_ops then Err DaemonOther else snd (Serve c ops e).

(** ** Exit codes: cmd/watchd/main.go *)

Definition exitOK : Z := 0.
Definition exitInternal : Z := 1.
Definition exitConfig : Z := 2.
Definition exitSource : Z := 3.

Definition exit_code (res : result daemonError unit) : Z :=
  match res with
  | Ok _ => exitOK
  | Err DaemonInvalidConfig => exitConfig
  | Err (DaemonSource _) => exitSource
  | Err DaemonOther => exitInternal
  end.

(** [run], from what [LoadConfig] returned. *)
Definition main_run (load : result daemonError DaemonConfig) (listen_api listen_ops : bool) (e : serve_env) : Z :=
  match load with
  | Err _ => exitConfig
  | Ok c => exit_code (RunDaemon c listen_api listen_ops e)
  end.

(** ** Configuration lemmas *)

Lemma hub_accepts cfg :
  cfg_sourceID cfg ≠ "" → size (cfg_projections cfg) ≠ 0%nat → cfg_maxReplayTransactions cfg = 0 →
  cfg_watcherQueue cfg = 0 → (∀ name spec, cfg_projections cfg !! name = Some spec → sp_sourceID spec = cfg_sourceID cfg) →
  ((∃ hub, New cfg true = Ok hub) ↔ cfg_projections cfg !! "" = None).
Proof.
  intros Hid Hsize Hmax Hqueue Hspecs. unfold New.
  rewrite decide_False by naive_solver. rewrite Hmax, Hqueue. cbv zeta. rewrite !(decide_True (P := 0 = 0)) by done.
  rewrite decide_False by (vm_compute; intuition discriminate). split.
  - intros [hub Hn]. destruct (decide (map_Forall _ _)) as [Hall|]; [|done].
    apply eq_None_not_Some. intros [spec Hspec]. by destruct (Hall _ _ Hspec).
  - intros Hno. rewrite decide_True; [by eexists|]. intros name spec Hspec. split; [congruence|by eapply Hspecs].
Qed.

Lemma New_not_stopped cfg hub : New cfg true = Ok hub → h_stopped hub = false.
Proof.
  unfold New. destruct (decide _); [done|]. cbv zeta. destruct (decide (_ < 0 ∨ _)); [done|].
  destruct (decide (map_Forall _ _)); [by intros [= <-]|done].
Qed.

Lemma NewServer_not_serving source max server : NewServer source max true = Some server → sv_serving server = false.
Proof. unfold NewServer. destruct (_ || _); [done|]. by intros [= <-]. Qed.

Lemma NewServer_source source max server : NewServer source max true = Some server → source ≠ "".
Proof. unfold NewServer. intros Hn ->. done. Qed.

Lemma validate_ok c :
  validate c = Ok tt →
  0 ≤ dc_shutdownTimeout c ∧ size (dc_projections c) ≠ 0%nat ∧
  (∃ reader, NewReader (readerConfig c) true (Ok tt) = Ok reader) ∧
  (∃ server, NewServer (dc_sourceID c) 0 true = Some server) ∧
  map_Forall (λ _ spec, ValidateProjectionSpec spec = Ok tt) (projectionSpecs c).
Proof.
  unfold validate. destruct (decide (dc_databaseURL c = "")); [done|].
  destruct (decide (dc_listenAddress c = "")); [done|]. destruct (decide (size _ = 0%nat)); [done|].
  destruct (decide (dc_shutdownTimeout c < 0)); [done|]. destruct (ops_validate _); simpl; [|done].
  destruct (NewReader _ _ _) as [reader|]; [|done]. destruct (decide (map_Forall _ _)); [|done].
  destruct (NewServer _ _ _) as [server|]; [|done]. intros _. split_and!; [lia|done|eauto..|done].
Qed.

Lemma parsed_valid `{ConfigFormats} data url c :
  ParseJSONConfig data url = Ok c → validate c = Ok tt ∧ dc_databaseURL c = url ∧ dc_shutdownTimeout c ≠ 0.
Proof.
  unfold ParseJSONConfig. destruct data as [data|]; [|done]. destruct (YAMLToJSONStrict data); [|done].
  destruct (json_decode data) as [[cfg []]|]; [done| |done]. cbv zeta.
  destruct (validate _) as [[]|] eqn:Hv; simpl; [|done]. intros [= <-]. split; [done|]. simpl. split; [done|].
  by destruct (decide (dc_shutdownTimeout cfg = 0)).
Qed.

Lemma loaded_valid `{ConfigFormats} path open url c :
  LoadConfig path open url = Ok c → validate c = Ok tt ∧ dc_databaseURL c = url ∧ dc_shutdownTimeout c ≠ 0.
Proof.
  unfold LoadConfig. destruct open as [data|]; [|done]. cbv zeta.
  destruct (decide (_ = ".json")); [by apply parsed_valid|]. destruct (decide _); [|done].
  unfold ParseYAMLConfig. destruct data as [data|]; [|done]. destruct (YAMLToJSONStrict data); [|done].
  by apply parsed_valid.
Qed.

(** ** Properties *)

(** C18 (functional): a configuration that loads can be started. Whatever the file and its
    format, it carries the URL of the environment and a positive shutdown
    timeout; the reader and the server accept it, with every projection a
    snapshot of it accepts; and the hub does exactly when no projection's name
    is empty, which the loading does not check. *)
Theorem LoadConfig_builds `{ConfigFormats} path open url c (Hload : LoadConfig path open url = Ok c) :
  dc_databaseURL c = url ∧ 0 < dc_shutdownTimeout c ∧
  (∃ reader, NewReader (readerConfig c) true (Ok tt) = Ok reader ∧
     ∀ name spec, projectionSpecs c !! name = Some spec → validateSourceProjectionSpec reader spec = Ok tt) ∧
  (∃ server, NewServer (dc_sourceID c) 0 true = Some server) ∧
  ((∃ hub, New (hubConfig c) true = Ok hub) ↔ dc_projections c !! "" = None).
Proof.
  apply loaded_valid in Hload as (Hv & Hurl & Hne).
  apply validate_ok in Hv as (Htime & Hsize & [reader Hreader] & Hserver & Hspecs).
  assert (∀ name spec, projectionSpecs c !! name = Some spec → sp_sourceID spec = dc_sourceID c) as Hsource.
  { intros name spec [p [<- _]]%lookup_fmap_Some. done. }
  split_and!; [done|lia| |done|].
  - exists reader. split; [done|]. intros name spec Hspec. unfold validateSourceProjectionSpec.
    specialize (Hspecs name spec Hspec). simpl in Hspecs. unfold ValidateProjectionSpec in Hspecs.
    rewrite Hspecs. simpl. rewrite decide_False; [done|]. rewrite (Hsource name spec Hspec).
    unfold NewReader in Hreader. destruct (validateReaderConfig _ _); simpl in Hreader; [|done].
    injection Hreader as <-. by intros [].
  - assert (projectionSpecs c !! "" = None ↔ dc_projections c !! "" = None) as <-
      by (unfold projectionSpecs; rewrite lookup_fmap; apply fmap_None).
    apply (hub_accepts (hubConfig c)); [|by unfold hubConfig, projectionSpecs; simpl; rewrite map_size_fmap|done..].
    destruct Hserver as [server Hserver]. by apply NewServer_source in Hserver.
Qed.

(** What holds at every moment of a process: gRPC health says what /readyz
    says, but between the two writes of [setServing]; either says serving only
    with its streams up, its source started and its hub taking watches; and the
    source is not cancelled while streams are up. *)
Record process_ok (m : option action * process) : Prop := {
  po_health : (∀ b, m.1 ≠ Some (ASetReady b)) →
    ∀ server, p_server m.2 = Some server → sv_serving server = p_ready m.2;
  po_serving : p_ready m.2 = true ∨ (∃ server, p_server m.2 = Some server ∧ sv_serving server = true) →
    p_streams m.2 = true ∧ ∃ hub, p_hub m.2 = Some hub ∧ h_stopped hub = false;
  po_source : p_streams m.2 = true →
    ∃ s, p_source m.2 = Some s ∧ src_started s = true ∧ src_ctxDone s = false
}.

(** What is left when [Serve] has returned: everything is closed and down; the
    source, if it was started, is cancelled, and has stopped unless its time
    was up. *)
Record process_down (e : serve_env) (p : process) : Prop := {
  pd_ready : p_ready p = false ∧ ∀ server, p_server p = Some server → sv_serving server = false;
  pd_api : p_api p ≠ Open;
  pd_ops : p_ops p ≠ Some Open;
  pd_stopped : p_streams p = false ∧ p_opsServer p = false ∧ p_telemetry p = false;
  pd_source : ∀ s, p_source p = Some s → src_started s = true →
    src_ctxDone s = true ∧ (src_stopped s = true ∨ se_sourceStops e = None)
}.

Definition serve_ok (ops : bool) (e : serve_env) (actions : list action) (res : result daemonError unit) : Prop :=
  let ms := moments None (listening ops) actions in
  Forall process_ok ms ∧
  process_down e (foldl act (listening ops) actions) ∧
  (existsb p_ready ms.*2 = true → res = failure (se_ending e)) ∧
  (res = Ok tt → se_ending e = EndContext ∧ existsb p_ready ms.*2 = true) ∧
  (∀ inner, res = Err (DaemonSource inner) →
     match se_slot e with Err err => inner = Some err | Ok _ => se_ending e = EndSource inner end).

(** Each moment of a given list of actions, and what it leaves. *)
Ltac process_cases :=
  repeat (apply Forall_cons_2 || apply Forall_nil_2);
  (split; simpl; try done; intros;
   repeat match goal with
   | H : _ ∨ _ |- _ => destruct H as [?|(? & ? & ?)]
   | H : ∀ b, Some (ASetReady ?c) ≠ Some (ASetReady b) |- _ => by destruct (H c)
   end;
   simplify_eq/=; try done; try congruence;
   repeat first [split; [done|] | eexists; split; [done|]]; done).

Ltac down_cases :=
  split; simpl; try done; intros; simplify_eq/=; try done;
  first [split; [done|by left] | split; [done|by right] | by split; [|intros; simplify_eq/=]].

Ltac refused :=
  match goal with |- serve_ok ?ops _ _ _ => destruct ops end; simpl;
  (split; [process_cases|split; [down_cases|done]]).

(** C17 (invariant): startup and shutdown are in order, on every path through [Serve] and at
    every moment of it: gRPC health, /readyz and the serving gauge agree, but
    between the two writes that change them; the process says it serves only
    once its source has started and its streams are up, and no longer when its
    watches end and its source stops; and when it returns its sockets, servers
    and metrics are down, and its source is cancelled, and has stopped unless it
    did not in time. Once it has served it returns what ended it; it returns nil
    only after serving until its context ended, and [ErrSource] only for the
    source's failure. *)
Theorem Serve_lifecycle c ops e :
  serve_ok ops e (fst (Serve c ops e)) (snd (Serve c ops e)).
Proof.
  unfold Serve, serve_components, serve_source. destruct (Setup ops _) as [|[]]; [|refused..].
  destruct (NewReader _ _ _) as [reader|]; [|refused].
  destruct (New (hubConfig c) true) as [hub|] eqn:Hhub; [|refused]. apply New_not_stopped in Hhub.
  destruct (se_hubInstruments e); [|refused].
  destruct (NewServer _ _ _) as [server|] eqn:Hserver; [|refused]. apply NewServer_not_serving in Hserver.
  destruct (se_serverInstruments e); [|refused]. destruct (se_gauge e); [|refused]. cbv zeta.
  destruct (se_slot e) as [found|err] eqn:Hslot.
  - destruct found, (se_ending e) eqn:Hend, (se_sourceStops e) eqn:Hstops; destruct ops; simpl.
    all: split; [process_cases|split; [down_cases|split; [intros _; by rewrite Hend|split]]]; simpl.
    all: try done; try (intros inner [= <-]; done).
    all: by intros inner [= <-]; rewrite Hslot.
  - destruct ops; simpl; (split; [process_cases|split; [down_cases|split; [by intros [=]|split; [done|]]]]).
    all: by intros inner [= <-]; rewrite Hslot.
Qed.

(** /readyz answers what gRPC health says. *)
Lemma readyz_is_health c p server :
  process_ok (None, p) → p_opsServer p = true → p_server p = Some server →
  (ops_answer c p "GET" "/readyz" = Some (writeStatus 200 "ready") ↔ sv_serving server = true) ∧
  ops_answer c p "GET" "/healthz" = Some (writeStatus 200 "ok").
Proof.
  intros [Hh _ _] Hops Hserver. unfold ops_answer. rewrite Hops.
  destruct (readyz_answers (startOps c p)) as [-> Hr]. split; [|done].
  rewrite (Hh ltac:(done) server Hserver), (inj_iff Some), Hr. simpl. by rewrite (inj_iff Some).
Qed.

(** Once its configuration has loaded, its sockets are open and its metrics set
    up, a process exits with 0 after a clean shutdown, 3 when its source
    failed, and 1 when its server did; never with 2, unless a projection has
    no name. *)
Lemma loaded_exit_code `{ConfigFormats} path open url c e :
  LoadConfig path open url = Ok c → dc_projections c !! "" = None →
  (∀ ops, ∃ t, Setup ops (se_telemetry e) = Ok t) → se_readerInstruments e = Ok tt → se_hubInstruments e = true →
  se_serverInstruments e = true → se_gauge e = true →
  main_run (LoadConfig path open url) true true e =
  match se_slot e, se_ending e with
  | Err _, _ | Ok _, EndSource _ => exitSource
  | Ok _, EndContext => exitOK
  | Ok _, EndServer => exitInternal
  end.
Proof.
  intros Hload Hname Ht Hr Hh Hs Hg. rewrite Hload. apply loaded_valid in Hload as (Hv & _ & _).
  apply validate_ok in Hv as (_ & Hsize & [reader Hreader] & [server Hserver] & _).
  assert (∃ hub, New (hubConfig c) true = Ok hub) as [hub Hhub].
  { apply (hub_accepts (hubConfig c)).
    - by apply NewServer_source in Hserver.
    - unfold hubConfig, projectionSpecs. simpl. by rewrite map_size_fmap.
    - done.
    - done.
    - by intros name spec [p [<- _]]%lookup_fmap_Some.
    - unfold hubConfig, projectionSpecs. simpl. by rewrite lookup_fmap, Hname. }
  unfold main_run, RunDaemon. cbv zeta. rewrite andb_false_r. simpl.
  destruct (Ht (bool_decide (oc_listenAddress (dc_ops c) ≠ ""))) as [tel Htel].
  unfold Serve, serve_components, serve_source. rewrite Htel, Hr, Hreader, Hhub, Hh, Hserver, Hs, Hg. destruct (se_slot e); simpl; [|done].
  by destruct (se_ending e).
Qed.

(** ** The RPCs that are recorded *)

(** [newGRPCServer]: the full names of the methods of the registered services,
    filled in before the server serves; its filter records an RPC to one of
    them. *)
Definition newGRPCServer (services : list (string * list string)) : gset string :=
  foldl (λ known service, foldl (λ known method, {["/" +:+ fst service +:+ "/" +:+ method]} ∪ known) known (snd service))
    ∅ services.

Definition records (known : gset string) (fullMethod : string) : bool := bool_decide (fullMethod ∈ known).

(** No client can add a series: only a registered method's name is recorded. *)
Lemma records_registered services fullMethod :
  records (newGRPCServer services) fullMethod = true ↔
  ∃ service methods method, (service, methods) ∈ services ∧ method ∈ methods ∧
    fullMethod = "/" +:+ service +:+ "/" +:+ method.
Proof.
  unfold records, newGRPCServer. rewrite bool_decide_eq_true.
  assert (∀ (service : string) methods (known : gset string),
    fullMethod ∈ foldl (λ known method, {["/" +:+ service +:+ "/" +:+ method]} ∪ known) known methods ↔
    fullMethod ∈ known ∨ ∃ method, method ∈ methods ∧ fullMethod = "/" +:+ service +:+ "/" +:+ method) as Hmethods.
  { intros service methods. induction methods as [|m methods IH]; intros known; cbn [foldl]; [set_solver|].
    rewrite IH. set_solver. }
  assert (∀ known : gset string,
    fullMethod ∈ foldl (λ known service, foldl (λ known method, {["/" +:+ fst service +:+ "/" +:+ method]} ∪ known)
      known (snd service)) known services ↔
    fullMethod ∈ known ∨ ∃ service methods method, (service, methods) ∈ services ∧ method ∈ methods ∧
      fullMethod = "/" +:+ service +:+ "/" +:+ method) as Hall.
  { induction services as [|[service methods] services IH]; intros known; cbn [foldl fst snd]; [set_solver|].
    rewrite IH, Hmethods. split.
    - intros [[?|(m & ? & ?)]|(s & ms & m & ? & ? & ?)]; [by left|right; exists service, methods, m; set_solver|].
      right. exists s, ms, m. set_solver.
    - intros [?|(s & ms & m & [[= -> ->]|Hs]%elem_of_cons & ? & ?)]; [by left; left|left; right; by exists m|].
      right. by exists s, ms, m. }
  rewrite Hall. set_solver.
Qed.

(** ** A concrete process *)

Definition demo_daemon (name : string) : DaemonConfig :=
  mkDaemonConfig "db" "watchd_slot" "watchd_pub" "127.0.0.1:7070"
    {[name := mkProjectionConfig "public" "orders" "shop" ["shop"; "id"]]} 0
    (mkOpsConfig "" false 0 0) (mkRetentionConfig 0 f64_zero f64_zero 0) "".

(** A decoder for one document. *)
Definition demo_formats (c : DaemonConfig) : ConfigFormats :=
  {| YAMLToJSONStrict text := Some text; json_decode _ := Some (c, false) |}.

Definition demo_load (name : string) : result daemonError DaemonConfig :=
  @LoadConfig (demo_formats (demo_daemon name)) "/etc/watchd.YAML" (Some (Some "{}")) "postgres://".

Definition demo_env : serve_env := mkServeEnv (mkSetupEnv "" "" "" true true true true) (Ok tt) true true true (Ok true) EndContext true (Some None).

Lemma LoadConfig_builds_witness :
  match demo_load "orders" with
  | Ok c => dc_databaseURL c = "postgres://" ∧ dc_shutdownTimeout c = 10000000000 ∧ ∃ hub, New (hubConfig c) true = Ok hub
  | Err _ => False
  end.
Proof.
  destruct (demo_load "orders") as [c|] eqn:Hload; [|vm_compute in Hload; discriminate Hload].
  pose proof (@LoadConfig_builds (demo_formats (demo_daemon "orders")) _ _ _ _ Hload) as (Hurl & _ & _ & _ & Hhub).
  split; [exact Hurl|]. vm_compute in Hload. injection Hload as <-. split; [reflexivity|].
  apply Hhub. vm_compute. reflexivity.
Defined.

(** A projection without a name loads, and then ends the process with the code
    of an invalid configuration after it has opened its sockets. *)
Lemma nameless_projection_loads :
  (∃ c, demo_load "" = Ok c) ∧ main_run (demo_load "") true true demo_env = exitConfig ∧
  main_run (demo_load "orders") true true demo_env = exitOK.
Proof. vm_compute. eauto. Qed.
