(* ===== verification/Metrics.v ===== *)
(** * Metrics: internal/cdc/metrics.go, internal/watch/metrics.go, sdk/go/watchd/metrics.go

    What the instruments are given: the reader's gauges, the counts of a
    snapshot read, the events a watch counts, and what the client counts. The
    instruments, their descriptions and the recorded durations are
    OpenTelemetry's and are not modelled. *)

From S2P Require Import Prelude Float64 Errors CdcTypes Visibility Events Config Relation Decoder Retention Hub Wire Reader Server Store Client Monitor Telemetry.
Local Open Scope string_scope.
Local Open Scope list_scope.
Local Open Scope Z_scope.

(** ** Measurements *)

Record measurement : Type := mkMeasurement {
  me_name : string;
  me_value : Z;
  me_attrs : gmap string string
}.

#[export] Instance measurement_eq_dec : EqDecision measurement.
Proof. solve_decision. Defined.

(** The measurements of one instrument. *)
Definition named (name : string) (l : list measurement) : list measurement :=
  base.filter (λ m, me_name m = name) l.

(** The attribute sets built at construction, where a key outside the allowlist
    panics. *)
Definition attrs (kvs : list (string * string)) : gmap string string := default ∅ (Attributes kvs).

Lemma attrs_allowed key value : Allowed key = true → Attributes [(key, value)] = Some (attrs [(key, value)]).
Proof. unfold attrs, Attributes. simpl. by intros ->. Qed.

Definition boolValue (b : bool) : Z := if b then 1 else 0.

(** [lsnDistance]: a - b in bytes, or 0 when b is not behind a. *)
Definition lsnDistance (a b : Z) : Z := if decide (a ≤ b) then 0 else wrap_i64 (a - b).

(** [powersOf4]: its loop, from [bound]. *)
Fixpoint powers_loop (fuel : nat) (bound limit : float64) : option (list float64) :=
  match fuel with
  | O => None
  | S fuel =>
      if f64_lt bound limit then
        match powers_loop fuel (f64_mul bound (f64_of_int 4)) limit with
        | Some bounds => Some (bound :: bounds)
        | None => None
        end
      else Some [limit]
  end.

(** A bound past the largest double is infinite, so 513 turns from 1 are
    enough for any limit. *)
Definition powersOf4 (base limit : float64) : option (list float64) := powers_loop 514 base limit.

(** ** The reader's gauges *)

Definition connectionStates : list string :=
  ["idle"; "connecting"; "streaming"; "backing_off"; "stopped"; "failed"].

(** [setState]: the index of a known state. *)
Definition setState (current : Z) (state : string) : Z :=
  match list_find (λ s, s = state) connectionStates with
  | Some (i, _) => Z.of_nat i
  | None => current
  end.

(** [setConnectionState]: what [Stats] shows and what the gauge does. *)
Definition setConnectionState (shown : connState * Z) (state : connState) : connState * Z :=
  (state, setState (snd shown) (connState_String state)).

Definition retentionStateNames : list string := ["ok"; "warn"; "degrade"; "terminal"].

(** One gauge per name, 1 for the current one. *)
Definition one_of (gauge : string) (names : list string) (current : Z) : list measurement :=
  imap (λ i s, mkMeasurement gauge (boolValue (bool_decide (Z.of_nat i = current))) (attrs [("state", s)])) names.

(** The callback of [registerGauges]. Its LSNs are 0 until they are set. They
    are stored next to those [Stats] formats, in the same calls
    ([setLastReceivedLSN] and the like), and only there: between the two stores
    of a call a gauge shows the value before. *)
Definition registerGauges {S} (state : Z) (s : rstate S) (m : monitor) : list measurement :=
  let receivedLSN := default 0 (rs_lastReceived s) in
  let ackedLSN := default 0 (rs_lastAcknowledged s) in
  let serverEndLSN := rs_serverWALEnd s in
  one_of "watchd.cdc.stream.state" connectionStates state ++
  (if decide (receivedLSN > 0) then
     [mkMeasurement "watchd.cdc.lsn.received" (wrap_i64 receivedLSN) ∅;
      mkMeasurement "watchd.cdc.ack_lag" (lsnDistance receivedLSN ackedLSN) ∅]
   else []) ++
  (if decide (ackedLSN > 0) then [mkMeasurement "watchd.cdc.lsn.acknowledged" (wrap_i64 ackedLSN) ∅] else []) ++
  (if decide (serverEndLSN > 0) then
     [mkMeasurement "watchd.cdc.lsn.server_wal_end" (wrap_i64 serverEndLSN) ∅;
      mkMeasurement "watchd.cdc.wal_lag" (lsnDistance serverEndLSN receivedLSN) ∅]
   else []) ++
  (if mo_retentionKnown m then
     (if decide (0 ≤ mo_retainedWAL m)
      then [mkMeasurement "watchd.cdc.slot.retained_wal" (mo_retainedWAL m) ∅] else []) ++
     (if decide (0 ≤ mo_safeWALSize m)
      then [mkMeasurement "watchd.cdc.slot.safe_wal_size" (mo_safeWALSize m) ∅] else []) ++
     [mkMeasurement "watchd.cdc.retention.budget" (mo_effectiveBudget m) ∅] ++
     one_of "watchd.cdc.slot.wal_status" walStatuses (mo_walStatus m) ++
     one_of "watchd.cdc.retention.state" retentionStateNames (Z.of_nat (rank (mo_state m)))
   else []).

(** ** Snapshot reads *)

(** The text bytes of a row: its columns' names, and its values that are
    text. *)
Definition row_bytes (row : anyRow) : Z :=
  map_fold (λ column value bytes, bytes + slen column + match value with AnyString text => slen text | _ => 0 end)
    0 row.

(** [snapshotObserver.sink], before it calls the next sink. *)
Definition observe_rows (mode : string) (rows : list anyRow) : list measurement :=
  [mkMeasurement "watchd.cdc.snapshot.rows" (zlen rows) (attrs [("mode", mode)]);
   mkMeasurement "watchd.cdc.snapshot.bytes" (foldl (λ bytes row, bytes + row_bytes row) 0 rows)
     (attrs [("mode", mode)])].

Definition startSnapshot (mode : string) : list measurement :=
  [mkMeasurement "watchd.cdc.snapshot.active" 1 (attrs [("mode", mode)])].

(** [snapshotObserver.finish]. *)
Definition finish (mode : string) (err : option error) : list measurement :=
  mkMeasurement "watchd.cdc.snapshot.active" (-1) (attrs [("mode", mode)]) ::
  match err with
  | Some e => [mkMeasurement "watchd.cdc.snapshot.errors" 1 (attrs [("mode", mode); ("error_class", errorClass e)])]
  | None => []
  end.

(** ** The hub *)

Definition hub_resyncReasonNames (r : ResyncReason) : option string :=
  match r with
  | ResyncCursorUnavailable => Some "cursor_unavailable"
  | ResyncSlowWatcher => Some "slow_watcher"
  | ResyncSnapshotWindowClosed => Some "snapshot_window_closed"
  | ResyncSourceStopped => Some "source_stopped"
  | ResyncSchemaChanged => Some "schema_changed"
  | ResyncReasonOther _ => None
  end.

(** [countingSend], before it sends the event. *)
Definition countingSend (event : Event) : list measurement :=
  match event with
  | Progress _ => [mkMeasurement "watchd.hub.progress" 1 ∅]
  | Resync reason =>
      match hub_resyncReasonNames reason with
      | Some name => [mkMeasurement "watchd.hub.resyncs" 1 (attrs [("reason", name)])]
      | None => []
      end
  | _ => []
  end.

(** The gauges of [newHubMetrics], and the commit time behind the oldest
    transaction's age, when it has one. *)
Definition hub_gauges (h : Hub) : list measurement * option Z :=
  ([mkMeasurement "watchd.hub.replay.occupancy" (zlen (h_ring h)) ∅;
    mkMeasurement "watchd.hub.replay.capacity" (h_maxReplay h) ∅;
    mkMeasurement "watchd.hub.watchers" (Z.of_nat (size (h_watchers h))) ∅],
   match h_ring h with
   | t :: _ => if decide (tx_commitTime t = 0) then None else Some (tx_commitTime t)
   | [] => None
   end).

(** ** The client *)

Definition sdk_resyncReasonNames (r : wireReason) : string :=
  match r with
  | RESYNC_REASON_CURSOR_UNAVAILABLE => "cursor_unavailable"
  | RESYNC_REASON_SLOW_WATCHER => "slow_watcher"
  | RESYNC_REASON_SNAPSHOT_WINDOW_CLOSED => "snapshot_window_closed"
  | RESYNC_REASON_SOURCE_STOPPED => "source_stopped"
  | RESYNC_REASON_SCHEMA_CHANGED => "schema_changed"
  | RESYNC_REASON_UNSPECIFIED => "unspecified"
  end.

(** [syncMetrics.resync]; the client's keys are its own. *)
Definition sync_resync (projection : string) (reason : wireReason) : measurement :=
  mkMeasurement "watchd.sdk.resyncs" 1 {["projection" := projection; "reason" := sdk_resyncReasonNames reason]}.

(** The fresh counter's part of [setState]. *)
Definition fresh_delta {S} (sy : syncer S) (fresh : bool) (cursor : string) : Z :=
  if sy_reported sy && bool_decide (mkState fresh cursor = sy_state sy) then 0
  else if Bool.eqb (sy_reported sy && st_fresh (sy_state sy)) fresh then 0
  else if fresh then 1 else -1.

(** ** The reader's gauges: properties *)

Lemma setConnectionState_all states :
  (foldl setConnectionState (StateIdle, 0) states) =
  (default StateIdle (last states), setState 0 (connState_String (default StateIdle (last states)))).
Proof.
  induction states as [|state states IH] using rev_ind; [done|].
  rewrite foldl_app, last_snoc. simpl. rewrite IH. unfold setConnectionState. simpl. f_equal.
  by destruct state.
Qed.

Lemma one_of_names gauge names current name :
  named name (one_of gauge names current) = if decide (gauge = name) then one_of gauge names current else [].
Proof.
  unfold named, one_of. destruct (decide _) as [->|Hn].
  - apply list_filter_all. apply Forall_lookup_2. intros i m. rewrite list_lookup_imap.
    destruct (names !! i); simpl; [|done]. by intros [= <-].
  - apply list_filter_none. apply Forall_lookup_2. intros i m. rewrite list_lookup_imap.
    destruct (names !! i); simpl; [|done]. by intros [= <-].
Qed.

Lemma named_app name l1 l2 : named name (l1 ++ l2) = named name l1 ++ named name l2.
Proof. apply filter_app. Qed.

Lemma named_cons name m l : named name (m :: l) = (if decide (me_name m = name) then [m] else []) ++ named name l.
Proof. unfold named. rewrite filter_cons. by destruct (decide _). Qed.

Lemma named_if (b : bool) name l1 l2 : named name (if b then l1 else l2) = if b then named name l1 else named name l2.
Proof. by destruct b. Qed.

Lemma named_decide P `{Decision P} name l1 l2 :
  named name (if decide P then l1 else l2) = if decide P then named name l1 else named name l2.
Proof. by destruct (decide P). Qed.

Lemma decide_same {A} P `{Decision P} (x : A) : (if decide P then x else x) = x.
Proof. by destruct (decide P). Qed.

Lemma if_same {A} (b : bool) (x : A) : (if b then x else x) = x.
Proof. by destruct b. Qed.

(** Picks one instrument's measurements out of the callback's, by the literal
    names. *)
Ltac pick_named :=
  repeat first
    [ rewrite named_app | rewrite one_of_names | rewrite named_cons | rewrite named_if | rewrite named_decide
 ];
  cbn [me_name];
  repeat match goal with
    | |- context [decide (?a = ?b :> string)] =>
        first [rewrite (decide_True (P := a = b)) by reflexivity | rewrite (decide_False (P := a = b)) by discriminate]
    end;
  repeat match goal with |- context [named ?n []] => change (named n []) with (@nil measurement) end;
  rewrite ?app_nil_l, ?app_nil_r, ?decide_same; cbn [app]; rewrite ?decide_same, ?if_same, ?app_nil_r.

(** Exactly one name of a closed set is current. *)
Definition current_only (gauge : string) (names : list string) (current : string) : list measurement :=
  (λ s, mkMeasurement gauge (if decide (s = current) then 1 else 0) {["state" := s]}) <$> names.

(** A distance in bytes, never negative, once [known] is. *)
Definition distance (gauge : string) (known ahead behind : Z) : list measurement :=
  if decide (0 < known) then [mkMeasurement gauge (Z.max 0 (ahead - behind)) ∅] else [].

Lemma lsnDistance_exact a b : 0 ≤ b → a < 2 ^ 63 → lsnDistance a b = Z.max 0 (a - b).
Proof. intros. unfold lsnDistance. destruct (decide _); [lia|]. rewrite wrap_i64_id; [lia|]. unfold is_i64. lia. Qed.

(** C35 (equivalence): what the gauges show is what [Stats] shows. After any connection
    states, any messages and any turns of the retention monitor, the state
    gauge is 1 for exactly the state [Stats] reports and 0 for every other; the
    policy gauge likewise, from the first sample on; and the lags are the
    distances, in bytes and never negative, between the positions. *)
Theorem gauges_agree_with_Stats `{LsnText} {S} states cfg turns reconnects (s : rstate S)
    (Hreceived : 0 ≤ default 0 (rs_lastReceived s) < 2 ^ 63)
    (Hacked : 0 ≤ default 0 (rs_lastAcknowledged s))
    (Hend : rs_serverWALEnd s < 2 ^ 63) :
  let '(state, index) := foldl setConnectionState (StateIdle, 0) states in
  let m := fst (monitorRetentionBudget cfg new_monitor turns) in
  let stats := Stats state (mo_shown m) reconnects s in
  let gauges := registerGauges index s m in
  named "watchd.cdc.stream.state" gauges =
    current_only "watchd.cdc.stream.state" connectionStates (ConnectionState stats) ∧
  named "watchd.cdc.retention.state" gauges =
    (if mo_retentionKnown m
     then current_only "watchd.cdc.retention.state" retentionStateNames (RetentionState stats) else []) ∧
  named "watchd.cdc.wal_lag" gauges =
    distance "watchd.cdc.wal_lag" (rs_serverWALEnd s) (rs_serverWALEnd s) (default 0 (rs_lastReceived s)) ∧
  named "watchd.cdc.ack_lag" gauges =
    distance "watchd.cdc.ack_lag" (default 0 (rs_lastReceived s)) (default 0 (rs_lastReceived s))
      (default 0 (rs_lastAcknowledged s)).
Proof.
  rewrite setConnectionState_all. cbv zeta.
  pose proof (monitor_shows cfg turns) as Hshown.
  destruct (monitorRetentionBudget cfg new_monitor turns) as [m go]. cbn [fst] in *.
  unfold registerGauges. cbv zeta.
  set (received := default 0 (rs_lastReceived s)) in *. set (acked := default 0 (rs_lastAcknowledged s)) in *.
  set (serverEnd := rs_serverWALEnd s) in *.
  split_and!; pick_named.
  - simpl ConnectionState. destruct (default StateIdle (last states)); vm_compute; reflexivity.
  - destruct (mo_retentionKnown m); [|reflexivity]. simpl RetentionState. rewrite Hshown.
    destruct (mo_state m); vm_compute; reflexivity.
  - unfold distance. rewrite <-lsnDistance_exact by lia. repeat case_decide; (lia || reflexivity).
  - unfold distance. rewrite <-lsnDistance_exact by lia. repeat case_decide; (lia || reflexivity).
Qed.

(** A reader that lags, beside a monitor that warned. *)
Definition demo_gauged : rstate unit :=
  mkRstate (newDecoder demo_monitored) 40 tt [40] [] (Some 100) (Some 40) 1 1 0 (0, 0) 120.

Lemma gauges_agree_with_Stats_witness :
  let gauges := registerGauges (foldl setConnectionState (StateIdle, 0) [StateConnecting; StateStreaming]).2 demo_gauged
    (fst (monitorRetentionBudget demo_monitored new_monitor [demo_turn 600])) in
  named "watchd.cdc.wal_lag" gauges = [mkMeasurement "watchd.cdc.wal_lag" 20 ∅] ∧
  named "watchd.cdc.ack_lag" gauges = [mkMeasurement "watchd.cdc.ack_lag" 60 ∅] ∧
  mkMeasurement "watchd.cdc.stream.state" 1 {["state" := "streaming"]} ∈ gauges ∧
  mkMeasurement "watchd.cdc.retention.state" 1 {["state" := "warn"]} ∈ gauges.
Proof.
  cbv zeta.
  pose proof (@gauges_agree_with_Stats hex_lsn_text unit [StateConnecting; StateStreaming] demo_monitored
    [demo_turn 600] 0 demo_gauged) as Hg.
  destruct Hg as (_ & _ & Hlag & Hack); [vm_compute; split; [discriminate|reflexivity]|vm_compute; discriminate|
    vm_compute; reflexivity|].
  split; [exact Hlag|]. split; [exact Hack|].
  split; apply (bool_decide_unpack _); vm_compute; exact I.
Defined.

(** ** Other properties *)

(** Every attribute key in use is in the allowlist, so no construction panics. *)
Lemma attribute_keys_allowed : Forall (λ key, Allowed key = true) ["state"; "mode"; "error_class"; "reason"].
Proof. by repeat constructor. Qed.

(** The hub and its clients name a reason alike. *)
Lemma resync_names_agree r name :
  hub_resyncReasonNames r = Some name → sdk_resyncReasonNames (resyncReasons r) = name.
Proof. destruct r; simpl; by intros [= <-]. Qed.

(** The fresh counter counts the syncs whose last report is fresh. *)
Definition counted_fresh {S} (sy : syncer S) : Z := boolValue (sy_reported sy && st_fresh (sy_state sy)).

Lemma fresh_counter {S} (sy : syncer S) fresh cursor :
  counted_fresh (Client.setState sy fresh cursor) = counted_fresh sy + fresh_delta sy fresh cursor.
Proof.
  unfold counted_fresh, Client.setState, fresh_delta. destruct (sy_reported sy && bool_decide _) eqn:E; [lia|].
  simpl. destruct (sy_reported sy), (st_fresh (sy_state sy)), fresh; reflexivity.
Qed.

(** From [bound], multiplying by 4 ascends until it is infinite. *)
Fixpoint climbs (fuel : nat) (bound : float64) : bool :=
  match fuel with
  | O => false
  | S fuel =>
      match bound with
      | S754_infinity false => true
      | _ => f64_lt bound (f64_mul bound (f64_of_int 4)) && climbs fuel (f64_mul bound (f64_of_int 4))
      end
  end.

Lemma powers_loop_ascends fuel bound limit :
  climbs fuel bound = true →
  ∃ bounds, powers_loop fuel bound limit = Some (bounds ++ [limit]) ∧
    Sorted (λ a b, f64_lt a b = true) (bounds ++ [limit]) ∧
    (head (bounds ++ [limit]) = Some limit ∨ head (bounds ++ [limit]) = Some bound).
Proof.
  revert bound. induction fuel as [|fuel IH]; intros bound; [done|]. cbn [climbs powers_loop].
  destruct (f64_lt bound limit) eqn:Hlt; [|intros _; exists []; split; [done|]; split; [by repeat constructor|by left]].
  intros Hc. assert (f64_lt bound (f64_mul bound (f64_of_int 4)) = true ∧
    climbs fuel (f64_mul bound (f64_of_int 4)) = true) as [Hup Hcl].
  { destruct bound as [|[]| |]; try (by apply andb_prop in Hc). by destruct limit as [|[]| |[]]. }
  destruct (IH _ Hcl) as (bounds & Hb & Hs & Hh). exists (bound :: bounds). rewrite Hb. split; [done|].
  split; [|by right]. simpl. constructor; [done|].
  destruct (bounds ++ [limit]) as [|b rest] eqn:E; [constructor|]. constructor.
  simpl in Hh. destruct Hh as [[= ->]|[= ->]]; done.
Qed.

(** A size histogram's boundaries end at its limit and ascend, whatever the
    configured limit. *)
Lemma powersOf4_ascends base limit :
  base ∈ [1; 256] →
  ∃ bounds, powersOf4 (f64_of_int base) limit = Some (bounds ++ [limit]) ∧
    Sorted (λ a b, f64_lt a b = true) (bounds ++ [limit]).
Proof.
  intros Hbase. destruct (powers_loop_ascends 514 (f64_of_int base) limit) as (bounds & ? & ? & _); [|by exists bounds].
  apply elem_of_cons in Hbase as [->|Hbase%list_elem_of_singleton]; [vm_compute; reflexivity|].
  subst base. vm_compute. reflexivity.
Qed.
