(* ===== verification/Instruments.v ===== *)
(** * Instruments: what the metrics.go files and the daemon create

    Every component creates its OpenTelemetry instruments once, with the
    attribute sets it will record them with. The meter is the SDK's: a parameter
    that answers each creation, and the registration of a callback, with an
    error or none. Each instrument is asked for once, so one answer per
    instrument is all it has to say. Descriptions are left out.

    Creation itself never panics and joins every error the meter gives, in
    order; what it returns has an attribute set for everything that is
    recorded with one, so that recording never meets a missing option. *)

From S2P Require Import Prelude Float64 Errors CdcTypes Visibility Config Events Retention Relation Decoder Hub Reader Wire Monitor Telemetry Daemon Metrics.
Local Open Scope string_scope.
Local Open Scope list_scope.
Local Open Scope Z_scope.

(** ** Instruments *)

Inductive instrument_kind : Type :=
| Int64Counter | Int64UpDownCounter | Int64Histogram | Float64Histogram
| Int64ObservableGauge | Float64ObservableGauge.

#[export] Instance instrument_kind_eq_dec : EqDecision instrument_kind.
Proof. solve_decision. Defined.

(** Its name, its unit ("" for none), and a histogram's explicit boundaries. *)
Record instrument : Type := mkInstrument {
  in_kind : instrument_kind;
  in_name : string;
  in_unit : string;
  in_bounds : option (list float64)
}.

Abbreviation counter name unit := (mkInstrument Int64Counter name unit None).
Abbreviation up_down name unit := (mkInstrument Int64UpDownCounter name unit None).
Abbreviation int_histogram name unit bounds := (mkInstrument Int64Histogram name unit (Some bounds)).
Abbreviation histogram name bounds := (mkInstrument Float64Histogram name "s" (Some bounds)).
Abbreviation gauge name unit := (mkInstrument Int64ObservableGauge name unit None).

(** The attribute sets recorded with an instrument. *)
Abbreviation attribute_set := (gmap string string).

(** ** The meter *)

(** An error of the meter, and what [errors.Join] makes of several. *)
Inductive joined (E : Type) : Type :=
| One (e : E)
| Join (errs : list (joined E)).
Arguments One {E}.
Arguments Join {E}.

Record meter (E : Type) : Type := mkMeter {
  create : instrument → option E;
  RegisterCallback : list instrument → option E
}.
Arguments mkMeter {E}.
Arguments create {E}.
Arguments RegisterCallback {E}.

Definition noop_meter {E} : meter E := mkMeter (λ _, None) (λ _, None).

Definition MeterOrNoop {E} (m : option (meter E)) : meter E := default noop_meter m.

(** [errors.Join]: nil when every error is. *)
Definition errors_Join {E} (errs : list (option (joined E))) : option (joined E) :=
  match omap id errs with
  | [] => None
  | errs => Some (Join errs)
  end.

(** Creating instruments one after the other, with what each answers. *)
Definition creations {E} (m : meter E) (l : list instrument) : list (option (joined E)) :=
  (λ i, One <$> create m i) <$> l.

(** The errors collected by the [check] closures. *)
Definition checked {E} (m : meter E) (l : list instrument) : list (joined E) := omap id (creations m l).

(** The meter's own errors in a joined one, in order. *)
Fixpoint leaves {E} (e : joined E) : list E :=
  match e with
  | One e => [e]
  | Join errs => concat (leaves <$> errs)
  end.

(** ** Attribute sets built at construction *)

(** The loops that fill a map of options; None is the panic of [Attributes]. *)
Fixpoint set_options {K} `{Countable K} (m : gmap K attribute_set) (l : list (K * list (string * string)))
    : option (gmap K attribute_set) :=
  match l with
  | [] => Some m
  | (k, kvs) :: l => set ← Attributes kvs; set_options (<[k := set]> m) l
  end.

(** The loops that fill a slice of options. *)
Definition set_slice (key : string) (names : list string) : option (list attribute_set) :=
  mapM (λ name, Attributes [(key, name)]) names.

(** ** The reader's instruments: internal/cdc/metrics.go *)

Definition modeBootstrap : string := "bootstrap".
Definition modeSnapshot : string := "snapshot".
Definition snapshot_modes : list string := [modeBootstrap; modeSnapshot].

Definition roundTripBounds : list float64 :=
  [0.001; 0.0025; 0.005; 0.01; 0.025; 0.05; 0.1; 0.25; 0.5; 1; 2.5; 5; 10; 30]%f64.
Definition commitLatencyBounds : list float64 :=
  [0.001; 0.0025; 0.005; 0.01; 0.025; 0.05; 0.1; 0.25; 0.5; 1; 2.5; 5; 10; 30; 60; 300]%f64.
Definition inProcessBounds : list float64 :=
  [0.00005; 0.0001; 0.00025; 0.0005; 0.001; 0.0025; 0.005; 0.01; 0.025; 0.05; 0.1; 0.25; 0.5; 1; 2.5; 5]%f64.
Definition statusIntervalBounds : list float64 := [0.001; 0.01; 0.1; 0.5; 1; 2.5; 5; 10; 15; 30; 60]%f64.
Definition snapshotBounds : list float64 :=
  [0.01; 0.025; 0.05; 0.1; 0.25; 0.5; 1; 2.5; 5; 10; 30; 60; 120; 300; 600]%f64.

(** What [newReaderMetrics] creates, in its order; None is [powersOf4] not
    ending. *)
Definition reader_instruments (cfg : ReaderConfig) : option (list instrument) :=
  changes ← powersOf4 (f64_of_int 1) (f64_of_int (rd_maxTransactionChanges cfg));
  sizes ← powersOf4 (f64_of_int 256) (f64_of_int (rd_maxTransactionBytes cfg));
  Some
    [counter "watchd.cdc.reconnects" "{reconnect}";
     counter "watchd.cdc.stream.errors" "{error}";
     histogram "watchd.cdc.standby_status.duration" inProcessBounds;
     histogram "watchd.cdc.standby_status.interval" statusIntervalBounds;
     counter "watchd.cdc.messages" "{message}";
     counter "watchd.cdc.wal.bytes" "By";
     counter "watchd.cdc.transactions" "{transaction}";
     histogram "watchd.cdc.transaction.duration" inProcessBounds;
     int_histogram "watchd.cdc.transaction.changes" "{change}" changes;
     int_histogram "watchd.cdc.transaction.size" "By" sizes;
     counter "watchd.cdc.decode.errors" "{error}";
     counter "watchd.cdc.relation.incompatible" "{event}";
     histogram "watchd.cdc.sink.duration" inProcessBounds;
     histogram "watchd.cdc.commit_to_accept" commitLatencyBounds;
     counter "watchd.cdc.retention.transitions" "{transition}";
     histogram "watchd.cdc.snapshot.duration" snapshotBounds;
     histogram "watchd.cdc.snapshot.page.duration" roundTripBounds;
     counter "watchd.cdc.snapshot.rows" "{row}";
     counter "watchd.cdc.snapshot.bytes" "By";
     up_down "watchd.cdc.snapshot.active" "{snapshot}";
     counter "watchd.cdc.snapshot.errors" "{error}"].

Definition reader_gauges : list instrument :=
  [gauge "watchd.cdc.stream.state" "";
   gauge "watchd.cdc.lsn.received" "By";
   gauge "watchd.cdc.lsn.acknowledged" "By";
   gauge "watchd.cdc.lsn.server_wal_end" "By";
   gauge "watchd.cdc.wal_lag" "By";
   gauge "watchd.cdc.ack_lag" "By";
   gauge "watchd.cdc.slot.retained_wal" "By";
   gauge "watchd.cdc.slot.safe_wal_size" "By";
   gauge "watchd.cdc.slot.wal_status" "";
   gauge "watchd.cdc.retention.budget" "By";
   gauge "watchd.cdc.retention.state" ""].

(** [registerGauges] up to its callback, which is [Metrics.registerGauges]: the
    gauges, then the attribute sets of the three states, then registering.
    None is a panic. *)
Definition create_gauges {E} (m : meter E) : option (option (joined E)) :=
  match errors_Join (creations m reader_gauges) with
  | Some err => Some (Some err)
  | None =>
      _ ← set_slice "state" connectionStates;
      _ ← set_slice "state" walStatuses;
      _ ← set_slice "state" retentionStateNames;
      Some (One <$> RegisterCallback m reader_gauges)
  end.

(** [readerMetrics] as created; what its observed fields hold is the reader's
    and the monitor's state. *)
Record readerMetrics : Type := mkReaderMetrics {
  rm_errorClassOpts : gmap string attribute_set;
  rm_modeRecordOpts : gmap string attribute_set;
  rm_modeAddOpts : gmap string attribute_set;
  rm_snapshotErrOpts : gmap (string * string) attribute_set;
  rm_retentionStateOpts : list attribute_set
}.

Definition newReaderMetrics {E} (m : option (meter E)) (cfg : ReaderConfig)
    : option (result (joined E) readerMetrics) :=
  let meter := MeterOrNoop m in
  classes ← set_options ∅ ((λ class, (class, [("error_class", class)])) <$> errorClassNames);
  errs ← set_options ∅
    ((λ k : string * string, (k, [("mode", k.1); ("error_class", k.2)])) <$>
       (class ← errorClassNames; mode ← snapshot_modes; [(mode, class)]));
  modes ← set_options ∅ ((λ mode, (mode, [("mode", mode)])) <$> snapshot_modes);
  states ← set_slice "state" retentionStateNames;
  instruments ← reader_instruments cfg;
  gauges ← create_gauges meter;
  Some match checked meter instruments ++ option_list gauges with
       | [] => Ok (mkReaderMetrics classes modes modes errs states)
       | errs => Err (Join errs)
       end.

(** [streamError], [snapshotObserver.finish] and the monitor's transition: they
    look their attribute sets up; None is a nil option, which panics. *)
Definition reader_streamError (rm : readerMetrics) (err : error) : option measurement :=
  set ← rm_errorClassOpts rm !! errorClass err;
  Some (mkMeasurement "watchd.cdc.stream.errors" 1 set).

Definition snapshot_failed (rm : readerMetrics) (mode : string) (err : error) : option (list measurement) :=
  active ← rm_modeAddOpts rm !! mode;
  set ← rm_snapshotErrOpts rm !! (mode, errorClass err);
  Some [mkMeasurement "watchd.cdc.snapshot.active" (-1) active; mkMeasurement "watchd.cdc.snapshot.errors" 1 set].

Definition count_transition (rm : readerMetrics) (next : retentionState) : option measurement :=
  set ← rm_retentionStateOpts rm !! rank next;
  Some (mkMeasurement "watchd.cdc.retention.transitions" 1 set).

(** ** The hub's: internal/watch/metrics.go *)

Definition hub_resyncReasons : list ResyncReason :=
  [ResyncCursorUnavailable; ResyncSlowWatcher; ResyncSnapshotWindowClosed; ResyncSourceStopped; ResyncSchemaChanged].

(** Up to its gauges, and the gauges its callback observes. *)
Definition hub_instruments : list instrument :=
  [histogram "watchd.hub.accept.duration" inProcessBounds;
   histogram "watchd.hub.lock.wait" inProcessBounds;
   counter "watchd.hub.replay.evictions" "{transaction}";
   int_histogram "watchd.hub.watcher.queue_depth" "{transaction}"
     [0; 1; 2; 4; 8; 16; 32; 64; 128; 256; 512; 1024; 4096; 16384]%f64;
   int_histogram "watchd.hub.watcher.lag" "By"
     (f64_zero :: ((λ n, f64_of_int (Z.shiftl 1 n)) <$> [10; 14; 16; 18; 20; 22; 24; 26; 28; 30]));
   counter "watchd.hub.progress" "{event}";
   counter "watchd.hub.resyncs" "{event}"].

Definition hub_gauge_instruments : list instrument :=
  [gauge "watchd.hub.replay.occupancy" "{transaction}";
   gauge "watchd.hub.replay.capacity" "{transaction}";
   mkInstrument Float64ObservableGauge "watchd.hub.replay.oldest_age" "s" None;
   gauge "watchd.hub.watchers" "{watcher}"].

(** The options of [hubMetrics]; a reason without a name has none, and is not
    counted. *)
Record hubMetrics : Type := mkHubMetrics { hm_resyncOpts : list (ResyncReason * attribute_set) }.

Definition resyncOpts (m : hubMetrics) (r : ResyncReason) : option attribute_set :=
  snd <$> (snd <$> list_find (λ opt, opt.1 = r) (hm_resyncOpts m)).

Definition newHubMetrics {E} (m : option (meter E)) : option (result (joined E) hubMetrics) :=
  let meter := MeterOrNoop m in
  opts ← mapM (λ r, name ← hub_resyncReasonNames r; set ← Attributes [("reason", name)]; Some (r, set))
           hub_resyncReasons;
  Some match checked meter (hub_instruments ++ hub_gauge_instruments) with
       | [] =>
           match RegisterCallback meter hub_gauge_instruments with
           | Some e => Err (One e)
           | None => Ok (mkHubMetrics opts)
           end
       | errs => Err (Join errs)
       end.

(** ** The server's: internal/server/metrics.go *)

Definition server_instruments : list instrument :=
  [up_down "watchd.server.streams.active" "{stream}";
   histogram "watchd.server.send.duration"
     [0.00001; 0.00005; 0.0001; 0.00025; 0.0005; 0.001; 0.0025; 0.005; 0.01; 0.025; 0.05; 0.1; 0.25; 0.5; 1; 2.5; 5;
      10]%f64;
   counter "watchd.server.snapshot.bytes" "By";
   histogram "watchd.server.batch.commit_to_send"
     [0.001; 0.0025; 0.005; 0.01; 0.025; 0.05; 0.1; 0.25; 0.5; 1; 2.5; 5; 10; 30; 60; 300]%f64].

Definition newServerMetrics {E} (m : option (meter E)) : result (joined E) unit :=
  match errors_Join (creations (MeterOrNoop m) server_instruments) with
  | Some err => Err err
  | None => Ok tt
  end.

(** ** The client's: sdk/go/watchd/metrics.go *)

Definition latencyBounds : list float64 :=
  [0.0001; 0.00025; 0.0005; 0.001; 0.0025; 0.005; 0.01; 0.025; 0.05; 0.1; 0.25; 0.5; 1; 2.5; 5; 10; 30; 60; 300]%f64.

Definition sync_instruments : list instrument :=
  [histogram "watchd.sdk.apply.duration" latencyBounds;
   histogram "watchd.sdk.snapshot.install.duration" latencyBounds;
   histogram "watchd.sdk.commit_to_apply" latencyBounds;
   histogram "watchd.sdk.time_to_fresh" latencyBounds;
   up_down "watchd.sdk.syncs" "{sync}";
   up_down "watchd.sdk.fresh" "{sync}";
   counter "watchd.sdk.resyncs" "{event}";
   counter "watchd.sdk.stream.errors" "{error}"].

Definition sync_reasons : list wireReason :=
  [RESYNC_REASON_CURSOR_UNAVAILABLE; RESYNC_REASON_SLOW_WATCHER; RESYNC_REASON_SNAPSHOT_WINDOW_CLOSED;
   RESYNC_REASON_SOURCE_STOPPED; RESYNC_REASON_SCHEMA_CHANGED; RESYNC_REASON_UNSPECIFIED].

(** [syncMetrics]' attribute sets. The client's keys are its own: no allowlist,
    and no panic. *)
Record syncMetrics : Type := mkSyncMetrics {
  sm_projection : string;
  sm_set : attribute_set;
  sm_resyncOpts : list (wireReason * attribute_set)
}.

Definition newSyncMetrics {E} (m : option (meter E)) (projection : string) : result (joined E) syncMetrics :=
  let meter := default noop_meter m in
  let opts := (λ r, (r, {["projection" := projection; "reason" := sdk_resyncReasonNames r]})) <$> sync_reasons in
  match checked meter sync_instruments with
  | [] => Ok (mkSyncMetrics projection {["projection" := projection]} opts)
  | errs => Err (Join errs)
  end.

(** [resync]: a reason the client does not know counts as unspecified. *)
Definition sync_count_resync (m : syncMetrics) (reason : wireReason) : option measurement :=
  let find r := snd <$> (snd <$> list_find (λ opt, opt.1 = r) (sm_resyncOpts m)) in
  set ← match find reason with Some set => Some set | None => find RESYNC_REASON_UNSPECIFIED end;
  Some (mkMeasurement "watchd.sdk.resyncs" 1 set).

(** [streamError], with the text of the error's gRPC code. *)
Definition sync_streamError (m : syncMetrics) (code : string) : measurement :=
  mkMeasurement "watchd.sdk.stream.errors" 1 {["projection" := sm_projection m; "error_class" := to_lower code]}.

(** ** The daemon's serving gauge: internal/daemon/daemon.go *)

Definition serving_gauge : instrument := gauge "watchd.serving" "".

(** [registerServingGauge], and its callback. *)
Definition registerServingGauge {E} (m : meter E) : option E :=
  match create m serving_gauge with
  | Some e => Some e
  | None => RegisterCallback m [serving_gauge]
  end.

Definition observe_serving (serving : bool) : measurement :=
  mkMeasurement "watchd.serving" (if serving then 1 else 0) ∅.

(** ** Lemmas *)

Lemma set_options_keys {K} `{Countable K} (f : K → list (string * string)) ks m :
  Forall (λ k, Attributes (f k) = Some (attrs (f k))) ks →
  ∃ m', set_options m ((λ k, (k, f k)) <$> ks) = Some m' ∧
    ∀ k, m' !! k = if decide (k ∈ ks) then Some (attrs (f k)) else m !! k.
Proof.
  revert m. induction ks as [|k ks IH]; intros m Hall; [by exists m|].
  apply Forall_cons in Hall as [Hk Hall]. cbn [fmap list_fmap set_options]. rewrite Hk.
  destruct (IH (<[k := attrs (f k)]> m) Hall) as (m' & Hm' & Hget). exists m'. split; [exact Hm'|].
  intros k'. rewrite Hget. destruct (decide (k' = k)) as [->|Hne].
  - rewrite lookup_insert_eq. rewrite (decide_True (P := k ∈ k :: ks)) by left. by case_decide.
  - rewrite lookup_insert_ne by done. destruct (decide (k' ∈ ks)), (decide (k' ∈ k :: ks)); set_solver.
Qed.

Lemma set_slice_allowed key names :
  Allowed key = true → set_slice key names = Some ((λ name, attrs [(key, name)]) <$> names).
Proof.
  intros Hk. unfold set_slice. induction names as [|name names IH]; [done|].
  cbn [mapM fmap list_fmap]. rewrite attrs_allowed by done. simpl. by rewrite IH.
Qed.

Lemma checked_omap {E} (m : meter E) l : checked m l = One <$> omap (create m) l.
Proof.
  unfold checked, creations. induction l as [|i l IH]; [done|]. cbn. destruct (create m i); cbn; by rewrite IH.
Qed.

Lemma omap_nil_Forall {A B} (f : A → option B) l : omap f l = [] ↔ Forall (λ x, f x = None) l.
Proof.
  induction l as [|x l IH]; [done|]. cbn. rewrite Forall_cons, <-IH. destruct (f x); naive_solver.
Qed.

Lemma leaves_Join {E} (errs : list (joined E)) : leaves (Join errs) = concat (leaves <$> errs).
Proof. done. Qed.

Lemma concat_leaves {E} (l : list E) : concat (leaves <$> (One <$> l)) = l.
Proof. induction l as [|e l IH]; [done|]. cbn. by rewrite IH. Qed.

Lemma leaves_errors {E} (e : E) es : leaves (Join (One e :: (One <$> es))) = e :: es.
Proof. rewrite leaves_Join. exact (concat_leaves (e :: es)). Qed.

Lemma leaves_errors_app {E} (e : E) es more :
  leaves (Join (One e :: (One <$> es) ++ more)) = e :: es ++ concat (leaves <$> more).
Proof. rewrite leaves_Join. cbn. by rewrite fmap_app, concat_app, concat_leaves. Qed.

Lemma errors_Join_creations {E} (m : meter E) l :
  errors_Join (creations m l) = match omap (create m) l with
                                | [] => None
                                | errs => Some (Join (One <$> errs))
                                end.
Proof.
  unfold errors_Join. pose proof (checked_omap m l) as Hc. unfold checked in Hc. rewrite Hc.
  by destruct (omap (create m) l).
Qed.

(** An instrument is watchd's, and has boundaries, which ascend, exactly when it
    is a histogram. *)
Definition well_made (i : instrument) : Prop :=
  IsWatchdMetric (in_name i) = true ∧
  match in_kind i, in_bounds i with
  | (Int64Histogram | Float64Histogram), Some bounds => Sorted (λ a b, f64_lt a b = true) bounds
  | (Int64Histogram | Float64Histogram), None => False
  | _, None => True
  | _, Some _ => False
  end.

(** A test for ascending boundaries that evaluates. *)
Fixpoint ascends (bounds : list float64) : bool :=
  match bounds with
  | a :: ((b :: _) as rest) => f64_lt a b && ascends rest
  | _ => true
  end.

Lemma ascends_Sorted bounds : ascends bounds = true → Sorted (λ a b, f64_lt a b = true) bounds.
Proof.
  induction bounds as [|a [|b rest] IH]; [by constructor|by repeat constructor|].
  intros [Hab Hrest]%andb_prop. constructor; [by apply IH|by constructor].
Qed.

Definition well_made_test (i : instrument) : bool :=
  IsWatchdMetric (in_name i) &&
  match in_kind i, in_bounds i with
  | (Int64Histogram | Float64Histogram), Some bounds => ascends bounds
  | (Int64Histogram | Float64Histogram), None => false
  | _, None => true
  | _, Some _ => false
  end.

Lemma well_made_ok i : well_made_test i = true → well_made i.
Proof.
  intros [Hn Hk]%andb_prop. split; [done|].
  destruct (in_kind i), (in_bounds i); try done; by apply ascends_Sorted.
Qed.

Lemma well_made_all l : forallb well_made_test l = true → Forall well_made l.
Proof. induction l as [|i l IH]; [by constructor|]. intros [Hi Hl]%andb_prop. constructor; [by apply well_made_ok|auto]. Qed.

(** What the meter says of creating instruments, then gauges, and of registering
    the callback of the gauges, which is only tried when those exist. *)
Definition meter_errors {E} (m : meter E) (l gauges : list instrument) : list E :=
  omap (create m) (l ++ gauges) ++
  (if decide (Forall (λ i, create m i = None) gauges) then option_list (RegisterCallback m gauges) else []).

Lemma create_gauges_total {E} (m : meter E) :
  ∃ err, create_gauges m = Some err ∧
    match err with
    | None => meter_errors m [] reader_gauges = []
    | Some e => leaves e = meter_errors m [] reader_gauges ∧ leaves e ≠ []
    end.
Proof.
  unfold create_gauges, meter_errors. rewrite errors_Join_creations. cbn [app].
  pose proof (omap_nil_Forall (create m) reader_gauges) as Hnil.
  destruct (omap (create m) reader_gauges) as [|e errs] eqn:Hc.
  - rewrite !set_slice_allowed by done. cbn [mbind option_bind]. eexists. split; [reflexivity|].
    rewrite decide_True by tauto. by destruct (RegisterCallback m reader_gauges).
  - eexists. split; [reflexivity|]. rewrite decide_False by (intros HF; by apply Hnil in HF).
    rewrite app_nil_r. cbn [fmap list_fmap]. by rewrite leaves_errors.
Qed.

Lemma reader_instruments_total cfg :
  ∃ l, reader_instruments cfg = Some l ∧ Forall well_made (l ++ reader_gauges) ∧
    NoDup (in_name <$> l ++ reader_gauges).
Proof.
  destruct (powersOf4_ascends 1 (f64_of_int (rd_maxTransactionChanges cfg))) as (b1 & H1 & Hs1); [set_solver|].
  destruct (powersOf4_ascends 256 (f64_of_int (rd_maxTransactionBytes cfg))) as (b2 & H2 & Hs2); [set_solver|].
  unfold reader_instruments. rewrite H1, H2. cbn [mbind option_bind]. eexists. split; [reflexivity|]. split.
  - set (c1 := b1 ++ _) in *. set (c2 := b2 ++ _) in *. clearbody c1 c2. clear H1 H2.
    repeat apply Forall_app_2;
    repeat (apply Forall_cons; split; [first [by apply well_made_ok; vm_compute | by split; [vm_compute|]]|]);
    by apply well_made_all; vm_compute.
  - apply (bool_decide_unpack _). vm_compute. done.
Qed.

Lemma Attributes_keys kvs : Forall (λ kv, Allowed kv.1 = true) kvs → Attributes kvs = Some (attrs kvs).
Proof.
  intros Hk. unfold attrs. destruct (Attributes kvs) eqn:E; [done|]. unfold Attributes in E.
  destruct (forallb _ kvs) eqn:Hf; [done|]. exfalso. clear E. induction Hk as [|kv kvs Hkv Hk IH]; [done|].
  simpl in Hf. rewrite Hkv in Hf. by apply IH.
Qed.

(** Creation succeeds or returns what the meter said, and its options cover
    everything recorded with them. *)
Lemma newReaderMetrics_spec {E} (m : option (meter E)) cfg :
  ∃ l r, reader_instruments cfg = Some l ∧ newReaderMetrics m cfg = Some r ∧
    let errs := meter_errors (MeterOrNoop m) l reader_gauges in
    match r with
    | Err e => leaves e = errs ∧ errs ≠ []
    | Ok rm =>
        errs = [] ∧
        (∀ class, class ∈ errorClassNames → rm_errorClassOpts rm !! class = Some (attrs [("error_class", class)])) ∧
        (∀ mode, mode ∈ snapshot_modes → rm_modeAddOpts rm !! mode = Some (attrs [("mode", mode)]) ∧
           rm_modeRecordOpts rm !! mode = Some (attrs [("mode", mode)])) ∧
        (∀ mode class, mode ∈ snapshot_modes → class ∈ errorClassNames →
           rm_snapshotErrOpts rm !! (mode, class) = Some (attrs [("mode", mode); ("error_class", class)])) ∧
        rm_retentionStateOpts rm = (λ name, attrs [("state", name)]) <$> retentionStateNames
    end.
Proof.
  destruct (reader_instruments_total cfg) as (l & Hl & _). exists l.
  unfold newReaderMetrics. cbv zeta.
  destruct (set_options_keys (λ class, [("error_class", class)]) errorClassNames ∅) as (classes & -> & Hclasses).
  { apply Forall_forall. intros. apply Attributes_keys. by repeat constructor. }
  destruct (set_options_keys (λ k : string * string, [("mode", k.1); ("error_class", k.2)])
    (class ← errorClassNames; mode ← snapshot_modes; [(mode, class)]) ∅) as (errs & -> & Herrs).
  { apply Forall_forall. intros. apply Attributes_keys. by repeat constructor. }
  destruct (set_options_keys (λ mode, [("mode", mode)]) snapshot_modes ∅) as (modes & -> & Hmodes).
  { apply Forall_forall. intros. apply Attributes_keys. by repeat constructor. }
  rewrite set_slice_allowed by done. rewrite Hl.
  destruct (create_gauges_total (MeterOrNoop m)) as (gauges & -> & Hg).
  cbn [mbind option_bind]. rewrite checked_omap.
  assert (meter_errors (MeterOrNoop m) l reader_gauges =
    omap (create (MeterOrNoop m)) l ++ meter_errors (MeterOrNoop m) [] reader_gauges) as Happ.
  { unfold meter_errors. by rewrite omap_app, <-app_assoc. }
  rewrite Happ. eexists. split; [reflexivity|]. split; [reflexivity|].
  destruct (omap (create (MeterOrNoop m)) l) as [|e es]; destruct gauges as [g|]; cbn [fmap list_fmap app option_list].
  - destruct Hg as [Hg1 Hg2]. rewrite <-Hg1. cbn. by rewrite app_nil_r.
  - split; [done|]. cbn [rm_errorClassOpts rm_modeAddOpts rm_modeRecordOpts rm_snapshotErrOpts rm_retentionStateOpts].
    split_and!; [intros c Hc; by rewrite Hclasses, decide_True| |..|done].
    + intros mode Hm. by rewrite Hmodes, decide_True.
    + intros mode class Hm Hc. rewrite Herrs, decide_True; [done|].
      apply list_elem_of_bind. exists class. split; [|done]. apply list_elem_of_bind. exists mode. split; [|done].
      by apply list_elem_of_singleton.
  - split; [|done]. destruct Hg as [Hg1 _]. rewrite <-Hg1.
    rewrite leaves_errors_app. cbn. by rewrite app_nil_r.
  - split; [|done]. rewrite Hg.
    by rewrite leaves_errors_app.
Qed.

(** ** Properties *)

(** The reader's instruments are complete. Whatever meter it is
    given, creating them never panics: it fails with exactly the errors the
    meter gave, in order, or nothing failed; their names are watchd's and
    distinct, and every histogram's boundaries ascend, at every configured
    limit. Once created, whatever error a connection or a snapshot fails with
    and whatever state the retention policy enters, its attribute set is there,
    and it names the error's class, the mode or the state. *)
Theorem reader_metrics_complete {E} (m : option (meter E)) cfg :
  ∃ l r, reader_instruments cfg = Some l ∧ newReaderMetrics m cfg = Some r ∧
    NoDup (in_name <$> l ++ reader_gauges) ∧ Forall well_made (l ++ reader_gauges) ∧
    match r with
    | Err e => leaves e = meter_errors (MeterOrNoop m) l reader_gauges ∧ leaves e ≠ []
    | Ok rm =>
        meter_errors (MeterOrNoop m) l reader_gauges = [] ∧
        (∀ err, reader_streamError rm err =
           Some (mkMeasurement "watchd.cdc.stream.errors" 1 {["error_class" := errorClass err]})) ∧
        (∀ mode err, mode ∈ snapshot_modes → snapshot_failed rm mode err = Some (finish mode (Some err))) ∧
        (∀ state, count_transition rm state =
           Some (mkMeasurement "watchd.cdc.retention.transitions" 1 {["state" := retentionState_String state]}))
    end.
Proof.
  destruct (newReaderMetrics_spec m cfg) as (l & r & Hl & Hr & Hspec). exists l, r.
  destruct (reader_instruments_total cfg) as (l' & Hl' & Hwell & Hnames).
  rewrite Hl in Hl'. injection Hl' as <-. do 4 (split; [done|]). cbv zeta in Hspec.
  destruct r as [rm|e]; [|by destruct Hspec as [-> ?]].
  destruct Hspec as (Hnone & Hclass & Hmode & Hsnap & Hstates). split; [done|]. split_and!.
  - intros err. unfold reader_streamError. by rewrite Hclass by apply errorClass_closed.
  - intros mode err Hm. unfold snapshot_failed. destruct (Hmode mode Hm) as [-> _]. cbn [mbind option_bind].
    by rewrite Hsnap by (done || apply errorClass_closed).
  - intros state. unfold count_transition. rewrite Hstates. by destruct state.
Qed.

(** What creating instruments and, when they all exist, registering the callback
    of some, fails with. *)
Definition creation_errors {E} (m : meter E) (l : list instrument) (callback : option E) : list E :=
  match omap (create m) l with
  | [] => option_list callback
  | errs => errs
  end.

(** The hub's likewise, and it counts every reason that has a name. *)
Lemma hub_metrics_complete {E} (m : option (meter E)) :
  let l := hub_instruments ++ hub_gauge_instruments in
  let errs := creation_errors (MeterOrNoop m) l (RegisterCallback (MeterOrNoop m) hub_gauge_instruments) in
  NoDup (in_name <$> l) ∧ Forall well_made l ∧
  ∃ r, newHubMetrics m = Some r ∧
    match r with
    | Err e => leaves e = errs ∧ errs ≠ []
    | Ok hm => errs = [] ∧ ∀ reason, resyncOpts hm reason = (λ name, {["reason" := name]}) <$> hub_resyncReasonNames reason
    end.
Proof.
  cbv zeta. split; [by apply (bool_decide_unpack _); vm_compute|]. split; [by apply well_made_all; vm_compute|].
  unfold newHubMetrics, creation_errors. cbv zeta.
  match goal with |- context [mapM ?f hub_resyncReasons] => assert (mapM f hub_resyncReasons =
    Some ((λ r, (r, attrs [("reason", default "" (hub_resyncReasonNames r))])) <$> hub_resyncReasons)) as -> end.
  { unfold hub_resyncReasons. cbn [mapM hub_resyncReasonNames mbind option_bind].
    rewrite !attrs_allowed by done. reflexivity. }
  cbn [mbind option_bind]. eexists. split; [reflexivity|]. rewrite checked_omap.
  destruct (omap (create (MeterOrNoop m)) _) as [|e es]; cbn [fmap list_fmap].
  - destruct (RegisterCallback _ _) as [e|]; [done|]. split; [done|].
    intros reason. by destruct reason.
  - by rewrite leaves_errors.
Qed.

Lemma server_metrics_complete {E} (m : option (meter E)) :
  NoDup (in_name <$> server_instruments) ∧ Forall well_made server_instruments ∧
  match newServerMetrics m with
  | Err e => leaves e = omap (create (MeterOrNoop m)) server_instruments ∧ leaves e ≠ []
  | Ok _ => omap (create (MeterOrNoop m)) server_instruments = []
  end.
Proof.
  split; [by apply (bool_decide_unpack _); vm_compute|]. split; [by apply well_made_all; vm_compute|].
  unfold newServerMetrics. rewrite errors_Join_creations. destruct (omap _ _) as [|e es]; [done|].
  cbn [fmap list_fmap]. by rewrite leaves_errors.
Qed.

(** The client's: its measurements carry the projection, never the scope, and a
    reason it does not know is counted as unspecified. *)
Lemma sync_metrics_complete {E} (m : option (meter E)) projection :
  NoDup (in_name <$> sync_instruments) ∧ Forall well_made sync_instruments ∧
  match newSyncMetrics m projection with
  | Err e => leaves e = omap (create (default noop_meter m)) sync_instruments ∧ leaves e ≠ []
  | Ok sm =>
      omap (create (default noop_meter m)) sync_instruments = [] ∧
      ∀ reason, sync_count_resync sm reason = Some (sync_resync projection reason)
  end.
Proof.
  split; [by apply (bool_decide_unpack _); vm_compute|]. split; [by apply well_made_all; vm_compute|].
  unfold newSyncMetrics. cbv zeta. rewrite checked_omap. destruct (omap _ _) as [|e es]; cbn [fmap list_fmap].
  - split; [done|]. intros reason. by destruct reason.
  - change (leaves (Join (One e :: (One <$> es)))) with (e :: concat (leaves <$> (One <$> es))). by rewrite concat_leaves.
Qed.

(** No two components share an instrument. *)
Lemma instruments_disjoint cfg :
  ∃ l, reader_instruments cfg = Some l ∧
    NoDup (in_name <$> l ++ reader_gauges ++ hub_instruments ++ hub_gauge_instruments ++ server_instruments ++
             sync_instruments ++ [serving_gauge]).
Proof.
  destruct (powersOf4_ascends 1 (f64_of_int (rd_maxTransactionChanges cfg))) as (b1 & H1 & _); [set_solver|].
  destruct (powersOf4_ascends 256 (f64_of_int (rd_maxTransactionBytes cfg))) as (b2 & H2 & _); [set_solver|].
  unfold reader_instruments. rewrite H1, H2. cbn [mbind option_bind]. eexists. split; [reflexivity|].
  apply (bool_decide_unpack _). vm_compute. done.
Qed.

(** Without a meter nothing fails. *)
Lemma noop_creates {E} cfg projection :
  (∃ rm, @newReaderMetrics E None cfg = Some (Ok rm)) ∧ (∃ hm, @newHubMetrics E None = Some (Ok hm)) ∧
  @newServerMetrics E None = Ok tt ∧ (∃ sm, @newSyncMetrics E None projection = Ok sm).
Proof.
  split_and!.
  - destruct (newReaderMetrics_spec (@None (meter E)) cfg) as (l & r & _ & Hr & Hspec). cbv zeta in Hspec.
    destruct r as [rm|e]; [by exists rm|]. destruct Hspec as [_ []]. unfold meter_errors.
    replace (omap (create (MeterOrNoop None)) (l ++ reader_gauges)) with (@nil E); [by destruct (decide _)|].
    symmetry. by apply omap_nil_Forall, Forall_true.
  - destruct (hub_metrics_complete (@None (meter E))) as (_ & _ & [hm|e] & Hr & He); [by exists hm|].
    by destruct He as [_ []].
  - done.
  - by eexists.
Qed.

(** ** The daemon's one meter *)

(** Whether the creations of [Serve] succeed with this meter, as its
    environment has them. *)
Definition created {E A} (r : option (result (joined E) A)) : bool :=
  match r with
  | Some (Ok _) => true
  | _ => false
  end.

Definition metered_env {E} (m : meter E) (cfg : ReaderConfig) (e : serve_env) : serve_env :=
  mkServeEnv (se_telemetry e)
    (if created (newReaderMetrics (Some m) cfg) then Ok tt else Err (EOther "create instruments"))
    (created (newHubMetrics (Some m))) (created (Some (newServerMetrics (Some m))))
    (match registerServingGauge m with Some _ => false | None => true end)
    (se_slot e) (se_ending e) (se_drained e) (se_sourceStops e).

(** A meter that refuses nothing stops nothing. *)
Lemma healthy_meter {E} (m : meter E) cfg e :
  (∀ i, create m i = None) → (∀ l, RegisterCallback m l = None) →
  let env := metered_env m cfg e in
  se_readerInstruments env = Ok tt ∧ se_hubInstruments env = true ∧ se_serverInstruments env = true ∧ se_gauge env = true.
Proof.
  intros Hc Hr. cbv zeta. unfold metered_env. cbn [se_readerInstruments se_hubInstruments se_serverInstruments se_gauge].
  assert (∀ l, omap (create m) l = []) as Hnone by (intros l; by apply omap_nil_Forall, Forall_true).
  split_and!.
  - destruct (newReaderMetrics_spec (Some m) cfg) as (l & r & _ & -> & Hspec). cbv zeta in Hspec.
    destruct r; [done|]. destruct Hspec as [_ []]. unfold meter_errors. cbn [MeterOrNoop default]. rewrite Hnone, Hr.
    by destruct (decide _).
  - destruct (hub_metrics_complete (Some m)) as (_ & _ & r & -> & Hspec). destruct r; [done|].
    destruct Hspec as [_ []]. unfold creation_errors. cbn [MeterOrNoop default]. by rewrite Hnone, Hr.
  - pose proof (server_metrics_complete (Some m)) as (_ & _ & Hspec). destruct (newServerMetrics (Some m)); [done|].
    destruct Hspec as [He []]. rewrite He. apply Hnone.
  - unfold registerServingGauge. by rewrite Hc, Hr.
Qed.
