(* ===== verification/Counters.v ===== *)
(** * Counters: what the reader counts and times as it streams

    stream.go records its measurements in the middle of what it does. Here each
    of its operations has beside it what it records, from the clock readings of
    the turn: the messages and bytes pending until their transaction commits,
    the standby statuses and the time between them, the transactions, the
    errors. [measured_Run] is [Run] with them, and erasing them gives [Run]
    back. The properties say that what an operator's counters show is what
    [Stats] shows. *)

From S2P Require Import Prelude Float64 Errors CdcTypes Visibility Config Relation Decoder Retention Reader ReaderProps Telemetry Metrics.
From Stdlib Require Import Ascii.
Local Open Scope string_scope.
Local Open Scope list_scope.
Local Open Scope Z_scope.

(** ** Recording *)

(** [Add] on a counter, [Record] on an integer and on a float histogram. *)
Inductive observation : Type :=
| Count (m : measurement)
| Sample (m : measurement)
| Timing (name : string) (value : float64) (set : gmap string string).

Definition count (name : string) (n : Z) : observation := Count (mkMeasurement name n ∅).
Definition sample (name : string) (n : Z) : observation := Sample (mkMeasurement name n ∅).
Definition timing (name : string) (d : Z) : observation := Timing name (f64_seconds d) ∅.

(** [Time.Sub], in nanoseconds, saturates. *)
Definition time_Sub (t u : Z) : Z := Z.max (- 2 ^ 63) (Z.min (2 ^ 63 - 1) (t - u)).

(** The clock at a turn's BEGIN, after decoding a transaction, after the sink,
    and around the standby status. *)
Record clock : Type := mkClock {
  ck_began : Z;
  ck_decoded : Z;
  ck_accepted : Z;
  ck_sending : Z;
  ck_sent : Z
}.

(** The fields of [readerMetrics] the receiving goroutine keeps; None is the
    zero time. *)
Record tallies : Type := mkTallies {
  ta_pendingMessages : Z;
  ta_pendingBytes : Z;
  ta_beganAt : option Z;
  ta_lastStatus : option Z
}.

Definition new_tallies : tallies := mkTallies 0 0 None None.

(** The reset on a connection and after a commit. *)
Definition reset_pending (m : tallies) : tallies := mkTallies 0 0 None (ta_lastStatus m).

(** [statusSent]. *)
Definition statusSent (m : tallies) (now duration : Z) : tallies * list observation :=
  (mkTallies (ta_pendingMessages m) (ta_pendingBytes m) (ta_beganAt m) (Some now),
   timing "watchd.cdc.standby_status.duration" duration ::
   match ta_lastStatus m with
   | Some last => [timing "watchd.cdc.standby_status.interval" (time_Sub now last)]
   | None => []
   end).

(** [reportIncompatible]. *)
Definition reportIncompatible (events : list IncompatibleRelationError) : list observation :=
  (λ _, count "watchd.cdc.relation.incompatible" 1) <$> events.

(** [snapshotObserver.page], and the duration [finish] records. *)
Definition page (mode : string) (duration : Z) : observation :=
  Timing "watchd.cdc.snapshot.page.duration" (f64_seconds duration) (attrs [("mode", mode)]).

Definition finish_duration (mode : string) (err : option error) (elapsed : Z) : list observation :=
  match err with
  | Some _ => []
  | None => [Timing "watchd.cdc.snapshot.duration" (f64_seconds elapsed) (attrs [("mode", mode)])]
  end.

Definition streamError (err : error) : observation :=
  Count (mkMeasurement "watchd.cdc.stream.errors" 1 (attrs [("error_class", errorClass err)])).

(** ** The reader, measured *)

Section Counters.
Context {S : Type} `{TransactionSink S} `{PgLogRepl}.

Definition measure_acknowledge (m : tallies) (status : result error unit) (ck : clock) : tallies * list observation :=
  match status with
  | Ok _ => statusSent m (ck_sent ck) (time_Sub (ck_sent ck) (ck_sending ck))
  | Err _ => (m, [])
  end.

(** A message counts as pending before the decoder sees it. *)
Definition count_pending (m : tallies) (message : Message) (walData : string) (ck : clock) : tallies :=
  mkTallies (wrap_i64 (ta_pendingMessages m + 1)) (wrap_i64 (ta_pendingBytes m + slen walData))
    (match message with MsgBegin _ _ => Some (ck_began ck) | _ => ta_beganAt m end) (ta_lastStatus m).

(** What is recorded of a decoded transaction before the sink has it. *)
Definition measure_transaction (m : tallies) (t : Transaction) (committedBytes : Z) (ck : clock) : list observation :=
  reportIncompatible (tx_incompatible t) ++
  match ta_beganAt m with
  | Some began => [timing "watchd.cdc.transaction.duration" (time_Sub (ck_decoded ck) began)]
  | None => []
  end ++
  [sample "watchd.cdc.transaction.changes" (zlen (tx_changes t));
   sample "watchd.cdc.transaction.size" committedBytes;
   count "watchd.cdc.messages" (ta_pendingMessages m);
   count "watchd.cdc.wal.bytes" (ta_pendingBytes m)].

(** What is recorded once the sink has answered. *)
Definition measure_accept (m : tallies) (t : Transaction) (accepted : bool) (status : result error unit) (ck : clock)
    : tallies * list observation :=
  if accepted then
    let timings :=
      timing "watchd.cdc.sink.duration" (time_Sub (ck_accepted ck) (ck_decoded ck)) ::
      (if decide (tx_commitTime t = 0) then []
       else [timing "watchd.cdc.commit_to_accept" (time_Sub (ck_accepted ck) (tx_commitTime t))]) in
    let '(m, sent) := measure_acknowledge m status ck in
    (m, timings ++ sent ++ match status with Ok _ => [count "watchd.cdc.transactions" 1] | Err _ => [] end)
  else (m, []).

(** Whether the sink takes the transaction, with the source's ID on it. *)
Definition sink_takes (cfg : ReaderConfig) (s : rstate S) (t : Transaction) : bool :=
  match sink (rs_sink s) (mkTransaction (mkCursor (rd_sourceID cfg) (lsn (tx_cursor t))) (tx_changes t)
          (tx_commitTime t) (tx_incompatible t) (tx_commitLSN t) (tx_xid t)) with
  | Ok _ => true
  | Err _ => false
  end.

Definition measure_message (cfg : ReaderConfig) (s : rstate S) (m : tallies) (shapes : shapeRegistry)
    (message : Message) (walData : string) (status : result error unit) (ck : clock) : tallies * list observation :=
  let m := count_pending m message walData ck in
  let committedBytes := match message with MsgCommit _ _ => snd (Pending (rs_decoder s)) | _ => 0 end in
  match Consume (rs_decoder s) (Some shapes) message with
  | (_, Err _) => (m, [count "watchd.cdc.decode.errors" 1])
  | (_, Ok None) => (m, [])
  | (_, Ok (Some t)) =>
      match message with
      | MsgCommit _ endLSN =>
          if decide (endLSN = 0) then (m, [])
          else
            let before := measure_transaction m t committedBytes ck in
            let '(m, after) := measure_accept (reset_pending m) t (sink_takes cfg s t) status ck in
            (m, before ++ after)
      | _ => (m, [])
      end
  end.

(** The XLogData and keepalive cases of [consumeCopyData], past their checks. *)
Definition measure_data (cfg : ReaderConfig) (s : rstate S) (m : tallies) (shapes : shapeRegistry) (data : string)
    (status : result error unit) (ck : clock) : tallies * list observation :=
  match data with
  | EmptyString => (m, [])
  | String id rest =>
      if decide (id = "w"%char) then
        match parse_xlog rest with
        | None => (m, [])
        | Some (_, _, walData) =>
            if decide (slen walData = 0) then (m, [])
            else if decide (slen walData > rd_maxTransactionBytes cfg) then (m, [])
            else match parse_message walData with
                 | None => (m, [count "watchd.cdc.decode.errors" 1])
                 | Some message => measure_message cfg s m shapes message walData status ck
                 end
        end
      else if decide (id = "k"%char) then
        match parse_keepalive rest with
        | Some (_, true) => measure_acknowledge m status ck
        | _ => (m, [])
        end
      else (m, [])
  end.

Definition measure_turn (cfg : ReaderConfig) (s : rstate S) (m : tallies) (i : input) (ck : clock)
    : tallies * list observation :=
  match in_received i with
  | RecvCopyData data => measure_data cfg s m (in_shapes i) data (in_status i) ck
  | RecvTimeout => measure_acknowledge m (in_status i) ck
  | _ => (m, [])
  end.

(** [receive], measured; the clocks of its turns are [clocks]. *)
Fixpoint measured_receive (cfg : ReaderConfig) (s : rstate S) (m : tallies) (inputs : list input) (clocks : nat → clock)
    : rstate S * option error * (tallies * list observation) :=
  match inputs with
  | [] => (s, None, (m, []))
  | i :: rest =>
      let '(m, obs) := measure_turn cfg s m i (clocks 0%nat) in
      match receive_turn cfg s i with
      | (s, Err e) => (s, Some e, (m, obs))
      | (s, Ok _) =>
          let '(r, (m, more)) := measured_receive cfg s m rest (λ n, clocks (1 + n)%nat) in
          (r, (m, obs ++ more))
      end
  end.

Definition measured_read (cfg : ReaderConfig) (s : rstate S) (m : tallies) (start : result error Z)
    (inputs : list input) (clocks : nat → clock) : rstate S * option error * (tallies * list observation) :=
  match start with
  | Err e => (s, Some e, (m, []))
  | Ok startLSN => measured_receive cfg (connection cfg s startLSN) (reset_pending m) inputs clocks
  end.

(** [Run], measured: it counts a connection's error, its own when it gives up at
    the budget, and each reconnect. *)
Fixpoint measured_Run (cfg : ReaderConfig) (cause : error) (attempts : Z) (s : rstate S) (m : tallies)
    (reads : list attempt) (clocks : nat → nat → clock)
    : rstate S * (connState * Z * run_outcome) * (tallies * list observation) :=
  match reads with
  | [] => (s, (StateConnecting, 0, RunGoing), (m, []))
  | r :: rest =>
      let '(s, err, (m, obs)) := measured_read cfg s m (at_start r) (at_inputs r) (clocks 0%nat) in
      match err with
      | None => (s, (StateStreaming, 0, RunGoing), (m, obs))
      | Some err =>
          if at_ctxDone r then (s, (StateStopped, 0, RunReturned None), (m, obs))
          else if at_streamDone r then
            let '(state, out) := budgetExceeded cause in (s, (state, 0, out), (m, obs ++ [streamError cause]))
          else
            let obs := obs ++ [streamError err] in
            if negb (isRetryable err) then (s, (StateFailed, 0, RunReturned (Some err)), (m, obs))
            else if decide (rp_maxAttempts (rd_retryPolicy cfg) ≤ attempts)
            then (s, (StateFailed, 0, RunReturned (Some (EWrap (ESentinel ErrRetryExhausted)))), (m, obs))
            else
              let obs := obs ++ [count "watchd.cdc.reconnects" 1] in
              match at_wait r with
              | Some e =>
                  if at_waitCtxDone r then (s, (StateStopped, 1, RunReturned None), (m, obs))
                  else if at_waitStreamDone r then
                    let '(state, out) := budgetExceeded cause in
                    (s, (state, 1, out), (m, obs ++ [streamError cause]))
                  else (s, (StateFailed, 1, RunReturned (Some e)), (m, obs))
              | None =>
                  let '(s, (state, reconnects, out), (m, more)) :=
                    measured_Run cfg cause (attempts + 1) s m rest (λ n, clocks (1 + n)%nat) in
                  (s, (state, reconnects + 1, out), (m, obs ++ more))
              end
      end
  end.

End Counters.

(** ** Equality of machine counters *)

(** The counters wrap at 64 bits, the Stats' unsigned and the instruments'
    signed: equal modulo 2^64. *)
Definition same64 (a b : Z) : Prop := ∃ k, a = b + k * 2 ^ 64.

#[export] Instance same64_equivalence : Equivalence same64.
Proof.
  split.
  - intros a. exists 0. lia.
  - intros a b [k ->]. exists (- k). lia.
  - intros a b c [k ->] [k' ->]. exists (k + k'). lia.
Qed.

#[export] Instance add_same64 : Proper (same64 ==> same64 ==> same64) Z.add.
Proof. intros a b [k ->] c d [k' ->]. exists (k + k'). lia. Qed.

Lemma wrap_u64_same a : same64 (wrap_u64 a) a.
Proof. exists (- (a / 2 ^ 64)). unfold wrap_u64. pose proof (Z.div_mod a (2 ^ 64)). lia. Qed.

Lemma wrap_i64_same a : same64 (wrap_i64 a) a.
Proof.
  exists (- ((a + 2 ^ 63) / 2 ^ 64)). unfold wrap_i64. pose proof (Z.div_mod (a + 2 ^ 63) (2 ^ 64)). lia.
Qed.

Lemma same64_eq a b : is_u64 a → is_u64 b → same64 a b → a = b.
Proof. unfold is_u64. intros ? ? [k ->]. assert (k = 0) by lia. lia. Qed.

(** ** What a list of observations adds up to *)

(** What a counter was given, and how often a histogram was. *)
Fixpoint amount (name : string) (l : list observation) : Z :=
  match l with
  | [] => 0
  | Count m :: l => (if String.eqb (me_name m) name then me_value m else 0) + amount name l
  | _ :: l => amount name l
  end.

Fixpoint samples (name : string) (l : list observation) : Z :=
  match l with
  | [] => 0
  | Sample m :: l => (if String.eqb (me_name m) name then 1 else 0) + samples name l
  | Timing n _ _ :: l => (if String.eqb n name then 1 else 0) + samples name l
  | Count _ :: l => samples name l
  end.

Lemma amount_app name l1 l2 : amount name (l1 ++ l2) = amount name l1 + amount name l2.
Proof. induction l1 as [|[| |] l1 IH]; simpl; lia. Qed.

Lemma samples_app name l1 l2 : samples name (l1 ++ l2) = samples name l1 + samples name l2.
Proof. induction l1 as [|[| |] l1 IH]; simpl; lia. Qed.

Lemma samples_nonneg name l : 0 ≤ samples name l.
Proof. induction l as [|[m|m|n v set] l IH]; simpl; [lia..| |]; destruct (String.eqb _ name); lia. Qed.

Lemma amount_reported name events :
  amount name (reportIncompatible events) =
  if String.eqb "watchd.cdc.relation.incompatible" name then zlen events else 0.
Proof.
  unfold zlen. induction events as [|e events IH];
    [by destruct (String.eqb "watchd.cdc.relation.incompatible" name)|].
  change (amount name (reportIncompatible (e :: events))) with
    ((if String.eqb "watchd.cdc.relation.incompatible" name then 1 else 0) + amount name (reportIncompatible events)).
  rewrite IH. cbn [length]. destruct (String.eqb "watchd.cdc.relation.incompatible" name); lia.
Qed.

Lemma samples_reported name events : samples name (reportIncompatible events) = 0.
Proof. by induction events. Qed.

(** ** What a turn counts *)

(** 1 once a status has been sent. *)
Definition sent_before (m : tallies) : Z := if ta_lastStatus m then 1 else 0.

Lemma sent_before_bounds m : 0 ≤ sent_before m ≤ 1.
Proof. unfold sent_before. destruct (ta_lastStatus m); lia. Qed.

(** The instruments move with the reader's statistics and with what it does;
    [n] reconnects are counted. *)
Record counting {S} (n : Z) (s : rstate S) (m : tallies) (l : list observation) (s' : rstate S) (m' : tallies)
    : Prop := {
  co_reconnects : amount "watchd.cdc.reconnects" l = n;
  co_accepted : same64 (rs_acceptedCount s') (rs_acceptedCount s + amount "watchd.cdc.transactions" l);
  co_received : same64 (rs_received s') (rs_received s + samples "watchd.cdc.transaction.changes" l);
  co_errors : same64 (rs_decodeErrors s') (rs_decodeErrors s + amount "watchd.cdc.decode.errors" l);
  co_sunk : zlen (rs_accepted s') = zlen (rs_accepted s) + samples "watchd.cdc.sink.duration" l;
  co_acks : zlen (rs_acks s') = zlen (rs_acks s) + samples "watchd.cdc.standby_status.duration" l;
  co_sent : sent_before m' = Z.min 1 (sent_before m + samples "watchd.cdc.standby_status.duration" l);
  co_intervals : samples "watchd.cdc.standby_status.interval" l =
                 Z.max 0 (sent_before m + samples "watchd.cdc.standby_status.duration" l - 1)
}.

Abbreviation counts := (counting 0).

Lemma counts_refl {S} (s s' : rstate S) m m' :
  rs_acceptedCount s' = rs_acceptedCount s → rs_received s' = rs_received s →
  rs_decodeErrors s' = rs_decodeErrors s → rs_accepted s' = rs_accepted s → rs_acks s' = rs_acks s →
  ta_lastStatus m' = ta_lastStatus m → counts s m [] s' m'.
Proof.
  intros H1 H2 H3 H4 H5 H6. pose proof (sent_before_bounds m).
  split; simpl; unfold sent_before in *; rewrite ?H1, ?H2, ?H3, ?H4, ?H5, ?H6, ?Z.add_0_r; (reflexivity || lia).
Qed.

Lemma counting_trans {S} n1 n2 (s1 s2 s3 : rstate S) m1 m2 m3 l1 l2 :
  counting n1 s1 m1 l1 s2 m2 → counting n2 s2 m2 l2 s3 m3 → counting (n1 + n2) s1 m1 (l1 ++ l2) s3 m3.
Proof.
  intros [A0 A1 A2 A3 A4 A5 A6 A7] [B0 B1 B2 B3 B4 B5 B6 B7].
  pose proof (sent_before_bounds m1). pose proof (samples_nonneg "watchd.cdc.standby_status.duration" l1).
  pose proof (samples_nonneg "watchd.cdc.standby_status.duration" l2). split; rewrite ?amount_app, ?samples_app; [lia| | | |lia..].
  - by rewrite B1, A1, Z.add_assoc.
  - by rewrite B2, A2, Z.add_assoc.
  - by rewrite B3, A3, Z.add_assoc.
Qed.

Lemma counts_trans {S} (s1 s2 s3 : rstate S) m1 m2 m3 l1 l2 :
  counts s1 m1 l1 s2 m2 → counts s2 m2 l2 s3 m3 → counts s1 m1 (l1 ++ l2) s3 m3.
Proof. apply (counting_trans 0 0). Qed.

Section CountersProps.
Context {S : Type} `{TransactionSink S} `{PgLogRepl}.
Implicit Types (s : rstate S) (m : tallies).

(** Adds up lists of closed names. *)
Ltac count_up :=
  match goal with |- counting _ _ ?m _ _ _ => pose proof (sent_before_bounds m) end; split; rewrite ?amount_app, ?samples_app, ?amount_reported, ?samples_reported;
  unfold sent_before, zlen in *; simpl in *; rewrite ?length_app; simpl; rewrite ?wrap_u64_same, ?Z.add_0_r; (reflexivity || lia).

Lemma acknowledge_counts s m status ck :
  let '(m', l) := measure_acknowledge m status ck in counts s m l (acknowledge s status).1 m'.
Proof.
  unfold measure_acknowledge, acknowledge, statusSent.
  destruct status; [|by apply counts_refl].
  assert (sent_before m = if ta_lastStatus m then 1 else 0) as Hb by done. revert Hb.
  destruct (ta_lastStatus m) as [last|]; intros Hb; split; rewrite ?Hb; unfold sent_before, zlen; simpl;
    rewrite ?length_app; simpl; rewrite ?Z.add_0_r; (reflexivity || lia).
Qed.

(** Decoding a transaction is counted once, whatever the sink does next. *)
Lemma measure_transaction_counts s s' m t bytes ck :
  rs_acceptedCount s' = rs_acceptedCount s → rs_received s' = wrap_u64 (rs_received s + 1) →
  rs_decodeErrors s' = rs_decodeErrors s → rs_accepted s' = rs_accepted s → rs_acks s' = rs_acks s →
  counts s m (measure_transaction m t bytes ck) s' (reset_pending m).
Proof.
  intros H1 H2 H3 H4 H5. pose proof (sent_before_bounds m). unfold measure_transaction.
  destruct (ta_beganAt m); split; change (sent_before (reset_pending m)) with (sent_before m);
    rewrite ?H1, ?H2, ?H3, ?H4, ?H5, ?amount_app, ?samples_app, ?amount_reported, ?samples_reported; simpl; rewrite ?wrap_u64_same, ?Z.add_0_r; (reflexivity || lia).
Qed.

Lemma accept_counts cfg s m t endLSN status bytes ck :
  let '(m', l) := measure_accept (reset_pending m) t (sink_takes cfg s t) status ck in
  counts s m (measure_transaction m t bytes ck ++ l) (accept_transaction cfg s t endLSN status).1 m'.
Proof.
  unfold accept_transaction, sink_takes. cbv zeta. cbn [rs_sink]. destruct (sink (rs_sink s) _) as [k|e].
  2:{ cbn [measure_accept fst]. rewrite app_nil_r. by apply measure_transaction_counts. }
  match goal with |- context [acknowledge ?s1 status] => set (s1' := s1) end.
  pose proof (acknowledge_counts s1' (reset_pending m) status ck) as Hack. unfold measure_accept.
  destruct (measure_acknowledge (reset_pending m) status ck) as [m' sent] eqn:Hm.
  destruct (acknowledge s1' status) as [s2 r] eqn:Hs.
  assert (∃ v, r = v ∧ match status with Ok _ => r = Ok tt | Err e => r = Err e end) as (_ & _ & Hr).
  { unfold acknowledge in Hs. destruct status as [[]|]; injection Hs as _ <-; by eexists. }
  apply (counts_trans _ (mkRstate (rs_decoder s) (rs_safe s) (rs_sink s) (rs_acks s) (rs_accepted s) (rs_lastReceived s)
    (rs_lastAcknowledged s) (wrap_u64 (rs_received s + 1)) (rs_acceptedCount s) (rs_decodeErrors s)
    (rs_inFlight s) (rs_serverWALEnd s)) _ _ (reset_pending m)); [by apply measure_transaction_counts|].
  apply (counts_trans _ s1' _ _ (reset_pending m)).
  { unfold s1'. destruct (decide (tx_commitTime t = 0)); count_up. }
  cbn [fst] in Hack. destruct status as [u|e]; subst r; cbn [fst].
  - apply (counts_trans _ s2 _ _ m'); [exact Hack|]. count_up.
  - by rewrite app_nil_r.
Qed.

Lemma message_counts cfg s m shapes message walData status ck :
  let '(m', l) := measure_message cfg s m shapes message walData status ck in
  counts s m l (consume_message cfg s shapes message status).1 m'.
Proof.
  unfold measure_message, consume_message. cbv zeta.
  destruct (Consume (rs_decoder s) (Some shapes) message) as [d [[t|]|e]]; [|by apply counts_refl|].
  2:{ cbn [fst]. unfold count_pending. count_up. }
  destruct message; try by apply counts_refl. destruct (decide _); [by apply counts_refl|].
  set (m0 := count_pending m _ _ _). set (s0 := set_decoder s d (rs_decodeErrors s)).
  pose proof (accept_counts cfg s0 m0 t transactionEndLSN status (Pending (rs_decoder s)).2 ck) as Hc.
  change (sink_takes cfg s0 t) with (sink_takes cfg s t) in Hc. revert Hc.
  destruct (measure_accept _ _ _ _ _) as [m' l]. intros Hc.
  apply (counts_trans _ s0 _ _ m0 _ []); [by apply counts_refl|exact Hc].
Qed.

Lemma data_counts cfg s m shapes data status ck :
  let '(m', l) := measure_data cfg s m shapes data status ck in
  counts s m l (consumeCopyData cfg s shapes data status).1 m'.
Proof.
  unfold measure_data, consumeCopyData. destruct data as [|id rest]; [by apply counts_refl|].
  destruct (decide (id = "w"%char)).
  - destruct (parse_xlog rest) as [[[walStart walEnd] walData]|]; [|by apply counts_refl].
    destruct (decide _); [by apply counts_refl|]. destruct (decide _); [by apply counts_refl|].
    cbv zeta. set (s1 := observeServerWALEnd _ _). destruct (parse_message walData) as [message|].
    + pose proof (message_counts cfg s1 m shapes message walData status ck) as Hc.
      change (measure_message cfg s1 m shapes message walData status ck) with
        (measure_message cfg s m shapes message walData status ck) in Hc. revert Hc.
      destruct (measure_message _ _ _ _ _ _ _ _) as [m' l]. intros Hc.
      apply (counts_trans _ s1 _ _ m _ []); [by apply counts_refl|exact Hc].
    + cbn [fst]. apply (counts_trans _ s1 _ _ m _ []); [by apply counts_refl|]. count_up.
  - destruct (decide (id = "k"%char)); [|by apply counts_refl].
    destruct (parse_keepalive rest) as [[walEnd [|]]|]; [| |by apply counts_refl].
    + unfold consume_keepalive. cbv zeta.
      match goal with |- context [acknowledge ?s1 status] => set (s1' := s1) end.
      assert (counts s m [] s1' m) as H1 by (unfold s1'; destruct (decide _); by apply counts_refl).
      pose proof (acknowledge_counts s1' m status ck) as Hc. revert Hc.
      destruct (measure_acknowledge m status ck) as [m' l]. intros Hc.
      pose proof (counts_trans _ _ _ _ _ _ _ _ H1 Hc) as Hall.
      by destruct (acknowledge s1' status) as [s2 [?|?]].
    + unfold consume_keepalive. cbv zeta. cbn [fst]. destruct (decide _); by apply counts_refl.
Qed.

Lemma turn_counts cfg s m i ck :
  let '(m', l) := measure_turn cfg s m i ck in counts s m l (receive_turn cfg s i).1 m'.
Proof.
  unfold measure_turn, receive_turn. destruct (in_received i); [apply data_counts| |by apply counts_refl..].
  pose proof (acknowledge_counts s m (in_status i) ck) as Hc. revert Hc.
  destruct (measure_acknowledge m (in_status i) ck) as [m' l].
  by destruct (acknowledge s (in_status i)) as [s2 [?|?]].
Qed.

Lemma receive_counts cfg s m inputs clocks :
  let '(r, (m', l)) := measured_receive cfg s m inputs clocks in
  r = receive cfg s inputs ∧ counts s m l r.1 m'.
Proof.
  revert s m clocks. induction inputs as [|i rest IH]; intros s m clocks; [by split; [|apply counts_refl]|].
  cbn [measured_receive receive]. pose proof (turn_counts cfg s m i (clocks 0%nat)) as Ht. revert Ht.
  destruct (measure_turn cfg s m i (clocks 0%nat)) as [m1 l1].
  destruct (receive_turn cfg s i) as [s1 [u|e]]; intros Ht; [|done].
  specialize (IH s1 m1 (λ n, clocks (1 + n)%nat)). destruct (measured_receive cfg s1 m1 rest _) as [r [m2 l2]].
  destruct IH as [-> IH]. split; [done|]. by eapply counts_trans.
Qed.

Lemma read_counts cfg s m start inputs clocks :
  let '(r, (m', l)) := measured_read cfg s m start inputs clocks in
  r = read_once cfg s start inputs ∧ counts s m l r.1 m'.
Proof.
  unfold measured_read, read_once. destruct start as [startLSN|e]; [|by split; [|apply counts_refl]].
  pose proof (receive_counts cfg (connection cfg s startLSN) (reset_pending m) inputs clocks) as Hc. revert Hc.
  destruct (measured_receive _ _ _ _ _) as [r [m' l]]. intros [-> Hc]. split; [done|].
  apply (counts_trans _ (connection cfg s startLSN) _ _ (reset_pending m) _ []); [by apply counts_refl|exact Hc].
Qed.

(** [Run] itself counts errors and reconnects. *)
Lemma streamError_counts s m e : counts s m [streamError e] s m.
Proof. count_up. Qed.

Lemma reconnect_counts s m : counting 1 s m [count "watchd.cdc.reconnects" 1] s m.
Proof. count_up. Qed.

Lemma Run_counts cfg cause attempts s m reads clocks :
  let '(s', (state, reconnects, out), (m', l)) := measured_Run cfg cause attempts s m reads clocks in
  (s', (state, reconnects, out)) = Run cfg cause attempts s reads ∧ counting reconnects s m l s' m'.
Proof.
  revert attempts s m clocks. induction reads as [|r rest IH]; intros attempts s m clocks.
  { by split; [|apply counts_refl]. }
  cbn [measured_Run Run]. pose proof (read_counts cfg s m (at_start r) (at_inputs r) (clocks 0%nat)) as Hc. revert Hc.
  destruct (measured_read _ _ _ _ _ _) as [[s1 err] [m1 l1]]. intros [<- Hc]. cbn [fst] in Hc.
  destruct err as [err|]; [|done]. destruct (at_ctxDone r); [done|].
  pose proof (λ e, counts_trans _ _ _ _ _ _ _ _ Hc (streamError_counts s1 m1 e)) as Herr.
  destruct (at_streamDone r); [by split; [|apply Herr]|].
  destruct (negb _); [by split; [|apply Herr]|]. destruct (decide _); [by split; [|apply Herr]|].
  pose proof (counting_trans _ _ _ _ _ _ _ _ _ _ (Herr err) (reconnect_counts s1 m1)) as Hre. cbn in Hre.
  destruct (at_wait r) as [e|].
  - destruct (at_waitCtxDone r); [done|]. destruct (at_waitStreamDone r); [|done]. split; [done|].
    exact (counting_trans 1 0 _ _ _ _ _ _ _ _ Hre (streamError_counts s1 m1 cause)).
  - specialize (IH (attempts + 1) s1 m1 (λ n, clocks (1 + n)%nat)).
    destruct (measured_Run _ _ _ _ _ _ _) as [[s2 [[state reconnects] out]] [m2 l2]]. destruct IH as [<- IH].
    split; [done|]. rewrite Z.add_comm. exact (counting_trans _ _ _ _ _ _ _ _ _ _ Hre IH).
Qed.

(** ** The pending messages *)

(** The payload of a turn's pgoutput message, when it gets to the decoder. *)
Definition payload_of (cfg : ReaderConfig) (i : input) : option string :=
  match in_received i with
  | RecvCopyData (String id rest) =>
      if decide (id = "w"%char) then
        match parse_xlog rest with
        | Some (_, _, walData) =>
            if decide (slen walData = 0 ∨ slen walData > rd_maxTransactionBytes cfg) then None
            else match parse_message walData with Some _ => Some walData | None => None end
        | None => None
        end
      else None
  | _ => None
  end.

(** Messages and bytes pending or counted, before and after. *)
Definition pending_moves (m : tallies) (l : list observation) (m' : tallies) (payloads : list string) : Prop :=
  same64 (amount "watchd.cdc.messages" l + ta_pendingMessages m') (ta_pendingMessages m + zlen payloads) ∧
  same64 (amount "watchd.cdc.wal.bytes" l + ta_pendingBytes m')
    (ta_pendingBytes m + foldr (λ p n, slen p + n) 0 payloads).

Lemma pending_same m m' l :
  amount "watchd.cdc.messages" l = 0 → amount "watchd.cdc.wal.bytes" l = 0 →
  ta_pendingMessages m' = ta_pendingMessages m → ta_pendingBytes m' = ta_pendingBytes m → pending_moves m l m' [].
Proof. intros H1 H2 H3 H4. split; rewrite ?H1, ?H2, ?H3, ?H4; simpl; rewrite ?Z.add_0_r; reflexivity. Qed.

Lemma pending_trans m1 m2 m3 l1 l2 p1 p2 :
  pending_moves m1 l1 m2 p1 → pending_moves m2 l2 m3 p2 → pending_moves m1 (l1 ++ l2) m3 (p1 ++ p2).
Proof.
  assert (∀ p1 p2, foldr (λ p n, slen p + n) 0 (p1 ++ p2) =
    foldr (λ p n, slen p + n) 0 p1 + foldr (λ p n, slen p + n) 0 p2) as Hsum.
  { intros q1 q2. induction q1; simpl; lia. }
  intros [[a Ha] [b Hb]] [[c Hc] [d Hd]]. split; unfold zlen in *; rewrite ?amount_app, ?length_app, ?Hsum.
  - exists (a + c). lia.
  - exists (b + d). lia.
Qed.

Lemma acknowledge_pending m status ck :
  let '(m', l) := measure_acknowledge m status ck in pending_moves m l m' [].
Proof.
  unfold measure_acknowledge, statusSent. destruct status; [|by apply pending_same].
  by destruct (ta_lastStatus m); apply pending_same.
Qed.

Lemma count_pending_moves m message walData ck l :
  amount "watchd.cdc.messages" l = 0 → amount "watchd.cdc.wal.bytes" l = 0 →
  pending_moves m l (count_pending m message walData ck) [walData].
Proof.
  intros H1 H2. split; rewrite ?H1, ?H2; simpl; rewrite wrap_i64_same; unfold zlen; simpl; rewrite ?Z.add_0_r; reflexivity.
Qed.

(** A commit hands the counters all that is pending. *)
Lemma message_pending cfg s m shapes message walData status ck :
  let '(m', l) := measure_message cfg s m shapes message walData status ck in pending_moves m l m' [walData].
Proof.
  unfold measure_message. cbv zeta.
  destruct (Consume _ _ _) as [d [[t|]|e]]; [|by apply count_pending_moves..].
  destruct message; try by apply count_pending_moves. destruct (decide _); [by apply count_pending_moves|].
  set (m0 := count_pending m _ _ _). unfold measure_accept.
  assert (∀ bytes, pending_moves m (measure_transaction m0 t bytes ck) (reset_pending m0) [walData]) as Hmove.
  { intros bytes. assert (pending_moves m [] m0 [walData]) as [[a Ha] [b Hb]] by by apply count_pending_moves.
    unfold measure_transaction. clearbody m0.
    split; [exists a|exists b]; rewrite !amount_app, amount_reported; destruct (ta_beganAt m0); simpl in *; lia. }
  destruct (sink_takes cfg s t); [|by rewrite app_nil_r].
  pose proof (acknowledge_pending (reset_pending m0) status ck) as Hack. revert Hack.
  destruct (measure_acknowledge _ _ _) as [m' sent]. intros Hack.
  apply (pending_trans _ (reset_pending m0) _ _ _ [walData] []); [apply Hmove|].
  apply (pending_trans _ (reset_pending m0) _ _ _ [] []); [by destruct (decide _); apply pending_same|].
  apply (pending_trans _ m' _ _ _ [] []); [exact Hack|]. by destruct status; apply pending_same.
Qed.

Lemma turn_pending cfg s m i ck :
  let '(m', l) := measure_turn cfg s m i ck in pending_moves m l m' (option_list (payload_of cfg i)).
Proof.
  unfold measure_turn, payload_of. destruct (in_received i) as [data| | | | | |]; try by apply pending_same.
  2:{ apply acknowledge_pending. }
  unfold measure_data. destruct data as [|id rest]; [by apply pending_same|].
  destruct (decide (id = "w"%char)).
  - destruct (parse_xlog rest) as [[[? ?] walData]|]; [|by apply pending_same].
    destruct (decide (slen walData = 0)) as [?|?]; [by rewrite decide_True by auto; apply pending_same|].
    destruct (decide (slen walData > _)) as [?|?]; [by rewrite decide_True by auto; apply pending_same|].
    rewrite decide_False by tauto. destruct (parse_message walData); [apply message_pending|by apply pending_same].
  - destruct (decide _); [|by apply pending_same].
    destruct (parse_keepalive rest) as [[? [|]]|]; [apply acknowledge_pending|by apply pending_same..].
Qed.

(** Over one connection: the messages counted and still pending are those the
    decoder was given, in the turns that ran. *)
Lemma receive_pending cfg s m inputs clocks :
  let '(r, (m', l)) := measured_receive cfg s m inputs clocks in
  ∃ ran rest, inputs = ran ++ rest ∧ (r.2 = None → rest = []) ∧ pending_moves m l m' (omap (payload_of cfg) ran).
Proof.
  revert s m clocks. induction inputs as [|i inputs IH]; intros s m clocks.
  { exists [], []. split; [done|]. split; [done|]. by apply pending_same. }
  cbn [measured_receive]. pose proof (turn_pending cfg s m i (clocks 0%nat)) as Ht. revert Ht.
  destruct (measure_turn cfg s m i (clocks 0%nat)) as [m1 l1]. intros Ht.
  assert (∀ ran, omap (payload_of cfg) (i :: ran) = option_list (payload_of cfg i) ++ omap (payload_of cfg) ran) as Hcons.
  { intros ran. cbn. by destruct (payload_of cfg i). }
  destruct (receive_turn cfg s i) as [s1 [u|e]].
  - specialize (IH s1 m1 (λ n, clocks (1 + n)%nat)). destruct (measured_receive cfg s1 m1 inputs _) as [r [m2 l2]].
    destruct IH as (ran & rest & -> & Hrest & IH). exists (i :: ran), rest. split; [done|]. split; [done|].
    rewrite Hcons. by eapply pending_trans.
  - exists [i], inputs. split; [done|]. split; [done|]. rewrite Hcons. by rewrite app_nil_r.
Qed.

End CountersProps.

(** ** Properties *)

(** C36 (equivalence): what the counters show is what [Stats] shows. However
    often the connection is lost, [Run]'s outcome is the same measured or not,
    and at every moment: the transactions counted are those [Stats] reports as
    accepted, the transactions sized are those received, the decode errors and
    the reconnects agree (counters are equal modulo 2^64), every transaction
    the sink took was timed, once, and none that it refused, every status PostgreSQL was sent was timed, and
    every interval between two of them, across connections too. *)
Theorem counters_agree_with_Stats {S} `{TransactionSink S} `{PgLogRepl} `{LsnText} cfg cause k reads clocks retention :
  let '(s, (state, reconnects, out), (m, l)) :=
    measured_Run cfg cause 0 (new_reader cfg k) new_tallies reads clocks in
  let stats := Stats state retention reconnects s in
  (s, (state, reconnects, out)) = Run cfg cause 0 (new_reader cfg k) reads ∧
  same64 (TransactionsAccepted stats) (amount "watchd.cdc.transactions" l) ∧
  same64 (TransactionsReceived stats) (samples "watchd.cdc.transaction.changes" l) ∧
  same64 (DecodeErrors stats) (amount "watchd.cdc.decode.errors" l) ∧
  ReconnectAttempts stats = amount "watchd.cdc.reconnects" l ∧
  samples "watchd.cdc.sink.duration" l = zlen (rs_accepted s) ∧
  samples "watchd.cdc.standby_status.duration" l = zlen (rs_acks s) ∧
  samples "watchd.cdc.standby_status.interval" l = Z.max 0 (zlen (rs_acks s) - 1).
Proof.
  pose proof (Run_counts cfg cause 0 (new_reader cfg k) new_tallies reads clocks) as Hrun. revert Hrun.
  destruct (measured_Run _ _ _ _ _ _ _) as [[s [[state reconnects] out]] [m l]]. intros [Hrun Hc]. cbv zeta.
  destruct Hc as [A0 A1 A2 A3 A4 A5 _ A7]. simpl in *. split; [done|]. change (sent_before new_tallies) with 0 in A7. unfold zlen in *.
  split_and!; (done || simpl in *; lia).
Qed.

(** C39 (functional): messages are counted with their transaction. Over one
    connection, the pgoutput messages and bytes the counters were given are
    exactly those of the messages the decoder was given, less those still
    pending a commit. A new connection starts with none pending. *)
Theorem messages_counted_once {S} `{TransactionSink S} `{PgLogRepl} cfg (s : rstate S) m startLSN inputs clocks :
  let '((s', err), (m', l)) := measured_read cfg s m (Ok startLSN) inputs clocks in
  ∃ ran rest, inputs = ran ++ rest ∧ (err = None → rest = []) ∧
    let payloads := omap (payload_of cfg) ran in
    same64 (amount "watchd.cdc.messages" l) (zlen payloads - ta_pendingMessages m') ∧
    same64 (amount "watchd.cdc.wal.bytes" l) (foldr (λ p n, slen p + n) 0 payloads - ta_pendingBytes m').
Proof.
  unfold measured_read. pose proof (receive_pending cfg (connection cfg s startLSN) (reset_pending m) inputs clocks) as Hp.
  revert Hp. destruct (measured_receive _ _ _ _ _) as [[s' err] [m' l]].
  intros (ran & rest & -> & Hrest & [[a Ha] [b Hb]]). exists ran, rest. split; [done|]. split; [done|]. cbv zeta.
  simpl in Ha, Hb. split; [exists a|exists b]; lia.
Qed.
