(* ===== verification/Harness.v ===== *)
(** * Harness: internal/telemetry/telemetrytest

    The in-process metrics pipeline the tests of every component look through:
    finding a metric, the value of a data point, a histogram's count, and the
    assertion that watchd's metrics carry only the attributes of the allowlist.
    What a collection returns is the SDK's: a parameter. The test's [Fatalf] is
    an error, and its [Errorf]s are listed.

    The properties say what the assertion and the look-ups decide, and that
    what the reader records as it runs is recorded on instruments it created,
    and passes the assertion. *)

From S2P Require Import Prelude Float64 Errors CdcTypes Visibility Config Events Retention Relation Decoder Hub Reader Wire Monitor Telemetry Metrics Instruments Counters.
Local Open Scope string_scope.
Local Open Scope list_scope.
Local Open Scope Z_scope.

(** ** What a collection holds: metricdata *)

Record DataPoint (N : Type) : Type := mkDataPoint {
  dp_Attributes : attribute_set;
  dp_Value : N
}.
Arguments mkDataPoint {N}.
Arguments dp_Attributes {N}.
Arguments dp_Value {N}.

(** Of a histogram's point the harness reads its count. *)
Record HistogramDataPoint (N : Type) : Type := mkHistogramDataPoint {
  hp_Attributes : attribute_set;
  hp_Count : Z;
  hp_Sum : N
}.
Arguments mkHistogramDataPoint {N}.
Arguments hp_Attributes {N}.
Arguments hp_Count {N}.
Arguments hp_Sum {N}.

(** The aggregations the harness knows; the SDK has others. *)
Inductive Aggregation : Type :=
| SumInt64 (points : list (DataPoint Z))
| SumFloat64 (points : list (DataPoint float64))
| GaugeInt64 (points : list (DataPoint Z))
| GaugeFloat64 (points : list (DataPoint float64))
| HistogramInt64 (points : list (HistogramDataPoint Z))
| HistogramFloat64 (points : list (HistogramDataPoint float64))
| OtherAggregation (type : string).

Record collected : Type := mkCollected {
  cm_Name : string;
  cm_Data : Aggregation
}.

(** Why a test ends: the collection fails, or a metric has another type. *)
Inductive fatal : Type :=
| CollectFailed
| NotSumOrGauge (name : string)
| NotHistogram (name : string).

(** ** The operations *)

(** The first point with exactly these attributes; [to64] is [float64(..)]. *)
Definition pointValue {N} (to64 : N → float64) (points : list (DataPoint N)) (attributes : attribute_set)
    : option float64 :=
  (λ point, to64 (dp_Value point.2)) <$> list_find (λ point, dp_Attributes point = attributes) points.

Definition histogramCount {N} (points : list (HistogramDataPoint N)) (attributes : attribute_set) : Z :=
  match list_find (λ point, hp_Attributes point = attributes) points with
  | Some (_, point) => hp_Count point
  | None => 0
  end.

Definition attributeSets (data : Aggregation) : list attribute_set :=
  match data with
  | SumInt64 points | GaugeInt64 points => dp_Attributes <$> points
  | SumFloat64 points | GaugeFloat64 points => dp_Attributes <$> points
  | HistogramInt64 points => hp_Attributes <$> points
  | HistogramFloat64 points => hp_Attributes <$> points
  | OtherAggregation _ => []
  end.

(** The keys of [Set.ToSlice], which are sorted. *)
Definition ToSlice_keys (set : attribute_set) : list string := sort_strings (map_to_list set).*1.

Section Harness.
(** What [ManualReader.Collect] fills in: the metrics of each scope. *)
Context (scopes : result error (list (list collected))).

Definition Collect : result fatal (list collected) :=
  match scopes with
  | Err _ => Err CollectFailed
  | Ok scopes => Ok (concat scopes)
  end.

Definition Find (name : string) : result fatal (option collected) :=
  let! metrics := Collect in
  Ok (snd <$> list_find (λ m, cm_Name m = name) metrics).

(** [Value]; None is its false. *)
Definition Harness_Value (name : string) (attributes : attribute_set) : result fatal (option float64) :=
  let! found := Find name in
  match found with
  | None => Ok None
  | Some m =>
      match cm_Data m with
      | SumInt64 points | GaugeInt64 points => Ok (pointValue f64_of_int points attributes)
      | SumFloat64 points | GaugeFloat64 points => Ok (pointValue id points attributes)
      | _ => Err (NotSumOrGauge name)
      end
  end.

Definition HistogramCount (name : string) (attributes : attribute_set) : result fatal Z :=
  let! found := Find name in
  match found with
  | None => Ok 0
  | Some m =>
      match cm_Data m with
      | HistogramInt64 points => Ok (histogramCount points attributes)
      | HistogramFloat64 points => Ok (histogramCount points attributes)
      | _ => Err (NotHistogram name)
      end
  end.

(** [AssertAllowedAttributes], with the metric and key of each [Errorf]. *)
Definition AssertAllowedAttributes : result fatal (list (string * string)) :=
  let! metrics := Collect in
  Ok (m ← metrics;
      if negb (IsWatchdMetric (cm_Name m)) then []
      else set ← attributeSets (cm_Data m);
           key ← ToSlice_keys set;
           if Allowed key then [] else [(cm_Name m, key)]).
End Harness.

(** ** Lemmas *)

Lemma ToSlice_keys_elem set key : key ∈ ToSlice_keys set ↔ is_Some (set !! key).
Proof.
  unfold ToSlice_keys, sort_strings. rewrite merge_sort_Permutation, list_elem_of_fmap. split.
  - intros ([k v] & -> & Hkv). apply elem_of_map_to_list in Hkv. by exists v.
  - intros [v Hv]. exists (key, v). split; [done|]. by apply elem_of_map_to_list.
Qed.

Lemma elem_of_if_nil {A} (b : bool) (l : list A) x : x ∈ (if b then [] else l) ↔ b = false ∧ x ∈ l.
Proof. destruct b; [split; [by intros ?%not_elem_of_nil|by intros [? _]]|naive_solver]. Qed.

Lemma elem_of_concat {A} (ls : list (list A)) x : x ∈ concat ls ↔ ∃ l, x ∈ l ∧ l ∈ ls.
Proof.
  rewrite list_elem_of_In, in_concat. setoid_rewrite list_elem_of_In. naive_solver.
Qed.

(** A set with allowed keys only. *)
Definition allowed_set (set : attribute_set) : Prop := map_Forall (λ key _, Allowed key = true) set.

Lemma allowed_set_empty : allowed_set ∅.
Proof. apply map_Forall_empty. Qed.

(** What [Attributes] builds is allowed, so [attrs] always is. *)
Lemma Attributes_allowed kvs set : Attributes kvs = Some set → allowed_set set.
Proof.
  unfold Attributes. destruct (forallb _ kvs) eqn:Hall; [|done]. intros [= <-].
  cut (∀ m, allowed_set m → allowed_set (foldl (λ m kv, <[fst kv := snd kv]> m) m kvs)).
  { intros Hcut. apply Hcut, allowed_set_empty. }
  induction kvs as [|[k v] kvs IH]; intros m Hm; [done|]. cbn [foldl fst snd].
  apply andb_prop in Hall as [Hk Hall]. apply IH; [done|]. by apply map_Forall_insert_2.
Qed.

Lemma attrs_allowed_set kvs : allowed_set (attrs kvs).
Proof.
  unfold attrs. destruct (Attributes kvs) eqn:E; [by eapply Attributes_allowed|apply allowed_set_empty].
Qed.

#[export] Hint Resolve allowed_set_empty attrs_allowed_set : core.

(** ** What the harness decides *)

(** The assertion reports a key exactly when a data point of one of watchd's
    metrics carries it outside the allowlist, in any scope: it never looks at
    other instrumentation, nor at an aggregation it does not know. *)
Theorem AssertAllowedAttributes_exact scopes errs :
  AssertAllowedAttributes (Ok scopes) = Ok errs →
  ∀ name key, (name, key) ∈ errs ↔
    IsWatchdMetric name = true ∧ Allowed key = false ∧
    ∃ scope m set, scope ∈ scopes ∧ m ∈ scope ∧ cm_Name m = name ∧ set ∈ attributeSets (cm_Data m) ∧
      is_Some (set !! key).
Proof.
  unfold AssertAllowedAttributes, Collect. cbn [result_bind]. intros [= <-] name key.
  rewrite list_elem_of_bind. split.
  - intros (m & [Hw Hin]%elem_of_if_nil & (scope & Hm & Hscope)%elem_of_concat).
    apply list_elem_of_bind in Hin as (set & Hin & Hset). apply list_elem_of_bind in Hin as (k & Hin & Hk).
    apply elem_of_if_nil in Hin as [Ha [= -> ->]%list_elem_of_singleton].
    apply negb_false_iff in Hw. split_and!; [done..|]. exists scope, m, set. by rewrite <-ToSlice_keys_elem.
  - intros (Hw & Ha & scope & m & set & Hscope & Hm & <- & Hset & Hkey). exists m. split.
    + apply elem_of_if_nil. split; [by rewrite Hw|]. apply list_elem_of_bind. exists set. split; [|done].
      apply list_elem_of_bind. exists key. split; [|by apply ToSlice_keys_elem].
      rewrite Ha. by apply list_elem_of_singleton.
    + apply elem_of_concat. by exists scope.
Qed.

(** It passes exactly when every set of watchd's metrics is allowed. *)
Lemma AssertAllowedAttributes_passes scopes :
  AssertAllowedAttributes (Ok scopes) = Ok [] ↔
  ∀ scope m set, scope ∈ scopes → m ∈ scope → IsWatchdMetric (cm_Name m) = true → set ∈ attributeSets (cm_Data m) →
    allowed_set set.
Proof.
  destruct (AssertAllowedAttributes (Ok scopes)) as [errs|e] eqn:E; [|done].
  pose proof (AssertAllowedAttributes_exact scopes errs E) as Hexact. split.
  - intros [= ->] scope m set Hs Hm Hw Hset key v Hkv. destruct (Allowed key) eqn:Ha; [done|].
    exfalso. apply (not_elem_of_nil (cm_Name m, key)), Hexact. split_and!; [done..|]. exists scope, m, set. by split_and!.
  - intros Hall. f_equal. destruct errs as [|[name key] errs]; [done|]. exfalso.
    destruct (proj1 (Hexact name key)) as (Hw & Ha & scope & m & set & Hs & Hm & <- & Hset & [v Hv]); [left|].
    pose proof (Hall _ _ _ Hs Hm Hw Hset key v Hv) as Ht. congruence.
Qed.

(** Looking a point up by its attributes finds it, whatever order the points
    come in, as a metric's points have distinct attributes. *)
Lemma pointValue_exact {N} (to64 : N → float64) points attributes value :
  NoDup (dp_Attributes <$> points) →
  pointValue to64 points attributes = Some value ↔
  ∃ v, mkDataPoint attributes v ∈ points ∧ value = to64 v.
Proof.
  intros Hnd. unfold pointValue. split.
  - intros ([i [set v]] & Hfind & ->)%fmap_Some. apply list_find_Some in Hfind as (Hi & <- & _).
    exists v. split; [|done]. by eapply list_elem_of_lookup_2.
  - intros (v & Hin & ->). apply list_elem_of_lookup_1 in Hin as [i Hi].
    apply fmap_Some. exists (i, mkDataPoint attributes v). split; [|done].
    apply list_find_Some. split_and!; [done..|]. intros j p Hj Hlt Heq.
    assert (j = i); [|lia]. eapply (NoDup_lookup _ _ _ attributes); [exact Hnd|..];
      rewrite list_lookup_fmap; [rewrite Hj; cbn; by rewrite Heq|by rewrite Hi].
Qed.

(** A collection with each metric once, and each of its points once. *)
Definition collection (scopes : list (list collected)) : Prop :=
  NoDup (cm_Name <$> concat scopes) ∧
  ∀ m, m ∈ concat scopes → NoDup (attributeSets (cm_Data m)).

Lemma Find_exact scopes m :
  collection scopes → m ∈ concat scopes → Find (Ok scopes) (cm_Name m) = Ok (Some m).
Proof.
  intros [Hnd _] Hm. unfold Find, Collect. cbn [result_bind]. f_equal. apply fmap_Some.
  apply list_elem_of_lookup_1 in Hm as [i Hi]. exists (i, m). split; [|done].
  apply list_find_Some. split_and!; [done..|]. intros j m' Hj Hlt Heq.
  assert (j = i); [|lia]. eapply (NoDup_lookup _ _ _ (cm_Name m)); [exact Hnd|..];
    rewrite list_lookup_fmap; [rewrite Hj; cbn; by rewrite Heq|by rewrite Hi].
Qed.

(** The value of a counter or gauge a test reads is its data point's, as a
    double; a point that was not recorded has none. *)
Lemma Value_exact scopes m points attributes :
  collection scopes → m ∈ concat scopes → cm_Data m ∈ [SumInt64 points; GaugeInt64 points] →
  ∃ found, Harness_Value (Ok scopes) (cm_Name m) attributes = Ok found ∧
    ∀ value, found = Some value ↔ ∃ n, mkDataPoint attributes n ∈ points ∧ value = f64_of_int n.
Proof.
  intros Hc Hm Hd. unfold Harness_Value. rewrite (Find_exact scopes m Hc Hm). cbn [result_bind].
  exists (pointValue f64_of_int points attributes). destruct Hc as [_ Hpoints]. specialize (Hpoints m Hm).
  assert (cm_Data m = SumInt64 points ∨ cm_Data m = GaugeInt64 points) as [E|E] by set_solver;
    rewrite E in Hpoints |- *; (split; [done|]); intros value; by apply pointValue_exact.
Qed.

(** ** What the reader records *)

Definition obs_measured (o : observation) : instrument_kind * string * attribute_set :=
  match o with
  | Count m => (Int64Counter, me_name m, me_attrs m)
  | Sample m => (Int64Histogram, me_name m, me_attrs m)
  | Timing name _ set => (Float64Histogram, name, set)
  end.

(** The instruments stream.go and [Run] record on. *)
Definition stream_instruments : list (instrument_kind * string) :=
  [(Int64Counter, "watchd.cdc.reconnects"); (Int64Counter, "watchd.cdc.stream.errors");
   (Float64Histogram, "watchd.cdc.standby_status.duration"); (Float64Histogram, "watchd.cdc.standby_status.interval");
   (Int64Counter, "watchd.cdc.messages"); (Int64Counter, "watchd.cdc.wal.bytes");
   (Int64Counter, "watchd.cdc.transactions"); (Float64Histogram, "watchd.cdc.transaction.duration");
   (Int64Histogram, "watchd.cdc.transaction.changes"); (Int64Histogram, "watchd.cdc.transaction.size");
   (Int64Counter, "watchd.cdc.decode.errors"); (Int64Counter, "watchd.cdc.relation.incompatible");
   (Float64Histogram, "watchd.cdc.sink.duration"); (Float64Histogram, "watchd.cdc.commit_to_accept")].

(** Recorded on one of them, with an allowed set. *)
Definition recordable (o : observation) : Prop :=
  (obs_measured o).1 ∈ stream_instruments ∧ allowed_set (obs_measured o).2.

Lemma recordable_in o :
  bool_decide ((obs_measured o).1 ∈ stream_instruments) = true → allowed_set (obs_measured o).2 → recordable o.
Proof. intros Hin%bool_decide_eq_true Hset. by split. Qed.

(** Every single observation: its name evaluates, its set is empty or built by
    [attrs]. *)
Ltac record_all :=
  repeat first [apply Forall_nil_2 | apply Forall_app_2 | apply Forall_cons_2];
  try (apply recordable_in; [reflexivity|cbn [obs_measured snd me_attrs streamError count sample timing]; auto]).

Section Recorded.
Context {S : Type} `{TransactionSink S} `{PgLogRepl}.
Implicit Types (cfg : ReaderConfig) (s : rstate S) (m : tallies).

Lemma acknowledge_recordable m status ck : Forall recordable (measure_acknowledge m status ck).2.
Proof.
  unfold measure_acknowledge, statusSent. destruct status; [|by record_all]. cbn [snd].
  destruct (ta_lastStatus m); record_all.
Qed.

Lemma transaction_recordable m t bytes ck : Forall recordable (measure_transaction m t bytes ck).
Proof.
  unfold measure_transaction, reportIncompatible. apply Forall_app_2.
  - apply Forall_fmap, Forall_true. intros e. cbn [compose]. record_all.
  - destruct (ta_beganAt m); record_all.
Qed.

Lemma accept_recordable m t accepted status ck : Forall recordable (measure_accept m t accepted status ck).2.
Proof.
  unfold measure_accept. destruct accepted; [|by record_all]. pose proof (acknowledge_recordable m status ck) as Hsent.
  destruct (measure_acknowledge m status ck) as [m' sent]. cbn [snd] in Hsent |- *.
  destruct (decide _), status; record_all; exact Hsent.
Qed.

Lemma message_recordable cfg s m shapes message walData status ck :
  Forall recordable (measure_message cfg s m shapes message walData status ck).2.
Proof.
  unfold measure_message. cbv zeta.
  destruct (Consume (rs_decoder s) (Some shapes) message) as [d [[t|]|e]]; [|by record_all..].
  destruct message; try (by record_all). destruct (decide _); [by record_all|].
  match goal with |- context [measure_accept ?m ?t ?a ?st ?ck] =>
    pose proof (accept_recordable m t a st ck) as Ha; destruct (measure_accept m t a st ck) as [m' after] end.
  apply Forall_app_2; [apply transaction_recordable|exact Ha].
Qed.

Lemma turn_recordable cfg s m i ck : Forall recordable (measure_turn cfg s m i ck).2.
Proof.
  unfold measure_turn. destruct (in_received i) as [data| | | | | | ]; [|apply acknowledge_recordable|by record_all..].
  unfold measure_data. destruct data as [|id rest]; [by record_all|]. destruct (decide _).
  - destruct (parse_xlog rest) as [[[? ?] walData]|]; [|by record_all]. do 2 (destruct (decide _); [by record_all|]).
    destruct (parse_message walData); [apply message_recordable|record_all].
  - destruct (decide _); [|by record_all]. destruct (parse_keepalive rest) as [[? []]|]; [|by record_all..].
    apply acknowledge_recordable.
Qed.

Lemma receive_recordable cfg s m inputs clocks : Forall recordable (measured_receive cfg s m inputs clocks).2.2.
Proof.
  revert s m clocks. induction inputs as [|i rest IH]; intros s m clocks; [by record_all|]. cbn [measured_receive].
  pose proof (turn_recordable cfg s m i (clocks 0%nat)) as Ht. destruct (measure_turn cfg s m i _) as [m1 l1].
  destruct (receive_turn cfg s i) as [s1 [u|e]]; [|exact Ht].
  specialize (IH s1 m1 (λ n, clocks (1 + n)%nat)). destruct (measured_receive cfg s1 m1 rest _) as [r [m2 l2]].
  by apply Forall_app_2.
Qed.

Lemma streamError_recordable e : recordable (streamError e).
Proof. record_all. Qed.

(** Whatever [Run] meets, what it records is recorded on instruments the reader
    created, of their kind, with allowed sets. *)
Lemma Run_recordable cfg cause attempts s m reads clocks :
  Forall recordable (measured_Run cfg cause attempts s m reads clocks).2.2.
Proof.
  revert attempts s m clocks. induction reads as [|r rest IH]; intros attempts s m clocks; [by record_all|].
  cbn [measured_Run].
  assert (Forall recordable (measured_read cfg s m (at_start r) (at_inputs r) (clocks 0%nat)).2.2) as Hread.
  { unfold measured_read. destruct (at_start r); [apply receive_recordable|record_all]. }
  destruct (measured_read _ _ _ _ _ _) as [[s1 err] [m1 l1]]. cbn [snd] in Hread.
  pose proof streamError_recordable. assert (recordable (count "watchd.cdc.reconnects" 1)) by record_all.
  destruct err as [err|]; [|exact Hread]. destruct (at_ctxDone r); [exact Hread|].
  destruct (at_streamDone r); [by record_all|]. destruct (negb _); [by record_all|].
  destruct (decide _); [by record_all|]. destruct (at_wait r) as [e|].
  - destruct (at_waitCtxDone r); [by record_all|]. destruct (at_waitStreamDone r); by record_all.
  - specialize (IH (attempts + 1) s1 m1 (λ n, clocks (1 + n)%nat)).
    destruct (measured_Run _ _ _ _ _ _ _) as [[s2 [[state reconnects] out]] [m2 l2]]. by record_all.
Qed.
End Recorded.

(** They are among the instruments [newReaderMetrics] creates, at every limit. *)
Lemma stream_instruments_created cfg l :
  reader_instruments cfg = Some l → stream_instruments ⊆ (λ i, (in_kind i, in_name i)) <$> l.
Proof.
  unfold reader_instruments. destruct (powersOf4 (f64_of_int 1) _) as [changes|]; [|by intros].
  destruct (powersOf4 (f64_of_int 256) _) as [sizes|]; [|by intros]. intros [= <-] kn Hkn.
  revert kn Hkn. apply Forall_forall. apply (bool_decide_unpack _). vm_compute. exact I.
Qed.

(** ** Every component under the assertion *)

Definition of_measurement (m : measurement) : string * attribute_set := (me_name m, me_attrs m).
Definition of_observation (o : observation) : string * attribute_set := ((obs_measured o).1.2, (obs_measured o).2).

(** What the components record, by the operation that records it. *)
Inductive watchd_records {S} `{TransactionSink S} `{PgLogRepl} : list (string * attribute_set) → Prop :=
| records_Run cfg cause attempts (s : rstate S) m reads clocks :
    watchd_records (of_observation <$> (measured_Run cfg cause attempts s m reads clocks).2.2)
| records_gauges state (s : rstate S) m : watchd_records (of_measurement <$> registerGauges state s m)
| records_snapshot mode rows err :
    watchd_records (of_measurement <$> startSnapshot mode ++ observe_rows mode rows ++ finish mode err)
| records_snapshot_times mode duration err elapsed :
    watchd_records (of_observation <$> page mode duration :: finish_duration mode err elapsed)
| records_transition {E} (m : option (meter E)) cfg rm state measured :
    newReaderMetrics m cfg = Some (Ok rm) → count_transition rm state = Some measured →
    watchd_records [of_measurement measured]
| records_send event : watchd_records (of_measurement <$> countingSend event)
| records_hub h : watchd_records (of_measurement <$> (hub_gauges h).1)
| records_serving serving : watchd_records [of_measurement (observe_serving serving)]
| records_resync projection reason : watchd_records [of_measurement (sync_resync projection reason)].

(** The SDK's promise, below its limit on the sets of an instrument: a data
    point's set is one that was recorded on its instrument. *)
Definition gathers (recorded : list (string * attribute_set)) (scopes : list (list collected)) : Prop :=
  ∀ scope m set, scope ∈ scopes → m ∈ scope → IsWatchdMetric (cm_Name m) = true → set ∈ attributeSets (cm_Data m) →
    (cm_Name m, set) ∈ recorded.

Abbreviation recorded_allowed := (Forall (λ r : string * attribute_set, allowed_set r.2)).

Lemma measurements_allowed l :
  Forall (λ m, allowed_set (me_attrs m)) l → recorded_allowed (of_measurement <$> l).
Proof. intros Hl. by apply Forall_fmap. Qed.

Lemma observations_allowed l : Forall recordable l → recorded_allowed (of_observation <$> l).
Proof. intros Hl. apply Forall_fmap. eapply Forall_impl; [exact Hl|]. by intros o [_ Ho]. Qed.

Lemma one_of_allowed gauge names current : Forall (λ m, allowed_set (me_attrs m)) (one_of gauge names current).
Proof. apply Forall_lookup. intros i m (s & _ & ->)%list_lookup_imap_Some. cbn [me_attrs]. auto. Qed.

(** Lists of measurements whose sets are empty or built by [attrs]. *)
Ltac measure_all :=
  repeat first [apply Forall_nil_2 | apply Forall_app_2 | apply one_of_allowed |
                apply Forall_cons_2; [cbn [me_attrs]; solve [auto]|] | case_decide | case_match].

Lemma watchd_records_allowed {S} `{TransactionSink S} `{PgLogRepl} recorded :
  watchd_records recorded → recorded_allowed recorded.
Proof.
  intros [].
  - apply observations_allowed, Run_recordable.
  - apply measurements_allowed. unfold registerGauges. measure_all.
  - apply measurements_allowed. unfold startSnapshot, observe_rows, finish. measure_all.
  - apply Forall_fmap, Forall_cons_2; [cbn; auto|]. destruct err; [constructor|]. constructor; [cbn; auto|constructor].
  - pose proof (reader_metrics_complete m cfg) as (l & r & _ & Hr & _ & _ & Hrm). simplify_eq.
    destruct Hrm as (_ & _ & _ & Hcount). rewrite Hcount in *. simplify_eq. constructor; [|constructor].
    apply map_Forall_singleton. reflexivity.
  - apply measurements_allowed. unfold countingSend. measure_all.
  - apply measurements_allowed. unfold hub_gauges. measure_all.
  - constructor; [cbn; auto|constructor].
  - constructor; [|constructor]. cbn. apply map_Forall_insert_2; [reflexivity|].
    apply map_Forall_singleton. reflexivity.
Qed.

(** Whatever the components record, in any number of operations, the assertion
    passes on it. *)
Theorem components_pass_assertion {S} `{TransactionSink S} `{PgLogRepl} recorded scopes :
  Forall watchd_records recorded → gathers (concat recorded) scopes → AssertAllowedAttributes (Ok scopes) = Ok [].
Proof.
  intros Hall Hsdk. apply AssertAllowedAttributes_passes. intros scope m set Hs Hm Hw Hset.
  specialize (Hsdk _ _ _ Hs Hm Hw Hset). apply elem_of_concat in Hsdk as (l & Hin & Hl).
  rewrite Forall_forall in Hall. specialize (Hall l Hl). apply watchd_records_allowed in Hall.
  rewrite Forall_forall in Hall. by apply (Hall (cm_Name m, set)).
Qed.

(** A key outside the allowlist is reported on watchd's metrics only; a point is
    found by exactly its attributes. *)
Definition demo_scopes : list (list collected) :=
  [[mkCollected "watchd.hub.resyncs"
      (SumInt64 [mkDataPoint {["reason" := "slow_watcher"]} 2;
                 mkDataPoint {["tenant" := "acme"; "reason" := "slow_watcher"]} 1])];
   [mkCollected "rpc.server.duration" (HistogramFloat64 [mkHistogramDataPoint {["rpc.method" := "Watch"]} 3 f64_zero])]].

Example demo_assertion : AssertAllowedAttributes (Ok demo_scopes) = Ok [("watchd.hub.resyncs", "tenant")].
Proof. reflexivity. Qed.

Example demo_values :
  Harness_Value (Ok demo_scopes) "watchd.hub.resyncs" {["reason" := "slow_watcher"]} = Ok (Some (f64_of_int 2)) ∧
  Harness_Value (Ok demo_scopes) "watchd.hub.resyncs" ∅ = Ok None ∧
  Harness_Value (Ok demo_scopes) "rpc.server.duration" ∅ = Err (NotSumOrGauge "rpc.server.duration") ∧
  HistogramCount (Ok demo_scopes) "rpc.server.duration" {["rpc.method" := "Watch"]} = Ok 3 ∧
  HistogramCount (Ok demo_scopes) "watchd.serving" ∅ = Ok 0.
Proof. split_and!; vm_compute; reflexivity. Qed.
