(* ===== verification/Pipeline.v ===== *)
(** * The process as one system: reader, source, hub

    The theorems on watches hold for any environment that gives the hub
    well-formed transactions and snapshots of its own source. Here that
    environment is the program's: the hub and the reader [Serve] builds from
    one configuration, the transactions [Run] hands its sink, and the snapshots
    [Source.Snapshot] answers. *)

From S2P Require Import Prelude Float64 Errors CdcTypes Visibility Events Config Relation Catalog Decoder DecoderProps Hub HubWindow HubAccept HubProps HubWatch HubSystem SnapshotRead Reader ReaderProps Wal Bootstrap Source Server Table Daemon.
From Stdlib Require Import Ascii.
Local Open Scope string_scope.
Local Open Scope list_scope.
Local Open Scope Z_scope.

(** ** What the reader accepts *)

Section Accepted.
Context {S : Type} `{TransactionSink S} `{PgLogRepl}.

(** A transaction's COMMIT record starts before it ends: PostgreSQL's. *)
Definition commits_end (i : input) : Prop :=
  match wire_of i with WireMessage (MsgCommit c endLSN) => c < endLSN | _ => True end.

Lemma Consume_commit d shapes c endLSN d' t :
  Consume d shapes (MsgCommit c endLSN) = (d', Ok (Some t)) → tx_commitLSN t = c ∧ lsn (tx_cursor t) = endLSN.
Proof. simpl. destruct (dc_pending d); [|done]. by intros [= <- <-]. Qed.

(** Every transaction [new] holds beyond [old] is well formed. *)
Definition grows (cfg : ReaderConfig) (s s' : rstate S) : Prop :=
  ∃ ts, rs_accepted s' = rs_accepted s ++ ts ∧ Forall (wf_tx (rd_sourceID cfg)) ts.

Lemma grows_same cfg s s' : rs_accepted s' = rs_accepted s → grows cfg s s'.
Proof. intros E. exists []. by rewrite app_nil_r. Qed.

Lemma grows_trans cfg s1 s2 s3 : grows cfg s1 s2 → grows cfg s2 s3 → grows cfg s1 s3.
Proof.
  intros (t1 & E1 & H1) (t2 & E2 & H2). exists (t1 ++ t2). rewrite E2, E1, app_assoc. split; [done|].
  by apply Forall_app.
Qed.

Lemma acknowledge_accepted (s : rstate S) status s' r :
  acknowledge s status = (s', r) → rs_accepted s' = rs_accepted s.
Proof. unfold acknowledge. by destruct status; intros [= <- _]. Qed.

Lemma consume_message_grows cfg s shapes m status s' r :
  (∀ c endLSN, m = MsgCommit c endLSN → c < endLSN) → consume_message cfg s shapes m status = (s', r) → grows cfg s s'.
Proof.
  intros Hm. unfold consume_message.
  destruct (Consume (rs_decoder s) (Some shapes) m) as [d [[t|]|e]] eqn:Hc;
    [|intros [= <- _]; by apply grows_same..].
  destruct m; try (intros [= <- _]; by apply grows_same).
  apply Consume_commit in Hc as [Hcommit Hend]. destruct (decide _); [intros [= <- _]; by apply grows_same|].
  unfold accept_transaction. simpl. destruct (sink _ _) as [k|e]; [|intros [= <- _]; by apply grows_same].
  set (t' := mkTransaction _ _ _ _ _ _). intros Ha. exists [t']. split.
  - destruct (acknowledge _ _) as [s2 [u|e]] eqn:Hk; apply acknowledge_accepted in Hk; injection Ha as <- _; exact Hk.
  - apply Forall_singleton. split; [done|]. simpl. rewrite Hcommit, Hend. by apply Hm.
Qed.

Lemma receive_turn_grows cfg s i s' r :
  commits_end i → receive_turn cfg s i = (s', r) → grows cfg s s'.
Proof.
  unfold receive_turn, commits_end, wire_of. intros Hi. destruct (in_received i) as [data| |sq msg| | |e|];
    try (intros [= <- _]; by apply grows_same).
  - unfold consumeCopyData. destruct data as [|id rest]; [intros [= <- _]; by apply grows_same|].
    destruct (decide (id = "w"%char)); [|destruct (decide (id = "k"%char)); [|intros [= <- _]; by apply grows_same]].
    + destruct (parse_xlog rest) as [[[walStart serverWALEnd] walData]|]; [|intros [= <- _]; by apply grows_same].
      destruct (decide _); [intros [= <- _]; by apply grows_same|].
      destruct (decide _); [intros [= <- _]; by apply grows_same|].
      destruct (parse_message walData) as [m|]; [|intros [= <- _]; by apply grows_same].
      intros Hc. apply (consume_message_grows cfg) in Hc; [exact Hc|]. by intros c endLSN ->.
    + destruct (parse_keepalive rest) as [[k reply]|]; [|intros [= <- _]; by apply grows_same].
      unfold consume_keepalive. intros Hc. apply grows_same.
      destruct reply; [destruct (acknowledge _ _) as [s2 [u|x]] eqn:Hk; apply acknowledge_accepted in Hk|];
        injection Hc as <- _; rewrite ?Hk; by destruct (decide _).
  - destruct (acknowledge s (in_status i)) as [s2 [u|e]] eqn:Hk; apply acknowledge_accepted in Hk;
      intros [= <- _]; by apply grows_same.
Qed.

Lemma receive_grows cfg s inputs s' e : Forall commits_end inputs → receive cfg s inputs = (s', e) → grows cfg s s'.
Proof.
  revert s. induction inputs as [|i rest IH]; intros s Hin; cbn [receive]; [intros [= <- _]; by apply grows_same|].
  apply Forall_cons in Hin as [Hi Hin].
  destruct (receive_turn cfg s i) as [s1 r] eqn:Ht. apply (receive_turn_grows cfg) in Ht; [|done].
  destruct r as [u|err]; [|by intros [= <- _]]. intros Hr. eapply grows_trans; [exact Ht|]. by eapply IH.
Qed.

Lemma Run_grows cfg cause attempts s reads s' out :
  Forall (λ r, Forall commits_end (at_inputs r)) reads → Run cfg cause attempts s reads = (s', out) → grows cfg s s'.
Proof.
  revert attempts s out. induction reads as [|r rest IH]; intros attempts s out Hall.
  { intros [= <- _]. by apply grows_same. }
  apply Forall_cons in Hall as [Hr Hall]. intros Hrun. assert (grows cfg s (read_once cfg s (at_start r) (at_inputs r)).1) as Hread.
  { unfold read_once. destruct (at_start r) as [startLSN|e]; [|by apply grows_same].
    destruct (receive _ _ _) as [s1 e] eqn:He. by apply receive_grows in He. }
  apply run_after_read in Hrun as [->|(state & n & out' & Hrun)]; [exact Hread|].
  eapply grows_trans; [exact Hread|]. by eapply IH.
Qed.

End Accepted.

(** ** What the source answers *)

Section Answered.
Context {K : Type} `{RowSink K} `{PgIdentifier} `{LsnText}.

Lemma takeSnapshot_source fuel cfg s spec scope sink q shapes' k snapshot :
  takeSnapshot fuel cfg s spec scope sink q = (shapes', k, Some (Ok snapshot)) →
  sourceID (sn_cursor snapshot) = rd_sourceID cfg.
Proof.
  unfold takeSnapshot. destruct sink as [k0|]; [|done].
  destruct (validateSourceProjectionSpec cfg spec) as [[]|] eqn:Hspec; simpl; [|done].
  destruct (connectManagementWithTimeout _ _); simpl; [|done].
  destruct (validatePublication _); simpl; [|done].
  destruct (validateProjectionSpec s spec _); [|done]. destruct (snapshot_checks q) as [cursor|]; [|done].
  destruct (readSnapshot _ _ _ _ _ _ _) as [k' [[v|e]|]]; simpl; [|done..].
  destruct (checkReplayWindow _ _); simpl; [|done]. intros [= _ _ <-]. simpl.
  unfold validateSourceProjectionSpec in Hspec. destruct (validateProjectionSpecConfig spec); [|done]. simpl in Hspec.
  by destruct (decide (sp_sourceID spec ≠ rd_sourceID cfg)) as [|?%dec_stable].
Qed.

Lemma bootstrap_source fuel cfg s spec scope sink q b snapshot :
  bootstrap fuel cfg s spec scope sink q = (b, Some (Ok snapshot)) → sourceID (sn_cursor snapshot) = rd_sourceID cfg.
Proof.
  unfold bootstrap. destruct sink as [k0|]; [|done].
  destruct (validateSourceProjectionSpec cfg spec) as [[]|] eqn:Hspec; simpl; [|done].
  destruct (connectReplication _ _); simpl; [|done]. destruct (connectManagementWithTimeout _ _); simpl; [|done].
  destruct (validatePublication _); simpl; [|done]. destruct (validateProjectionSpec s spec _); [|done].
  destruct (createBootstrapSlot q); [|done].
  destruct (bootstrap_read _ _ _ _ _ _ _) as [k' [[[cursor v]|e]|]]; [| |done].
  - intros [= _ <-]. simpl. unfold validateSourceProjectionSpec in Hspec.
    destruct (validateProjectionSpecConfig spec); [|done]. simpl in Hspec.
    by destruct (decide (sp_sourceID spec ≠ rd_sourceID cfg)) as [|?%dec_stable].
  - by destruct (bootstrap_cleanup _ _ _).
Qed.

(** A step of the source with what its reader's [Bootstrap] and [Snapshot]
    answer. *)
Definition answers (reader : ReaderConfig) (l : Source.label) : Prop :=
  match l with
  | LBoot _ (Ok snapshot) => ∃ fuel s spec scope sink q b, bootstrap fuel reader s spec scope sink q = (b, Some (Ok snapshot))
  | LRead _ (Ok snapshot) =>
      ∃ fuel s spec scope sink q s' k, takeSnapshot fuel reader s spec scope sink q = (s', k, Some (Ok snapshot))
  | _ => True
  end.

(** A snapshot some call of [Source.Snapshot] returned, whatever else the
    source's callers and goroutines did. *)
Definition answered (reader : ReaderConfig) (snapshot : Snapshot) : Prop :=
  ∃ ls s n, source_run new_source_sys ls = Some s ∧ Forall (answers reader) ls ∧
    ss_calls s !! n = Some (SnapshotReturned (Ok snapshot)).

(** What has been returned is of the reader's source. *)
Definition returned_source (reader : ReaderConfig) (s : source_sys) : Prop :=
  ∀ n snapshot, ss_calls s !! n = Some (SnapshotReturned (Ok snapshot)) →
    sourceID (sn_cursor snapshot) = rd_sourceID reader.

Lemma returned_insert reader src mu src' mu' calls n c :
  returned_source reader (mkSourceSys src mu calls) →
  (∀ snapshot, c = SnapshotReturned (Ok snapshot) → sourceID (sn_cursor snapshot) = rd_sourceID reader) →
  returned_source reader (mkSourceSys src' mu' (<[n := c]> calls)).
Proof.
  intros Hs Hc m snapshot. simpl. destruct (decide (m = n)) as [->|Hne].
  - rewrite lookup_insert_eq. intros [= ->]. by apply Hc.
  - rewrite lookup_insert_ne by done. apply Hs.
Qed.

Lemma returned_step reader s l s' :
  answers reader l → returned_source reader s → source_step s l = Some s' → returned_source reader s'.
Proof.
  destruct s as [src mu calls]. intros Ha Hs Hl.
  destruct l as [n|n| |[n|i|i]|n exists_|n boot|n answer|i|i err]; simpl in Hl; repeat case_match; simplify_eq/=;
    try done; try (eapply returned_insert; [exact Hs|]; by intros snapshot [=]).
  - eapply returned_insert; [exact Hs|]. intros sn [= <-]. destruct Ha as (? & ? & ? & ? & ? & ? & ? & Hb).
    by eapply bootstrap_source.
  - eapply returned_insert; [exact Hs|]. intros sn [= ->]. destruct Ha as (? & ? & ? & ? & ? & ? & ? & ? & Hb).
    by eapply takeSnapshot_source.
  - eapply returned_insert; [exact Hs|]. intros sn [= ->]. destruct Ha as (? & ? & ? & ? & ? & ? & ? & ? & Hb).
    by eapply takeSnapshot_source.
Qed.

Lemma answered_source reader snapshot : answered reader snapshot → sourceID (sn_cursor snapshot) = rd_sourceID reader.
Proof.
  intros (ls & s & n & Hr & Hall & Hn). revert n snapshot Hn. change (returned_source reader s).
  assert (returned_source reader new_source_sys) as Hinit by done. revert Hinit Hr. generalize new_source_sys.
  induction Hall as [|l ls Hl Hall IH]; intros s0 Hinit Hr; simplify_eq/=; [done|].
  destruct (source_step s0 l) as [s1|] eqn:Hs; simpl in Hr; [|done]. by eapply IH, Hr; eapply returned_step.
Qed.

End Answered.

(** ** The system *)

Section System.
Context `{LsnText}.

Lemma step_source s a l s' :
  sys_ok s a → env_ok (h_sourceID (s_hub s)) l → step s l = Some s' → h_sourceID (s_hub s') = h_sourceID (s_hub s).
Proof.
  intros [Hok Hwin Hws Hfr Hid Hvw] Henv Hstep. destruct l as [t| | |w req|w c]; simpl in Hstep.
  - destruct (Accept (s_hub s) t) as [[h' tick]|e] eqn:HA; injection Hstep as <-; [|done]. simpl.
    pose proof (Accept_cases (s_hub s) t) as Hc. destruct (decide _).
    + rewrite HA in Hc. injection Hc as Hc. destruct (accept_new_spec (s_hub s) t Hok) as (_ & Hf & _).
      rewrite <-Hc in Hf. by injection Hf.
    + rewrite HA in Hc. by destruct Hc as (-> & _).
  - destruct (s_closing s); [done|]. by injection Hstep as <-.
  - injection Hstep as <-. done.
  - destruct (s_gos s !! w); [done|]. unfold watch_begin in Hstep.
    by destruct (h_projections (s_hub s) !! rq_projection req); injection Hstep as <-.
  - destruct (s_gos s !! w) as [g|] eqn:Hg; [|done]. destruct (h_heap (s_hub s) !! w) as [obj|] eqn:Hobj; [|done].
    destruct (watch_step _ _ _ _ _ _) as [[[h' at'] events]|] eqn:Hw; [|done]. injection Hstep as <-.
    pose proof (view_reach_base _ (Hvw w g obj Hg Hobj)) as Hbase.
    destruct (own_frame (view_of s a w obj g) (s_hub s) w c h' at' events Hbase Hok Hobj eq_refl eq_refl Hw)
      as ([_ _ Hfix _ _] & _). by injection Hfix.
Qed.

Lemma run_env s a ls s' :
  sys_ok s a → Forall (env_ok (h_sourceID (s_hub s))) ls → run s ls = Some s' → env_run s ls.
Proof.
  revert s a. induction ls as [|l ls IH]; intros s a Hok Hall Hrun; [done|]. cbn [env_run].
  apply Forall_cons in Hall as [Hl Hall]. split; [done|]. cbn [run] in Hrun.
  destruct (step s l) as [s1|] eqn:Hs; [|done]. eapply IH; [by eapply sys_ok_step| |exact Hrun].
  by rewrite (step_source s a l s1).
Qed.

Lemma New_source cfg h : New cfg true = Ok h → h_sourceID h = cfg_sourceID cfg.
Proof.
  unfold New. destruct (decide _); [done|]. cbv zeta. destruct (decide (_ < 0 ∨ _)); [done|].
  destruct (decide (map_Forall _ _)); [by intros [= <-]|done].
Qed.

Lemma NewReader_source config sink instruments reader :
  NewReader config sink instruments = Ok reader → rd_sourceID reader = rd_sourceID config.
Proof.
  unfold NewReader. destruct (validateReaderConfig _ _); simpl; [|done].
  destruct instruments; [|done]. by intros [= <-].
Qed.

End System.

(** ** Properties *)

(** The labels of the hub's system that come from a process's own reader, which
    has accepted [accepted]. *)
Definition from_reader (K : Type) `{RowSink K} `{PgIdentifier} `{LsnText} (reader : ReaderConfig) (accepted : list Transaction)
    (l : HubWatch.label) : Prop :=
  match l with
  | LAccept t => t ∈ accepted
  | LGo _ (ChSnapshot (Ok snapshot)) => answered (K := K) reader snapshot
  | _ => True
  end.

(** One process is one of the systems the theorems on watches are about. *)
Lemma process_reachable (K : Type) `{RowSink K} `{PgIdentifier} `{LsnText} {S : Type} `{TransactionSink S} `{PgLogRepl}
    c hub reader cause (k : S) reads s' out ls sys :
  New (hubConfig c) true = Ok hub → NewReader (readerConfig c) true (Ok tt) = Ok reader →
  Forall (λ r, Forall commits_end (at_inputs r)) reads →
  Run reader cause 0 (new_reader reader k) reads = (s', out) →
  Forall (from_reader K reader (rs_accepted s')) ls → run (init_sys hub) ls = Some sys →
  Forall (env_ok (h_sourceID hub)) ls ∧ reachable sys (aux_run (init_sys hub) ls (mkAux [] ∅ ∅)).
Proof.
  intros Hhub Hreader Hcommits Hrun Hlabels Hsys.
  apply (Run_grows reader) in Hrun as (ts & Hts & Hwf); [|done]. simpl in Hts. subst ts.
  assert (Forall (env_ok (h_sourceID hub)) ls) as Henv; [eapply Forall_impl; [exact Hlabels|]|split; [done|]].
  - rewrite (New_source _ _ Hhub). change (cfg_sourceID (hubConfig c)) with (rd_sourceID (readerConfig c)).
    rewrite <-(NewReader_source _ _ _ _ Hreader).
    intros l Hl. destruct l as [t| | |w req|w ch]; try done.
    + rewrite Forall_forall in Hwf. by apply Hwf.
    + destruct ch as [| |rows|[snapshot|e]| | | |]; try done. by apply (answered_source reader).
  - exists (hubConfig c), hub. split; [done|]. apply run_steps; [done|].
    eapply (run_env _ (mkAux [] ∅ ∅)); [|exact Henv|exact Hsys].
    apply reachable_ok. exists (hubConfig c), hub. split; [done|]. constructor.
Qed.

(** ** The hub's history *)

(** The transactions handed to the hub, in order. *)
Definition accepts (ls : list HubWatch.label) : list Transaction :=
  omap (λ l, match l with LAccept t => Some t | _ => None end) ls.

(** A hub keeps what is new of them. *)
Lemma run_history `{LsnText} slot s a ls s' :
  sys_ok s a → Forall (env_ok (h_sourceID (s_hub s))) ls → (∀ t, t ∈ accepts ls → slot < lsn (tx_cursor t)) →
  run s ls = Some s' →
  a_acc (aux_run s ls a) = a_acc a ++ news (last_end slot (a_acc a)) (accepts ls).
Proof.
  revert s a. induction ls as [|l ls IH]; intros s a Hok Hall Hslot Hrun; [by rewrite app_nil_r|].
  apply Forall_cons in Hall as [Hl Hall]. cbn [run aux_run] in *.
  destruct (step s l) as [s1|] eqn:Hs; [|done].
  pose proof (sys_ok_step s a l s1 Hok Hl Hs) as Hok1. pose proof (step_source s a l s1 Hok Hl Hs) as Hsrc.
  rewrite <-Hsrc in Hall. assert (∀ t, t ∈ accepts ls → slot < lsn (tx_cursor t)) as Hslot1.
  { intros t Ht. apply Hslot. unfold accepts in *. csimpl. destruct l; try done. by right. }
  rewrite (IH s1 _ Hok1 Hall Hslot1 Hrun).
  destruct l as [t| | |w req|w c]; try done.
  2:{ simpl. by destruct (s_gos s !! w), (s_gos s1 !! w). }
  cbn [aux_step]. unfold accepts. csimpl. fold (accepts ls). cbn [news].
  assert (fresh (s_hub s) t ↔ last_end slot (a_acc a) < lsn (tx_cursor t)) as Hfresh.
  { pose proof (so_window _ _ Hok) as Hwin. pose proof (win_received _ _ Hwin) as Hrec. unfold fresh.
    destruct (last (a_acc a)) as [u|] eqn:Hlast.
    - destruct Hrec as [-> ->]. apply last_Some in Hlast as [l Hlast]. destruct Hl as [-> _].
      destruct (win_wf _ _ Hwin u) as [-> _]; [rewrite Hlast; apply elem_of_app; right; by left|].
      unfold last_end. rewrite Hlast, foldl_app. simpl. naive_solver.
    - apply last_None in Hlast. rewrite Hlast, Hrec. split; [|done]. intros _. apply Hslot.
      unfold accepts. csimpl. by left. }
  destruct (decide (fresh (s_hub s) t)) as [Hf|Hf]; [rewrite decide_True by (by apply Hfresh)|
    rewrite decide_False by (by intros ?%Hfresh); done].
  cbn [a_acc]. unfold last_end at 1. rewrite foldl_app. simpl. by rewrite <-app_assoc.
Qed.


(** ** A concrete process *)

Definition demo_process : DaemonConfig :=
  mkDaemonConfig "db" "watchd_slot" "watchd_pub" "127.0.0.1:7070"
    {["orders" := mkProjectionConfig "public" "orders" "shop" ["shop"; "id"]]} 0
    (mkOpsConfig "" false 0 0) (mkRetentionConfig 0 f64_zero f64_zero 0) "postgres://".

Definition demo_process_hub : option Hub :=
  match New (hubConfig demo_process) true with Ok h => Some h | Err _ => None end.

Definition demo_process_reader : ReaderConfig := normalizeReaderConfig (readerConfig demo_process).

Definition demo_process_run : rstate (list Transaction) * (connState * Z * run_outcome) :=
  @Run _ demo_sink demo_log_wire demo_process_reader (ESentinel ErrRetainedWALBudgetExceeded) 0
    (new_reader demo_process_reader []) demo_log_reads.

(** A watch begins, and the log's first transaction reaches the hub twice, the
    second one once. *)
Definition demo_process_labels : list HubWatch.label :=
  LWatch 0%nat (mkRequest "orders" "a" "") :: (LAccept <$> rs_accepted demo_process_run.1) ++ [LGo 0%nat ChGo].

